(* ===== verification/_CoqProject ===== *)
-Q . S2P
Prelude.v
RustStr.v
NetAddr.v
NetAddrSpec.v
Log.v
Config.v
Comments.v
Parser.v
ParserSpec.v
ParserTests.v
Render.v
Router.v
Security.v
SecuritySpec.v
SecurityProps.v
Cache.v
CacheSpec.v
Locks.v
CacheLocks.v
CacheRefine.v
CacheLifetime.v
ConfigLocks.v
ProxyProtocol.v
ProxyProtocolSpec.v
Tls.v
Http.v
Effects.v
ErrorPages.v
Auth.v
Runtime.v
RuntimeSpec.v
UnitTests.v
Startup.v
Proxy.v
ProxySpec.v
AccessLog.v
Worker.v
EndToEnd.v
System.v
SystemRun.v
SystemSpec.v
SystemSecurity.v
SystemCache.v
SystemConnections.v
SystemProgress.v
