(* ===== verification/Prelude.v ===== *)
(** * Barebones-Reverse-Proxy: a verification of the proxy in Rocq

    The program is an HTTP(S) reverse proxy in Rust ([src/src]).  It reads a
    configuration file, listens with several worker threads, optionally decodes the
    PROXY protocol and terminates TLS, and for each request applies a blacklist, a
    rate limit and a body limit, looks into a cache of static assets, asks an
    external provider to authenticate the client, and forwards the request to the
    upstream of the first matching route.  SIGHUP replaces the configuration while
    the workers go on.

    ** How the parts interact

    [main] parses the file ([parser.rs]) into a [Config]; [Server::new]
    ([server.rs]) turns it into an [ActiveConfig] ([runtime_config.rs]) with a
    router, a TLS acceptor, a security manager, an auth provider and a cache
    engine, and puts it into a store that the workers read and the reload thread
    writes.  A worker ([worker.rs]) checks the peer against the blacklist, lets
    [proxy_protocol.rs] determine the client's address, checks again, does the TLS
    handshake with the resolver of [tls.rs] and serves requests with
    [handle_request] ([proxy.rs]), which calls the security manager
    ([security.rs]), the router ([router.rs]), the cache ([cache.rs]), the auth
    provider ([auth.rs]) and the error pages ([error_pages.rs]).

    ** The files

    - [Prelude]: results and the [?] operator, integer widths, tactics and hints.
    - [RustStr], [NetAddr]: the parts of [std::str] and [std::net] the program uses.
      [NetAddrSpec]: every address, of version 4 or 6, reads back from its text.
    - [Log]: [log.rs]: lines, levels, the global [LOG_FILE], and what the standard
      output and each file hold.
    - [Config]: the structs of [config.rs] and the enum [ParseError] with its text.
    - [Comments], [Parser]: [parser.rs] function by function; a loop over lines is a
      recursion on the lines that remain, a block's local variables are a record.
    - [ParserSpec]: [config_ok], what the rest of the program relies on; every
      accepted file satisfies it and every input is answered.  [ParserTests]: the unit
      tests of [parser.rs], evaluated.
    - [Render]: a printer for configurations, which the parser inverts.
    - [Router]: [router.rs] with the specification of matching and rewriting.
    - [Security]: [security.rs], each method as a function of the clock, the address
      and the state, with the mutex's poison flag and panics as outcomes.
      [SecuritySpec] has the abstract history that never forgets and the simulation
      between the two; [SecurityProps] derives the rate limit, bans, and isolation.
    - [Cache]: [cache.rs] over the interface [LruOps]/[LruLaws] of the third-party
      container ([ListLru] satisfies it).  [CacheSpec] has the invariant of every
      reachable engine, eviction order, acceptance and expiry.
    - [Locks]: programs that lock, read, write and unlock two cells behind
      readers-writer locks, in any interleaving; those that keep a discipline are
      atomic, free of deadlock and bounded in time.  [CacheLocks]: the methods of
      [cache.rs] as such programs, with the locks taken and released where the code
      does.  [CacheRefine]: the abstract cache, a list in order of use, and the
      refinement.  [CacheLifetime]: how long an entry is found.  [ConfigLocks]: the shared configuration of [runtime_config.rs]
      under its lock.
    - [ProxyProtocol], [ProxyProtocolSpec]: [proxy_protocol.rs] over timed arrivals;
      round trip, spoofing, payload transparency, absence of panics.
    - [Tls]: [tls.rs] and [ProxyError], with file access and rustls as the class
      [KeyLoader]; which certificate a client gets.
    - [Http]: the interface of hyper's types, [Http]/[HttpLaws], and an instance.
    - [Effects]: handlers as programs whose calls to shared state, to other servers
      and to spawned tasks are effects answered by an oracle, with a weakest
      precondition.  A theorem for every oracle covers every interleaving.
    - [ErrorPages], [Auth]: [error_pages.rs] and [auth.rs].
    - [Runtime]: [runtime_config.rs] and the reload thread of [server.rs]; shared
      objects are locations in a heap.  [RuntimeSpec]: what a SIGHUP changes and what
      it keeps.
    - [UnitTests]: the unit tests of the other source files, evaluated.
    - [Startup]: [main.rs], [Server::start] and the beginning of each thread, with the
      runtimes, the signal handler and the socket calls of [bind_reuseport]; when and how
      the process comes up.
    - [Proxy], [ProxySpec]: [proxy.rs], one definition per stage of
      [handle_request]; the gates, authentication before forwarding, the forwarded
      request, what is stored, the response headers.  [AccessLog]: the lines of the
      access log.
    - [Worker]: the task of [worker.rs] for one connection.
    - [EndToEnd]: the handler and one run of the security manager together.
    - [System]: the running server as a state machine: the shared state of
      [Runtime], a clock, and all tasks in flight, which are the programs of
      [Proxy] and [Worker]; a step is a SIGHUP, a connection, a request, or one
      effect of one task.  [SystemRun] executes it, step by step.
    - [SystemSpec], [SystemSecurity], [SystemCache], [SystemConnections]: invariants
      of its reachable states, and what follows: no task is stuck, caches stay
      bounded, the rate limit and bans hold for the server as a whole, handlers do
      not panic, a cached answer is one an upstream gave, every request came in on
      an admitted connection, no client can forge its address, and nothing reaches a
      protected upstream that the auth provider has not vouched for.
    - [SystemProgress]: how many effects each task may do, that every task can go on to
      its end, and that the server comes to rest when nothing new arrives.

    ** What the theorems show

    The comment before each claimed theorem begins with its number.  Parsing is
    total and yields only well-formed configurations; routing takes the first match
    and replaces the route's path by the upstream's, but for hosts with a slash; the security manager refines counting over
    the whole history, from which the rate limit and the exact meaning of a ban
    follow; the cache never exceeds its capacity, refines a list in order of use,
    and is linearizable and free of deadlock under its two locks, as is the hand-over
    of a new configuration to the workers; the
    PROXY protocol decodes what a trusted upstream encodes, refuses spoofed headers
    and loses no byte; protected routes are not forwarded without authentication;
    only public, complete, static answers are stored; a reload never loses the
    security state or a working configuration.  The access log reports the status
    that was answered, on a line no client can break.  For the running server, over
    every interleaving of tasks and SIGHUPs: the rate limit bounds what reaches the
    upstreams, a banned client is shut out, what a cache
    serves was answered by an upstream before, and what a client sends has no
    influence on the address it is judged under.  Every task ends within a fixed number
    of its own effects, and a server that gets no more connections and requests comes to
    rest within eighteen effects per task, however the tasks take turns.  The unit tests
    of the source files hold of the definitions.  Some theorems without a number
    ([path_endpoint_never_matches], [ban_overflow_poisons],
    [silent_eviction_leaks], [cached_answer_skips_auth], [empty_poll_drops_bytes],
    [query_decides_static], [forged_identity_passes], [cache_keys_collide],
    [slash_host_skips_rewrite], [resolve_exact], [reload_installed]) record behaviour that
    a reader of the code or of its documentation might not expect.

    ** Bounds and fuel

    Integers are [Z] with the width's bounds; [usize] is 64 bits.  Sums in the
    cache wrap at [usize] as in a release build; the invariant is stated for
    capacities below 2^63, where they do not.  The loop over the lines has the
    number of lines as fuel, the eviction loop the number of entries: each
    iteration consumes one, and the totality theorems show that this is enough.
    Decimal printing has 20 digits, enough for 64 bits, hexadecimal printing 4, enough
    for a segment of an address.  The refinement of the cache is stated for at most
    10,000 keys, the entries the container holds; beyond, [silent_eviction_leaks]
    shows how the counter drifts.  Times are nanoseconds;
    [instant_max] is the last instant of a 64-bit Linux; the steps of the system
    have a horizon for the clock, which the theorems on the security manager take to
    be a ban's length before that instant.  Characters are those below U+0100.

    ** What is not modelled

    The internals of hyper, rustls, tokio and lru: they are interfaces with laws, or
    effects that may be answered in any way.  So the bytes of a tunnel, the HTTP
    framing and the scheduling of timers do not appear, and a handler whose client
    has gone is one that takes no further step.  The time an effect takes is the
    passing of the clock between effects; a call on the manager or the cache is one
    step, as it holds the lock ([CacheLocks] shows that it may be).  An
    insertion into the cache, which reads the clock before it takes its locks, is two
    steps.  Serving a connection and copying a tunnel are one effect each, so bounds on
    effects say nothing about how long these last.  How long a server or client that is waited for takes to answer is not
    bounded, and the code has no time limit for it.  The configuration that [serve_connection] loads
    again for its header limits may be any.  A log file is known by the path it was
    opened with, and a failing write of a line, which the code ignores for the file
    and panics on for the standard output, does not happen.  The duration in a log
    line is a text from the environment.  The variant of the reload thread for
    systems without SIGHUP, a header map's limit on its number of entries, and
    allocation failure are left out.  Of the tests only those in the source files
    appear, not the integration tests, which drive the program from outside; the
    temporary files of the former are the texts they hold. *)

From Stdlib Require Export ZArith Lia Ascii.
From stdpp Require Export base tactics option list gmap sets strings.

#[export] Set Default Proof Using "Type".
#[export] Set Warnings "-clear-no-such-hyp".

(** ** Results: Rust's [Result<A, E>] and the [?] operator *)

(** [Ok a] and [Err e] of [std::result::Result]; the error type comes first so
    that [result E] is a monad. *)
Inductive result (E A : Type) : Type :=
| Ok (a : A)
| Err (e : E).
Arguments Ok {E A} a.
Arguments Err {E A} e.

#[export] Instance result_ret {E} : MRet (result E) := @Ok E.

#[export] Instance result_bind {E} : MBind (result E) :=
  λ A B (k : A → result E B) (r : result E A),
    match r with Ok a => k a | Err e => Err e end.

#[export] Instance result_eq_dec {E A} `{EqDecision E, EqDecision A} :
  EqDecision (result E A).
Proof. solve_decision. Defined.

(** [Option::ok_or_else] *)
Definition ok_or {E A} (o : option A) (e : E) : result E A :=
  match o with Some a => Ok a | None => Err e end.

(** [Result::map_err] *)
Definition map_err {E F A} (f : E → F) (r : result E A) : result F A :=
  match r with Ok a => Ok a | Err e => Err (f e) end.

(** [Result::is_ok] *)
Definition is_ok {E A} (r : result E A) : bool :=
  match r with Ok _ => true | Err _ => false end.

(** A guard with an early return of [Err e]: [if !b { return Err(e) }]. *)
Definition ensure {E} (b : bool) (e : E) : result E unit :=
  if b then Ok tt else Err e.

(** ** Machine integers: the widths the program uses, as bounds on [Z] *)

Definition u8_max : Z := 255.
Definition u16_max : Z := 65535.
Definition u32_max : Z := 4294967295.
Definition u64_max : Z := 18446744073709551615.
(** [usize] on the 64-bit targets the program is deployed on *)
Definition usize_max : Z := u64_max.

(** Result of an addition at width [usize] in a release build. *)
Definition usize_wrap (z : Z) : Z := z `mod` (usize_max + 1).

(** [usize::saturating_sub] *)
Definition saturating_sub (a b : Z) : Z := Z.max 0 (a - b).

(** [usize::checked_mul] *)
Definition checked_mul (max a b : Z) : option Z :=
  if bool_decide (a * b ≤ max)%Z then Some (a * b)%Z else None.

(** ** Lemmas *)

Lemma bind_Ok {E A B} (r : result E A) (k : A → result E B) b :
  r ≫= k = Ok b ↔ ∃ a, r = Ok a ∧ k a = Ok b.
Proof. destruct r; simpl; naive_solver. Qed.

Lemma bind_Err {E A B} (r : result E A) (k : A → result E B) e :
  r ≫= k = Err e ↔ r = Err e ∨ ∃ a, r = Ok a ∧ k a = Err e.
Proof. destruct r; simpl; naive_solver. Qed.

Lemma ok_or_Ok {E A} (o : option A) (e : E) a : ok_or o e = Ok a ↔ o = Some a.
Proof. destruct o; simpl; naive_solver. Qed.

Lemma ensure_Ok {E} b (e : E) u : ensure b e = Ok u ↔ b = true.
Proof. destruct b, u; simpl; naive_solver. Qed.

Lemma map_err_Ok {E F A} (f : E → F) (r : result E A) a :
  map_err f r = Ok a ↔ r = Ok a.
Proof. destruct r; simpl; naive_solver. Qed.

Lemma checked_mul_Some max a b c :
  checked_mul max a b = Some c ↔ (c = a * b ∧ a * b ≤ max)%Z.
Proof. unfold checked_mul. case_bool_decide; naive_solver. Qed.

Lemma usize_wrap_small z : (0 ≤ z ≤ usize_max)%Z → usize_wrap z = z.
Proof. intros. unfold usize_wrap. apply Z.mod_small. lia. Qed.

Lemma saturating_sub_exact a b : (b ≤ a)%Z → saturating_sub a b = (a - b)%Z.
Proof. unfold saturating_sub. lia. Qed.

(** ** Automation *)

(** Split every hypothesis saying that a chain of fallible steps succeeded into
    the facts about its steps. *)
Ltac inv_ok :=
  repeat match goal with
  | H : _ ≫= _ = Ok _ |- _ => apply bind_Ok in H as (? & ? & ?)
  | H : ok_or _ _ = Ok _ |- _ => apply ok_or_Ok in H
  | H : ensure _ _ = Ok _ |- _ => apply ensure_Ok in H
  | H : map_err _ _ = Ok _ |- _ => apply map_err_Ok in H
  | H : Ok _ = Ok _ |- _ => injection H as H
  | H : Err _ = Ok _ |- _ => discriminate H
  | H : Ok _ = Err _ |- _ => discriminate H
  | _ => progress simplify_eq
  end.

(** Case analysis on the tests a hypothesis or the goal is stuck on. *)
Ltac case_if :=
  match goal with
  | H : context [if ?b then _ else _] |- _ => destruct b eqn:?
  | |- context [if ?b then _ else _] => destruct b eqn:?
  end.

Create HintDb proxy discriminated.
Create Rewrite HintDb proxy.
#[export] Hint Resolve usize_wrap_small saturating_sub_exact : proxy.
