(* ===== verification/RustStr.v ===== *)
(** * Rust strings: the part of [std::str] the program uses

    A [str] is the list of its characters.  A character is an [ascii], read as
    the Unicode scalar value with the same number: the model is exact for text
    whose characters are below U+0100.  Every operation below is the
    corresponding method of [str], [char] or the integer types. *)

From S2P Require Import Prelude.

Abbreviation str := (list ascii).

Open Scope Z_scope.

(** A string literal of the source. *)
Definition lit (s : string) : str := String.list_ascii_of_string s.
Arguments lit : simpl never.
#[global] Arguments Ascii.eqb : simpl never.

Definition code (c : ascii) : Z := Z.of_N (Ascii.N_of_ascii c).
Definition chr (z : Z) : ascii := Ascii.ascii_of_N (Z.to_N z).

Definition newline : ascii := chr 10.
Definition carriage_return : ascii := chr 13.
Definition tab : ascii := chr 9.
Definition space : ascii := chr 32.

(** ** Character classes *)

(** [char::is_whitespace], the White_Space property below U+0100 *)
Definition is_whitespace (c : ascii) : bool :=
  ((9 <=? code c) && (code c <=? 13)) || (code c =? 32) || (code c =? 133)
  || (code c =? 160).

(** [char::is_ascii_digit] *)
Definition is_ascii_digit (c : ascii) : bool := (48 <=? code c) && (code c <=? 57).

(** [char::to_lowercase]: A-Z and the Latin-1 capitals (U+00D7 is a sign) *)
Definition to_lower (c : ascii) : ascii :=
  if ((65 <=? code c) && (code c <=? 90))
     || ((192 <=? code c) && (code c <=? 222) && negb (code c =? 215))
  then chr (code c + 32) else c.

(** [u8::to_ascii_lowercase], the comparison of [eq_ignore_ascii_case] *)
Definition to_ascii_lower (c : ascii) : ascii :=
  if (65 <=? code c) && (code c <=? 90) then chr (code c + 32) else c.

(** [char::to_digit(radix)] for radix 10 and 16 *)
Definition to_digit (radix : Z) (c : ascii) : option Z :=
  let n := code c in
  let d := if (48 <=? n) && (n <=? 57) then n - 48
           else if (97 <=? n) && (n <=? 102) then n - 87
           else if (65 <=? n) && (n <=? 70) then n - 55
           else radix in
  if d <? radix then Some d else None.

(** ** Searching and trimming *)

Definition str_eqb (s t : str) : bool := bool_decide (s = t).

Definition starts_with (s p : str) : bool := bool_decide (p `prefix_of` s).

Definition ends_with (s p : str) : bool := bool_decide (p `suffix_of` s).

(** [str::contains(&str)] *)
Fixpoint contains (s p : str) : bool :=
  starts_with s p || match s with [] => false | _ :: s' => contains s' p end.

(** [str::contains(char)] *)
Definition contains_char (s : str) (c : ascii) : bool := bool_decide (c ∈ s).

(** [str::strip_prefix] *)
Fixpoint strip_prefix (p s : str) : option str :=
  match p, s with
  | [], _ => Some s
  | a :: p', b :: s' => if Ascii.eqb a b then strip_prefix p' s' else None
  | _ :: _, [] => None
  end.

(** [str::find(char)]: the index of the first occurrence *)
Fixpoint find_char (c : ascii) (s : str) : option nat :=
  match s with
  | [] => None
  | d :: s' => if Ascii.eqb c d then Some 0%nat else S <$> find_char c s'
  end.

(** [str::rfind(char)]: the index of the last occurrence *)
Fixpoint rfind_char (c : ascii) (s : str) : option nat :=
  match s with
  | [] => None
  | d :: s' =>
      match rfind_char c s' with
      | Some i => Some (S i)
      | None => if Ascii.eqb c d then Some 0%nat else None
      end
  end.

Fixpoint drop_while {A} (p : A → bool) (s : list A) : list A :=
  match s with
  | [] => []
  | c :: s' => if p c then drop_while p s' else s
  end.

Definition drop_while_end {A} (p : A → bool) (s : list A) : list A :=
  reverse (drop_while p (reverse s)).

(** [str::trim] *)
Definition trim (s : str) : str := drop_while_end is_whitespace (drop_while is_whitespace s).

(** [str::trim_end_matches(char)] *)
Definition trim_end_matches (s : str) (c : ascii) : str := drop_while_end (Ascii.eqb c) s.

(** [str::to_lowercase] *)
Definition to_lowercase (s : str) : str := to_lower <$> s.

(** [str::eq_ignore_ascii_case] *)
Definition eq_ignore_ascii_case (s t : str) : bool :=
  str_eqb (to_ascii_lower <$> s) (to_ascii_lower <$> t).

(** ** Splitting *)

(** [str::split(pattern)]: the pieces between matching characters, never empty
    as a list. *)
Fixpoint split_by (p : ascii → bool) (s : str) : list str :=
  match s with
  | [] => [[]]
  | c :: s' =>
      if p c then [] :: split_by p s'
      else match split_by p s' with
           | [] => [[c]]
           | w :: ws => (c :: w) :: ws
           end
  end.

(** [str::split(char)] *)
Definition split_char (s : str) (c : ascii) : list str := split_by (Ascii.eqb c) s.

Definition nonempty (s : str) : bool := match s with [] => false | _ => true end.

(** [str::split_whitespace] *)
Definition split_whitespace (s : str) : list str :=
  List.filter nonempty (split_by is_whitespace s).

(** [str::split_inclusive('\n')]: each piece keeps its terminator, a final
    empty piece is not produced. *)
Fixpoint split_inclusive_nl (s : str) : list str :=
  match s with
  | [] => []
  | c :: s' =>
      if Ascii.eqb c newline then [c] :: split_inclusive_nl s'
      else match split_inclusive_nl s' with
           | [] => [[c]]
           | w :: ws => (c :: w) :: ws
           end
  end.

(** [strip_suffix] of one character *)
Definition strip_suffix_char (s : str) (c : ascii) : option str :=
  match reverse s with
  | d :: r => if Ascii.eqb c d then Some (reverse r) else None
  | [] => None
  end.

(** The terminator [str::lines] removes: a newline, and a carriage return
    before it. *)
Definition strip_eol (line : str) : str :=
  match strip_suffix_char line newline with
  | None => line
  | Some l => default l (strip_suffix_char l carriage_return)
  end.

(** [str::lines] *)
Definition lines (s : str) : list str := strip_eol <$> split_inclusive_nl s.

(** ** Integers as text *)

(** [from_str_radix(_, 10)] on the digits, with its overflow checks *)
Fixpoint parse_digits (max acc : Z) (s : str) : option Z :=
  match s with
  | [] => Some acc
  | c :: s' =>
      match to_digit 10 c with
      | None => None
      | Some d =>
          if acc * 10 + d <=? max then parse_digits max (acc * 10 + d) s' else None
      end
  end.

(** [str::parse] at an unsigned type whose largest value is [max]: a leading
    plus sign is accepted, a lone sign and the empty string are not. *)
Definition parse_uint (max : Z) (s : str) : option Z :=
  match s with
  | [] => None
  | c :: s' =>
      if Ascii.eqb c "+"%char
      then match s' with [] => None | _ => parse_digits max 0 s' end
      else parse_digits max 0 s
  end.

Definition digit_char (d : Z) : ascii := chr (48 + d).

(** Decimal [Display] of an unsigned integer; [fuel] digits are enough for the
    integers below [10 ^ fuel]. *)
Fixpoint fmt_go (fuel : nat) (n : Z) (acc : str) : str :=
  match fuel with
  | O => acc
  | S f =>
      let acc' := digit_char (n `mod` 10) :: acc in
      if n <? 10 then acc' else fmt_go f (n `div` 10) acc'
  end.

(** Twenty digits cover every [u64] and [usize]. *)
Definition fmt (n : Z) : str := fmt_go 20 n [].

(** ** Lemmas: characters *)

Lemma code_range c : 0 ≤ code c < 256.
Proof. unfold code. pose proof (N_ascii_bounded c). lia. Qed.

Lemma chr_code c : chr (code c) = c.
Proof. unfold chr, code. by rewrite N2Z.id, ascii_N_embedding. Qed.

Lemma code_chr z : 0 ≤ z < 256 → code (chr z) = z.
Proof. intros. unfold chr, code. rewrite N_ascii_embedding; lia. Qed.

Lemma code_inj c d : code c = code d → c = d.
Proof. intros H. by rewrite <-(chr_code c), H, chr_code. Qed.

Lemma digit_char_digit d : 0 ≤ d ≤ 9 → to_digit 10 (digit_char d) = Some d.
Proof.
  intros. unfold to_digit, digit_char. rewrite code_chr by lia.
  replace (_ && _) with true by lia. replace (_ <? 10) with true by lia. f_equal; lia.
Qed.

Lemma to_digit_10_range c d : to_digit 10 c = Some d → 0 ≤ d ≤ 9.
Proof.
  unfold to_digit. intros. repeat case_match; simplify_eq; lia.
Qed.

Lemma to_digit_10_Some c d :
  to_digit 10 c = Some d → is_ascii_digit c = true ∧ c = digit_char d.
Proof.
  unfold to_digit, is_ascii_digit. intros H.
  destruct ((48 <=? code c) && (code c <=? 57)) eqn:?.
  - split; [done|]. case_match; simplify_eq. unfold digit_char.
    apply code_inj. rewrite code_chr; lia.
  - exfalso. repeat case_match; simplify_eq; lia.
Qed.

Lemma digit_char_not_special d : 0 ≤ d ≤ 9 → is_ascii_digit (digit_char d) = true.
Proof. intros. by eapply to_digit_10_Some, digit_char_digit. Qed.

(** ** Lemmas: tests *)

Lemma str_eqb_true s t : str_eqb s t = true ↔ s = t.
Proof. apply bool_decide_eq_true. Qed.

Lemma starts_with_true s p : starts_with s p = true ↔ p `prefix_of` s.
Proof. apply bool_decide_eq_true. Qed.

Lemma ends_with_true s p : ends_with s p = true ↔ p `suffix_of` s.
Proof. apply bool_decide_eq_true. Qed.

Lemma starts_with_app p s : starts_with (p ++ s) p = true.
Proof. apply starts_with_true. by exists s. Qed.

Lemma ends_with_app p s : ends_with (s ++ p) p = true.
Proof. apply ends_with_true. by exists s. Qed.

Lemma ends_with_char s c : ends_with s [c] = true ↔ last s = Some c.
Proof.
  rewrite ends_with_true. split.
  - intros [k ->]. by rewrite last_snoc.
  - intros H. apply last_Some in H as [k ->]. by exists k.
Qed.

Lemma contains_true s p : contains s p = true ↔ ∃ a b, s = a ++ p ++ b.
Proof.
  induction s as [|c s IH]; simpl.
  - rewrite orb_false_r, starts_with_true. split.
    + intros [k H]. by exists [], k.
    + intros (a & b & H). symmetry in H. apply app_eq_nil in H as [-> H].
      by exists b.
  - rewrite orb_true_iff, starts_with_true, IH. split.
    + intros [[k H]|(a & b & ->)]; [by exists [], k|by exists (c :: a), b].
    + intros ([|d a] & b & H); simplify_eq/=; [left; by exists b|right; eauto].
Qed.

Lemma contains_char_true s c : contains_char s c = true ↔ c ∈ s.
Proof. apply bool_decide_eq_true. Qed.

Lemma strip_prefix_Some p s r : strip_prefix p s = Some r ↔ s = p ++ r.
Proof.
  revert s; induction p as [|a p IH]; intros [|b s]; simpl; try naive_solver.
  destruct (Ascii.eqb_spec a b) as [->|]; [rewrite IH|]; naive_solver.
Qed.

Lemma strip_prefix_None p s : strip_prefix p s = None ↔ starts_with s p = false.
Proof.
  rewrite <-not_true_iff_false, starts_with_true, eq_None_not_Some. unfold is_Some.
  setoid_rewrite strip_prefix_Some. done.
Qed.

Lemma find_char_Some c s i :
  find_char c s = Some i → s = take i s ++ c :: drop (S i) s ∧ c ∉ take i s.
Proof.
  revert i; induction s as [|d s IH]; intros i; simpl; [done|].
  destruct (Ascii.eqb_spec c d) as [->|].
  - intros [= <-]. simpl. split; [done|]. apply not_elem_of_nil.
  - rewrite fmap_Some. intros (j & Hj & ->). simpl. apply IH in Hj as [Hs Hn].
    split; [by rewrite <-Hs|]. rewrite not_elem_of_cons. done.
Qed.

Lemma find_char_drop c s i : find_char c s = Some i → drop i s = c :: drop (S i) s.
Proof.
  revert i; induction s as [|d s IH]; intros i; simpl; [done|].
  destruct (Ascii.eqb_spec c d) as [->|]; [by intros [= <-]|].
  rewrite fmap_Some. intros (j & Hj & ->). by apply IH.
Qed.

Lemma find_char_None c s : find_char c s = None ↔ c ∉ s.
Proof.
  induction s as [|d s IH]; simpl.
  - split; [intros _; apply not_elem_of_nil|done].
  - rewrite not_elem_of_cons, <-IH. destruct (Ascii.eqb_spec c d) as [->|].
    + naive_solver.
    + rewrite fmap_None. naive_solver.
Qed.

Lemma find_char_app c s t : c ∉ s → find_char c (s ++ c :: t) = Some (length s).
Proof.
  induction s as [|d s IH]; simpl; intros Hn.
  - by rewrite Ascii.eqb_refl.
  - apply not_elem_of_cons in Hn as [Hd Hn].
    destruct (Ascii.eqb_spec c d); [done|]. by rewrite IH.
Qed.

Lemma rfind_char_last c s : last s = Some c → rfind_char c s = Some (length s - 1)%nat.
Proof.
  induction s as [|d s IH]; [done|]. destruct s as [|e s].
  - intros [= ->]. simpl. by rewrite Ascii.eqb_refl.
  - intros H. change (last (d :: e :: s)) with (last (e :: s)) in H. apply IH in H.
    cbn [rfind_char]. change (rfind_char c (e :: s)) with (rfind_char c (e :: s)) in H.
    cbn [rfind_char] in H. rewrite H. simpl. f_equal; lia.
Qed.

(** ** Lemmas: trimming *)

Lemma drop_while_hd {A} (p : A → bool) s c r : drop_while p s = c :: r → p c = false.
Proof. induction s as [|d s IH]; simpl; [done|]. case_match; naive_solver. Qed.

Lemma drop_while_id {A} (p : A → bool) s :
  (∀ c, head s = Some c → p c = false) → drop_while p s = s.
Proof. destruct s as [|c s]; simpl; intros H; [done|]. by rewrite H. Qed.

Lemma drop_while_end_id {A} (p : A → bool) s :
  (∀ c, last s = Some c → p c = false) → drop_while_end p s = s.
Proof.
  intros H. unfold drop_while_end. rewrite drop_while_id, reverse_involutive; [done|].
  intros c Hc. apply H. rewrite <-head_reverse. done.
Qed.

Lemma drop_while_suffix {A} (p : A → bool) s :
  ∃ k, s = k ++ drop_while p s ∧ Forall (λ c, p c = true) k.
Proof.
  induction s as [|c s (k & Hk & Hp)]; simpl; [by exists []|].
  destruct (p c) eqn:Hc; [exists (c :: k)|by exists []].
  split; [simpl; congruence|by constructor].
Qed.

Lemma drop_while_end_prefix {A} (p : A → bool) s :
  ∃ k, s = drop_while_end p s ++ k ∧ Forall (λ c, p c = true) k.
Proof.
  unfold drop_while_end. destruct (drop_while_suffix p (reverse s)) as (k & Hk & Hp).
  exists (reverse k). split; [|by apply Forall_reverse].
  rewrite <-reverse_app, <-Hk. by rewrite reverse_involutive.
Qed.

Lemma drop_while_end_last {A} (p : A → bool) s c :
  last (drop_while_end p s) = Some c → p c = false.
Proof.
  unfold drop_while_end. rewrite last_reverse.
  destruct (drop_while p (reverse s)) eqn:E; simpl; [done|].
  intros [= ->]. by apply drop_while_hd in E.
Qed.

Lemma drop_while_end_hd {A} (p : A → bool) s c :
  head (drop_while_end p s) = Some c → head s = Some c.
Proof.
  destruct (drop_while_end_prefix p s) as (k & Hk & _). rewrite Hk at 2.
  destruct (drop_while_end p s); naive_solver.
Qed.

Lemma trim_last s c : last (trim s) = Some c → is_whitespace c = false.
Proof. apply drop_while_end_last. Qed.

Lemma trim_head s c : head (trim s) = Some c → is_whitespace c = false.
Proof.
  intros H%drop_while_end_hd. destruct (drop_while is_whitespace s) eqn:E; [done|].
  simplify_eq/=. by apply drop_while_hd in E.
Qed.

Lemma trim_id s :
  (∀ c, head s = Some c → is_whitespace c = false) →
  (∀ c, last s = Some c → is_whitespace c = false) → trim s = s.
Proof. intros H1 H2. unfold trim. by rewrite drop_while_id, drop_while_end_id. Qed.

Lemma trim_trim s : trim (trim s) = trim s.
Proof. apply trim_id; [apply trim_head|apply trim_last]. Qed.

#[export] Hint Rewrite trim_trim : proxy.

(** ** Lemmas: splitting *)

Lemma split_by_nonnil p s : split_by p s ≠ [].
Proof. destruct s; simpl; repeat case_match; done. Qed.

Lemma split_by_no_sep p s w :
  w ∈ split_by p s → Forall (λ c, p c = false) w.
Proof.
  revert w; induction s as [|c s IH]; intros w; simpl.
  - rewrite list_elem_of_singleton. intros ->. constructor.
  - destruct (p c) eqn:Hc.
    + intros [->|H]%elem_of_cons; [constructor|by apply IH].
    + destruct (split_by p s) as [|v vs] eqn:E.
      * rewrite list_elem_of_singleton. intros ->. by repeat constructor.
      * intros [->|H]%elem_of_cons; [constructor; [done|]|]; apply IH; set_solver.
Qed.

Lemma split_by_sep p w c s :
  Forall (λ c, p c = false) w → p c = true →
  split_by p (w ++ c :: s) = w :: split_by p s.
Proof.
  intros Hw Hc. induction w as [|d w IH]; simpl.
  - by rewrite Hc.
  - inversion_clear Hw as [|?? Hd Hw']. by rewrite Hd, (IH Hw').
Qed.

Lemma split_by_atom p w : Forall (λ c, p c = false) w → split_by p w = [w].
Proof.
  induction 1 as [|c w Hc Hw IH]; simpl; [done|]. by rewrite Hc, IH.
Qed.

Lemma split_whitespace_no_ws s w :
  w ∈ split_whitespace s → w ≠ [] ∧ Forall (λ c, is_whitespace c = false) w.
Proof.
  unfold split_whitespace. rewrite list_elem_of_In, filter_In, <-list_elem_of_In.
  intros [H Hn]. split; [by destruct w|by eapply split_by_no_sep].
Qed.

(** A line made of words separated by single blanks splits into its words. *)
Definition word (w : str) : Prop := w ≠ [] ∧ Forall (λ c, is_whitespace c = false) w.

Lemma split_whitespace_word w : word w → split_whitespace w = [w].
Proof.
  intros [Hn Hw]. unfold split_whitespace. rewrite split_by_atom by done.
  by destruct w.
Qed.

Lemma split_whitespace_cons w c s :
  word w → is_whitespace c = true →
  split_whitespace (w ++ c :: s) = w :: split_whitespace s.
Proof.
  intros [Hn Hw] Hc. unfold split_whitespace. rewrite split_by_sep by done.
  by destruct w.
Qed.

Lemma split_whitespace_skip c s :
  is_whitespace c = true → split_whitespace (c :: s) = split_whitespace s.
Proof. intros Hc. unfold split_whitespace. simpl. by rewrite Hc. Qed.

(** ** Lemmas: integers as text *)

Lemma parse_digits_range max acc s n :
  0 ≤ acc ≤ max → parse_digits max acc s = Some n → 0 ≤ n ≤ max.
Proof.
  revert acc; induction s as [|c s IH]; simpl; intros acc Hacc; [naive_solver|].
  destruct (to_digit 10 c) as [d|] eqn:Hd; [|done].
  apply to_digit_10_range in Hd. case_match; [|done]. apply IH. lia.
Qed.

Lemma parse_uint_range max s n : 0 ≤ max → parse_uint max s = Some n → 0 ≤ n ≤ max.
Proof.
  intros Hmax. unfold parse_uint. destruct s as [|c s]; [done|].
  repeat case_match; try done; apply parse_digits_range; lia.
Qed.

#[export] Hint Resolve parse_uint_range : proxy.

Lemma fmt_go_app fuel n acc : fmt_go fuel n acc = fmt_go fuel n [] ++ acc.
Proof.
  revert n acc; induction fuel as [|f IH]; intros n acc; cbn [fmt_go]; [done|].
  case_match; [done|]. rewrite IH, (IH _ [_]). by rewrite <-app_assoc.
Qed.

Lemma parse_digits_app max acc s t :
  parse_digits max acc (s ++ t) = parse_digits max acc s ≫= λ n, parse_digits max n t.
Proof.
  revert acc; induction s as [|c s IH]; intros acc; simpl; [done|].
  case_match; [|done]. case_match; [apply IH|done].
Qed.

Lemma fmt_digits fuel n : Forall (λ c, is_ascii_digit c = true) (fmt_go fuel n []).
Proof.
  revert n; induction fuel as [|f IH]; intros n; cbn [fmt_go]; [constructor|].
  pose proof (Z.mod_pos_bound n 10).
  assert (is_ascii_digit (digit_char (n `mod` 10)) = true)
    by (apply digit_char_not_special; lia).
  case_match; [by repeat constructor|].
  rewrite fmt_go_app. apply Forall_app. split; [apply IH|by repeat constructor].
Qed.

Lemma fmt_go_digits fuel n :
  0 ≤ n → Forall (λ c, is_ascii_digit c = true) (fmt_go fuel n []).
Proof. intros _. apply fmt_digits. Qed.

Lemma parse_digits_fmt max fuel n :
  0 ≤ n ≤ max → n < 10 ^ Z.of_nat fuel → parse_digits max 0 (fmt_go fuel n []) = Some n.
Proof.
  revert n; induction fuel as [|f IH]; intros n Hn Hf; cbn [fmt_go].
  - simpl in Hf. f_equal. simpl. f_equal. lia.
  - pose proof (Z.mod_pos_bound n 10). pose proof (Z.div_mod n 10).
    rewrite Nat2Z.inj_succ, Z.pow_succ_r in Hf by lia.
    destruct (n <? 10) eqn:Hlt.
    + cbn [parse_digits]. rewrite digit_char_digit by lia.
      rewrite Z.mod_small by lia. simpl. case_match; [done|lia].
    + rewrite fmt_go_app, parse_digits_app, IH by (try apply Z.div_lt_upper_bound; lia).
      cbn [mbind option_bind parse_digits]. rewrite digit_char_digit by lia.
      replace (n `div` 10 * 10 + n `mod` 10) with n by lia. case_match; [done|lia].
Qed.

Lemma fmt_go_nonnil f n : fmt_go (S f) n [] ≠ [].
Proof.
  cbn [fmt_go]. case_match; [done|]. rewrite fmt_go_app.
  intros [_ ?]%app_eq_nil. done.
Qed.

Lemma is_ascii_digit_inv c :
  is_ascii_digit c = true → c ≠ "+"%char ∧ is_whitespace c = false.
Proof.
  unfold is_ascii_digit, is_whitespace. intros H. split; [|lia]. intros ->. done.
Qed.

(** Printing an integer and reading it back gives the integer. *)
Lemma parse_uint_fmt max n :
  0 ≤ n ≤ max → max < 10 ^ 20 → parse_uint max (fmt n) = Some n.
Proof.
  intros Hn Hmax. unfold fmt. pose proof (fmt_go_nonnil 19 n) as Hnn.
  pose proof (fmt_go_digits 20 n) as Hd.
  pose proof (parse_digits_fmt max 20 n) as Hp.
  destruct (fmt_go 20 n []) as [|c s]; [done|]. unfold parse_uint.
  destruct (Ascii.eqb_spec c "+") as [->|].
  - specialize (Hd ltac:(lia)). by inversion Hd.
  - apply Hp; [lia|]. change (Z.of_nat 20) with 20. lia.
Qed.

Lemma fmt_word n : 0 ≤ n → word (fmt n).
Proof.
  intros Hn. split; [apply fmt_go_nonnil|].
  eapply Forall_impl; [by apply fmt_go_digits|].
  intros c Hc. by apply is_ascii_digit_inv.
Qed.
