(* ===== verification/NetAddr.v ===== *)
(** * Network addresses: the part of [std::net] the program uses

    [IpAddr], its parser ([FromStr]) and its printer ([Display]), as the
    standard library defines them: the parser is the recursive-descent parser of
    [core::net::parser], over the remaining input. *)

From S2P Require Import Prelude RustStr.

(** ** Data *)

(** [IpAddr]: four octets, or eight 16-bit segments. *)
Inductive IpAddr : Type :=
| V4 (a b c d : Z)
| V6 (segments : list Z).

#[export] Instance IpAddr_eq_dec : EqDecision IpAddr.
Proof. solve_decision. Defined.

#[export] Instance IpAddr_countable : Countable IpAddr.
Proof.
  refine (inj_countable'
    (λ ip, match ip with
           | V4 a b c d => inl (a, b, c, d)
           | V6 l => inr l
           end)
    (λ x : (Z * Z * Z * Z) + list Z,
           match x with
           | inl (a, b, c, d) => V4 a b c d
           | inr l => V6 l
           end) _).
  by intros [].
Defined.

Definition octet (z : Z) : Prop := 0 ≤ z ≤ u8_max.

(** The addresses a Rust value can hold. *)
Definition ip_wf (ip : IpAddr) : Prop :=
  match ip with
  | V4 a b c d => octet a ∧ octet b ∧ octet c ∧ octet d
  | V6 l => length l = 8%nat ∧ Forall (λ s, 0 ≤ s ≤ u16_max) l
  end.

(** [SocketAddr] *)
Record SocketAddr : Type := MkSocketAddr { ip : IpAddr; port : Z }.

#[export] Instance SocketAddr_eq_dec : EqDecision SocketAddr.
Proof. solve_decision. Defined.

(** ** The parser *)

Definition colon : ascii := ":"%char.
Definition dot : ascii := "."%char.

(** The digit loop of [read_number] with a digit limit: value, number of
    digits and rest of the input; [None] when there are too many digits. *)
Fixpoint read_digits (radix : Z) (max_digits count : nat) (acc : Z) (s : str) :
    option (Z * nat * str) :=
  match s with
  | [] => Some (acc, count, [])
  | c :: s' =>
      match to_digit radix c with
      | None => Some (acc, count, s)
      | Some d =>
          if (max_digits <? S count)%nat then None
          else read_digits radix max_digits (S count) (acc * radix + d) s'
      end
  end.

(** [Parser::read_number] at an unsigned type with largest value [tmax]. *)
Definition read_number (tmax radix : Z) (max_digits : nat) (allow_zero_prefix : bool)
    (s : str) : option (Z * str) :=
  let has_leading_zero := bool_decide (head s = Some "0"%char) in
  match read_digits radix max_digits 0 0 s with
  | None => None
  | Some (v, n, rest) =>
      if (n =? 0)%nat then None
      else if negb allow_zero_prefix && has_leading_zero && (1 <? n)%nat then None
      else if v <=? tmax then Some (v, rest) else None
  end.

(** [Parser::read_given_char] *)
Definition read_given_char (c : ascii) (s : str) : option str :=
  match s with
  | d :: s' => if Ascii.eqb c d then Some s' else None
  | [] => None
  end.

(** [Parser::read_separator] *)
Definition read_separator {A} (sep : ascii) (index : nat) (inner : str → option (A * str))
    (s : str) : option (A * str) :=
  if (0 <? index)%nat then read_given_char sep s ≫= inner else inner s.

Definition read_octet (index : nat) : str → option (Z * str) :=
  read_separator dot index (read_number u8_max 10 3 false).

(** [Parser::read_ipv4_addr] *)
Definition read_ipv4_addr (s : str) : option ((Z * Z * Z * Z) * str) :=
  '(a, s) ← read_octet 0 s;
  '(b, s) ← read_octet 1 s;
  '(c, s) ← read_octet 2 s;
  '(d, s) ← read_octet 3 s;
  Some ((a, b, c, d), s).

(** [read_groups] of [Parser::read_ipv6_addr]: [k] groups remain to be read,
    [i] have been read; returns the groups read from here on, whether an
    embedded IPv4 address ended them, and the rest. *)
Fixpoint read_groups (k i : nat) (s : str) : list Z * bool * str :=
  match k with
  | O => ([], false, s)
  | S k' =>
      let v4 := if (0 <? k')%nat then read_separator colon i read_ipv4_addr s else None in
      match v4 with
      | Some ((a, b, c, d), rest) => ([a * 256 + b; c * 256 + d], true, rest)
      | None =>
          match read_separator colon i (read_number u16_max 16 4 true) s with
          | None => ([], false, s)
          | Some (g, rest) =>
              let '(gs, b, rest') := read_groups k' (S i) rest in (g :: gs, b, rest')
          end
      end
  end.

(** [Parser::read_ipv6_addr] *)
Definition read_ipv6_addr (s : str) : option (list Z * str) :=
  let '(hd, head_ipv4, s) := read_groups 8 0 s in
  if (length hd =? 8)%nat then Some (hd, s)
  else if head_ipv4 then None
  else
    s ← read_given_char colon s;
    s ← read_given_char colon s;
    let limit := (8 - (length hd + 1))%nat in
    let '(tl, _, s) := read_groups limit 0 s in
    Some (hd ++ replicate (8 - length hd - length tl)%nat 0 ++ tl, s).

(** [Parser::read_ip_addr] *)
Definition read_ip_addr (s : str) : option (IpAddr * str) :=
  match read_ipv4_addr s with
  | Some ((a, b, c, d), rest) => Some (V4 a b c d, rest)
  | None => '(l, rest) ← read_ipv6_addr s; Some (V6 l, rest)
  end.

(** [Parser::parse_with]: the whole input must be consumed. *)
Definition parse_with {A} (inner : str → option (A * str)) (s : str) : option A :=
  match inner s with
  | Some (a, []) => Some a
  | _ => None
  end.

(** [str::parse::<Ipv4Addr>]; longer texts are not tried. *)
Definition parse_ipv4 (s : str) : option IpAddr :=
  if (15 <? length s)%nat then None
  else '(a, b, c, d) ← parse_with read_ipv4_addr s; Some (V4 a b c d).

(** [str::parse::<IpAddr>] *)
Definition parse_ip (s : str) : option IpAddr := parse_with read_ip_addr s.

(** ** The printer *)

Definition hex_char (d : Z) : ascii := if d <? 10 then chr (48 + d) else chr (87 + d).

(** [{:x}] of a 16-bit segment: at most four digits *)
Fixpoint fmt_hex_go (fuel : nat) (n : Z) (acc : str) : str :=
  match fuel with
  | O => acc
  | S f =>
      let acc' := hex_char (n `mod` 16) :: acc in
      if n <? 16 then acc' else fmt_hex_go f (n `div` 16) acc'
  end.

Definition fmt_hex (n : Z) : str := fmt_hex_go 4 n [].

Definition fmt_ipv4 (a b c d : Z) : str :=
  fmt a ++ dot :: fmt b ++ dot :: fmt c ++ dot :: fmt d.

(** [fmt_subslice] *)
Definition fmt_subslice (chunk : list Z) : str :=
  match chunk with
  | [] => []
  | first :: tl => fmt_hex first ++ concat ((λ s, colon :: fmt_hex s) <$> tl)
  end.

(** The longest run of zero segments, as (start, length): the span loop. *)
Fixpoint zero_span (i : nat) (current longest : nat * nat) (segments : list Z) : nat * nat :=
  match segments with
  | [] => longest
  | s :: rest =>
      if s =? 0 then
        let start := if (current.2 =? 0)%nat then i else current.1 in
        let current := (start, S current.2) in
        let longest := if (longest.2 <? current.2)%nat then current else longest in
        zero_span (S i) current longest rest
      else zero_span (S i) (0, 0)%nat longest rest
  end.

Definition fmt_ipv6 (l : list Z) : str :=
  match l with
  | [0; 0; 0; 0; 0; 65535; hi; lo] =>
      lit "::ffff:" ++ fmt_ipv4 (hi `div` 256) (hi `mod` 256) (lo `div` 256) (lo `mod` 256)
  | _ =>
      let '(start, len) := zero_span 0 (0, 0)%nat (0, 0)%nat l in
      if (1 <? len)%nat then
        fmt_subslice (take start l) ++ lit "::" ++ fmt_subslice (drop (start + len) l)
      else fmt_subslice l
  end.

(** [IpAddr]'s [to_string] *)
Definition ip_to_string (i : IpAddr) : str :=
  match i with
  | V4 a b c d => fmt_ipv4 a b c d
  | V6 l => fmt_ipv6 l
  end.

(** [SocketAddr]'s [to_string] *)
Definition addr_to_string (a : SocketAddr) : str :=
  match ip a with
  | V4 _ _ _ _ => ip_to_string (ip a) ++ lit ":" ++ fmt (port a)
  | V6 _ => lit "[" ++ ip_to_string (ip a) ++ lit "]:" ++ fmt (port a)
  end.

(** ** Lemmas: parsed addresses are well formed *)

Lemma read_digits_nonneg radix m n acc s v k rest :
  0 ≤ radix → 0 ≤ acc → read_digits radix m n acc s = Some (v, k, rest) → 0 ≤ v.
Proof.
  intros Hr. revert n acc; induction s as [|c s IH]; simpl; intros n acc Hacc; [naive_solver|].
  destruct (to_digit radix c) as [d|] eqn:Hd; [|naive_solver].
  assert (0 ≤ d) by (unfold to_digit in Hd; repeat case_match; simplify_eq; lia).
  case_match; [done|]. apply IH. nia.
Qed.

Lemma read_number_range tmax radix m z s v rest :
  0 ≤ radix → read_number tmax radix m z s = Some (v, rest) → 0 ≤ v ≤ tmax.
Proof.
  unfold read_number. intros. repeat case_match; simplify_eq.
  split; [|lia]. eapply read_digits_nonneg; [| |done]; lia.
Qed.

Lemma read_separator_Some {A} sep i (inner : str → option (A * str)) s x :
  read_separator sep i inner s = Some x → ∃ s', inner s' = Some x.
Proof. unfold read_separator. case_match; [|eauto]. intros (? & _ & ?)%bind_Some. eauto. Qed.

Lemma read_octet_range i s v rest : read_octet i s = Some (v, rest) → octet v.
Proof.
  intros [s' H]%read_separator_Some. eapply read_number_range; [|done]. lia.
Qed.

Lemma read_ipv4_addr_wf s a b c d rest :
  read_ipv4_addr s = Some ((a, b, c, d), rest) → ip_wf (V4 a b c d).
Proof.
  unfold read_ipv4_addr. intros H.
  repeat match goal with
  | H : _ ≫= _ = Some _ |- _ => apply bind_Some in H as ([? ?] & ?%read_octet_range & H)
  end. by simplify_eq.
Qed.

Lemma read_groups_wf k i s gs b rest :
  read_groups k i s = (gs, b, rest) →
  (length gs ≤ k)%nat ∧ Forall (λ g, 0 ≤ g ≤ u16_max) gs.
Proof.
  revert i s gs b rest; induction k as [|k IH]; intros i s gs b rest; cbn [read_groups].
  { intros; simplify_eq. split; [done|constructor]. }
  destruct (if (0 <? k)%nat then read_separator colon i read_ipv4_addr s else None)
    as [[[[[? ?] ?] ?] ?]|] eqn:E.
  - destruct (Nat.ltb_spec 0 k); [|done]. apply read_separator_Some in E as [? E].
    apply read_ipv4_addr_wf in E. intros; simplify_eq/=.
    unfold octet, u8_max, u16_max in *. split; [lia|].
    repeat constructor; lia.
  - destruct (read_separator colon i (read_number u16_max 16 4 true) s) as [[g r]|] eqn:Eg.
    + apply read_separator_Some in Eg as [? Eg]. apply read_number_range in Eg; [|lia].
      destruct (read_groups k (S i) r) as [[gs' b'] r'] eqn:Er.
      apply IH in Er as [??]. intros; simplify_eq/=. split; [lia|by constructor].
    + intros; simplify_eq/=. split; [lia|constructor].
Qed.

Lemma read_ipv6_addr_wf s l rest : read_ipv6_addr s = Some (l, rest) → ip_wf (V6 l).
Proof.
  unfold read_ipv6_addr. destruct (read_groups 8 0 s) as [[hd b] s1] eqn:Eh.
  apply read_groups_wf in Eh as [Hl Hh]. destruct (Nat.eqb_spec (length hd) 8).
  { intros; by simplify_eq. }
  destruct b; [done|]. intros (s2 & _ & H)%bind_Some. apply bind_Some in H as (s3 & _ & H).
  destruct (read_groups _ 0 s3) as [[tl b] s4] eqn:Et. apply read_groups_wf in Et as [Ht Hf].
  simplify_eq/=. split.
  - rewrite !length_app, length_replicate. lia.
  - rewrite !Forall_app. split; [done|]. split; [|done].
    apply Forall_replicate. unfold u16_max. lia.
Qed.

Lemma parse_ip_wf s i : parse_ip s = Some i → ip_wf i.
Proof.
  unfold parse_ip, parse_with, read_ip_addr. intros H.
  destruct (read_ipv4_addr s) as [[[[[a b] c] d] rest]|] eqn:E4.
  - apply read_ipv4_addr_wf in E4. by destruct rest; simplify_eq.
  - destruct (read_ipv6_addr s) as [[l rest]|] eqn:E6; simpl in H; [|done].
    apply read_ipv6_addr_wf in E6. by destruct rest; simplify_eq.
Qed.

#[export] Hint Resolve parse_ip_wf : proxy.

(** ** Lemmas: printing and reading back an IPv4 address *)

Lemma fmt_1 n : 0 ≤ n < 10 → fmt n = [digit_char n].
Proof.
  intros. unfold fmt. cbn [fmt_go]. replace (n <? 10) with true by lia.
  by rewrite Z.mod_small.
Qed.

Lemma fmt_2 n : 10 ≤ n < 100 → fmt n = [digit_char (n `div` 10); digit_char (n `mod` 10)].
Proof.
  intros. unfold fmt. cbn [fmt_go]. replace (n <? 10) with false by lia.
  pose proof (Z.div_mod n 10). pose proof (Z.mod_pos_bound n 10).
  replace (n `div` 10 <? 10) with true by lia. by rewrite (Z.mod_small (n `div` 10)) by lia.
Qed.

Lemma fmt_3 n : 100 ≤ n < 1000 →
  fmt n = [digit_char ((n `div` 10) `div` 10); digit_char ((n `div` 10) `mod` 10);
           digit_char (n `mod` 10)].
Proof.
  intros. unfold fmt. cbn [fmt_go]. replace (n <? 10) with false by lia.
  pose proof (Z.div_mod n 10). pose proof (Z.mod_pos_bound n 10).
  pose proof (Z.div_mod (n `div` 10) 10). pose proof (Z.mod_pos_bound (n `div` 10) 10).
  replace (n `div` 10 <? 10) with false by lia.
  replace ((n `div` 10) `div` 10 <? 10) with true by lia.
  by rewrite (Z.mod_small ((n `div` 10) `div` 10)) by lia.
Qed.

(** The rest of the input does not continue a decimal number. *)
Definition digit_free_head (rest : str) : Prop :=
  match rest with [] => True | c :: _ => to_digit 10 c = None end.

Lemma read_digits_stop m n acc rest :
  digit_free_head rest → read_digits 10 m n acc rest = Some (acc, n, rest).
Proof. destruct rest as [|c rest]; simpl; [done|]. by intros ->. Qed.

Lemma digit_char_zero d : 0 ≤ d ≤ 9 → digit_char d = "0"%char → d = 0.
Proof.
  intros ? H%(f_equal code). unfold digit_char in H. rewrite code_chr in H by lia.
  change (code "0") with 48 in H. lia.
Qed.

Lemma read_octet_fmt n rest :
  octet n → digit_free_head rest →
  read_number u8_max 10 3 false (fmt n ++ rest) = Some (n, rest).
Proof.
  unfold octet, u8_max. intros Hn Hr.
  pose proof (Z.div_mod n 10). pose proof (Z.mod_pos_bound n 10).
  pose proof (Z.div_mod (n `div` 10) 10). pose proof (Z.mod_pos_bound (n `div` 10) 10).
  unfold read_number.
  destruct (decide (n < 10)); [rewrite fmt_1 by lia|destruct (decide (n < 100))].
  - cbn [app read_digits head]. rewrite digit_char_digit by lia. simpl.
    rewrite read_digits_stop by done. simpl. rewrite andb_false_r.
    case_match; [done|lia].
  - rewrite fmt_2 by lia. cbn [app read_digits head]. rewrite !digit_char_digit by lia. simpl.
    rewrite read_digits_stop by done. simpl.
    rewrite bool_decide_eq_false_2 by (intros [= ?%digit_char_zero]; lia). simpl.
    case_match; [f_equal; f_equal|]; lia.
  - rewrite fmt_3 by lia. cbn [app read_digits head]. rewrite !digit_char_digit by lia. simpl.
    rewrite read_digits_stop by done. simpl.
    rewrite bool_decide_eq_false_2 by (intros [= ?%digit_char_zero]; lia). simpl.
    case_match; [f_equal; f_equal|]; lia.
Qed.

Lemma read_ipv4_fmt a b c d rest :
  ip_wf (V4 a b c d) → digit_free_head rest →
  read_ipv4_addr (fmt_ipv4 a b c d ++ rest) = Some ((a, b, c, d), rest).
Proof.
  intros (Ha & Hb & Hc & Hd) Hr. unfold read_ipv4_addr, fmt_ipv4, read_octet, read_separator.
  repeat (rewrite <-?app_assoc, <-?app_comm_cons; simpl; rewrite read_octet_fmt by done; simpl).
  done.
Qed.

Lemma length_fmt_octet n : octet n → (length (fmt n) ≤ 3)%nat.
Proof.
  unfold octet, u8_max. intros.
  destruct (decide (n < 10)); [rewrite fmt_1 by lia; simpl; lia|].
  destruct (decide (n < 100)); [rewrite fmt_2 by lia|rewrite fmt_3 by lia]; simpl; lia.
Qed.

Lemma length_fmt_ipv4 a b c d : ip_wf (V4 a b c d) → (length (fmt_ipv4 a b c d) ≤ 15)%nat.
Proof.
  intros (Ha & Hb & Hc & Hd). unfold fmt_ipv4.
  apply length_fmt_octet in Ha, Hb, Hc, Hd.
  repeat (rewrite length_app; simpl). lia.
Qed.

Lemma parse_ipv4_fmt a b c d :
  ip_wf (V4 a b c d) → parse_ipv4 (fmt_ipv4 a b c d) = Some (V4 a b c d).
Proof.
  intros Hwf. unfold parse_ipv4, parse_with. pose proof (length_fmt_ipv4 a b c d Hwf).
  destruct (Nat.ltb_spec 15 (length (fmt_ipv4 a b c d))); [lia|].
  rewrite <-(app_nil_r (fmt_ipv4 a b c d)), read_ipv4_fmt by done. done.
Qed.

Lemma parse_ip_fmt_v4 a b c d :
  ip_wf (V4 a b c d) → parse_ip (ip_to_string (V4 a b c d)) = Some (V4 a b c d).
Proof.
  intros Hwf. unfold parse_ip, parse_with, read_ip_addr. simpl.
  rewrite <-(app_nil_r (fmt_ipv4 a b c d)), read_ipv4_fmt by done. done.
Qed.
