(* ===== verification/NetAddrSpec.v ===== *)
(** * Printing an address and reading it back

    The parser of [core::net::parser] inverts the [Display] of [IpAddr] on every
    address, version 6 included: the compressed run of zero segments, the
    IPv4-mapped form and the plain form all read back to the segments they
    were printed from.  The program prints the address of a connection and reads
    it back before it consults the security manager, and the trusted upstream of
    a configuration file is read with the same parser. *)

From S2P Require Import Prelude RustStr NetAddr.

(** ** Characters *)

Definition hex (c : ascii) : Prop := is_Some (to_digit 16 c).

Lemma hex_char_digit d : 0 ≤ d < 16 → to_digit 16 (hex_char d) = Some d.
Proof.
  intros. unfold to_digit, hex_char.
  destruct (Z.ltb_spec d 10); rewrite code_chr by lia; repeat (case_match; try lia); f_equal; lia.
Qed.

Lemma decimal_hex c d : to_digit 10 c = Some d → hex c.
Proof.
  intros H. pose proof (to_digit_10_range _ _ H). apply to_digit_10_Some in H as [_ ->].
  exists d. rewrite <-(hex_char_digit d) by lia. f_equal.
  unfold hex_char, digit_char. by replace (d <? 10) with true by lia.
Qed.

Lemma dot_not_hex : ¬ hex dot.
Proof. intros [d Hd]. by vm_compute in Hd. Qed.

Lemma colon_not_hex : ¬ hex colon.
Proof. intros [d Hd]. by vm_compute in Hd. Qed.

(** ** Segments in hexadecimal *)

(** The digits [fmt_hex_go] puts before [tail], and what the digit loop reads
    from them. *)
Lemma fmt_hex_go_spec f n tail :
  (0 < f)%nat → 0 ≤ n < 16 ^ Z.of_nat f →
  ∃ ds, fmt_hex_go f n tail = ds ++ tail ∧ Forall hex ds ∧ (1 ≤ length ds ≤ f)%nat ∧
    ∀ m cnt acc rest, (cnt + length ds ≤ m)%nat →
      read_digits 16 m cnt acc (ds ++ rest) =
      read_digits 16 m (cnt + length ds) (acc * 16 ^ Z.of_nat (length ds) + n) rest.
Proof.
  revert n tail; induction f as [|f IH]; intros n tail Hf Hn; [lia|]. cbn [fmt_hex_go].
  pose proof (Z.mod_pos_bound n 16). pose proof (Z.div_mod n 16).
  assert (Hh : to_digit 16 (hex_char (n `mod` 16)) = Some (n `mod` 16))
    by (apply hex_char_digit; lia).
  destruct (Z.ltb_spec n 16) as [Hlt|Hge].
  - exists [hex_char (n `mod` 16)]. split_and!; [done|by repeat econstructor|simpl; lia..|].
    intros m cnt acc rest Hm. cbn [app read_digits]. rewrite Hh.
    simpl in Hm. destruct (Nat.ltb_spec m (S cnt)); [lia|].
    f_equal; simpl; [lia|]. rewrite (Z.mod_small n 16) by lia. lia.
  - rewrite Nat2Z.inj_succ, Z.pow_succ_r in Hn by lia.
    assert (0 < f)%nat by (destruct f; simpl in Hn; lia).
    destruct (IH (n `div` 16) (hex_char (n `mod` 16) :: tail)) as (ds & -> & Hds & Hlen & Hread);
      [lia|split; [apply Z.div_pos|apply Z.div_lt_upper_bound]; lia|].
    exists (ds ++ [hex_char (n `mod` 16)]). rewrite length_app; simpl.
    split_and!; [by rewrite <-app_assoc|apply Forall_app; by repeat econstructor|lia..|].
    intros m cnt acc rest Hm. rewrite <-app_assoc, Hread by lia. cbn [app read_digits]. rewrite Hh.
    destruct (Nat.ltb_spec m (S (cnt + length ds))); [lia|].
    f_equal; [lia|]. rewrite Nat2Z.inj_add, Z.pow_add_r by lia.
    change (16 ^ Z.of_nat 1) with 16. lia.
Qed.

Definition segment (n : Z) : Prop := 0 ≤ n ≤ u16_max.

Lemma fmt_hex_digits n : segment n → Forall hex (fmt_hex n) ∧ fmt_hex n ≠ [].
Proof.
  unfold segment, u16_max. intros Hn.
  destruct (fmt_hex_go_spec 4 n []) as (ds & Heq & Hds & Hlen & _); [lia..|].
  unfold fmt_hex. rewrite Heq, app_nil_r. split; [done|]. by destruct ds; simpl in *; [lia|].
Qed.

(** The rest of the input neither continues a segment nor turns it into the
    first octet of an IPv4 address: it is empty or starts with a colon. *)
Definition after_group (rest : str) : Prop := rest = [] ∨ head rest = Some colon.

Lemma read_group_fmt n rest :
  segment n → after_group rest →
  read_number u16_max 16 4 true (fmt_hex n ++ rest) = Some (n, rest).
Proof.
  unfold segment, u16_max. intros Hn Hr.
  destruct (fmt_hex_go_spec 4 n []) as (ds & Heq & _ & Hlen & Hread); [lia..|].
  unfold read_number, fmt_hex. rewrite Heq, app_nil_r, Hread by lia.
  assert (read_digits 16 4 (0 + length ds) (0 * 16 ^ Z.of_nat (length ds) + n) rest
          = Some (n, length ds, rest)) as ->.
  { destruct Hr as [->|Hc]; [simpl|destruct rest; simplify_eq/=]; repeat f_equal; lia. }
  destruct (Nat.eqb_spec (length ds) 0); [lia|]. simpl.
  case_match; [done|lia].
Qed.

(** ** A group is not an IPv4 address *)

Lemma read_digits_split radix m cnt acc s v k rest :
  read_digits radix m cnt acc s = Some (v, k, rest) →
  ∃ p, s = p ++ rest ∧ Forall (λ c, is_Some (to_digit radix c)) p.
Proof.
  revert cnt acc; induction s as [|c s IH]; intros cnt acc; simpl.
  { intros; simplify_eq. by exists []. }
  destruct (to_digit radix c) as [d|] eqn:Hd.
  - case_match; [done|]. intros (p & -> & Hp)%IH. exists (c :: p).
    split; [done|]. constructor; [eauto|done].
  - intros; simplify_eq. by exists [].
Qed.

(** An IPv4 address starts with hexadecimal digits and a dot. *)
Lemma read_ipv4_addr_dot s x :
  read_ipv4_addr s = Some x → ∃ p t, s = p ++ dot :: t ∧ Forall hex p ∧ p ≠ [].
Proof.
  unfold read_ipv4_addr. intros ([a s1] & Ha & H)%bind_Some.
  apply bind_Some in H as ([b s2] & Hb & _).
  unfold read_octet, read_separator, read_number in Ha. simpl in Ha.
  destruct (read_digits 10 3 0 0 s) as [[[v k] r]|] eqn:E; [|done].
  destruct (Nat.eqb_spec k 0) as [|Hk]; [done|]. repeat case_match; simplify_eq.
  unfold read_octet, read_separator in Hb. simpl in Hb. apply bind_Some in Hb as (s3 & Hc & _).
  unfold read_given_char in Hc. destruct s1 as [|c s1]; [done|].
  destruct (Ascii.eqb_spec dot c); simplify_eq.
  pose proof E as E'. apply read_digits_split in E' as (p & -> & Hp).
  exists p, s3. split_and!; [done| |].
  - eapply Forall_impl; [done|]. intros c [d Hd]. by eapply decimal_hex.
  - intros ->. simpl in E. by simplify_eq.
Qed.

Lemma group_not_ipv4 g rest :
  Forall hex g → after_group rest → read_ipv4_addr (g ++ rest) = None.
Proof.
  intros Hg Hr. destruct (read_ipv4_addr (g ++ rest)) as [x|] eqn:E; [exfalso|done].
  apply read_ipv4_addr_dot in E as (p & t & Heq & Hp & _). clear x.
  revert g Hg Heq; induction Hp as [|c p Hc Hp IH]; intros g Hg Heq; destruct Hg as [|d g Hd Hg];
    simplify_eq/=.
  - by destruct Hr.
  - by apply dot_not_hex.
  - destruct Hr as [|]; simplify_eq/=. by apply colon_not_hex.
  - by eapply IH.
Qed.

Lemma read_number_no_digit rest :
  after_group rest → read_number u16_max 16 4 true rest = None.
Proof. intros [->|Hc]; [done|]. destruct rest; by simplify_eq/=. Qed.

(** ** Sequences of groups *)

Definition later_groups (l : list Z) : str := concat ((λ s, colon :: fmt_hex s) <$> l).

(** The groups end: at the end of the input, or at a double colon. *)
Definition ends_groups (rest : str) : Prop := rest = [] ∨ ∃ r, rest = colon :: colon :: r.

Lemma ends_after_group rest : ends_groups rest → after_group rest.
Proof. intros [->|[r ->]]; [by left|by right]. Qed.

Lemma later_after_group l rest : ends_groups rest → after_group (later_groups l ++ rest).
Proof. intros Hr. destruct l; [by apply ends_after_group|by right]. Qed.

Lemma read_groups_stop k i rest : ends_groups rest → read_groups k i rest = ([], false, rest).
Proof.
  intros Hr. destruct k as [|k]; [done|]. cbn [read_groups]. unfold read_separator.
  assert (Hno : ∀ r, after_group r → read_ipv4_addr r = None)
    by (intros r; apply (group_not_ipv4 []); constructor).
  destruct (Nat.ltb_spec 0 i).
  - destruct Hr as [->|[r ->]]; [by destruct (0 <? k)%nat|].
    cbn [read_given_char]. rewrite Ascii.eqb_refl. cbn [mbind option_bind].
    rewrite Hno, read_number_no_digit by by right. by destruct (0 <? k)%nat.
  - apply ends_after_group in Hr. rewrite Hno, read_number_no_digit by done.
    by destruct (0 <? k)%nat.
Qed.

Lemma read_groups_cons k i g rest s gs b s' :
  segment g → after_group rest →
  read_separator colon i (read_number u16_max 16 4 true) s = Some (g, rest) →
  read_separator colon i read_ipv4_addr s = None →
  read_groups k (S i) rest = (gs, b, s') →
  read_groups (S k) i s = (g :: gs, b, s').
Proof.
  intros Hg Hr Hn Hv Hk. cbn [read_groups]. rewrite Hv, Hn, Hk. by destruct (0 <? k)%nat.
Qed.

Lemma read_later_groups l k i rest :
  (0 < i)%nat → (length l ≤ k)%nat → Forall segment l → ends_groups rest →
  read_groups k i (later_groups l ++ rest) = (l, false, rest).
Proof.
  intros Hi Hk Hl Hr. revert k i Hi Hk; induction Hl as [|g l Hg Hl IH]; intros k i Hi Hk.
  { by apply read_groups_stop. }
  destruct k as [|k]; simpl in Hk; [lia|]. pose proof (later_after_group l rest Hr) as Ha.
  pose proof (fmt_hex_digits g Hg) as [Hd _].
  eapply read_groups_cons; [done|exact Ha|..|apply IH; lia];
    unfold read_separator, later_groups; destruct (Nat.ltb_spec 0 i); try lia;
    simpl; rewrite <-app_assoc.
  - by apply read_group_fmt.
  - by apply group_not_ipv4.
Qed.

Lemma read_first_groups l k rest :
  (length l ≤ k)%nat → Forall segment l → ends_groups rest →
  read_groups k 0 (fmt_subslice l ++ rest) = (l, false, rest).
Proof.
  intros Hk Hl Hr. destruct Hl as [|g l Hg Hl]; [by apply read_groups_stop|].
  destruct k as [|k]; simpl in Hk; [lia|]. pose proof (later_after_group l rest Hr) as Ha.
  pose proof (fmt_hex_digits g Hg) as [Hd _]. unfold fmt_subslice. rewrite <-app_assoc.
  eapply read_groups_cons; [done|exact Ha|..|apply read_later_groups; [lia..|done|done]].
  - by apply read_group_fmt.
  - by apply group_not_ipv4.
Qed.

(** ** The longest run of zero segments *)

(** The span lies within the segments and covers zeros only. *)
Definition zeros_at (l : list Z) (span : nat * nat) : Prop :=
  (span.1 + span.2 ≤ length l)%nat ∧ take span.2 (drop span.1 l) = replicate span.2 0.

Lemma zero_span_zeros rest : ∀ done current longest,
  zeros_at done longest →
  (current.2 = 0%nat ∨ (current.1 + current.2 = length done)%nat ∧ zeros_at done current) →
  zeros_at (done ++ rest) (zero_span (length done) current longest rest).
Proof.
  induction rest as [|s rest IH]; intros done current longest Hl Hc; cbn [zero_span].
  { by rewrite app_nil_r. }
  assert (Hgrow : ∀ span, zeros_at done span → zeros_at (done ++ [s]) span).
  { intros [a n] [Hb Hz]. split; [rewrite length_app; simpl in *; lia|]. simpl in *.
    rewrite drop_app_le by lia. by rewrite take_app_le by (rewrite length_drop; lia). }
  rewrite cons_middle, app_assoc. replace (S (length done)) with (length (done ++ [s]))
    by (rewrite length_app; simpl; lia).
  destruct (Z.eqb_spec s 0) as [->|]; [|apply IH; [by apply Hgrow|by left]].
  set (start := if (current.2 =? 0)%nat then length done else current.1).
  assert (Hstart : (start + S current.2 = length (done ++ [0%Z]))%nat ∧
                   zeros_at (done ++ [0]) (start, S current.2)).
  { subst start. destruct current as [a n]; simpl in *.
    destruct (Nat.eqb_spec n 0) as [->|Hn].
    - split; [rewrite length_app; simpl; lia|]. split; [rewrite length_app; simpl; lia|]. simpl.
      by rewrite drop_app_length.
    - destruct Hc as [|[He [_ Hz]]]; [done|]. simpl in *.
      split; [rewrite length_app; simpl; lia|]. split; [rewrite length_app; simpl; lia|]. simpl.
      rewrite drop_app_le by lia. change (0 :: replicate n 0) with (replicate (S n) 0).
      rewrite replicate_S_end.
      rewrite take_ge in Hz by (rewrite length_drop; lia). rewrite Hz.
      rewrite take_ge; [done|]. rewrite length_app, length_replicate. simpl. lia. }
  apply IH; [|by right]. case_match; [by apply Hstart|by apply Hgrow].
Qed.

Lemma zero_span_split l start len :
  zero_span 0 (0, 0)%nat (0, 0)%nat l = (start, len) →
  l = take start l ++ replicate len 0 ++ drop (start + len) l ∧ (start + len ≤ length l)%nat.
Proof.
  intros H. assert (zeros_at l (start, len)) as [Hb Hz].
  { rewrite <-H. apply (zero_span_zeros l []); [split; [simpl; lia|done]|by left]. }
  simpl in *. split; [|done]. rewrite <-Hz, <-drop_drop, take_drop. by rewrite take_drop.
Qed.

(** ** Round trip *)

Lemma read_ipv6_compressed hd n tl :
  (length hd + n + length tl = 8)%nat → (1 < n)%nat → Forall segment hd → Forall segment tl →
  read_ipv6_addr (fmt_subslice hd ++ lit "::" ++ fmt_subslice tl) =
  Some (hd ++ replicate n 0 ++ tl, []).
Proof.
  intros Hlen Hn Hh Ht. unfold read_ipv6_addr.
  rewrite read_first_groups by first [lia|done|right; by eexists].
  destruct (Nat.eqb_spec (length hd) 8); [lia|]. simpl.
  rewrite <-(app_nil_r (fmt_subslice tl)), read_first_groups by first [lia|done|by left].
  by replace (8 - length hd - length tl)%nat with n by lia.
Qed.

Lemma read_ipv6_plain l :
  length l = 8%nat → Forall segment l → read_ipv6_addr (fmt_subslice l) = Some (l, []).
Proof.
  intros Hl Hs. unfold read_ipv6_addr.
  rewrite <-(app_nil_r (fmt_subslice l)), read_first_groups by first [lia|done|by left].
  by rewrite Hl.
Qed.

Lemma read_mapped_groups a b c d :
  ip_wf (V4 a b c d) →
  read_groups 7 0 (fmt_hex 65535 ++ colon :: fmt_ipv4 a b c d) =
  ([65535; a * 256 + b; c * 256 + d], true, []).
Proof.
  intros Hwf. assert (segment 65535) as Hs by (unfold segment, u16_max; lia).
  assert (after_group (colon :: fmt_ipv4 a b c d)) as Ha by by right.
  apply (read_groups_cons 6 0 _ (colon :: fmt_ipv4 a b c d)); [done..| | |].
  - by apply read_group_fmt.
  - apply group_not_ipv4; [by apply fmt_hex_digits|done].
  - cbn [read_groups Nat.ltb Nat.leb]. unfold read_separator.
    cbn [Nat.ltb Nat.leb app read_given_char]. rewrite Ascii.eqb_refl. cbn [mbind option_bind].
    by rewrite <-(app_nil_r (fmt_ipv4 a b c d)), read_ipv4_fmt.
Qed.

Lemma read_ipv6_mapped a b c d :
  ip_wf (V4 a b c d) →
  read_ipv6_addr (lit "::ffff:" ++ fmt_ipv4 a b c d) =
  Some ([0; 0; 0; 0; 0; 65535; a * 256 + b; c * 256 + d], []).
Proof.
  intros Hwf. unfold read_ipv6_addr.
  change (lit "::ffff:" ++ fmt_ipv4 a b c d)
    with (colon :: colon :: fmt_hex 65535 ++ colon :: fmt_ipv4 a b c d).
  rewrite read_groups_stop by (right; by eexists).
  cbn [length Nat.eqb read_given_char mbind option_bind Nat.add].
  rewrite Ascii.eqb_refl. cbn [mbind option_bind read_given_char]. rewrite Ascii.eqb_refl.
  cbn [mbind option_bind]. change (8 - 1)%nat with 7%nat. by rewrite read_mapped_groups.
Qed.

Lemma segment_octets n : segment n → octet (n `div` 256) ∧ octet (n `mod` 256).
Proof.
  unfold segment, octet, u8_max, u16_max. intros.
  pose proof (Z.div_mod n 256). pose proof (Z.mod_pos_bound n 256). lia.
Qed.

(** The form with the longest run of zeros compressed. *)
Definition fmt_spans (l : list Z) : str :=
  let '(start, len) := zero_span 0 (0, 0)%nat (0, 0)%nat l in
  if (1 <? len)%nat then
    fmt_subslice (take start l) ++ lit "::" ++ fmt_subslice (drop (start + len) l)
  else fmt_subslice l.

Lemma fmt_ipv6_cases l :
  fmt_ipv6 l = fmt_spans l ∨
  ∃ hi lo, l = [0; 0; 0; 0; 0; 65535; hi; lo] ∧
    fmt_ipv6 l = lit "::ffff:" ++
      fmt_ipv4 (hi `div` 256) (hi `mod` 256) (lo `div` 256) (lo `mod` 256).
Proof.
  unfold fmt_ipv6. fold (fmt_spans l). generalize (fmt_spans l) as sp. intros sp.
  repeat case_match; first [by left | right; by eexists _, _].
Qed.

Lemma read_ipv6_fmt l : ip_wf (V6 l) → read_ipv6_addr (fmt_ipv6 l) = Some (l, []).
Proof.
  intros [Hl Hs]. destruct (fmt_ipv6_cases l) as [->|(hi & lo & -> & ->)].
  - unfold fmt_spans. destruct (zero_span _ _ _ l) as [start len] eqn:Hz.
    apply zero_span_split in Hz as [Hsplit Hb].
    destruct (Nat.ltb_spec 1 len); [|by apply read_ipv6_plain].
    rewrite (read_ipv6_compressed _ len); [by rewrite <-Hsplit| |done|by apply Forall_take
      |by apply Forall_drop].
    rewrite length_take, length_drop. lia.
  - rewrite !Forall_cons in Hs. destruct Hs as (_ & _ & _ & _ & _ & _ & Hhi & Hlo & _).
    rewrite read_ipv6_mapped by (split_and!; by apply segment_octets).
    repeat f_equal; rewrite Z.mul_comm; symmetry; apply Z.div_mod; lia.
Qed.

(** What IPv6 prints never reads as an IPv4 address, so the parser, which tries
    version 4 first, reaches version 6. *)
Lemma fmt_ipv6_not_ipv4 l : ip_wf (V6 l) → read_ipv4_addr (fmt_ipv6 l) = None.
Proof.
  intros [Hl Hs].
  assert (Hgroups : ∀ gs rest, Forall segment gs → ends_groups rest →
            read_ipv4_addr (fmt_subslice gs ++ rest) = None).
  { intros gs rest Hgs Hr. destruct Hgs as [|g gs Hg Hgs].
    - apply group_not_ipv4; [constructor|by apply ends_after_group].
    - unfold fmt_subslice. rewrite <-app_assoc. apply group_not_ipv4; [by apply fmt_hex_digits|].
      by apply later_after_group. }
  destruct (fmt_ipv6_cases l) as [->|(hi & lo & _ & ->)].
  - unfold fmt_spans. destruct (zero_span _ _ _ l) as [start len]. destruct (1 <? len)%nat.
    + apply Hgroups; [by apply Forall_take|right; by eexists].
    + rewrite <-(app_nil_r (fmt_subslice l)). apply Hgroups; [done|by left].
  - apply (group_not_ipv4 []); [constructor|by right].
Qed.

(** The [Display] of every address reads back to it. *)
Lemma parse_ip_fmt i : ip_wf i → parse_ip (ip_to_string i) = Some i.
Proof.
  destruct i as [a b c d|l]; [apply parse_ip_fmt_v4|]. intros Hwf.
  unfold parse_ip, parse_with, read_ip_addr. cbn [ip_to_string].
  by rewrite fmt_ipv6_not_ipv4, read_ipv6_fmt.
Qed.

(** ** The characters of an address *)

Definition addr_char (c : ascii) : Prop := hex c ∨ c = dot ∨ c = colon.

Lemma hex_group_chars n : Forall addr_char (fmt_hex n) ∧ fmt_hex n ≠ [].
Proof.
  assert (H : ∀ f m tail, Forall addr_char tail →
            Forall addr_char (fmt_hex_go f m tail) ∧ (f ≠ 0%nat → fmt_hex_go f m tail ≠ [])).
  { induction f as [|f IH]; intros m tail Ht; [done|]. cbn [fmt_hex_go].
    assert (Forall addr_char (hex_char (m `mod` 16) :: tail)) as Hc.
    { constructor; [|done]. left. eexists. apply hex_char_digit, Z.mod_pos_bound. lia. }
    case_match; [done|]. destruct (IH (m `div` 16) _ Hc) as [? Hne]. split; [done|].
    intros _. destruct f; [done|]. by apply Hne. }
  destruct (H 4%nat n []); [constructor|]. unfold fmt_hex. auto.
Qed.

Lemma decimal_chars n : Forall addr_char (fmt n).
Proof.
  eapply Forall_impl; [apply fmt_digits|]. intros c Hc. left.
  unfold hex, to_digit, is_ascii_digit in *. rewrite Hc.
  replace (code c - 48 <? 16) with true by lia. eauto.
Qed.

Lemma subslice_chars l : Forall addr_char (fmt_subslice l) ∧ (l ≠ [] → fmt_subslice l ≠ []).
Proof.
  destruct l as [|g l]; [done|]. simpl. pose proof (hex_group_chars g) as [Hg Hne]. split.
  - apply Forall_app. split; [done|]. induction l as [|h l IH]; [constructor|]. simpl.
    constructor; [by right; right|]. apply Forall_app. split; [apply hex_group_chars|done].
  - intros _ [? _]%app_eq_nil. done.
Qed.

Lemma fmt_ipv4_chars a b c d : Forall addr_char (fmt_ipv4 a b c d).
Proof.
  unfold fmt_ipv4. repeat first [apply Forall_app; split; [apply decimal_chars|]
    | apply Forall_cons; split; [by right; left|]]. apply decimal_chars.
Qed.

Lemma ip_to_string_chars i :
  ip_wf i → Forall addr_char (ip_to_string i) ∧ ip_to_string i ≠ [].
Proof.
  intros Hwf. destruct i as [a b c d|l]; simpl.
  { split; [apply fmt_ipv4_chars|]. unfold fmt_ipv4. by intros [?%fmt_go_nonnil _]%app_eq_nil. }
  assert (Hcc : ∀ s, Forall addr_char s → Forall addr_char (lit "::" ++ s))
    by (intros s Hs; repeat (apply Forall_cons; split; [by right; right|]); done).
  destruct (fmt_ipv6_cases l) as [->|(hi & lo & _ & ->)].
  - unfold fmt_spans. destruct (zero_span _ _ _ l) as [start len]. destruct (1 <? len)%nat.
    + split; [|by intros [_ ?]%app_eq_nil].
      apply Forall_app. split; [apply subslice_chars|apply Hcc, subslice_chars].
    + destruct Hwf as [Hl _]. split; [apply subslice_chars|].
      apply subslice_chars. by intros ->.
  - split; [|done]. apply Hcc. change (lit "ffff:") with (fmt_hex 65535 ++ [colon]).
    change (Forall addr_char ((fmt_hex 65535 ++ [colon]) ++
      fmt_ipv4 (hi `div` 256) (hi `mod` 256) (lo `div` 256) (lo `mod` 256))).
    rewrite <-app_assoc. apply Forall_app. split; [apply hex_group_chars|].
    constructor; [by right; right|apply fmt_ipv4_chars].
Qed.
