(* ===== verification/Log.v ===== *)
(** * The log: [src/src/log.rs]

    Structured log lines, the file they go to, and [update_log_file].  The state is
    the [static LOG_FILE] together with what has been written: the lines of the
    standard output and of each file, oldest first.  A file is known by the path it
    was opened with.  The local time and the name of the thread are arguments.
    Writing is taken to succeed: the source ignores a failed write to the file. *)

From S2P Require Import Prelude RustStr.

(** ** Lines *)

(** [enum LogLevel] *)
Inductive LogLevel : Type := INFO | ERROR | WARN | DEBUG.

(** [impl Display for LogLevel] *)
Definition display_level (l : LogLevel) : str :=
  match l with
  | INFO => lit "INFO"
  | ERROR => lit "ERROR"
  | WARN => lit "WARN"
  | DEBUG => lit "DEBUG"
  end.

(** The arguments of [log_event], as the macros [log_info!] and so on build them *)
Record LogRecord : Type := MkLogRecord {
  log_level : LogLevel;
  log_name : str;
  log_kv : list (str * str) }.

#[export] Instance LogLevel_eq_dec : EqDecision LogLevel.
Proof. solve_decision. Defined.
#[export] Instance LogRecord_eq_dec : EqDecision LogRecord.
Proof. solve_decision. Defined.

Declare Scope log_scope.
Delimit Scope log_scope with log.
(** ["key" => value] of the macros *)
Notation "k ⇒ v" := (lit k, v) (at level 60, no associativity) : log_scope.
Open Scope log_scope.

(** The loop over [kv] *)
Definition kv_str (kv : list (str * str)) : str :=
  foldl (λ s '(k, v), s ++ lit " " ++ k ++ lit "=" ++ v) [] kv.

(** [log_line] of [log_event] *)
Definition log_line (timestamp thread_name : str) (r : LogRecord) : str :=
  lit "[" ++ timestamp ++ lit "] [" ++ display_level (log_level r) ++ lit "] [" ++ thread_name ++
  lit "] event=" ++ log_name r ++ kv_str (log_kv r).

(** [thread::current().name().unwrap_or("unknown-thread")] *)
Definition thread_name_or_unknown (name : option str) : str :=
  default (lit "unknown-thread") name.

(** ** The destinations *)

Record LogState : Type := MkLogState {
  LOG_FILE : option str;
  stdout : list str;
  log_files : gmap str (list str) }.

(** The lines of a file; none when it does not exist *)
Definition file_lines (p : str) (s : LogState) : list str := default [] (log_files s !! p).

(** [update_log_file]: opening for appending creates a missing file; [can_append]
    says whether a path can be opened, and [None] is the panic of [expect] when it
    cannot *)
Definition update_log_file (can_append : str → bool) (path : option str) (s : LogState) :
    option LogState :=
  match path with
  | Some p =>
      if can_append p then
        Some (MkLogState (Some p) (stdout s) (<[p := file_lines p s]> (log_files s)))
      else None
  | None => Some (MkLogState None (stdout s) (log_files s))
  end.

(** [log_event] *)
Definition log_event (timestamp : str) (thread : option str) (r : LogRecord) (s : LogState) :
    LogState :=
  let line := log_line timestamp (thread_name_or_unknown thread) r in
  MkLogState (LOG_FILE s) (stdout s ++ [line])
    (match LOG_FILE s with
     | Some p => <[p := file_lines p s ++ [line]]> (log_files s)
     | None => log_files s
     end).

(** ** Lines are lines *)

Definition one_line (s : str) : Prop := newline ∉ s.

#[export] Instance one_line_dec s : Decision (one_line s).
Proof. unfold one_line. apply _. Defined.

Lemma one_line_app s t : one_line (s ++ t) ↔ one_line s ∧ one_line t.
Proof. unfold one_line. rewrite elem_of_app. tauto. Qed.

Lemma kv_str_one_line kv :
  one_line (kv_str kv) ↔ Forall (λ x, one_line x.1 ∧ one_line x.2) kv.
Proof.
  unfold kv_str.
  assert (∀ acc, one_line (foldl (λ s '(k, v), s ++ lit " " ++ k ++ lit "=" ++ v) acc kv) ↔
    one_line acc ∧ Forall (λ x, one_line x.1 ∧ one_line x.2) kv) as Hgo.
  { induction kv as [|[k v] kv IH]; intros acc; cbn [foldl]; [naive_solver|].
    rewrite IH, !one_line_app, Forall_cons. cbn [fst snd].
    assert (one_line (lit " ") ∧ one_line (lit "=")) as [? ?] by (split; by eapply bool_decide_unpack; vm_compute).
    tauto. }
  rewrite Hgo. unfold one_line. set_solver.
Qed.

Lemma display_level_one_line l : one_line (display_level l).
Proof. destruct l; by eapply bool_decide_unpack; vm_compute. Qed.

Lemma log_line_one_line ts thread r :
  one_line (log_line ts thread r) ↔
  one_line ts ∧ one_line thread ∧ one_line (log_name r) ∧
  Forall (λ x, one_line x.1 ∧ one_line x.2) (log_kv r).
Proof.
  unfold log_line. rewrite !one_line_app, kv_str_one_line.
  assert (one_line (lit "[") ∧ one_line (lit "] [") ∧ one_line (lit "] event=")) as (?&?&?)
    by (split_and!; by eapply bool_decide_unpack; vm_compute).
  pose proof (display_level_one_line (log_level r)). tauto.
Qed.

(** ** Nothing is lost *)

(** What a state keeps of an earlier one: every line already written. *)
Definition log_grows (s s' : LogState) : Prop :=
  stdout s `prefix_of` stdout s' ∧ ∀ p, file_lines p s `prefix_of` file_lines p s'.

#[export] Instance log_grows_preorder : PreOrder log_grows.
Proof.
  split; [by intros s; split|]. intros s1 s2 s3 [H1 H2] [H3 H4].
  split; [by etrans|]. intros p. etrans; [apply H2|apply H4].
Qed.

Lemma file_lines_insert p q ls s o out :
  file_lines q (MkLogState o out (<[p := ls]> (log_files s))) =
    if decide (q = p) then ls else file_lines q s.
Proof.
  unfold file_lines. simpl. case_decide; subst; [by rewrite lookup_insert_eq|].
  by rewrite lookup_insert_ne.
Qed.

Lemma log_event_grows ts thread r s : log_grows s (log_event ts thread r s).
Proof.
  split; [by apply prefix_app_r|]. intros p. unfold log_event.
  destruct (LOG_FILE s) as [q|]; [|done]. rewrite file_lines_insert.
  case_decide; subst; [by apply prefix_app_r|done].
Qed.

Lemma update_log_file_grows can path s s' :
  update_log_file can path s = Some s' → log_grows s s' ∧ LOG_FILE s' = path.
Proof.
  unfold update_log_file. intros Hu. destruct path as [p|]; [case_if; [|done]|];
    injection Hu as <-; (split; [|done]); (split; [done|]); intros q; [|done].
  rewrite file_lines_insert. by case_decide; subst.
Qed.
