(* ===== verification/Config.v ===== *)
(** * Configuration data: [src/src/config.rs] and [ParseError] of [src/src/error.rs]

    Field names are the source's; where two structs share a field name, the
    struct's name is put in front of it. *)

From S2P Require Import Prelude RustStr NetAddr.

(** [struct SecurityConfig] *)
Record SecurityConfig : Type := MkSecurityConfig {
  proxy_protocol : bool;
  trusted_upstream : IpAddr;
  timeout_ms : Z;
  sec_max_tls_failures : Z;
  ban_duration_sec : Z;
  sec_rate_limit_rpm : Z;
  forward_auth : option str;
  max_body_size : Z;
  max_header_size : Z }.

(** [struct CacheConfig] *)
Record CacheConfig : Type := MkCacheConfig {
  enabled : bool;
  cfg_max_capacity_bytes : Z;
  cfg_max_file_size_bytes : Z;
  default_ttl_sec : Z }.

(** [struct Route] *)
Record Route : Type := MkRoute {
  request_endpoint : str;
  forward_endpoint : str;
  auth_required : bool;
  cert_path : option str;
  key_path : option str;
  route_cache : option bool;
  route_intercept_errors : option bool }.

(** [struct Config] *)
Record Config : Type := MkConfig {
  listen_port : Z;
  routes : list Route;
  workers : Z;
  logfile : option str;
  security : option SecurityConfig;
  config_cache : option CacheConfig;
  config_intercept_errors : option bool }.

(** [Route::should_intercept_errors] *)
Definition route_should_intercept_errors (r : Route) (global_intercept : bool) : bool :=
  default global_intercept (route_intercept_errors r).

(** [enum ParseError] *)
Inductive ParseError : Type :=
| NoListenDirective
| InvalidListenDirective
| TooManyListenDirectives
| InvalidPort (value : str)
| NoRouteDirective
| InvalidRouteDirective (value : str)
| DuplicateRequestEndpoint (value : str)
| MissingSemicolon (line : str)
| InvalidUrlFormat (value : str)
| InvalidDirectiveCase (directive : str)
| UnknownDirective (directive : str)
| InvalidWorkersValue (value : str)
| TooManyWorkersDirectives
| TooManyLogfileDirectives
| IncompleteRouteCertBlock (endpoint : str)
| CertNotAllowedForHttpRoute (endpoint : str)
| UnexpectedBlockTerminator
| InvalidSecurityBlock (value : str)
| TooManySecurityDirectives
| DuplicateSecurityDirective (directive : str)
| InvalidSecurityValue (directive value : str)
| MissingSecurityDirective (directive : str)
| UnterminatedSecurityBlock.

(** ** [#[derive(Debug)]]: the text of an error in the log *)

Definition quote : ascii := chr 34.
Definition backslash : ascii := chr 92.

(** [char::escape_debug] inside a string, for characters below U+0100 *)
Definition escape_debug (c : ascii) : str :=
  let n := code c in
  if n =? 0 then backslash :: lit "0"
  else if n =? 9 then backslash :: lit "t"
  else if n =? 10 then backslash :: lit "n"
  else if n =? 13 then backslash :: lit "r"
  else if (n =? 34) || (n =? 92) then [backslash; c]
  else if (n <? 32) || ((127 <=? n) && (n <=? 160)) || (n =? 173) then
    backslash :: lit "u{" ++ fmt_hex n ++ lit "}"
  else [c].

(** [{:?}] of a string *)
Definition debug_str (s : str) : str := quote :: mjoin (escape_debug <$> s) ++ [quote].

(** A struct-like variant with its fields *)
Definition debug_variant (name : string) (fields : list (string * str)) : str :=
  lit name ++ lit " { " ++
  foldr (λ '(f, v) acc, lit f ++ lit ": " ++ debug_str v ++
           match acc with [] => [] | _ => lit ", " ++ acc end) [] fields ++
  lit " }".

(** [{:?}] of a [ParseError] *)
Definition debug_parse_error (e : ParseError) : str :=
  match e with
  | NoListenDirective => lit "NoListenDirective"
  | InvalidListenDirective => lit "InvalidListenDirective"
  | TooManyListenDirectives => lit "TooManyListenDirectives"
  | InvalidPort v => debug_variant "InvalidPort" [("value"%string, v)]
  | NoRouteDirective => lit "NoRouteDirective"
  | InvalidRouteDirective v => debug_variant "InvalidRouteDirective" [("value"%string, v)]
  | DuplicateRequestEndpoint v => debug_variant "DuplicateRequestEndpoint" [("value"%string, v)]
  | MissingSemicolon l => debug_variant "MissingSemicolon" [("line"%string, l)]
  | InvalidUrlFormat v => debug_variant "InvalidUrlFormat" [("value"%string, v)]
  | InvalidDirectiveCase d => debug_variant "InvalidDirectiveCase" [("directive"%string, d)]
  | UnknownDirective d => debug_variant "UnknownDirective" [("directive"%string, d)]
  | InvalidWorkersValue v => debug_variant "InvalidWorkersValue" [("value"%string, v)]
  | TooManyWorkersDirectives => lit "TooManyWorkersDirectives"
  | TooManyLogfileDirectives => lit "TooManyLogfileDirectives"
  | IncompleteRouteCertBlock e => debug_variant "IncompleteRouteCertBlock" [("endpoint"%string, e)]
  | CertNotAllowedForHttpRoute e =>
      debug_variant "CertNotAllowedForHttpRoute" [("endpoint"%string, e)]
  | UnexpectedBlockTerminator => lit "UnexpectedBlockTerminator"
  | InvalidSecurityBlock v => debug_variant "InvalidSecurityBlock" [("value"%string, v)]
  | TooManySecurityDirectives => lit "TooManySecurityDirectives"
  | DuplicateSecurityDirective d =>
      debug_variant "DuplicateSecurityDirective" [("directive"%string, d)]
  | InvalidSecurityValue d v =>
      debug_variant "InvalidSecurityValue" [("directive"%string, d); ("value"%string, v)]
  | MissingSecurityDirective d => debug_variant "MissingSecurityDirective" [("directive"%string, d)]
  | UnterminatedSecurityBlock => lit "UnterminatedSecurityBlock"
  end.

#[export] Instance SecurityConfig_eq_dec : EqDecision SecurityConfig.
Proof. solve_decision. Defined.
#[export] Instance CacheConfig_eq_dec : EqDecision CacheConfig.
Proof. solve_decision. Defined.
#[export] Instance Route_eq_dec : EqDecision Route.
Proof. solve_decision. Defined.
#[export] Instance Config_eq_dec : EqDecision Config.
Proof. solve_decision. Defined.
#[export] Instance ParseError_eq_dec : EqDecision ParseError.
Proof. solve_decision. Defined.

(** ** The values the structs can hold, and what the parser promises of them *)

Definition is_u16 (z : Z) : Prop := 0 ≤ z ≤ u16_max.
Definition is_u64 (z : Z) : Prop := 0 ≤ z ≤ u64_max.
Definition is_usize (z : Z) : Prop := 0 ≤ z ≤ usize_max.
