(* ===== verification/Comments.v ===== *)
(** * Comment stripping: [strip_comments] of [src/src/parser.rs]

    The source walks a character vector with an index [i] and appends to
    [result].  The model walks the remaining characters and carries the ones
    already passed in reverse order ([before], nearest first), which is what the
    source reads through [chars[i - 1]] and its backward scan. *)

From S2P Require Import Prelude RustStr.

Definition slash : ascii := "/"%char.
Definition star : ascii := "*"%char.
Definition semicolon : ascii := ";"%char.

(** The backward scan to the start of the line: [only_whitespace]. *)
Fixpoint only_whitespace (before : str) : bool :=
  match before with
  | [] => true
  | c :: before' =>
      if Ascii.eqb c newline then true
      else if negb (Ascii.eqb c space) && negb (Ascii.eqb c tab) then false
      else only_whitespace before'
  end.

(** [is_boundary] at the position after [before] *)
Definition is_boundary (before : str) : bool :=
  match before with
  | [] => true
  | prev :: _ =>
      if Ascii.eqb prev space || Ascii.eqb prev tab || Ascii.eqb prev semicolon
         || Ascii.eqb prev newline
      then true
      else only_whitespace before
  end.

(** Which of the three loops of the function is running. *)
Inductive mode : Type := Text | LineComment | BlockComment.

Fixpoint strip_from (m : mode) (before rest : str) : str :=
  match rest with
  | [] => []
  | c :: rest' =>
      match m with
      | Text =>
          match rest' with
          | next :: rest'' =>
              if Ascii.eqb c slash && (Ascii.eqb next slash || Ascii.eqb next star)
                 && is_boundary before
              then
                space :: space ::
                strip_from (if Ascii.eqb next slash then LineComment else BlockComment)
                  (next :: c :: before) rest''
              else c :: strip_from Text (c :: before) rest'
          | [] => [c]
          end
      | LineComment =>
          if Ascii.eqb c newline then c :: strip_from Text (c :: before) rest'
          else space :: strip_from LineComment (c :: before) rest'
      | BlockComment =>
          match rest' with
          | next :: rest'' =>
              if Ascii.eqb c star && Ascii.eqb next slash
              then space :: space :: strip_from Text (next :: c :: before) rest''
              else (if Ascii.eqb c newline then newline else space)
                   :: strip_from BlockComment (c :: before) rest'
          | [] => [if Ascii.eqb c newline then newline else space]
          end
      end
  end.

Definition strip_comments (input : str) : str := strip_from Text [] input.

(** ** Specification *)

(** What stripping may do to one character: keep it, or blank it out when it is
    not a newline. *)
Definition kept_or_blanked (i o : ascii) : Prop := o = i ∨ (o = space ∧ i ≠ newline).

(** A comment opener at a place where the source lets a comment start. *)
Definition opens_comment (before rest : str) : Prop :=
  ∃ next rest', rest = slash :: next :: rest' ∧ (next = slash ∨ next = star) ∧
  (∀ prev, head before = Some prev → prev ∈ [space; tab; semicolon; newline]).

(** ** Lemmas *)

Lemma two_step_ind {A} (P : list A → Prop) :
  P [] → (∀ x, P [x]) → (∀ x y l, P l → P (y :: l) → P (x :: y :: l)) → ∀ l, P l.
Proof.
  intros H0 H1 H2 l. enough (P l ∧ ∀ x, P (x :: l)) as [H _]; [exact H|].
  induction l as [|y l [IHa IHb]]; [auto|]. split; [auto|]. intros x. apply H2; auto.
Qed.

Lemma is_boundary_spec before :
  is_boundary before = true ↔
  ∀ prev, head before = Some prev → prev ∈ [space; tab; semicolon; newline].
Proof.
  destruct before as [|c before]; simpl; [naive_solver|].
  split.
  - intros H prev [= <-]. destruct (Ascii.eqb_spec c space), (Ascii.eqb_spec c tab),
      (Ascii.eqb_spec c semicolon), (Ascii.eqb_spec c newline); set_solver.
  - intros H. specialize (H c eq_refl). rewrite !elem_of_cons in H.
    destruct H as [->|[->|[->|[->|[]%elem_of_nil]]]]; done.
Qed.

Lemma blank_keeps i : i ≠ newline → kept_or_blanked i space.
Proof. right. done. Qed.

(** One output character at a time. *)
Ltac kept_step :=
  first [ by constructor 1
        | constructor 2; [first [by left | by apply blank_keeps]|] ].

(** The three loops, one iteration at a time. *)
Lemma strip_text_step before c next rest :
  strip_from Text before (c :: next :: rest) =
  if Ascii.eqb c slash && (Ascii.eqb next slash || Ascii.eqb next star) && is_boundary before
  then space :: space ::
       strip_from (if Ascii.eqb next slash then LineComment else BlockComment)
         (next :: c :: before) rest
  else c :: strip_from Text (c :: before) (next :: rest).
Proof. done. Qed.

Lemma strip_line_step before c rest :
  strip_from LineComment before (c :: rest) =
  if Ascii.eqb c newline then c :: strip_from Text (c :: before) rest
  else space :: strip_from LineComment (c :: before) rest.
Proof. done. Qed.

Lemma strip_block_step before c next rest :
  strip_from BlockComment before (c :: next :: rest) =
  if Ascii.eqb c star && Ascii.eqb next slash
  then space :: space :: strip_from Text (next :: c :: before) rest
  else (if Ascii.eqb c newline then newline else space)
       :: strip_from BlockComment (c :: before) (next :: rest).
Proof. done. Qed.

Lemma slash_or_star c : Ascii.eqb c slash || Ascii.eqb c star = true → c ≠ newline.
Proof. intros H ->. done. Qed.

Lemma strip_from_Forall2 m before rest :
  Forall2 kept_or_blanked rest (strip_from m before rest).
Proof.
  revert m before. induction rest as [|c|c next rest IH IH1] using two_step_ind;
    intros m before; [kept_step| |].
  - cbn [strip_from]. destruct m, (Ascii.eqb_spec c newline) as [->|]; repeat kept_step.
  - destruct m.
    + rewrite strip_text_step. case_if; [|kept_step; apply IH1].
      apply andb_prop in Heqb as [[Hc Hn]%andb_prop _].
      apply slash_or_star in Hn. apply Ascii.eqb_eq in Hc as ->.
      repeat kept_step. apply IH.
    + rewrite strip_line_step. destruct (Ascii.eqb_spec c newline); kept_step; apply IH1.
    + rewrite strip_block_step. case_if.
      * apply andb_prop in Heqb as [->%Ascii.eqb_eq ->%Ascii.eqb_eq].
        repeat kept_step. apply IH.
      * destruct (Ascii.eqb_spec c newline) as [->|]; kept_step; apply IH1.
Qed.

Lemma kept_newline i o : kept_or_blanked i o → o = newline ↔ i = newline.
Proof. intros [->|[-> ?]]; [done|]. split; done. Qed.

Lemma strip_from_plain before rest :
  (∀ a b, rest = a ++ b → ¬ opens_comment (reverse a ++ before) b) →
  strip_from Text before rest = rest.
Proof.
  revert before. induction rest as [|c rest IH]; intros before Hno; [done|].
  assert (∀ a b, rest = a ++ b → ¬ opens_comment (reverse a ++ c :: before) b) as Hno'.
  { intros a b ->. specialize (Hno (c :: a) b eq_refl).
    by rewrite reverse_cons, <-app_assoc in Hno. }
  cbn [strip_from]. rewrite (IH _ Hno'). destruct rest as [|next rest]; [done|].
  destruct (Ascii.eqb_spec c slash) as [->|]; [|done].
  destruct (is_boundary before) eqn:Hb; [|by rewrite andb_false_r].
  assert (next ≠ slash ∧ next ≠ star) as [??].
  { split; intros ->; (apply (Hno [] _ eq_refl); eexists _, _; split_and!;
      [reflexivity|eauto|by apply is_boundary_spec]). }
  by destruct (Ascii.eqb_spec next slash), (Ascii.eqb_spec next star).
Qed.

(** ** Properties *)

(** Stripping comments never moves anything: the output has as many
    characters as the input, has a newline exactly where the input has one, and
    every character is either kept or replaced by a blank. *)
Theorem strip_comments_layout (input : str) :
  length (strip_comments input) = length input ∧
  (∀ i, strip_comments input !! i = Some newline ↔ input !! i = Some newline) ∧
  (∀ i o, strip_comments input !! i = Some o → input !! i = Some o ∨ o = space).
Proof.
  pose proof (strip_from_Forall2 Text [] input) as H. split_and!.
  - symmetry. by eapply Forall2_length.
  - intros i. destruct (input !! i) as [c|] eqn:Hi.
    + destruct (Forall2_lookup_l _ _ _ _ _ H Hi) as (o & Ho & Hk).
      unfold strip_comments. rewrite Ho. apply kept_newline in Hk. naive_solver.
    + split; [|done]. intros Ho.
      destruct (Forall2_lookup_r _ _ _ _ _ H Ho) as (? & ? & _). naive_solver.
  - intros i o Ho. destruct (Forall2_lookup_r _ _ _ _ _ H Ho) as (c & Hc & [->|[-> _]]); auto.
Qed.

(** Text in which no comment opener stands at the start, after a blank, a
    tab, a semicolon or a newline is left unchanged; in particular the slashes
    of URLs and paths survive. *)
Theorem strip_comments_plain (input : str)
  (Hplain : ∀ a b, input = a ++ b → ¬ opens_comment (reverse a) b) :
  strip_comments input = input.
Proof.
  apply strip_from_plain. intros a b ->. rewrite app_nil_r. by apply Hplain.
Qed.

(** ** Examples *)

Lemma strip_comments_plain_witness : strip_comments (lit "a//b") = lit "a//b".
Proof.
  apply (strip_comments_plain (lit "a//b")). intros a b Heq (next & rest & -> & Hn & Hp).
  destruct a as [|x [|y [|z [|w a]]]]; vm_compute in Heq; simplify_eq.
  - specialize (Hp _ eq_refl). rewrite !elem_of_cons, elem_of_nil in Hp.
    by destruct Hp as [E|[E|[E|[E|[]]]]]; vm_compute in E.
  - by destruct Hn as [E|E]; vm_compute in E.
  - by destruct a.
Defined.
