(* ===== verification/Parser.v ===== *)
(** * The configuration parser: [src/src/parser.rs]

    [lines: &[&str]] with a shared [index] is modelled by the list of the lines
    from the index on; a block parser returns the lines after its terminator,
    which is where the caller's [index += 1] leaves off.

    The top-level loop is run with fuel, and its [unreachable!()] arm is a
    result of its own: both give [None], and [parse_proxy_config_total] shows
    that [None] never happens. *)

From S2P Require Import Prelude RustStr NetAddr Config Comments.

Abbreviation parse := (result ParseError).

Definition lbrace : ascii := "{"%char.

(** ** Line helpers *)

Definition is_valid_url (url : str) : bool :=
  contains url (lit "://") || starts_with url [slash] || contains_char url colon.

Definition parse_listen_line (line : str) : parse Z :=
  let line_without_semicolon := trim (trim_end_matches line semicolon) in
  match split_whitespace line_without_semicolon with
  | [_; p] => ok_or (parse_uint u16_max p) (InvalidPort p)
  | _ => Err InvalidListenDirective
  end.

Definition validate_semicolon (line : str) : parse unit :=
  ensure (ends_with (trim line) [semicolon]) (MissingSemicolon line).

Definition validate_directive_case (directive : str) : parse unit :=
  ensure (str_eqb directive (to_lowercase directive)) (InvalidDirectiveCase directive).

Definition get_directive (line : str) : parse str :=
  match split_whitespace line with
  | [] => Err (UnknownDirective [])
  | d :: _ => Ok d
  end.

Definition top_level_directives : list str :=
  lit <$> ["listen"; "route"; "workers"; "logfile"; "security"; "cache";
           "intercept_errors"]%string.

Definition validate_known_top_level_directive (directive : str) : parse unit :=
  ensure (bool_decide (directive ∈ top_level_directives)) (UnknownDirective directive).

Definition parse_single_value_directive (line directive : str) : parse str :=
  let line_without_semicolon := trim (trim_end_matches line semicolon) in
  match split_whitespace line_without_semicolon with
  | [_; v] => Ok v
  | _ => Err (UnknownDirective directive)
  end.

Definition check_trailing_garbage (line : str) : parse unit :=
  let trimmed := trim line in
  if negb (ends_with trimmed [semicolon]) then Ok tt
  else match rfind_char semicolon trimmed with
       | Some semicolon_pos =>
           let after_semicolon := trim (drop (semicolon_pos + 1) trimmed) in
           ensure (str_eqb after_semicolon []) InvalidListenDirective
       | None => Ok tt
       end.

(** The on/off words; [with_yes] says whether [yes] and [no] are accepted. *)
Definition parse_switch (with_yes : bool) (value : str) : option bool :=
  if bool_decide (value = lit "on" ∨ value = lit "true" ∨ (with_yes = true ∧ value = lit "yes"))
  then Some true
  else if bool_decide (value = lit "off" ∨ value = lit "false"
                       ∨ (with_yes = true ∧ value = lit "no"))
  then Some false
  else None.

(** The block terminators *)
Definition is_terminator (line : str) : bool :=
  bool_decide (line = lit "}" ∨ line = lit "};").

Definition ends_with_brace (line : str) : bool := ends_with line [lbrace].

(** What every block body does with a line before looking at its directive. *)
Definition block_directive (line : str) : parse str :=
  _ ← validate_semicolon line;
  directive ← get_directive line;
  _ ← validate_directive_case directive;
  _ ← check_trailing_garbage line;
  Ok directive.

(** ** Sizes *)

Definition last_in (s : str) (cs : list ascii) : bool :=
  match last s with Some c => bool_decide (c ∈ cs) | None => false end.

(** The suffix decides the multiplier: [k], [m] or [g], in either case. *)
Definition size_unit (s : str) : str * Z :=
  let num_str := take (length s - 1) s in
  if last_in s ["k"; "K"]%char then (num_str, 1024)
  else if last_in s ["m"; "M"]%char then (num_str, 1024 * 1024)
  else if last_in s ["g"; "G"]%char then (num_str, 1024 * 1024 * 1024)
  else (s, 1).

Definition parse_size_string (s directive_name : str) : parse Z :=
  let s := trim s in
  let err := InvalidSecurityValue directive_name s in
  _ ← ensure (nonempty s) err;
  let '(num_str, multiplier) := size_unit s in
  num ← ok_or (parse_uint usize_max num_str) err;
  ok_or (checked_mul usize_max num multiplier) err.

(** ** Route blocks *)

Definition parse_route_block_header (line : str) : parse str :=
  match split_whitespace line with
  | [r; endpoint; b] =>
      if str_eqb r (lit "route") && str_eqb b [lbrace] then
        _ ← ensure (is_valid_url endpoint) (InvalidUrlFormat endpoint);
        Ok endpoint
      else Err (InvalidRouteDirective line)
  | _ => Err (InvalidRouteDirective line)
  end.

(** The local variables of [parse_route_block] *)
Record RouteBlock : Type := MkRouteBlock {
  rb_forward : option str;
  rb_auth : bool;
  rb_cert : option str;
  rb_key : option str;
  rb_cache : option bool;
  rb_intercept : option bool }.

Definition route_block_init : RouteBlock := MkRouteBlock None false None None None None.

(** The checks and the result at the closing brace *)
Definition route_block_finish (endpoint : str) (rb : RouteBlock) : parse Route :=
  forward ← ok_or (rb_forward rb) (InvalidRouteDirective endpoint);
  _ ← (if starts_with endpoint (lit "https://") then
         ensure (bool_decide (is_Some (rb_cert rb)) && bool_decide (is_Some (rb_key rb)))
           (IncompleteRouteCertBlock endpoint)
       else
         ensure (negb (bool_decide (is_Some (rb_cert rb)) || bool_decide (is_Some (rb_key rb))))
           (CertNotAllowedForHttpRoute endpoint));
  Ok (MkRoute endpoint forward (rb_auth rb) (rb_cert rb) (rb_key rb) (rb_cache rb)
        (rb_intercept rb)).

(** The [match directive] of the block *)
Definition route_block_match (line directive : str) (rb : RouteBlock) : parse RouteBlock :=
  let bad := InvalidRouteDirective line in
  if bool_decide (directive = lit "upstream" ∨ directive = lit "forward") then
    value ← parse_single_value_directive line directive;
    _ ← ensure (is_valid_url value) (InvalidUrlFormat value);
    Ok (MkRouteBlock (Some value) (rb_auth rb) (rb_cert rb) (rb_key rb) (rb_cache rb)
          (rb_intercept rb))
  else if str_eqb directive (lit "auth") then
    value ← parse_single_value_directive line (lit "auth");
    b ← ok_or (parse_switch true value) bad;
    Ok (MkRouteBlock (rb_forward rb) b (rb_cert rb) (rb_key rb) (rb_cache rb)
          (rb_intercept rb))
  else if str_eqb directive (lit "cert") then
    value ← parse_single_value_directive line (lit "cert");
    _ ← ensure (negb (bool_decide (is_Some (rb_cert rb)))) bad;
    Ok (MkRouteBlock (rb_forward rb) (rb_auth rb) (Some value) (rb_key rb) (rb_cache rb)
          (rb_intercept rb))
  else if str_eqb directive (lit "key") then
    value ← parse_single_value_directive line (lit "key");
    _ ← ensure (negb (bool_decide (is_Some (rb_key rb)))) bad;
    Ok (MkRouteBlock (rb_forward rb) (rb_auth rb) (rb_cert rb) (Some value) (rb_cache rb)
          (rb_intercept rb))
  else if str_eqb directive (lit "cache") then
    value ← parse_single_value_directive line (lit "cache");
    b ← ok_or (parse_switch true value) bad;
    Ok (MkRouteBlock (rb_forward rb) (rb_auth rb) (rb_cert rb) (rb_key rb) (Some b)
          (rb_intercept rb))
  else if str_eqb directive (lit "intercept_errors") then
    value ← parse_single_value_directive line (lit "intercept_errors");
    b ← ok_or (parse_switch true value) bad;
    Ok (MkRouteBlock (rb_forward rb) (rb_auth rb) (rb_cert rb) (rb_key rb) (rb_cache rb)
          (Some b))
  else Err bad.

Definition route_block_line (line : str) (rb : RouteBlock) : parse RouteBlock :=
  _ ← ensure (negb (ends_with_brace line)) (InvalidRouteDirective line);
  directive ← block_directive line;
  route_block_match line directive rb.

(** The loop of [parse_route_block] over the lines after the header. *)
Fixpoint parse_route_block (endpoint : str) (rb : RouteBlock) (ls : list str) :
    parse (Route * list str) :=
  match ls with
  | [] => Err (InvalidRouteDirective endpoint)
  | line :: rest =>
      if is_terminator line then
        route ← route_block_finish endpoint rb; Ok (route, rest)
      else
        rb' ← route_block_line line rb; parse_route_block endpoint rb' rest
  end.

(** ** Security blocks *)

(** The local variables of [parse_security_block] *)
Record SecurityBlock : Type := MkSecurityBlock {
  sb_proxy_protocol : option bool;
  sb_trusted_upstream : option IpAddr;
  sb_timeout_ms : option Z;
  sb_max_tls_failures : option Z;
  sb_ban_duration_sec : option Z;
  sb_rate_limit_rpm : option Z;
  sb_forward_auth : option str;
  sb_max_body_size : option Z;
  sb_max_header_size : option Z }.

Definition security_block_init : SecurityBlock :=
  MkSecurityBlock None None None None None None None None None.

(** The defaults and the result at the closing brace *)
Definition security_block_finish (sb : SecurityBlock) : parse SecurityConfig :=
  let pp := default false (sb_proxy_protocol sb) in
  tu ← (if pp then
          ok_or (sb_trusted_upstream sb) (MissingSecurityDirective (lit "trusted_upstream"))
        else Ok (default (V4 0 0 0 0) (sb_trusted_upstream sb)));
  Ok (MkSecurityConfig pp tu
        (default 200 (sb_timeout_ms sb))
        (default 5 (sb_max_tls_failures sb))
        (default 3600 (sb_ban_duration_sec sb))
        (default 300 (sb_rate_limit_rpm sb))
        (sb_forward_auth sb)
        (default (10 * 1024 * 1024) (sb_max_body_size sb))
        (default (64 * 1024) (sb_max_header_size sb))).

(** A directive that may occur once: its value is parsed, a second occurrence
    is refused, and the value is converted. *)
Definition once {A} (line directive : str) (old : option A) (conv : str → parse A) : parse A :=
  value ← parse_single_value_directive line directive;
  _ ← ensure (negb (bool_decide (is_Some old))) (DuplicateSecurityDirective directive);
  conv value.

Definition invalid_value {A} (directive : str) (conv : str → option A) (value : str) : parse A :=
  ok_or (conv value) (InvalidSecurityValue directive value).

(** The [match directive] of the block *)
Definition security_block_match (line directive : str) (sb : SecurityBlock) :
    parse SecurityBlock :=
  let '(MkSecurityBlock pp tu tm mt bd rl fa mb mh) := sb in
  if str_eqb directive (lit "proxy_protocol") then
    v ← once line directive pp (invalid_value directive (parse_switch false));
    Ok (MkSecurityBlock (Some v) tu tm mt bd rl fa mb mh)
  else if str_eqb directive (lit "trusted_upstream") then
    v ← once line directive tu (invalid_value directive parse_ip);
    Ok (MkSecurityBlock pp (Some v) tm mt bd rl fa mb mh)
  else if str_eqb directive (lit "timeout") then
    v ← once line directive tm (invalid_value directive (parse_uint u64_max));
    Ok (MkSecurityBlock pp tu (Some v) mt bd rl fa mb mh)
  else if str_eqb directive (lit "max_tls_failures") then
    v ← once line directive mt (invalid_value directive (parse_uint usize_max));
    Ok (MkSecurityBlock pp tu tm (Some v) bd rl fa mb mh)
  else if str_eqb directive (lit "ban_duration") then
    v ← once line directive bd (invalid_value directive (parse_uint u64_max));
    Ok (MkSecurityBlock pp tu tm mt (Some v) rl fa mb mh)
  else if bool_decide (directive = lit "rate_limit_rpm" ∨ directive = lit "rate_limit") then
    v ← once line directive rl (invalid_value directive (parse_uint usize_max));
    Ok (MkSecurityBlock pp tu tm mt bd (Some v) fa mb mh)
  else if str_eqb directive (lit "forward_auth") then
    v ← once line directive fa Ok;
    Ok (MkSecurityBlock pp tu tm mt bd rl (Some v) mb mh)
  else if str_eqb directive (lit "max_body_size") then
    v ← once line directive mb (λ value, parse_size_string value directive);
    Ok (MkSecurityBlock pp tu tm mt bd rl fa (Some v) mh)
  else if str_eqb directive (lit "max_header_size") then
    v ← once line directive mh (λ value, parse_size_string value directive);
    Ok (MkSecurityBlock pp tu tm mt bd rl fa mb (Some v))
  else Err (InvalidSecurityBlock line).

Definition security_block_line (line : str) (sb : SecurityBlock) : parse SecurityBlock :=
  _ ← ensure (negb (ends_with_brace line)) (InvalidSecurityBlock line);
  directive ← block_directive line;
  security_block_match line directive sb.

(** The loop of [parse_security_block] *)
Fixpoint parse_security_block (sb : SecurityBlock) (ls : list str) :
    parse (SecurityConfig * list str) :=
  match ls with
  | [] => Err UnterminatedSecurityBlock
  | line :: rest =>
      if is_terminator line then
        sec ← security_block_finish sb; Ok (sec, rest)
      else
        sb' ← security_block_line line sb; parse_security_block sb' rest
  end.

(** ** Cache blocks *)

(** The local variables of [parse_cache_block]: a [CacheConfig] in the making *)
Definition cache_block_init : CacheConfig :=
  MkCacheConfig true (64 * 1024 * 1024) (2 * 1024 * 1024) 300.

(** The [_mb] directives read a bare number as megabytes. *)
Definition mb_value (directive value : str) : str :=
  if ends_with directive (lit "_mb") && forallb is_ascii_digit value
  then value ++ lit "M" else value.

(** The [match directive] of the block *)
Definition cache_block_match (line directive : str) (c : CacheConfig) : parse CacheConfig :=
  if bool_decide (directive = lit "enabled" ∨ directive = lit "cache") then
    value ← parse_single_value_directive line directive;
    b ← invalid_value directive (parse_switch true) value;
    Ok (MkCacheConfig b (cfg_max_capacity_bytes c) (cfg_max_file_size_bytes c)
          (default_ttl_sec c))
  else if bool_decide (directive = lit "max_capacity" ∨ directive = lit "max_capacity_mb") then
    value ← parse_single_value_directive line directive;
    n ← parse_size_string (mb_value directive value) directive;
    Ok (MkCacheConfig (enabled c) n (cfg_max_file_size_bytes c) (default_ttl_sec c))
  else if bool_decide (directive = lit "max_file_size" ∨ directive = lit "max_file_size_mb") then
    value ← parse_single_value_directive line directive;
    n ← parse_size_string (mb_value directive value) directive;
    Ok (MkCacheConfig (enabled c) (cfg_max_capacity_bytes c) n (default_ttl_sec c))
  else if bool_decide (directive = lit "default_ttl" ∨ directive = lit "default_ttl_sec"
                       ∨ directive = lit "ttl") then
    value ← parse_single_value_directive line directive;
    n ← invalid_value directive (parse_uint u64_max) value;
    Ok (MkCacheConfig (enabled c) (cfg_max_capacity_bytes c) (cfg_max_file_size_bytes c) n)
  else Err (InvalidSecurityBlock line).

Definition cache_block_line (line : str) (c : CacheConfig) : parse CacheConfig :=
  _ ← ensure (negb (ends_with_brace line)) (InvalidSecurityBlock line);
  directive ← block_directive line;
  cache_block_match line directive c.

(** The loop of [parse_cache_block] *)
Fixpoint parse_cache_block (c : CacheConfig) (ls : list str) : parse (CacheConfig * list str) :=
  match ls with
  | [] => Err UnterminatedSecurityBlock
  | line :: rest =>
      if is_terminator line then Ok (c, rest)
      else c' ← cache_block_line line c; parse_cache_block c' rest
  end.

(** ** The whole file *)

(** The local variables of [parse_proxy_config]; [listen_found] and
    [listen_port] are one option, [routes_found] is kept as it is. *)
Record TopState : Type := MkTopState {
  ts_listen : option Z;
  ts_routes : list Route;
  ts_routes_found : bool;
  ts_request_endpoints : gset str;
  ts_workers : option Z;
  ts_logfile : option str;
  ts_security : option SecurityConfig;
  ts_cache : option CacheConfig;
  ts_intercept_errors : option bool }.

Definition top_init : TopState := MkTopState None [] false ∅ None None None None None.

(** A directive on a line of its own: semicolon and trailing-garbage checks. *)
Definition simple_line (line : str) : parse unit :=
  _ ← validate_semicolon line; check_trailing_garbage line.

(** One iteration of the loop, the [match directive]: the new local variables
    and the lines that remain; [None] is the [unreachable!()] arm. *)
Definition top_match (line directive : str) (rest : list str) (st : TopState) :
    option (parse (TopState * list str)) :=
  let '(MkTopState lp rs rf eps wk lf sec ca ie) := st in
  if str_eqb directive (lit "listen") then Some (
    _ ← simple_line line;
    _ ← ensure (negb (bool_decide (is_Some lp))) TooManyListenDirectives;
    p ← parse_listen_line line;
    Ok (MkTopState (Some p) rs rf eps wk lf sec ca ie, rest))
  else if str_eqb directive (lit "logfile") then Some (
    _ ← simple_line line;
    _ ← ensure (negb (bool_decide (is_Some lf))) TooManyLogfileDirectives;
    value ← parse_single_value_directive line (lit "logfile");
    Ok (MkTopState lp rs rf eps wk (Some value) sec ca ie, rest))
  else if str_eqb directive (lit "intercept_errors") then Some (
    _ ← simple_line line;
    _ ← ensure (negb (bool_decide (is_Some ie))) TooManySecurityDirectives;
    value ← parse_single_value_directive line (lit "intercept_errors");
    b ← ok_or (parse_switch true value) (UnknownDirective line);
    Ok (MkTopState lp rs rf eps wk lf sec ca (Some b), rest))
  else if str_eqb directive (lit "route") && ends_with_brace line then Some (
    endpoint ← parse_route_block_header line;
    _ ← ensure (negb (bool_decide (endpoint ∈ eps))) (DuplicateRequestEndpoint endpoint);
    '(route, rest') ← parse_route_block endpoint route_block_init rest;
    Ok (MkTopState lp (rs ++ [route]) true ({[request_endpoint route]} ∪ eps) wk lf sec ca ie,
        rest'))
  else if str_eqb directive (lit "route") then Some (Err (InvalidRouteDirective line))
  else if str_eqb directive (lit "security") && ends_with_brace line then Some (
    _ ← ensure (negb (bool_decide (is_Some sec))) TooManySecurityDirectives;
    '(s, rest') ← parse_security_block security_block_init rest;
    Ok (MkTopState lp rs rf eps wk lf (Some s) ca ie, rest'))
  else if str_eqb directive (lit "security") then Some (Err (InvalidSecurityBlock line))
  else if str_eqb directive (lit "workers") then Some (
    _ ← simple_line line;
    _ ← ensure (negb (bool_decide (is_Some wk))) TooManyWorkersDirectives;
    value ← parse_single_value_directive line (lit "workers");
    n ← ok_or (parse_uint usize_max value) (InvalidWorkersValue value);
    _ ← ensure (negb (n =? 0)) (InvalidWorkersValue value);
    Ok (MkTopState lp rs rf eps (Some n) lf sec ca ie, rest))
  else if str_eqb directive (lit "cache") && ends_with_brace line then Some (
    _ ← ensure (negb (bool_decide (is_Some ca))) TooManySecurityDirectives;
    '(c, rest') ← parse_cache_block cache_block_init rest;
    Ok (MkTopState lp rs rf eps wk lf sec (Some c) ie, rest'))
  else if str_eqb directive (lit "cache") then Some (Err (InvalidSecurityBlock line))
  else None.

(** One iteration of the loop. *)
Definition top_line (line : str) (rest : list str) (st : TopState) :
    option (parse (TopState * list str)) :=
  if is_terminator line then Some (Err UnexpectedBlockTerminator)
  else
    match (directive ← get_directive line;
           _ ← validate_directive_case directive;
           _ ← validate_known_top_level_directive directive;
           Ok directive) with
    | Err e => Some (Err e)
    | Ok directive => top_match line directive rest st
    end.

(** The loop; [None] when the fuel runs out. *)
Fixpoint parse_lines (fuel : nat) (ls : list str) (st : TopState) : option (parse TopState) :=
  match ls, fuel with
  | [], _ => Some (Ok st)
  | _ :: _, O => None
  | line :: rest, S fuel' =>
      match top_line line rest st with
      | None => None
      | Some (Err e) => Some (Err e)
      | Some (Ok (st', rest')) => parse_lines fuel' rest' st'
      end
  end.

(** The checks after the loop; [available] is what
    [std::thread::available_parallelism] answers. *)
Definition top_finish (available : option Z) (st : TopState) : parse Config :=
  lp ← ok_or (ts_listen st) NoListenDirective;
  _ ← ensure (ts_routes_found st) NoRouteDirective;
  _ ← ensure (negb (existsb auth_required (ts_routes st))
              || bool_decide (is_Some (ts_security st ≫= forward_auth)))
        (MissingSecurityDirective (lit "forward_auth"));
  Ok (MkConfig lp (ts_routes st) (default (default 1 available) (ts_workers st))
        (ts_logfile st) (ts_security st) (ts_cache st) (ts_intercept_errors st)).

(** The lines the loop sees: stripped of comments, trimmed, without the empty
    ones and those that start with a hash sign. *)
Definition config_lines (input : str) : list str :=
  List.filter (λ line, nonempty line && negb (starts_with line (lit "#")))
    (trim <$> lines (strip_comments input)).

(** [parse_proxy_config] *)
Definition parse_proxy_config (available : option Z) (input : str) : option (parse Config) :=
  let ls := config_lines input in
  match parse_lines (length ls) ls top_init with
  | None => None
  | Some r => Some (r ≫= top_finish available)
  end.
