(* ===== verification/ParserSpec.v ===== *)
(** * What the configuration parser promises

    [config_ok] is the well-formedness the rest of the program relies on.  The
    file proves that every accepted configuration satisfies it, that parsing
    always ends with a result, and what the value parsers compute. *)

From S2P Require Import Prelude RustStr NetAddr Config Comments Parser.

(** ** Well-formed configurations *)

(** A route has plausible endpoints, and a certificate with its key exactly
    when its endpoint is an HTTPS one. *)
Record route_ok (r : Route) : Prop := {
  route_ok_request : is_valid_url (request_endpoint r) = true;
  route_ok_forward : is_valid_url (forward_endpoint r) = true;
  route_ok_cert : is_Some (cert_path r) ↔ starts_with (request_endpoint r) (lit "https://") = true;
  route_ok_key : is_Some (key_path r) ↔ starts_with (request_endpoint r) (lit "https://") = true }.

(** Every number of a security block fits its type. *)
Record security_ok (s : SecurityConfig) : Prop := {
  security_ok_ip : ip_wf (trusted_upstream s);
  security_ok_timeout : is_u64 (timeout_ms s);
  security_ok_failures : is_usize (sec_max_tls_failures s);
  security_ok_ban : is_u64 (ban_duration_sec s);
  security_ok_rate : is_usize (sec_rate_limit_rpm s);
  security_ok_body : is_usize (max_body_size s);
  security_ok_header : is_usize (max_header_size s) }.

Record cache_ok (c : CacheConfig) : Prop := {
  cache_ok_capacity : is_usize (cfg_max_capacity_bytes c);
  cache_ok_file : is_usize (cfg_max_file_size_bytes c);
  cache_ok_ttl : is_u64 (default_ttl_sec c) }.

Record config_ok (cfg : Config) : Prop := {
  config_ok_port : is_u16 (listen_port cfg);
  config_ok_nonempty : routes cfg ≠ [];
  config_ok_distinct : NoDup (request_endpoint <$> routes cfg);
  config_ok_routes : Forall route_ok (routes cfg);
  config_ok_workers : 1 ≤ workers cfg ≤ usize_max;
  config_ok_security : ∀ s, security cfg = Some s → security_ok s;
  config_ok_cache : ∀ c, config_cache cfg = Some c → cache_ok c;
  config_ok_auth : ∀ r, r ∈ routes cfg → auth_required r = true →
                   is_Some (security cfg ≫= forward_auth) }.

(** The invariant of the top-level loop. *)
Record top_ok (st : TopState) : Prop := {
  top_ok_port : ∀ p, ts_listen st = Some p → is_u16 p;
  top_ok_found : ts_routes_found st = true → ts_routes st ≠ [];
  top_ok_endpoints : ts_request_endpoints st = list_to_set (request_endpoint <$> ts_routes st);
  top_ok_distinct : NoDup (request_endpoint <$> ts_routes st);
  top_ok_routes : Forall route_ok (ts_routes st);
  top_ok_workers : ∀ n, ts_workers st = Some n → 1 ≤ n ≤ usize_max;
  top_ok_security : ∀ s, ts_security st = Some s → security_ok s;
  top_ok_cache : ∀ c, ts_cache st = Some c → cache_ok c }.

(** A hardware thread count, when the system knows it. *)
Definition available_ok (available : option Z) : Prop :=
  ∀ n, available = Some n → 1 ≤ n ≤ usize_max.

(** ** Lemmas: ranges of parsed values *)

Lemma parse_uint_usize s n : parse_uint usize_max s = Some n → is_usize n.
Proof. apply parse_uint_range. unfold usize_max, u64_max. lia. Qed.

Lemma parse_uint_u64 s n : parse_uint u64_max s = Some n → is_u64 n.
Proof. apply parse_uint_range. unfold u64_max. lia. Qed.

Lemma size_unit_pos s : 0 < (size_unit s).2.
Proof. unfold size_unit. repeat case_match; simpl; lia. Qed.

Lemma parse_size_string_usize s d n : parse_size_string s d = Ok n → is_usize n.
Proof.
  unfold parse_size_string. pose proof (size_unit_pos (trim s)) as Hpos.
  destruct (size_unit (trim s)) as [num m]. intros. inv_ok.
  match goal with
  | H : checked_mul _ _ _ = Some _, H' : parse_uint _ _ = Some _ |- _ =>
      apply checked_mul_Some in H as [-> ?]; apply parse_uint_usize in H' as [??]
  end.
  simpl in Hpos. split; nia.
Qed.

Lemma once_Ok {A} line d (old : option A) conv v :
  once line d old conv = Ok v → ∃ value, conv value = Ok v.
Proof. unfold once. intros. inv_ok. eauto. Qed.

Lemma invalid_value_Ok {A} d (conv : str → option A) value v :
  invalid_value d conv value = Ok v → conv value = Some v.
Proof. apply ok_or_Ok. Qed.

#[export] Hint Resolve parse_uint_usize parse_uint_u64 parse_size_string_usize : proxy.

(** ** Lemmas: blocks *)

Definition route_block_ok (rb : RouteBlock) : Prop :=
  ∀ f, rb_forward rb = Some f → is_valid_url f = true.

Lemma route_block_match_ok line d rb rb' :
  route_block_ok rb → route_block_match line d rb = Ok rb' → route_block_ok rb'.
Proof.
  unfold route_block_match, route_block_ok. intros Hok H.
  repeat case_if; inv_ok; simpl; naive_solver.
Qed.

Lemma route_block_finish_ok endpoint rb r :
  is_valid_url endpoint = true → route_block_ok rb →
  route_block_finish endpoint rb = Ok r → route_ok r ∧ request_endpoint r = endpoint.
Proof.
  unfold route_block_finish. intros He Hrb H. inv_ok. split; [|done].
  case_if; inv_ok; split; simpl; auto; rewrite ?Heqb.
  all: repeat case_bool_decide; naive_solver.
Qed.

Lemma parse_route_block_ok endpoint rb ls r rest :
  is_valid_url endpoint = true → route_block_ok rb →
  parse_route_block endpoint rb ls = Ok (r, rest) →
  route_ok r ∧ request_endpoint r = endpoint ∧ (length rest < length ls)%nat.
Proof.
  intros He. revert rb; induction ls as [|line ls IH]; intros rb Hrb H; simpl in H; [done|].
  case_if; inv_ok.
  - edestruct route_block_finish_ok as [? ?]; [done..|]. simpl. auto with lia.
  - unfold route_block_line in *. inv_ok.
    edestruct IH as (? & ? & ?); [by eapply route_block_match_ok|done|]. simpl. auto with lia.
Qed.

Record security_block_ok (sb : SecurityBlock) : Prop := {
  sb_ok_ip : ∀ i, sb_trusted_upstream sb = Some i → ip_wf i;
  sb_ok_timeout : ∀ n, sb_timeout_ms sb = Some n → is_u64 n;
  sb_ok_failures : ∀ n, sb_max_tls_failures sb = Some n → is_usize n;
  sb_ok_ban : ∀ n, sb_ban_duration_sec sb = Some n → is_u64 n;
  sb_ok_rate : ∀ n, sb_rate_limit_rpm sb = Some n → is_usize n;
  sb_ok_body : ∀ n, sb_max_body_size sb = Some n → is_usize n;
  sb_ok_header : ∀ n, sb_max_header_size sb = Some n → is_usize n }.

Lemma security_block_match_ok line d sb sb' :
  security_block_ok sb → security_block_match line d sb = Ok sb' → security_block_ok sb'.
Proof.
  destruct sb. unfold security_block_match. intros [] H. simpl in *.
  repeat case_if; inv_ok;
    repeat match goal with
    | H : once _ _ _ _ = Ok _ |- _ => apply once_Ok in H as [? H]
    | H : invalid_value _ _ _ = Ok _ |- _ => apply invalid_value_Ok in H
    end;
    split; simpl; try done; intros ? [= <-]; eauto with proxy.
Qed.

Lemma default_ok (P : Z → Prop) d (o : option Z) :
  P d → (∀ n, o = Some n → P n) → P (default d o).
Proof. destruct o; simpl; auto. Qed.

Lemma security_block_finish_ok sb s :
  security_block_ok sb → security_block_finish sb = Ok s → security_ok s.
Proof.
  unfold security_block_finish. intros [] H. inv_ok. split; simpl;
    try (apply default_ok; [unfold is_u64, is_usize, usize_max, u64_max; lia|done]).
  case_if; inv_ok; [eauto|]. destruct (sb_trusted_upstream sb); inv_ok; simpl; eauto.
  unfold octet, u8_max. lia.
Qed.

Lemma parse_security_block_ok sb ls s rest :
  security_block_ok sb → parse_security_block sb ls = Ok (s, rest) →
  security_ok s ∧ (length rest < length ls)%nat.
Proof.
  revert sb; induction ls as [|line ls IH]; intros sb Hsb H; simpl in H; [done|].
  case_if; inv_ok.
  - simpl. eauto using security_block_finish_ok with lia.
  - unfold security_block_line in *. inv_ok.
    edestruct IH; [by eapply security_block_match_ok|done|]. simpl. auto with lia.
Qed.

Lemma cache_block_match_ok line d c c' :
  cache_ok c → cache_block_match line d c = Ok c' → cache_ok c'.
Proof.
  unfold cache_block_match. intros [] H. repeat case_if; inv_ok;
    repeat match goal with
    | H : invalid_value _ _ _ = Ok _ |- _ => apply invalid_value_Ok in H
    end; split; simpl; eauto with proxy.
Qed.

Lemma parse_cache_block_ok c ls c' rest :
  cache_ok c → parse_cache_block c ls = Ok (c', rest) →
  cache_ok c' ∧ (length rest < length ls)%nat.
Proof.
  revert c; induction ls as [|line ls IH]; intros c Hc H; simpl in H; [done|].
  case_if; inv_ok; simpl; [auto with lia|].
  unfold cache_block_line in *. inv_ok.
  edestruct IH; [by eapply cache_block_match_ok|done|]. auto with lia.
Qed.

Lemma cache_block_init_ok : cache_ok cache_block_init.
Proof. split; unfold is_usize, is_u64, usize_max, u64_max; simpl; lia. Qed.

Lemma security_block_init_ok : security_block_ok security_block_init.
Proof. by split. Qed.

Lemma route_block_init_ok : route_block_ok route_block_init.
Proof. done. Qed.

#[export] Hint Resolve cache_block_init_ok security_block_init_ok route_block_init_ok : proxy.

(** ** Lemmas: the top-level loop *)

Lemma parse_route_block_header_ok line e :
  parse_route_block_header line = Ok e → is_valid_url e = true.
Proof.
  unfold parse_route_block_header. intros. repeat case_match; inv_ok. done.
Qed.

Lemma parse_listen_line_ok line p : parse_listen_line line = Ok p → is_u16 p.
Proof.
  unfold parse_listen_line. intros. repeat case_match; inv_ok.
  eapply parse_uint_range; [|done]. unfold u16_max. lia.
Qed.

Lemma NoDup_snoc_endpoint (rs : list Route) r :
  NoDup (request_endpoint <$> rs) →
  request_endpoint r ∉@{list str} (request_endpoint <$> rs) →
  NoDup (request_endpoint <$> (rs ++ [r])).
Proof.
  intros Hnd Hn. rewrite fmap_app. apply NoDup_app. split; [done|]. split.
  - intros x Hx. simpl. set_solver.
  - apply NoDup_singleton.
Qed.

Lemma top_match_ok line d rest st st' rest' :
  top_ok st → top_match line d rest st = Some (Ok (st', rest')) →
  top_ok st' ∧ (length rest' ≤ length rest)%nat.
Proof.
  destruct st as [lp rs rf eps wk lf sec ca ie]. intros [H1 H2 H3 H4 H5 H6 H7 H8] H.
  simpl in *. repeat case_if; try (injection H as H); inv_ok; try done.
  - split; [|done]. split; simpl; try done. intros ? [= <-]. by eapply parse_listen_line_ok.
  - match goal with
    | H : parse_route_block_header _ = Ok _ |- _ => apply parse_route_block_header_ok in H
    end.
    case_match; inv_ok.
    match goal with
    | H : parse_route_block _ _ _ = Ok _ |- _ =>
        apply parse_route_block_ok in H as (Hr & <- & ?); [|done|done]
    end.
    case_bool_decide as Hne; [done|].
    split; [|lia]. split; simpl; try done.
    + by intros _ []%app_eq_nil.
    + rewrite fmap_app, list_to_set_app_L. simpl. set_solver.
    + apply NoDup_snoc_endpoint; [done|]. set_solver.
    + apply Forall_app. auto.
  - case_match; inv_ok.
    edestruct parse_security_block_ok as (? & ?); [apply security_block_init_ok|done|].
    split; [|lia]. split; simpl; try done. naive_solver.
  - split; [|done]. split; simpl; try done. intros ? [= <-].
    match goal with H : parse_uint _ _ = Some _ |- _ => apply parse_uint_usize in H as [??] end.
    lia.
  - case_match; inv_ok.
    edestruct parse_cache_block_ok as (? & ?); [apply cache_block_init_ok|done|].
    split; [|lia]. split; simpl; try done. naive_solver.
Qed.

Lemma top_line_ok line rest st st' rest' :
  top_ok st → top_line line rest st = Some (Ok (st', rest')) →
  top_ok st' ∧ (length rest' ≤ length rest)%nat.
Proof.
  unfold top_line. intros Hst H. repeat case_match; simplify_eq. by eapply top_match_ok.
Qed.

(** The [unreachable!()] arm is not reached: the directive is a known one. *)
Lemma top_match_known line d rest st :
  d ∈ top_level_directives → is_Some (top_match line d rest st).
Proof.
  destruct st. unfold top_level_directives. cbn [fmap list_fmap]. rewrite !elem_of_cons.
  intros [->|[->|[->|[->|[->|[->|[->|[]%elem_of_nil]]]]]]]; unfold top_match;
    cbn -[simple_line parse_listen_line parse_single_value_directive ends_with_brace
          parse_route_block_header parse_route_block parse_security_block parse_cache_block
          security_block_init cache_block_init route_block_init lit ensure];
    repeat match goal with
    | |- context [str_eqb (lit ?x) (lit ?y)] =>
        let b := eval vm_compute in (str_eqb (lit x) (lit y)) in
        replace (str_eqb (lit x) (lit y)) with b by (vm_compute; reflexivity)
    end; simpl; repeat case_match; eauto.
Qed.

Lemma top_line_total line rest st : is_Some (top_line line rest st).
Proof.
  unfold top_line. case_match; [eauto|]. case_match; [|eauto].
  unfold validate_known_top_level_directive in *. inv_ok.
  apply top_match_known. by eapply bool_decide_eq_true_1.
Qed.

Lemma parse_lines_ok fuel ls st st' :
  top_ok st → parse_lines fuel ls st = Some (Ok st') → top_ok st'.
Proof.
  revert ls st; induction fuel as [|fuel IH]; intros [|line ls] st Hst H; simpl in H;
    simplify_eq; [done..|].
  destruct (top_line line ls st) as [[[st1 rest1]|]|] eqn:E; simplify_eq.
  eapply IH; [|done]. by eapply top_line_ok.
Qed.

Lemma parse_lines_total fuel ls st :
  (length ls ≤ fuel)%nat → top_ok st → is_Some (parse_lines fuel ls st).
Proof.
  revert ls st; induction fuel as [|fuel IH]; intros [|line ls] st Hl Hst; simpl in *;
    [eauto|lia|eauto|].
  destruct (top_line_total line ls st) as [[[st1 rest1]|e] E]; rewrite E; [|eauto].
  destruct (top_line_ok _ _ _ _ _ Hst E) as [Hok ?]. apply IH; [lia|done].
Qed.

Lemma top_init_ok : top_ok top_init.
Proof. split; simpl; try done. constructor. Qed.

Lemma top_finish_ok available st cfg :
  available_ok available → top_ok st → top_finish available st = Ok cfg → config_ok cfg.
Proof.
  unfold top_finish. intros Hav [] H. inv_ok. split; simpl; auto.
  - destruct (ts_workers st); simpl; [auto|]. destruct available; simpl; [auto|].
    unfold usize_max, u64_max. lia.
  - intros r Hr Ha. case_bool_decide; [done|].
    rewrite orb_false_r, negb_true_iff in *.
    match goal with H : existsb _ _ = false |- _ => rename H into Hex end.
    exfalso. apply not_true_iff_false in Hex. apply Hex, existsb_exists.
    exists r. by rewrite <-list_elem_of_In.
Qed.

Lemma config_accepted available input cfg :
  available_ok available → parse_proxy_config available input = Some (Ok cfg) → config_ok cfg.
Proof.
  intros Hav Hparse. unfold parse_proxy_config in Hparse.
  destruct (parse_lines _ _ top_init) as [[st|]|] eqn:E; simplify_eq/=.
  eapply top_finish_ok; [done| |done]. eapply parse_lines_ok; [apply top_init_ok|done].
Qed.

(** ** Properties *)

(** C16: parsing ends with a result for every input: the loop over the lines
    terminates and its [unreachable!()] arm is never taken. *)
Theorem parse_proxy_config_total (available : option Z) (input : str) :
  ∃ r, parse_proxy_config available input = Some r.
Proof.
  unfold parse_proxy_config.
  destruct (parse_lines_total (length (config_lines input)) (config_lines input) top_init)
    as [r ->]; [done|apply top_init_ok|]. eauto.
Qed.

(** C10: every configuration the parser accepts is well formed: the port is a
    [u16], there is at least one worker and one route, no two routes have the
    same endpoint, HTTPS routes and only they have a certificate and a key,
    every number fits its type, and a route that requires authentication comes
    with a [forward_auth] URL. *)
Theorem parse_proxy_config_ok (available : option Z) (input : str) (cfg : Config)
  (Hav : available_ok available)
  (Hparse : parse_proxy_config available input = Some (Ok cfg)) :
  config_ok cfg.
Proof. by eapply config_accepted. Qed.

(** The units of a size, with their factors. *)
Definition size_suffixes : list (str * Z) :=
  [([], 1); (lit "k", 1024); (lit "K", 1024); (lit "m", 1024 * 1024); (lit "M", 1024 * 1024);
   (lit "g", 1024 * 1024 * 1024); (lit "G", 1024 * 1024 * 1024)].

Lemma trim_fmt_unit n u : 0 ≤ n → Forall (λ c, is_whitespace c = false) u →
  trim (fmt n ++ u) = fmt n ++ u.
Proof.
  intros Hn Hu. destruct (fmt_word n Hn) as [_ Hw].
  assert (Forall (λ c, is_whitespace c = false) (fmt n ++ u)) as Hall by (by apply Forall_app).
  rewrite Forall_forall in Hall. apply trim_id; intros c Hc; apply Hall.
  - by apply head_Some_elem_of.
  - by apply last_Some_elem_of.
Qed.

Lemma size_unit_digits n : 0 ≤ n → size_unit (fmt n) = (fmt n, 1).
Proof.
  intros Hn. destruct (last (fmt n)) as [c|] eqn:Hc; cycle 1.
  { apply last_None in Hc. by destruct (fmt_word n Hn). }
  pose proof (fmt_go_digits 20 n Hn) as Hd. rewrite Forall_forall in Hd.
  apply last_Some_elem_of in Hc as Hin. apply Hd in Hin.
  unfold size_unit, last_in. rewrite Hc.
  repeat (rewrite bool_decide_eq_false_2; [|intros Hel; rewrite !elem_of_cons, elem_of_nil in Hel;
    destruct Hel as [->|[->|[]]]; done]). done.
Qed.

(** C40: a size written as a number with one of the documented units is read as
    the number of bytes it denotes, and is refused exactly when that number does
    not fit a [usize]. *)
Theorem parse_size_string_units (n : Z) (directive unit_ : str) (factor : Z)
  (Hn : 0 ≤ n ≤ usize_max) (Hunit : (unit_, factor) ∈ size_suffixes) :
  parse_size_string (fmt n ++ unit_) directive =
    if bool_decide (n * factor ≤ usize_max) then Ok (n * factor)
    else Err (InvalidSecurityValue directive (fmt n ++ unit_)).
Proof.
  assert (Forall (λ c, is_whitespace c = false) unit_ ∧
    size_unit (fmt n ++ unit_) = (fmt n, factor)) as [Hws Hsu].
  { unfold size_suffixes in Hunit. rewrite !elem_of_cons, elem_of_nil in Hunit.
    destruct Hunit as [E|[E|[E|[E|[E|[E|[E|[]]]]]]]]; injection E as -> ->;
      (split; [by eapply bool_decide_unpack; vm_compute|]);
      [rewrite app_nil_r; apply size_unit_digits; lia|..];
      unfold size_unit, last_in, lit; cbn [String.list_ascii_of_string];
      rewrite last_snoc, length_app, Nat.add_sub, take_app_length; done. }
  unfold parse_size_string. rewrite trim_fmt_unit by (done || lia).
  assert (nonempty (fmt n ++ unit_) = true) as ->.
  { destruct (fmt_word n) as [Hne _]; [lia|]. by destruct (fmt n). }
  rewrite Hsu. simpl. rewrite parse_uint_fmt by (done || unfold usize_max, u64_max; lia).
  simpl. unfold checked_mul. by case_bool_decide.
Qed.

(** ** Examples *)

Definition sample_text : str :=
  lit "listen 80;" ++ [newline] ++ lit "route http://a/ {" ++ [newline] ++
  lit "forward http://b/;" ++ [newline] ++ lit "}".

Lemma parse_proxy_config_ok_witness :
  ∃ cfg, parse_proxy_config None sample_text = Some (Ok cfg) ∧ config_ok cfg.
Proof.
  eexists. split; [vm_compute; reflexivity|].
  apply (parse_proxy_config_ok None sample_text); [by intros n [=]|vm_compute; reflexivity].
Defined.

Lemma parse_size_string_units_witness :
  parse_size_string (lit "10M") (lit "max_body_size") = Ok 10485760.
Proof.
  apply (parse_size_string_units 10 (lit "max_body_size") (lit "M") (1024 * 1024)).
  - unfold usize_max, u64_max. lia.
  - by apply (bool_decide_unpack _).
Defined.
