(* ===== verification/ParserTests.v ===== *)
(** * The unit tests of the parser

    The tests at the end of [src/src/parser.rs], each a boolean function of the number
    of processors the machine reports, with the text the test feeds to the parser.  That
    they pass, on every machine, is evaluated.  They tie the definitions of [Parser.v] to
    what the authors of the program expect of it. *)

From S2P Require Import Prelude RustStr NetAddr Config Comments Parser.

(** ** Assertions *)

Section assertions.
Context (cores : option Z).

(** [let config = parse_proxy_config(input).unwrap();], then assertions on it *)
Definition parsed (input : str) (asserts : Config → bool) : bool :=
  match parse_proxy_config cores input with
  | Some (Ok config) => asserts config
  | _ => false
  end.

(** [assert!(matches!(config, Err(..)))] *)
Definition refused (input : str) (is_expected : ParseError → bool) : bool :=
  match parse_proxy_config cores input with
  | Some (Err e) => is_expected e
  | _ => false
  end.

(** [assert_eq!(config.unwrap_err(), ..)] *)
Definition refused_with (input : str) (e : ParseError) : bool :=
  refused input (λ e', bool_decide (e' = e)).
End assertions.

Definition routes_len (config : Config) (n : nat) : bool := (length (routes config) =? n)%nat.

(** [config.routes[n]], which panics outside of the vector *)
Definition route_at (config : Config) (n : nat) (asserts : Route → bool) : bool :=
  match routes config !! n with Some r => asserts r | None => false end.

(** [let sec = config.security.unwrap();] *)
Definition security_of (config : Config) (asserts : SecurityConfig → bool) : bool :=
  match security config with Some sec => asserts sec | None => false end.

(** ** The tests *)

Section tests.
Context (cores : option Z).

Definition test_parse_basic_valid_config : bool :=
  parsed cores (lit "
            listen 8080;
            route http://dashboard.myserver.home/api {
                upstream http://localhost:3000;
            }
            ") (λ config,
    (listen_port config =? 8080) && routes_len config 1 &&
    route_at config 0 (λ r,
      str_eqb (request_endpoint r) (lit "http://dashboard.myserver.home/api") &&
      str_eqb (forward_endpoint r) (lit "http://localhost:3000"))).

Definition test_parse_config_with_multiple_routes : bool :=
  parsed cores (lit "
            listen 8080;
            route /api {
                upstream http://localhost:3000;
            }
            route /auth {
                upstream http://localhost:4000;
            }
        ") (λ config,
    routes_len config 2).

Definition test_parse_listen_port_line_too_many_arguments : bool :=
  refused_with cores (lit "
            listen 8080 443;
            route http://dashboard.myserver.local/api {
                upstream http://localhost:3000;
            }
            ") InvalidListenDirective.

Definition test_parse_listen_port_not_valid_u16_type : bool :=
  forallb (λ port,
      let input := lit "listen " ++ port ++ lit ";
route /api {
    upstream http://localhost:3000;
}" in
      refused_with cores input (InvalidPort port))
    (lit <$> ["abc"; "-1"; "70000"]%string).

Definition test_parse_no_listen_directive_given : bool :=
  refused_with cores (lit "
            route http://dashboard.myserver.local/api {
                upstream http://localhost:3000;
            }
            ") NoListenDirective.

Definition test_parse_multiple_listen_directives_given : bool :=
  refused_with cores (lit "
            listen 8080;
            listen 443;
            route http://dashboard.myserver.local/api {
                upstream http://localhost:3000;
            }
            ") TooManyListenDirectives.

Definition test_parse_route_line_too_many_arguments : bool :=
  refused_with cores (lit "
            listen 8080;
            route https://dashboard.myserver.local/api http://localhost:3000 http://localhost:3001;
            ") (InvalidRouteDirective (lit
    "route https://dashboard.myserver.local/api http://localhost:3000 http://localhost:3001;")).

Definition test_parse_route_missing_arguments : bool :=
  refused_with cores (lit "
            listen 8080;
            route /api;
        ") (InvalidRouteDirective (lit "route /api;")).

Definition test_parse_no_route_directives_given : bool :=
  refused_with cores (lit "
            listen 8080;
            ") NoRouteDirective.

Definition test_partial_invalid_config : bool :=
  refused_with cores (lit "
        listen 8080;
        route /api {
            upstream http://localhost:3000;
        }
        route invalid;
    ") (InvalidRouteDirective (lit "route invalid;")).

Definition test_parse_duplicate_request_endpoint_routes : bool :=
  refused_with cores (lit "
            listen 8080;
            route /api {
                upstream http://localhost:3000;
            }
            route /api {
                upstream http://localhost:4000;
            }
        ") (DuplicateRequestEndpoint (lit "/api")).

Definition test_parse_missing_eol_semi_colon : bool :=
  refused cores (lit "
            listen 443
            route /api {
                upstream http://localhost:3000;
            }
        ") (λ e, match e with MissingSemicolon _ => true | _ => false end).

Definition test_parse_whitespace_padding_is_sanitised_and_ignored : bool :=
  parsed cores (lit "
            listen                    8080       ;
            route    /api    {
                upstream    http://localhost:3000;
            }
        ") (λ config,
    (listen_port config =? 8080) && routes_len config 1 &&
    route_at config 0 (λ r,
      str_eqb (request_endpoint r) (lit "/api") &&
      str_eqb (forward_endpoint r) (lit "http://localhost:3000"))).

Definition test_parse_empty_config_file : bool :=
  refused_with cores [] NoListenDirective.

Definition test_parse_whitespace_only_config : bool :=
  refused_with cores (lit "



        ") NoListenDirective.

Definition test_parse_invalid_url_format_in_route : bool :=
  refused cores (lit "
            listen 8080;
            route not-a-url {
                upstream http://localhost:3000;
            }
        ") (λ e, match e with InvalidUrlFormat _ => true | _ => false end).

Definition test_parse_directive_case_sensitivity : bool :=
  refused cores (lit "
            LISTEN 8080;
            route /api http://localhost:3000;
        ") (λ e, match e with InvalidDirectiveCase _ => true | _ => false end).

Definition test_parse_unknown_directives_in_config : bool :=
  refused cores (lit "
            listen 8080;
            foo bar baz;
            route /api http://localhost:3000;
        ") (λ e, match e with UnknownDirective _ => true | _ => false end).

Definition test_trailing_garbage_in_directive_line : bool :=
  refused cores (lit "
            listen 8080; garbage
            route /api http://localhost:3000;
        ") (λ _, true).

Definition test_parse_valid_route_with_cert : bool :=
  parsed cores (lit "
            listen 443;
            workers 2;

            route https://dashboard.asahi.tailbce682.ts.net/ {
                upstream http://localhost:3000/;
                cert /var/lib/tailscale/certs/dashboard.crt;
                key /var/lib/tailscale/certs/dashboard.key;
            }
        ") (λ config,
    (listen_port config =? 443) && (workers config =? 2) && routes_len config 1 &&
    route_at config 0 (λ r,
      str_eqb (request_endpoint r) (lit "https://dashboard.asahi.tailbce682.ts.net/") &&
      bool_decide (cert_path r = Some (lit "/var/lib/tailscale/certs/dashboard.crt")) &&
      bool_decide (key_path r = Some (lit "/var/lib/tailscale/certs/dashboard.key")))).

Definition test_parse_incomplete_route_cert_block : bool :=
  refused_with cores (lit "
            listen 443;
            route https://dashboard.asahi.tailbce682.ts.net/ {
                upstream http://localhost:3000/;
                cert /var/lib/tailscale/certs/dashboard.crt;
            }
        ") (IncompleteRouteCertBlock (lit "https://dashboard.asahi.tailbce682.ts.net/")).

Definition test_parse_cert_not_allowed_for_http_route : bool :=
  refused_with cores (lit "
            listen 8080;
            route http://dashboard.local/ {
                upstream http://localhost:3000/;
                cert /var/lib/tailscale/certs/dashboard.crt;
                key /var/lib/tailscale/certs/dashboard.key;
            }
        ") (CertNotAllowedForHttpRoute (lit "http://dashboard.local/")).

Definition test_parse_config_with_single_line_comments : bool :=
  parsed cores (lit "
            // Set the listening port
            listen 8080; // This is the standard port
            
            // Define routes
            route /api {
                upstream http://localhost:3000;
            }
        ") (λ config,
    (listen_port config =? 8080) && routes_len config 1).

Definition test_parse_config_with_multi_line_comments : bool :=
  parsed cores (lit "
            /*
             * Multi-line configuration comment.
             * It should be completely stripped by the preprocessor.
             */
            listen 8080;
            
            route /api {
                upstream http://localhost:3000;
            }
        ") (λ config,
    (listen_port config =? 8080) && routes_len config 1).

Definition test_parse_comments_with_edge_cases : bool :=
  parsed cores (lit "
            listen 8080;//no-space-comment
            
            // Verify path and url slash edge cases:
            // 1. :// is not a comment:
            route http://example.com/ {
                upstream http://localhost:3000;
            }
            
            // 2. double slashes in paths is not a comment:
            logfile /var/log//proxy.log;
        ") (λ config,
    (listen_port config =? 8080) && routes_len config 1 &&
    route_at config 0 (λ r, str_eqb (request_endpoint r) (lit "http://example.com/")) &&
    bool_decide (logfile config = Some (lit "/var/log//proxy.log"))).

Definition test_parse_security_block_valid : bool :=
  parsed cores (lit "
            listen 8080;
            route /api {
                upstream http://localhost:3000;
            }
            security {
                proxy_protocol on;
                trusted_upstream 10.0.0.1;
                timeout 200;
            }
        ") (λ config, security_of config (λ sec,
    proxy_protocol sec && bool_decide (Some (trusted_upstream sec) = parse_ip (lit "10.0.0.1")) &&
    (timeout_ms sec =? 200) && (sec_max_tls_failures sec =? 5) && (ban_duration_sec sec =? 3600))).

Definition test_parse_security_block_custom_throttling_and_ban : bool :=
  parsed cores (lit "
            listen 8080;
            route /api {
                upstream http://localhost:3000;
            }
            security {
                max_tls_failures 3;
                ban_duration 1800;
            }
        ") (λ config, security_of config (λ sec,
    (sec_max_tls_failures sec =? 3) && (ban_duration_sec sec =? 1800))).

Definition test_parse_security_block_default_timeout : bool :=
  parsed cores (lit "
            listen 8080;
            route /api {
                upstream http://localhost:3000;
            }
            security {
                proxy_protocol off;
            }
        ") (λ config, security_of config (λ sec,
    negb (proxy_protocol sec) && (timeout_ms sec =? 200))).

Definition test_parse_security_block_missing_trusted_upstream_when_on : bool :=
  refused_with cores (lit "
            listen 8080;
            route /api {
                upstream http://localhost:3000;
            }
            security {
                proxy_protocol on;
            }
        ") (MissingSecurityDirective (lit "trusted_upstream")).

(** The file [proxy.conf.example] of the repository *)
Definition proxy_conf_example : str := lit "listen 443;
workers 2;
logfile var/log/barebones-reverse-proxy/proxy.log;

// Upstream Error Interception (Default: off)
// Discards 4xx/5xx error bodies from upstream backends and returns built-in retro error pages
intercept_errors on;

// High-Performance In-Memory LRU Static Asset Cache
cache {
    enabled on;             // Enable/disable static asset caching (default: off)
    max_capacity_mb 64;     // Maximum RAM capacity allocated for LRU cache (default: 64MB)
    max_file_size_mb 2;     // Max file size of an individual cached asset (default: 2MB)
    default_ttl_sec 300;    // Time-To-Live in seconds (default: 300s / 5 minutes)
}

security {
    // Proxy protocol v1 header parsing behind a trusted upstream load balancer
    proxy_protocol off;
    // trusted_upstream 10.0.0.1;
    timeout 200;

    // Active defense & rate-limiting settings
    max_tls_failures 5;    // Blacklist IP if > 5 TLS handshake failures occur within 60s
    ban_duration 3600;     // Duration in seconds (3600 = 1 hour) that an IP remains blacklisted
    rate_limit_rpm 300;    // Max HTTP requests per minute per IP before returning 429 Too Many Requests (set 0 to disable)

    // Payload & Header size limits (DoS Protection)
    max_body_size 10M;     // Max HTTP request payload size (e.g. 10M, 500K, 1G or raw bytes; default: 10M)
    max_header_size 64K;   // Max HTTP request headers size (e.g. 64K, 128K or raw bytes; default: 64K)

    // Forward Authentication Provider (Authelia / Authentik / OAuth2-Proxy)
    forward_auth http://localhost:9091/api/verify;
}

// Protected Route (Requires TLS cert/key and authentication via forward_auth provider)
route https://dashboard.home/ {
    upstream http://localhost:3001/;
    auth on;
    cert /etc/ssl/dashboard/cert.pem;
    key /etc/ssl/dashboard/key.pem;
    intercept_errors on; // Override per-route to intercept upstream errors
}

// Public Route (Omit auth directive or set auth off)
// route http://public.home/ {
//     upstream http://localhost:4000/;
//     auth off;
//     intercept_errors off; // Allow raw 4xx/5xx responses from upstream backend
// }".

Definition test_parse_example_config_file : bool :=
  parsed cores proxy_conf_example (λ config,
    (listen_port config =? 443) && (workers config =? 2) &&
    security_of config (λ sec,
      negb (proxy_protocol sec) && (sec_max_tls_failures sec =? 5) &&
      (ban_duration_sec sec =? 3600) && (sec_rate_limit_rpm sec =? 300))).

Definition test_parse_route_block_and_forward_auth : bool :=
  parsed cores (lit "
            listen 8080;
            security {
                proxy_protocol off;
                forward_auth http://localhost:9091/api/verify;
            }
            route https://grafana.example.com/ {
                upstream http://localhost:3002/;
                auth on;
                cert /etc/ssl/grafana/cert.pem;
                key /etc/ssl/grafana/key.pem;
            }
            route http://public.example.com/ {
                upstream http://localhost:4000/;
                auth off;
            }
        ") (λ config,
    security_of config (λ sec,
      bool_decide (forward_auth sec = Some (lit "http://localhost:9091/api/verify"))) &&
    routes_len config 2 &&
    route_at config 0 (λ r,
      str_eqb (request_endpoint r) (lit "https://grafana.example.com/") &&
      str_eqb (forward_endpoint r) (lit "http://localhost:3002/") && auth_required r) &&
    route_at config 1 (λ r,
      str_eqb (request_endpoint r) (lit "http://public.example.com/") &&
      str_eqb (forward_endpoint r) (lit "http://localhost:4000/") && negb (auth_required r))).

Definition test_parse_security_block_max_body_and_header_size : bool :=
  parsed cores (lit "
            listen 8080;
            route http://api.example.com/ {
                upstream http://localhost:3000/;
            }
            security {
                max_body_size 10M;
                max_header_size 64K;
            }
        ") (λ config, security_of config (λ sec,
    (max_body_size sec =? 10 * 1024 * 1024) && (max_header_size sec =? 64 * 1024))).

Definition test_parse_intercept_errors_directive : bool :=
  parsed cores (lit "
            listen 8080;
            intercept_errors on;
            route http://api.example.com/ {
                upstream http://localhost:3000/;
                intercept_errors off;
            }
            route http://app.example.com/ {
                upstream http://localhost:4000/;
            }
        ") (λ config,
    bool_decide (config_intercept_errors config = Some true) &&
    route_at config 0 (λ r,
      bool_decide (route_intercept_errors r = Some false) &&
      negb (route_should_intercept_errors r true)) &&
    route_at config 1 (λ r,
      bool_decide (route_intercept_errors r = None) && route_should_intercept_errors r true)).

Definition test_parse_size_string_units : bool :=
  let size s n :=
    match parse_size_string (lit s) (lit "test") with Ok v => v =? n | Err _ => false end in
  size "1024" 1024 && size "10k" 10240 && size "5M" (5 * 1024 * 1024) &&
  size "1G" (1024 * 1024 * 1024).

Definition parser_tests : list bool :=
  [test_parse_basic_valid_config;
   test_parse_config_with_multiple_routes;
   test_parse_listen_port_line_too_many_arguments;
   test_parse_listen_port_not_valid_u16_type;
   test_parse_no_listen_directive_given;
   test_parse_multiple_listen_directives_given;
   test_parse_route_line_too_many_arguments;
   test_parse_route_missing_arguments;
   test_parse_no_route_directives_given;
   test_partial_invalid_config;
   test_parse_duplicate_request_endpoint_routes;
   test_parse_missing_eol_semi_colon;
   test_parse_whitespace_padding_is_sanitised_and_ignored;
   test_parse_empty_config_file;
   test_parse_whitespace_only_config;
   test_parse_invalid_url_format_in_route;
   test_parse_directive_case_sensitivity;
   test_parse_unknown_directives_in_config;
   test_trailing_garbage_in_directive_line;
   test_parse_valid_route_with_cert;
   test_parse_incomplete_route_cert_block;
   test_parse_cert_not_allowed_for_http_route;
   test_parse_config_with_single_line_comments;
   test_parse_config_with_multi_line_comments;
   test_parse_comments_with_edge_cases;
   test_parse_security_block_valid;
   test_parse_security_block_custom_throttling_and_ban;
   test_parse_security_block_default_timeout;
   test_parse_security_block_missing_trusted_upstream_when_on;
   test_parse_example_config_file;
   test_parse_route_block_and_forward_auth;
   test_parse_security_block_max_body_and_header_size;
   test_parse_intercept_errors_directive;
   test_parse_size_string_units].
End tests.

(** Every test passes, whatever the number of processors. *)
Example parser_tests_pass cores : Forall (λ passes, passes = true) (parser_tests cores).
Proof. repeat constructor; vm_compute; reflexivity. Qed.
