(* ===== verification/Render.v ===== *)
(** * Configurations as text

    A printer for configurations, the inverse of the parser of [Parser.v]: every
    well-formed configuration whose strings can stand in a file is what the parser
    reads from its printed form.  So the format can express every configuration
    the server can run with, and the parser loses none of it. *)

From S2P Require Import Prelude RustStr NetAddr NetAddrSpec Config Comments Parser ParserSpec.

(** ** The printer *)

(** [name value;] *)
Definition directive_line (name : string) (value : str) : str :=
  lit name ++ space :: value ++ [semicolon].

Definition opt_line (name : string) (value : option str) : list str :=
  match value with Some v => [directive_line name v] | None => [] end.

Definition switch (b : bool) : str := lit (if b then "on" else "off").

Definition render_route (r : Route) : list str :=
  (lit "route " ++ request_endpoint r ++ lit " {") ::
  directive_line "forward" (forward_endpoint r) ::
  directive_line "auth" (switch (auth_required r)) ::
  opt_line "cert" (cert_path r) ++ opt_line "key" (key_path r) ++
  opt_line "cache" (switch <$> route_cache r) ++
  opt_line "intercept_errors" (switch <$> route_intercept_errors r) ++ [lit "}"].

Definition render_security (s : SecurityConfig) : list str :=
  lit "security {" ::
  directive_line "proxy_protocol" (switch (proxy_protocol s)) ::
  directive_line "trusted_upstream" (ip_to_string (trusted_upstream s)) ::
  directive_line "timeout" (fmt (timeout_ms s)) ::
  directive_line "max_tls_failures" (fmt (sec_max_tls_failures s)) ::
  directive_line "ban_duration" (fmt (ban_duration_sec s)) ::
  directive_line "rate_limit_rpm" (fmt (sec_rate_limit_rpm s)) ::
  directive_line "max_body_size" (fmt (max_body_size s)) ::
  directive_line "max_header_size" (fmt (max_header_size s)) ::
  opt_line "forward_auth" (forward_auth s) ++ [lit "}"].

Definition render_cache (c : CacheConfig) : list str :=
  [lit "cache {";
   directive_line "enabled" (switch (enabled c));
   directive_line "max_capacity" (fmt (cfg_max_capacity_bytes c));
   directive_line "max_file_size" (fmt (cfg_max_file_size_bytes c));
   directive_line "ttl" (fmt (default_ttl_sec c));
   lit "}"].

Definition render_lines (cfg : Config) : list str :=
  directive_line "listen" (fmt (listen_port cfg)) ::
  directive_line "workers" (fmt (workers cfg)) ::
  opt_line "logfile" (logfile cfg) ++
  opt_line "intercept_errors" (switch <$> config_intercept_errors cfg) ++
  default [] (render_security <$> security cfg) ++
  default [] (render_cache <$> config_cache cfg) ++
  mjoin (render_route <$> routes cfg).

Definition unlines (ls : list str) : str := mjoin ((λ l, l ++ [newline]) <$> ls).

Definition render (cfg : Config) : str := unlines (render_lines cfg).

(** ** Strings that can stand in a file *)

(** One word without a semicolon, and not the beginning of a comment *)
Definition plain (v : str) : Prop :=
  word v ∧ (semicolon ∉ v) ∧ starts_with v (lit "//") = false ∧ starts_with v (lit "/*") = false.

Record route_plain (r : Route) : Prop := {
  plain_request : plain (request_endpoint r);
  plain_forward : plain (forward_endpoint r);
  plain_cert : ∀ p, cert_path r = Some p → plain p;
  plain_key : ∀ p, key_path r = Some p → plain p }.

(** The strings of a configuration are plain. *)
Record printable (cfg : Config) : Prop := {
  plain_routes : Forall route_plain (routes cfg);
  plain_logfile : ∀ p, logfile cfg = Some p → plain p;
  plain_auth : ∀ s u, security cfg = Some s → forward_auth s = Some u → plain u }.

(** ** Lemmas: one line *)

(** Names of directives, as a test that closed names pass by computation *)
Definition name_char (c : ascii) : bool :=
  negb (is_whitespace c) && negb (Ascii.eqb c semicolon) && negb (Ascii.eqb c slash)
  && negb (Ascii.eqb c "#"%char) && Ascii.eqb (to_lower c) c.

Definition name_ok (n : string) : bool := nonempty (lit n) && forallb name_char (lit n).

Lemma name_ok_spec n :
  name_ok n = true →
  word (lit n) ∧ (semicolon ∉ lit n) ∧ (slash ∉ lit n) ∧ ("#"%char ∉ lit n) ∧
  to_lowercase (lit n) = lit n.
Proof.
  unfold name_ok. rewrite andb_true_iff, forallb_forall. intros [Hne Hall].
  assert (∀ c, c ∈ lit n → name_char c = true) as Hc by (intros c Hc; apply Hall; by apply list_elem_of_In).
  unfold name_char in Hc. setoid_rewrite andb_true_iff in Hc.
  repeat setoid_rewrite andb_true_iff in Hc. setoid_rewrite negb_true_iff in Hc.
  split_and!.
  - split; [by destruct (lit n)|]. apply Forall_forall. intros c Hin. by apply Hc.
  - intros Hin. by destruct (Hc _ Hin) as [[[[_ ?] _] _] _].
  - intros Hin. by destruct (Hc _ Hin) as [[[_ ?] _] _].
  - intros Hin. by destruct (Hc _ Hin) as [[_ ?] _].
  - unfold to_lowercase. clear Hne Hall. induction (lit n) as [|c s IH]; [done|]. simpl. f_equal.
    + apply Ascii.eqb_eq. by apply Hc; left.
    + apply IH. intros d Hd. apply Hc. by right.
Qed.

Lemma drop_while_end_snoc {A} (p : A → bool) s c :
  p c = true → drop_while_end p (s ++ [c]) = drop_while_end p s.
Proof. intros Hc. unfold drop_while_end. rewrite reverse_snoc. simpl. by rewrite Hc. Qed.

Lemma word_head w c : word w → head w = Some c → is_whitespace c = false.
Proof. intros [_ Hw] Hc. rewrite Forall_forall in Hw. by apply Hw, head_Some_elem_of. Qed.

Lemma word_last w c : word w → last w = Some c → is_whitespace c = false.
Proof. intros [_ Hw] Hc. rewrite Forall_forall in Hw. by apply Hw, last_Some_elem_of. Qed.

Lemma head_app_word w s : word w → head (w ++ s) = head w.
Proof. intros [Hne _]. by destruct w. Qed.

Lemma last_app_word s w : word w → last (s ++ w) = last w.
Proof.
  intros [Hne _]. rewrite last_app. destruct (last w) eqn:Hl; [done|].
  by apply last_None in Hl.
Qed.

Section line.
Context (n : string) (v : str) (Hn : name_ok n = true) (Hv : plain v).
#[local] Set Default Proof Using "Hn Hv".
#[local] Abbreviation line := (directive_line n v).

Lemma directive_line_last : last line = Some semicolon.
Proof. unfold directive_line. change (space :: v ++ [semicolon]) with ((space :: v) ++ [semicolon]).
  rewrite app_assoc. apply last_snoc. Qed.

Lemma directive_line_head : head line = head (lit n).
Proof. apply head_app_word. by apply name_ok_spec. Qed.

Lemma directive_line_trim : trim line = line.
Proof.
  apply trim_id; intros c.
  - rewrite directive_line_head. apply word_head. by apply name_ok_spec.
  - rewrite directive_line_last. by intros [= <-].
Qed.

Lemma directive_line_directive : get_directive line = Ok (lit n).
Proof.
  unfold get_directive, directive_line. rewrite split_whitespace_cons; [done| |done].
  by apply name_ok_spec.
Qed.

Lemma directive_line_words :
  split_whitespace (trim (trim_end_matches line semicolon)) = [lit n; v].
Proof.
  destruct Hv as (Hw & Hs & _). destruct (name_ok_spec n Hn) as (Hwn & _).
  assert (trim_end_matches line semicolon = lit n ++ space :: v) as ->.
  { unfold trim_end_matches, directive_line.
    change (space :: v ++ [semicolon]) with ((space :: v) ++ [semicolon]).
    rewrite app_assoc, drop_while_end_snoc by done. apply drop_while_end_id.
    intros c. change (space :: v) with ([space] ++ v). rewrite app_assoc, last_app_word by done.
    intros Hc%last_Some_elem_of. apply Ascii.eqb_neq. by intros <-. }
  rewrite trim_id.
  - rewrite split_whitespace_cons by done. by rewrite split_whitespace_word.
  - intros c. rewrite head_app_word by done. by apply word_head.
  - intros c. change (space :: v) with ([space] ++ v). rewrite app_assoc, last_app_word by done.
    by apply word_last.
Qed.

Lemma directive_line_value d : parse_single_value_directive line d = Ok v.
Proof. unfold parse_single_value_directive. by rewrite directive_line_words. Qed.

Lemma directive_line_simple : simple_line line = Ok tt.
Proof.
  unfold simple_line, validate_semicolon, check_trailing_garbage.
  rewrite directive_line_trim, (proj2 (ends_with_char _ _) directive_line_last). simpl.
  rewrite (rfind_char_last _ _ directive_line_last), drop_ge; [done|].
  pose proof directive_line_last as Hl. destruct line; simpl in *; [done|lia].
Qed.

Lemma directive_line_block : block_directive line = Ok (lit n).
Proof.
  pose proof directive_line_simple as Hs. unfold simple_line in Hs.
  apply bind_Ok in Hs as ([] & Hsemi & Hgarbage).
  unfold block_directive, validate_directive_case. rewrite Hsemi. simpl.
  rewrite directive_line_directive. simpl.
  destruct (name_ok_spec n Hn) as (_ & _ & _ & _ & ->).
  unfold str_eqb. rewrite bool_decide_eq_true_2 by done. simpl. by rewrite Hgarbage.
Qed.

Lemma directive_line_no_brace : ends_with_brace line = false.
Proof.
  apply not_true_iff_false. unfold ends_with_brace. rewrite ends_with_char, directive_line_last.
  done.
Qed.

Lemma directive_line_no_terminator : is_terminator line = false.
Proof.
  apply bool_decide_eq_false_2.
  assert (space ∈ line) as Hin by (unfold directive_line; set_solver).
  intros [E|E]; rewrite E in Hin; revert Hin; by eapply bool_decide_unpack; vm_compute.
Qed.
End line.

(** ** Lemmas: values *)

Lemma switch_plain b : plain (switch b).
Proof. destruct b; repeat split; try done; by eapply bool_decide_unpack; vm_compute. Qed.

Lemma switch_parsed with_yes b : parse_switch with_yes (switch b) = Some b.
Proof. destruct b, with_yes; vm_compute; reflexivity. Qed.

Lemma addr_plain s : s ≠ [] → Forall addr_char s → plain s.
Proof.
  intros Hne Hd.
  assert (∀ c, c ∈ s → is_whitespace c = false ∧ c ≠ semicolon ∧ c ≠ slash) as Hc.
  { rewrite Forall_forall in Hd. intros c Hin.
    destruct (Hd c Hin) as [[d H]|[->| ->]]; [|done|done].
    split; [|by split; intros ->]. unfold to_digit, is_whitespace in *.
    destruct ((48 <=? code c) && _) eqn:?; [lia|].
    destruct ((97 <=? code c) && _) eqn:?; [lia|].
    destruct ((65 <=? code c) && _) eqn:?; [lia|done]. }
  split_and!.
  - split; [done|]. apply Forall_forall. intros c Hin. by apply Hc.
  - intros Hin. by destruct (Hc _ Hin) as (_ & ? & _).
  - apply bool_decide_eq_false_2. intros [r ->]. by destruct (Hc slash) as (_ & _ & ?); [left|].
  - apply bool_decide_eq_false_2. intros [r ->]. by destruct (Hc slash) as (_ & _ & ?); [left|].
Qed.

Lemma fmt_plain n : plain (fmt n).
Proof. apply addr_plain; [apply fmt_go_nonnil|apply decimal_chars]. Qed.

Lemma ip_plain i : ip_wf i → plain (ip_to_string i).
Proof. intros [??]%ip_to_string_chars. by apply addr_plain. Qed.

Lemma parse_size_fmt n d : 0 ≤ n ≤ usize_max → parse_size_string (fmt n) d = Ok n.
Proof.
  intros Hn. unfold parse_size_string.
  rewrite <- (app_nil_r (fmt n)), trim_fmt_unit, app_nil_r by (done || lia).
  assert (nonempty (fmt n) = true) as ->.
  { destruct (fmt n) eqn:He; [by apply fmt_go_nonnil in He|done]. }
  rewrite size_unit_digits by lia. simpl.
  rewrite parse_uint_fmt by (done || unfold usize_max, u64_max; lia). simpl.
  unfold checked_mul. rewrite bool_decide_eq_true_2 by lia. simpl. by rewrite Z.mul_1_r.
Qed.

Lemma mb_value_id d v : ends_with d (lit "_mb") = false → mb_value d v = v.
Proof. unfold mb_value. by intros ->. Qed.

(** ** Lemmas: blocks *)

(** Decide the comparisons of closed strings. *)
Ltac closed_tests :=
  unfold str_eqb;
  repeat match goal with
  | |- context [bool_decide ?P] =>
      let b := eval vm_compute in (bool_decide P) in
      match b with
      | true => change (bool_decide P) with true
      | false => change (bool_decide P) with false
      end
  end;
  cbn [andb orb negb].

Lemma route_block_step e n v rb rb' ls :
  name_ok n = true → plain v →
  route_block_match (directive_line n v) (lit n) rb = Ok rb' →
  parse_route_block e rb (directive_line n v :: ls) = parse_route_block e rb' ls.
Proof.
  intros Hn Hv Hm. cbn [parse_route_block].
  rewrite directive_line_no_terminator by done. unfold route_block_line.
  rewrite directive_line_no_brace by done. simpl. rewrite directive_line_block by done. simpl.
  by rewrite Hm.
Qed.

Lemma route_block_opt e n o (f : str → RouteBlock) rb ls :
  name_ok n = true →
  (∀ v, o = Some v → plain v ∧ route_block_match (directive_line n v) (lit n) rb = Ok (f v)) →
  parse_route_block e rb (opt_line n o ++ ls) =
  parse_route_block e (default rb (f <$> o)) ls.
Proof.
  intros Hn Hf. destruct o as [v|]; simpl; [|done].
  destruct (Hf v eq_refl) as [Hv Hm]. by apply route_block_step.
Qed.

Lemma route_block_forward v rb :
  plain v → is_valid_url v = true →
  route_block_match (directive_line "forward" v) (lit "forward") rb =
    Ok (MkRouteBlock (Some v) (rb_auth rb) (rb_cert rb) (rb_key rb) (rb_cache rb) (rb_intercept rb)).
Proof.
  intros Hv Hu. unfold route_block_match. closed_tests.
  rewrite directive_line_value by done. simpl. by rewrite Hu.
Qed.

Lemma route_block_auth b rb :
  route_block_match (directive_line "auth" (switch b)) (lit "auth") rb =
    Ok (MkRouteBlock (rb_forward rb) b (rb_cert rb) (rb_key rb) (rb_cache rb) (rb_intercept rb)).
Proof.
  unfold route_block_match. closed_tests.
  rewrite directive_line_value by (done || apply switch_plain). simpl. by rewrite switch_parsed.
Qed.

Lemma route_block_cert v rb :
  plain v → rb_cert rb = None →
  route_block_match (directive_line "cert" v) (lit "cert") rb =
    Ok (MkRouteBlock (rb_forward rb) (rb_auth rb) (Some v) (rb_key rb) (rb_cache rb) (rb_intercept rb)).
Proof.
  intros Hv Hc. unfold route_block_match. closed_tests. rewrite Hc.
  by rewrite directive_line_value.
Qed.

Lemma route_block_key v rb :
  plain v → rb_key rb = None →
  route_block_match (directive_line "key" v) (lit "key") rb =
    Ok (MkRouteBlock (rb_forward rb) (rb_auth rb) (rb_cert rb) (Some v) (rb_cache rb) (rb_intercept rb)).
Proof.
  intros Hv Hc. unfold route_block_match. closed_tests. rewrite Hc.
  by rewrite directive_line_value.
Qed.

Lemma route_block_cache b rb :
  route_block_match (directive_line "cache" (switch b)) (lit "cache") rb =
    Ok (MkRouteBlock (rb_forward rb) (rb_auth rb) (rb_cert rb) (rb_key rb) (Some b) (rb_intercept rb)).
Proof.
  unfold route_block_match. closed_tests.
  rewrite directive_line_value by (done || apply switch_plain). simpl. by rewrite switch_parsed.
Qed.

Lemma route_block_intercept b rb :
  route_block_match (directive_line "intercept_errors" (switch b)) (lit "intercept_errors") rb =
    Ok (MkRouteBlock (rb_forward rb) (rb_auth rb) (rb_cert rb) (rb_key rb) (rb_cache rb) (Some b)).
Proof.
  unfold route_block_match. closed_tests.
  rewrite directive_line_value by (done || apply switch_plain). simpl. by rewrite switch_parsed.
Qed.

Lemma route_block_end req fwd auth cert key cache intercept ls :
  route_ok (MkRoute req fwd auth cert key cache intercept) →
  parse_route_block req (MkRouteBlock (Some fwd) auth cert key cache intercept) (lit "}" :: ls) =
    Ok (MkRoute req fwd auth cert key cache intercept, ls).
Proof.
  intros [_ _ Hcert Hkey]. cbn [cert_path key_path request_endpoint] in *. cbn [parse_route_block].
  change (is_terminator (lit "}")) with true. unfold route_block_finish.
  cbn [rb_forward rb_auth rb_cert rb_key rb_cache rb_intercept ok_or mbind result_bind].
  destruct (starts_with req (lit "https://")) eqn:Hs.
  - by rewrite !bool_decide_eq_true_2 by (by apply Hcert || by apply Hkey).
  - by rewrite !bool_decide_eq_false_2 by (rewrite ?Hcert, ?Hkey; done).
Qed.

(** The body of a printed route. *)
Lemma parse_render_route r ls :
  route_ok r → route_plain r →
  parse_route_block (request_endpoint r) route_block_init (tail (render_route r) ++ ls) = Ok (r, ls).
Proof.
  intros Hok [Preq Pfwd Pcert Pkey]. pose proof (route_ok_forward _ Hok) as Hfwd.
  destruct r as [req fwd auth cert key cache intercept].
  cbn [render_route tail request_endpoint forward_endpoint auth_required cert_path key_path
       route_cache route_intercept_errors] in *.
  rewrite <- !app_comm_cons, <- !app_assoc.
  rewrite (route_block_step _ "forward" _ _ _ _ eq_refl Pfwd (route_block_forward _ _ Pfwd Hfwd)).
  rewrite (route_block_step _ "auth" _ _ _ _ eq_refl (switch_plain _) (route_block_auth _ _)).
  cbn [rb_forward rb_auth rb_cert rb_key rb_cache rb_intercept route_block_init].
  rewrite (route_block_opt _ "cert" cert (λ v, MkRouteBlock (Some fwd) auth (Some v) None None None));
    [|done|intros v Hv; split; [|apply route_block_cert]; auto].
  replace (default _ _) with (MkRouteBlock (Some fwd) auth cert None None None) by (by destruct cert).
  rewrite (route_block_opt _ "key" key (λ v, MkRouteBlock (Some fwd) auth cert (Some v) None None));
    [|done|intros v Hv; split; [|apply route_block_key]; auto].
  replace (default _ _) with (MkRouteBlock (Some fwd) auth cert key None None) by (by destruct key).
  rewrite (route_block_opt _ "cache" (switch <$> cache) (λ _, MkRouteBlock (Some fwd) auth cert key cache None));
    [|done|intros v (b & -> & ->)%fmap_Some; split; [apply switch_plain|apply route_block_cache]].
  replace (default _ _) with (MkRouteBlock (Some fwd) auth cert key cache None) by (by destruct cache).
  rewrite (route_block_opt _ "intercept_errors" (switch <$> intercept)
    (λ _, MkRouteBlock (Some fwd) auth cert key cache intercept));
    [|done|intros v (b & -> & ->)%fmap_Some; split; [apply switch_plain|apply route_block_intercept]].
  replace (default _ _) with (MkRouteBlock (Some fwd) auth cert key cache intercept)
    by (by destruct intercept).
  by apply route_block_end.
Qed.

Lemma security_block_step n v sb sb' ls :
  name_ok n = true → plain v →
  security_block_match (directive_line n v) (lit n) sb = Ok sb' →
  parse_security_block sb (directive_line n v :: ls) = parse_security_block sb' ls.
Proof.
  intros Hn Hv Hm. cbn [parse_security_block].
  rewrite directive_line_no_terminator by done. unfold security_block_line.
  rewrite directive_line_no_brace by done. simpl. rewrite directive_line_block by done. simpl.
  by rewrite Hm.
Qed.

Lemma cache_block_step n v c c' ls :
  name_ok n = true → plain v →
  cache_block_match (directive_line n v) (lit n) c = Ok c' →
  parse_cache_block c (directive_line n v :: ls) = parse_cache_block c' ls.
Proof.
  intros Hn Hv Hm. cbn [parse_cache_block].
  rewrite directive_line_no_terminator by done. unfold cache_block_line.
  rewrite directive_line_no_brace by done. simpl. rewrite directive_line_block by done. simpl.
  by rewrite Hm.
Qed.

(** The value of a directive, with what reading it back gives. *)
Create HintDb values discriminated.
#[local] Hint Resolve switch_plain fmt_plain ip_plain : values.
#[local] Hint Extern 0 (name_ok _ = true) => reflexivity : values.

Ltac read_value parsed :=
  rewrite directive_line_value by auto with values; cbn [mbind result_bind];
  closed_tests; cbn [ensure mbind result_bind];
  rewrite ?mb_value_id by reflexivity; rewrite parsed; reflexivity.

Ltac security_line parsed :=
  erewrite security_block_step;
  [|reflexivity|solve [auto with values]
   |unfold security_block_match, once, invalid_value; closed_tests; read_value parsed].

Ltac cache_line parsed :=
  erewrite cache_block_step;
  [|reflexivity|solve [auto with values]
   |unfold cache_block_match, invalid_value; closed_tests; read_value parsed].

Lemma parse_u64_fmt n : is_u64 n → parse_uint u64_max (fmt n) = Some n.
Proof. intros Hn. apply parse_uint_fmt; [done|unfold u64_max; lia]. Qed.

Lemma parse_usize_fmt n : is_usize n → parse_uint usize_max (fmt n) = Some n.
Proof. intros Hn. apply parse_uint_fmt; [done|unfold usize_max, u64_max; lia]. Qed.

(** The body of a printed cache block. *)
Lemma parse_render_cache c ls :
  cache_ok c → parse_cache_block cache_block_init (tail (render_cache c) ++ ls) = Ok (c, ls).
Proof.
  intros [H1 H2 H3]. destruct c as [en cap file ttl]. cbn [render_cache tail enabled
    cfg_max_capacity_bytes cfg_max_file_size_bytes default_ttl_sec app] in *.
  cache_line (switch_parsed true en). cache_line (parse_size_fmt cap (lit "max_capacity") H1).
  cache_line (parse_size_fmt file (lit "max_file_size") H2). cache_line (parse_u64_fmt ttl H3).
  done.
Qed.

Lemma security_block_end s ls :
  parse_security_block (MkSecurityBlock (Some (proxy_protocol s)) (Some (trusted_upstream s))
    (Some (timeout_ms s)) (Some (sec_max_tls_failures s)) (Some (ban_duration_sec s))
    (Some (sec_rate_limit_rpm s)) (forward_auth s) (Some (max_body_size s))
    (Some (max_header_size s))) (lit "}" :: ls) = Ok (s, ls).
Proof. destruct s as [[] ? ? ? ? ? ? ? ?]; reflexivity. Qed.

(** The body of a printed security block. *)
Lemma parse_render_security s ls :
  security_ok s →
  (∀ u, forward_auth s = Some u → plain u) →
  parse_security_block security_block_init (tail (render_security s) ++ ls) = Ok (s, ls).
Proof.
  intros [Hip H1 H2 H3 H4 H5 H6] Hauth.
  pose proof (security_block_end s ls) as Hend. revert Hend.
  destruct s as [pp tu timeout failures bans rpm auth body header].
  cbn [proxy_protocol trusted_upstream timeout_ms sec_max_tls_failures ban_duration_sec
    sec_rate_limit_rpm forward_auth max_body_size max_header_size render_security tail] in *.
 intros Hend. rewrite <- !app_comm_cons, <- !app_assoc. unfold security_block_init.
  security_line (switch_parsed false pp). security_line (parse_ip_fmt tu Hip).
  security_line (parse_u64_fmt timeout H1). security_line (parse_usize_fmt failures H2).
  security_line (parse_u64_fmt bans H3). security_line (parse_usize_fmt rpm H4).
  security_line (parse_size_fmt body (lit "max_body_size") H5).
  security_line (parse_size_fmt header (lit "max_header_size") H6).
  destruct auth as [u|]; [|apply Hend]. cbn [opt_line app].
  rewrite (security_block_step "forward_auth" u _ (MkSecurityBlock (Some pp) (Some tu)
    (Some timeout) (Some failures) (Some bans) (Some rpm) (Some u) (Some body) (Some header)) _
    eq_refl (Hauth u eq_refl)); [apply Hend|].
  unfold security_block_match, once. closed_tests.
  by rewrite directive_line_value by auto.
Qed.

(** ** Lemmas: the whole file *)

(** With fuel for its lines, the loop goes from [st] to [st'] over [ls]. *)
Definition parses (ls : list str) (st st' : TopState) : Prop :=
  ∀ fuel, (length ls ≤ fuel)%nat → parse_lines fuel ls st = Some (Ok st').

Lemma parses_nil st : parses [] st st.
Proof. intros fuel _. by destruct fuel. Qed.

Lemma parses_step line rest rest' st st1 st' :
  top_line line rest st = Some (Ok (st1, rest')) → (length rest' ≤ length rest)%nat →
  parses rest' st1 st' → parses (line :: rest) st st'.
Proof.
  intros Hl Hlen Hp [|fuel] Hf; simpl in Hf; [lia|]. cbn [parse_lines]. rewrite Hl.
  apply Hp. lia.
Qed.

Lemma top_line_directive n v rest st :
  name_ok n = true → plain v → lit n ∈ top_level_directives →
  top_line (directive_line n v) rest st = top_match (directive_line n v) (lit n) rest st.
Proof.
  intros Hn Hv Hk. unfold top_line. rewrite directive_line_no_terminator by done.
  rewrite directive_line_directive by done. simpl. unfold validate_directive_case, str_eqb.
  destruct (name_ok_spec n Hn) as (_ & _ & _ & _ & ->).
  rewrite bool_decide_eq_true_2 by done. simpl. unfold validate_known_top_level_directive.
  by rewrite bool_decide_eq_true_2.
Qed.

Lemma parses_directive n v ls st st1 st' :
  name_ok n = true → plain v → lit n ∈ top_level_directives →
  top_match (directive_line n v) (lit n) ls st = Some (Ok (st1, ls)) →
  parses ls st1 st' → parses (directive_line n v :: ls) st st'.
Proof.
  intros Hn Hv Hk Hm. eapply parses_step; [|done]. by rewrite top_line_directive.
Qed.

Lemma parses_opt n o ls st (f : str → TopState) st' :
  name_ok n = true → lit n ∈ top_level_directives →
  (∀ v, o = Some v → plain v ∧
     top_match (directive_line n v) (lit n) ls st = Some (Ok (f v, ls))) →
  parses ls (default st (f <$> o)) st' → parses (opt_line n o ++ ls) st st'.
Proof.
  intros Hn Hk Hf Hp. destruct o as [v|]; simpl in *; [|done].
  destruct (Hf v eq_refl) as [Hv Hm]. by eapply parses_directive.
Qed.

(** The header of a printed route. *)
Lemma route_header_words e :
  word e → split_whitespace (lit "route " ++ e ++ lit " {") = [lit "route"; e; [lbrace]].
Proof.
  intros He. change (lit "route " ++ e ++ lit " {") with (lit "route" ++ space :: e ++ space :: [lbrace]).
  rewrite split_whitespace_cons by (by eapply bool_decide_unpack; vm_compute).
  by rewrite split_whitespace_cons.
Qed.

Lemma route_header_top e rest st :
  word e → top_line (lit "route " ++ e ++ lit " {") rest st =
    top_match (lit "route " ++ e ++ lit " {") (lit "route") rest st.
Proof.
  intros He. unfold top_line.
  assert (is_terminator (lit "route " ++ e ++ lit " {") = false) as ->
    by (apply bool_decide_eq_false_2; by intros [?|?]).
  unfold get_directive. rewrite route_header_words by done. simpl. unfold validate_directive_case.
  closed_tests. simpl. unfold validate_known_top_level_directive. by closed_tests.
Qed.

(** The loop's variables after a route. *)
Definition add_route (st : TopState) (r : Route) : TopState :=
  let '(MkTopState lp rs rf eps wk lf sec ca ie) := st in
  MkTopState lp (rs ++ [r]) true ({[request_endpoint r]} ∪ eps) wk lf sec ca ie.

Lemma parses_route r ls st st' :
  route_ok r → route_plain r → request_endpoint r ∉ ts_request_endpoints st →
  parses ls (add_route st r) st' → parses (render_route r ++ ls) st st'.
Proof.
  intros Hok Hpl Hnew Hp. pose proof (plain_request _ Hpl) as [He _].
  change (render_route r ++ ls) with
    ((lit "route " ++ request_endpoint r ++ lit " {") :: (tail (render_route r) ++ ls)).
  eapply (parses_step _ _ ls); [|rewrite length_app; lia|exact Hp].
  rewrite route_header_top by done. destruct st as [lp rs rf eps wk lf sec ca ie].
  unfold top_match. closed_tests.
  assert (ends_with_brace (lit "route " ++ request_endpoint r ++ lit " {") = true) as ->.
  { unfold ends_with_brace. rewrite ends_with_char.
    change (lit " {") with ([space] ++ [lbrace]). by rewrite !app_assoc, last_snoc. }
  unfold parse_route_block_header. rewrite route_header_words by done. closed_tests.
  rewrite (route_ok_request _ Hok). cbn [ensure mbind result_bind]. simpl in Hnew.
  rewrite bool_decide_eq_false_2 by done. cbn [negb ensure mbind result_bind].
  by rewrite parse_render_route.
Qed.

Lemma parses_routes rs st :
  Forall route_ok rs → Forall route_plain rs → NoDup (request_endpoint <$> rs) →
  (∀ r, r ∈ rs → request_endpoint r ∉ ts_request_endpoints st) →
  parses (mjoin (render_route <$> rs)) st (foldl add_route st rs).
Proof.
  intros Hok. revert st. induction Hok as [|r rs Hr Hok IH]; intros st Hpl Hnd Hnew.
  { apply parses_nil. }
  inversion_clear Hpl as [|?? Hplr Hpl']. apply NoDup_cons in Hnd as [Hfresh Hnd]. simpl.
  apply parses_route; [done..|apply Hnew; by left|]. apply IH; [done..|].
  intros r' Hr'. destruct st as [lp rs0 rf eps wk lf sec ca ie]. simpl in *.
  rewrite elem_of_union, elem_of_singleton. intros [Heq|Hin].
  - apply Hfresh. rewrite <- Heq. by apply list_elem_of_fmap_2.
  - by eapply Hnew; [right|].
Qed.

Lemma foldl_add_route rs lp rs0 rf eps wk lf sec ca ie :
  rs ≠ [] → ∃ eps', foldl add_route (MkTopState lp rs0 rf eps wk lf sec ca ie) rs =
    MkTopState lp (rs0 ++ rs) true eps' wk lf sec ca ie.
Proof.
  revert rs0 rf eps. induction rs as [|r rs IH]; intros rs0 rf eps Hne; [done|]. simpl.
  destruct rs as [|r' rs']; [by eexists|].
  destruct (IH (rs0 ++ [r]) true ({[request_endpoint r]} ∪ eps)) as [eps' ->]; [done|].
  exists eps'. by rewrite <- app_assoc.
Qed.

(** One lemma for each top-level directive, over the other variables of the loop. *)
Section top.
Context (ls : list str) (rs : list Route) (rf : bool) (eps : gset str) (st' : TopState).

Lemma parses_listen p wk lf sec ca ie :
  is_u16 p → parses ls (MkTopState (Some p) rs rf eps wk lf sec ca ie) st' →
  parses (directive_line "listen" (fmt p) :: ls) (MkTopState None rs rf eps wk lf sec ca ie) st'.
Proof.
  intros Hp. pose proof (fmt_plain p) as Hpl.
  apply parses_directive; [done|done|by eapply bool_decide_unpack; vm_compute|].
  unfold top_match. closed_tests. rewrite directive_line_simple by done. simpl.
  unfold parse_listen_line. rewrite directive_line_words by done.
  by rewrite parse_uint_fmt by (done || unfold u16_max; lia).
Qed.

Lemma parses_workers n lp lf sec ca ie :
  1 ≤ n ≤ usize_max → parses ls (MkTopState lp rs rf eps (Some n) lf sec ca ie) st' →
  parses (directive_line "workers" (fmt n) :: ls) (MkTopState lp rs rf eps None lf sec ca ie) st'.
Proof.
  intros Hn. pose proof (fmt_plain n) as Hpl.
  apply parses_directive; [done|done|by eapply bool_decide_unpack; vm_compute|].
  unfold top_match. closed_tests. rewrite directive_line_simple by done. simpl.
  rewrite directive_line_value by done. simpl. rewrite parse_usize_fmt by (unfold is_usize; lia).
  simpl. by assert ((n =? 0) = false) as -> by lia.
Qed.

Lemma parses_logfile lp wk lf sec ca ie :
  (∀ p, lf = Some p → plain p) → parses ls (MkTopState lp rs rf eps wk lf sec ca ie) st' →
  parses (opt_line "logfile" lf ++ ls) (MkTopState lp rs rf eps wk None sec ca ie) st'.
Proof.
  intros Hlf Hp. destruct lf as [p|]; [|done]. specialize (Hlf p eq_refl).
  eapply parses_directive; [done|done|by eapply bool_decide_unpack; vm_compute| |exact Hp].
  unfold top_match. closed_tests. rewrite directive_line_simple by done. simpl.
  by rewrite directive_line_value.
Qed.

Lemma parses_intercept lp wk lf sec ca ie :
  parses ls (MkTopState lp rs rf eps wk lf sec ca ie) st' →
  parses (opt_line "intercept_errors" (switch <$> ie) ++ ls)
    (MkTopState lp rs rf eps wk lf sec ca None) st'.
Proof.
  intros Hp. destruct ie as [b|]; [|done]. pose proof (switch_plain b) as Hpl.
  eapply parses_directive; [done|done|by eapply bool_decide_unpack; vm_compute| |exact Hp].
  unfold top_match. closed_tests. rewrite directive_line_simple by done. simpl.
  rewrite directive_line_value by done. simpl. by rewrite switch_parsed.
Qed.

Lemma parses_security lp wk lf sec ca ie :
  (∀ s, sec = Some s → security_ok s ∧
     ∀ u, forward_auth s = Some u → plain u) →
  parses ls (MkTopState lp rs rf eps wk lf sec ca ie) st' →
  parses (default [] (render_security <$> sec) ++ ls)
    (MkTopState lp rs rf eps wk lf None ca ie) st'.
Proof.
  intros Hsec Hp. destruct sec as [s|]; [|done]. destruct (Hsec s eq_refl) as (Hok & Hu).
  change (parses (lit "security {" :: (tail (render_security s) ++ ls))
    (MkTopState lp rs rf eps wk lf None ca ie) st').
  eapply (parses_step _ _ ls); [|rewrite length_app; lia|exact Hp].
  unfold top_line. closed_tests. change (get_directive (lit "security {")) with (Ok (lit "security") : parse str).
  change (is_terminator (lit "security {")) with false.
  unfold validate_directive_case, validate_known_top_level_directive. cbn [mbind result_bind].
  closed_tests. cbn [ensure mbind result_bind]. unfold top_match. closed_tests.
  change (ends_with_brace (lit "security {")) with true. cbn [ensure mbind result_bind].
  by rewrite parse_render_security.
Qed.

Lemma parses_cache lp wk lf sec ca ie :
  (∀ c, ca = Some c → cache_ok c) →
  parses ls (MkTopState lp rs rf eps wk lf sec ca ie) st' →
  parses (default [] (render_cache <$> ca) ++ ls)
    (MkTopState lp rs rf eps wk lf sec None ie) st'.
Proof.
  intros Hca Hp. destruct ca as [c|]; [|done].
  change (parses (lit "cache {" :: (tail (render_cache c) ++ ls))
    (MkTopState lp rs rf eps wk lf sec None ie) st').
  eapply (parses_step _ _ ls); [|rewrite length_app; lia|exact Hp].
  unfold top_line. change (get_directive (lit "cache {")) with (Ok (lit "cache") : parse str).
  change (is_terminator (lit "cache {")) with false.
  unfold validate_directive_case, validate_known_top_level_directive. cbn [mbind result_bind].
  closed_tests. cbn [ensure mbind result_bind]. unfold top_match. closed_tests.
  change (ends_with_brace (lit "cache {")) with true. cbn [andb ensure mbind result_bind].
  by rewrite parse_render_cache by auto.
Qed.
End top.

(** The printed lines of a configuration. *)
Lemma parses_render cfg :
  config_ok cfg → printable cfg →
  ∃ eps, parses (render_lines cfg) top_init
    (MkTopState (Some (listen_port cfg)) (routes cfg) true eps (Some (workers cfg)) (logfile cfg)
       (security cfg) (config_cache cfg) (config_intercept_errors cfg)).
Proof.
  intros [Hport Hne Hnd Hroutes Hwk Hsec Hca Hauth] [Proutes Plog Pauth].
  destruct (foldl_add_route (routes cfg) (Some (listen_port cfg)) [] false ∅ (Some (workers cfg))
    (logfile cfg) (security cfg) (config_cache cfg) (config_intercept_errors cfg) Hne) as [eps Heps].
  exists eps. rewrite app_nil_l in Heps. rewrite <- Heps. unfold render_lines, top_init.
  apply parses_listen; [done|]. apply parses_workers; [done|]. apply parses_logfile; [done|].
  apply parses_intercept, parses_security.
  { intros s Hs. split_and!; eauto. }
  apply parses_cache; [done|]. by apply parses_routes.
Qed.

(** ** Lemmas: from text to lines *)

Definition is_sep (c : ascii) : bool :=
  Ascii.eqb c space || Ascii.eqb c tab || Ascii.eqb c semicolon || Ascii.eqb c newline.

(** No comment starts in [s], after a separator if [b]. *)
Fixpoint no_opener (b : bool) (s : str) : bool :=
  match s with
  | [] => true
  | c :: s' =>
      negb (b && Ascii.eqb c slash &&
            match s' with n :: _ => Ascii.eqb n slash || Ascii.eqb n star | [] => false end)
      && no_opener (is_sep c) s'
  end.

Lemma is_boundary_cons c before : is_boundary (c :: before) = is_sep c.
Proof.
  unfold is_boundary, is_sep. destruct (_ || _) eqn:Hs; [done|].
  rewrite !orb_false_iff in Hs. destruct Hs as [[[H1 H2] _] H4]. simpl. by rewrite H4, H1, H2.
Qed.

Lemma strip_no_opener before s :
  no_opener (is_boundary before) s = true → strip_from Text before s = s.
Proof.
  revert before. induction s as [|c s IH]; intros before; [done|].
  cbn [no_opener]. rewrite andb_true_iff. intros [Hc Hs]. rewrite <- (is_boundary_cons c before) in Hs.
  specialize (IH _ Hs). destruct s as [|n s]; [done|]. rewrite strip_text_step, IH.
  case_if; [|done]. apply andb_prop in Heqb as [[H1 H2]%andb_prop H3].
  by rewrite H1, H2, H3 in Hc.
Qed.

(** A piece without slashes, and a plain value, before a character that is not one. *)
Lemma no_opener_piece b s c t :
  slash ∉ s → c ≠ slash → no_opener (is_sep c) t = true → no_opener b (s ++ c :: t) = true.
Proof.
  intros Hs Hc Ht. revert b. induction s as [|d s IH]; intros b; cbn [app no_opener].
  - rewrite Ht, (proj2 (Ascii.eqb_neq _ _) Hc), andb_false_r. done.
  - apply not_elem_of_cons in Hs as [Hd Hs]. rewrite (IH Hs).
    rewrite (proj2 (Ascii.eqb_neq d slash)) by done. by rewrite andb_false_r.
Qed.

Lemma no_opener_inside s c t :
  Forall (λ d, is_sep d = false) s → c ≠ slash → no_opener (is_sep c) t = true →
  no_opener false (s ++ c :: t) = true.
Proof.
  intros Hs Hc Ht. induction Hs as [|d s Hd _ IH]; cbn [app no_opener andb negb].
  - by rewrite Ht.
  - by rewrite Hd.
Qed.

Lemma word_no_sep v : plain v → Forall (λ d, is_sep d = false) v.
Proof.
  intros ([_ Hw] & Hs & _). rewrite Forall_forall in *. intros d Hd. specialize (Hw d Hd).
  apply not_true_iff_false. unfold is_sep. rewrite !orb_true_iff, !Ascii.eqb_eq.
  intros [[[->| ->]| ->]| ->]; done.
Qed.

Lemma no_opener_plain v c t :
  plain v → c ≠ slash → c ≠ star → no_opener (is_sep c) t = true →
  no_opener true (v ++ c :: t) = true.
Proof.
  intros Hv Hc Hstar Ht. pose proof (word_no_sep v Hv) as Hsep.
  destruct Hv as ([Hne _] & _ & H1 & H2). destruct v as [|d v]; [done|].
  inversion_clear Hsep as [|?? Hd Hsep']. cbn [app no_opener].
  rewrite Hd, no_opener_inside by done. rewrite andb_true_r, negb_true_iff.
  destruct (Ascii.eqb_spec d slash) as [->|]; [|done]. cbn [andb].
  destruct v as [|n v]; cbn [app].
  - by rewrite (proj2 (Ascii.eqb_neq c slash)), (proj2 (Ascii.eqb_neq c star)).
  - apply orb_false_iff. split; apply Ascii.eqb_neq; intros ->.
    + by rewrite (proj2 (starts_with_true _ _)) in H1 by (by exists v).
    + by rewrite (proj2 (starts_with_true _ _)) in H2 by (by exists v).
Qed.

Lemma no_opener_line b l t :
  no_opener b l = true → no_opener true t = true → no_opener b (l ++ newline :: t) = true.
Proof.
  intros Hl Ht. revert b Hl. induction l as [|c l IH]; intros b Hl; cbn [app no_opener].
  - change (is_sep newline) with true. change (Ascii.eqb newline slash) with false.
    by rewrite Ht, andb_false_r.
  - cbn [no_opener] in Hl. apply andb_prop in Hl as [Hc Hl]. rewrite (IH _ Hl), andb_true_r.
    destruct l as [|n l]; cbn [app]; [|done].
    change (Ascii.eqb newline slash || Ascii.eqb newline star) with false. by rewrite andb_false_r.
Qed.

(** A line that survives the way from the text to the parser. *)
Record clean_line (l : str) : Prop := {
  clean_head : ∃ c, head l = Some c ∧ is_whitespace c = false ∧ c ≠ "#"%char;
  clean_last : ∀ c, last l = Some c → is_whitespace c = false;
  clean_newline : newline ∉ l;
  clean_comment : no_opener true l = true }.

Lemma lines_unlines ls : Forall clean_line ls → lines (unlines ls) = ls.
Proof.
  unfold lines. induction 1 as [|l ls [_ Hlast Hnl _] _ IH]; [done|].
  change (unlines (l :: ls)) with ((l ++ [newline]) ++ unlines ls). rewrite <- app_assoc. simpl.
  assert (∀ t, split_inclusive_nl (l ++ newline :: t) = (l ++ [newline]) :: split_inclusive_nl t) as ->.
  { intros t. clear -Hnl. induction l as [|c l IH]; [done|].
    apply not_elem_of_cons in Hnl as [Hc Hnl]. cbn [app split_inclusive_nl].
    rewrite (proj2 (Ascii.eqb_neq c newline)) by done. by rewrite (IH Hnl). }
  rewrite fmap_cons, IH. f_equal. unfold strip_eol, strip_suffix_char. rewrite reverse_snoc. simpl.
  rewrite reverse_involutive. destruct (reverse l) as [|c r] eqn:Hr; [done|].
  assert (last l = Some c) as Hc.
  { rewrite <- (reverse_involutive l), Hr, reverse_cons. apply last_snoc. }
  rewrite (proj2 (Ascii.eqb_neq carriage_return c)); [done|]. intros <-. by apply Hlast in Hc.
Qed.

Lemma unlines_no_opener ls : Forall clean_line ls → no_opener true (unlines ls) = true.
Proof.
  induction 1 as [|l ls [_ _ _ Hc] _ IH]; [done|].
  change (unlines (l :: ls)) with ((l ++ [newline]) ++ unlines ls). rewrite <- app_assoc.
  by apply no_opener_line.
Qed.

Lemma config_lines_unlines ls : Forall clean_line ls → config_lines (unlines ls) = ls.
Proof.
  intros Hall. unfold config_lines, strip_comments.
  rewrite strip_no_opener by (by apply unlines_no_opener). rewrite lines_unlines by done.
  induction Hall as [|l ls [(c & Hh & Hw & Hhash) Hlast _ _] _ IH]; [done|]. rewrite fmap_cons.
  rewrite (trim_id l); [|congruence|done]. cbn [List.filter].
  destruct l as [|c' l]; [done|]. injection Hh as ->.
  assert (starts_with (c :: l) (lit "#") = false) as ->.
  { apply bool_decide_eq_false_2. intros [r Hr]. by injection Hr as ?. }
  cbn [nonempty negb andb]. by rewrite IH.
Qed.

Lemma directive_line_clean n v : name_ok n = true → plain v → clean_line (directive_line n v).
Proof.
  intros Hn Hv. destruct (name_ok_spec n Hn) as ([Hne Hws] & _ & Hslash & Hhash & _). split.
  - rewrite directive_line_head by done. destruct (lit n) as [|c s] eqn:He; [done|].
    exists c. split; [done|]. split; [by inversion Hws|]. intros ->. apply Hhash. by left.
  - intros c. rewrite directive_line_last by done. by intros [= <-].
  - destruct Hv as ([_ Hw] & _). rewrite Forall_forall in Hw, Hws. unfold directive_line.
    rewrite !elem_of_app, elem_of_cons, elem_of_app, list_elem_of_singleton.
    intros [Hin|[Heq|[Hin|Heq]]]; [by apply Hws in Hin|done|by apply Hw in Hin|done].
  - unfold directive_line. apply no_opener_piece; [done|done|]. by apply no_opener_plain.
Qed.

Lemma opt_line_clean n o :
  name_ok n = true → (∀ v, o = Some v → plain v) → Forall clean_line (opt_line n o).
Proof.
  intros Hn Ho. destruct o as [v|]; [|constructor].
  apply Forall_singleton, directive_line_clean; auto.
Qed.

Lemma route_header_clean e : plain e → clean_line (lit "route " ++ e ++ lit " {").
Proof.
  intros He. split.
  - by exists "r"%char.
  - intros c. change (lit " {") with ([space] ++ [lbrace]). rewrite !app_assoc, last_snoc.
    by intros [= <-].
  - destruct He as ([_ Hw] & _). rewrite Forall_forall in Hw. rewrite !elem_of_app.
    intros [Hin|[Hin|Hin]]; [|by apply Hw in Hin|].
    all: revert Hin; by eapply bool_decide_unpack; vm_compute.
  - change (lit "route " ++ e ++ lit " {") with (lit "route" ++ space :: (e ++ space :: [lbrace])).
    apply no_opener_piece; [by eapply bool_decide_unpack; vm_compute|done|].
    by apply no_opener_plain.
Qed.

(** Closed lines are clean by computation. *)
Definition closed_clean (l : str) : bool :=
  match head l, last l with
  | Some c, Some d => negb (is_whitespace c) && negb (Ascii.eqb c "#"%char) && negb (is_whitespace d)
  | _, _ => false
  end && negb (contains_char l newline) && no_opener true l.

Lemma closed_clean_spec l : closed_clean l = true → clean_line l.
Proof.
  unfold closed_clean. rewrite !andb_true_iff, negb_true_iff. intros [[Hc Hn] Ho].
  destruct (head l) as [c|] eqn:Hh; [|done]. destruct (last l) as [d|] eqn:Hl; [|done].
  rewrite !andb_true_iff, !negb_true_iff, Ascii.eqb_neq in Hc. destruct Hc as [[H1 H2] H3].
  split; [by exists c|congruence| |done].
  by intros Hin%contains_char_true; rewrite Hin in Hn.
Qed.

Create HintDb clean discriminated.
#[local] Hint Resolve directive_line_clean opt_line_clean route_header_clean switch_plain fmt_plain : clean.
#[local] Hint Extern 0 (name_ok _ = true) => reflexivity : clean.
#[local] Hint Extern 0 (clean_line _) => apply closed_clean_spec; reflexivity : clean.

Ltac clean_lines :=
  repeat first [apply Forall_app; split | apply Forall_cons; split | apply Forall_nil; exact I];
  eauto with clean.

Lemma option_switch_plain o v : switch <$> o = Some v → plain v.
Proof. intros (b & -> & ->)%fmap_Some. apply switch_plain. Qed.
#[local] Hint Resolve option_switch_plain : clean.

Lemma render_route_clean r : route_plain r → Forall clean_line (render_route r).
Proof. intros [Preq Pfwd Pcert Pkey]. unfold render_route. clean_lines. Qed.

Lemma render_lines_clean cfg : config_ok cfg → printable cfg → Forall clean_line (render_lines cfg).
Proof.
  intros Hok [Proutes Plog Pauth]. unfold render_lines. clean_lines.
  - destruct (security cfg) as [s|] eqn:Hs; [|constructor].
    pose proof (ip_plain _ (security_ok_ip _ (config_ok_security _ Hok s Hs))).
    simpl. unfold render_security. clean_lines.
  - destruct (config_cache cfg) as [c|]; [|constructor]. simpl. unfold render_cache. clean_lines.
  - induction Proutes as [|r rs Hr _ IH]; [constructor|].
    change (mjoin (render_route <$> r :: rs)) with (render_route r ++ mjoin (render_route <$> rs)).
    apply Forall_app. split; [by apply render_route_clean|done].
Qed.

(** ** The round trip *)

(** C11: Every configuration the server can run with can be written down, and the
    parser reads back exactly what was written: for every well-formed configuration
    with plain strings, parsing its printed text gives the configuration. *)
Theorem parse_render (available : option Z) (cfg : Config) :
  config_ok cfg → printable cfg → parse_proxy_config available (render cfg) = Some (Ok cfg).
Proof.
  intros Hok Hpr. destruct (parses_render cfg Hok Hpr) as [eps Hp].
  unfold parse_proxy_config, render. rewrite config_lines_unlines by (by apply render_lines_clean).
  rewrite (Hp _ (Nat.le_refl _)). simpl. unfold top_finish. simpl.
  destruct Hok as [_ _ _ _ _ _ _ Hauth].
  assert (negb (existsb auth_required (routes cfg)) ||
    bool_decide (is_Some (security cfg ≫= forward_auth)) = true) as ->.
  { apply orb_true_iff. destruct (existsb auth_required (routes cfg)) eqn:Hex; [right|by left].
    apply existsb_exists in Hex as (r & Hr%list_elem_of_In & Ha).
    apply bool_decide_eq_true_2. by eapply Hauth. }
  simpl. by destruct cfg.
Qed.

(** ** Examples *)

Definition printed_config : Config :=
  MkConfig 443
    [MkRoute (lit "https://a.b/") (lit "http://c:1/") true (Some (lit "/c.pem")) (Some (lit "/k.pem"))
       (Some false) None]
    2 (Some (lit "logs/proxy.log"))
    (Some (MkSecurityConfig true (V6 [8193; 3512; 0; 0; 1; 0; 0; 1]) 200 5 3600 300 (Some (lit "http://auth/")) 1024 65536))
    (Some (MkCacheConfig true 67108864 2097152 300)) (Some true).

Definition plain_check (v : str) : bool :=
  nonempty v && forallb (λ c, negb (is_whitespace c) && negb (Ascii.eqb c semicolon)) v
  && negb (starts_with v (lit "//")) && negb (starts_with v (lit "/*")).

Lemma plain_check_spec v : plain_check v = true → plain v.
Proof.
  unfold plain_check. rewrite !andb_true_iff, !negb_true_iff, forallb_forall.
  intros [[[Hne Hall] H1] H2]. setoid_rewrite <- list_elem_of_In in Hall.
  setoid_rewrite andb_true_iff in Hall. setoid_rewrite negb_true_iff in Hall.
  split_and!; [split; [by destruct v|]| |done|done].
  - apply Forall_forall. intros c Hc. by apply Hall.
  - intros Hin. by destruct (Hall _ Hin).
Qed.

Lemma parse_render_witness :
  parse_proxy_config None (render printed_config) = Some (Ok printed_config).
Proof.
  apply (parse_render None printed_config).
  - apply (config_accepted None (render printed_config)); [by intros ?|].
    vm_compute. reflexivity.
  - split; simpl.
    + apply Forall_singleton. split; simpl; intros; simplify_eq; by apply plain_check_spec.
    + intros p [= <-]. by apply plain_check_spec.
    + intros s u [= <-] [= <-]. by apply plain_check_spec.
Defined.
