(* ===== verification/Router.v ===== *)
(** * Routing: [src/src/router.rs]

    Route matching and path rewriting, translated function by function, with an
    abstract reading of an endpoint as host and path against which the rewriting
    is specified. *)

From S2P Require Import Prelude RustStr NetAddr Config Comments.

(** ** The code *)

(** [struct Router] *)
Record Router : Type := MkRouter { router_routes : list Route }.

(** [Router::new] *)
Definition router_new (routes : list Route) : Router := MkRouter routes.

(** [struct MatchedRoute] *)
Record MatchedRoute : Type := MkMatchedRoute {
  upstream_addr : str;
  rewritten_path : str;
  matched_auth_required : bool;
  matched_cache : option bool;
  matched_intercept_errors : option bool }.

(** [MatchedRoute::should_intercept_errors] *)
Definition should_intercept_errors (m : MatchedRoute) (global_intercept : bool) : bool :=
  default global_intercept (matched_intercept_errors m).

(** The endpoint without its scheme, as both extractors compute it. *)
Definition without_scheme (endpoint : str) : str :=
  match strip_prefix (lit "http://") endpoint with
  | Some s => s
  | None => default endpoint (strip_prefix (lit "https://") endpoint)
  end.

Definition extract_host_port (endpoint : str) : str :=
  let ws := without_scheme endpoint in
  let host_port := default ws (head (split_char ws slash)) in
  if contains_char host_port colon then host_port
  else if starts_with endpoint (lit "https://") then host_port ++ lit ":443"
  else host_port ++ lit ":80".

Definition extract_path (endpoint : str) : str :=
  let ws := without_scheme endpoint in
  match find_char slash ws with
  | Some idx => drop idx ws
  | None => lit "/"
  end.

(** The condition under which [match_route] takes a route. *)
Definition route_matches (host path : str) (route : Route) : bool :=
  starts_with (lit "http://" ++ host ++ path) (request_endpoint route)
  || starts_with (lit "https://" ++ host ++ path) (request_endpoint route).

(** What [match_route] answers for the route it takes.  The slice
    [&path[req_path_prefix.len()..]] follows a [starts_with], so it is in
    range. *)
Definition route_result (path : str) (route : Route) : MatchedRoute :=
  let req_path_prefix := extract_path (request_endpoint route) in
  let forward_path_prefix := extract_path (forward_endpoint route) in
  MkMatchedRoute
    (extract_host_port (forward_endpoint route))
    (if starts_with path req_path_prefix
     then forward_path_prefix ++ drop (length req_path_prefix) path
     else path)
    (auth_required route) (route_cache route) (route_intercept_errors route).

Fixpoint match_routes (host path : str) (rs : list Route) : option MatchedRoute :=
  match rs with
  | [] => None
  | route :: rs' =>
      if route_matches host path route then Some (route_result path route)
      else match_routes host path rs'
  end.

(** [Router::match_route] *)
Definition match_route (r : Router) (host path : str) : option MatchedRoute :=
  match_routes host path (router_routes r).

(** ** Specification *)

(** The two readings of a request: as a plain and as a secure URL. *)
Definition request_url (scheme host path : str) : str := scheme ++ host ++ path.

Definition schemes : list str := [lit "http://"; lit "https://"].

(** The usual shape of a request: a host without a slash, and a path that starts with
    one.  Nothing enforces it: the host may be any text of a [Host] header. *)
Record request_shape (host path : str) : Prop := {
  shape_host : slash ∉ host;
  shape_path : head path = Some slash }.

(** A route is selected when its endpoint is a prefix of the request's URL under
    one of the schemes and no earlier route of the table is. *)
Definition selects (host path : str) (rs : list Route) (i : nat) : Prop :=
  (∃ r scheme, rs !! i = Some r ∧ scheme ∈ schemes ∧
     request_endpoint r `prefix_of` request_url scheme host path) ∧
  (∀ j r scheme, (j < i)%nat → rs !! j = Some r → scheme ∈ schemes →
     ¬ request_endpoint r `prefix_of` request_url scheme host path).

(** ** Lemmas *)

Lemma route_matches_spec host path r :
  route_matches host path r = true ↔
  ∃ scheme, scheme ∈ schemes ∧ request_endpoint r `prefix_of` request_url scheme host path.
Proof.
  unfold route_matches, schemes, request_url. rewrite orb_true_iff, !starts_with_true.
  split.
  - intros [H|H]; [exists (lit "http://")|exists (lit "https://")]; (split; [set_solver|done]).
  - intros (s & Hs & H). rewrite !elem_of_cons in Hs.
    destruct Hs as [->|[->|[]%elem_of_nil]]; auto.
Qed.

Lemma match_routes_Some host path rs m :
  match_routes host path rs = Some m ↔
  ∃ i r, selects host path rs i ∧ rs !! i = Some r ∧ m = route_result path r.
Proof.
  induction rs as [|r rs IH]; simpl.
  - split; [done|]. intros (i & r & _ & H & _). done.
  - destruct (route_matches host path r) eqn:E.
    + apply route_matches_spec in E as (s & Hs & Hp). split.
      * intros [= <-]. exists 0%nat, r. split_and!; [|done|done].
        split; [by exists r, s|]. intros; lia.
      * intros ([|i] & r' & [_ Hfirst] & Hi & ->); simplify_eq/=; [done|].
        exfalso. eapply (Hfirst 0%nat r s); [lia|done..].
    + rewrite IH. clear IH.
      assert (∀ s, s ∈ schemes → ¬ request_endpoint r `prefix_of` request_url s host path) as Hno.
      { intros s Hs Hp. apply not_true_iff_false in E. apply E, route_matches_spec. eauto. }
      split.
      * intros (i & r' & [Hsel Hfirst] & Hi & ->). exists (S i), r'.
        split_and!; [|done|done]. split; [done|].
        intros [|j] r'' s Hj Hr''; simplify_eq/=; [by apply Hno|]. apply (Hfirst j); [lia|done].
      * intros ([|i] & r' & [(r'' & s & ? & ? & ?) Hfirst] & Hi & ->); simplify_eq/=.
        { exfalso. by eapply Hno. }
        exists i. eexists. split_and!; [|done|done]. split; [by eauto|].
        intros j r3 s3 Hj. apply (Hfirst (S j)). lia.
Qed.

Lemma match_routes_None host path rs :
  match_routes host path rs = None ↔
  ∀ r scheme, r ∈ rs → scheme ∈ schemes →
    ¬ request_endpoint r `prefix_of` request_url scheme host path.
Proof.
  induction rs as [|r rs IH]; simpl; [set_solver|].
  destruct (route_matches host path r) eqn:E.
  - split; [done|]. intros H. apply route_matches_spec in E as (s & Hs & Hp).
    exfalso. apply (H r s); [set_solver|done..].
  - rewrite IH. split; [|set_solver].
    intros H r' s [->|Hr']%elem_of_cons Hs Hp; [|by eapply H].
    apply not_true_iff_false in E. apply E, route_matches_spec. eauto.
Qed.

Lemma extract_path_slash endpoint : head (extract_path endpoint) = Some slash.
Proof.
  unfold extract_path. destruct (find_char slash (without_scheme endpoint)) as [i|] eqn:E;
    [|done].
  by rewrite (find_char_drop _ _ _ E).
Qed.

Lemma split_head ws :
  default ws (head (split_char ws slash)) =
  match find_char slash ws with Some i => take i ws | None => ws end.
Proof.
  unfold split_char. induction ws as [|c ws IH]; simpl; [done|].
  destruct (Ascii.eqb_spec slash c) as [->|Hc]; [done|].
  destruct (split_by (Ascii.eqb slash) ws) as [|w l] eqn:E; [by apply split_by_nonnil in E|].
  destruct (find_char slash ws); simpl in *; congruence.
Qed.

Lemma without_scheme_app s e : s ∈ schemes → without_scheme (s ++ e) = e.
Proof.
  unfold schemes. rewrite !elem_of_cons.
  intros [->|[->|[]%elem_of_nil]]; unfold without_scheme.
  - by rewrite (proj2 (strip_prefix_Some _ _ e)).
  - replace (strip_prefix (lit "http://") _) with (@None str) by done.
    by rewrite (proj2 (strip_prefix_Some _ _ e)).
Qed.

(** An endpoint shorter than a scheme: nothing but ["/"] can be its path. *)
Lemma extract_path_short s e :
  s ∈ schemes → e `prefix_of` s → e ≠ s → extract_path e = [slash].
Proof.
  unfold schemes. rewrite !elem_of_cons. intros Hs [k Hk] Hne.
  assert (k ≠ []) by (intros ->; rewrite app_nil_r in Hk; done).
  destruct Hs as [->|[->|[]%elem_of_nil]]; cbv [lit String.list_ascii_of_string] in Hk.
  all: repeat (destruct e as [|? e]; [vm_compute; reflexivity|];
               simpl in Hk; injection Hk as <- Hk).
  all: symmetry in Hk; by apply app_eq_nil in Hk as [_ ->].
Qed.

Lemma extract_path_no_slash e : slash ∉ without_scheme e → extract_path e = [slash].
Proof. intros H. unfold extract_path. by rewrite (proj2 (find_char_None _ _) H). Qed.

Lemma extract_path_authority e a r :
  without_scheme e = a ++ slash :: r → slash ∉ a → extract_path e = slash :: r.
Proof.
  intros H Ha. unfold extract_path. rewrite H, find_char_app, drop_app_length by done. done.
Qed.

Lemma prefix_app_split {A} (e h p : list A) :
  e `prefix_of` h ++ p → (e `prefix_of` h) ∨ ∃ e', e = h ++ e' ∧ e' `prefix_of` p.
Proof.
  intros [k Hk]. symmetry in Hk.
  apply app_eq_app in Hk as [l [[-> ->]|[-> ->]]].
  - right. exists l. split; [done|by exists k].
  - left. by exists l.
Qed.

(** The path of a matching endpoint is a prefix of the request's path. *)
Lemma matching_path_prefix host path e s :
  request_shape host path → s ∈ schemes → e `prefix_of` request_url s host path →
  extract_path e `prefix_of` path.
Proof.
  intros [Hh Hp] Hs He. destruct path as [|c path]; simplify_eq/=.
  assert ([slash] `prefix_of` slash :: path) as Hroot by (by exists path).
  apply prefix_app_split in He as [He|(e' & -> & He)].
  - destruct (decide (e = s)) as [->|]; [|by rewrite (extract_path_short s)].
    rewrite <-(app_nil_r s), extract_path_no_slash; [done|].
    rewrite without_scheme_app by done. apply not_elem_of_nil.
  - apply prefix_app_split in He as [[k Hk]|(e'' & -> & He)].
    + rewrite extract_path_no_slash; [done|]. rewrite without_scheme_app by done. set_solver.
    + destruct e'' as [|d e''].
      * rewrite app_nil_r, extract_path_no_slash; [done|]. by rewrite without_scheme_app.
      * destruct He as [k He]. simplify_eq/=.
        erewrite extract_path_authority; [|by apply without_scheme_app|done]. by exists k.
Qed.

Lemma prefix_schemes_head e s host path :
  s ∈ schemes → e `prefix_of` request_url s host path → head e ≠ Some slash.
Proof.
  unfold schemes. rewrite !elem_of_cons. intros [->|[->|[]%elem_of_nil]] [k Hk] Hh;
    destruct e; simplify_eq/=; cbv in Hk; discriminate Hk.
Qed.

Lemma extract_host_port_authority s a rest :
  s ∈ schemes → slash ∉ a → rest = [] ∨ head rest = Some slash →
  extract_host_port (s ++ a ++ rest) =
  if contains_char a colon then a
  else if str_eqb s (lit "https://") then a ++ lit ":443" else a ++ lit ":80".
Proof.
  intros Hs Ha Hrest. unfold extract_host_port. rewrite split_head, without_scheme_app by done.
  assert (match find_char slash (a ++ rest) with
          | Some i => take i (a ++ rest) | None => a ++ rest end = a) as ->.
  { destruct rest as [|c rest]; [rewrite app_nil_r, (proj2 (find_char_None _ _) Ha); done|].
    destruct Hrest; simplify_eq/=. by rewrite find_char_app, take_app_length. }
  destruct (contains_char a colon); [done|]. unfold schemes in Hs. rewrite !elem_of_cons in Hs.
  destruct Hs as [->|[->|[]%elem_of_nil]]; [done|]. by rewrite starts_with_app.
Qed.

(** ** Properties *)

(** C9: [match_route] answers for the first route of the table whose endpoint is
    a prefix of the request's URL read with either scheme, and answers nothing
    exactly when there is no such route. *)
Theorem match_route_first (r : Router) (host path : str) :
  (∀ m, match_route r host path = Some m ↔
     ∃ i route, selects host path (router_routes r) i ∧
       router_routes r !! i = Some route ∧ m = route_result path route) ∧
  (match_route r host path = None ↔
     ∀ route scheme, route ∈ router_routes r → scheme ∈ schemes →
       ¬ request_endpoint route `prefix_of` request_url scheme host path).
Proof. split; [intros m; apply match_routes_Some|apply match_routes_None]. Qed.

(** C27: The path sent upstream, for every request that matches: when the request's
    path starts with the path of the selected route, it is the forward endpoint's path
    followed by the rest of the request's path, and otherwise the request's path as it
    is.  The second case arises only for a host with a slash in it or a path that does
    not start with a slash. *)
Theorem match_route_rewrites (r : Router) (host path : str) (m : MatchedRoute)
  (Hmatch : match_route r host path = Some m) :
  ∃ i route, selects host path (router_routes r) i ∧ router_routes r !! i = Some route ∧
    ((∃ suffix, path = extract_path (request_endpoint route) ++ suffix ∧
        rewritten_path m = extract_path (forward_endpoint route) ++ suffix) ∨
     (¬ extract_path (request_endpoint route) `prefix_of` path ∧ rewritten_path m = path ∧
      (slash ∈ host ∨ head path ≠ Some slash))).
Proof.
  apply match_routes_Some in Hmatch as (i & route & Hsel & Hi & ->). exists i, route.
  split_and!; [done..|]. simpl.
  destruct (starts_with path (extract_path (request_endpoint route))) eqn:Hpre.
  - apply starts_with_true in Hpre as [suffix ->]. left. exists suffix.
    split; [done|]. by rewrite drop_app_length.
  - right. assert (¬ extract_path (request_endpoint route) `prefix_of` path) as Hno
      by (by rewrite <- starts_with_true, Hpre).
    split_and!; [done..|].
    destruct (decide (slash ∈ host)) as [|Hhost]; [by left|right]. intros Hpath. apply Hno.
    destruct Hsel as [(r' & scheme & Hr' & Hs & Hp) _]. simplify_eq.
    by eapply matching_path_prefix.
Qed.

(** A host with a slash in it can stand for a part of the route's path: the route is
    selected, and the path is passed on without the upstream's own prefix. *)
Theorem slash_host_skips_rewrite (host dir rest : str) (fwd : str)
    (r := MkRoute (lit "http://" ++ host ++ slash :: dir) fwd false None None None None) :
  slash ∉ host → ¬ slash :: dir `prefix_of` slash :: rest →
  ∃ m, match_route (MkRouter [r]) (host ++ slash :: dir) (slash :: rest) = Some m ∧
    rewritten_path m = slash :: rest.
Proof.
  intros Hh Hno. exists (route_result (slash :: rest) r).
  assert (route_matches (host ++ slash :: dir) (slash :: rest) r = true) as Hm.
  { apply route_matches_spec. exists (lit "http://"). split; [by left|].
    exists (slash :: rest). unfold request_url. simpl. by rewrite <- !app_assoc. }
  unfold match_route. cbn [router_routes match_routes]. rewrite Hm. split; [done|].
  assert (extract_path (request_endpoint r) = slash :: dir) as Hp.
  { apply (extract_path_authority _ host); [|done]. apply without_scheme_app. by left. }
  unfold route_result. cbn [rewritten_path]. rewrite Hp.
  destruct (starts_with (slash :: rest) (slash :: dir)) eqn:Hs; [|done].
  by apply starts_with_true in Hs.
Qed.

(** A route whose endpoint is a bare path, which the parser accepts, is
    never selected for any request. *)
Theorem path_endpoint_never_matches (rs : list Route) (host path : str)
  (Hbare : Forall (λ r, head (request_endpoint r) = Some slash) rs) :
  match_route (MkRouter rs) host path = None.
Proof.
  apply match_routes_None. intros r s Hr Hs Hp.
  rewrite Forall_forall in Hbare. by eapply prefix_schemes_head, Hbare.
Qed.

(** The upstream address is the authority of the forward endpoint, completed
    with the default port of its scheme when it names none. *)
Theorem extract_host_port_spec (s a rest : str)
  (Hs : s ∈ schemes) (Ha : slash ∉ a) (Hrest : rest = [] ∨ head rest = Some slash) :
  extract_host_port (s ++ a ++ rest) =
    (if contains_char a colon then a
     else if str_eqb s (lit "https://") then a ++ lit ":443" else a ++ lit ":80") ∧
  colon ∈ extract_host_port (s ++ a ++ rest).
Proof.
  rewrite extract_host_port_authority by done. split; [done|].
  destruct (contains_char a colon) eqn:E; [by apply contains_char_true|].
  case_match; apply elem_of_app; right; apply elem_of_cons; by left.
Qed.

(** ** Examples *)

Definition sample_route : Route :=
  MkRoute (lit "http://a.b/x") (lit "http://c:1/y") false None None None None.

Lemma match_route_rewrites_witness :
  ∃ i route, selects (lit "a.b") (lit "/xz") [sample_route] i ∧ [sample_route] !! i = Some route ∧
    ((∃ suffix, lit "/xz" = extract_path (request_endpoint route) ++ suffix ∧
        lit "/yz" = extract_path (forward_endpoint route) ++ suffix) ∨
     (¬ extract_path (request_endpoint route) `prefix_of` lit "/xz" ∧ lit "/yz" = lit "/xz" ∧
      (slash ∈ lit "a.b" ∨ head (lit "/xz") ≠ Some slash))).
Proof.
  apply (match_route_rewrites (MkRouter [sample_route]) (lit "a.b") (lit "/xz")
    (route_result (lit "/xz") sample_route)).
  vm_compute. reflexivity.
Defined.

(** The host ends in the route's directory, and the upstream is asked for a path
    outside of its own. *)
Example slash_host_example :
  rewritten_path <$> match_route (MkRouter [sample_route]) (lit "a.b/x") (lit "/secret") =
    Some (lit "/secret").
Proof. vm_compute. reflexivity. Qed.

Lemma extract_host_port_spec_witness :
  extract_host_port (lit "https://a/b") = lit "a:443" ∧ colon ∈ extract_host_port (lit "https://a/b").
Proof.
  apply (extract_host_port_spec (lit "https://") (lit "a") (lit "/b")).
  - by apply (bool_decide_unpack _).
  - by apply (bool_decide_unpack _).
  - by right.
Defined.
