(* ===== verification/Security.v ===== *)
(** * Active defence: [src/src/security.rs]

    The [SecurityManager] is a mutex around three maps.  Every method takes the
    lock, reads the clock once and works on the maps, so a method is a function
    of the time it reads and of the state, and an execution of the program is a
    sequence of such calls with non-decreasing times.

    Instants are nanoseconds since boot.  Adding a [Duration] to an [Instant]
    panics on overflow; a panic while the lock is held poisons the mutex, and
    every later [lock().expect(..)] panics too.  Both are modelled. *)

From S2P Require Import Prelude RustStr NetAddr Log Config.

(** ** Time *)

Definition nanos_per_sec : Z := 1000000000.

(** The largest [Instant]: [i64] seconds and the nanoseconds below a second. *)
Definition instant_max : Z := 9223372036854775807 * nanos_per_sec + 999999999.

(** [Instant::duration_since], which saturates at zero. *)
Definition duration_since (now t : Z) : Z := Z.max 0 (now - t).

(** [Instant + Duration]: [None] is the overflow panic. *)
Definition instant_add (t d : Z) : option Z :=
  if bool_decide (t + d ≤ instant_max) then Some (t + d) else None.

Definition duration_from_secs (s : Z) : Z := s * nanos_per_sec.

Definition ROLLING_WINDOW : Z := duration_from_secs 60.
Definition DEFAULT_MAX_TLS_FAILURES : Z := 5.
Definition DEFAULT_BAN_DURATION : Z := duration_from_secs 3600.
Definition DEFAULT_RATE_LIMIT_RPM : Z := 60.

(** ** State *)

(** [struct SecurityManagerInner] *)
Record SecurityManagerInner : Type := MkInner {
  tls_failures : gmap IpAddr (list Z);
  request_tracker : gmap IpAddr (list Z);
  blacklist : gmap IpAddr Z;
  ban_duration : Z;
  max_tls_failures : Z;
  rate_limit_rpm : Z }.

(** [struct SecurityManager]: the mutex, with its poison flag *)
Record SecurityManager : Type := MkManager {
  inner : SecurityManagerInner;
  poisoned : bool }.

(** What a call ends with: a value and the new state, or a panic. *)
Inductive outcome (A : Type) : Type :=
| Done (a : A) (s : SecurityManager)
| Panicked (s : SecurityManager).
Arguments Done {A} a s.
Arguments Panicked {A} s.

Definition with_failures (g : SecurityManagerInner) (m : gmap IpAddr (list Z)) :=
  MkInner m (request_tracker g) (blacklist g) (ban_duration g) (max_tls_failures g)
    (rate_limit_rpm g).
Definition with_requests (g : SecurityManagerInner) (m : gmap IpAddr (list Z)) :=
  MkInner (tls_failures g) m (blacklist g) (ban_duration g) (max_tls_failures g)
    (rate_limit_rpm g).
Definition with_blacklist (g : SecurityManagerInner) (m : gmap IpAddr Z) :=
  MkInner (tls_failures g) (request_tracker g) m (ban_duration g) (max_tls_failures g)
    (rate_limit_rpm g).

(** ** Operations *)

(** [SecurityManager::new] *)
Definition new (ban max_failures rpm : Z) : SecurityManager :=
  MkManager (MkInner ∅ ∅ ∅ ban max_failures rpm) false.

(** [SecurityManager::default] *)
Definition default_manager : SecurityManager :=
  new DEFAULT_BAN_DURATION DEFAULT_MAX_TLS_FAILURES DEFAULT_RATE_LIMIT_RPM.

(** [SecurityManager::from_security_config] *)
Definition from_security_config (sec : option SecurityConfig) : SecurityManager :=
  match sec with
  | Some s => new (duration_from_secs (ban_duration_sec s)) (sec_max_tls_failures s)
                (sec_rate_limit_rpm s)
  | None => default_manager
  end.

(** [retain(|&t| now.duration_since(t) <= ROLLING_WINDOW)] *)
Definition retain (now : Z) (l : list Z) : list Z :=
  filter (λ t, duration_since now t ≤ ROLLING_WINDOW) l.

(** [retain] on a map of timestamp vectors, dropping the emptied ones *)
Definition retain_map (now : Z) (m : gmap IpAddr (list Z)) : gmap IpAddr (list Z) :=
  omap (λ l, match retain now l with [] => None | l' => Some l' end) m.

(** [SecurityManagerInner::cleanup] *)
Definition cleanup (now : Z) (g : SecurityManagerInner) : SecurityManagerInner :=
  MkInner (retain_map now (tls_failures g)) (retain_map now (request_tracker g))
    (filter (λ '(_, banned_until), now < banned_until) (blacklist g))
    (ban_duration g) (max_tls_failures g) (rate_limit_rpm g).

(** [SecurityManager::record_tls_failure] *)
Definition record_tls_failure (now : Z) (ip : IpAddr) (s : SecurityManager) : outcome bool :=
  if poisoned s then Panicked s
  else
    let g := cleanup now (inner s) in
    let failures := retain now (default [] (tls_failures g !! ip)) ++ [now] in
    let g := with_failures g (<[ip := failures]> (tls_failures g)) in
    if max_tls_failures g <? Z.of_nat (length failures) then
      match instant_add now (ban_duration g) with
      | None => Panicked (MkManager g true)
      | Some banned_until =>
          Done true (MkManager (with_blacklist g (<[ip := banned_until]> (blacklist g))) false)
      end
    else Done false (MkManager g false).

(** The line [record_tls_failure] logs when it bans an address that was not banned *)
Definition record_tls_failure_log (now : Z) (ip : IpAddr) (s : SecurityManager) : list LogRecord :=
  if poisoned s then []
  else
    let g := cleanup now (inner s) in
    let failures := retain now (default [] (tls_failures g !! ip)) ++ [now] in
    let failure_count := Z.of_nat (length failures) in
    if max_tls_failures g <? failure_count then
      match instant_add now (ban_duration g), blacklist g !! ip with
      | Some _, None =>
          [MkLogRecord ERROR (lit "tls_failure_blacklist_triggered")
             ["ip" ⇒ ip_to_string ip; "failures" ⇒ fmt failure_count;
              "ban_duration_sec" ⇒ fmt (ban_duration g `div` nanos_per_sec)]]
      | _, _ => []
      end
    else [].

(** [SecurityManager::check_and_record_request] *)
Definition check_and_record_request (now : Z) (ip : IpAddr) (s : SecurityManager) :
    outcome (result Z Z) :=
  if poisoned s then Panicked s
  else
    let g := cleanup now (inner s) in
    let limit := rate_limit_rpm g in
    if limit =? 0 then Done (Ok 0) (MkManager g false)
    else
      let requests := retain now (default [] (request_tracker g !! ip)) ++ [now] in
      let g := with_requests g (<[ip := requests]> (request_tracker g)) in
      let count := Z.of_nat (length requests) in
      Done (if limit <? count then Err count else Ok count) (MkManager g false).

(** [SecurityManager::is_blacklisted] *)
Definition is_blacklisted (now : Z) (ip : IpAddr) (s : SecurityManager) : outcome bool :=
  if poisoned s then Panicked s
  else
    let g := inner s in
    match blacklist g !! ip with
    | Some banned_until =>
        if now <? banned_until then Done true s
        else Done false (MkManager (with_blacklist g (delete ip (blacklist g))) false)
    | None => Done false s
    end.

(** [SecurityManager::get_tls_failure_count] *)
Definition get_tls_failure_count (now : Z) (ip : IpAddr) (s : SecurityManager) : outcome Z :=
  if poisoned s then Panicked s
  else
    let g := inner s in
    match tls_failures g !! ip with
    | Some failures =>
        match retain now failures with
        | [] => Done 0 (MkManager (with_failures g (delete ip (tls_failures g))) false)
        | l => Done (Z.of_nat (length l))
                 (MkManager (with_failures g (<[ip := l]> (tls_failures g))) false)
        end
    | None => Done 0 s
    end.

(** [SecurityManager::add_to_blacklist] *)
Definition add_to_blacklist (now : Z) (ip : IpAddr) (s : SecurityManager) : outcome unit :=
  if poisoned s then Panicked s
  else
    let g := inner s in
    match instant_add now (ban_duration g) with
    | None => Panicked (MkManager g true)
    | Some banned_until =>
        Done tt (MkManager (with_blacklist g (<[ip := banned_until]> (blacklist g))) false)
    end.

(** ** Runs: sequences of calls *)

Inductive op : Type :=
| RecordTlsFailure | CheckAndRecordRequest | IsBlacklisted | GetTlsFailureCount
| AddToBlacklist.

Inductive reply : Type :=
| RBool (b : bool) | RResult (r : result Z Z) | RCount (n : Z) | RUnit.

(** A call: when the lock was held, which method, for which address. *)
Record call : Type := MkCall { at_time : Z; method : op; client : IpAddr }.

Definition map_outcome {A B} (f : A → B) (o : outcome A) : outcome B :=
  match o with Done a s => Done (f a) s | Panicked s => Panicked s end.

Definition step (c : call) (s : SecurityManager) : outcome reply :=
  let '(MkCall now m ip) := c in
  match m with
  | RecordTlsFailure => map_outcome RBool (record_tls_failure now ip s)
  | CheckAndRecordRequest => map_outcome RResult (check_and_record_request now ip s)
  | IsBlacklisted => map_outcome RBool (is_blacklisted now ip s)
  | GetTlsFailureCount => map_outcome RCount (get_tls_failure_count now ip s)
  | AddToBlacklist => map_outcome (λ _, RUnit) (add_to_blacklist now ip s)
  end.

(** The replies of a run; [None] when a call panicked. *)
Fixpoint run (cs : list call) (s : SecurityManager) : option (list reply) :=
  match cs with
  | [] => Some []
  | c :: cs' =>
      match step c s with
      | Done r s' => cons r <$> run cs' s'
      | Panicked _ => None
      end
  end.
