(* ===== verification/SecuritySpec.v ===== *)
(** * What the security manager promises

    The specification keeps the complete history of recorded events and never
    forgets anything: counts are counts over the history, and an address is
    banned when the history holds a ban of it that has not run out.  The manager
    with its garbage collection is shown to give the same replies, and the
    properties of the rate limit and of bans are derived from the history. *)

From S2P Require Import Prelude RustStr NetAddr Config Security.

(** ** The specification *)

(** Events with their times, in the order they were recorded. *)
Abbreviation log := (list (IpAddr * Z)).

Record History : Type := MkHistory {
  h_failures : log;
  h_requests : log;
  h_bans : log }.

Definition empty_history : History := MkHistory [] [] [].

(** The events of an address in the rolling window that ends at [now]. *)
Definition in_window (now : Z) (ip : IpAddr) (p : IpAddr * Z) : Prop :=
  p.1 = ip ∧ now - p.2 ≤ ROLLING_WINDOW.

#[export] Instance in_window_dec now ip p : Decision (in_window now ip p).
Proof. unfold in_window. apply _. Defined.

Definition window_count (now : Z) (ip : IpAddr) (l : log) : Z :=
  Z.of_nat (length (filter (in_window now ip) l)).

Section spec.
Context (ban max_failures rpm : Z).

(** The address has a ban that has not run out. *)
Definition banned (now : Z) (ip : IpAddr) (h : History) : Prop :=
  ∃ t, (ip, t) ∈ h_bans h ∧ now < t + ban.

Definition bannedb (now : Z) (ip : IpAddr) (h : History) : bool :=
  existsb (λ p, bool_decide (p.1 = ip) && (now <? p.2 + ban)) (h_bans h).

Definition spec_step (c : call) (h : History) : reply * History :=
  let '(MkCall now m ip) := c in
  match m with
  | RecordTlsFailure =>
      let fs := h_failures h ++ [(ip, now)] in
      if max_failures <? window_count now ip fs
      then (RBool true, MkHistory fs (h_requests h) (h_bans h ++ [(ip, now)]))
      else (RBool false, MkHistory fs (h_requests h) (h_bans h))
  | CheckAndRecordRequest =>
      if rpm =? 0 then (RResult (Ok 0), h)
      else
        let rs := h_requests h ++ [(ip, now)] in
        let n := window_count now ip rs in
        (RResult (if rpm <? n then Err n else Ok n),
         MkHistory (h_failures h) rs (h_bans h))
  | IsBlacklisted => (RBool (bannedb now ip h), h)
  | GetTlsFailureCount => (RCount (window_count now ip (h_failures h)), h)
  | AddToBlacklist =>
      (RUnit, MkHistory (h_failures h) (h_requests h) (h_bans h ++ [(ip, now)]))
  end.

Fixpoint spec_run (cs : list call) (h : History) : list reply :=
  match cs with
  | [] => []
  | c :: cs' => let '(r, h') := spec_step c h in r :: spec_run cs' h'
  end.

(** Calls happen in the order of the clock, which starts at [last]. *)
Fixpoint chronological (last : Z) (cs : list call) : Prop :=
  match cs with
  | [] => True
  | c :: cs' => last ≤ at_time c ∧ chronological (at_time c) cs'
  end.

(** No ban made by one of the calls would end after the last instant. *)
Definition no_overflow (cs : list call) : Prop :=
  Forall (λ c, at_time c + ban ≤ instant_max) cs.

(** ** The simulation relation *)

Definition times (ip : IpAddr) (l : log) : list Z := snd <$> filter (λ p, p.1 = ip) l.

(** The stored timestamps and the history agree on every window from [last] on. *)
Definition tracks (last : Z) (m : gmap IpAddr (list Z)) (l : log) : Prop :=
  ∀ ip now, last ≤ now → retain now (default [] (m !! ip)) = retain now (times ip l).

Record sim (last : Z) (s : SecurityManager) (h : History) : Prop := {
  sim_poisoned : poisoned s = false;
  sim_ban : ban_duration (inner s) = ban;
  sim_max : max_tls_failures (inner s) = max_failures;
  sim_rpm : rate_limit_rpm (inner s) = rpm;
  sim_failures : tracks last (tls_failures (inner s)) (h_failures h);
  sim_requests : tracks last (request_tracker (inner s)) (h_requests h);
  sim_bans : ∀ ip now, last ≤ now →
    (∃ u, blacklist (inner s) !! ip = Some u ∧ now < u) ↔ banned now ip h;
  sim_past : Forall (λ p, p.2 ≤ last) (h_bans h) }.

(** ** Lemmas: windows *)

Lemma retain_retain now1 now2 l : now1 ≤ now2 → retain now2 (retain now1 l) = retain now2 l.
Proof.
  intros Hle. unfold retain. rewrite list_filter_filter. apply list_filter_iff.
  intros t. unfold duration_since. lia.
Qed.

Lemma retain_app now l k : retain now (l ++ k) = retain now l ++ retain now k.
Proof. apply filter_app. Qed.

Lemma retain_now now : retain now [now] = [now].
Proof.
  unfold retain. rewrite filter_cons_True; [done|].
  unfold duration_since, ROLLING_WINDOW, duration_from_secs, nanos_per_sec. lia.
Qed.

Lemma times_app ip l k : times ip (l ++ k) = times ip l ++ times ip k.
Proof. unfold times. by rewrite filter_app, fmap_app. Qed.

Lemma times_same ip t : times ip [(ip, t)] = [t].
Proof. unfold times. by rewrite filter_cons_True. Qed.

Lemma times_other ip ip' t : ip' ≠ ip → times ip [(ip', t)] = [].
Proof. intros. unfold times. by rewrite filter_cons_False. Qed.

Lemma window_count_times now ip l :
  window_count now ip l = Z.of_nat (length (retain now (times ip l))).
Proof.
  unfold window_count. f_equal. induction l as [|[i t] l IH]; [done|].
  change ((i, t) :: l) with ([(i, t)] ++ l). rewrite times_app, retain_app, filter_app.
  rewrite !length_app, IH. f_equal.
  destruct (decide (i = ip)) as [->|Hne].
  - rewrite times_same. unfold retain.
    destruct (decide (now - t ≤ ROLLING_WINDOW)).
    + rewrite !filter_cons_True; [done| |done].
      unfold duration_since, ROLLING_WINDOW, duration_from_secs, nanos_per_sec in *. lia.
    + rewrite !filter_cons_False; [done| |]; unfold in_window, duration_since; simpl; lia.
  - rewrite times_other by done. rewrite filter_cons_False; [done|]. by intros [? _].
Qed.

Lemma bannedb_spec now ip h : bannedb now ip h = true ↔ banned now ip h.
Proof.
  unfold bannedb, banned. rewrite existsb_exists. setoid_rewrite <-list_elem_of_In.
  split.
  - intros ([i t] & Hin & H). simpl in H. apply andb_prop in H as [H ?].
    apply bool_decide_eq_true_1 in H as ->. exists t. split; [done|lia].
  - intros (t & Hin & Ht). exists (ip, t). split; [done|]. simpl.
    rewrite bool_decide_eq_true_2 by done. simpl. lia.
Qed.

(** ** Lemmas: the maps *)

Lemma lookup_retain_map now m ip :
  default [] (retain_map now m !! ip) = retain now (default [] (m !! ip)).
Proof.
  unfold retain_map. rewrite lookup_omap. destruct (m !! ip) as [l|]; simpl; [|done].
  by destruct (retain now l).
Qed.

Lemma tracks_retain_map last now m l :
  last ≤ now → tracks last m l → tracks now (retain_map now m) l.
Proof.
  intros Hle Ht ip now' Hnow. rewrite lookup_retain_map, retain_retain by lia.
  apply Ht. lia.
Qed.

Lemma tracks_mono last now m l : last ≤ now → tracks last m l → tracks now m l.
Proof. intros Hle Ht ip now' Hnow. apply Ht. lia. Qed.

(** Recording an event in the map and in the history. *)
Lemma tracks_record now m l ip :
  tracks now m l →
  tracks now (<[ip := retain now (default [] (m !! ip)) ++ [now]]> m) (l ++ [(ip, now)]).
Proof.
  intros Ht ip' now' Hnow. rewrite times_app. destruct (decide (ip' = ip)) as [->|Hne].
  - rewrite lookup_insert_eq. simpl. rewrite times_same, !retain_app, retain_retain by lia.
    by rewrite Ht.
  - rewrite lookup_insert_ne by done. rewrite times_other, app_nil_r by done. by apply Ht.
Qed.

Lemma record_count now m l ip :
  tracks now m l →
  Z.of_nat (length (retain now (default [] (m !! ip)) ++ [now])) =
  window_count now ip (l ++ [(ip, now)]).
Proof.
  intros Ht. rewrite window_count_times, times_app, times_same, retain_app, retain_now.
  rewrite Ht by done. done.
Qed.

Lemma banned_record now ip ip' now' h :
  Forall (λ p, p.2 ≤ now) (h_bans h) →
  banned now' ip' (MkHistory (h_failures h) (h_requests h) (h_bans h ++ [(ip, now)])) ↔
  if decide (ip' = ip) then now' < now + ban else banned now' ip' h.
Proof.
  intros Hpast. unfold banned. simpl. setoid_rewrite elem_of_app.
  setoid_rewrite list_elem_of_singleton. case_decide as Hip.
  - subst. split; [|intros ?; exists now; auto].
    intros (t & [Hin|[= ->]] & Ht); [|done].
    rewrite Forall_forall in Hpast. apply Hpast in Hin. simpl in Hin. lia.
  - split; [intros (t & [?|[=]] & ?); eauto; naive_solver|naive_solver].
Qed.

End spec.

#[export] Hint Resolve tracks_mono tracks_retain_map tracks_record : proxy.

(** ** Lemmas: every call is simulated *)

Section simulation.
Context (ban max_failures rpm : Z).
Abbreviation sim := (sim ban max_failures rpm).
Abbreviation spec_step := (spec_step ban max_failures rpm).

(** Dropping what has run out keeps the relation. *)
Lemma cleanup_sim last now s h :
  last ≤ now → sim last s h → sim now (MkManager (cleanup now (inner s)) false) h.
Proof.
  intros Hle []. split; simpl; eauto with proxy.
  - intros ip now' Hnow. rewrite <-sim_bans0 by lia. split; intros (u & Hu & ?); exists u.
    + apply map_lookup_filter_Some in Hu as [? _]. done.
    + split; [|done]. apply map_lookup_filter_Some. split; [done|lia].
  - eapply Forall_impl; [done|]. simpl. lia.
Qed.

Lemma sim_mono last now s h : last ≤ now → sim last s h → sim now s h.
Proof.
  intros Hle []. split; eauto with proxy.
  - intros ip now' Hnow. apply sim_bans0. lia.
  - eapply Forall_impl; [done|]. simpl. lia.
Qed.

(** Entering a ban that starts now. *)
Lemma ban_sim now ip s h :
  sim now s h →
  sim now (MkManager (with_blacklist (inner s) (<[ip := now + ban]> (blacklist (inner s)))) false)
    (MkHistory (h_failures h) (h_requests h) (h_bans h ++ [(ip, now)])).
Proof.
  intros []. split; simpl; auto.
  - intros ip' now' Hnow. rewrite banned_record by done. case_decide as Hip.
    + subst. rewrite lookup_insert_eq. naive_solver.
    + rewrite lookup_insert_ne by done. by apply sim_bans0.
  - apply Forall_app. split; [done|]. constructor; [done|constructor].
Qed.

Lemma record_failure_sim now ip g h :
  sim now (MkManager g false) h →
  sim now (MkManager (with_failures g
            (<[ip := retain now (default [] (tls_failures g !! ip)) ++ [now]]> (tls_failures g)))
            false)
    (MkHistory (h_failures h ++ [(ip, now)]) (h_requests h) (h_bans h)).
Proof. intros []. split; simpl in *; auto with proxy. Qed.

Lemma record_request_sim now ip g h :
  sim now (MkManager g false) h →
  sim now (MkManager (with_requests g
            (<[ip := retain now (default [] (request_tracker g !! ip)) ++ [now]]>
               (request_tracker g))) false)
    (MkHistory (h_failures h) (h_requests h ++ [(ip, now)]) (h_bans h)).
Proof. intros []. split; simpl in *; auto with proxy. Qed.

(** Forgetting a ban that has run out. *)
Lemma unban_sim now ip s h u :
  sim now s h → blacklist (inner s) !! ip = Some u → u ≤ now →
  sim now (MkManager (with_blacklist (inner s) (delete ip (blacklist (inner s)))) false) h.
Proof.
  intros [] Hu Hle. split; simpl; auto. intros ip' now' Hnow. rewrite <-sim_bans0 by done.
  destruct (decide (ip' = ip)) as [->|].
  - rewrite lookup_delete_eq. split; intros (u' & ? & ?); simplify_eq; lia.
  - by rewrite lookup_delete_ne.
Qed.

(** Trimming the timestamps of one address. *)
Lemma trim_failures_sim now ip s h l m :
  sim now s h → tls_failures (inner s) !! ip = Some l →
  (∀ ip', m !! ip' = if decide (ip' = ip)
                     then match retain now l with [] => None | l' => Some l' end
                     else tls_failures (inner s) !! ip') →
  sim now (MkManager (with_failures (inner s) m) false) h.
Proof.
  intros [] Hl Hm. split; simpl; auto. intros ip' now' Hnow. rewrite Hm, <-sim_failures0 by done.
  case_decide; subst; [|done]. rewrite Hl. simpl.
  destruct (retain now l) eqn:E; simpl; rewrite <-E || rewrite <-(retain_retain now now'), E by done.
  - by rewrite retain_retain.
  - by rewrite retain_retain.
Qed.

(** Replace a limit stored in the state by the value the relation gives it. *)
Ltac param f H :=
  match goal with
  | |- context [f ?g] =>
      let v := match type of H with _ = ?v => v end in
      replace (f g) with v by (symmetry; exact H)
  end.

Lemma instant_add_ok now : now + ban ≤ instant_max → instant_add now ban = Some (now + ban).
Proof. intros. unfold instant_add. by rewrite bool_decide_eq_true_2. Qed.

Lemma step_sim last s h c :
  sim last s h → last ≤ at_time c → at_time c + ban ≤ instant_max →
  ∃ s', step c s = Done (spec_step c h).1 s' ∧ sim (at_time c) s' (spec_step c h).2.
Proof.
  destruct c as [now m ip]. simpl. intros Hsim Hle Hadd.
  pose proof (cleanup_sim _ _ _ _ Hle Hsim) as Hc.
  pose proof (sim_mono _ _ _ _ Hle Hsim) as Hs.
  pose proof (sim_poisoned _ _ _ _ _ _ Hsim) as Hp.
  destruct m; unfold record_tls_failure, check_and_record_request, is_blacklisted,
    get_tls_failure_count, add_to_blacklist; rewrite Hp.
  - pose proof (record_failure_sim now ip _ _ Hc) as Hr.
    rewrite (record_count now _ (h_failures h)) by (by destruct Hc).
    param max_tls_failures (sim_max _ _ _ _ _ _ Hc). case_if; [|by eexists].
    param ban_duration (sim_ban _ _ _ _ _ _ Hc). rewrite instant_add_ok by done.
    eexists. split; [done|]. by apply (ban_sim now ip _ _ Hr).
  - param rate_limit_rpm (sim_rpm _ _ _ _ _ _ Hc). case_if; [by eexists|].
    rewrite (record_count now _ (h_requests h)) by (by destruct Hc).
    eexists. split; [done|]. by apply record_request_sim.
  - destruct (bannedb ban now ip h) eqn:Hb.
    + apply bannedb_spec, (sim_bans _ _ _ _ _ _ Hs) in Hb as (u & -> & Hu); [|done].
      replace (now <? u) with true by lia. by eexists.
    + assert (∀ u, blacklist (inner s) !! ip = Some u → u ≤ now) as Hno.
      { intros u Hu. destruct (decide (u ≤ now)); [done|]. exfalso.
        apply not_true_iff_false in Hb. apply Hb, bannedb_spec.
        apply (sim_bans _ _ _ _ _ _ Hs); [done|]. exists u. split; [done|lia]. }
      destruct (blacklist (inner s) !! ip) as [u|] eqn:Hu; [|by eexists].
      specialize (Hno u eq_refl). replace (now <? u) with false by lia.
      eexists. split; [done|]. by eapply unban_sim.
  - rewrite window_count_times, <-(sim_failures _ _ _ _ _ _ Hs) by done.
    destruct (tls_failures (inner s) !! ip) as [l|] eqn:Hl; simpl; [|by eexists].
    destruct (retain now l) as [|t l'] eqn:E; eexists; (split; [done|]);
      eapply trim_failures_sim; try done; intros ip'; rewrite E; case_decide; subst;
      rewrite ?lookup_delete_eq, ?lookup_insert_eq, ?lookup_delete_ne, ?lookup_insert_ne by done;
      done.
  - rewrite (sim_ban _ _ _ _ _ _ Hs), instant_add_ok by done.
    eexists. split; [done|]. by apply ban_sim.
Qed.

Lemma run_sim last s h cs :
  sim last s h → chronological last cs → no_overflow ban cs →
  run cs s = Some (spec_run ban max_failures rpm cs h).
Proof.
  revert last s h; induction cs as [|c cs IH]; intros last s h Hsim Hch Hno; [done|].
  destruct Hch as [Hle Hch]. inversion_clear Hno as [|?? Hc Hno'].
  destruct (step_sim last s h c Hsim Hle Hc) as (s' & Hstep & Hs').
  cbn [run spec_run]. rewrite Hstep. destruct (spec_step c h) as [r h'] eqn:E.
  simpl in *. by rewrite (IH (at_time c) s' h').
Qed.

Lemma new_sim : sim 0 (new ban max_failures rpm) empty_history.
Proof.
  split; simpl; try done; intros ip now _; rewrite lookup_empty; try done.
  split; [naive_solver|]. intros (t & []%elem_of_nil & _).
Qed.

End simulation.

(** ** Properties *)

(** C1: the manager refines the history specification: over every sequence of
    calls in clock order in which no ban overflows the clock, a new manager
    answers exactly what counting over the complete history answers, although it
    discards every timestamp and ban that has run out. *)
Theorem manager_refines_history (ban max_failures rpm : Z) (cs : list call)
  (Hch : chronological 0 cs) (Hno : no_overflow ban cs) :
  run cs (new ban max_failures rpm)
  = Some (spec_run ban max_failures rpm cs empty_history).
Proof. eapply run_sim; [apply new_sim|done|done]. Qed.

(** ** Examples *)

Definition sample_ip : IpAddr := V4 10 0 0 1.
Definition sample_calls : list call :=
  [MkCall 1 CheckAndRecordRequest sample_ip; MkCall 2 CheckAndRecordRequest sample_ip;
   MkCall 3 AddToBlacklist sample_ip].

Lemma manager_refines_history_witness :
  run sample_calls (new 10 5 1) = Some [RResult (Ok 1); RResult (Err 2); RUnit].
Proof.
  rewrite (manager_refines_history 10 5 1 sample_calls).
  - reflexivity.
  - simpl. lia.
  - repeat constructor; simpl; unfold instant_max, nanos_per_sec; lia.
Defined.
