(* ===== verification/SecurityProps.v ===== *)
(** * Consequences: the rate limit, bans, isolation, memory and poisoning

    Properties of whole executions of the security manager, proved on the
    history specification and carried over by the refinement, and the
    properties of single calls that the history does not show (what stays in
    memory, and what a clock overflow does). *)

From S2P Require Import Prelude RustStr NetAddr Config Security SecuritySpec.

(** ** Definitions *)

(** A request of [ip] that was let through in the window that starts at [t0]. *)
Definition accepted (ip : IpAddr) (t0 : Z) (p : call * reply) : bool :=
  match p with
  | (MkCall t CheckAndRecordRequest i, RResult (Ok _)) =>
      bool_decide (i = ip) && (t0 <=? t) && (t <=? t0 + ROLLING_WINDOW)
  | _ => false
  end.

(** A call after which [ip] is banned. *)
Definition imposes_ban (ip : IpAddr) (c : call) (r : reply) : Prop :=
  client c = ip ∧
  (method c = AddToBlacklist ∨ (method c = RecordTlsFailure ∧ r = RBool true)).

(** The history after a sequence of calls. *)
Fixpoint spec_state (ban max_failures rpm : Z) (cs : list call) (h : History) : History :=
  match cs with
  | [] => h
  | c :: cs' => spec_state ban max_failures rpm cs' (spec_step ban max_failures rpm c h).2
  end.

(** ** Lemmas: the rate limit *)

Section rate.
Context (ban max_failures rpm : Z) (ip : IpAddr) (t0 : Z).

Definition since (l : log) : Z :=
  Z.of_nat (length (filter (λ p, p.1 = ip ∧ t0 ≤ p.2) l)).

Definition accepted_count (cs : list call) (rs : list reply) : Z :=
  Z.of_nat (length (List.filter (accepted ip t0) (zip cs rs))).

Lemma since_snoc l now :
  since (l ++ [(ip, now)]) = since l + (if bool_decide (t0 ≤ now) then 1 else 0).
Proof.
  unfold since. rewrite filter_app, length_app, Nat2Z.inj_add. f_equal.
  case_bool_decide.
  - by rewrite filter_cons_True.
  - rewrite filter_cons_False; [done|]. simpl. naive_solver.
Qed.

Lemma since_nonneg l : 0 ≤ since l.
Proof. unfold since. lia. Qed.

Lemma since_snoc_le l i now : since l ≤ since (l ++ [(i, now)]).
Proof. unfold since. rewrite filter_app, length_app. lia. Qed.

(** Everything since [t0] is in the window of a call made before it closes. *)
Lemma since_window_count l now :
  now ≤ t0 + ROLLING_WINDOW → since l ≤ window_count now ip l.
Proof.
  intros Hnow. unfold since, window_count. apply inj_le.
  induction l as [|[i t] l IH]; [done|]. rewrite !filter_cons. simpl.
  destruct (decide (i = ip ∧ t0 ≤ t)) as [[Hi ?]|], (decide (in_window now ip (i, t)))
    as [|Hout]; simpl; try lia.
  exfalso. apply Hout. split; simpl; [done|lia].
Qed.

Lemma accepted_count_cons c r cs rs :
  accepted_count (c :: cs) (r :: rs) =
  (if accepted ip t0 (c, r) then 1 else 0) + accepted_count cs rs.
Proof. unfold accepted_count. simpl. case_match; simpl; lia. Qed.

Lemma spec_rate_limit cs h :
  0 < rpm →
  let a := accepted_count cs (spec_run ban max_failures rpm cs h) in
  a = 0 ∨ a + since (h_requests h) ≤ rpm.
Proof.
  intros Hrpm. revert h. induction cs as [|[now m i] cs IH]; intros h; [by left|].
  cbn [spec_run]. destruct (spec_step ban max_failures rpm (MkCall now m i) h) as [r h'] eqn:E.
  cbv zeta. rewrite accepted_count_cons. specialize (IH h'). cbv zeta in IH.
  set (a := accepted_count cs (spec_run ban max_failures rpm cs h')) in *.
  pose proof (since_nonneg (h_requests h)).
  destruct m; cbn [spec_step] in E;
    try (repeat case_match; simplify_eq/=; lia).
  replace (rpm =? 0) with false in E by lia. simplify_eq/=.
  pose proof (since_snoc_le (h_requests h) i now).
  destruct (rpm <? window_count now i (h_requests h ++ [(i, now)])) eqn:Hlim; [lia|].
  destruct (bool_decide_reflect (i = ip)) as [->|]; [|simpl; lia]. simpl.
  destruct ((t0 <=? now) && (now <=? t0 + ROLLING_WINDOW)) eqn:Hw; [|lia].
  right. pose proof (since_window_count (h_requests h ++ [(ip, now)]) now).
  rewrite since_snoc in *. rewrite bool_decide_eq_true_2 in * by lia.
  lia.
Qed.

End rate.

(** ** Lemmas: bans *)

Section bans.
Context (ban max_failures rpm : Z).
Abbreviation spec_run := (spec_run ban max_failures rpm).
Abbreviation spec_step := (spec_step ban max_failures rpm).
Abbreviation spec_state := (spec_state ban max_failures rpm).

Lemma spec_run_app cs1 cs2 h :
  spec_run (cs1 ++ cs2) h = spec_run cs1 h ++ spec_run cs2 (spec_state cs1 h).
Proof.
  revert h; induction cs1 as [|c cs1 IH]; intros h; [done|].
  cbn [app SecuritySpec.spec_run SecurityProps.spec_state].
  destruct (spec_step c h). simpl. by rewrite IH.
Qed.

Lemma length_spec_run cs h : length (spec_run cs h) = length cs.
Proof.
  revert h; induction cs as [|c cs IH]; intros h; [done|].
  cbn [SecuritySpec.spec_run]. destruct (spec_step c h). simpl. by rewrite IH.
Qed.

Lemma spec_step_bans c h ip t :
  (ip, t) ∈ h_bans (spec_step c h).2 ↔
  (ip, t) ∈ h_bans h ∨ (imposes_ban ip c (spec_step c h).1 ∧ t = at_time c).
Proof.
  destruct c as [now m i]. unfold imposes_ban. simpl.
  destruct m; repeat case_match; simpl; rewrite ?elem_of_app, ?list_elem_of_singleton;
    naive_solver.
Qed.

Lemma spec_state_bans cs h ip t :
  (ip, t) ∈ h_bans (spec_state cs h) ↔
  (ip, t) ∈ h_bans h ∨
  ∃ i c r, cs !! i = Some c ∧ spec_run cs h !! i = Some r ∧ imposes_ban ip c r ∧ t = at_time c.
Proof.
  revert h; induction cs as [|c cs IH]; intros h;
    cbn [SecurityProps.spec_state SecuritySpec.spec_run].
  { split; [auto|]. intros [?|(i & c & r & H & _)]; [done|]. by rewrite lookup_nil in H. }
  rewrite IH, spec_step_bans. destruct (spec_step c h) as [r h'] eqn:E. simpl. split.
  - intros [[?|[? ->]]|(i & c' & r' & ?)]; [by left|right|right].
    + by exists 0%nat, c, r.
    + by exists (S i), c', r'.
  - intros [?|([|i] & c' & r' & Hc & Hr & ?)]; [by left; left| |]; simplify_eq/=.
    + left; right. naive_solver.
    + right. by exists i, c', r'.
Qed.

End bans.

(** ** Lemmas: isolation *)

Section isolation.
Context (ban max_failures rpm : Z) (ip : IpAddr).
Abbreviation spec_run := (spec_run ban max_failures rpm).
Abbreviation spec_step := (spec_step ban max_failures rpm).

(** Two histories record the same events of [ip]. *)
Definition same_log (l k : log) : Prop :=
  filter (λ p, p.1 = ip) l = filter (λ p, p.1 = ip) k.

Record same_history (h k : History) : Prop := {
  same_failures : same_log (h_failures h) (h_failures k);
  same_requests : same_log (h_requests h) (h_requests k);
  same_bans : same_log (h_bans h) (h_bans k) }.

Lemma same_log_snoc l k p : same_log l k → same_log (l ++ [p]) (k ++ [p]).
Proof. unfold same_log. intros H. by rewrite !filter_app, H. Qed.

Lemma same_log_other l k i t : i ≠ ip → same_log l k → same_log (l ++ [(i, t)]) k.
Proof.
  unfold same_log. intros Hi H. rewrite filter_app, H, filter_cons_False by done.
  by rewrite app_nil_r.
Qed.

Lemma same_window_count l k now : same_log l k → window_count now ip l = window_count now ip k.
Proof.
  unfold same_log. intros H. rewrite !window_count_times. unfold times. by rewrite H.
Qed.

Lemma same_bannedb h k now :
  same_log (h_bans h) (h_bans k) → bannedb ban now ip h = bannedb ban now ip k.
Proof.
  intros H. apply eq_true_iff_eq. rewrite !bannedb_spec. unfold banned.
  assert (∀ (l : log) t, (ip, t) ∈ l ↔ (ip, t) ∈ filter (λ p : IpAddr * Z, p.1 = ip) l) as Hf.
  { intros l t. rewrite list_elem_of_filter. naive_solver. }
  setoid_rewrite Hf. unfold same_log in H. by rewrite H.
Qed.

Lemma same_step_own c h k :
  client c = ip → same_history h k →
  (spec_step c h).1 = (spec_step c k).1 ∧ same_history (spec_step c h).2 (spec_step c k).2.
Proof.
  destruct c as [now m i]. simpl. intros -> [Hf Hr Hb].
  pose proof (same_log_snoc _ _ (ip, now) Hf) as Hf'.
  pose proof (same_log_snoc _ _ (ip, now) Hr) as Hr'.
  pose proof (same_log_snoc _ _ (ip, now) Hb) as Hb'.
  destruct m.
  - rewrite (same_window_count _ _ now Hf'). by case_match.
  - case_match; [done|]. by rewrite (same_window_count _ _ now Hr').
  - by rewrite (same_bannedb _ _ _ Hb).
  - by rewrite (same_window_count _ _ now Hf).
  - done.
Qed.

Lemma same_step_other c h k :
  client c ≠ ip → same_history h k → same_history (spec_step c h).2 k.
Proof.
  destruct c as [now m i]. simpl. intros Hi [Hf Hr Hb].
  destruct m; repeat case_match; split; simpl; auto using same_log_other.
Qed.

Lemma spec_run_isolated cs h k :
  same_history h k →
  spec_run (filter (λ c, client c = ip) cs) k =
  snd <$> filter (λ p, client p.1 = ip) (zip cs (spec_run cs h)).
Proof.
  revert h k; induction cs as [|c cs IH]; intros h k Hs; [done|].
  cbn [SecuritySpec.spec_run]. destruct (spec_step c h) as [r h'] eqn:E.
  destruct (decide (client c = ip)) as [Hc|Hc].
  - rewrite (filter_cons_True (λ c, client c = ip)) by done.
    change (zip (c :: cs) (r :: ?rs)) with ((c, r) :: zip cs rs).
    rewrite filter_cons_True by done.
    destruct (same_step_own c h k Hc Hs) as [Hr Hs']. cbn [SecuritySpec.spec_run].
    destruct (spec_step c k) as [r' k'] eqn:E'. rewrite E in Hr, Hs'. simplify_eq/=.
    by rewrite (IH h' k').
  - rewrite (filter_cons_False (λ c, client c = ip)) by done.
    change (zip (c :: cs) (r :: ?rs)) with ((c, r) :: zip cs rs).
    rewrite filter_cons_False by done. apply IH.
    pose proof (same_step_other c h k Hc Hs) as Hs'. by rewrite E in Hs'.
Qed.

Lemma chronological_le last last' cs :
  last' ≤ last → chronological last cs → chronological last' cs.
Proof. destruct cs; [done|]. simpl. intros ? [??]. split; [lia|done]. Qed.

Lemma chronological_filter last cs :
  chronological last cs → chronological last (filter (λ c, client c = ip) cs).
Proof.
  revert last; induction cs as [|c cs IH]; intros last; [done|]. intros [Hle Hch].
  apply IH in Hch. rewrite filter_cons. case_decide; [done|].
  by eapply chronological_le.
Qed.

End isolation.

(** ** Lemmas: memory *)

(** The vectors of a map hold only timestamps of the window that ends now, and
    at least one each. *)
Definition fresh_map (now : Z) (m : gmap IpAddr (list Z)) : Prop :=
  ∀ ip l, m !! ip = Some l → l ≠ [] ∧ Forall (λ t, now - t ≤ ROLLING_WINDOW) l.

Definition fresh (now : Z) (s : SecurityManager) : Prop :=
  fresh_map now (tls_failures (inner s)) ∧ fresh_map now (request_tracker (inner s)) ∧
  (∀ ip u, blacklist (inner s) !! ip = Some u → now ≤ u).

Lemma retain_fresh now l : Forall (λ t, now - t ≤ ROLLING_WINDOW) (retain now l).
Proof.
  apply Forall_forall. intros t [Ht _]%list_elem_of_filter. unfold duration_since in Ht. lia.
Qed.

Lemma fresh_retain_map now m : fresh_map now (retain_map now m).
Proof.
  intros ip l. unfold retain_map. rewrite lookup_omap.
  destruct (m !! ip) as [k|]; simpl; [|done]. pose proof (retain_fresh now k).
  destruct (retain now k); intros; simplify_eq. done.
Qed.

Lemma fresh_record now m ip k :
  fresh_map now m → fresh_map now (<[ip := retain now k ++ [now]]> m).
Proof.
  intros Hm ip' l. rewrite lookup_insert_Some. intros [[_ <-]|[_ ?]]; [|by eapply Hm].
  split; [by intros []%app_eq_nil|]. apply Forall_app. split; [apply retain_fresh|].
  repeat constructor. unfold ROLLING_WINDOW, duration_from_secs, nanos_per_sec. lia.
Qed.

Lemma fresh_cleanup now g : fresh now (MkManager (cleanup now g) false).
Proof.
  split_and!; [apply fresh_retain_map..|]. simpl.
  intros ip u [_ ?]%map_lookup_filter_Some. lia.
Qed.

(** ** Properties *)

Lemma rate_limit_run ban max_failures rpm ip t0 cs rs :
  0 < rpm → chronological 0 cs → no_overflow ban cs →
  run cs (new ban max_failures rpm) = Some rs → accepted_count ip t0 cs rs ≤ rpm.
Proof.
  intros Hrpm Hch Hno Hrun.
  erewrite run_sim in Hrun; [|apply new_sim|done|done]. injection Hrun as <-.
  destruct (spec_rate_limit ban max_failures rpm ip t0 cs empty_history Hrpm) as [->|H]; [lia|].
  change (since ip t0 _) with 0 in H. lia.
Qed.

(** The rate limit holds over every window: in any sixty seconds, at most
    [rate_limit_rpm] requests of one address are let through, whatever else
    happens. *)
Theorem rate_limit_enforced (ban max_failures rpm : Z) (ip : IpAddr) (t0 : Z)
  (cs : list call) (rs : list reply)
  (Hrpm : 0 < rpm) (Hch : chronological 0 cs) (Hno : no_overflow ban cs)
  (Hrun : run cs (new ban max_failures rpm) = Some rs) :
  accepted_count ip t0 cs rs ≤ rpm.
Proof. by eapply rate_limit_run. Qed.

(** C23: [is_blacklisted] answers [true] exactly when some earlier call banned
    the address, by a manual ban or by one TLS failure too many, less than
    [ban_duration] ago; nothing else bans, and nothing lifts a ban early. *)
Theorem blacklisted_iff_banned (ban max_failures rpm : Z) (ip : IpAddr) (now : Z)
  (cs : list call) (rs : list reply) (b : bool)
  (Hch : chronological 0 (cs ++ [MkCall now IsBlacklisted ip]))
  (Hno : no_overflow ban (cs ++ [MkCall now IsBlacklisted ip]))
  (Hrun : run (cs ++ [MkCall now IsBlacklisted ip]) (new ban max_failures rpm)
          = Some (rs ++ [RBool b])) :
  b = true ↔
  ∃ i c r, cs !! i = Some c ∧ rs !! i = Some r ∧ imposes_ban ip c r ∧ now < at_time c + ban.
Proof.
  erewrite run_sim in Hrun; [|apply new_sim|done|done]. injection Hrun as Hrun.
  rewrite spec_run_app in Hrun. cbn [spec_run spec_step] in Hrun.
  apply app_inj_tail in Hrun as [<- [= <-]].
  rewrite bannedb_spec. unfold banned. setoid_rewrite spec_state_bans. simpl. split.
  - intros (t & [[]%elem_of_nil|(i & c & r & ? & ? & ? & ->)] & ?). eauto 10.
  - intros (i & c & r & ? & ? & ? & ?). eauto 12.
Qed.

(** C30: clients do not influence each other: the answers to one address are the
    ones the manager would have given had it seen that address's calls only. *)
Theorem clients_isolated (ban max_failures rpm : Z) (ip : IpAddr)
  (cs : list call) (rs : list reply)
  (Hch : chronological 0 cs) (Hno : no_overflow ban cs)
  (Hrun : run cs (new ban max_failures rpm) = Some rs) :
  run (filter (λ c, client c = ip) cs) (new ban max_failures rpm)
  = Some (snd <$> filter (λ p, client p.1 = ip) (zip cs rs)).
Proof.
  erewrite run_sim in Hrun; [|apply new_sim|done|done]. injection Hrun as <-.
  erewrite run_sim; [|apply new_sim|by apply chronological_filter|].
  - f_equal. by apply spec_run_isolated.
  - unfold no_overflow in *. rewrite Forall_forall in *.
    intros c [_ ?]%list_elem_of_filter. auto.
Qed.

(** A recording call leaves nothing stale in memory: afterwards no
    timestamp is older than the window, no vector is empty and no ban lies in
    the past. *)
Theorem recording_evicts_stale (now : Z) (ip : IpAddr) (s s' : SecurityManager)
  (m : op) (r : reply)
  (Hm : m = RecordTlsFailure ∨ m = CheckAndRecordRequest)
  (Hban : 0 ≤ ban_duration (inner s))
  (Hstep : step (MkCall now m ip) s = Done r s') :
  fresh now s'.
Proof.
  pose proof (fresh_cleanup now (inner s)) as (Hf & Hr & Hb).
  destruct Hm as [-> | ->]; simpl in Hstep;
    unfold record_tls_failure, check_and_record_request, instant_add in Hstep;
    repeat case_if; simplify_eq/=; split_and!; simpl; try done; try (by apply fresh_record).
  intros ip' u. rewrite lookup_insert_Some. intros [[_ <-]|[_ ?]]; [lia|by eapply Hb].
Qed.

(** A ban that would end after the last representable instant panics with
    the lock held: the failure that should have banned the address is not
    answered, the mutex is poisoned, and every later call of every method panics
    without changing anything. *)
Theorem ban_overflow_poisons (now : Z) (ip : IpAddr) (s : SecurityManager)
  (Hp : poisoned s = false)
  (Hover : instant_max < now + ban_duration (inner s))
  (Hcount : max_tls_failures (inner s)
            < Z.of_nat (length (retain now (default [] (tls_failures (inner s) !! ip)))) + 1) :
  ∃ s', record_tls_failure now ip s = Panicked s' ∧
    (∀ c, step c s' = Panicked s').
Proof.
  unfold record_tls_failure. rewrite Hp, length_app. cbn [tls_failures cleanup].
  rewrite lookup_retain_map, retain_retain by done. simpl.
  rewrite (proj2 (Z.ltb_lt _ _)) by lia.
  unfold instant_add. rewrite bool_decide_eq_false_2 by lia.
  eexists. split; [done|]. by intros [? [] ?].
Qed.

(** ** Examples *)

Lemma rate_limit_enforced_witness :
  accepted_count sample_ip 1 sample_calls [RResult (Ok 1); RResult (Err 2); RUnit] ≤ 1.
Proof.
  apply (rate_limit_enforced 10 5 1 sample_ip 1 sample_calls).
  - lia.
  - simpl. lia.
  - repeat constructor; simpl; unfold instant_max, nanos_per_sec; lia.
  - vm_compute. reflexivity.
Defined.

Lemma blacklisted_iff_banned_witness :
  ∃ i c r, sample_calls !! i = Some c ∧
    [RResult (Ok 1); RResult (Err 2); RUnit] !! i = Some r ∧ imposes_ban sample_ip c r ∧
    5 < at_time c + 10.
Proof.
  apply (blacklisted_iff_banned 10 5 1 sample_ip 5 sample_calls
    [RResult (Ok 1); RResult (Err 2); RUnit] true).
  - simpl. lia.
  - repeat constructor; simpl; unfold instant_max, nanos_per_sec; lia.
  - vm_compute. reflexivity.
  - reflexivity.
Defined.

Lemma clients_isolated_witness :
  run (filter (λ c, client c = sample_ip) (MkCall 0 AddToBlacklist (V4 9 9 9 9) :: sample_calls))
    (new 10 5 1) =
  Some (snd <$> filter (λ p, client p.1 = sample_ip)
    (zip (MkCall 0 AddToBlacklist (V4 9 9 9 9) :: sample_calls)
       [RUnit; RResult (Ok 1); RResult (Err 2); RUnit])).
Proof.
  apply (clients_isolated 10 5 1 sample_ip).
  - simpl. lia.
  - repeat constructor; simpl; unfold instant_max, nanos_per_sec; lia.
  - vm_compute. reflexivity.
Defined.

Lemma recording_evicts_stale_witness :
  ∃ s', fresh 7 s' ∧ step (MkCall 7 RecordTlsFailure sample_ip) (new 10 5 1) = Done (RBool false) s'.
Proof.
  eexists. split; [|reflexivity].
  apply (recording_evicts_stale 7 sample_ip (new 10 5 1) _ RecordTlsFailure (RBool false)).
  - by left.
  - simpl. lia.
  - reflexivity.
Defined.
