(* ===== verification/Cache.v ===== *)
(** * The static asset cache: [src/src/cache.rs]

    [LruCacheEngine] wraps [lru::LruCache], a third-party container.  The
    container is an interface: [LruOps] has the operations the engine calls and
    [LruLaws] their documented behaviour, over a view of the container as the
    list of its entries with the most recently used first.  [ListLru] at the end
    of the file shows that the laws can be satisfied.

    The header map stored with an asset is opaque to the engine and is a
    parameter.  Additions on [usize] are those of a release build. *)

From S2P Require Import Prelude RustStr NetAddr Log Config Security.

(** ** The container *)

Section assoc.
Context {V : Type}.

(** The first entry with a key, and the entries without it. *)
Fixpoint assoc (k : str) (es : list (str * V)) : option V :=
  match es with
  | [] => None
  | (k', v) :: es' => if str_eqb k k' then Some v else assoc k es'
  end.

Fixpoint remove_key (k : str) (es : list (str * V)) : list (str * V) :=
  match es with
  | [] => []
  | (k', v) :: es' => if str_eqb k k' then remove_key k es' else (k', v) :: remove_key k es'
  end.
End assoc.

Class LruOps (L : Type → Type) : Type := {
  lru_new : ∀ {V}, nat → L V;
  lru_get_mut : ∀ {V}, str → L V → option V * L V;
  lru_pop : ∀ {V}, str → L V → option V * L V;
  lru_pop_lru : ∀ {V}, L V → option (str * V) * L V;
  lru_put : ∀ {V}, str → V → L V → option V * L V;
  lru_len : ∀ {V}, L V → nat;
  lru_is_empty : ∀ {V}, L V → bool }.

Class LruLaws (L : Type → Type) `{LruOps L} : Type := {
  lru_entries : ∀ {V}, L V → list (str * V);
  lru_cap : ∀ {V}, L V → nat;
  lru_new_spec : ∀ {V} n, lru_entries (lru_new n : L V) = [] ∧ lru_cap (lru_new n : L V) = n;
  lru_get_mut_spec : ∀ {V} k (l : L V),
    (lru_get_mut k l).1 = assoc k (lru_entries l) ∧
    lru_entries (lru_get_mut k l).2 =
      match assoc k (lru_entries l) with
      | Some v => (k, v) :: remove_key k (lru_entries l)
      | None => lru_entries l
      end ∧
    lru_cap (lru_get_mut k l).2 = lru_cap l;
  lru_pop_spec : ∀ {V} k (l : L V),
    (lru_pop k l).1 = assoc k (lru_entries l) ∧
    lru_entries (lru_pop k l).2 = remove_key k (lru_entries l) ∧
    lru_cap (lru_pop k l).2 = lru_cap l;
  lru_pop_lru_spec : ∀ {V} (l : L V),
    (lru_pop_lru l).1 = last (lru_entries l) ∧
    lru_entries (lru_pop_lru l).2 = removelast (lru_entries l) ∧
    lru_cap (lru_pop_lru l).2 = lru_cap l;
  lru_put_spec : ∀ {V} k v (l : L V),
    (lru_put k v l).1 = assoc k (lru_entries l) ∧
    lru_entries (lru_put k v l).2 =
      (k, v) :: (if bool_decide (is_Some (assoc k (lru_entries l))) then
                   remove_key k (lru_entries l)
                 else if bool_decide (length (lru_entries l) < lru_cap l)%nat then lru_entries l
                 else removelast (lru_entries l)) ∧
    lru_cap (lru_put k v l).2 = lru_cap l;
  lru_len_spec : ∀ {V} (l : L V), lru_len l = length (lru_entries l);
  lru_is_empty_spec : ∀ {V} (l : L V),
    lru_is_empty l = bool_decide (lru_entries l = []) }.

(** ** The engine *)

Section engine.
Context {L : Type → Type} `{LruOps L} {HeaderMap : Type}.

(** [struct CachedAsset] *)
Record CachedAsset : Type := MkCachedAsset {
  asset_status : Z;
  asset_headers : HeaderMap;
  asset_body : str;
  created_at : Z;
  ttl : Z;
  size_bytes : Z }.

(** [CachedAsset::is_expired], with the clock's answer *)
Definition is_expired (now : Z) (a : CachedAsset) : bool :=
  ttl a <=? duration_since now (created_at a).

(** [struct LruCacheEngine]: two locks with their poison flags *)
Record LruCacheEngine : Type := MkEngine {
  cache_inner : L CachedAsset;
  cache_inner_poisoned : bool;
  max_capacity_bytes : Z;
  max_file_size_bytes : Z;
  default_ttl : Z;
  current_memory : Z;
  current_memory_poisoned : bool }.

(** [struct InsertResult] *)
Record InsertResult : Type := MkInsertResult {
  inserted : bool;
  bytes_inserted : Z;
  bytes_evicted : Z;
  items_evicted : Z;
  reason : option str }.

Definition lru_capacity : nat := Z.to_nat 10000.
#[global] Arguments lru_capacity : simpl never.

(** [LruCacheEngine::new] *)
Definition cache_new (max_capacity max_file ttl_sec : Z) : LruCacheEngine :=
  MkEngine (lru_new lru_capacity) false max_capacity max_file (duration_from_secs ttl_sec)
    0 false.

Definition with_cache (e : LruCacheEngine) (l : L CachedAsset) (mem : Z) : LruCacheEngine :=
  MkEngine l (cache_inner_poisoned e) (max_capacity_bytes e) (max_file_size_bytes e)
    (default_ttl e) mem (current_memory_poisoned e).

(** [LruCacheEngine::get] *)
Definition cache_get (now : Z) (key : str) (e : LruCacheEngine) :
    option CachedAsset * LruCacheEngine :=
  if cache_inner_poisoned e then (None, e)
  else
    let '(found, l) := lru_get_mut key (cache_inner e) in
    match found with
    | Some item =>
        if is_expired now item then
          let l := (lru_pop key l).2 in
          let mem := if current_memory_poisoned e then current_memory e
                     else saturating_sub (current_memory e) (size_bytes item) in
          (None, with_cache e l mem)
        else (Some item, with_cache e l (current_memory e))
    | None => (None, with_cache e l (current_memory e))
    end.

(** The eviction loop of [insert], with the loop's variables: the container, the
    byte counter, and the two statistics.  [fuel] bounds the iterations; the
    number of entries is enough, as each iteration removes one. *)
Fixpoint evict (fuel : nat) (cap size : Z) (l : L CachedAsset) (mem bytes items : Z) :
    L CachedAsset * Z * Z * Z :=
  match fuel with
  | O => (l, mem, bytes, items)
  | S fuel' =>
      if (cap <? usize_wrap (mem + size)) && negb (lru_is_empty l) then
        match lru_pop_lru l with
        | (Some (_, item), l') =>
            evict fuel' cap size l' (saturating_sub mem (size_bytes item))
              (usize_wrap (bytes + size_bytes item)) (usize_wrap (items + 1))
        | (None, l') => (l', mem, bytes, items)
        end
      else (l, mem, bytes, items)
  end.

(** The lines the loop logs, one for each entry it evicts *)
Fixpoint evict_log (fuel : nat) (cap size : Z) (l : L CachedAsset) (mem : Z) : list LogRecord :=
  match fuel with
  | O => []
  | S fuel' =>
      if (cap <? usize_wrap (mem + size)) && negb (lru_is_empty l) then
        match lru_pop_lru l with
        | (Some (evicted_key, item), l') =>
            let mem := saturating_sub mem (size_bytes item) in
            MkLogRecord DEBUG (lit "cache_eviction")
              ["evicted_key" ⇒ evicted_key; "evicted_bytes" ⇒ fmt (size_bytes item);
               "current_memory_bytes" ⇒ fmt mem]
            :: evict_log fuel' cap size l' mem
        | (None, _) => []
        end
      else []
  end.

Definition refuse (why : str) : InsertResult := MkInsertResult false 0 0 0 (Some why).

(** [LruCacheEngine::insert] *)
Definition cache_insert (now : Z) (key : str) (status : Z) (headers : HeaderMap) (body : str)
    (ttl_override : option Z) (e : LruCacheEngine) : InsertResult * LruCacheEngine :=
  let size := Z.of_nat (length body) in
  if max_file_size_bytes e <? size then (refuse (lit "exceeds_max_file_size"), e)
  else if max_capacity_bytes e <? size then (refuse (lit "exceeds_max_capacity"), e)
  else
    let asset := MkCachedAsset status headers body now (default (default_ttl e) ttl_override) size in
    if cache_inner_poisoned e then (refuse (lit "lock_error"), e)
    else if current_memory_poisoned e then (refuse (lit "lock_error"), e)
    else
      let '(l, mem, bytes, items) :=
        evict (lru_len (cache_inner e)) (max_capacity_bytes e) size (cache_inner e)
          (current_memory e) 0 0 in
      if usize_wrap (mem + size) <=? max_capacity_bytes e then
        let '(old, l) := lru_put key asset l in
        let mem := match old with
                   | Some old => saturating_sub mem (size_bytes old)
                   | None => mem
                   end in
        (MkInsertResult true size bytes items None, with_cache e l (usize_wrap (mem + size)))
      else
        (MkInsertResult false 0 bytes items (Some (lit "capacity_full_after_eviction")),
         with_cache e l mem).

(** The lines [insert] logs *)
Definition cache_insert_log (body : str) (e : LruCacheEngine) : list LogRecord :=
  let size := Z.of_nat (length body) in
  if (max_file_size_bytes e <? size) || (max_capacity_bytes e <? size)
     || cache_inner_poisoned e || current_memory_poisoned e
  then []
  else evict_log (lru_len (cache_inner e)) (max_capacity_bytes e) size (cache_inner e)
         (current_memory e).

(** [current_memory_bytes], [entry_count] *)
Definition current_memory_bytes (e : LruCacheEngine) : Z :=
  if current_memory_poisoned e then 0 else current_memory e.

Definition entry_count (e : LruCacheEngine) : Z :=
  if cache_inner_poisoned e then 0 else Z.of_nat (lru_len (cache_inner e)).

End engine.
Arguments CachedAsset : clear implicits.
Arguments LruCacheEngine L HeaderMap : clear implicits.

(** ** A container that satisfies the laws *)

Record ListLru (V : Type) : Type := MkListLru {
  list_cap : nat;
  list_entries : list (str * V) }.
Arguments MkListLru {V} _ _.
Arguments list_cap {V} _.
Arguments list_entries {V} _.

#[export] Instance ListLru_ops : LruOps ListLru := {
  lru_new V n := MkListLru n [];
  lru_get_mut V k l :=
    match assoc k (list_entries l) with
    | Some v => (Some v, MkListLru (list_cap l) ((k, v) :: remove_key k (list_entries l)))
    | None => (None, l)
    end;
  lru_pop V k l :=
    (assoc k (list_entries l), MkListLru (list_cap l) (remove_key k (list_entries l)));
  lru_pop_lru V l :=
    (last (list_entries l), MkListLru (list_cap l) (removelast (list_entries l)));
  lru_put V k v l :=
    match assoc k (list_entries l) with
    | Some old => (Some old, MkListLru (list_cap l) ((k, v) :: remove_key k (list_entries l)))
    | None =>
        (None,
         MkListLru (list_cap l)
           ((k, v) :: if bool_decide (length (list_entries l) < list_cap l)%nat
                      then list_entries l else removelast (list_entries l)))
    end;
  lru_len V l := length (list_entries l);
  lru_is_empty V l := match list_entries l with [] => true | _ => false end }.

#[export] Instance ListLru_laws : LruLaws ListLru.
Proof.
  refine {| lru_entries V := list_entries; lru_cap V := list_cap |}; intros V; simpl.
  - done.
  - intros k l. by destruct (assoc k (list_entries l)).
  - done.
  - done.
  - intros k v l. by destruct (assoc k (list_entries l)).
  - done.
  - intros l. by destruct (list_entries l).
Defined.

(** ** Which responses are static assets *)

Definition is_uncacheable_entrypoint (path : str) : bool :=
  let lower_path := to_lowercase path in
  ends_with lower_path (lit "sw.js")
  || contains lower_path (lit "service-worker")
  || contains lower_path (lit "registersw")
  || contains lower_path (lit "workbox")
  || ends_with lower_path (lit ".webmanifest")
  || ends_with lower_path (lit ".html")
  || str_eqb lower_path (lit "/").

Definition static_extensions : list str :=
  lit <$> [".css"; ".js"; ".png"; ".jpg"; ".jpeg"; ".svg"; ".ico"; ".woff2"; ".woff";
           ".ttf"; ".webp"; ".json"; ".wasm"]%string.

Definition static_content_types : list str :=
  lit <$> ["text/css"; "application/javascript"; "text/javascript"; "image/"; "font/";
           "application/wasm"]%string.

Definition is_static_asset (path : str) (content_type : option str) : bool :=
  if is_uncacheable_entrypoint path then false
  else
    let lower_path := to_lowercase path in
    if existsb (ends_with lower_path) static_extensions then true
    else
      match content_type with
      | Some ct =>
          let ct_lower := to_lowercase ct in
          if contains ct_lower (lit "text/html") then false
          else existsb (contains ct_lower) static_content_types
      | None => false
      end.
