(* ===== verification/CacheSpec.v ===== *)
(** * What the static asset cache promises

    The engine of [Cache.v] is run by sequences of lookups and insertions.  The
    memory bound and the well-formedness of its entries are an invariant of every
    reachable engine, for every container that satisfies [LruLaws].  A second
    group of theorems gives the functional behaviour: what an insertion evicts,
    when it is accepted, and that a fresh entry is found again until it expires.
    The last part shows the one way the byte counter drifts from the entries. *)

From S2P Require Import Prelude RustStr NetAddr Config Security Cache.

(** ** Association lists *)

Section assoc_lemmas.
Context {V : Type}.
Implicit Types es : list (str * V).

Lemma assoc_None k es : assoc k es = None ↔ k ∉ es.*1.
Proof.
  induction es as [|[k' v] es IH]; simpl; [set_solver|].
  unfold str_eqb. case_bool_decide; set_solver.
Qed.

Lemma assoc_elem k es v : assoc k es = Some v → (k, v) ∈ es.
Proof.
  induction es as [|[k' v'] es IH]; simpl; [done|].
  unfold str_eqb. case_bool_decide; set_solver.
Qed.

Lemma remove_key_elem k es x : x ∈ remove_key k es ↔ x ∈ es ∧ x.1 ≠ k.
Proof.
  induction es as [|[k' v'] es IH]; simpl; [set_solver|].
  unfold str_eqb. case_bool_decide; set_solver.
Qed.

Lemma remove_key_id k es : k ∉ es.*1 → remove_key k es = es.
Proof.
  induction es as [|[k' v'] es IH]; simpl; [done|]. intros Hk.
  unfold str_eqb. rewrite bool_decide_eq_false_2 by set_solver.
  rewrite IH; set_solver.
Qed.

Lemma remove_key_fresh k es : k ∉ (remove_key k es).*1.
Proof. intros ([? ?]&->&[_ ?]%remove_key_elem)%list_elem_of_fmap. done. Qed.

Lemma remove_key_NoDup k es : NoDup es.*1 → NoDup (remove_key k es).*1.
Proof.
  induction es as [|[k' v'] es IH]; simpl; [done|].
  unfold str_eqb. intros [Hk' ?]%NoDup_cons. case_bool_decide; [by auto|].
  simpl. apply NoDup_cons. split; [|by auto].
  intros ([k2 v]&->&[? _]%remove_key_elem)%list_elem_of_fmap.
  apply Hk'. apply list_elem_of_fmap. by exists (k2, v).
Qed.

Lemma remove_key_length k es :
  NoDup es.*1 → is_Some (assoc k es) → length es = S (length (remove_key k es)).
Proof.
  induction es as [|[k' v'] es IH]; simpl; [by intros _ [? ?]|].
  unfold str_eqb. intros [Hk' ?]%NoDup_cons. case_bool_decide as Heq.
  - subst. by rewrite remove_key_id.
  - intros ?. simpl. f_equal. by apply IH.
Qed.

Lemma removelast_snoc es x : last es = Some x → es = removelast es ++ [x].
Proof.
  intros [l ->]%last_Some. by rewrite removelast_last.
Qed.
End assoc_lemmas.

(** ** The accounting of an engine *)

Section accounting.
Context {HeaderMap : Type}.
#[local] Abbreviation entry := (str * CachedAsset HeaderMap)%type.

(** The bytes held by a list of entries. *)
Definition total (es : list entry) : Z := foldr (λ x acc, size_bytes x.2 + acc) 0 es.

Definition asset_ok (max_file : Z) (a : CachedAsset HeaderMap) : Prop :=
  size_bytes a = Z.of_nat (length (asset_body a)) ∧ size_bytes a ≤ max_file.

Lemma total_cons x es : total (x :: es) = size_bytes x.2 + total es.
Proof. done. Qed.

Lemma total_singleton x : total [x] = size_bytes x.2.
Proof. apply Z.add_0_r. Qed.

Lemma total_app es1 es2 : total (es1 ++ es2) = total es1 + total es2.
Proof. induction es1 as [|x es1 IH]; simpl; [done|]. rewrite IH. lia. Qed.

Lemma total_nonneg max_file es : Forall (λ x, asset_ok max_file x.2) es → 0 ≤ total es.
Proof. induction 1 as [|x es [? ?]]; simpl; lia. Qed.

Lemma total_remove_key k a es :
  NoDup es.*1 → assoc k es = Some a → total es = size_bytes a + total (remove_key k es).
Proof.
  induction es as [|[k' a'] es IH]; simpl; [done|].
  intros [Hk' ?]%NoDup_cons. unfold str_eqb. case_bool_decide.
  - intros [= ->]. subst. by rewrite remove_key_id.
  - intros ?. simpl. rewrite IH by done. lia.
Qed.

Lemma remove_key_Forall (P : entry → Prop) k es : Forall P es → Forall P (remove_key k es).
Proof. rewrite !Forall_forall. intros ? x [? _]%remove_key_elem. auto. Qed.

(** Entries in order of use with their counter: keys are distinct, sizes are the
    bodies' and within the file limit, there are at most [cap] of them, and the
    counter covers them. *)
Record entries_ok (cap : nat) (max_file : Z) (es : list entry) (mem : Z) : Prop := {
  ok_nodup : NoDup es.*1;
  ok_sizes : Forall (λ x, asset_ok max_file x.2) es;
  ok_length : (length es ≤ cap)%nat;
  ok_covered : total es ≤ mem }.

Lemma entries_ok_nonneg cap max_file es mem : entries_ok cap max_file es mem → 0 ≤ total es.
Proof. intros [_ ? _ _]. by eapply total_nonneg. Qed.

(** Moving an entry to the front keeps all of this, and so does dropping one
    with its bytes. *)
Lemma entries_ok_touch cap max_file es mem k a :
  entries_ok cap max_file es mem → assoc k es = Some a →
  entries_ok cap max_file ((k, a) :: remove_key k es) mem.
Proof.
  intros [Hnd Hs Hl Hc] Ha. split.
  - rewrite fmap_cons. apply NoDup_cons. eauto using remove_key_fresh, remove_key_NoDup.
  - constructor; [|by apply remove_key_Forall].
    rewrite Forall_forall in Hs. apply (Hs (k, a)). by apply assoc_elem.
  - simpl. rewrite <- remove_key_length; eauto.
  - simpl. rewrite <- total_remove_key; eauto.
Qed.

Lemma entries_ok_pop cap max_file es mem k a :
  entries_ok cap max_file es mem → assoc k es = Some a →
  entries_ok cap max_file (remove_key k es) (saturating_sub mem (size_bytes a)).
Proof.
  intros [Hnd Hs Hl Hc] Ha. split.
  - by apply remove_key_NoDup.
  - by apply remove_key_Forall.
  - pose proof (remove_key_length k es Hnd ltac:(eauto)). lia.
  - pose proof (total_remove_key k a es Hnd Ha). unfold saturating_sub. lia.
Qed.

Lemma entries_ok_prefix cap max_file es x mem :
  entries_ok cap max_file (es ++ [x]) mem →
  entries_ok cap max_file es (saturating_sub mem (size_bytes x.2)).
Proof.
  intros [Hnd Hs Hl Hc]. rewrite fmap_app in Hnd. apply NoDup_app in Hnd as (? & _ & _).
  apply Forall_app in Hs as [? _]. rewrite length_app in Hl. rewrite total_app in Hc.
  simpl in *. split; [done|done|lia|unfold saturating_sub; lia].
Qed.

Lemma entries_ok_weaken cap max_file es mem mem' :
  mem ≤ mem' → entries_ok cap max_file es mem → entries_ok cap max_file es mem'.
Proof. intros ? [? ? ? ?]. split; auto; lia. Qed.
End accounting.

(** ** Engines *)

Section engines.
Context {L : Type → Type} `{LruLaws L} {HeaderMap : Type}.
#[local] Abbreviation asset := (CachedAsset HeaderMap).
#[local] Abbreviation engine := (LruCacheEngine L HeaderMap).
Implicit Types (e : engine) (l : L asset).

(** The entries of an engine, most recently used first. *)
Definition entries (e : engine) : list (str * asset) := lru_entries (cache_inner e).

(** Capacities for which the counter's additions do not wrap. *)
Definition capacity_ok (cap : Z) : Prop := 0 ≤ cap < 2 ^ 63.

Record engine_ok (e : engine) : Prop := {
  engine_locks : cache_inner_poisoned e = false ∧ current_memory_poisoned e = false;
  engine_cap : lru_cap (cache_inner e) = lru_capacity;
  engine_entries : entries_ok lru_capacity (max_file_size_bytes e) (entries e) (current_memory e);
  engine_capacity : capacity_ok (max_capacity_bytes e);
  engine_bound : current_memory e ≤ max_capacity_bytes e }.

(** The calls the proxy makes. *)
Inductive cache_op : Type :=
| CacheGet (now : Z) (key : str)
| CacheInsert (now : Z) (key : str) (status : Z) (headers : HeaderMap) (body : str)
    (ttl_override : option Z).

Definition cache_step (e : engine) (o : cache_op) : engine :=
  match o with
  | CacheGet now key => (cache_get now key e).2
  | CacheInsert now key status headers body ttl =>
      (cache_insert now key status headers body ttl e).2
  end.

Inductive reachable (cap max_file ttl_sec : Z) : engine → Prop :=
| reach_new : reachable cap max_file ttl_sec (cache_new cap max_file ttl_sec)
| reach_step e o :
    reachable cap max_file ttl_sec e → reachable cap max_file ttl_sec (cache_step e o).

(** *** Lookups *)

Lemma cache_get_ok now key e : engine_ok e → engine_ok (cache_get now key e).2.
Proof.
  intros [[Hl1 Hl2] Hc He Hcap Hb]. unfold cache_get. rewrite Hl1, Hl2.
  pose proof (lru_get_mut_spec key (cache_inner e)) as (Hg1 & Hg2 & Hg3).
  destruct (lru_get_mut key (cache_inner e)) as [found l]. simpl in *.
  fold (entries e) in *.
  destruct found as [a|]; rewrite <- Hg1 in Hg2; [case_if|]; simpl.
  - pose proof (lru_pop_spec key l) as (_ & Hp2 & Hp3).
    split; unfold entries; simpl; rewrite ?Hp2, ?Hp3, ?Hg2, ?Hg3; auto.
    + simpl. unfold str_eqb. rewrite bool_decide_eq_true_2 by done.
      rewrite remove_key_id by apply remove_key_fresh.
      by apply entries_ok_pop.
    + pose proof (entries_ok_nonneg _ _ _ _ He). destruct He, Hcap.
      pose proof (total_remove_key key a (entries e)). unfold saturating_sub.
      assert (0 ≤ size_bytes a); [|lia].
      rewrite Forall_forall in ok_sizes0.
      destruct (ok_sizes0 (key, a)) as [? _]; [by apply assoc_elem|simpl in *; lia].
  - split; unfold entries; simpl; rewrite ?Hg2, ?Hg3; auto using entries_ok_touch.
  - split; unfold entries; simpl; rewrite ?Hg2, ?Hg3; auto.
Qed.

(** *** The eviction loop *)

Lemma evict_spec max_file fuel cap size l mem bytes items :
  entries_ok lru_capacity max_file (lru_entries l) mem →
  capacity_ok cap → mem ≤ cap → 0 ≤ size ≤ cap → (length (lru_entries l) ≤ fuel)%nat →
  0 ≤ bytes → bytes + total (lru_entries l) ≤ usize_max →
  0 ≤ items → items + Z.of_nat (length (lru_entries l)) ≤ usize_max →
  ∃ l' gone, lru_entries l = lru_entries l' ++ gone ∧ lru_cap l' = lru_cap l ∧
    evict fuel cap size l mem bytes items =
      (l', mem - total gone, bytes + total gone, items + Z.of_nat (length gone)) ∧
    entries_ok lru_capacity max_file (lru_entries l') (mem - total gone) ∧ 0 ≤ total gone ∧
    (gone = [] ∨ cap < mem - total (tail gone) + size) ∧
    (mem - total gone + size ≤ cap ∨ lru_entries l' = []).
Proof.
  intros He [Hc0 Hc63] Hmem Hsize. revert l mem bytes items He Hmem.
  induction fuel as [|fuel IH]; intros l mem bytes items He Hmem Hf Hb0 Hb Hi0 Hi; simpl.
  { exists l, []. destruct (lru_entries l) eqn:Hl; [|simpl in Hf; lia].
    rewrite app_nil_r. simpl. rewrite !Z.add_0_r, !Z.sub_0_r. naive_solver lia. }
  pose proof (entries_ok_nonneg _ _ _ _ He) as Htot. pose proof (ok_covered _ _ _ _ He) as Hcov.
  rewrite usize_wrap_small by (unfold usize_max, u64_max; lia).
  destruct (Z.ltb_spec cap (mem + size)) as [Hfull|Hfits]; simpl; cycle 1.
  { exists l, []. rewrite app_nil_r. simpl. rewrite !Z.add_0_r, !Z.sub_0_r. naive_solver lia. }
  rewrite lru_is_empty_spec. case_bool_decide as Hempty; simpl.
  { exists l, []. rewrite app_nil_r. simpl. rewrite !Z.add_0_r, !Z.sub_0_r. naive_solver lia. }
  pose proof (lru_pop_lru_spec l) as (Hp1 & Hp2 & Hp3).
  destruct (lru_pop_lru l) as [out l1]. simpl in *.
  destruct out as [[k a]|]; [|symmetry in Hp1; by apply last_None in Hp1].
  pose proof (removelast_snoc _ _ (eq_sym Hp1)) as Hsnoc. rewrite <- Hp2 in Hsnoc.
  rewrite Hsnoc in He, Hb, Hi, Hf, Htot, Hcov. rewrite total_app in Hb, Htot, Hcov.
  rewrite length_app in Hi, Hf. simpl in Hb, Hi, Hf, Htot, Hcov.
  pose proof (entries_ok_prefix _ _ _ _ _ He) as He1. simpl in He1.
  pose proof (entries_ok_nonneg _ _ _ _ He1) as Htot1.
  assert (0 ≤ size_bytes a) as Ha.
  { pose proof (ok_sizes _ _ _ _ He) as Hs. rewrite Forall_app, Forall_singleton in Hs.
    destruct Hs as [_ [Hs _]]. simpl in Hs. lia. }
  rewrite (usize_wrap_small (bytes + _)), (usize_wrap_small (items + _)) by lia.
  rewrite saturating_sub_exact in * by lia.
  destruct (IH l1 (mem - size_bytes a) (bytes + size_bytes a) (items + 1))
    as (l' & gone & Hsplit & Hcap' & Hev & He' & Hg0 & Hmin & Hend); try lia; auto.
  exists l', (gone ++ [(k, a)]). rewrite total_app, length_app. simpl.
  replace (mem - (total gone + (size_bytes a + 0))) with (mem - size_bytes a - total gone) by lia.
  split_and!; auto; try lia.
  - by rewrite Hsnoc, Hsplit, app_assoc.
  - rewrite Hev. f_equal; [f_equal|]; lia.
  - right. destruct gone as [|x gone]; simpl; [lia|]. rewrite total_app. simpl in *.
    destruct Hmin as [?|?]; [done|lia].
Qed.

(** *** Insertions *)

(** What a [put] leaves of the entries that were there. *)
Definition after_put (key : str) (es : list (str * asset)) : list (str * asset) :=
  if bool_decide (is_Some (assoc key es)) then remove_key key es
  else if bool_decide (length es < lru_capacity)%nat then es
  else removelast es.

(** The bytes a [put] releases: those of the entry it replaces. *)
Definition replaced (key : str) (es : list (str * asset)) : Z :=
  from_option size_bytes 0 (assoc key es).

(** The eviction a body of [size] bytes needs: the least recently used entries
    [gone], no more of them than needed. *)
Definition evicts (e : engine) (size : Z) (kept gone : list (str * asset)) : Prop :=
  entries e = kept ++ gone ∧
  (gone = [] ∨ max_capacity_bytes e < current_memory e - total (tail gone) + size) ∧
  (current_memory e - total gone + size ≤ max_capacity_bytes e ∨ kept = []).

Definition stored (now status : Z) (headers : HeaderMap) (body : str) (ttl : option Z)
    (e : engine) : asset :=
  MkCachedAsset status headers body now (default (default_ttl e) ttl) (Z.of_nat (length body)).

Lemma insert_spec now key status headers body ttl e (size := Z.of_nat (length body)) :
  engine_ok e → size ≤ max_file_size_bytes e → size ≤ max_capacity_bytes e →
  ∃ l kept gone (fits := bool_decide (current_memory e - total gone + size ≤ max_capacity_bytes e))
    (mem := current_memory e - total gone),
    evicts e size kept gone ∧ 0 ≤ total gone ∧
    entries_ok lru_capacity (max_file_size_bytes e) kept mem ∧
    lru_cap l = lru_capacity ∧
    lru_entries l = (if fits then (key, stored now status headers body ttl e) :: after_put key kept
                     else kept) ∧
    cache_insert now key status headers body ttl e =
      (MkInsertResult fits (if fits then size else 0) (total gone) (Z.of_nat (length gone))
         (if fits then None else Some (lit "capacity_full_after_eviction")),
       with_cache e l (if fits then mem - replaced key kept + size else mem)).
Proof.
  intros [[Hl1 Hl2] Hc He [Hc0 Hc63] Hb] Hf Hcap. unfold cache_insert. fold size.
  rewrite (proj2 (Z.ltb_ge _ _) Hf), (proj2 (Z.ltb_ge _ _) Hcap), Hl1, Hl2.
  pose proof (entries_ok_nonneg _ _ _ _ He) as Htot. pose proof (ok_covered _ _ _ _ He) as Hcov.
  pose proof (ok_length _ _ _ _ He) as Hlen. unfold lru_capacity in Hlen.
  rewrite lru_len_spec. unfold entries in *.
  destruct (evict_spec (max_file_size_bytes e) (length (lru_entries (cache_inner e)))
    (max_capacity_bytes e) size (cache_inner e) (current_memory e) 0 0)
    as (l' & gone & Hsplit & Hcap' & Hev & He' & Hg0 & Hmin & Hend);
    unfold capacity_ok, usize_max, u64_max in *; auto; try lia.
  rewrite Hev, !Z.add_0_l.
  pose proof (ok_covered _ _ _ _ He') as Hcov'. pose proof (entries_ok_nonneg _ _ _ _ He').
  rewrite usize_wrap_small by (unfold usize_max, u64_max; lia).
  destruct (decide (current_memory e - total gone + size ≤ max_capacity_bytes e)) as [Hfits|Hfits].
  - rewrite (proj2 (Z.leb_le _ _) Hfits).
    pose proof (lru_put_spec key (stored now status headers body ttl e) l') as (Hp1 & Hp2 & Hp3).
    unfold stored in Hp1, Hp2, Hp3. fold size in Hp1, Hp2, Hp3.
    destruct (lru_put key _ l') as [old l] eqn:Hput. simpl in Hp1, Hp2, Hp3.
    exists l, (lru_entries l'), gone. rewrite bool_decide_eq_true_2 by done.
    rewrite Hp2, Hp3, Hcap', Hc. split_and!; unfold evicts; auto.
    unfold replaced. rewrite <- Hp1. do 2 f_equal.
    destruct old as [a|]; simpl; [|rewrite usize_wrap_small; unfold usize_max, u64_max; lia].
    pose proof (total_remove_key key a _ (ok_nodup _ _ _ _ He') (eq_sym Hp1)).
    pose proof (total_nonneg _ _ (remove_key_Forall _ key _ (ok_sizes _ _ _ _ He'))).
    pose proof (proj1 (Forall_forall _ _) (ok_sizes _ _ _ _ He') (key, a)
      (assoc_elem _ _ _ (eq_sym Hp1))) as [? _].
    simpl in *. rewrite saturating_sub_exact by lia.
    apply usize_wrap_small. unfold usize_max, u64_max. lia.
  - rewrite (proj2 (Z.leb_gt _ _)) by lia.
    exists l', (lru_entries l'), gone. rewrite bool_decide_eq_false_2 by done.
    rewrite Hcap'. split_and!; unfold evicts; auto.
Qed.

Lemma after_put_ok max_file key es mem :
  entries_ok lru_capacity max_file es mem →
  entries_ok lru_capacity max_file (after_put key es) (mem - replaced key es) ∧
  (key ∉ (after_put key es).*1) ∧ (length (after_put key es) < lru_capacity)%nat.
Proof.
  intros He. pose proof (ok_length _ _ _ _ He). unfold after_put, replaced.
  destruct (assoc key es) as [a|] eqn:Ha; simpl.
  - pose proof (remove_key_length key es (ok_nodup _ _ _ _ He) ltac:(eauto)) as Hlen.
    pose proof (ok_covered _ _ _ _ He).
    pose proof (total_remove_key key a es (ok_nodup _ _ _ _ He) Ha).
    split_and!; [|apply remove_key_fresh|lia].
    destruct He. split; [by apply remove_key_NoDup|by apply remove_key_Forall|lia|lia].
  - apply assoc_None in Ha. rewrite Z.sub_0_r. case_bool_decide; [done|].
    destruct (last es) as [x|] eqn:Hx; cycle 1.
    { apply last_None in Hx as ->. simpl in *. unfold lru_capacity in *. lia. }
    rewrite (removelast_snoc _ _ Hx) in He, Ha. rewrite fmap_app in Ha.
    pose proof (ok_length _ _ _ _ He) as Hlen. rewrite length_app in Hlen. simpl in Hlen.
    split_and!; [|set_solver|lia].
    eapply entries_ok_weaken; [|by apply entries_ok_prefix].
    pose proof (ok_sizes _ _ _ _ He) as Hs. rewrite Forall_app, Forall_singleton in Hs.
    destruct Hs as [Hs [Hs' _]]. apply total_nonneg in Hs.
    pose proof (ok_covered _ _ _ _ He) as Hcov. rewrite total_app in Hcov. simpl in Hcov.
    unfold saturating_sub. lia.
Qed.

Lemma cache_insert_ok now key status headers body ttl e :
  engine_ok e → engine_ok (cache_insert now key status headers body ttl e).2.
Proof.
  intros He.
  destruct (decide (max_file_size_bytes e < Z.of_nat (length body))) as [Hf|Hf].
  { unfold cache_insert. by rewrite (proj2 (Z.ltb_lt _ _) Hf). }
  destruct (decide (max_capacity_bytes e < Z.of_nat (length body))) as [Hc|Hc].
  { unfold cache_insert. rewrite (proj2 (Z.ltb_ge _ _)) by lia.
    by rewrite (proj2 (Z.ltb_lt _ _) Hc). }
  destruct (insert_spec now key status headers body ttl e He)
    as (l & kept & gone & Hev & Hg0 & Hk & Hlcap & Hl & ->); [lia..|].
  destruct He as [Hlocks _ _ Hcap Hb]. simpl.
  pose proof (entries_ok_nonneg _ _ _ _ Hk).
  case_bool_decide as Hfits; split; unfold entries; simpl; try rewrite Hl; auto; [| |lia].
  - destruct (after_put_ok _ key kept _ Hk) as (Hp & Hfresh & Hlen). split; simpl.
    + apply NoDup_cons. split; [done|apply Hp].
    + constructor; [|apply Hp]. split; simpl; [done|lia].
    + lia.
    + pose proof (ok_covered _ _ _ _ Hp). lia.
  - destruct (after_put_ok _ key kept _ Hk) as (Hp & Hfresh & Hlen).
    unfold replaced. destruct (assoc key kept) as [a|] eqn:Ha; simpl; [|lia].
    apply assoc_elem in Ha. pose proof (ok_sizes _ _ _ _ Hk) as Hs.
    rewrite Forall_forall in Hs. destruct (Hs _ Ha) as [Hsz _]. simpl in Hsz. lia.
Qed.

(** *** Where entries come from *)

Lemma cache_get_found now key e a :
  (cache_get now key e).1 = Some a → (key, a) ∈ entries e ∧ is_expired now a = false.
Proof.
  unfold cache_get, entries. case_if; [done|].
  pose proof (lru_get_mut_spec key (cache_inner e)) as (Hg & _).
  destruct (lru_get_mut key (cache_inner e)) as [found l]. simpl in Hg. subst found.
  destruct (assoc key (lru_entries (cache_inner e))) as [item|] eqn:Ha; simpl; [|done].
  destruct (is_expired now item) eqn:Hx; simpl; [done|]. intros [= <-].
  split; [by apply assoc_elem|done].
Qed.

Lemma cache_get_entries now key e x :
  x ∈ entries (cache_get now key e).2 → x ∈ entries e.
Proof.
  unfold cache_get, entries. case_if; [done|].
  pose proof (lru_get_mut_spec key (cache_inner e)) as (Hg1 & Hg2 & _).
  destruct (lru_get_mut key (cache_inner e)) as [found l]. simpl in Hg1, Hg2. subst found.
  assert (x ∈ lru_entries l → x ∈ lru_entries (cache_inner e)) as Hl.
  { rewrite Hg2. destruct (assoc key (lru_entries (cache_inner e))) as [v|] eqn:Ha; [|done].
    rewrite elem_of_cons, remove_key_elem. intros [->|[? _]]; [by apply assoc_elem|done]. }
  destruct (assoc key _) as [item|]; [case_if|]; simpl; [|done..].
  pose proof (lru_pop_spec key l) as (_ & Hp & _). rewrite Hp, remove_key_elem.
  intros [? _]. auto.
Qed.

Lemma removelast_elem {A} (l : list A) x : x ∈ removelast l → x ∈ l.
Proof.
  induction l as [|y l IH]; [done|]. destruct l as [|z l]; [by intros ?%elem_of_nil|].
  change (removelast (y :: z :: l)) with (y :: removelast (z :: l)).
  rewrite !(elem_of_cons _ x y). intros [->|Hx]; auto.
Qed.

Lemma evict_entries fuel cap size l mem bytes items x :
  x ∈ lru_entries (evict fuel cap size l mem bytes items).1.1.1 → x ∈ lru_entries l.
Proof.
  revert l mem bytes items; induction fuel as [|fuel IH]; intros l mem bytes items; [done|].
  cbn [evict]. case_if; [|done].
  pose proof (lru_pop_lru_spec l) as (_ & Hp & _).
  destruct (lru_pop_lru l) as [[[k item]|] l']; simpl in Hp.
  - intros Hx%IH. rewrite Hp in Hx. by apply removelast_elem.
  - simpl. rewrite Hp. by apply removelast_elem.
Qed.

Lemma cache_insert_entries now key status headers body ttl e x :
  x ∈ entries (cache_insert now key status headers body ttl e).2 →
  x ∈ entries e ∨ x = (key, stored now status headers body ttl e).
Proof.
  unfold cache_insert, entries. repeat (case_if; [by left|]).
  pose proof (evict_entries (lru_len (cache_inner e)) (max_capacity_bytes e)
    (Z.of_nat (length body)) (cache_inner e) (current_memory e) 0 0 x) as Hev.
  destruct (evict _ _ _ _ _ _ _) as [[[l mem] bytes] items]. simpl in Hev.
  case_if; [|simpl; auto].
  fold (stored now status headers body ttl e).
  pose proof (lru_put_spec key (stored now status headers body ttl e) l) as (_ & Hp & _).
  destruct (lru_put _ _ l) as [old l']. simpl in Hp |- *. rewrite Hp, elem_of_cons.
  intros [->|Hx]; [by right|left]. apply Hev. revert Hx.
  case_bool_decide; [rewrite remove_key_elem; by intros [? _]|].
  case_bool_decide; [done|apply removelast_elem].
Qed.

Lemma cache_step_ok e o : engine_ok e → engine_ok (cache_step e o).
Proof. destruct o; simpl; auto using cache_get_ok, cache_insert_ok. Qed.

Lemma cache_step_config e o :
  max_capacity_bytes (cache_step e o) = max_capacity_bytes e ∧
  max_file_size_bytes (cache_step e o) = max_file_size_bytes e.
Proof.
  destruct o as [now key|now key st hs body ttl]; simpl.
  - unfold cache_get. destruct (cache_inner_poisoned e); [done|].
    destruct (lru_get_mut _ _) as [[a|] l]; [|done]. by destruct (is_expired now a).
  - unfold cache_insert. do 4 (case_if; [done|]).
    destruct (evict _ _ _ _ _ _ _) as [[[l mem] b] i]. case_if; [|done].
    by destruct (lru_put _ _ _).
Qed.

Lemma reachable_ok cap max_file ttl_sec e :
  capacity_ok cap → reachable cap max_file ttl_sec e →
  engine_ok e ∧ max_capacity_bytes e = cap ∧ max_file_size_bytes e = max_file.
Proof.
  intros Hcap. induction 1 as [|e o _ (IH & Hc & Hf)].
  - destruct (lru_new_spec (L := L) (V := asset) lru_capacity) as [Hes Hn].
    split; [|done]. split; unfold entries; simpl; rewrite ?Hes; [done|done| |done|apply Hcap].
    split; simpl; [constructor..|lia|done].
  - destruct (cache_step_config e o) as [-> ->]. auto using cache_step_ok.
Qed.

(** *** The promises *)

(** Whatever the proxy looks up and stores, the bytes held by the cache stay
    within its counter and its counter within the configured capacity; keys are
    distinct, each size is the length of its body and within the file limit, and
    there are at most 10,000 entries. *)
Theorem cache_memory_bounded cap max_file ttl_sec (e : engine) :
  capacity_ok cap → reachable cap max_file ttl_sec e →
  0 ≤ total (entries e) ≤ current_memory_bytes e ∧ current_memory_bytes e ≤ cap ∧
  NoDup (entries e).*1 ∧ Forall (λ x, asset_ok max_file x.2) (entries e) ∧
  entry_count e ≤ 10000.
Proof.
  intros Hcap (He & <- & <-)%reachable_ok; [|done].
  pose proof (engine_entries e He) as Hes. pose proof (entries_ok_nonneg _ _ _ _ Hes).
  destruct He as [[Hl1 Hl2] _ _ _ Hb]. unfold current_memory_bytes, entry_count.
  rewrite Hl1, Hl2, lru_len_spec. destruct Hes as [? ? Hlen ?].
  unfold entries, lru_capacity in *. split_and!; auto; lia.
Qed.

(** An insertion within both limits evicts only the least recently used
    entries, and no more of them than the new body needs; its statistics are the
    number and the bytes of these entries.  It is then accepted exactly when the
    body fits, in which case it becomes the most recently used entry; otherwise
    the cache is left empty. *)
Theorem insert_evicts_least_recent now key status headers body ttl (e : engine)
    (size := Z.of_nat (length body)) :
  engine_ok e → size ≤ max_file_size_bytes e → size ≤ max_capacity_bytes e →
  let (r, e') := cache_insert now key status headers body ttl e in
  ∃ kept gone, evicts e size kept gone ∧
    items_evicted r = Z.of_nat (length gone) ∧ bytes_evicted r = total gone ∧
    (inserted r = true ↔ current_memory e - total gone + size ≤ max_capacity_bytes e) ∧
    entries e' =
      if inserted r then (key, stored now status headers body ttl e) :: after_put key kept
      else [].
Proof.
  intros He Hf Hc.
  destruct (insert_spec now key status headers body ttl e He Hf Hc)
    as (l & kept & gone & Hev & Hg0 & Hk & Hlcap & Hl & ->).
  exists kept, gone. simpl. unfold entries. simpl.
  rewrite bool_decide_eq_true. split_and!; auto.
  subst size. rewrite Hl. destruct Hev as (_ & _ & Hend).
  case_bool_decide; [done|]. by destruct Hend.
Qed.

(** When the byte counter is exact, an insertion is accepted exactly when the
    body is within the file limit and within the capacity. *)
Theorem insert_accepted_iff now key status headers body ttl (e : engine) :
  engine_ok e → current_memory e = total (entries e) →
  inserted (cache_insert now key status headers body ttl e).1 =
    bool_decide (Z.of_nat (length body) ≤ max_file_size_bytes e) &&
    bool_decide (Z.of_nat (length body) ≤ max_capacity_bytes e).
Proof.
  intros He Hexact. case_bool_decide as Hf; simpl; cycle 1.
  { unfold cache_insert. by rewrite (proj2 (Z.ltb_lt _ _)) by lia. }
  case_bool_decide as Hc; cycle 1.
  { unfold cache_insert. rewrite (proj2 (Z.ltb_ge _ _)) by lia.
    by rewrite (proj2 (Z.ltb_lt _ _)) by lia. }
  destruct (insert_spec now key status headers body ttl e He Hf Hc)
    as (l & kept & gone & (Hsplit & _ & Hend) & _ & _ & _ & _ & ->). simpl.
  apply bool_decide_eq_true. destruct Hend as [?| ->]; [done|].
  rewrite Hexact, Hsplit. simpl. lia.
Qed.

(** An insertion that is followed by a lookup of its key is found until its time to live
    has passed, and from then on it is not served and its bytes are released. *)
Theorem insert_then_get now now' key status headers body ttl (e : engine)
    (a := stored now status headers body ttl e) :
  engine_ok e →
  inserted (cache_insert now key status headers body ttl e).1 = true →
  let e' := (cache_insert now key status headers body ttl e).2 in
  let (found, e'') := cache_get now' key e' in
  if bool_decide (duration_since now' now < Cache.ttl a)
  then found = Some a ∧ entries e'' = entries e'
  else found = None ∧ assoc key (entries e'') = None ∧
       current_memory e'' = current_memory e' - size_bytes a.
Proof.
  intros He. pose proof He as [[Hl1 Hl2] _ _ _ _].
  destruct (decide (max_file_size_bytes e < Z.of_nat (length body))) as [Hf|Hf].
  { unfold cache_insert. by rewrite (proj2 (Z.ltb_lt _ _) Hf). }
  destruct (decide (max_capacity_bytes e < Z.of_nat (length body))) as [Hc|Hc].
  { unfold cache_insert. rewrite (proj2 (Z.ltb_ge _ _)) by lia.
    by rewrite (proj2 (Z.ltb_lt _ _) Hc). }
  pose proof (cache_insert_ok now key status headers body ttl e He) as He'.
  destruct (insert_spec now key status headers body ttl e He)
    as (l & kept & gone & _ & _ & Hk & _ & Hl & Hr); [lia..|].
  rewrite Hr in He' |- *. simpl. clear Hr. intros Hfits. rewrite Hfits in Hl, He' |- *.
  clear Hfits. fold a in Hl.
  pose proof (ok_covered _ _ _ _ (engine_entries _ He')) as Hcov.
  unfold entries in Hcov. simpl in Hcov. rewrite Hl in Hcov. simpl in Hcov.
  destruct (after_put_ok _ key kept _ Hk) as (Hp & Hfresh & _).
  pose proof (entries_ok_nonneg _ _ _ _ Hp).
  unfold cache_get. simpl. rewrite Hl1, Hl2.
  destruct (lru_get_mut_spec key l) as (Hg1 & Hg2 & _). rewrite Hl in Hg1, Hg2. simpl in Hg1, Hg2.
  unfold str_eqb in Hg1, Hg2. rewrite bool_decide_eq_true_2 in Hg1, Hg2 by done.
  rewrite remove_key_id in Hg2 by done.
  destruct (lru_get_mut key l) as [found l1]. simpl in Hg1, Hg2. subst found.
  unfold is_expired. change (created_at a) with now. case_bool_decide as Hlive.
  - rewrite (proj2 (Z.leb_gt (Cache.ttl a) _) Hlive). unfold entries. simpl. by rewrite Hg2, Hl.
  - rewrite (proj2 (Z.leb_le (Cache.ttl a) _) (proj1 (Z.nlt_ge _ _) Hlive)). unfold entries. simpl.
    destruct (lru_pop_spec key l1) as (_ & -> & _). rewrite Hg2. split_and!; [done| |].
    + apply assoc_None. apply remove_key_fresh.
    + apply saturating_sub_exact. lia.
Qed.

(** The cache never serves an asset past its time to live, nor one that was
    not stored under the requested key; a lookup changes the order of use of the
    other entries in no way. *)
Theorem get_serves_stored now key (e : engine) a :
  engine_ok e → (cache_get now key e).1 = Some a →
  (key, a) ∈ entries e ∧ duration_since now (created_at a) < Cache.ttl a ∧
  entries (cache_get now key e).2 = (key, a) :: remove_key key (entries e).
Proof.
  intros [[Hl1 Hl2] _ _ _ _]. unfold cache_get. rewrite Hl1.
  destruct (lru_get_mut_spec key (cache_inner e)) as (Hg1 & Hg2 & _).
  destruct (lru_get_mut key (cache_inner e)) as [found l1]. simpl in *. subst found.
  destruct (assoc key _) as [a'|] eqn:Ha; [|done]. case_if; [done|].
  simpl. intros [= ->]. unfold entries. simpl. rewrite Hg2.
  split_and!; [by apply assoc_elem| |done].
  unfold is_expired in *. by apply Z.leb_gt.
Qed.

(** *** The counter and the entry limit *)

(** One-byte bodies under the keys 0, 1, 2, ... *)
Fixpoint fill (h : HeaderMap) (n : nat) (e : engine) : engine :=
  match n with
  | O => e
  | S n => cache_step (fill h n e)
             (CacheInsert 0 (fmt (Z.of_nat n)) 200 h (lit "x") None)
  end.

Lemma fill_reachable h n cap max_file ttl_sec e :
  reachable cap max_file ttl_sec e → reachable cap max_file ttl_sec (fill h n e).
Proof. intros ?. induction n; [done|]. cbn [fill]. by constructor. Qed.

(** Storing one byte under a fresh key when there is room for it. *)
Lemma insert_one h key (e : engine) :
  engine_ok e → 1 ≤ max_file_size_bytes e → current_memory e + 1 ≤ max_capacity_bytes e →
  key ∉ (entries e).*1 →
  let e' := cache_step e (CacheInsert 0 key 200 h (lit "x") None) in
  current_memory e' = current_memory e + 1 ∧
  entries e' = (key, stored 0 200 h (lit "x") None e) ::
    (if bool_decide (length (entries e) < lru_capacity)%nat then entries e
     else removelast (entries e)).
Proof.
  intros He Hf Hroom Hkey. unfold cache_step.
  pose proof (entries_ok_nonneg _ _ _ _ (engine_entries _ He)).
  pose proof (ok_covered _ _ _ _ (engine_entries _ He)).
  destruct (insert_spec 0 key 200 h (lit "x") None e He)
    as (l & kept & gone & (Hsplit & Hmin & _) & _ & _ & _ & Hl & ->); [simpl; lia..|].
  change (Z.of_nat (length (lit "x"))) with 1 in *.
  assert (gone = []) as ->.
  { destruct Hmin as [?|Hmin]; [done|]. exfalso.
    pose proof (ok_sizes _ _ _ _ (engine_entries _ He)) as Hs. rewrite Hsplit in Hs.
    apply Forall_app in Hs as [_ Hs]. destruct gone as [|x gone]; simpl in Hmin; [lia|].
    apply Forall_cons in Hs as [_ Hs]. apply total_nonneg in Hs. lia. }
  rewrite app_nil_r in Hsplit. subst kept. simpl in *. rewrite Z.sub_0_r in *.
  rewrite bool_decide_eq_true_2 in Hl |- * by lia.
  unfold replaced, after_put in *. apply assoc_None in Hkey. rewrite Hkey in *. simpl in *.
  split; [lia|]. unfold entries at 1. simpl. by rewrite Hl.
Qed.

Lemma fmt_inj n m : 0 ≤ n ≤ u64_max → 0 ≤ m ≤ u64_max → fmt n = fmt m → n = m.
Proof.
  intros Hn Hm Heq.
  pose proof (parse_uint_fmt u64_max n Hn ltac:(done)) as Hpn.
  rewrite Heq, parse_uint_fmt in Hpn by done. congruence.
Qed.

Lemma fill_spec h n cap max_file ttl_sec (e := cache_new cap max_file ttl_sec : engine) :
  capacity_ok cap → 10001 ≤ cap → 1 ≤ max_file → (n ≤ lru_capacity)%nat →
  current_memory (fill h n e) = Z.of_nat n ∧ length (entries (fill h n e)) = n ∧
  total (entries (fill h n e)) = Z.of_nat n ∧
  Forall (λ x, size_bytes x.2 = 1 ∧ ∃ i, x.1 = fmt (Z.of_nat i) ∧ (i < n)%nat)
    (entries (fill h n e)).
Proof.
  intros Hcap Hbig Hmf Hn. induction n as [|n IH].
  { unfold e, entries. simpl. destruct (lru_new_spec (L := L) (V := asset) lru_capacity) as [-> _].
    repeat split; auto. }
  destruct IH as (Hmem & Hlen & Htot & Hkeys); [lia|]. unfold lru_capacity in *.
  destruct (reachable_ok cap max_file ttl_sec (fill h n e)) as (He & Hc & Hf);
    [done|apply fill_reachable; constructor|].
  assert (fmt (Z.of_nat n) ∉ (entries (fill h n e)).*1) as Hfresh.
  { intros ([k a]&Hk&Hin)%list_elem_of_fmap. rewrite Forall_forall in Hkeys.
    destruct (Hkeys _ Hin) as (_ & i & Hi & ?). simpl in *. subst k.
    apply fmt_inj in Hi; unfold u64_max; lia. }
  destruct (insert_one h (fmt (Z.of_nat n)) (fill h n e) He) as [Hmem' Hes]; [lia..|done|].
  cbn [fill]. rewrite Hmem', Hes, bool_decide_eq_true_2 by (unfold lru_capacity; lia).
  split_and!; [lia|simpl; lia|rewrite total_cons; simpl; lia|].
  constructor; [simpl; eauto with lia|].
  eapply Forall_impl; [exact Hkeys|]. intros x (? & i & ? & ?). eauto with lia.
Qed.

Lemma fill_overflow h n cap max_file ttl_sec (e := cache_new cap max_file ttl_sec : engine) :
  capacity_ok cap → 10001 ≤ cap → 1 ≤ max_file → n = lru_capacity →
  current_memory (fill h (S n) e) = 10001 ∧
  length (entries (fill h (S n) e)) = n ∧ total (entries (fill h (S n) e)) = 10000.
Proof.
  intros Hcap Hbig Hmf Hn. assert (Z.of_nat n = 10000) as Hz by (unfold lru_capacity in *; lia).
  destruct (fill_spec h n cap max_file ttl_sec) as (Hmem & Hlen & Htot & Hkeys); auto with lia.
  fold e in Hmem, Hlen, Htot, Hkeys.
  destruct (reachable_ok cap max_file ttl_sec (fill h n e)) as (He & Hc & Hf);
    [done|apply fill_reachable; constructor|].
  destruct (insert_one h (fmt (Z.of_nat n)) (fill h n e) He) as [Hmem' Hes]; [lia|lia| |].
  { intros ([k a]&Hk&Hin)%list_elem_of_fmap. rewrite Forall_forall in Hkeys.
    destruct (Hkeys _ Hin) as (_ & i & Hi & ?). simpl in Hk, Hi. subst k.
    apply fmt_inj in Hi; unfold u64_max; lia. }
  cbn [fill]. rewrite Hmem', Hes, bool_decide_eq_false_2 by lia.
  destruct (last (entries (fill h n e))) as [x|] eqn:Hx.
  - pose proof (removelast_snoc _ _ Hx) as Hsnoc.
    rewrite Hsnoc in Hlen, Htot, Hkeys. rewrite length_app in Hlen. rewrite total_app in Htot.
    rewrite Forall_app, Forall_singleton in Hkeys. destruct Hkeys as [_ [Hx1 _]].
    rewrite total_singleton in Htot. rewrite total_cons. simpl in *. lia.
  - apply last_None in Hx. rewrite Hx in Hlen. simpl in Hlen. lia.
Qed.

(** The counter can drift from the entries: storing 10,001 one-byte bodies
    under distinct keys makes the container drop an entry on its own, and the
    counter keeps the dropped entry's byte. *)
Theorem silent_eviction_leaks cap max_file ttl_sec (h : HeaderMap) :
  capacity_ok cap → 10001 ≤ cap → 1 ≤ max_file →
  ∃ e : engine, reachable cap max_file ttl_sec e ∧ entry_count e = 10000 ∧
    total (entries e) = 10000 ∧ current_memory_bytes e = 10001.
Proof.
  intros Hcap Hbig Hmf. assert (∃ n, n = lru_capacity) as [n Hn] by eauto.
  destruct (fill_overflow h n cap max_file ttl_sec) as (Hmem & Hlen & Htot); auto.
  assert (reachable cap max_file ttl_sec (fill h (S n) (cache_new cap max_file ttl_sec))) as Hr
    by (apply fill_reachable; constructor).
  destruct (reachable_ok _ _ _ _ Hcap Hr) as ([[Hl1 Hl2] _ _ _ _] & _).
  eexists. split; [exact Hr|].
  unfold entry_count, current_memory_bytes. rewrite Hl1, Hl2, lru_len_spec.
  unfold entries in Hlen. rewrite Hlen. split_and!; auto. rewrite Hn. unfold lru_capacity. lia.
Qed.
End engines.

(** ** Examples *)

Definition sample_engine : LruCacheEngine ListLru unit :=
  cache_step (cache_new 10 8 60) (CacheInsert 0 (lit "a") 200 tt (lit "xyz") None).

Lemma sample_engine_reachable : reachable 10 8 60 sample_engine.
Proof. apply reach_step, reach_new. Qed.

Lemma sample_engine_ok : engine_ok sample_engine.
Proof. by apply (reachable_ok 10 8 60); [unfold capacity_ok|apply sample_engine_reachable]. Qed.

Lemma cache_memory_bounded_witness :
  0 ≤ total (entries sample_engine) ≤ current_memory_bytes sample_engine ∧
  current_memory_bytes sample_engine ≤ 10 ∧ NoDup (entries sample_engine).*1 ∧
  Forall (λ x, asset_ok 8 x.2) (entries sample_engine) ∧ entry_count sample_engine ≤ 10000.
Proof.
  apply (cache_memory_bounded 10 8 60 sample_engine).
  - unfold capacity_ok. lia.
  - apply sample_engine_reachable.
Defined.

Lemma insert_evicts_least_recent_witness :
  let (r, e') := cache_insert 5 (lit "b") 200 tt (lit "12345678") None sample_engine in
  ∃ kept gone, evicts sample_engine 8 kept gone ∧
    items_evicted r = Z.of_nat (length gone) ∧ bytes_evicted r = total gone ∧
    (inserted r = true ↔ current_memory sample_engine - total gone + 8 ≤ 10) ∧
    entries e' =
      if inserted r
      then (lit "b", stored 5 200 tt (lit "12345678") None sample_engine) :: after_put (lit "b") kept
      else [].
Proof.
  apply (insert_evicts_least_recent 5 (lit "b") 200 tt (lit "12345678") None sample_engine).
  - apply sample_engine_ok.
  - vm_compute. discriminate.
  - vm_compute. discriminate.
Defined.

Lemma insert_accepted_iff_witness :
  inserted (cache_insert 5 (lit "b") 200 tt (lit "12345678") None sample_engine).1 = true.
Proof.
  rewrite (insert_accepted_iff 5 (lit "b") 200 tt (lit "12345678") None sample_engine).
  - reflexivity.
  - apply sample_engine_ok.
  - vm_compute. reflexivity.
Defined.

Lemma insert_then_get_witness :
  (cache_get 6 (lit "b") (cache_insert 5 (lit "b") 200 tt (lit "1234") None sample_engine).2).1 =
    Some (stored 5 200 tt (lit "1234") None sample_engine).
Proof.
  pose proof (insert_then_get 5 6 (lit "b") 200 tt (lit "1234") None sample_engine
    sample_engine_ok ltac:(vm_compute; reflexivity)) as Hget.
  exact (proj1 Hget).
Defined.

Lemma get_serves_stored_witness :
  (lit "a", stored 0 200 tt (lit "xyz") None (cache_new 10 8 60 : LruCacheEngine ListLru unit))
    ∈ entries sample_engine.
Proof.
  apply (get_serves_stored 1 (lit "a") sample_engine).
  - apply sample_engine_ok.
  - vm_compute. reflexivity.
Defined.
