(* ===== verification/Locks.v ===== *)
(** * Operations under two readers-writer locks

    [std::sync::RwLock] as the cache engine uses it: two cells, each behind its own
    lock, and operations that lock, read, write and unlock them step by step while
    others do the same.  Operations that take the locks in one order, touch a cell
    only while they hold its lock and release only when they are done behave as if
    each ran alone, at one moment between its call and its return; they never wait
    for each other in a circle; and they all return. *)

From S2P Require Import Prelude.

(** ** Programs *)

(** The two locks, in the order in which they are taken *)
Inductive cell : Type := First | Second.

Inductive mode : Type := Reading | Writing.

#[export] Instance mode_eq_dec : EqDecision mode.
Proof. solve_decision. Defined.

Section programs.
Context {A B R : Type}.

Inductive lprog : Type :=
| LRet (r : R)
| Lock (c : cell) (m : mode) (k : lprog)
| Unlock (c : cell) (k : lprog)
| Get1 (k : A → lprog)
| Set1 (a : A) (k : lprog)
| Get2 (k : B → lprog)
| Set2 (b : B) (k : lprog).

(** The program running alone *)
Fixpoint run (p : lprog) (s : A * B) : R * (A * B) :=
  match p with
  | LRet r => (r, s)
  | Lock _ _ k | Unlock _ k => run k s
  | Get1 k => run (k s.1) s
  | Set1 a k => run k (a, s.2)
  | Get2 k => run (k s.2) s
  | Set2 b k => run k (s.1, b)
  end.

(** What a thread holds *)
Record held : Type := MkHeld { held1 : option mode; held2 : option mode }.

Definition nothing : held := MkHeld None None.

Definition holds (h : held) (c : cell) : option mode :=
  match c with First => held1 h | Second => held2 h end.

Definition set_held (c : cell) (m : option mode) (h : held) : held :=
  match c with First => MkHeld m (held2 h) | Second => MkHeld (held1 h) m end.

(** The discipline: locks are taken in order and never twice, cells are touched
    only under their lock, and after the first release, [shrunk], no lock is taken
    and no cell is touched. *)
Fixpoint disciplined (shrunk : bool) (h : held) (p : lprog) : Prop :=
  match p with
  | LRet _ => h = nothing
  | Lock c m k =>
      shrunk = false ∧ holds h Second = None ∧ (c = First → holds h First = None) ∧
      disciplined false (set_held c (Some m) h) k
  | Unlock c k => is_Some (holds h c) ∧ disciplined true (set_held c None h) k
  | Get1 k => shrunk = false ∧ is_Some (held1 h) ∧ ∀ a, disciplined false h (k a)
  | Set1 _ k => shrunk = false ∧ held1 h = Some Writing ∧ disciplined false h k
  | Get2 k => shrunk = false ∧ is_Some (held2 h) ∧ ∀ b, disciplined false h (k b)
  | Set2 _ k => shrunk = false ∧ held2 h = Some Writing ∧ disciplined false h k
  end.

(** At most [n] steps are left, the return included *)
Fixpoint steps_within (n : nat) (p : lprog) {struct p} : Prop :=
  match p with
  | LRet _ => n ≠ O
  | Lock _ _ k | Unlock _ k | Set1 _ k | Set2 _ k =>
      match n with O => False | S n => steps_within n k end
  | Get1 k => match n with O => False | S n => ∀ a, steps_within n (k a) end
  | Get2 k => match n with O => False | S n => ∀ b, steps_within n (k b) end
  end.

(** ** Threads *)

(** What is left of an operation: a program, or the value it returned *)
Record lthread : Type := MkLThread { left : lprog + R; has : held }.

(** The lock [c] can be granted in mode [m]: a writer excludes everybody, readers
    exclude writers. *)
Definition grantable (ths : list lthread) (c : cell) (m : mode) : Prop :=
  Forall (λ th, match m with
                | Writing => holds (has th) c = None
                | Reading => holds (has th) c ≠ Some Writing
                end) ths.

(** The two cells, the threads, and a history: the threads in the order in which
    they released their first lock, or returned without one *)
Record conf : Type := MkConf { cells : A * B; lthreads : list lthread; commits : list nat }.

Definition commit (i : nat) (cs : list nat) : list nat :=
  if bool_decide (i ∈ cs) then cs else cs ++ [i].

(** One step of thread [i] *)
Inductive lstep (i : nat) : conf → conf → Prop :=
| step_lock c m k h s ths cs :
    ths !! i = Some (MkLThread (inl (Lock c m k)) h) → grantable ths c m →
    lstep i (MkConf s ths cs)
      (MkConf s (<[i := MkLThread (inl k) (set_held c (Some m) h)]> ths) cs)
| step_unlock c k h s ths cs :
    ths !! i = Some (MkLThread (inl (Unlock c k)) h) →
    lstep i (MkConf s ths cs)
      (MkConf s (<[i := MkLThread (inl k) (set_held c None h)]> ths) (commit i cs))
| step_get1 k h s ths cs :
    ths !! i = Some (MkLThread (inl (Get1 k)) h) →
    lstep i (MkConf s ths cs) (MkConf s (<[i := MkLThread (inl (k s.1)) h]> ths) cs)
| step_set1 a k h s ths cs :
    ths !! i = Some (MkLThread (inl (Set1 a k)) h) →
    lstep i (MkConf s ths cs) (MkConf (a, s.2) (<[i := MkLThread (inl k) h]> ths) cs)
| step_get2 k h s ths cs :
    ths !! i = Some (MkLThread (inl (Get2 k)) h) →
    lstep i (MkConf s ths cs) (MkConf s (<[i := MkLThread (inl (k s.2)) h]> ths) cs)
| step_set2 b k h s ths cs :
    ths !! i = Some (MkLThread (inl (Set2 b k)) h) →
    lstep i (MkConf s ths cs) (MkConf (s.1, b) (<[i := MkLThread (inl k) h]> ths) cs)
| step_return r h s ths cs :
    ths !! i = Some (MkLThread (inl (LRet r)) h) →
    lstep i (MkConf s ths cs) (MkConf s (<[i := MkLThread (inr r) h]> ths) (commit i cs)).

(** All operations are called, nothing is locked *)
Definition called (ps : list lprog) (s : A * B) : conf :=
  MkConf s ((λ p, MkLThread (inl p) nothing) <$> ps) [].

(** Any interleaving, with its schedule: whose step it was *)
Inductive interleaved : list nat → conf → conf → Prop :=
| interleaved_here c : interleaved [] c c
| interleaved_step sched i c c' c'' :
    interleaved sched c c' → lstep i c' c'' → interleaved (sched ++ [i]) c c''.

(** Operation [i] has returned [r]. *)
Definition returned (c : conf) (i : nat) (r : R) : Prop :=
  ∃ h, lthreads c !! i = Some (MkLThread (inr r) h).

Definition all_returned (c : conf) : Prop :=
  ∀ i, (i < length (lthreads c))%nat → ∃ r, returned c i r.

#[export] Instance all_returned_dec (c : conf) : Decision (all_returned c).
Proof.
  destruct (decide (Forall (λ th, match left th with inl _ => false | inr _ => true end = true)
    (lthreads c))) as [Hall|Hnot]; [left|right].
  - intros i [[[p|r] h] Hi]%lookup_lt_is_Some; [|by exists r, h].
    by pose proof (Forall_lookup_1 _ _ _ _ Hall Hi).
  - intros Hret. apply Hnot, Forall_lookup_2. intros i th Hi.
    destruct (Hret i) as (r & h & Hr); [by eapply lookup_lt_Some|]. by simplify_eq.
Defined.

(** The operations one after the other, in the given order *)
Fixpoint serial (ps : list lprog) (order : list nat) (s : A * B) : list (nat * R) * (A * B) :=
  match order with
  | [] => ([], s)
  | i :: order =>
      match ps !! i with
      | Some p =>
          let '(r, s) := run p s in
          let '(rs, s) := serial ps order s in ((i, r) :: rs, s)
      | None => serial ps order s
      end
  end.
End programs.
Arguments lprog A B R : clear implicits.
Arguments conf A B R : clear implicits.
Arguments lthread A B R : clear implicits.

(** ** Atomicity *)

Section atomicity.
Context {A B R : Type}.
Implicit Types (s t x : A * B) (p : lprog A B R) (c : cell) (h : held)
  (ths : list (lthread A B R)) (ps : list (lprog A B R)).

Lemma serial_snoc ps order i p s :
  ps !! i = Some p →
  serial ps (order ++ [i]) s =
    ((serial ps order s).1 ++ [(i, (run p (serial ps order s).2).1)],
     (run p (serial ps order s).2).2).
Proof.
  intros Hi. revert s. induction order as [|j order IH]; intros s; simpl.
  - rewrite Hi. by destruct (run p s).
  - destruct (ps !! j) as [q|]; [|apply IH]. destruct (run q s) as [r s']. rewrite IH.
    by destruct (serial ps order s').
Qed.

(** After the first release the result is settled. *)
Lemma shrunk_run h p : disciplined true h p → ∃ r, ∀ s, run p s = (r, s).
Proof.
  revert h. induction p as [r|c m k IH|c k IH|k IH|a k IH|k IH|b k IH]; intros h; simpl;
    try (by intros [? _]).
  - intros _. by exists r.
  - intros [_ Hk]. by eapply IH.
Qed.

(** Two states agree on a cell. *)
Definition same c s t : Prop := match c with First => s.1 = t.1 | Second => s.2 = t.2 end.

(** The cells a thread holds, from [s]; the others from [x] *)
Definition patch h s x : A * B :=
  (match held1 h with Some _ => s.1 | None => x.1 end,
   match held2 h with Some _ => s.2 | None => x.2 end).

Lemma patch_ext h s t x : (∀ c, is_Some (holds h c) → same c s t) → patch h s x = patch h t x.
Proof.
  intros Hs. unfold patch. f_equal.
  - destruct (held1 h) eqn:E; [|done]. apply (Hs First). simpl. rewrite E. eauto.
  - destruct (held2 h) eqn:E; [|done]. apply (Hs Second). simpl. rewrite E. eauto.
Qed.

Lemma patch_self h s : patch h s s = s.
Proof. destruct s. unfold patch. by destruct (held1 h), (held2 h). Qed.

Lemma holds_set_eq c m h : holds (set_held c m h) c = m.
Proof. by destruct c. Qed.

Lemma holds_set_ne c c' m h : c ≠ c' → holds (set_held c m h) c' = holds h c'.
Proof. by destruct c, c'. Qed.

(** A writer is alone. *)
Definition exclusive ths : Prop :=
  ∀ i j th th' c, ths !! i = Some th → ths !! j = Some th' → i ≠ j →
    holds (has th) c = Some Writing → holds (has th') c = None.

Lemma exclusive_insert ths i th l h :
  exclusive ths → ths !! i = Some th →
  (∀ c, holds h c = None ∨ holds h c = holds (has th) c ∨
        ∃ m, holds h c = Some m ∧ grantable ths c m) →
  exclusive (<[i := MkLThread l h]> ths).
Proof.
  intros Hex Hi Hh j k thj thk c Hj Hk Hne Hw.
  apply list_lookup_insert_Some in Hj as [(-> & <- & _)|[Hij Hj]];
    apply list_lookup_insert_Some in Hk as [(-> & <- & _)|[Hik Hk]]; simpl in *; try done.
  - destruct (Hh c) as [Hc|[Hc|(m & Hc & Hg)]]; rewrite Hc in Hw; [done| |].
    + by eapply (Hex j k).
    + simplify_eq. by eapply (Forall_lookup_1 _ _ _ _ Hg Hk).
  - destruct (Hh c) as [Hc|[Hc|(m & Hc & Hg)]]; rewrite Hc; [done| |].
    + by eapply (Hex j k).
    + pose proof (Forall_lookup_1 _ _ _ _ Hg Hj) as Hno. simpl in Hno.
      destruct m; [done|]. congruence.
  - by eapply (Hex j k).
Qed.

Section invariant.
Context (ps : list (lprog A B R)) (s0 : A * B).

Definition abstract (cs : list nat) : A * B := (serial ps cs s0).2.
Definition replies_to (cs : list nat) : list (nat * R) := (serial ps cs s0).1.

(** What is left of operation [i]: before its moment, it will do from the real
    cells what the whole operation does from the abstract ones, whatever the cells
    it does not hold will be; after it, it returns what the operation returned. *)
Definition on_track (cs : list nat) s (i : nat) (th : lthread A B R) : Prop :=
  match left th with
  | inl p =>
      disciplined (bool_decide (i ∈ cs)) (has th) p ∧
      if bool_decide (i ∈ cs) then ∃ r, (i, r) ∈ replies_to cs ∧ ∀ x, run p x = (r, x)
      else ∃ op, ps !! i = Some op ∧
        ∀ x, run p (patch (has th) s x) = run op (patch (has th) (abstract cs) x)
  | inr r => has th = nothing ∧ i ∈ cs ∧ (i, r) ∈ replies_to cs
  end.

Record atomic (c : conf A B R) : Prop := {
  atomic_once : NoDup (commits c);
  atomic_threads : ∀ i th, lthreads c !! i = Some th → on_track (commits c) (cells c) i th;
  atomic_exclusive : exclusive (lthreads c);
  atomic_cells : ∀ d, (∀ i th, lthreads c !! i = Some th → i ∉ commits c →
      holds (has th) d ≠ Some Writing) → same d (cells c) (abstract (commits c)) }.

(** A step of thread [i] that is not its moment changes nothing for the others, when
    it writes to a cell only under its lock. *)
Lemma others_on_track cs s s' ths i th j thj :
  exclusive ths → ths !! i = Some th → ths !! j = Some thj → i ≠ j →
  (∀ d, same d s' s ∨ holds (has th) d = Some Writing) →
  on_track cs s j thj → on_track cs s' j thj.
Proof.
  intros Hex Hi Hj Hne Hs. unfold on_track. destruct (left thj) as [p|r]; [|done].
  intros [Hd Hrun]. split; [done|]. case_bool_decide; [done|].
  destruct Hrun as (op & Hop & Hrun). exists op. split; [done|]. intros x.
  rewrite <- Hrun. f_equal. apply patch_ext. intros d [m Hm].
  destruct (Hs d) as [?|Hw]; [done|].
  by rewrite (Hex i j th thj d Hi Hj Hne Hw) in Hm.
Qed.

(** A step that is not the moment of its operation *)
Lemma atomic_quiet s s' ths cs i th th' :
  atomic (MkConf s ths cs) → ths !! i = Some th → on_track cs s' i th' →
  (∀ d, same d s' s ∨ holds (has th) d = Some Writing) →
  (i ∉ cs → ∀ d, holds (has th) d = Some Writing → holds (has th') d = Some Writing) →
  (∀ d, same d s' s ∨ i ∉ cs) →
  (∀ d, holds (has th') d = None ∨ holds (has th') d = holds (has th) d ∨
        ∃ m, holds (has th') d = Some m ∧ grantable ths d m) →
  atomic (MkConf s' (<[i := th']> ths) cs).
Proof.
  intros [Hnd Hth Hex Hcells] Hi Htrack Hs Hkeep Hcommit Hh. simpl in *. split; simpl; [done|..].
  - intros j thj [(-> & <- & _)|[Hne Hj]]%list_lookup_insert_Some; [done|].
    exact (others_on_track cs s s' ths i th j thj Hex Hi Hj Hne Hs (Hth j thj Hj)).
  - destruct th'. by eapply exclusive_insert.
  - intros d Hno.
    assert (Hw : i ∉ cs → holds (has th') d ≠ Some Writing).
    { apply Hno, list_lookup_insert_eq. by eapply lookup_lt_Some. }
    assert (same d s' s) as Hsame.
    { destruct (Hs d) as [?|Hwr]; [done|]. destruct (Hcommit d) as [?|Hic]; [done|].
      by destruct (Hw Hic); apply Hkeep. }
    assert (same d s (abstract cs)) as Habs.
    { apply Hcells. intros j thj Hj Hjc Hwr. destruct (decide (i = j)) as [<-|Hne].
      - simplify_eq. by apply Hw, Hkeep.
      - apply (Hno j thj); [by rewrite list_lookup_insert_ne|done|done]. }
    destruct d; simpl in *; congruence.
Qed.

(** The abstract cells after the moment of operation [i], which returns [r]: those it
    holds are now the real ones, the others are as before. *)
Lemma commit_abstract s ths cs i p h r :
  atomic (MkConf s ths cs) → ths !! i = Some (MkLThread (inl p) h) → i ∉ cs →
  (∀ x, run p x = (r, x)) →
  replies_to (cs ++ [i]) = replies_to cs ++ [(i, r)] ∧
  ∀ d, same d (abstract (cs ++ [i]))
         (match holds h d with Some _ => s | None => abstract cs end).
Proof.
  intros Hat Hi Hic Hrun. destruct (atomic_threads _ Hat i _ Hi) as [_ Htrack]. simpl in Htrack.
  rewrite bool_decide_eq_false_2 in Htrack by done. destruct Htrack as (op & Hop & Htrack).
  specialize (Htrack (abstract cs)). rewrite patch_self, Hrun in Htrack.
  unfold abstract at 1, replies_to at 1. rewrite (serial_snoc _ _ _ op) by done. simpl.
  fold (abstract cs). rewrite <- Htrack. split; [done|].
  intros d. destruct h as [[] []], d; done.
Qed.

(** On a cell that thread [j] holds, the moment of another changes nothing. *)
Lemma commit_elsewhere s ths cs i p h j thj r d :
  atomic (MkConf s ths cs) → ths !! i = Some (MkLThread (inl p) h) → i ∉ cs →
  (∀ x, run p x = (r, x)) → ths !! j = Some thj → i ≠ j → is_Some (holds (has thj) d) →
  same d (abstract cs) (abstract (cs ++ [i])).
Proof.
  intros Hat Hi Hic Hrun Hj Hne Hjd.
  destruct (commit_abstract _ _ _ _ _ _ _ Hat Hi Hic Hrun) as [_ Habs]. specialize (Habs d).
  destruct (holds h d) as [m|] eqn:Hm; [|destruct d; simpl in *; congruence].
  assert (same d s (abstract cs)) as Hsd; [|destruct d; simpl in *; congruence].
  pose proof (atomic_exclusive _ Hat) as Hex. apply (atomic_cells _ Hat). simpl in *.
  intros k thk Hk _ Hw. destruct (decide (i = k)) as [<-|Hik].
  - simplify_eq. simpl in Hw. rewrite (Hex i j _ _ d Hi Hj Hne) in Hjd by done. by destruct Hjd.
  - pose proof (Hex k i _ _ d Hk Hi ltac:(done) Hw) as Hno. simpl in Hno. congruence.
Qed.

(** The moment of operation [i]: its first release, or its return *)
Lemma atomic_commit s ths cs i p h th' r :
  atomic (MkConf s ths cs) → ths !! i = Some (MkLThread (inl p) h) → i ∉ cs →
  (∀ x, run p x = (r, x)) →
  (∀ d, holds (has th') d = None ∨ holds (has th') d = holds h d) →
  match left th' with
  | inl k => disciplined true (has th') k ∧ ∀ x, run k x = (r, x)
  | inr r' => r' = r ∧ has th' = nothing
  end →
  atomic (MkConf s (<[i := th']> ths) (cs ++ [i])).
Proof.
  intros Hat Hi Hic Hrun Hh Hleft.
  destruct (commit_abstract _ _ _ _ _ _ _ Hat Hi Hic Hrun) as [Hrep Habs].
  pose proof Hat as [Hnd Hth Hex Hcells]. simpl in *. split; simpl.
  - apply NoDup_app. split_and!; [done| |apply NoDup_singleton]. set_solver.
  - intros j thj [(-> & <- & _)|[Hne Hj]]%list_lookup_insert_Some.
    { unfold on_track. rewrite Hrep. rewrite bool_decide_eq_true_2 by set_solver.
      destruct (left th') as [k|r'].
      - destruct Hleft as [Hd Hk]. split; [done|]. exists r. split; [set_solver|done].
      - destruct Hleft as [-> ?]. split_and!; [done|set_solver..]. }
    specialize (Hth j thj Hj). unfold on_track in *. rewrite Hrep.
    rewrite (bool_decide_ext (j ∈ cs ++ [i]) (j ∈ cs)) by set_solver.
    destruct (left thj) as [q|r']; [|set_solver]. destruct Hth as [Hd Hq]. split; [done|].
    case_bool_decide; [set_solver|]. destruct Hq as (op' & Hop' & Hq). exists op'.
    split; [done|]. intros x. rewrite Hq. f_equal. apply patch_ext. intros d Hjd.
    by eapply commit_elsewhere.
  - destruct th'. eapply exclusive_insert; [done|done|]. intros d. destruct (Hh d); auto.
  - intros d Hno. specialize (Habs d).
    destruct (holds h d) as [m|] eqn:Hm; [destruct d; simpl in *; congruence|].
    assert (same d s (abstract cs)) as Hsd; [|destruct d; simpl in *; congruence].
    apply Hcells. intros j thj Hj Hjc Hw. destruct (decide (i = j)) as [<-|Hne].
    + simplify_eq. simpl in *. congruence.
    + apply (Hno j thj); [by rewrite list_lookup_insert_ne|set_solver|done].
Qed.

(** A thread that has not released anything is before its moment. *)
Lemma growing_uncommitted cf i p h :
  atomic cf → lthreads cf !! i = Some (MkLThread (inl p) h) →
  (disciplined (bool_decide (i ∈ commits cf)) h p → bool_decide (i ∈ commits cf) = false) →
  (i ∉ commits cf) ∧ disciplined false h p ∧ ∃ op, ps !! i = Some op ∧
    ∀ x, run p (patch h (cells cf) x) = run op (patch h (abstract (commits cf)) x).
Proof.
  intros Hat Hi Hd. destruct (atomic_threads _ Hat i _ Hi) as [Hdis Htrack]. simpl in *.
  pose proof (Hd Hdis) as Hno. rewrite Hno in Hdis, Htrack.
  split; [by eapply bool_decide_eq_false_1|done].
Qed.

Lemma atomic_lock s ths cs i c m k h :
  atomic (MkConf s ths cs) → ths !! i = Some (MkLThread (inl (Lock c m k)) h) →
  grantable ths c m →
  atomic (MkConf s (<[i := MkLThread (inl k) (set_held c (Some m) h)]> ths) cs).
Proof.
  intros Hat Hi Hg.
  destruct (growing_uncommitted (MkConf s ths cs) i _ _ Hat Hi) as (Hic & Hdis & op & Hop & Hrun);
    [by intros [? _]|].
  simpl in *. destruct Hdis as (_ & H2 & H1 & Hdis).
  assert (same c s (abstract cs)) as Hsame.
  { apply (atomic_cells _ Hat). intros j thj Hj _. pose proof (Forall_lookup_1 _ _ _ _ Hg Hj) as Hno.
    simpl in Hno. destruct m; [done|]. congruence. }
  assert (holds h c = None) as Hc by (destruct c; auto).
  eapply atomic_quiet; [done|done| |by left; destruct d| |by left; destruct d|]; simpl.
  - unfold on_track. simpl. rewrite bool_decide_eq_false_2 by done. split; [done|].
    exists op. split; [done|]. intros x.
    specialize (Hrun (match c with First => (s.1, x.2) | Second => (x.1, s.2) end)).
    destruct h as [h1 h2], c; simpl in *; subst; unfold patch in *; simpl in *; congruence.
  - intros _ d. destruct (decide (holds h d = None)) as [->|Hn]; [done|].
    rewrite holds_set_ne; [done|]. by intros ->.
  - intros d. destruct c, d; simpl; eauto.
Qed.

(** A step on the cells *)
Lemma atomic_data s s' ths cs i p k h :
  atomic (MkConf s ths cs) → ths !! i = Some (MkLThread (inl p) h) →
  (∀ b, disciplined b h p → b = false) → disciplined false h k →
  (∀ x, run p (patch h s x) = run k (patch h s' x)) →
  (∀ d, same d s' s ∨ holds h d = Some Writing) →
  atomic (MkConf s' (<[i := MkLThread (inl k) h]> ths) cs).
Proof.
  intros Hat Hi Hgrow Hdis Hk Hs.
  destruct (growing_uncommitted (MkConf s ths cs) i _ _ Hat Hi) as (Hic & _ & op & Hop & Hrun);
    [by apply Hgrow|]. simpl in *.
  eapply atomic_quiet; [done|done| |done|done|by right|by auto].
  unfold on_track. simpl. rewrite bool_decide_eq_false_2 by done. split; [done|].
  exists op. split; [done|]. intros x. by rewrite <- Hrun, Hk.
Qed.

(** The discipline of a running thread *)
Lemma thread_disciplined s ths cs i p h :
  atomic (MkConf s ths cs) → ths !! i = Some (MkLThread (inl p) h) → ∃ b, disciplined b h p.
Proof. intros Hat Hi. destruct (atomic_threads _ Hat i _ Hi) as [Hd _]. eauto. Qed.

Lemma atomic_release s ths cs i c k h :
  atomic (MkConf s ths cs) → ths !! i = Some (MkLThread (inl (Unlock c k)) h) →
  atomic (MkConf s (<[i := MkLThread (inl k) (set_held c None h)]> ths) (commit i cs)).
Proof.
  intros Hat Hi. destruct (atomic_threads _ Hat i _ Hi) as [[_ Hd] Htrack]. simpl in *.
  destruct (shrunk_run _ _ Hd) as [r Hr]. unfold commit. case_bool_decide as Hic.
  - destruct Htrack as (r' & Hin & Hr').
    eapply atomic_quiet; [done|done| |by left; destruct d|done|by left; destruct d|].
    + unfold on_track. simpl. rewrite bool_decide_eq_true_2 by done. eauto.
    + intros d. destruct c, d; simpl; auto.
  - eapply (atomic_commit _ _ _ _ (Unlock c k) h _ r); try done. intros d.
    destruct c, d; simpl; auto.
Qed.

Lemma atomic_return s ths cs i r h :
  atomic (MkConf s ths cs) → ths !! i = Some (MkLThread (inl (LRet r)) h) →
  atomic (MkConf s (<[i := MkLThread (inr r) h]> ths) (commit i cs)).
Proof.
  intros Hat Hi. destruct (atomic_threads _ Hat i _ Hi) as [Hh Htrack]. simpl in *. subst h.
  unfold commit. case_bool_decide as Hic.
  - destruct Htrack as (r' & Hin & Hr'). destruct s as [a b].
    specialize (Hr' (a, b)). injection Hr' as <-.
    eapply atomic_quiet; [done|done|done|by left; destruct d|done|by left; destruct d|].
    intros d. destruct d; auto.
  - eapply (atomic_commit _ _ _ _ (LRet r) nothing _ r); try done. intros []; auto.
Qed.

Lemma atomic_step i cf cf' : lstep i cf cf' → atomic cf → atomic cf'.
Proof.
  intros Hstep Hat. destruct Hstep as [c m k h s ths cs Hi Hg|c k h s ths cs Hi|k h s ths cs Hi
    |a k h s ths cs Hi|k h s ths cs Hi|b k h s ths cs Hi|r h s ths cs Hi];
    [by eapply atomic_lock|by eapply atomic_release|..|by eapply atomic_return];
    destruct (thread_disciplined _ _ _ _ _ _ Hat Hi) as (b' & _ & Hm & Hdis);
    (eapply atomic_data; [done|done|by intros ? [-> _]|done|..]).
  - intros x. unfold patch. destruct Hm as [m ->]. done.
  - intros []; by left.
  - intros x. unfold patch. simpl. by rewrite Hm.
  - intros []; [by right|by left].
  - intros x. unfold patch. destruct Hm as [m ->]. done.
  - intros []; by left.
  - intros x. unfold patch. simpl. by rewrite Hm.
  - intros []; [by left|by right].
Qed.

Lemma atomic_called : Forall (disciplined false nothing) ps → atomic (called ps s0).
Proof.
  intros Hps. split; simpl.
  - constructor.
  - intros i th Hi. rewrite list_lookup_fmap in Hi. apply fmap_Some in Hi as (p & Hp & ->).
    unfold on_track. simpl. split; [by eapply Forall_lookup_1|]. exists p. split; [done|].
    by intros [].
  - intros i j th th' c Hi _ _. rewrite list_lookup_fmap in Hi.
    apply fmap_Some in Hi as (p & Hp & ->). by destruct c.
  - intros d _. by destruct d.
Qed.

Lemma atomic_interleaved sched cf :
  Forall (disciplined false nothing) ps → interleaved sched (called ps s0) cf → atomic cf.
Proof.
  intros Hps Hn. remember (called ps s0) as c0 eqn:Hc0. induction Hn; subst.
  - by apply atomic_called.
  - by eapply atomic_step; eauto.
Qed.

(** Every reply is that of the operations run one after the other, and so are the
    cells when all have returned. *)
Lemma atomic_replies cf i r : atomic cf → returned cf i r → (i, r) ∈ replies_to (commits cf).
Proof. intros Hat [h Hi]. by destruct (atomic_threads _ Hat i _ Hi) as (_ & _ & ?). Qed.

Lemma atomic_final cf : atomic cf → all_returned cf → cells cf = abstract (commits cf).
Proof.
  intros Hat Hall.
  assert (∀ d, same d (cells cf) (abstract (commits cf))) as Hsame.
  { intros d. apply (atomic_cells _ Hat). intros i th Hi _.
    destruct (Hall i) as (r & h & Hr); [by eapply lookup_lt_Some|]. simplify_eq.
    destruct (atomic_threads _ Hat i _ Hi) as [Hh _]. simpl in *. subst. by destruct d. }
  pose proof (Hsame First) as H1. pose proof (Hsame Second) as H2. simpl in *.
  destruct (cells cf), (abstract (commits cf)); simpl in *; congruence.
Qed.

(** ** Progress *)

(** Thread [i] can go on: it does not wait, or nobody holds what it waits for. *)
Definition can_go (ths : list (lthread A B R)) (i : nat) : Prop :=
  ∃ p h, ths !! i = Some (MkLThread (inl p) h) ∧
    match p with
    | Lock c _ _ => Forall (λ th, holds (has th) c = None) ths
    | _ => True
    end.

Lemma can_go_step cf i : can_go (lthreads cf) i → ∃ cf', lstep i cf cf'.
Proof.
  destruct cf as [s ths cs]. simpl. intros (p & h & Hi & Hp).
  destruct p; eexists; try (by constructor). constructor; [done|].
  eapply Forall_impl; [done|]. intros th Hth. simpl in Hth. destruct m; congruence.
Qed.

(** Who holds the second lock waits for nothing, who holds the first waits for the
    second only. *)
Lemma holder_goes cf c :
  atomic cf → (∃ th, th ∈ lthreads cf ∧ is_Some (holds (has th) c)) →
  (c = First → Forall (λ th, holds (has th) Second = None) (lthreads cf)) →
  ∃ i, can_go (lthreads cf) i.
Proof.
  intros Hat (th & [i Hi]%list_elem_of_lookup & Hc) Hfree.
  destruct th as [[p|r] h]; simpl in Hc; cycle 1.
  { destruct (atomic_threads _ Hat i _ Hi) as [Hh _]. simpl in Hh. subst h.
    destruct c; by destruct Hc. }
  exists i, p, h. split; [done|]. destruct p as [|d m k| | | | |]; try done.
  destruct (atomic_threads _ Hat i _ Hi) as [(_ & H2 & H1 & _) _]. simpl in *.
  destruct c, d; destruct Hc; naive_solver.
Qed.

Lemma free_or_held (ths : list (lthread A B R)) c :
  (∃ th, th ∈ ths ∧ is_Some (holds (has th) c)) ∨ Forall (λ th, holds (has th) c = None) ths.
Proof.
  induction ths as [|th ths [(th' & ? & ?)|IH]]; [by right|left; exists th'; set_solver|].
  destruct (holds (has th) c) eqn:E; [left; exists th; rewrite E; split; [set_solver|eauto]|].
  right. by constructor.
Qed.

Lemma progress cf : atomic cf → ¬ all_returned cf → ∃ i, can_go (lthreads cf) i.
Proof.
  intros Hat Hnot.
  destruct (free_or_held (lthreads cf) Second) as [?|H2]; [by eapply (holder_goes cf Second)|].
  destruct (free_or_held (lthreads cf) First) as [?|H1]; [by eapply (holder_goes cf First)|].
  assert (∃ i p h, lthreads cf !! i = Some (MkLThread (inl p) h)) as (i & p & h & Hi).
  { destruct (decide (Exists (λ th, match left th with inl _ => true | inr _ => false end = true)
      (lthreads cf))) as [(th & [i Hi]%list_elem_of_lookup & Hth)%Exists_exists|Hno].
    - destruct th as [[p|] h]; [|done]. eauto.
    - destruct Hnot. intros i [th Hi]%lookup_lt_is_Some. destruct th as [[p|r] h]; [|by exists r, h].
      destruct Hno. apply Exists_exists. exists (MkLThread (inl p) h).
      split; [by eapply list_elem_of_lookup_2|done]. }
  exists i, p, h. split; [done|]. destruct p as [|[] ? ?| | | | |]; done.
Qed.
End invariant.

(** ** Termination *)

(** The budget of every thread covers the steps it has left. *)
Definition within (budgets : list nat) (ths : list (lthread A B R)) : Prop :=
  Forall2 (λ n th, match left th with inl p => steps_within n p | inr _ => True end) budgets ths.

Lemma sum_insert (l : list nat) i n :
  l !! i = Some (S n) → sum_list l = S (sum_list (<[i := n]> l)).
Proof.
  revert i. induction l as [|m l IH]; intros [|i] Hi; simpl in *; simplify_eq; [lia|].
  rewrite (IH i) by done. lia.
Qed.

Lemma within_step i cf cf' budgets :
  lstep i cf cf' → within budgets (lthreads cf) →
  ∃ budgets', within budgets' (lthreads cf') ∧ sum_list budgets = S (sum_list budgets').
Proof.
  intros Hstep Hw.
  assert (∃ n p h l h', lthreads cf !! i = Some (MkLThread (inl p) h) ∧ budgets !! i = Some (S n) ∧
    lthreads cf' = <[i := MkLThread l h']> (lthreads cf) ∧
    match l with inl k => steps_within n k | inr _ => True end)
    as (n & p & h & l & h' & Hi & Hb & -> & Hl).
  { destruct Hstep as [c m k h s ths cs Hi Hg|c k h s ths cs Hi|k h s ths cs Hi
      |a k h s ths cs Hi|k h s ths cs Hi|b k h s ths cs Hi|r h s ths cs Hi]; simpl in *;
    destruct (Forall2_lookup_r _ _ _ _ _ Hw Hi) as ([|n] & Hb & Hn); try done;
    eexists n, _, _, _, _; do 3 (split; [done|]); simpl in *; auto. }
  exists (<[i := n]> budgets). split; [by apply Forall2_insert|by apply sum_insert].
Qed.

Lemma within_interleaved sched cf cf' budgets :
  interleaved sched cf cf' → within budgets (lthreads cf) →
  ∃ budgets', within budgets' (lthreads cf') ∧
    (sum_list budgets = length sched + sum_list budgets')%nat.
Proof.
  induction 1 as [cf|sched i cf cf' cf'' _ IH Hstep]; intros Hw.
  - exists budgets. by split.
  - destruct (IH Hw) as (bs & Hbs & Hsum).
    destruct (within_step _ _ _ _ Hstep Hbs) as (bs' & Hbs' & Hsum').
    exists bs'. split; [done|]. rewrite length_app. simpl. lia.
Qed.

Lemma bounded_schedule n ps s sched cf :
  Forall (steps_within n) ps → interleaved sched (called ps s) cf →
  (length sched ≤ n * length ps)%nat.
Proof.
  intros Hps Hs.
  destruct (within_interleaved _ _ _ (replicate (length ps) n) Hs) as (bs & _ & Hsum).
  - unfold within. simpl. clear Hs. induction Hps as [|p ps Hp _ IH]; simpl; by constructor.
  - enough (sum_list (replicate (length ps) n) = n * length ps)%nat by lia.
    generalize (length ps). intros m. induction m as [|m IH]; simpl; lia.
Qed.

(** ** The order of the moments *)

Lemma step_commits i (cf cf' : conf A B R) :
  lstep i cf cf' → ∃ l, commits cf' = commits cf ++ l ∧ l ⊆ [i].
Proof.
  intros Hstep. destruct Hstep; simpl; try (exists []; rewrite app_nil_r; set_solver);
    unfold commit; case_bool_decide; first [exists []; rewrite app_nil_r; set_solver|exists [i]; set_solver].
Qed.

Lemma interleaved_commits sched (cf cf' : conf A B R) :
  interleaved sched cf cf' → ∃ l, commits cf' = commits cf ++ l ∧ l ⊆ sched.
Proof.
  induction 1 as [cf|sched i cf cf' cf'' _ (l & IH & Hl) Hstep].
  - exists []. rewrite app_nil_r. set_solver.
  - destruct (step_commits _ _ _ Hstep) as (l' & -> & Hl'). exists (l ++ l').
    rewrite IH, app_assoc. set_solver.
Qed.

(** An operation that had returned before another began comes before it. *)
Lemma returned_first ps s0 sched1 sched2 cf1 cf i j r :
  Forall (disciplined false nothing) ps →
  interleaved sched1 (called ps s0) cf1 → interleaved sched2 cf1 cf →
  returned cf1 i r → j ∉ sched1 → j ∈ commits cf →
  ∃ before after, commits cf = before ++ after ∧ i ∈ before ∧ j ∈ after.
Proof.
  intros Hps Hs1 Hs2 [h Hi] Hj Hin.
  pose proof (atomic_interleaved _ _ _ _ Hps Hs1) as Hat1.
  destruct (interleaved_commits _ _ _ Hs1) as (l1 & Hc1 & Hl1).
  destruct (interleaved_commits _ _ _ Hs2) as (l2 & Hc2 & _).
  exists (commits cf1), l2. split_and!; [done| |].
  - by destruct (atomic_threads _ _ _ Hat1 i _ Hi) as (_ & ? & _).
  - rewrite Hc2 in Hin. apply elem_of_app in Hin as [Hin|?]; [|done].
    rewrite Hc1 in Hin. simpl in Hin. by destruct Hj; apply Hl1.
Qed.
End atomicity.

(** ** Playing a schedule *)

Section playing.
Context {A B R : Type}.
Implicit Types (cf : conf A B R).

Definition grantableb (ths : list (lthread A B R)) (c : cell) (m : mode) : bool :=
  forallb (λ th, match m with
                 | Writing => bool_decide (holds (has th) c = None)
                 | Reading => bool_decide (holds (has th) c ≠ Some Writing)
                 end) ths.

Definition next (i : nat) cf : option (conf A B R) :=
  let '(MkConf s ths cs) := cf in
  let go l h := <[i := MkLThread l h]> ths in
  match ths !! i with
  | Some (MkLThread (inl p) h) =>
      match p with
      | LRet r => Some (MkConf s (go (inr r) h) (commit i cs))
      | Lock c m k =>
          if grantableb ths c m then Some (MkConf s (go (inl k) (set_held c (Some m) h)) cs)
          else None
      | Unlock c k => Some (MkConf s (go (inl k) (set_held c None h)) (commit i cs))
      | Get1 k => Some (MkConf s (go (inl (k s.1)) h) cs)
      | Set1 a k => Some (MkConf (a, s.2) (go (inl k) h) cs)
      | Get2 k => Some (MkConf s (go (inl (k s.2)) h) cs)
      | Set2 b k => Some (MkConf (s.1, b) (go (inl k) h) cs)
      end
  | _ => None
  end.

Fixpoint play (sched : list nat) cf : option (conf A B R) :=
  match sched with
  | [] => Some cf
  | i :: sched => cf ← next i cf; play sched cf
  end.

Lemma next_step i cf cf' : next i cf = Some cf' → lstep i cf cf'.
Proof.
  destruct cf as [s ths cs]. simpl. destruct (ths !! i) as [[[p|r] h]|] eqn:Hi; try done.
  destruct p; intros Hn; try (injection Hn as <-; by constructor).
  case_match eqn:Hg; [|done]. injection Hn as <-. constructor; [done|].
  apply Forall_forall. intros th Hth%list_elem_of_In. apply forallb_forall with (x := th) in Hg; [|done].
  destruct m; by apply bool_decide_eq_true_1 in Hg.
Qed.

Lemma interleaved_cons i sched cf cf' cf'' :
  lstep i cf cf' → interleaved sched cf' cf'' → interleaved (i :: sched) cf cf''.
Proof.
  intros Hi. induction 1 as [cf'|sched j cf' c1 c2 _ IH Hj].
  - eapply (interleaved_step []); [constructor|done].
  - rewrite app_comm_cons. econstructor; [by apply IH|done].
Qed.

Lemma play_interleaved sched cf cf' : play sched cf = Some cf' → interleaved sched cf cf'.
Proof.
  revert cf. induction sched as [|i sched IH]; intros cf; simpl; [intros [= ->]; constructor|].
  intros (cf1 & H1%next_step & H2%IH)%bind_Some. by eapply interleaved_cons.
Qed.
End playing.
