(* ===== verification/CacheLocks.v ===== *)
(** * The locks of the cache engine: [src/src/cache.rs]

    [LruCacheEngine] keeps its container and its byte counter behind two
    [RwLock]s, and is shared by all worker threads.  Here its operations are the
    programs of [Locks.v] that the code is: which lock is taken when, in which mode,
    what is read and written under it, and when it is released.  Running alone they
    are the operations of [Cache.v]; running together they are atomic, so that the
    running system may take each of them as one step. *)

From S2P Require Import Prelude RustStr NetAddr Log Config Security Cache CacheSpec Locks.

Section cache_locks.
Context {L : Type → Type} `{LruOps L} {HeaderMap : Type}.

#[local] Abbreviation asset := (CachedAsset HeaderMap).
#[local] Abbreviation engine := (LruCacheEngine L HeaderMap).

(** ** The calls *)

(** A call of a method, with the answers of the clock it reads *)
Inductive engine_call : Type :=
| GetCall (now : Z) (key : str)
| InsertCall (now : Z) (key : str) (status : Z) (headers : HeaderMap) (body : str)
    (ttl_override : option Z)
| MemoryCall
| CountCall.

Inductive engine_reply : Type :=
| GotReply (found : option asset)
| InsertReply (r : InsertResult)
| MemoryReply (bytes : Z)
| CountReply (n : Z).

(** The method as one step *)
Definition call_atomically (c : engine_call) (e : engine) : engine_reply * engine :=
  match c with
  | GetCall now key => let '(r, e) := cache_get now key e in (GotReply r, e)
  | InsertCall now key status headers body ttl_override =>
      let '(r, e) := cache_insert now key status headers body ttl_override e in (InsertReply r, e)
  | MemoryCall => (MemoryReply (current_memory_bytes e), e)
  | CountCall => (CountReply (entry_count e), e)
  end.

(** ** The cells *)

(** What the locks protect: the container, and the counter, each with the poison flag
    of its lock *)
#[local] Abbreviation container := (L asset * bool)%type.
#[local] Abbreviation counter := (Z * bool)%type.
#[local] Abbreviation program := (lprog container counter engine_reply).

(** The fields without a lock, which never change *)
Record limits : Type := MkLimits {
  limit_capacity : Z; limit_file : Z; limit_ttl : Z }.

Definition limits_of (e : engine) : limits :=
  MkLimits (max_capacity_bytes e) (max_file_size_bytes e) (default_ttl e).

Definition cells_of (e : engine) : container * counter :=
  ((cache_inner e, cache_inner_poisoned e), (current_memory e, current_memory_poisoned e)).

(** ** The methods *)

(** [LruCacheEngine::get] *)
Definition get_locked (now : Z) (key : str) : program :=
  Lock First Writing (Get1 (λ '(guard, poisoned),
    if (poisoned : bool) then Unlock First (LRet (GotReply None))
    else
      let '(found, guard) := lru_get_mut key guard in
      Set1 (guard, poisoned)
        match found with
        | Some item =>
            if is_expired now item then
              Set1 ((lru_pop key guard).2, poisoned)
                (Lock Second Writing (Get2 (λ '(mem, mem_poisoned),
                  let leave := Unlock Second (Unlock First (LRet (GotReply None))) in
                  if (mem_poisoned : bool) then leave
                  else Set2 (saturating_sub mem (size_bytes item), mem_poisoned) leave)))
            else Unlock First (LRet (GotReply (Some item)))
        | None => Unlock First (LRet (GotReply None))
        end)).

(** [LruCacheEngine::insert] *)
Definition insert_locked (lim : limits) (now : Z) (key : str) (status : Z) (headers : HeaderMap)
    (body : str) (ttl_override : option Z) : program :=
  let size := Z.of_nat (length body) in
  if limit_file lim <? size then LRet (InsertReply (refuse (lit "exceeds_max_file_size")))
  else if limit_capacity lim <? size then LRet (InsertReply (refuse (lit "exceeds_max_capacity")))
  else
    let asset := MkCachedAsset status headers body now (default (limit_ttl lim) ttl_override) size in
    let lock_error := LRet (InsertReply (refuse (lit "lock_error"))) in
    Lock First Writing (Get1 (λ '(guard, poisoned),
      if (poisoned : bool) then Unlock First lock_error
      else Lock Second Writing (Get2 (λ '(mem, mem_poisoned),
        if (mem_poisoned : bool) then Unlock Second (Unlock First lock_error)
        else
          let '(guard, mem, bytes, items) :=
            evict (lru_len guard) (limit_capacity lim) size guard mem 0 0 in
          if usize_wrap (mem + size) <=? limit_capacity lim then
            let '(old, guard) := lru_put key asset guard in
            let mem := match old with
                       | Some old => saturating_sub mem (size_bytes old)
                       | None => mem
                       end in
            Set1 (guard, poisoned) (Set2 (usize_wrap (mem + size), mem_poisoned)
              (Unlock Second (Unlock First
                 (LRet (InsertReply (MkInsertResult true size bytes items None))))))
          else
            Set1 (guard, poisoned) (Set2 (mem, mem_poisoned)
              (Unlock Second (Unlock First
                 (LRet (InsertReply (MkInsertResult false 0 bytes items
                          (Some (lit "capacity_full_after_eviction")))))))))))).

(** [LruCacheEngine::current_memory_bytes] *)
Definition memory_locked : program :=
  Lock Second Reading (Get2 (λ '(mem, poisoned),
    Unlock Second (LRet (MemoryReply (if (poisoned : bool) then 0 else mem))))).

(** [LruCacheEngine::entry_count] *)
Definition count_locked : program :=
  Lock First Reading (Get1 (λ '(guard, poisoned),
    Unlock First (LRet (CountReply (if (poisoned : bool) then 0 else Z.of_nat (lru_len guard)))))).

Definition call_locked (lim : limits) (c : engine_call) : program :=
  match c with
  | GetCall now key => get_locked now key
  | InsertCall now key status headers body ttl_override =>
      insert_locked lim now key status headers body ttl_override
  | MemoryCall => memory_locked
  | CountCall => count_locked
  end.

Definition locked_calls (lim : limits) (cs : list engine_call) : list program :=
  call_locked lim <$> cs.

(** The threads that call the methods of one engine *)
Definition calling (e : engine) (cs : list engine_call) :=
  called (locked_calls (limits_of e) cs) (cells_of e).

(** The calls one after the other, in the given order *)
Fixpoint in_turn (cs : list engine_call) (order : list nat) (e : engine) :
    list (nat * engine_reply) * engine :=
  match order with
  | [] => ([], e)
  | i :: order =>
      match cs !! i with
      | Some c =>
          let '(r, e) := call_atomically c e in
          let '(rs, e) := in_turn cs order e in ((i, r) :: rs, e)
      | None => in_turn cs order e
      end
  end.
End cache_locks.
Arguments engine_call HeaderMap : clear implicits.
Arguments engine_reply HeaderMap : clear implicits.

(** ** Alone *)

Section alone.
Context {L : Type → Type} `{LruOps L} {HeaderMap : Type}.
Implicit Types (e : LruCacheEngine L HeaderMap) (c : engine_call HeaderMap).

(** A method that nobody interferes with is the operation of [Cache.v], and the
    fields without a lock stay as they are. *)
Lemma run_get now key e :
  run (get_locked now key) (cells_of e) =
    (GotReply (cache_get now key e).1, cells_of (cache_get now key e).2) ∧
  limits_of (cache_get now key e).2 = limits_of e.
Proof.
  destruct e as [l p cap file ttl mem mp]. unfold cache_get. simpl. destruct p; [done|].
  destruct (lru_get_mut key l) as [[item|] l']; [|done]. simpl.
  destruct (is_expired now item); [|done]. by destruct mp.
Qed.

Lemma run_insert now key status headers body ttl e :
  run (insert_locked (limits_of e) now key status headers body ttl) (cells_of e) =
    (InsertReply (cache_insert now key status headers body ttl e).1,
     cells_of (cache_insert now key status headers body ttl e).2) ∧
  limits_of (cache_insert now key status headers body ttl e).2 = limits_of e.
Proof.
  destruct e as [l p cap file dttl mem mp]. unfold cache_insert, insert_locked. simpl.
  case_if; [done|]. case_if; [done|]. destruct p; [done|]. simpl. destruct mp; [done|].
  destruct (evict _ _ _ _ _ _ _) as [[[l' mem'] bytes] items]. case_if; [|done].
  by destruct (lru_put _ _ _) as [[old|] l''].
Qed.

Lemma run_alone c e :
  run (call_locked (limits_of e) c) (cells_of e) =
    ((call_atomically c e).1, cells_of (call_atomically c e).2) ∧
  limits_of (call_atomically c e).2 = limits_of e.
Proof.
  destruct c as [now key|now key status headers body ttl| |]; cbn [call_locked call_atomically].
  - destruct (run_get now key e) as [-> <-]. by destruct (cache_get now key e).
  - destruct (run_insert now key status headers body ttl e) as [-> <-].
    by destruct (cache_insert now key status headers body ttl e).
  - done.
  - done.
Qed.

Lemma serial_in_turn (cs : list (engine_call HeaderMap)) order e :
  serial (locked_calls (limits_of e) cs) order (cells_of e) =
    ((in_turn cs order e).1, cells_of (in_turn cs order e).2).
Proof.
  revert e. induction order as [|i order IH]; intros e; simpl; [done|].
  unfold locked_calls at 1. rewrite list_lookup_fmap. destruct (cs !! i) as [c|]; simpl; [|apply IH].
  destruct (run_alone c e) as [-> Hlim]. destruct (call_atomically c e) as [r e']. simpl in *.
  rewrite <- Hlim, IH. by destruct (in_turn cs order e').
Qed.

(** The methods keep the discipline of the locks, and are short. *)
Lemma call_disciplined (lim : limits) c : disciplined false nothing (call_locked (L := L) lim c).
Proof.
  destruct c as [now key|now key status headers body ttl| |]; simpl.
  - do 3 (split; [done|]). do 2 (split; [eauto|]). intros [g []]; simpl; [by eauto|].
    destruct (lru_get_mut key g) as [[item|] g']; simpl; [|by eauto 6].
    destruct (is_expired now item); simpl; [|by eauto 6]. do 9 (split; [by eauto|]).
    intros [mem []]; simpl; by eauto 8.
  - unfold insert_locked. do 2 (case_if; [done|]). simpl.
    do 3 (split; [done|]). do 2 (split; [eauto|]). intros [g []]; simpl; [by eauto|].
    do 5 (split; [by eauto|]). intros [mem []]; simpl; [by eauto 6|].
    destruct (evict _ _ _ _ _ _ _) as [[[l' mem'] bytes] items].
    case_if; [destruct (lru_put _ _ _)|]; simpl; by eauto 12.
  - do 3 (split; [done|]). do 2 (split; [eauto|]). intros [mem b]. simpl. by eauto.
  - do 3 (split; [done|]). do 2 (split; [eauto|]). intros [g b]. simpl. by eauto.
Qed.

Lemma call_short (lim : limits) c : steps_within 10 (call_locked (L := L) lim c).
Proof.
  destruct c as [now key|now key status headers body ttl| |]; simpl.
  - intros [g []]; [done|]. destruct (lru_get_mut key g) as [[item|] g']; [|done].
    destruct (is_expired now item); [|done]. by intros [mem []].
  - unfold insert_locked. do 2 (case_if; [done|]). intros [g []]; [done|]. intros [mem []]; [done|].
    destruct (evict _ _ _ _ _ _ _) as [[[l' mem'] bytes] items].
    case_if; [destruct (lru_put _ _ _)|]; done.
  - by intros [mem b].
  - by intros [g b].
Qed.
End alone.

(** ** Together *)

Section together.
Context {L : Type → Type} `{LruOps L} {HeaderMap : Type}.
Implicit Types (e : LruCacheEngine L HeaderMap) (cs : list (engine_call HeaderMap)).

Lemma calling_disciplined e cs :
  Forall (disciplined false nothing) (locked_calls (limits_of e) cs).
Proof. apply Forall_fmap, Forall_true. intros c. apply call_disciplined. Qed.

Lemma calling_atomic e cs sched cf :
  interleaved sched (calling e cs) cf →
  atomic (locked_calls (limits_of e) cs) (cells_of e) cf.
Proof. apply atomic_interleaved, calling_disciplined. Qed.

(** C8: The cache engine is linearizable.  However the lock, unlock, read and write
    steps of any number of calls interleave, the calls behave as if each ran alone at
    one moment: there is an order of the calls such that every reply is the one the
    atomic operations give in this order, the engine that is left when all have
    returned is the one they leave, and a call that had returned before another
    began comes before it. *)
Theorem cache_linearizable e cs sched cf :
  interleaved sched (calling e cs) cf →
  ∃ order, NoDup order ∧ order ⊆ sched ∧
    (∀ i r, returned cf i r → (i, r) ∈ (in_turn cs order e).1) ∧
    (all_returned cf → cells cf = cells_of (in_turn cs order e).2) ∧
    ∀ sched1 sched2 cf1 i j r,
      interleaved sched1 (calling e cs) cf1 → interleaved sched2 cf1 cf →
      returned cf1 i r → j ∉ sched1 → j ∈ order →
      ∃ before after, order = before ++ after ∧ i ∈ before ∧ j ∈ after.
Proof.
  intros Hs. pose proof (calling_atomic _ _ _ _ Hs) as Hat. exists (commits cf). split_and!.
  - apply (atomic_once _ _ _ Hat).
  - destruct (interleaved_commits _ _ _ Hs) as (l & -> & Hl). simpl. done.
  - intros i r Hr. apply (atomic_replies _ _ _ _ _ Hat) in Hr. unfold replies_to in Hr.
    by rewrite serial_in_turn in Hr.
  - intros Hall. rewrite (atomic_final _ _ _ Hat Hall). unfold abstract. by rewrite serial_in_turn.
  - intros sched1 sched2 cf1 i j r. apply returned_first, calling_disciplined.
Qed.

(** C34: The locks of the cache engine never block it for good: in every state that
    any interleaving of calls reaches, either all have returned, or one can take a
    step, and if that step takes a lock, nobody holds the lock; and after ten steps
    for each call all have returned. *)
Theorem cache_calls_return e cs sched cf :
  interleaved sched (calling e cs) cf →
  (all_returned cf ∨ ∃ i, can_go (lthreads cf) i ∧ ∃ cf', lstep i cf cf') ∧
  (length sched ≤ 10 * length cs)%nat.
Proof.
  intros Hs. pose proof (calling_atomic _ _ _ _ Hs) as Hat. split.
  - destruct (decide (all_returned cf)) as [?|Hnot]; [by left|right].
    destruct (progress _ _ _ Hat Hnot) as [i Hi]. exists i. split; [done|]. by apply can_go_step.
  - rewrite <- (length_fmap (call_locked (limits_of e)) cs).
    eapply bounded_schedule; [|exact Hs]. apply Forall_fmap, Forall_true. intros c. apply call_short.
Qed.
End together.

(** ** Examples *)

(** Two lookups of an expired entry and a reading of the counter, interleaved: the
    counter is read between the removal of the entry and that of its bytes. *)
Definition race_calls : list (engine_call unit) :=
  [GetCall 70000000000 (lit "a"); MemoryCall; GetCall 70000000000 (lit "a"); CountCall].

Definition race_schedule : list nat :=
  [0; 0; 0; 0; 1; 1; 1; 1; 0; 0; 0; 0; 0; 0; 2; 2; 2; 2; 2; 3; 3; 3; 3]%nat.

Definition race_end : option (conf (ListLru (CachedAsset unit) * bool) (Z * bool) (engine_reply unit)) :=
  play race_schedule (calling sample_engine race_calls).

(** Operation 1 returned the three bytes of the entry. *)
Definition saw_bytes (cf : conf (ListLru (CachedAsset unit) * bool) (Z * bool) (engine_reply unit)) :
    bool :=
  match lthreads cf !! 1%nat with
  | Some (MkLThread (inr (MemoryReply 3)) _) => true
  | _ => false
  end.

Lemma saw_bytes_spec cf : saw_bytes cf = true → returned cf 1 (MemoryReply 3).
Proof.
  unfold saw_bytes, returned. intros Hs. repeat (case_match; try done). simplify_eq. eauto.
Qed.

Lemma cache_linearizable_witness :
  ∃ order, NoDup order ∧ (1%nat, MemoryReply 3) ∈ (in_turn race_calls order sample_engine).1.
Proof.
  assert (match race_end with Some cf => saw_bytes cf | None => false end = true) as Hsaw
    by (vm_compute; reflexivity).
  destruct race_end as [cf|] eqn:Hend; [|discriminate Hsaw].
  destruct (cache_linearizable sample_engine race_calls race_schedule cf
    (play_interleaved _ _ _ Hend)) as (order & Hnd & _ & Hreplies & _).
  exists order. exact (conj Hnd (Hreplies _ _ (saw_bytes_spec cf Hsaw))).
Defined.

Lemma cache_calls_return_witness : (length race_schedule ≤ 10 * length race_calls)%nat.
Proof.
  assert (match race_end with Some cf => saw_bytes cf | None => false end = true) as Hsaw
    by (vm_compute; reflexivity).
  destruct race_end as [cf|] eqn:Hend; [|discriminate Hsaw].
  exact (proj2 (cache_calls_return sample_engine race_calls race_schedule cf
    (play_interleaved _ _ _ Hend))).
Defined.
