(* ===== verification/CacheRefine.v ===== *)
(** * The cache as a list in order of use

    What [LruCacheEngine] promises its callers, without container, counter, locks
    or loops: a list of entries, the most recently used first, that never holds more
    bytes than the capacity.  The engine refines it on every sequence of calls that
    stores under at most 10,000 keys, the number of entries its container can
    hold. *)

From S2P Require Import Prelude RustStr NetAddr Log Config Security Cache CacheSpec Locks CacheLocks.

(** ** The specification *)

Section model.
Context {HeaderMap : Type}.
#[local] Abbreviation asset := (CachedAsset HeaderMap).
#[local] Abbreviation entry := (str * asset)%type.
Implicit Types (es : list entry) (c : engine_call HeaderMap).

(** The most recently used entries that fit into [room] bytes *)
Fixpoint fitting (room : Z) es : list entry :=
  match es with
  | [] => []
  | x :: es' =>
      if size_bytes x.2 <=? room then x :: fitting (room - size_bytes x.2) es' else []
  end.

(** A lookup makes a fresh entry the most recent and removes an expired one. *)
Definition model_get (now : Z) (key : str) es : option asset * list entry :=
  match assoc key es with
  | Some a => if is_expired now a then (None, remove_key key es)
              else (Some a, (key, a) :: remove_key key es)
  | None => (None, es)
  end.

(** An insertion within the limits makes room by dropping the least recently used
    entries and puts the new one in front, in place of the old one under its key. *)
Definition model_insert (lim : limits) (now : Z) (key : str) (status : Z) (headers : HeaderMap)
    (body : str) (ttl_override : option Z) es : InsertResult * list entry :=
  let size := Z.of_nat (length body) in
  if limit_file lim <? size then (refuse (lit "exceeds_max_file_size"), es)
  else if limit_capacity lim <? size then (refuse (lit "exceeds_max_capacity"), es)
  else
    let kept := fitting (limit_capacity lim - size) es in
    let gone := drop (length kept) es in
    (MkInsertResult true size (total gone) (Z.of_nat (length gone)) None,
     (key, MkCachedAsset status headers body now (default (limit_ttl lim) ttl_override) size)
       :: remove_key key kept).

Definition model_call (lim : limits) c es : engine_reply HeaderMap * list entry :=
  match c with
  | GetCall now key => let '(r, es) := model_get now key es in (GotReply r, es)
  | InsertCall now key status headers body ttl_override =>
      let '(r, es) := model_insert lim now key status headers body ttl_override es in
      (InsertReply r, es)
  | MemoryCall => (MemoryReply (total es), es)
  | CountCall => (CountReply (Z.of_nat (length es)), es)
  end.

(** The replies to a sequence of calls, and what is left *)
Fixpoint model_calls (lim : limits) (cs : list (engine_call HeaderMap)) es :
    list (engine_reply HeaderMap) * list entry :=
  match cs with
  | [] => ([], es)
  | c :: cs =>
      let '(r, es) := model_call lim c es in
      let '(rs, es) := model_calls lim cs es in (r :: rs, es)
  end.

(** The keys a call stores under *)
Definition call_keys c : list str :=
  match c with InsertCall _ key _ _ _ _ => [key] | _ => [] end.

Lemma fitting_unique room es kept gone max_file :
  es = kept ++ gone → Forall (λ x, asset_ok max_file x.2) es → total kept ≤ room →
  (gone = [] ∨ room < total kept + total (take 1 gone)) → fitting room es = kept.
Proof.
  intros -> Hok. revert room. induction kept as [|x kept IH]; intros room Hroom Hmin; simpl in *.
  - destruct gone as [|y gone]; [done|]. simpl in *. destruct Hmin as [?|Hmin]; [done|].
    by rewrite (proj2 (Z.leb_gt _ _)) by lia.
  - apply Forall_cons in Hok as [Hx Hok]. pose proof Hok as Hk. apply Forall_app in Hk as [Hk _].
    apply total_nonneg in Hk. rewrite (proj2 (Z.leb_le _ _)) by lia.
    f_equal. apply IH; [done|lia|]. destruct Hmin as [?|?]; [by left|right; lia].
Qed.
End model.

(** ** The refinement *)

Section refinement.
Context {L : Type → Type} `{LruLaws L} {HeaderMap : Type}.
#[local] Set Default Proof Using "Type*".
#[local] Abbreviation engine := (LruCacheEngine L HeaderMap).
Implicit Types (e : engine) (es : list (str * CachedAsset HeaderMap)) (c : engine_call HeaderMap)
  (K : gset str).

(** The engine holds the entries of the list, in the same order, and its counter is
    exact; all keys are among [K]. *)
Record refines (K : gset str) (e : engine) es : Prop := {
  refines_ok : engine_ok e;
  refines_entries : entries e = es;
  refines_memory : current_memory e = total es;
  refines_keys : ∀ k, k ∈ es.*1 → k ∈ K }.

Fixpoint run_calls (cs : list (engine_call HeaderMap)) e : list (engine_reply HeaderMap) * engine :=
  match cs with
  | [] => ([], e)
  | c :: cs =>
      let '(r, e) := call_atomically c e in
      let '(rs, e) := run_calls cs e in (r :: rs, e)
  end.

Lemma remove_key_fst k k' es : k' ∈ (remove_key k es).*1 → k' ∈ es.*1.
Proof.
  intros (x & -> & [Hx _]%remove_key_elem)%list_elem_of_fmap. by apply list_elem_of_fmap_2.
Qed.

Lemma refines_get K now key e es :
  refines K e es →
  (cache_get now key e).1 = (model_get now key es).1 ∧
  refines K (cache_get now key e).2 (model_get now key es).2.
Proof.
  intros [Hok Hes Hmem HK]. pose proof (cache_get_ok now key e Hok) as Hok'.
  destruct Hok as [[Hl1 Hl2] _ He _ _]. unfold cache_get, model_get in *. rewrite Hl1, Hl2 in *.
  destruct (lru_get_mut_spec key (cache_inner e)) as (Hg1 & Hg2 & _).
  destruct (lru_get_mut key (cache_inner e)) as [found l]. simpl in Hg1, Hg2.
  fold (entries e) in Hg1, Hg2. rewrite Hes in Hg1, Hg2, He. subst found.
  destruct (assoc key es) as [a|] eqn:Ha; cycle 1.
  { simpl in *. split; [done|]. by split. }
  assert (key ∈ K) as Hkey.
  { apply HK, (list_elem_of_fmap_2' fst es (key, a)); [by apply assoc_elem|done]. }
  destruct (is_expired now a); simpl in *; (split; [done|]); split; try done; unfold entries; simpl.
  - destruct (lru_pop_spec key l) as (_ & -> & _). rewrite Hg2. simpl. unfold str_eqb.
    rewrite bool_decide_eq_true_2 by done. by rewrite remove_key_id by apply remove_key_fresh.
  - pose proof (total_remove_key key a es (ok_nodup _ _ _ _ He) Ha) as Ht.
    pose proof (total_nonneg _ _ (remove_key_Forall _ key _ (ok_sizes _ _ _ _ He))).
    rewrite saturating_sub_exact by lia. lia.
  - intros k Hk. by eapply HK, remove_key_fst.
  - rewrite Hmem. pose proof (total_remove_key key a es (ok_nodup _ _ _ _ He) Ha). lia.
  - intros k [->|Hk]%elem_of_cons; [done|]. by eapply HK, remove_key_fst.
Qed.

(** With all keys among [K], the container has room for one more. *)
Lemma room_for_key K key es :
  (size K ≤ lru_capacity)%nat → key ∈ K → (∀ k, k ∈ es.*1 → k ∈ K) → NoDup es.*1 →
  key ∉ es.*1 → (length es < lru_capacity)%nat.
Proof.
  intros Hsize Hkey HK Hnd Hfresh. eapply Nat.lt_le_trans; [|exact Hsize].
  rewrite <- (length_fmap fst). change (S (length es.*1) ≤ size K)%nat.
  change (S (length es.*1)) with (length (key :: es.*1)).
  rewrite <- (size_list_to_set (C := gset str) (key :: es.*1)) by by apply NoDup_cons.
  apply subseteq_size. intros k [->|Hk]%elem_of_list_to_set%elem_of_cons; auto.
Qed.

Lemma after_put_remove K key es :
  (size K ≤ lru_capacity)%nat → key ∈ K → (∀ k, k ∈ es.*1 → k ∈ K) → NoDup es.*1 →
  after_put key es = remove_key key es.
Proof.
  intros Hsize Hkey HK Hnd. unfold after_put. destruct (assoc key es) as [a|] eqn:Ha; simpl.
  - done.
  - apply assoc_None in Ha. rewrite remove_key_id by done.
    rewrite bool_decide_eq_true_2; [done|]. by eapply room_for_key.
Qed.

Lemma total_tail (es : list (str * CachedAsset HeaderMap)) :
  total es = total (take 1 es) + total (tail es).
Proof. destruct es as [|x es]; simpl; [done|]. lia. Qed.

Lemma refines_insert K now key status headers body ttl e es :
  (size K ≤ lru_capacity)%nat → key ∈ K → refines K e es →
  let r := model_insert (limits_of e) now key status headers body ttl es in
  (cache_insert now key status headers body ttl e).1 = r.1 ∧
  refines K (cache_insert now key status headers body ttl e).2 r.2.
Proof.
  intros HK Hkey Href. pose proof Href as [Hok Hes Hmem Hkeys]. unfold model_insert. simpl.
  destruct (Z.ltb_spec (max_file_size_bytes e) (Z.of_nat (length body))) as [Hf|Hf].
  { unfold cache_insert. by rewrite (proj2 (Z.ltb_lt _ _) Hf). }
  destruct (Z.ltb_spec (max_capacity_bytes e) (Z.of_nat (length body))) as [Hc|Hc].
  { unfold cache_insert. rewrite (proj2 (Z.ltb_ge _ _) Hf). by rewrite (proj2 (Z.ltb_lt _ _) Hc). }
  pose proof (cache_insert_ok now key status headers body ttl e Hok) as Hok'.
  destruct (insert_spec now key status headers body ttl e Hok Hf Hc)
    as (l & kept & gone & (Hsplit & Hmin & Hend) & Hg0 & Hk & _ & Hl & Heq).
  rewrite Heq in *. clear Heq. set (sz := Z.of_nat (length body)) in *. rewrite Hes in Hsplit.
  pose proof (ok_sizes _ _ _ _ (engine_entries _ Hok)) as Hsizes. rewrite Hes in Hsizes.
  assert (total es = total kept + total gone) as Htot by (by rewrite Hsplit, total_app).
  assert (0 ≤ total kept) as Hk0 by (by eapply entries_ok_nonneg).
  assert (current_memory e - total gone + sz ≤ max_capacity_bytes e) as Hfits.
  { destruct Hend as [?| ->]; [done|]. simpl in *. lia. }
  rewrite (bool_decide_eq_true_2 _ Hfits) in *.
  assert (fitting (max_capacity_bytes e - sz) es = kept) as ->.
  { eapply (fitting_unique _ _ _ gone); [done|done|lia|].
    destruct Hmin as [?|Hmin]; [by left|right]. pose proof (total_tail gone). lia. }
  assert (drop (length kept) es = gone) as -> by (by rewrite Hsplit, drop_app_length).
  assert (∀ k, k ∈ kept.*1 → k ∈ K) as Hkept.
  { intros k Hin. apply Hkeys. rewrite Hsplit, fmap_app. apply elem_of_app. by left. }
  pose proof (after_put_remove K key kept HK Hkey Hkept (ok_nodup _ _ _ _ Hk)) as Hput.
  rewrite Hput in Hl. simpl. split; [done|]. split; simpl; [done|exact Hl| |].
  - unfold replaced. destruct (assoc key kept) as [a|] eqn:Ha; simpl.
    + pose proof (total_remove_key key a kept (ok_nodup _ _ _ _ Hk) Ha). lia.
    + apply assoc_None in Ha. rewrite remove_key_id by done. lia.
  - intros k [->|Hin]%elem_of_cons; [done|]. by eapply Hkept, remove_key_fst.
Qed.

Lemma refines_call K c e es :
  (size K ≤ lru_capacity)%nat → (∀ k, k ∈ call_keys c → k ∈ K) → refines K e es →
  (call_atomically c e).1 = (model_call (limits_of e) c es).1 ∧
  refines K (call_atomically c e).2 (model_call (limits_of e) c es).2.
Proof.
  intros HK Hkeys Href. destruct c as [now key|now key status headers body ttl| |]; simpl.
  - destruct (refines_get K now key e es Href) as [Hr Hs].
    destruct (cache_get now key e), (model_get now key es). simpl in *. by subst.
  - destruct (refines_insert K now key status headers body ttl e es) as [Hr Hs]; [done| |done|].
    { apply Hkeys. by left. }
    destruct (cache_insert now key status headers body ttl e),
      (model_insert (limits_of e) now key status headers body ttl es). simpl in *. by subst.
  - split; [|done]. destruct Href as [[[_ Hl] _ _ _ _] _ Hmem _].
    unfold current_memory_bytes. by rewrite Hl, Hmem.
  - split; [|done]. destruct Href as [[[Hl _] _ _ _ _] Hes _ _].
    unfold entry_count. rewrite Hl, lru_len_spec. by rewrite <- Hes.
Qed.

Lemma refines_calls K cs e es :
  (size K ≤ lru_capacity)%nat → (∀ c k, c ∈ cs → k ∈ call_keys c → k ∈ K) → refines K e es →
  (run_calls cs e).1 = (model_calls (limits_of e) cs es).1 ∧
  refines K (run_calls cs e).2 (model_calls (limits_of e) cs es).2.
Proof.
  intros HK. revert e es. induction cs as [|c cs IH]; intros e es Hkeys Href; simpl; [done|].
  destruct (refines_call K c e es) as [Hr Hs]; [done|intros k; apply Hkeys; by left|done|].
  destruct (run_alone c e) as [_ Hlim].
  destruct (call_atomically c e) as [r e'], (model_call (limits_of e) c es) as [r' es'].
  simpl in *. subst r'. rewrite <- Hlim.
  destruct (IH e' es') as [Hr' Hs']; [intros c' k Hc'; apply Hkeys; by right|done|].
  destruct (run_calls cs e'), (model_calls (limits_of e') cs es'). simpl in *. by subst.
Qed.

Lemma refines_new K cap max_file ttl_sec :
  capacity_ok cap → refines K (cache_new cap max_file ttl_sec) [].
Proof.
  intros Hcap. destruct (reachable_ok cap max_file ttl_sec (cache_new cap max_file ttl_sec : engine))
    as [Hok _]; [done|constructor|].
  split; [done| |done|by intros k ?%elem_of_nil]. unfold entries. simpl.
  by destruct (lru_new_spec (L := L) (V := CachedAsset HeaderMap) lru_capacity).
Qed.

(** C7: The cache engine is a byte-bounded LRU list, for every
    capacity below 2^63: on every sequence of lookups,
    insertions and queries that stores under at most 10,000 keys, it gives the
    replies of the specification, holds its entries in its order of use, and its
    byte counter is exactly their size. *)
Theorem cache_refines_lru cap max_file ttl_sec cs
    (lim := MkLimits cap max_file (duration_from_secs ttl_sec)) :
  capacity_ok cap → (size (list_to_set (mjoin (call_keys <$> cs)) : gset str) ≤ lru_capacity)%nat →
  let '(replies, e) := run_calls cs (cache_new cap max_file ttl_sec) in
  let '(expected, es) := model_calls lim cs [] in
  replies = expected ∧ entries e = es ∧ current_memory_bytes e = total es.
Proof.
  intros Hcap Hfew.
  destruct (refines_calls (list_to_set (mjoin (call_keys <$> cs))) cs
    (cache_new cap max_file ttl_sec) []) as [Hr Hs]; [done| |by apply refines_new|].
  { intros c k Hc Hk. apply elem_of_list_to_set, list_elem_of_join. exists (call_keys c).
    split; [done|]. by apply list_elem_of_fmap_2. }
  change (limits_of (cache_new cap max_file ttl_sec)) with lim in Hr, Hs.
  destruct (run_calls cs _) as [replies e], (model_calls lim cs []) as [expected es]. simpl in *.
  destruct Hs as [[[_ Hl] _ _ _ _] Hes Hmem _]. unfold current_memory_bytes. by rewrite Hl.
Qed.
End refinement.

(** ** Examples *)

(** Three bodies of four bytes in ten: the one that was looked up stays *)
Definition lru_calls : list (engine_call unit) :=
  [InsertCall 0 (lit "a") 200 tt (lit "1234") None; InsertCall 1 (lit "b") 200 tt (lit "1234") None;
   GetCall 2 (lit "a"); InsertCall 3 (lit "c") 200 tt (lit "1234") None;
   GetCall 4 (lit "b"); MemoryCall; CountCall].

Lemma cache_refines_lru_witness :
  let '(replies, e) := run_calls (L := ListLru) lru_calls (cache_new 10 8 60) in
  let '(expected, es) := model_calls (MkLimits 10 8 (duration_from_secs 60)) lru_calls [] in
  replies = expected ∧ entries e = es ∧ current_memory_bytes e = total es.
Proof.
  apply (cache_refines_lru 10 8 60 lru_calls).
  - split; [discriminate|reflexivity].
  - apply Nat2Z.inj_le. vm_compute. discriminate.
Defined.

Example lru_calls_replies :
  drop 4 (model_calls (MkLimits 10 8 (duration_from_secs 60)) lru_calls []).1 =
    [GotReply None; MemoryReply 8; CountReply 2].
Proof. vm_compute. reflexivity. Qed.
