(* ===== verification/CacheLifetime.v ===== *)
(** * How long an entry stays in the cache

    What was inserted is found again although other calls come in between: until its
    time to live has passed, as long as it fits into the capacity together with what
    has been stored and looked up since.  Proved on the list of [CacheRefine.v], which
    the engine refines. *)

From S2P Require Import Prelude RustStr NetAddr Log Config Security Cache CacheSpec Locks CacheLocks CacheRefine.

(** ** Entries by recency *)

Section recency.
Context {HeaderMap : Type}.
#[local] Abbreviation asset := (CachedAsset HeaderMap).
#[local] Abbreviation entry := (str * asset)%type.
Implicit Types (es : list entry) (c : engine_call HeaderMap) (a : asset).

(** The bytes a call has stored or looked up, by its reply *)
Definition bytes_used c (r : engine_reply HeaderMap) : Z :=
  match c, r with
  | InsertCall _ _ _ _ body _, InsertReply res =>
      if inserted res then Z.of_nat (length body) else 0
  | GetCall _ _, GotReply (Some a) => size_bytes a
  | _, _ => 0
  end.

Fixpoint bytes_used_all (cs : list (engine_call HeaderMap)) (rs : list (engine_reply HeaderMap)) : Z :=
  match cs, rs with
  | c :: cs', r :: rs' => bytes_used c r + bytes_used_all cs' rs'
  | _, _ => 0
  end.

(** The entry is there, and what was used after it is at most [b] bytes. *)
Definition recent (key : str) a (b : Z) es : Prop :=
  ∃ newer older, es = newer ++ (key, a) :: older ∧ (key ∉ newer.*1) ∧ total newer ≤ b.

Lemma assoc_recent key a b es : recent key a b es → assoc key es = Some a.
Proof.
  intros (newer & older & -> & Hfresh & _). induction newer as [|[k x] newer IH]; simpl in *.
  - unfold str_eqb. by rewrite bool_decide_eq_true_2.
  - apply not_elem_of_cons in Hfresh as [Hne Hfresh]. unfold str_eqb.
    rewrite bool_decide_eq_false_2 by done. by apply IH.
Qed.

Lemma remove_key_app k es es' : remove_key k (es ++ es') = remove_key k es ++ remove_key k es'.
Proof. induction es as [|[k' x] es IH]; simpl; [done|]. rewrite IH. by destruct (str_eqb k k'). Qed.

Lemma total_remove_le max_file k es :
  Forall (λ x, asset_ok max_file x.2) es → total (remove_key k es) ≤ total es.
Proof.
  induction 1 as [|[k' x] es [? ?] _ IH]; simpl in *; [done|]. destruct (str_eqb k k'); simpl; lia.
Qed.

(** Taking other keys out leaves the entry where it is. *)
Lemma recent_remove max_file k key a b es :
  k ≠ key → Forall (λ x, asset_ok max_file x.2) es → recent key a b es →
  recent key a b (remove_key k es).
Proof.
  intros Hne Hok (newer & older & -> & Hfresh & Hb). apply Forall_app in Hok as [Hn _].
  exists (remove_key k newer), (remove_key k older). split_and!.
  - rewrite remove_key_app. simpl. unfold str_eqb. by rewrite bool_decide_eq_false_2.
  - intros (x & -> & [Hx _]%remove_key_elem)%list_elem_of_fmap.
    by apply Hfresh, list_elem_of_fmap_2.
  - pose proof (total_remove_le _ k _ Hn). lia.
Qed.

Lemma recent_cons k x key a b es :
  k ≠ key → recent key a b es → recent key a (b + size_bytes x) ((k, x) :: es).
Proof.
  intros Hne (newer & older & -> & Hfresh & Hb). exists ((k, x) :: newer), older.
  split_and!; [done| |simpl; lia]. simpl. by apply not_elem_of_cons.
Qed.

Lemma recent_mono key a b b' es : b ≤ b' → recent key a b es → recent key a b' es.
Proof. intros Hle (newer & older & ? & ? & ?). exists newer, older. split_and!; [done..|lia]. Qed.

(** Making room keeps the entry when it fits together with the newer ones. *)
Lemma recent_fitting max_file key a b room es :
  Forall (λ x, asset_ok max_file x.2) es → b + size_bytes a ≤ room → recent key a b es →
  recent key a b (fitting room es).
Proof.
  intros Hok Hroom (newer & older & -> & Hfresh & Hb). exists newer.
  assert (∃ rest, fitting room (newer ++ (key, a) :: older) = newer ++ (key, a) :: rest) as [rest ->];
    [|by exists rest].
  assert (total newer + size_bytes a ≤ room) as Hfit by lia. clear Hroom Hb Hfresh.
  revert room Hfit. induction newer as [|x newer IH]; intros room Hfit; simpl in *.
  - rewrite (proj2 (Z.leb_le _ _)) by lia. by eexists.
  - apply Forall_cons in Hok as [[Hx _] Hok]. pose proof Hok as Hok'.
    apply Forall_app in Hok' as [Hn [[Ha _] _]%Forall_cons]. apply total_nonneg in Hn. simpl in Ha.
    rewrite (proj2 (Z.leb_le _ _)) by lia.
    destruct (IH Hok (room - size_bytes x.2)) as [rest ->]; [lia|]. by exists rest.
Qed.

Lemma recent_nonneg max_file key a b es :
  Forall (λ x, asset_ok max_file x.2) es → recent key a b es → 0 ≤ b.
Proof.
  intros Hok (newer & older & -> & _ & Hb). apply Forall_app in Hok as [Hn _].
  apply total_nonneg in Hn. lia.
Qed.

Lemma fitting_Forall (P : entry → Prop) room es : Forall P es → Forall P (fitting room es).
Proof.
  intros Hes. revert room. induction Hes as [|x es Hx _ IH]; intros room; simpl; [done|].
  case_if; by constructor.
Qed.

(** A call that stores nothing under the key, at a time when the entry is fresh, leaves
    it recent. *)
Lemma recent_call lim max_file c key a b es (r := model_call lim c es) :
  Forall (λ x, asset_ok max_file x.2) es → key ∉ call_keys c →
  (∀ now, c = GetCall now key → is_expired now a = false) →
  recent key a b es → b + bytes_used c r.1 + size_bytes a ≤ limit_capacity lim →
  recent key a (b + bytes_used c r.1) r.2.
Proof.
  intros Hok Hkey Hfresh Hrec. pose proof (recent_nonneg _ _ _ _ _ Hok Hrec). unfold r.
  destruct c as [now k|now k status headers body ttl| |]; simpl in *.
  - unfold model_get. destruct (assoc k es) as [x|] eqn:Hx; simpl; cycle 1.
    { intros _. by rewrite Z.add_0_r. }
    destruct (decide (k = key)) as [->|Hne].
    + rewrite (assoc_recent _ _ _ _ Hrec) in Hx. injection Hx as <-. rewrite Hfresh by done. simpl.
      intros _. exists [], (remove_key key es). split_and!; [done|apply not_elem_of_nil|]. simpl.
      apply assoc_recent, assoc_elem in Hrec. rewrite Forall_forall in Hok.
      destruct (Hok _ Hrec) as [Ha _]. simpl in Ha. lia.
    + pose proof (recent_remove _ k _ _ _ _ Hne Hok Hrec) as Hrem.
      destruct (is_expired now x); simpl; intros _; [by rewrite Z.add_0_r|].
      by apply recent_cons.
  - apply not_elem_of_cons in Hkey as [Hne _]. unfold model_insert.
    destruct (limit_file lim <? _); simpl; [intros _; by rewrite Z.add_0_r|].
    destruct (limit_capacity lim <? _); simpl; [intros _; by rewrite Z.add_0_r|]. intros Hfit.
    apply (recent_cons k (MkCachedAsset status headers body now _ _)); [done|].
    apply (recent_remove max_file); [done|by apply fitting_Forall|].
    eapply recent_fitting; [done| |done]. lia.
  - intros _. by rewrite Z.add_0_r.
  - intros _. by rewrite Z.add_0_r.
Qed.

(** Nothing else is stored under the key. *)
Definition only_asset (key : str) a es : Prop := ∀ x, (key, x) ∈ es → x = a.

Lemma fitting_elem room es x : x ∈ fitting room es → x ∈ es.
Proof.
  revert room. induction es as [|y es IH]; intros room; simpl; [done|]. case_if.
  - rewrite !elem_of_cons. intros [?|?]; eauto.
  - intros []%elem_of_nil.
Qed.

Lemma only_asset_call lim c key a es :
  key ∉ call_keys c → only_asset key a es → only_asset key a (model_call lim c es).2.
Proof.
  intros Hkey Hall x Hin. destruct c as [now k|now k status headers body ttl| |]; simpl in *; auto.
  - unfold model_get in Hin. destruct (assoc k es) as [y|] eqn:Hy; simpl in Hin; auto.
    destruct (is_expired now y); simpl in Hin.
    + apply remove_key_elem in Hin as [? _]. auto.
    + apply elem_of_cons in Hin as [Heq|[? _]%remove_key_elem]; auto.
      injection Heq as <- <-. by apply assoc_elem in Hy; auto.
  - unfold model_insert in Hin. repeat case_if; simpl in Hin; auto.
    apply elem_of_cons in Hin as [Heq|[Hin _]%remove_key_elem].
    + injection Heq as <- _. by destruct Hkey; left.
    + apply fitting_elem in Hin. auto.
Qed.

Lemma model_get_only now key a es :
  only_asset key a es → is_expired now a = true → (model_get now key es).1 = None.
Proof.
  intros Hall Hexp. unfold model_get. destruct (assoc key es) as [x|] eqn:Hx; [|done].
  apply assoc_elem, Hall in Hx as ->. by rewrite Hexp.
Qed.

Lemma model_get_recent now key a b es :
  recent key a b es → is_expired now a = false → (model_get now key es).1 = Some a.
Proof. intros Hrec Hexp. unfold model_get. by rewrite (assoc_recent _ _ _ _ Hrec), Hexp. Qed.

(** An insertion within the limits is the most recent entry. *)
Lemma model_insert_recent lim now key status headers body ttl es
    (size := Z.of_nat (length body))
    (a := MkCachedAsset status headers body now (default (limit_ttl lim) ttl) size) :
  size ≤ limit_file lim → size ≤ limit_capacity lim →
  let es' := (model_insert lim now key status headers body ttl es).2 in
  recent key a 0 es' ∧ only_asset key a es'.
Proof.
  intros Hf Hc. unfold model_insert. fold size.
  rewrite (proj2 (Z.ltb_ge _ _) Hf), (proj2 (Z.ltb_ge _ _) Hc). simpl. fold a. split.
  - eexists [], _. split_and!; [done|apply not_elem_of_nil|done].
  - intros x [Heq|[_ Hne]%remove_key_elem]%elem_of_cons; [|done]. by injection Heq.
Qed.

Lemma is_expired_mono now now' a : now' ≤ now → is_expired now a = false → is_expired now' a = false.
Proof. unfold is_expired, duration_since. rewrite !Z.leb_gt. lia. Qed.
End recency.

(** ** The engine *)

Section lifetime.
Context {L : Type → Type} `{LruLaws L} {HeaderMap : Type}.
#[local] Set Default Proof Using "Type*".
#[local] Abbreviation engine := (LruCacheEngine L HeaderMap).
Implicit Types (e : engine) (es : list (str * CachedAsset HeaderMap)) (K : gset str).

Lemma bytes_used_nonneg K c e es :
  refines K e es → 0 ≤ bytes_used c (model_call (limits_of e) c es).1.
Proof.
  intros [Hok Hes _ _]. pose proof (ok_sizes _ _ _ _ (engine_entries _ Hok)) as Hsz.
  rewrite Hes, Forall_forall in Hsz. destruct c as [now k|now k status headers body ttl| |]; simpl; try done.
  - unfold model_get. destruct (assoc k es) as [x|] eqn:Hx; [|done].
    apply assoc_elem, Hsz in Hx as [Hx _]. simpl in Hx.
    destruct (is_expired now x); simpl; lia.
  - destruct (model_insert _ _ _ _ _ _ _ _) as [res es']. simpl. case_if; lia.
Qed.

Lemma used_all_nonneg K cs e es :
  (size K ≤ lru_capacity)%nat → (∀ c k, c ∈ cs → k ∈ call_keys c → k ∈ K) → refines K e es →
  0 ≤ bytes_used_all cs (run_calls cs e).1.
Proof.
  intros HK. revert e es. induction cs as [|c cs IH]; intros e es Hkeys Href; simpl; [done|].
  destruct (refines_call K c e es) as [Hr Hs]; [done|intros k; apply Hkeys; by left|done|].
  pose proof (bytes_used_nonneg K c e es Href) as Hused. rewrite <- Hr in Hused.
  destruct (call_atomically c e) as [r e']. simpl in *.
  specialize (IH e' _ ltac:(eauto using list_elem_of_further) Hs).
  destruct (run_calls cs e'). simpl in *. lia.
Qed.

(** The entry stays recent over a sequence of calls that leave it room. *)
Lemma stays_recent K cs key a b e es :
  (size K ≤ lru_capacity)%nat → (∀ c k, c ∈ cs → k ∈ call_keys c → k ∈ K) → refines K e es →
  (∀ c, c ∈ cs → key ∉ call_keys c) →
  (∀ now, GetCall now key ∈ cs → is_expired now a = false) → recent key a b es →
  b + bytes_used_all cs (run_calls cs e).1 + size_bytes a ≤ max_capacity_bytes e →
  ∃ es', refines K (run_calls cs e).2 es' ∧ recent key a (b + bytes_used_all cs (run_calls cs e).1) es'.
Proof.
  intros HK. revert b e es. induction cs as [|c cs IH];
    intros b e es Hkeys Href Hkey Hget Hrec; simpl.
  { intros _. exists es. by rewrite Z.add_0_r. }
  destruct (refines_call K c e es) as [Hr Hs]; [done|intros k; apply Hkeys; by left|done|].
  pose proof (bytes_used_nonneg K c e es Href) as Hused.
  pose proof (recent_call (limits_of e) (max_file_size_bytes e) c key a b es) as Hstep. simpl in Hstep.
  destruct (run_alone c e) as [_ Hlim].
  destruct (call_atomically c e) as [r e'], (model_call (limits_of e) c es) as [r' es'].
  simpl in *. subst r'. specialize (IH (b + bytes_used c r) e' es').
  pose proof (f_equal limit_capacity Hlim) as Hcap. simpl in Hcap.
  pose proof (used_all_nonneg K cs e' es' HK ltac:(eauto using list_elem_of_further) Hs) as Hrest.
  destruct (run_calls cs e') as [rs e'']. simpl in *. intros Hfit.
  rewrite Z.add_assoc. apply IH; try by (intros; eauto using list_elem_of_further).
  - apply Hstep; [|by auto using list_elem_of_here|by intros now ->; apply Hget; left|done|lia].
    rewrite <- (refines_entries _ _ _ Href). apply (engine_entries _ (refines_ok _ _ _ Href)).
  - lia.
Qed.

Lemma stays_only K cs key a e es :
  (size K ≤ lru_capacity)%nat → (∀ c k, c ∈ cs → k ∈ call_keys c → k ∈ K) → refines K e es →
  (∀ c, c ∈ cs → key ∉ call_keys c) → only_asset key a es →
  ∃ es', refines K (run_calls cs e).2 es' ∧ only_asset key a es'.
Proof.
  intros HK. revert e es. induction cs as [|c cs IH]; intros e es Hkeys Href Hkey Honly; simpl.
  { by exists es. }
  destruct (refines_call K c e es) as [Hr Hs]; [done|intros k; apply Hkeys; by left|done|].
  pose proof (only_asset_call (limits_of e) c key a es ltac:(auto using list_elem_of_here) Honly) as Ho.
  destruct (call_atomically c e) as [r e']. simpl in *.
  destruct (IH e' _ ltac:(eauto using list_elem_of_further) Hs) as (es' & ? & ?); [|done|].
  { eauto using list_elem_of_further. }
  destruct (run_calls cs e'). simpl in *. eauto.
Qed.

Lemma run_calls_app cs cs' e :
  (run_calls (cs ++ cs') e).2 = (run_calls cs' (run_calls cs e).2).2.
Proof.
  revert e. induction cs as [|c cs IH]; intros e; simpl; [done|].
  destruct (call_atomically c e) as [r e']. specialize (IH e').
  destruct (run_calls (cs ++ cs') e'), (run_calls cs e'). exact IH.
Qed.

Lemma run_calls_limits cs e : limits_of (run_calls cs e).2 = limits_of e.
Proof.
  revert e. induction cs as [|c cs IH]; intros e; simpl; [done|].
  destruct (run_alone c e) as [_ Hlim]. destruct (call_atomically c e) as [r e']. simpl in Hlim.
  specialize (IH e'). destruct (run_calls cs e'). simpl in *. congruence.
Qed.

(** The state after an insertion within the limits: the entry is the most recent one. *)
Lemma inserted_recent K cap max_file ttl_sec earlier created key status headers body ttl
    (insertion := InsertCall created key status headers body ttl : engine_call HeaderMap)
    (size := Z.of_nat (length body))
    (a := MkCachedAsset status headers body created
            (default (duration_from_secs ttl_sec) ttl) size)
    (e := (run_calls (earlier ++ [insertion]) (cache_new cap max_file ttl_sec : engine)).2) :
  capacity_ok cap → size ≤ max_file → size ≤ cap → (base.size K ≤ lru_capacity)%nat →
  (∀ c k, c ∈ earlier ++ [insertion] → k ∈ call_keys c → k ∈ K) →
  max_capacity_bytes e = cap ∧ ∃ es, refines K e es ∧ recent key a 0 es ∧ only_asset key a es.
Proof.
  intros Hcap Hfile Hsize HK Hkeys. unfold e. clear e.
  set (e0 := cache_new cap max_file ttl_sec : engine). split.
  { exact (f_equal limit_capacity (run_calls_limits (earlier ++ [insertion]) e0)). }
  setoid_rewrite elem_of_app in Hkeys. setoid_rewrite list_elem_of_singleton in Hkeys.
  destruct (refines_calls K earlier e0 []) as [_ H1]; [done|by eauto|by apply refines_new|].
  rewrite run_calls_app. pose proof (run_calls_limits earlier e0) as Hlim.
  set (e1 := (run_calls earlier e0).2) in *. set (es1 := (model_calls _ earlier []).2) in H1.
  destruct (refines_call K insertion e1 es1) as [_ H2]; [done|by eauto|done|].
  pose proof (model_insert_recent (limits_of e1) created key status headers body ttl es1) as Hnew.
  rewrite Hlim in Hnew, H2. destruct (Hnew Hfile Hsize) as [Hrec Honly]. simpl in H2 |- *.
  destruct (cache_insert created key status headers body ttl e1) as [res e2].
  destruct (model_insert (limits_of e0) created key status headers body ttl es1) as [res' es2].
  by exists es2.
Qed.

(** C25: What is inserted into the cache is found again.  After any calls, a body within
    the limits is stored under its key.  As long as its time to live has not passed, it
    is found there after any further calls that store nothing under this key, provided
    that its size and the bytes these calls have stored or looked up fit into the
    capacity together; so only the least recently used entries make room for others.
    Once the time to live has passed it is not found, whatever the calls were.  The
    calls store under at most 10,000 keys. *)
Theorem insert_lives cap max_file ttl_sec earlier later created key status headers body ttl now
    (insertion := InsertCall created key status headers body ttl : engine_call HeaderMap)
    (size := Z.of_nat (length body)) (lifetime := default (duration_from_secs ttl_sec) ttl)
    (a := MkCachedAsset status headers body created lifetime size) :
  capacity_ok cap → size ≤ max_file → size ≤ cap →
  (base.size (list_to_set (mjoin (call_keys <$> earlier ++ insertion :: later)) : gset str)
     ≤ lru_capacity)%nat →
  (∀ c, c ∈ later → key ∉ call_keys c) → (∀ now', GetCall now' key ∈ later → now' ≤ now) →
  let e := (run_calls (earlier ++ [insertion]) (cache_new cap max_file ttl_sec : engine)).2 in
  let (replies, e') := run_calls later e in
  (duration_since now created < lifetime → size + bytes_used_all later replies ≤ cap →
     (cache_get now key e').1 = Some a) ∧
  (lifetime ≤ duration_since now created → (cache_get now key e').1 = None).
Proof.
  intros Hcap Hfile Hsize Hfew Hkey Htimes.
  set (K := list_to_set (mjoin (call_keys <$> earlier ++ insertion :: later)) : gset str).
  assert (∀ c k, c ∈ earlier ++ insertion :: later → k ∈ call_keys c → k ∈ K) as HK.
  { intros c k Hc Hk. apply elem_of_list_to_set, list_elem_of_join. exists (call_keys c).
    split; [done|]. by apply list_elem_of_fmap_2. }
  setoid_rewrite elem_of_app in HK. setoid_rewrite elem_of_cons in HK.
  destruct (inserted_recent K cap max_file ttl_sec earlier created key status headers body ttl)
    as (Hcap2 & es & Href0 & Hrec & Honly); [done..| |].
  { intros c k. rewrite elem_of_app, list_elem_of_singleton. naive_solver. }
  fold insertion in Hcap2, Href0. set (e := (run_calls (earlier ++ [insertion]) _).2) in *.
  pose proof (stays_recent K later key a 0 e es Hfew ltac:(by eauto) Href0 Hkey) as Hstay.
  destruct (stays_only K later key a e es Hfew ltac:(by eauto) Href0 Hkey Honly)
    as (es1 & Href1 & Honly1). cbv zeta.
  destruct (run_calls later e) as [replies e']. simpl in *. split; intros Hage.
  - assert (is_expired now a = false) as Hexp by by apply Z.leb_gt. intros Hfit. destruct Hstay as (es' & Href & Hrec'); [|done|lia|].
    { intros now' Hin. eapply is_expired_mono; [by apply Htimes|done]. }
    rewrite (proj1 (refines_get _ now key _ _ Href)). by eapply model_get_recent.
  - assert (is_expired now a = true) as Hexp by by apply Z.leb_le.
    rewrite (proj1 (refines_get _ now key _ _ Href1)). by eapply model_get_only.
Qed.
End lifetime.

(** ** Examples *)

(** Ten bytes: a second body and a lookup leave the first one in place. *)
Definition quiet_calls : list (engine_call unit) :=
  [InsertCall 3 (lit "b") 200 tt (lit "123") None; GetCall 4 (lit "b"); GetCall 5 (lit "c")].

Lemma insert_lives_witness :
  let e := (run_calls (take 2 lru_calls ++ [InsertCall 2 (lit "d") 200 tt (lit "1234") None])
              (cache_new 10 8 60 : LruCacheEngine ListLru unit)).2 in
  (cache_get 6 (lit "d") (run_calls quiet_calls e).2).1 =
    Some (MkCachedAsset 200 tt (lit "1234") 2 (duration_from_secs 60) 4).
Proof.
  pose proof (insert_lives (L := ListLru) 10 8 60 (take 2 lru_calls) quiet_calls 2 (lit "d") 200 tt
    (lit "1234") None 6) as Hlives.
  cbv zeta in Hlives |- *.
  destruct (run_calls quiet_calls _) as [replies e'] eqn:Hrun in Hlives |- *.
  apply Hlives.
  - split; [discriminate|reflexivity].
  - vm_compute. discriminate.
  - vm_compute. discriminate.
  - apply Nat2Z.inj_le. vm_compute. discriminate.
  - intros c Hc. unfold quiet_calls in Hc. rewrite !elem_of_cons in Hc.
    destruct Hc as [->|[->|[->|Hc%elem_of_nil]]]; [|apply not_elem_of_nil..|destruct Hc].
    intros Hd%list_elem_of_singleton. discriminate Hd.
  - intros now' Hin. unfold quiet_calls in Hin. rewrite !elem_of_cons in Hin.
    destruct Hin as [Hd|[Hd|[Hd|Hd%elem_of_nil]]]; try discriminate Hd; destruct Hd.
  - reflexivity.
  - assert (replies = (run_calls quiet_calls (run_calls (take 2 lru_calls ++
      [InsertCall 2 (lit "d") 200 tt (lit "1234") None])
      (cache_new 10 8 60 : LruCacheEngine ListLru unit)).2).1) as -> by (rewrite Hrun; reflexivity).
    vm_compute. discriminate.
Defined.
