(* ===== verification/ConfigLocks.v ===== *)
(** * The live configuration: [src/src/runtime_config.rs]

    [SharedConfig] is one [RwLock] around the active configuration.  The reload thread
    stores through the [ConfigWriter], the workers load through their
    [ConfigReader]s.  As programs of [Locks.v] they are atomic: a worker gets a
    configuration that was stored as a whole, the newest one of its moment. *)

From S2P Require Import Prelude Locks.

Section config_locks.
Context {ActiveConfig : Type}.

(** [struct SharedConfig]: the configuration and the poison flag of its lock *)
Definition SharedConfig : Type := ActiveConfig * bool.

Inductive config_reply : Type :=
| Loaded (a : ActiveConfig)
| Stored
(** [expect("Live config lock poisoned")] *)
| LockPanic.

#[local] Abbreviation program := (lprog SharedConfig unit config_reply).

(** [ConfigWriter::load], [ConfigReader::load] *)
Definition load_locked : program :=
  Lock First Reading (Get1 (λ '(current, poisoned),
    Unlock First (LRet (if (poisoned : bool) then LockPanic else Loaded current)))).

(** [ConfigWriter::store] *)
Definition store_locked (config : ActiveConfig) : program :=
  Lock First Writing (Get1 (λ '(_, poisoned),
    if (poisoned : bool) then Unlock First (LRet LockPanic)
    else Set1 (config, poisoned) (Unlock First (LRet Stored)))).

Inductive config_call : Type :=
| LoadCall
| StoreCall (config : ActiveConfig).

Definition config_program (c : config_call) : program :=
  match c with LoadCall => load_locked | StoreCall config => store_locked config end.

Definition config_programs (cs : list config_call) : list program := config_program <$> cs.

(** The threads of the process, from [create_config_store] on *)
Definition sharing (initial : ActiveConfig) (cs : list config_call) :=
  called (config_programs cs) ((initial, false) : SharedConfig, tt).

(** The configuration after the calls [ids], in this order *)
Fixpoint latest (cs : list config_call) (ids : list nat) (initial : ActiveConfig) : ActiveConfig :=
  match ids with
  | [] => initial
  | i :: ids =>
      latest cs ids (match cs !! i with Some (StoreCall config) => config | _ => initial end)
  end.

Lemma config_disciplined cs : Forall (disciplined false nothing) (config_programs cs).
Proof.
  apply Forall_fmap, Forall_true. intros []; simpl.
  - do 3 (split; [done|]). do 2 (split; [by eauto|]). intros [a b]. simpl. by eauto.
  - do 3 (split; [done|]). do 2 (split; [by eauto|]). intros [a []]; simpl; by eauto 8.
Qed.

Lemma config_short cs : Forall (steps_within 5) (config_programs cs).
Proof.
  apply Forall_fmap, Forall_true. intros []; simpl; [by intros [a b]|]. by intros [a []].
Qed.

Lemma serial_latest cs order initial :
  (serial (config_programs cs) order ((initial, false), tt)).2 =
    ((latest cs order initial, false), tt).
Proof.
  revert initial. induction order as [|i order IH]; intros a; simpl; [done|].
  unfold config_programs at 1. rewrite list_lookup_fmap.
  destruct (cs !! i) as [[|c]|]; simpl; try apply IH.
  - specialize (IH a). by destruct (serial _ order _).
  - specialize (IH c). by destruct (serial _ order _).
Qed.

(** The reply to a load is the latest configuration at its place in the order. *)
Lemma serial_loads cs order initial i r :
  (i, r) ∈ (serial (config_programs cs) order ((initial, false), tt)).1 →
  cs !! i = Some LoadCall →
  ∃ before after, order = before ++ i :: after ∧ r = Loaded (latest cs before initial).
Proof.
  intros Hin Hi. revert initial Hin. induction order as [|j order IH]; intros a; simpl.
  { by intros ?%elem_of_nil. }
  unfold config_programs at 1. rewrite list_lookup_fmap.
  assert (Hnext : ∀ a', latest cs [j] a = a' →
    (i, r) ∈ (serial (config_programs cs) order ((a', false), tt)).1 →
    ∃ before after, j :: order = before ++ i :: after ∧ r = Loaded (latest cs before a)).
  { intros a' Ha' (before & after & -> & ->)%IH. exists (j :: before), after. split; [done|].
    simpl in *. by rewrite Ha'. }
  destruct (cs !! j) as [[|c]|] eqn:Hj; simpl.
  - specialize (Hnext a). simpl in Hnext. rewrite Hj in Hnext. specialize (Hnext eq_refl).
    destruct (serial _ order _) as [rs s]. simpl in *. rewrite elem_of_cons.
    intros [[= -> ->]|Hin]; [by exists [], order|auto].
  - specialize (Hnext c). simpl in Hnext. rewrite Hj in Hnext. specialize (Hnext eq_refl).
    destruct (serial _ order _) as [rs s]. simpl in *. rewrite elem_of_cons.
    intros [[= -> ->]|Hin]; [congruence|auto].
  - apply Hnext. simpl. by rewrite Hj.
Qed.

(** C15: The hand-over of a configuration is atomic.  However the loads of the workers
    and the stores of the reload thread interleave, there is an order of them in which
    every load returns the configuration of the latest store before it, whole, or
    the initial one; a call that had returned before another began comes before it,
    so a worker that loads after a reload has stored never sees an older
    configuration; no load panics, and no call is blocked for good. *)
Theorem config_handover initial cs sched cf :
  interleaved sched (sharing initial cs) cf →
  (∃ order, NoDup order ∧
    (∀ i r, returned cf i r → cs !! i = Some LoadCall →
       ∃ before after, order = before ++ i :: after ∧ r = Loaded (latest cs before initial)) ∧
    ∀ sched1 sched2 cf1 i j r,
      interleaved sched1 (sharing initial cs) cf1 → interleaved sched2 cf1 cf →
      returned cf1 i r → j ∉ sched1 → j ∈ order →
      ∃ before after, order = before ++ after ∧ i ∈ before ∧ j ∈ after) ∧
  (length sched ≤ 5 * length cs)%nat ∧ (all_returned cf ∨ ∃ i cf', lstep i cf cf').
Proof.
  intros Hs. pose proof (atomic_interleaved _ _ _ _ (config_disciplined cs) Hs) as Hat. split_and!.
  - exists (commits cf). split_and!.
    + apply (atomic_once _ _ _ Hat).
    + intros i r Hr Hi. apply (atomic_replies _ _ _ _ _ Hat) in Hr. by apply serial_loads.
    + intros sched1 sched2 cf1 i j r. apply returned_first, config_disciplined.
  - rewrite <- (length_fmap config_program cs). by eapply bounded_schedule; [apply config_short|].
  - destruct (decide (all_returned cf)) as [?|Hnot]; [by left|right].
    destruct (progress _ _ _ Hat Hnot) as [i Hi]. exists i. by apply can_go_step.
Qed.
End config_locks.

(** ** Examples *)

(** A reload from the configuration of generation 0 to that of generation 1: one
    worker has locked before it, one loads after it *)
Definition reload_calls : list (config_call (ActiveConfig := Z)) :=
  [StoreCall 1%Z; LoadCall; LoadCall].

Definition reload_schedule : list nat := [1; 1; 1; 0; 0; 0; 0; 2; 1; 0; 2; 2; 2]%nat.

Definition reload_end : option (conf (Z * bool) unit (config_reply (ActiveConfig := Z))) :=
  play reload_schedule (sharing 0%Z reload_calls).

Definition loaded_new (cf : conf (Z * bool) unit (config_reply (ActiveConfig := Z))) : bool :=
  match lthreads cf !! 2%nat with Some (MkLThread (inr (Loaded 1%Z)) _) => true | _ => false end.

Lemma loaded_new_spec cf : loaded_new cf = true → returned cf 2 (Loaded 1%Z).
Proof.
  unfold loaded_new, returned. intros Hs. repeat (case_match; try done). simplify_eq. eauto.
Qed.

Lemma config_handover_witness :
  ∃ order before after, NoDup order ∧ order = before ++ 2%nat :: after ∧
    Loaded 1%Z = Loaded (latest reload_calls before 0%Z).
Proof.
  assert (match reload_end with Some cf => loaded_new cf | None => false end = true) as Hnew
    by (vm_compute; reflexivity).
  destruct reload_end as [cf|] eqn:Hend; [|discriminate Hnew].
  destruct (config_handover 0%Z reload_calls reload_schedule cf (play_interleaved _ _ _ Hend))
    as [(order & Hnd & Hloads & _) _].
  destruct (Hloads _ _ (loaded_new_spec cf Hnew) eq_refl) as (before & after & Ho & Hr).
  exists order, before, after. exact (conj Hnd (conj Ho Hr)).
Defined.
