(* ===== verification/ProxyProtocol.v ===== *)
(** * The PROXY protocol, version 1: [src/src/proxy_protocol.rs]

    A socket is the sequence of what its peer sends, each arrival with its time in
    nanoseconds; a read that waits is resolved by the first arrival, or by the
    deadline of the enclosing [tokio::time::timeout].  Bytes are [ascii]
    values, so that a header is a [str] whose characters are its bytes.  Where the
    source slices a string, an index outside it or inside a character panics: the
    outer [None].  The lines written to the log are a function of the same
    arguments. *)

From S2P Require Import Prelude RustStr NetAddr Log Config.

(** ** Sockets *)

Inductive arrival : Type :=
| Data (b : ascii)
| Eof
| Failure (e : str).

(** [TcpStream]: what is still to be read *)
Abbreviation TcpStream := (list (Z * arrival)).

(** The outcomes of awaiting a one-byte [read] under a timeout. *)
Inductive stop : Type :=
| Failed (e : str)
| Elapsed.

(** ** UTF-8 *)

Definition in_range (lo hi : Z) (c : ascii) : bool := (lo <=? code c) && (code c <=? hi).

Definition is_continuation : ascii → bool := in_range 128 191.

(** [std::str::from_utf8] succeeds: the byte sequences of the Unicode standard *)
Fixpoint is_utf8 (s : str) : bool :=
  match s with
  | [] => true
  | a :: s1 =>
      if in_range 0 127 a then is_utf8 s1
      else match s1 with
      | b :: s2 =>
          if in_range 194 223 a then is_continuation b && is_utf8 s2
          else match s2 with
          | c :: s3 =>
              if in_range 224 239 a then
                in_range (if code a =? 224 then 160 else 128)
                         (if code a =? 237 then 159 else 191) b
                && is_continuation c && is_utf8 s3
              else match s3 with
              | d :: s4 =>
                  in_range 240 244 a
                  && in_range (if code a =? 240 then 144 else 128)
                              (if code a =? 244 then 143 else 191) b
                  && is_continuation c && is_continuation d && is_utf8 s4
              | [] => false
              end
          | [] => false
          end
      | [] => false
      end
  end.

(** [str::is_char_boundary] *)
Definition is_char_boundary (s : str) (i : nat) : bool :=
  match s !! i with
  | Some b => negb (is_continuation b)
  | None => (i =? length s)%nat
  end.

(** [&s[i..j]], which panics outside the string or inside a character *)
Definition str_slice (s : str) (i j : nat) : option str :=
  if (i <=? j)%nat && is_char_boundary s i && is_char_boundary s j
  then Some (take (j - i) (drop i s)) else None.

(** ** The header *)

Definition crlf : str := [carriage_return; newline].

(** [parse_proxy_protocol_v1] *)
Definition parse_proxy_protocol_v1 (header : str) : option (option (IpAddr * Z)) :=
  if negb (starts_with header (lit "PROXY TCP4 ")) then Some None
  else if negb (ends_with header crlf) then Some None
  else
    payload ← str_slice header 11 (length header - 2);
    match split_char payload space with
    | [p0; p1; p2; p3] => Some (
        client_ip ← parse_ipv4 p0;
        _ ← parse_ipv4 p1;
        client_port ← parse_uint u16_max p2;
        _ ← parse_uint u16_max p3;
        Some (client_ip, client_port))
    | _ => Some None
    end.

(** ** The stream handed to the TLS layer *)

(** [std::io::Cursor<Vec<u8>>] *)
Record Cursor : Type := MkCursor { cur_data : str; cur_position : nat }.

(** [struct ProxyStream], over any inner stream *)
Record ProxyStream (S : Type) : Type := MkProxyStream {
  ps_inner : S;
  ps_buffer : option Cursor }.
Arguments MkProxyStream {S} _ _.
Arguments ps_inner {S} _.
Arguments ps_buffer {S} _.

(** [ProxyStream::new] *)
Definition proxy_stream_new {S} (inner : S) (buffer : option str) : ProxyStream S :=
  MkProxyStream inner ((λ b, MkCursor b 0) <$> buffer).

(** [std::io::Read::read] on a cursor, into a buffer of [n] bytes; it cannot fail *)
Definition cursor_read (n : nat) (c : Cursor) : str * Cursor :=
  let bytes := take n (drop (cur_position c) (cur_data c)) in
  (bytes, MkCursor (cur_data c) (cur_position c + length bytes)).

Inductive poll : Type :=
| Pending
| Ready (r : result str str).

(** [poll_read] with [remaining] bytes of room, over the inner stream's
    [poll_read]; the bytes put into the buffer are the result. *)
Definition poll_read {S} (inner_poll_read : nat → S → poll * S) (remaining : nat)
    (this : ProxyStream S) : poll * ProxyStream S :=
  let inner this :=
    let '(r, s) := inner_poll_read remaining (ps_inner this) in
    (r, MkProxyStream s (ps_buffer this)) in
  match ps_buffer this with
  | Some cursor =>
      let fall_through := inner (MkProxyStream (ps_inner this) None) in
      if (0 <? remaining)%nat then
        let '(bytes, cursor) := cursor_read remaining cursor in
        if (0 <? length bytes)%nat then
          (Ready (Ok bytes),
           MkProxyStream (ps_inner this)
             (if (length (cur_data cursor) <=? cur_position cursor)%nat then None
              else Some cursor))
        else fall_through
      else fall_through
  | None => inner this
  end.

(** [poll_write], [poll_flush] and [poll_shutdown] call the inner stream's; [op]
    is that call with its arguments. *)
Definition poll_forward {S A} (op : S → A * S) (this : ProxyStream S) : A * ProxyStream S :=
  let '(r, s) := op (ps_inner this) in (r, MkProxyStream s (ps_buffer this)).

(** ** The handshake *)

(** The loop that reads a header from the trusted upstream *)
Fixpoint read_header (deadline : Z) (header_buf : str) (s : TcpStream) :
    result stop (str * TcpStream) :=
  if (length header_buf <? 107)%nat then
    match s with
    | [] => Err Elapsed
    | (t, ev) :: s' =>
        if deadline <? t then Err Elapsed
        else match ev with
             | Failure e => Err (Failed e)
             | Eof => Err (Failed (lit "EOF before proxy header finished"))
             | Data b =>
                 let header_buf := header_buf ++ [b] in
                 if ends_with header_buf crlf then Ok (header_buf, s')
                 else read_header deadline header_buf s'
             end
    end
  else Ok (header_buf, s).

Definition proxy_prefix : str := lit "PROXY".

(** The loop that looks for a header from any other peer *)
Fixpoint read_prefix (deadline : Z) (header_buf : str) (s : TcpStream) :
    result stop (str * TcpStream) :=
  if (length header_buf <? length proxy_prefix)%nat then
    match s with
    | [] => Err Elapsed
    | (t, ev) :: s' =>
        if deadline <? t then Err Elapsed
        else match ev with
             | Failure e => Err (Failed e)
             | Eof => Ok (header_buf, s)
             | Data b =>
                 let header_buf := header_buf ++ [b] in
                 if bool_decide (header_buf !! (length header_buf - 1)%nat =
                                 proxy_prefix !! (length header_buf - 1)%nat)
                 then read_prefix deadline header_buf s'
                 else Ok (header_buf, s')
             end
    end
  else Ok (header_buf, s).

Definition addressed : Type := ProxyStream TcpStream * SocketAddr.

(** [parse_future] *)
Definition parse_future (deadline : Z) (s : TcpStream) : option (result stop addressed) :=
  match read_header deadline [] s with
  | Err e => Some (Err e)
  | Ok (header_buf, s) =>
      if negb (ends_with header_buf crlf) then
        Some (Err (Failed (lit "Proxy header exceeded max length or missing CRLF")))
      else if negb (is_utf8 header_buf) then
        Some (Err (Failed (lit "Proxy header is not valid UTF-8")))
      else
        parsed ← parse_proxy_protocol_v1 header_buf;
        Some match parsed with
             | None => Err (Failed (lit "Failed to parse Proxy Protocol header"))
             | Some (client_ip, client_port) =>
                 Ok (proxy_stream_new s None, MkSocketAddr client_ip client_port)
             end
  end.

Definition spoofing : str :=
  lit "Spoofing attempt: Proxy Protocol header injected from untrusted source".

(** [check_future] *)
Definition check_future (deadline : Z) (s : TcpStream) : result stop (ProxyStream TcpStream) :=
  '(header_buf, s) ← read_prefix deadline [] s;
  if starts_with header_buf proxy_prefix then Err (Failed spoofing)
  else Ok (proxy_stream_new s (Some header_buf)).

Definition on_timeout (msg : str) (e : stop) : str :=
  match e with Failed e => e | Elapsed => msg end.

(** [handle_proxy_protocol], started at [now] *)
Definition handle_proxy_protocol (now : Z) (stream : TcpStream) (peer_addr : SocketAddr)
    (security_config : SecurityConfig) : option (result str addressed) :=
  if negb (proxy_protocol security_config) then
    Some (Ok (proxy_stream_new stream None, peer_addr))
  else
    let is_trusted := bool_decide (ip peer_addr = trusted_upstream security_config) in
    let deadline := now + timeout_ms security_config * 1000000 in
    if is_trusted then
      res ← parse_future deadline stream;
      Some (map_err (on_timeout (lit "Timeout reading Proxy Protocol header")) res)
    else
      Some (map_err (on_timeout (lit "Timeout checking for fake Proxy Protocol header"))
             (ps ← check_future deadline stream; Ok (ps, peer_addr))).

(** The lines [handle_proxy_protocol] logs, in order *)
Definition proxy_protocol_log (now : Z) (stream : TcpStream) (peer_addr : SocketAddr)
    (security_config : SecurityConfig) : list LogRecord :=
  let peer := "peer" ⇒ addr_to_string peer_addr in
  let deadline := now + timeout_ms security_config * 1000000 in
  let timeout := [MkLogRecord ERROR (lit "proxy_protocol_timeout") [peer]] in
  if negb (proxy_protocol security_config) then []
  else if bool_decide (ip peer_addr = trusted_upstream security_config) then
    match parse_future deadline stream with
    | None => []
    | Some (Ok (_, client_addr)) =>
        [MkLogRecord INFO (lit "proxy_protocol_parsed")
           [peer; "client" ⇒ addr_to_string client_addr]]
    | Some (Err (Failed err)) =>
        [MkLogRecord ERROR (lit "proxy_protocol_parse_failed") [peer; "error" ⇒ err]]
    | Some (Err Elapsed) => timeout
    end
  else
    match read_prefix deadline [] stream with
    | Ok (header_buf, _) =>
        if starts_with header_buf proxy_prefix then
          [MkLogRecord ERROR (lit "proxy_protocol_spoof_rejected") [peer]]
        else []
    | Err (Failed _) => []
    | Err Elapsed => timeout
    end.
