(* ===== verification/ProxyProtocolSpec.v ===== *)
(** * What the PROXY protocol handshake promises

    Theorems on [ProxyProtocol.v]: which address the rest of the proxy sees, which
    connections are refused, that no byte of the payload is lost or invented on
    the way to the TLS layer, and that the string slice never panics. *)

From S2P Require Import Prelude RustStr NetAddr Config ProxyProtocol.

(** The stream [tr] delivers exactly the bytes [bs], in time. *)
Definition arrives (deadline : Z) (bs : str) (tr : TcpStream) : Prop :=
  Forall2 (λ b (x : Z * arrival), x.1 ≤ deadline ∧ x.2 = Data b) bs tr.

Lemma arrives_cons_l deadline b bs tr :
  arrives deadline (b :: bs) tr →
  ∃ t tr', tr = (t, Data b) :: tr' ∧ t ≤ deadline ∧ arrives deadline bs tr'.
Proof. intros ([t ev]&tr'&[? ?]&?&->)%Forall2_cons_inv_l. simpl in *. subst. eauto. Qed.

Lemma arrives_cons deadline t b bs tr :
  t ≤ deadline → arrives deadline bs tr → arrives deadline (b :: bs) ((t, Data b) :: tr).
Proof. by constructor. Qed.

Lemma ends_with_crlf_newline s c : c ≠ newline → ends_with (s ++ [c]) crlf = false.
Proof.
  intros Hc. apply bool_decide_eq_false. intros [x Hx]. change crlf with ([carriage_return] ++ [newline]) in Hx.
  rewrite app_assoc in Hx. by apply app_inj_tail in Hx as [_ ?].
Qed.

(** ** The header of the trusted upstream *)

Lemma read_header_sound deadline buf s h s' :
  read_header deadline buf s = Ok (h, s') →
  ∃ bs tr, h = buf ++ bs ∧ s = tr ++ s' ∧ arrives deadline bs tr ∧
    (length h ≤ Nat.max 107 (length buf))%nat.
Proof.
  revert buf. induction s as [|[t ev] s IH]; intros buf Hr; cbn [read_header] in Hr;
    (destruct (length buf <? 107)%nat eqn:Hlen; cycle 1;
     [inv_ok; exists [], []; rewrite app_nil_r; repeat constructor; lia|]); [done|].
  apply Nat.ltb_lt in Hlen. destruct (deadline <? t) eqn:Ht; [done|]. apply Z.ltb_ge in Ht.
  destruct ev as [b| |e]; [|done..].
  destruct (ends_with (buf ++ [b]) crlf).
  - inv_ok. exists [b], [(t, Data b)]. rewrite length_app. simpl.
    split_and!; [done|done|by repeat constructor|lia].
  - apply IH in Hr as (bs & tr & -> & -> & Hbs & Hl). rewrite length_app in Hl.
    exists (b :: bs), ((t, Data b) :: tr). rewrite <- app_assoc.
    split_and!; [done|done|by apply arrives_cons|].
    rewrite length_app in Hl |- *. simpl in *. lia.
Qed.

(** A line that is delivered in time is read, and nothing after it. *)
Lemma read_header_line deadline body tr s buf x :
  arrives deadline (body ++ [newline]) tr → newline ∉ body →
  buf ++ body = x ++ [carriage_return] → (length (buf ++ body) < 107)%nat →
  read_header deadline buf (tr ++ s) = Ok (buf ++ body ++ [newline], s).
Proof.
  revert buf tr. induction body as [|c body IH]; intros buf tr Hbs Hnl Hcr Hlen;
    apply arrives_cons_l in Hbs as (t & tr' & -> & Ht & Hbs);
    rewrite length_app in Hlen; simpl in Hlen.
  - apply Forall2_nil_inv_l in Hbs as ->. simpl.
    rewrite app_nil_r in Hcr. subst buf.
    rewrite (proj2 (Nat.ltb_lt _ _)), (proj2 (Z.ltb_ge _ _) Ht) by lia.
    by rewrite <- app_assoc, ends_with_app.
  - simpl. rewrite (proj2 (Nat.ltb_lt _ _)), (proj2 (Z.ltb_ge _ _) Ht) by lia.
    rewrite ends_with_crlf_newline by set_solver.
    rewrite (IH (buf ++ [c])); [by rewrite <- app_assoc|done|set_solver|..].
    + by rewrite <- app_assoc.
    + rewrite !length_app. simpl. lia.
Qed.

(** The header a proxy sends for a TCP connection over IPv4. *)
Definition v1_header (client proxy : Z * Z * Z * Z) (client_port proxy_port : Z) : str :=
  let addr '(a, b, c, d) := fmt_ipv4 a b c d in
  lit "PROXY TCP4 " ++ addr client ++ space :: addr proxy ++ space ::
  fmt client_port ++ space :: fmt proxy_port ++ crlf.

Definition header_char (c : ascii) : Prop := is_ascii_digit c = true ∨ c = dot.

Lemma header_char_spec c :
  header_char c → Ascii.eqb space c = false ∧ c ≠ newline ∧ in_range 0 127 c = true ∧
    is_continuation c = false.
Proof.
  unfold header_char, is_ascii_digit, is_continuation, in_range. intros [Hc| ->]; [|done].
  split_and!; try lia.
  - apply Ascii.eqb_neq. intros <-. done.
  - by intros ->.
Qed.

Lemma fmt_header_char n : 0 ≤ n → Forall header_char (fmt n).
Proof. intros. eapply Forall_impl; [by apply fmt_go_digits|]. by left. Qed.

Lemma fmt_ipv4_header_char a b c d : ip_wf (V4 a b c d) → Forall header_char (fmt_ipv4 a b c d).
Proof.
  intros (?&?&?&?). unfold fmt_ipv4, octet in *.
  repeat (apply Forall_app; split; [apply fmt_header_char; lia|constructor; [by right|]]).
  apply fmt_header_char; lia.
Qed.

Lemma length_fmt_go fuel n k :
  0 ≤ n < 10 ^ Z.of_nat (S k) → (length (fmt_go fuel n []) ≤ S k)%nat.
Proof.
  revert n k. induction fuel as [|f IH]; intros n k Hn; cbn [fmt_go]; [simpl; lia|].
  case_match; [simpl; lia|]. destruct k as [|k]; [simpl in Hn; lia|].
  rewrite fmt_go_app, length_app. simpl.
  pose proof (IH (n `div` 10) k) as Hk. pose proof (Z.div_pos n 10).
  rewrite Nat2Z.inj_succ, Z.pow_succ_r in Hn by lia.
  pose proof (Z.div_lt_upper_bound n 10 (10 ^ Z.of_nat (S k))). lia.
Qed.

Lemma is_utf8_ascii s : Forall (λ c, in_range 0 127 c = true) s → is_utf8 s = true.
Proof. induction 1 as [|c s Hc _ IH]; simpl; [done|]. by rewrite Hc. Qed.

Lemma is_utf8_app_ascii s t :
  Forall (λ c, in_range 0 127 c = true) s → is_utf8 (s ++ t) = is_utf8 t.
Proof. induction 1 as [|c s Hc _ IH]; simpl; [done|]. by rewrite Hc. Qed.

(** A valid text does not begin inside a character. *)
Lemma is_utf8_head c s : is_utf8 (c :: s) = true → is_continuation c = false.
Proof.
  unfold is_continuation. intros Hu. apply not_true_is_false. intros Hc.
  assert (∀ lo hi, (192 ≤ lo ∨ hi < 128) → in_range lo hi c = false) as Hout
    by (unfold in_range in *; lia).
  cbn [is_utf8] in Hu. rewrite !Hout in Hu by lia. by destruct s as [|? [|? [|? ?]]].
Qed.

Definition v1_prefix : str := lit "PROXY TCP4 ".

(** The prefix and the line end of a header do not overlap. *)
Lemma header_split h :
  starts_with h v1_prefix = true → ends_with h crlf = true → ∃ y, h = v1_prefix ++ y ++ crlf.
Proof.
  rewrite starts_with_true, ends_with_true. intros [x ->] [z Hz].
  destruct (decide (2 ≤ length x)%nat) as [Hx|Hx].
  - exists (take (length x - 2) x).
    assert (drop (length x - 2) x = crlf) as <-; [|by rewrite take_drop].
    apply (f_equal (drop (length z))) in Hz as Hd.
    rewrite drop_app_length in Hd. rewrite <- Hd.
    apply (f_equal length) in Hz. rewrite !length_app in Hz. simpl in Hz.
    rewrite drop_app_ge by (simpl; lia). f_equal. simpl. lia.
  - exfalso. change crlf with ([carriage_return] ++ [newline]) in Hz.
    rewrite app_assoc in Hz. destruct x as [|c [|? ?]]; [| |simpl in Hx; lia].
    + rewrite app_nil_r in Hz. change v1_prefix with (lit "PROXY TCP4" ++ [space]) in Hz.
      by apply app_inj_tail in Hz as [_ ?].
    + apply app_inj_tail in Hz as [Hz _].
      change v1_prefix with (lit "PROXY TCP4" ++ [space]) in Hz.
      by apply app_inj_tail in Hz as [_ ?].
Qed.

Lemma payload_slice y :
  match y with [] => True | c :: _ => is_continuation c = false end →
  str_slice (v1_prefix ++ y ++ crlf) 11 (length (v1_prefix ++ y ++ crlf) - 2) = Some y.
Proof.
  intros Hy. unfold str_slice, is_char_boundary. rewrite !length_app.
  replace (length v1_prefix + (length y + length crlf) - 2)%nat
    with (length v1_prefix + length y)%nat by (simpl; lia).
  rewrite (lookup_app_r v1_prefix _ (_ + _)) by lia.
  rewrite (lookup_app_r v1_prefix _ 11) by (simpl; lia).
  replace (length v1_prefix + length y - length v1_prefix)%nat with (length y + 0)%nat by lia.
  rewrite (lookup_app_r y crlf (length y + 0)) by lia. replace (length y + 0 - length y)%nat with 0%nat by lia.
  change (11 - length v1_prefix)%nat with 0%nat.
  rewrite (proj2 (Nat.leb_le _ _)) by (simpl; lia).
  replace (length v1_prefix + length y - 11)%nat with (length y) by (simpl; lia).
  rewrite drop_app_length' by done. rewrite take_app_length.
  destruct y as [|c y]; simpl; [done|]. by rewrite Hy.
Qed.

Lemma parse_v1_total h : is_utf8 h = true → is_Some (parse_proxy_protocol_v1 h).
Proof.
  intros Hu. unfold parse_proxy_protocol_v1. fold v1_prefix.
  destruct (starts_with h v1_prefix) eqn:Hs; simpl; [|eauto].
  destruct (ends_with h crlf) eqn:He; simpl; [|eauto].
  destruct (header_split h Hs He) as [y ->].
  rewrite is_utf8_app_ascii in Hu by (by repeat constructor).
  rewrite payload_slice.
  - simpl. repeat case_match; eauto.
  - destruct y; [done|]. by eapply is_utf8_head.
Qed.

Definition wf4 (x : Z * Z * Z * Z) : Prop := let '(a, b, c, d) := x in ip_wf (V4 a b c d).
Definition v4 (x : Z * Z * Z * Z) : IpAddr := let '(a, b, c, d) := x in V4 a b c d.
Definition is_port (p : Z) : Prop := 0 ≤ p ≤ u16_max.

(** The part of a header between its prefix and its line end. *)
Definition v1_payload (client proxy : Z * Z * Z * Z) (client_port proxy_port : Z) : str :=
  let addr '(a, b, c, d) := fmt_ipv4 a b c d in
  addr client ++ space :: addr proxy ++ space :: fmt client_port ++ space :: fmt proxy_port.

Lemma v1_header_eq client proxy cp pp :
  v1_header client proxy cp pp = v1_prefix ++ v1_payload client proxy cp pp ++ crlf.
Proof.
  unfold v1_header, v1_payload. destruct client as [[[? ?] ?] ?], proxy as [[[? ?] ?] ?].
  by repeat (rewrite <- app_assoc; simpl).
Qed.

Lemma v1_payload_chars client proxy cp pp :
  wf4 client → wf4 proxy → is_port cp → is_port pp →
  Forall (λ c, header_char c ∨ c = space) (v1_payload client proxy cp pp) ∧
  (length (v1_payload client proxy cp pp) ≤ 43)%nat.
Proof.
  destruct client as [[[a b] c] d], proxy as [[[a' b'] c'] d'].
  unfold is_port, u16_max. intros Hc Hp Hcp Hpp. unfold v1_payload. split.
  - assert (∀ s : str, Forall header_char s → Forall (λ c, header_char c ∨ c = space) s) as Hw
      by (intros s Hs; eapply Forall_impl; [exact Hs|by left]).
    repeat (apply Forall_app; split;
      [apply Hw; first [by apply fmt_ipv4_header_char|apply fmt_header_char; lia]
      |constructor; [by right|]]).
    apply Hw, fmt_header_char; lia.
  - apply length_fmt_ipv4 in Hc, Hp.
    assert (length (fmt cp) ≤ 5)%nat by (apply length_fmt_go; simpl; lia).
    assert (length (fmt pp) ≤ 5)%nat by (apply length_fmt_go; simpl; lia).
    repeat (rewrite length_app; simpl). lia.
Qed.

Lemma parse_v1_header client proxy cp pp :
  wf4 client → wf4 proxy → is_port cp → is_port pp →
  parse_proxy_protocol_v1 (v1_header client proxy cp pp) = Some (Some (v4 client, cp)).
Proof.
  intros Hc Hp Hcp Hpp. rewrite v1_header_eq.
  pose proof (v1_payload_chars _ _ _ _ Hc Hp Hcp Hpp) as [Hchars _].
  unfold parse_proxy_protocol_v1. fold v1_prefix.
  rewrite starts_with_app, app_assoc, ends_with_app, <- app_assoc. simpl negb. cbn match.
  rewrite payload_slice; cycle 1.
  { destruct Hchars as [|c y [Hx| ->] _]; [done| |done]. by apply header_char_spec. }
  clear Hchars. destruct client as [[[a b] c] d], proxy as [[[a' b'] c'] d'].
  simpl. unfold split_char, v1_payload.
  assert (∀ s : str, Forall header_char s → Forall (λ c, Ascii.eqb space c = false) s) as Hw
    by (intros s Hs; eapply Forall_impl; [exact Hs|]; intros ? Hx; by apply header_char_spec).
  rewrite !split_by_sep by (try done; apply Hw;
    first [by apply fmt_ipv4_header_char|apply fmt_header_char; apply Hcp]).
  rewrite split_by_atom by (apply Hw, fmt_header_char; apply Hpp).
  by rewrite !parse_ipv4_fmt, !parse_uint_fmt by done.
Qed.

(** C38: The handshake never panics: the header it slices is valid UTF-8, and its
    prefix and line end are characters of their own. *)
Theorem handle_never_panics now s peer cfg : is_Some (handle_proxy_protocol now s peer cfg).
Proof.
  unfold handle_proxy_protocol, parse_future. case_if; [eauto|]. case_if; [|eauto].
  destruct (read_header _ _ _) as [[h s']|e]; [|eauto].
  destruct (ends_with h crlf); [|eauto]. destruct (is_utf8 h) eqn:Hu; [|eauto].
  destruct (parse_v1_total h Hu) as [r ->]. simpl. eauto.
Qed.

(** C12: A connection from the trusted upstream that announces a client is handed
    on with the client's address and with every byte after the header. *)
Theorem trusted_header_roundtrip now tr payload peer cfg client proxy cp pp :
  proxy_protocol cfg = true → ip peer = trusted_upstream cfg →
  wf4 client → wf4 proxy → is_port cp → is_port pp →
  arrives (now + timeout_ms cfg * 1000000) (v1_header client proxy cp pp) tr →
  handle_proxy_protocol now (tr ++ payload) peer cfg =
    Some (Ok (MkProxyStream payload None, MkSocketAddr (v4 client) cp)).
Proof.
  intros Hon Hip Hc Hp Hcp Hpp Har. unfold handle_proxy_protocol, parse_future.
  rewrite Hon, bool_decide_eq_true_2 by done. simpl.
  pose proof (parse_v1_header _ _ _ _ Hc Hp Hcp Hpp) as Hparse.
  pose proof (v1_payload_chars _ _ _ _ Hc Hp Hcp Hpp) as [Hchars Hlen].
  pose proof (v1_header_eq client proxy cp pp) as Heq.
  set (y := v1_payload _ _ _ _) in *. clearbody y.
  assert (v1_prefix ++ y ++ crlf = (v1_prefix ++ y ++ [carriage_return]) ++ [newline]) as Hsnoc
    by (by rewrite <- !app_assoc).
  rewrite (read_header_line _ (v1_prefix ++ y ++ [carriage_return]) tr payload [] (v1_prefix ++ y)).
  - rewrite app_nil_l, <- Hsnoc, <- Heq, Hparse, Heq, app_assoc, ends_with_app, <- app_assoc.
    simpl negb. cbn match. rewrite is_utf8_ascii; [done|].
    apply Forall_app. split; [|by repeat constructor].
    eapply Forall_impl; [exact Hchars|]. intros x [Hx| ->]; [by apply header_char_spec|done].
  - by rewrite <- Hsnoc, <- Heq.
  - rewrite !not_elem_of_app. split_and!; [by eapply bool_decide_unpack; vm_compute| |
      by eapply bool_decide_unpack; vm_compute].
    intros Hin. rewrite Forall_forall in Hchars. apply Hchars in Hin as [Hx|?]; [|done].
    by apply header_char_spec in Hx as (_ & ? & _).
  - by rewrite app_nil_l, app_assoc.
  - rewrite !length_app. simpl. lia.
Qed.

Lemma parse_ipv4_wf s i : parse_ipv4 s = Some i → ∃ x, i = v4 x ∧ wf4 x.
Proof.
  unfold parse_ipv4, parse_with. case_if; [done|].
  destruct (read_ipv4_addr s) as [[[[[a b] c] d] [|? ?]]|] eqn:Hr; simpl; [|done..].
  intros [= <-]. exists (a, b, c, d). split; [done|]. by eapply read_ipv4_addr_wf.
Qed.

Lemma parse_v1_sound h i p :
  parse_proxy_protocol_v1 h = Some (Some (i, p)) → (∃ x, i = v4 x ∧ wf4 x) ∧ is_port p.
Proof.
  unfold parse_proxy_protocol_v1. do 2 (case_if; [done|]). intros Hh.
  destruct (str_slice _ _ _) as [y|]; [|done]. simpl in Hh. repeat case_match; try done.
  injection Hh as Hh. apply bind_Some in Hh as (i' & Hi & Hh).
  apply bind_Some in Hh as (? & _ & Hh). apply bind_Some in Hh as (p' & Hp & Hh).
  apply bind_Some in Hh as (? & _ & [= -> ->]).
  split; [by eapply parse_ipv4_wf|]. apply parse_uint_range in Hp; [done|]. unfold u16_max; lia.
Qed.

(** C36: A connection accepted from the trusted upstream began, in time, with a
    header of at most 107 bytes that announces the address handed on, an IPv4
    address with a port; nothing after the header was consumed. *)
Theorem trusted_accept_sound now s peer cfg ps addr :
  proxy_protocol cfg = true → ip peer = trusted_upstream cfg →
  handle_proxy_protocol now s peer cfg = Some (Ok (ps, addr)) →
  ∃ h tr, s = tr ++ ps_inner ps ∧ ps_buffer ps = None ∧
    arrives (now + timeout_ms cfg * 1000000) h tr ∧ (length h ≤ 107)%nat ∧
    ends_with h crlf = true ∧ is_utf8 h = true ∧
    parse_proxy_protocol_v1 h = Some (Some (ip addr, port addr)) ∧
    (∃ x, ip addr = v4 x ∧ wf4 x) ∧ is_port (port addr).
Proof.
  intros Hon Hip. unfold handle_proxy_protocol, parse_future.
  rewrite Hon, bool_decide_eq_true_2 by done. simpl.
  destruct (read_header _ _ _) as [[h s']|e] eqn:Hr; [|done]. simpl.
  destruct (ends_with h crlf) eqn:He; [|done]. destruct (is_utf8 h) eqn:Hu; [|done]. simpl.
  destruct (parse_proxy_protocol_v1 h) as [[[i p]|]|] eqn:Hp; [|done..]. simpl.
  intros [= <- <-]. apply read_header_sound in Hr as (bs & tr & -> & -> & Har & Hlen).
  apply parse_v1_sound in Hp as Hwf. exists bs, tr. simpl in *. destruct Hwf. auto 10.
Qed.

(** ** Every other peer *)

Lemma read_prefix_sound deadline buf s h s' :
  read_prefix deadline buf s = Ok (h, s') →
  ∃ bs tr, h = buf ++ bs ∧ s = tr ++ s' ∧ arrives deadline bs tr.
Proof.
  revert buf. induction s as [|[t ev] s IH]; intros buf Hr; cbn [read_prefix] in Hr;
    (destruct (length buf <? length proxy_prefix)%nat; cycle 1;
     [inv_ok; exists [], []; rewrite app_nil_r; repeat constructor; lia|]); [done|].
  destruct (deadline <? t) eqn:Ht; [done|]. apply Z.ltb_ge in Ht.
  destruct ev as [b| |e]; [|inv_ok; exists [], []; rewrite app_nil_r; by repeat constructor|done].
  case_bool_decide; [|inv_ok; exists [b], [(t, Data b)]; by repeat constructor].
  apply IH in Hr as (bs & tr & -> & -> & Hbs).
  exists (b :: bs), ((t, Data b) :: tr). rewrite <- app_assoc.
  split_and!; [done|done|by apply arrives_cons].
Qed.

Lemma length_snoc (s : str) b : (length (s ++ [b]) - 1)%nat = length s.
Proof. rewrite length_app. simpl. lia. Qed.

Lemma lookup_snoc (s : str) b : (s ++ [b]) !! length s = Some b.
Proof. by rewrite lookup_app_r, Nat.sub_diag by lia. Qed.

(** The bytes that agree with the prefix are read on; the first that differs ends
    the loop. *)
Lemma read_prefix_run deadline buf bs tr s :
  arrives deadline bs tr → (buf ++ bs) `prefix_of` proxy_prefix →
  read_prefix deadline buf (tr ++ s) = read_prefix deadline (buf ++ bs) s.
Proof.
  intros Har. revert buf. induction Har as [|b [t ev] bs tr [Ht Hev] Har IH]; intros buf Hpre.
  { by rewrite app_nil_r. }
  simpl in Ht, Hev. subst ev. cbn [app read_prefix].
  pose proof (prefix_length _ _ Hpre) as Hl. rewrite length_app in Hl. simpl in Hl.
  rewrite (proj2 (Nat.ltb_lt _ _)), (proj2 (Z.ltb_ge _ _) Ht) by (simpl; lia).
  rewrite length_snoc, lookup_snoc.
  rewrite bool_decide_eq_true_2; cycle 1.
  { symmetry. eapply prefix_lookup_Some; [|exact Hpre].
    rewrite lookup_app_r, Nat.sub_diag by lia. done. }
  rewrite IH by (by rewrite <- app_assoc). by rewrite <- app_assoc.
Qed.

(** C28: A peer that is not the trusted upstream and sends the PROXY prefix in time
    is refused as a spoofing attempt. *)
Theorem spoof_rejected now tr rest peer cfg :
  proxy_protocol cfg = true → ip peer ≠ trusted_upstream cfg →
  arrives (now + timeout_ms cfg * 1000000) proxy_prefix tr →
  handle_proxy_protocol now (tr ++ rest) peer cfg = Some (Err spoofing).
Proof.
  intros Hon Hip Har. unfold handle_proxy_protocol, check_future.
  rewrite Hon, bool_decide_eq_false_2 by done. simpl.
  rewrite (read_prefix_run _ [] proxy_prefix) by done. by destruct rest as [|[? ?] ?].
Qed.

(** C29: A connection accepted from a peer that is not the trusted upstream keeps
    the peer's own address and its payload: the bytes put back in front of the
    stream are the ones that were taken off it, and they are not the PROXY
    prefix. *)
Theorem untrusted_payload_preserved now s peer cfg ps addr :
  proxy_protocol cfg = true → ip peer ≠ trusted_upstream cfg →
  handle_proxy_protocol now s peer cfg = Some (Ok (ps, addr)) →
  addr = peer ∧
  ∃ bs tr, s = tr ++ ps_inner ps ∧ ps_buffer ps = Some (MkCursor bs 0) ∧
    arrives (now + timeout_ms cfg * 1000000) bs tr ∧ starts_with bs proxy_prefix = false.
Proof.
  intros Hon Hip. unfold handle_proxy_protocol, check_future.
  rewrite Hon, bool_decide_eq_false_2 by done. simpl.
  destruct (read_prefix _ _ _) as [[h s']|e] eqn:Hr; [|by destruct e]. simpl.
  destruct (starts_with h proxy_prefix) eqn:Hs; [done|]. simpl. intros [= <- <-].
  apply read_prefix_sound in Hr as (bs & tr & -> & -> & Har). split; [done|].
  exists bs, tr. auto.
Qed.

(** A peer that is not the trusted upstream is let through, with its first
    bytes put back, as soon as one of them differs from the PROXY prefix. *)
Theorem untrusted_accepted now tr t b rest peer cfg k
    (deadline := now + timeout_ms cfg * 1000000) :
  proxy_protocol cfg = true → ip peer ≠ trusted_upstream cfg →
  (k < 5)%nat → arrives deadline (take k proxy_prefix) tr → t ≤ deadline →
  proxy_prefix !! k ≠ Some b →
  handle_proxy_protocol now (tr ++ (t, Data b) :: rest) peer cfg =
    Some (Ok (proxy_stream_new rest (Some (take k proxy_prefix ++ [b])), peer)).
Proof.
  intros Hon Hip Hk Har Ht Hb. unfold handle_proxy_protocol, check_future.
  rewrite Hon, bool_decide_eq_false_2 by done. simpl. fold deadline.
  rewrite (read_prefix_run _ [] (take k proxy_prefix)) by (done || apply prefix_take).
  simpl. assert (length (take k proxy_prefix) = k) as Hlen.
  { rewrite length_take. simpl. lia. }
  assert (bool_decide (Some b = proxy_prefix !! k) = false) as Hne.
  { apply bool_decide_eq_false. congruence. }
  rewrite Hlen, (proj2 (Nat.ltb_lt _ _)), (proj2 (Z.ltb_ge _ _) Ht) by lia.
  rewrite length_snoc, lookup_snoc, Hlen, Hne. simpl.
  assert (starts_with (take k proxy_prefix ++ [b]) proxy_prefix = false) as ->; [|done].
  apply bool_decide_eq_false. intros Hpre. apply Hb.
  pose proof (prefix_length _ _ Hpre) as Hl. rewrite length_app, Hlen in Hl. simpl in Hl.
  assert (k = 4%nat) as -> by lia.
  destruct Hpre as [z Hz]. injection Hz as Hz _. by rewrite Hz.
Qed.

(** With the protocol switched off, the stream and the peer's address are
    handed on as they are. *)
Theorem disabled_is_transparent now s peer cfg :
  proxy_protocol cfg = false →
  handle_proxy_protocol now s peer cfg = Some (Ok (MkProxyStream s None, peer)).
Proof. intros Hoff. unfold handle_proxy_protocol. by rewrite Hoff. Qed.

(** ** Reading through a [ProxyStream] *)

Section reading.
Context {S : Type} (inner : nat → S → poll * S).
Implicit Types (ps : ProxyStream S) (sizes : list nat).

(** The results of a sequence of polls, each with the room it offers. *)
Fixpoint polls (sizes : list nat) (ps : ProxyStream S) : list poll :=
  match sizes with
  | [] => []
  | n :: sizes => let '(r, ps) := poll_read inner n ps in r :: polls sizes ps
  end.

Fixpoint inner_polls (sizes : list nat) (s : S) : list poll :=
  match sizes with
  | [] => []
  | n :: sizes => let '(r, s) := inner n s in r :: inner_polls sizes s
  end.

(** The bytes put back that are still to be read. *)
Definition unread (ps : ProxyStream S) : str :=
  match ps_buffer ps with
  | Some c => drop (cur_position c) (cur_data c)
  | None => []
  end.

Lemma poll_read_unread n ps (bytes := take n (unread ps)) :
  (0 < n)%nat → unread ps ≠ [] →
  ∃ ps', poll_read inner n ps = (Ready (Ok bytes), ps') ∧
    unread ps' = drop n (unread ps) ∧ ps_inner ps' = ps_inner ps ∧ bytes ≠ [].
Proof.
  intros Hn Hu. unfold poll_read, bytes. unfold unread in *. destruct ps as [s [c|]]; [|done].
  simpl in *. rewrite (proj2 (Nat.ltb_lt _ _) Hn).
  set (u := drop (cur_position c) (cur_data c)) in *.
  assert (0 < length (take n u))%nat as Hlen.
  { rewrite length_take. destruct u; [done|]. simpl. lia. }
  rewrite (proj2 (Nat.ltb_lt _ _) Hlen). eexists. split; [done|]. simpl.
  split_and!; [|done|intros Hnil; rewrite Hnil in Hlen; simpl in Hlen; lia].
  assert (length u = length (cur_data c) - cur_position c)%nat as Hul by apply length_drop.
  rewrite length_take in *. destruct (Nat.leb_spec (length (cur_data c))
    (cur_position c + n `min` length u)) as [Hle|Hgt].
  - rewrite drop_ge; [done|]. lia.
  - simpl. rewrite Nat.min_l by lia. unfold u. by rewrite drop_drop.
Qed.

Lemma polls_drained sizes ps :
  unread ps = [] → polls sizes ps = inner_polls sizes (ps_inner ps).
Proof.
  revert ps. induction sizes as [|n sizes IH]; intros ps Hu; [done|]. cbn [polls inner_polls].
  assert (poll_read inner n ps =
    ((inner n (ps_inner ps)).1, MkProxyStream (inner n (ps_inner ps)).2 None)) as ->.
  { unfold poll_read, unread in *. destruct ps as [s [c|]]; simpl in *.
    - unfold cursor_read. rewrite Hu, take_nil. simpl. destruct (inner n s). by case_if.
    - by destruct (inner n s). }
  destruct (inner n (ps_inner ps)) as [r s']. simpl. by rewrite IH.
Qed.

(** C24: Reading through a [ProxyStream] first yields the bytes that were put back,
    in order and in chunks no larger than the room offered, and then what the
    socket yields when it is polled with the remaining sizes: no byte is lost,
    repeated or reordered.  Every poll must offer some room. *)
Theorem poll_read_transparent sizes ps :
  Forall (λ n, 0 < n)%nat sizes →
  ∃ chunks, (length chunks ≤ length sizes)%nat ∧ Forall (λ c, c ≠ []) chunks ∧
    Forall2 (λ c n, length c ≤ n)%nat chunks (take (length chunks) sizes) ∧
    polls sizes ps = (Ready ∘ Ok <$> chunks) ++
                     inner_polls (drop (length chunks) sizes) (ps_inner ps) ∧
    concat chunks `prefix_of` unread ps ∧
    (concat chunks = unread ps ∨ length chunks = length sizes).
Proof.
  intros Hs. revert ps. induction Hs as [|n sizes Hn _ IH]; intros ps.
  { exists []. simpl. split_and!; auto using prefix_nil. }
  destruct (decide (unread ps = [])) as [Hu|Hu].
  { exists []. rewrite polls_drained by done. simpl.
    split_and!; auto using prefix_nil. lia. }
  destruct (poll_read_unread n ps Hn Hu) as (ps' & Hp & Hu' & Hi & Hne).
  destruct (IH ps') as (chunks & Hlen & Hnes & Hsz & Hpolls & Hpre & Hend).
  exists (take n (unread ps) :: chunks). cbn [polls]. rewrite Hp, Hpolls, Hi. simpl.
  rewrite Hu' in Hpre, Hend. split_and!; auto; [lia|..].
  - constructor; [|done]. rewrite length_take. lia.
  - rewrite <- (take_drop n (unread ps)) at 2. by apply prefix_app.
  - destruct Hend as [->|]; [left; apply take_drop|lia].
Qed.

(** A poll that offers no room discards the bytes that were put back: what is
    read afterwards comes from the socket alone. *)
Theorem empty_poll_drops_bytes ps sizes :
  polls (0%nat :: sizes) ps = inner_polls (0%nat :: sizes) (ps_inner ps).
Proof.
  cbn [polls inner_polls]. unfold poll_read. destruct ps as [s [c|]]; simpl;
    destruct (inner 0 s) as [r s']; by rewrite polls_drained.
Qed.
End reading.

(** ** Examples *)

Definition sample_security (on : bool) : SecurityConfig :=
  MkSecurityConfig on (V4 10 0 0 1) 1000 5 60 60 None 1000 8192.

(** Bytes that all arrive at the start. *)
Definition at_once (bs : str) : TcpStream := (λ b, (0, Data b)) <$> bs.

Lemma arrives_at_once deadline bs : 0 ≤ deadline → arrives deadline bs (at_once bs).
Proof. intros ?. induction bs; constructor; auto. Qed.

Definition sample_header : str := v1_header (1, 2, 3, 4) (5, 6, 7, 8) 12345 80.
Definition trusted_peer : SocketAddr := MkSocketAddr (V4 10 0 0 1) 4000.
Definition other_peer : SocketAddr := MkSocketAddr (V4 9 9 9 9) 4000.

Lemma trusted_header_roundtrip_witness :
  handle_proxy_protocol 0 (at_once sample_header ++ at_once (lit "hi")) trusted_peer
    (sample_security true) =
    Some (Ok (MkProxyStream (at_once (lit "hi")) None, MkSocketAddr (V4 1 2 3 4) 12345)).
Proof.
  apply (trusted_header_roundtrip 0 (at_once sample_header) (at_once (lit "hi")) trusted_peer
    (sample_security true) (1, 2, 3, 4) (5, 6, 7, 8) 12345 80); try reflexivity.
  - repeat split; unfold u8_max; lia.
  - repeat split; unfold u8_max; lia.
  - unfold is_port, u16_max. lia.
  - unfold is_port, u16_max. lia.
  - apply arrives_at_once. simpl. lia.
Defined.

Lemma trusted_accept_sound_witness :
  ∃ h tr, at_once sample_header = tr ++ [] ∧ None = @None Cursor ∧
    arrives (0 + 1000 * 1000000) h tr ∧ (length h ≤ 107)%nat ∧
    ends_with h crlf = true ∧ is_utf8 h = true ∧
    parse_proxy_protocol_v1 h = Some (Some (V4 1 2 3 4, 12345)) ∧
    (∃ x, V4 1 2 3 4 = v4 x ∧ wf4 x) ∧ is_port 12345.
Proof.
  apply (trusted_accept_sound 0 (at_once sample_header) trusted_peer (sample_security true)
    (MkProxyStream [] None) (MkSocketAddr (V4 1 2 3 4) 12345)); vm_compute; reflexivity.
Defined.

Lemma spoof_rejected_witness :
  handle_proxy_protocol 0 (at_once proxy_prefix ++ at_once (lit " TCP4")) other_peer
    (sample_security true) = Some (Err spoofing).
Proof.
  apply (spoof_rejected 0 (at_once proxy_prefix)); [reflexivity|discriminate|].
  apply arrives_at_once. simpl. lia.
Defined.

Lemma untrusted_payload_preserved_witness :
  other_peer = other_peer ∧
  ∃ bs tr, at_once (lit "PUT /") = tr ++ at_once (lit "T /") ∧
    Some (MkCursor (lit "PU") 0) = Some (MkCursor bs 0) ∧
    arrives (0 + 1000 * 1000000) bs tr ∧ starts_with bs proxy_prefix = false.
Proof.
  apply (untrusted_payload_preserved 0 (at_once (lit "PUT /")) other_peer (sample_security true)
    (MkProxyStream (at_once (lit "T /")) (Some (MkCursor (lit "PU") 0))) other_peer).
  - reflexivity.
  - discriminate.
  - vm_compute. reflexivity.
Defined.

Lemma untrusted_accepted_witness :
  handle_proxy_protocol 0 (at_once (lit "P") ++ (0, Data "U"%char) :: at_once (lit "T /"))
    other_peer (sample_security true) =
  Some (Ok (proxy_stream_new (at_once (lit "T /")) (Some (lit "PU")), other_peer)).
Proof.
  apply (untrusted_accepted 0 (at_once (lit "P")) 0 "U"%char (at_once (lit "T /")) other_peer
    (sample_security true) 1).
  - reflexivity.
  - discriminate.
  - lia.
  - apply (arrives_at_once _ (lit "P")). simpl. lia.
  - simpl. lia.
  - discriminate.
Defined.

Lemma poll_read_transparent_witness :
  ∃ chunks, (length chunks ≤ 2)%nat ∧ Forall (λ c, c ≠ []) chunks ∧
    Forall2 (λ c n, length c ≤ n)%nat chunks (take (length chunks) [2; 3]%nat) ∧
    polls (λ _ (s : unit), (Pending, s)) [2; 3]%nat
      (proxy_stream_new tt (Some (lit "PU"))) =
      (Ready ∘ Ok <$> chunks) ++
      inner_polls (λ _ (s : unit), (Pending, s)) (drop (length chunks) [2; 3]%nat) tt ∧
    concat chunks `prefix_of` lit "PU" ∧ (concat chunks = lit "PU" ∨ length chunks = 2%nat).
Proof.
  apply (poll_read_transparent (λ _ (s : unit), (Pending, s)) [2; 3]%nat
    (proxy_stream_new tt (Some (lit "PU")))).
  repeat constructor.
Defined.
