(* ===== verification/Tls.v ===== *)
(** * Certificate selection: [src/src/tls.rs], and [ProxyError] of [src/src/error.rs]

    The certificate resolver, the endpoint's host name, and the construction of
    the acceptor from the routes.  Files, PEM parsing and key loading belong to
    the system and to rustls: [KeyLoader] has the calls the code makes. *)

From S2P Require Import Prelude RustStr NetAddr Config Comments Parser ParserSpec Router.

(** ** Errors *)

(** [enum ProxyError]; an I/O error is its text *)
Inductive ProxyError : Type :=
| IoError (e : str)
| TlsError (e : str)
| NoMatchingRoute
| UpstreamConnectionFailed (addr : str).

(** [impl From<std::io::Error> for ProxyError] *)
Definition from_io_error (e : str) : ProxyError := IoError e.

(** [impl Display for ProxyError] *)
Definition display_proxy_error (e : ProxyError) : str :=
  match e with
  | IoError e => lit "IO error: " ++ e
  | TlsError e => lit "TLS error: " ++ e
  | NoMatchingRoute => lit "No matching route"
  | UpstreamConnectionFailed addr => lit "Failed to connect to upstream: " ++ addr
  end.

(** ** The calls to the system and to rustls *)

Class KeyLoader (CertifiedKey : Type) : Type := {
  File : Type;
  Cert : Type;
  PrivateKey : Type;
  file_open : str → result str File;
  pem_certs : File → result str (list Cert);
  pem_private_key : File → result str (option PrivateKey);
  from_der : list Cert → PrivateKey → result str CertifiedKey }.

(** The host name of an HTTPS endpoint: up to its port or its path *)
Definition extract_hostname_from_endpoint (endpoint : str) : option str :=
  match strip_prefix (lit "https://") endpoint with
  | Some stripped =>
      host_and_port ← head (split_char stripped slash);
      host ← head (split_char host_and_port colon);
      if nonempty host then Some host else None
  | None => None
  end.

Section tls.
Context {CertifiedKey : Type} `{KeyLoader CertifiedKey}.

(** [struct ExactCertResolver] *)
Record ExactCertResolver : Type := MkResolver { exact_match : gmap str CertifiedKey }.

(** [ExactCertResolver::new] *)
Definition resolver_new : ExactCertResolver := MkResolver ∅.

(** [ExactCertResolver::add] *)
Definition resolver_add (hostname : str) (key : CertifiedKey) (r : ExactCertResolver) :
    ExactCertResolver :=
  MkResolver (<[hostname := key]> (exact_match r)).

(** [ResolvesServerCert::resolve], with the server name of the client hello *)
Definition resolve (server_name : option str) (r : ExactCertResolver) : option CertifiedKey :=
  sni ← server_name;
  exact_match r !! sni.

Definition load_certified_key (cert_path key_path : str) : result ProxyError CertifiedKey :=
  cert_file ← map_err (λ e, TlsError (lit "Failed to open cert file '" ++ cert_path ++
                                      lit "': " ++ e)) (file_open cert_path);
  key_file ← map_err (λ e, TlsError (lit "Failed to open key file '" ++ key_path ++
                                     lit "': " ++ e)) (file_open key_path);
  cert_chain ← map_err (λ e, TlsError (lit "Failed to parse certificates: " ++ e))
                 (pem_certs cert_file);
  key ← map_err (λ e, TlsError (lit "Failed to parse private key: " ++ e))
          (pem_private_key key_file);
  key ← ok_or key (TlsError (lit "No private key found in key file"));
  map_err (λ e, TlsError (lit "TLS config error: " ++ e)) (from_der cert_chain key).

(** The parts of [TlsAcceptor] the program sets *)
Record TlsAcceptor : Type := MkTlsAcceptor {
  cert_resolver : ExactCertResolver;
  alpn_protocols : list str }.

(** The body of the loop of [build_tls_acceptor] *)
Definition add_route (route : Route) (resolver : ExactCertResolver) :
    result ProxyError ExactCertResolver :=
  hostname ← ok_or (extract_hostname_from_endpoint (request_endpoint route))
    (TlsError (lit "Invalid HTTPS endpoint: " ++ request_endpoint route));
  cert ← ok_or (cert_path route)
    (TlsError (lit "Missing cert directive for route: " ++ request_endpoint route));
  key ← ok_or (key_path route)
    (TlsError (lit "Missing key directive for route: " ++ request_endpoint route));
  certified_key ← load_certified_key cert key;
  Ok (resolver_add hostname certified_key resolver).

Fixpoint add_routes (rs : list Route) (resolver : ExactCertResolver) :
    result ProxyError ExactCertResolver :=
  match rs with
  | [] => Ok resolver
  | route :: rs' => resolver' ← add_route route resolver; add_routes rs' resolver'
  end.

Definition is_https (r : Route) : bool := starts_with (request_endpoint r) (lit "https://").

Definition build_tls_acceptor (rs : list Route) : result ProxyError (option TlsAcceptor) :=
  let https_routes := List.filter is_https rs in
  match https_routes with
  | [] => Ok None
  | _ =>
      resolver ← add_routes https_routes resolver_new;
      Ok (Some (MkTlsAcceptor resolver [lit "h2"; lit "http/1.1"]))
  end.

(** ** Which certificate a client gets *)

(** The certificate of a route for a host name, loaded from its files. *)
Definition route_key (host : str) (r : Route) : option CertifiedKey :=
  if is_https r && bool_decide (extract_hostname_from_endpoint (request_endpoint r) = Some host)
  then cert ← cert_path r; key ← key_path r;
       match load_certified_key cert key with Ok k => Some k | Err _ => None end
  else None.

(** The last route that names the host decides. *)
Definition last_key (host : str) (rs : list Route) : option CertifiedKey :=
  foldl (λ found r, match route_key host r with Some k => Some k | None => found end) None rs.

Lemma add_route_lookup r resolver resolver' host :
  is_https r = true → add_route r resolver = Ok resolver' →
  exact_match resolver' !! host =
    match route_key host r with Some k => Some k | None => exact_match resolver !! host end.
Proof.
  intros Hs Hadd. unfold add_route in Hadd. inv_ok. unfold route_key. rewrite Hs. simpl.
  repeat match goal with E : _ = Some _ |- _ => rewrite E end. simpl.
  match goal with E : load_certified_key _ _ = Ok _ |- _ => rewrite E end.
  case_bool_decide as Hh; simplify_eq.
  - by rewrite lookup_insert_eq.
  - rewrite lookup_insert_ne by congruence. done.
Qed.

Lemma add_routes_lookup rs resolver resolver' host :
  Forall (λ r, is_https r = true) rs → add_routes rs resolver = Ok resolver' →
  exact_match resolver' !! host =
    foldl (λ found r, match route_key host r with Some k => Some k | None => found end)
      (exact_match resolver !! host) rs.
Proof.
  intros Hs. revert resolver. induction Hs as [|r rs Hr _ IH]; intros resolver Hadd; simpl in *.
  - by inv_ok.
  - apply bind_Ok in Hadd as (resolver1 & H1 & H2). rewrite (IH _ H2). f_equal.
    by apply add_route_lookup.
Qed.

Lemma last_key_https host rs acc :
  foldl (λ found r, match route_key host r with Some k => Some k | None => found end) acc rs =
  foldl (λ found r, match route_key host r with Some k => Some k | None => found end) acc
    (List.filter is_https rs).
Proof.
  revert acc. induction rs as [|r rs IH]; intros acc; simpl; [done|].
  destruct (is_https r) eqn:Hr; simpl; rewrite IH; [done|].
  unfold route_key. by rewrite Hr.
Qed.

(** The acceptor answers a client hello with the certificate of the last
    HTTPS route whose endpoint names the requested host, exactly, and has no
    certificate for any other name or for a hello without one. *)
Theorem resolve_exact (rs : list Route) (acceptor : TlsAcceptor) (server_name : option str) :
  build_tls_acceptor rs = Ok (Some acceptor) →
  resolve server_name (cert_resolver acceptor) =
    (host ← server_name; last_key host rs).
Proof.
  unfold build_tls_acceptor, last_key. intros Hb. destruct server_name as [host|]; [|done]. simpl.
  rewrite last_key_https. destruct (List.filter is_https rs) as [|r rs'] eqn:Hf; [done|].
  rewrite <- Hf in *. apply bind_Ok in Hb as (resolver & Hadd & [= <-]). simpl.
  apply (add_routes_lookup _ _ _ host) in Hadd; [by rewrite Hadd|].
  apply Forall_forall. intros x Hx. rewrite list_elem_of_In, filter_In in Hx. apply Hx.
Qed.

(** An HTTPS route whose endpoint has the given host name *)
Definition names (host : str) (r : Route) : Prop :=
  is_https r = true ∧ extract_hostname_from_endpoint (request_endpoint r) = Some host.

Lemma route_key_names host r : ¬ names host r → route_key host r = None.
Proof.
  intros Hn. unfold route_key. destruct (is_https r) eqn:Hs; simpl; [|done].
  case_bool_decide; [|done]. by destruct Hn.
Qed.

Lemma fold_keys_none host rs acc :
  Forall (λ r, ¬ names host r) rs →
  foldl (λ found r, match route_key host r with Some k => Some k | None => found end) acc rs = acc.
Proof.
  intros Hrs. revert acc. induction Hrs as [|r rs Hr _ IH]; intros acc; simpl; [done|].
  by rewrite route_key_names, IH.
Qed.

Lemma add_routes_loaded rs resolver resolver' host r :
  add_routes rs resolver = Ok resolver' → r ∈ rs → names host r →
  ∃ cert key k, cert_path r = Some cert ∧ key_path r = Some key ∧
    load_certified_key cert key = Ok k ∧ route_key host r = Some k.
Proof.
  intros Hadd Hr [Hs Hh]. revert resolver Hadd.
  induction Hr as [r rs|r r' rs _ IH]; intros resolver Hadd; simpl in Hadd;
    apply bind_Ok in Hadd as (resolver1 & H1 & H2); [|by eapply IH].
  unfold add_route in H1. inv_ok. eexists _, _, _. split_and!; [done..|].
  unfold route_key. rewrite Hs, bool_decide_eq_true_2 by done. simpl.
  repeat match goal with E : _ = Some _ |- _ => rewrite E; clear E end. simpl.
  by match goal with E : load_certified_key _ _ = Ok _ |- _ => rewrite E end.
Qed.

(** C31: A client that asks for a host gets the certificate, loaded from the files, of the
    last HTTPS route whose endpoint has this host name.  A hello without a name gets
    none, and so does one for a name that no route has, in a table without wildcards. *)
Theorem resolve_named (rs : list Route) (acceptor : TlsAcceptor) :
  build_tls_acceptor rs = Ok (Some acceptor) →
  (∀ i host r, rs !! i = Some r → names host r →
     (∀ j r', (i < j)%nat → rs !! j = Some r' → ¬ names host r') →
     ∃ cert key k, cert_path r = Some cert ∧ key_path r = Some key ∧
       load_certified_key cert key = Ok k ∧
       resolve (Some host) (cert_resolver acceptor) = Some k) ∧
  resolve None (cert_resolver acceptor) = None ∧
  (Forall (λ r, ∀ h, names h r → "*"%char ∉ h) rs →
   ∀ host, Forall (λ r, ¬ names host r) rs → resolve (Some host) (cert_resolver acceptor) = None).
Proof.
  intros Hb. split_and!; [|done|].
  - intros i host r Hi Hn Hlast. rewrite (resolve_exact _ _ (Some host) Hb). simpl.
    unfold build_tls_acceptor in Hb.
    destruct (List.filter is_https rs) as [|r0 rs0] eqn:Hf; [done|]. rewrite <- Hf in Hb.
    apply bind_Ok in Hb as (resolver & Hadd & _).
    destruct (add_routes_loaded _ _ _ host r Hadd) as (cert & key & k & Hc & Hk & Hl & Hr);
      [|done|].
    { apply list_elem_of_In, filter_In. split; [|apply Hn].
      by eapply list_elem_of_In, list_elem_of_lookup_2. }
    exists cert, key, k. split_and!; [done..|]. unfold last_key.
    rewrite <- (take_drop_middle rs i r Hi), foldl_app. simpl. rewrite Hr.
    apply fold_keys_none, Forall_lookup. intros j r' Hj. rewrite lookup_drop in Hj.
    eapply (Hlast (S i + j)%nat); [lia|done].
  - intros _ host Hno. rewrite (resolve_exact _ _ (Some host) Hb). by apply fold_keys_none.
Qed.

(** A route the parser accepted always gets as far as loading its files. *)
Lemma add_route_parsed r resolver e :
  route_ok r → is_https r = true → add_route r resolver = Err e →
  (extract_hostname_from_endpoint (request_endpoint r) = None ∧
   e = TlsError (lit "Invalid HTTPS endpoint: " ++ request_endpoint r)) ∨
  ∃ cert key, cert_path r = Some cert ∧ key_path r = Some key ∧
    load_certified_key cert key = Err e.
Proof.
  intros [_ _ Hc Hk] Hs Hadd. unfold is_https in Hs.
  destruct (proj2 Hc Hs) as [cert Hcert], (proj2 Hk Hs) as [key Hkey].
  unfold add_route in Hadd. rewrite Hcert, Hkey in Hadd.
  destruct (extract_hostname_from_endpoint _); [|by injection Hadd as <-; left]. right. simpl in Hadd.
  exists cert, key. destruct (load_certified_key cert key); by simplify_eq/=.
Qed.

Lemma add_routes_Err rs resolver e :
  add_routes rs resolver = Err e → ∃ r resolver', r ∈ rs ∧ add_route r resolver' = Err e.
Proof.
  revert resolver. induction rs as [|r rs IH]; intros resolver Hadd; simpl in Hadd; [done|].
  apply bind_Err in Hadd as [Hadd|(resolver1 & _ & Hadd)]; [set_solver|].
  apply IH in Hadd as (r' & ? & ? & ?). set_solver.
Qed.

(** C39: For a well-formed configuration the acceptor is absent exactly when no
    route is an HTTPS one, and building it fails only because an endpoint names
    no host, which the error says, or because the files of a route cannot be loaded,
    with the error of loading them: a missing certificate directive cannot be the
    reason. *)
Theorem build_tls_acceptor_parsed (cfg : Config) :
  config_ok cfg →
  match build_tls_acceptor (routes cfg) with
  | Ok None => Forall (λ r, is_https r = false) (routes cfg)
  | Ok (Some _) => Exists (λ r, is_https r = true) (routes cfg)
  | Err e => ∃ r, r ∈ routes cfg ∧ is_https r = true ∧
      ((extract_hostname_from_endpoint (request_endpoint r) = None ∧
        e = TlsError (lit "Invalid HTTPS endpoint: " ++ request_endpoint r)) ∨
       ∃ cert key, cert_path r = Some cert ∧ key_path r = Some key ∧
         load_certified_key cert key = Err e)
  end.
Proof.
  intros [_ _ _ Hroutes _ _ _ _]. unfold build_tls_acceptor.
  destruct (List.filter is_https (routes cfg)) as [|r rs] eqn:Hf.
  { apply Forall_forall. intros r Hr. apply not_true_is_false. intros Hs.
    assert (r ∈ List.filter is_https (routes cfg)) as Hin
      by (apply list_elem_of_In, filter_In; split; [by apply list_elem_of_In|done]).
    rewrite Hf in Hin. set_solver. }
  assert (∀ x, x ∈ r :: rs → x ∈ routes cfg ∧ is_https x = true) as Hin.
  { intros x. by rewrite <- Hf, list_elem_of_In, filter_In, <- list_elem_of_In. }
  destruct (add_routes (r :: rs) resolver_new) as [resolver|e] eqn:Hadd; simpl.
  - apply Exists_exists. exists r. apply Hin. set_solver.
  - apply add_routes_Err in Hadd as (x & resolver & Hx & Hadd).
    apply Hin in Hx as [Hx Hs]. exists x. split_and!; auto.
    eapply add_route_parsed; eauto. by rewrite Forall_forall in Hroutes; auto.
Qed.
End tls.
Arguments ExactCertResolver : clear implicits.
Arguments TlsAcceptor : clear implicits.

(** ** Examples *)

(** A loader that accepts every file: the key is the path of the certificate. *)
#[local] Instance sample_loader : KeyLoader str := {|
  File := str; Cert := str; PrivateKey := unit;
  file_open p := Ok p; pem_certs f := Ok [f]; pem_private_key _ := Ok (Some tt);
  from_der cs _ := Ok (concat cs) |}.

Definition https_route : Route :=
  MkRoute (lit "https://a.b/") (lit "http://c/") false (Some (lit "cert")) (Some (lit "key"))
    None None.

Lemma resolve_named_witness :
  ∃ acceptor, build_tls_acceptor [https_route] = Ok (Some acceptor) ∧
    resolve (Some (lit "a.b")) (cert_resolver acceptor) = Some (lit "cert").
Proof.
  assert (∃ acceptor, build_tls_acceptor [https_route] = Ok (Some acceptor)) as [acceptor Hb]
    by (eexists; reflexivity).
  exists acceptor. split; [exact Hb|].
  destruct (proj1 (resolve_named [https_route] acceptor Hb) 0%nat (lit "a.b") https_route)
    as (cert & key & k & Hc & Hk & Hl & Hres).
  - reflexivity.
  - split; reflexivity.
  - intros [|j] r' Hj Hr'; [lia|discriminate Hr'].
  - rewrite Hres. injection Hc as <-. injection Hk as <-. injection Hl as <-. reflexivity.
Defined.

Definition https_config : Config := MkConfig 443 [https_route] 1 None None None None.

Lemma https_config_ok : config_ok https_config.
Proof.
  split; simpl; try done.
  - by apply NoDup_singleton.
  - constructor; [|constructor]. split; vm_compute; try done; split; eauto.
  - intros r ->%list_elem_of_singleton. done.
Qed.

Lemma build_tls_acceptor_parsed_witness :
  Exists (λ r, is_https r = true) (routes https_config).
Proof. exact (build_tls_acceptor_parsed https_config https_config_ok). Defined.
