(* ===== verification/Http.v ===== *)
(** * The HTTP types of hyper and http

    The program builds on third-party HTTP types.  [Http] has the types and the
    calls the program makes; [HttpLaws] states their documented behaviour, with a
    header map read as the list of values of each name.  [SimpleHttp] shows that
    the laws can be satisfied.

    Header names are in lower case, as [HeaderName] keeps them; a header value is
    the string of its bytes; a status is its number; an error is its text.  The
    upper bound on the number of entries of a header map is not modelled. *)

From S2P Require Import Prelude RustStr.

(** What the accessors of [hyper::Uri] answer. *)
Record Uri : Type := MkUri {
  uri_authority : option str;
  uri_path : str;
  uri_query : option str;
  uri_path_and_query : option str }.

(** The visible ASCII characters and the tab: what [HeaderValue::to_str] lets
    through. *)
Definition visible (c : ascii) : bool := ((32 <=? code c) && (code c <? 127)) || (code c =? 9).

Class Http : Type := {
  HeaderMap : Type;
  hm_new : HeaderMap;
  hm_get : str → HeaderMap → option str;
  hm_contains_key : str → HeaderMap → bool;
  hm_insert : str → str → HeaderMap → HeaderMap;
  hm_append : str → str → HeaderMap → HeaderMap;
  hm_iter : HeaderMap → list (str * str);
  hm_len : HeaderMap → nat;
  (** [HeaderValue::to_str], [HeaderValue::from_str] *)
  hv_to_str : str → option str;
  hv_from_str : str → result str str;
  (** [Version], [{:?}] on it *)
  Version : Type;
  HTTP_11 : Version;
  version_debug : Version → str;
  (** [Method::try_from], [Uri::from_str] *)
  method_parse : str → result str str;
  uri_parse : str → result str Uri;
  (** [StatusCode] *)
  canonical_reason : Z → option str;
  status_from_u16 : Z → option Z;
  status_is_success : Z → bool;
  status_is_client_error : Z → bool;
  status_is_server_error : Z → bool;
  (** Bodies: [Full], [Limited], and [BodyExt::collect] *)
  Body : Type;
  body_full : str → Body;
  body_limited : Z → Body → Body;
  body_collect : Body → option str }.

Class HttpLaws `{Http} : Type := {
  hm_values : str → HeaderMap → list str;
  hm_new_spec k : hm_values k hm_new = [];
  hm_get_spec k h : hm_get k h = head (hm_values k h);
  hm_contains_key_spec k h : hm_contains_key k h = bool_decide (hm_values k h ≠ []);
  hm_insert_spec k v h k' :
    hm_values k' (hm_insert k v h) = if bool_decide (k = k') then [v] else hm_values k' h;
  hm_append_spec k v h k' :
    hm_values k' (hm_append k v h) =
      if bool_decide (k = k') then hm_values k' h ++ [v] else hm_values k' h;
  hm_iter_spec k h : (filter (λ x, x.1 = k) (hm_iter h)).*2 = hm_values k h;
  hm_len_spec h : hm_len h = length (hm_iter h);
  hv_to_str_spec v s : hv_to_str v = Some s → s = v ∧ forallb visible s = true;
  hv_from_str_spec s v : hv_from_str s = Ok v → v = s;
  status_from_u16_spec n : status_from_u16 n = if bool_decide (100 ≤ n ≤ 999) then Some n else None;
  status_is_success_spec n : status_is_success n = bool_decide (200 ≤ n < 300);
  status_is_client_error_spec n : status_is_client_error n = bool_decide (400 ≤ n < 500);
  status_is_server_error_spec n : status_is_server_error n = bool_decide (500 ≤ n < 600);
  body_full_spec bs : body_collect (body_full bs) = Some bs;
  body_limited_spec n b :
    body_collect (body_limited n b) =
      (bs ← body_collect b; if bool_decide (Z.of_nat (length bs) ≤ n) then Some bs else None) }.

Section messages.
Context `{Http}.

(** [hyper::Request] *)
Record Request : Type := MkRequest {
  req_method : str;
  req_uri : Uri;
  req_version : Version;
  req_headers : HeaderMap;
  req_body : Body }.

(** [hyper::Response] *)
Record Response : Type := MkResponse {
  resp_status : Z;
  resp_headers : HeaderMap;
  resp_body : Body }.

(** The header of a request as text: [get(name).and_then(|v| v.to_str().ok())] *)
Definition header_str (name : str) (h : HeaderMap) : option str :=
  hm_get name h ≫= hv_to_str.

(** The host of a request: [uri.authority()] or the [Host] header *)
Definition authority_or_host (uri : Uri) (headers : HeaderMap) : str :=
  default [] (match uri_authority uri with
              | Some a => Some a
              | None => header_str (lit "host") headers
              end).

Definition path_and_query_or_root (uri : Uri) : str :=
  default (lit "/") (uri_path_and_query uri).
End messages.

(** ** Lemmas *)

Section http_lemmas.
Context `{HttpLaws}.
#[local] Set Default Proof Using "Type*".

Lemma hm_get_insert k v h : hm_get k (hm_insert k v h) = Some v.
Proof. by rewrite hm_get_spec, hm_insert_spec, bool_decide_eq_true_2. Qed.

Lemma hm_get_insert_ne k v h k' : k ≠ k' → hm_get k' (hm_insert k v h) = hm_get k' h.
Proof. intros. by rewrite !hm_get_spec, hm_insert_spec, bool_decide_eq_false_2. Qed.

Lemma header_str_Some k h s : header_str k h = Some s → hm_get k h = Some s.
Proof.
  unfold header_str. intros (v & Hv & Hs)%bind_Some. by apply hv_to_str_spec in Hs as [-> _].
Qed.
End http_lemmas.

(** ** A model of the laws *)

(** A header map as the list of its entries, a body as what it delivers. *)
Definition SimpleHttp : Http := {|
  HeaderMap := list (str * str);
  hm_new := [];
  hm_get k h := head (filter (λ x, x.1 = k) h).*2;
  hm_contains_key k h := bool_decide ((filter (λ x, x.1 = k) h).*2 ≠ []);
  hm_insert k v h := (k, v) :: filter (λ x, x.1 ≠ k) h;
  hm_append k v h := h ++ [(k, v)];
  hm_iter h := h;
  hm_len h := length h;
  hv_to_str v := if forallb visible v then Some v else None;
  hv_from_str s := if forallb visible s then Ok s else Err (lit "invalid header value");
  Version := str;
  HTTP_11 := lit "HTTP/1.1";
  version_debug v := v;
  method_parse m := Ok m;
  uri_parse s := Ok (MkUri None s None (Some s));
  canonical_reason n :=
    if n =? 429 then Some (lit "Too Many Requests")
    else if n =? 502 then Some (lit "Bad Gateway") else None;
  status_from_u16 n := if bool_decide (100 ≤ n ≤ 999) then Some n else None;
  status_is_success n := bool_decide (200 ≤ n < 300);
  status_is_client_error n := bool_decide (400 ≤ n < 500);
  status_is_server_error n := bool_decide (500 ≤ n < 600);
  Body := option str;
  body_full bs := Some bs;
  body_limited n b :=
    bs ← b; if bool_decide (Z.of_nat (length bs) ≤ n) then Some bs else None;
  body_collect b := b |}.

Lemma filter_other_name (k k' : str) (h : list (str * str)) :
  k ≠ k' → filter (λ x, x.1 = k') (filter (λ x, x.1 ≠ k) h) = filter (λ x, x.1 = k') h.
Proof.
  intros Hne. induction h as [|[k2 v2] h IH]; [done|].
  rewrite (filter_cons _ (k2, v2) h), (filter_cons (λ x, x.1 = k') (k2, v2) h). simpl.
  repeat case_decide; subst; rewrite ?filter_cons; simpl; repeat case_decide; subst;
    rewrite ?IH; congruence || done.
Qed.

Lemma filter_same_name (k : str) (h : list (str * str)) :
  filter (λ x, x.1 = k) (filter (λ x, x.1 ≠ k) h) = [].
Proof.
  induction h as [|[k2 v2] h IH]; [done|].
  rewrite filter_cons. simpl. case_decide; [|done]. rewrite filter_cons. simpl.
  by case_decide.
Qed.

#[export] Instance SimpleHttp_laws : @HttpLaws SimpleHttp.
Proof.
  refine (@Build_HttpLaws SimpleHttp (λ k h, (filter (λ x, x.1 = k) h).*2)
    _ _ _ _ _ _ _ _ _ _ _ _ _ _ _); simpl; try done.
  - intros k v h k'. rewrite filter_cons. simpl. case_bool_decide as Hk; case_decide; try done.
    + subst. by rewrite filter_same_name.
    + by rewrite filter_other_name.
  - intros k v h k'. rewrite filter_app, fmap_app, filter_cons. simpl.
    case_bool_decide; case_decide; try done. by rewrite app_nil_r.
  - intros v s. case_if; [|done]. by intros [= <-].
  - intros v s. case_if; congruence.
Defined.
