(* ===== verification/Effects.v ===== *)
(** * Request handlers as programs with effects

    The handlers of [src/src/auth.rs], [src/src/proxy.rs] and [src/src/worker.rs] run as tasks that
    share the security manager and the cache with every other task and talk to
    other servers.  A handler is a program whose effects are its calls to these;
    the answers come from an oracle that may depend on everything that happened
    before.  A statement for every oracle holds for every interleaving with other
    tasks and for every behaviour of the network. *)

From S2P Require Import Prelude RustStr NetAddr Log Security Cache ProxyProtocol Http.

(** ** Effects *)

Section effects.
Context `{Http}.

(** What [tokio::spawn] is given by the handler, with the variables the task
    captures: the insertion into the cache, the tunnel of an upgraded connection *)
Inductive spawned : Type :=
| InsertTask (engine : nat) (key : str) (status : Z) (headers : HeaderMap) (body : str)
    (client_ip host path : str)
| TunnelTask (peer : SocketAddr) (upstream : str).

(** A manager or an engine is named by its location. *)
Inductive effect : Type → Type :=
(** calls to the security manager; [None] when the call panics *)
| IsBlacklistedE (manager : nat) (ip : IpAddr) : effect (option bool)
| CheckRequestE (manager : nat) (ip : IpAddr) : effect (option (result Z Z))
| RecordTlsFailureE (manager : nat) (ip : IpAddr) : effect (option bool)
(** calls to the cache engine *)
| CacheGetE (engine : nat) (key : str) : effect (option (CachedAsset HeaderMap))
| CacheInsertE (engine : nat) (created_at : Z) (key : str) (status : Z) (headers : HeaderMap)
    (body : str) : effect InsertResult
| CurrentMemoryE (engine : nat) : effect Z
| EntryCountE (engine : nat) : effect Z
| MaxCapacityE (engine : nat) : effect Z
| MaxFileSizeE (engine : nat) : effect Z
(** [Instant::now()] where it is read outside of a lock *)
| NowE : effect Z
(** [client.request(..).await] of the auth provider and of the proxy *)
| AuthRequestE (r : Request) : effect (result str Response)
| UpstreamRequestE (r : Request) : effect (result str Response)
(** [tokio::spawn] *)
| SpawnE (t : spawned) : effect unit
(** an upgraded connection: the two upgrade futures, and [copy_bidirectional] with
    the bytes sent to the upstream and to the client *)
| ClientUpgradeE : effect (result str unit)
| UpstreamUpgradeE : effect (result str unit)
| CopyBidirectionalE : effect (result str (Z * Z))
(** a worker's connection: [acceptor.accept(..).await], and
    [serve_connection_with_upgrades] with its limits on HTTP/1 and HTTP/2 headers *)
| TlsAcceptE (stream : ProxyStream TcpStream) : effect (result str unit)
| ServeE (peer : SocketAddr) (is_proxy_protocol : bool) (http1_max http2_max : Z) :
    effect (result str unit)
(** [log_event] *)
| LogE (r : LogRecord) : effect unit
(** the time since the request arrived, in milliseconds, as printed with [{:.3}] *)
| ElapsedE : effect str.

(** A program with result [A] that may return early with an [R]. *)
Inductive prog (R A : Type) : Type :=
| Ret (a : A)
| Return (r : R)
| Vis {X : Type} (e : effect X) (k : X → prog R A).
Arguments Ret {R A} a.
Arguments Return {R A} r.
Arguments Vis {R A X} e k.

#[export] Instance prog_ret {R} : MRet (prog R) := @Ret R.

#[export] Instance prog_bind {R} : MBind (prog R) :=
  fix bind A B (k : A → prog R B) (p : prog R A) {struct p} :=
    match p with
    | Ret a => k a
    | Return r => Return r
    | Vis e k' => Vis e (λ x, bind A B k (k' x))
    end.

Definition trigger {R X} (e : effect X) : prog R X := Vis e Ret.

(** The macros [log_info!], [log_error!], [log_warn!] and [log_debug!] *)
Definition log_info {R} (event : string) (kv : list (str * str)) : prog R unit :=
  trigger (LogE (MkLogRecord INFO (lit event) kv)).
Definition log_error {R} (event : string) (kv : list (str * str)) : prog R unit :=
  trigger (LogE (MkLogRecord ERROR (lit event) kv)).
Definition log_warn {R} (event : string) (kv : list (str * str)) : prog R unit :=
  trigger (LogE (MkLogRecord WARN (lit event) kv)).
Definition log_debug {R} (event : string) (kv : list (str * str)) : prog R unit :=
  trigger (LogE (MkLogRecord DEBUG (lit event) kv)).

(** A call: an early return of the callee ends the callee only. *)
Fixpoint invoke {R A} (p : prog A A) : prog R A :=
  match p with
  | Ret a | Return a => Ret a
  | Vis e k => Vis e (λ x, invoke (k x))
  end.

(** ** Executions *)

Inductive event : Type :=
| Event {X : Type} (e : effect X) (answer : X).

Definition oracle : Type := ∀ X, list event → effect X → X.

(** The result and the events of an execution, after the events [hist]. *)
Fixpoint exec {R A} (o : oracle) (hist : list event) (p : prog R A) : (R + A) * list event :=
  match p with
  | Ret a => (inr a, hist)
  | Return r => (inl r, hist)
  | Vis e k => let x := o _ hist e in exec o (hist ++ [Event e x]) (k x)
  end.

(** The records of the log among events, and the other events: what a task says
    and what it does. *)
Definition logged (ev : event) : option LogRecord :=
  match ev with Event e _ => match e with LogE r => Some r | _ => None end end.

(** Effects that only write to the log or read figures for it *)
Definition is_quiet {X} (e : effect X) : bool :=
  match e with
  | LogE _ | ElapsedE | CurrentMemoryE _ | EntryCountE _ | MaxCapacityE _ | MaxFileSizeE _ => true
  | _ => false
  end.

Definition is_measure (ev : event) : bool := match ev with Event e _ => is_quiet e end.

Definition log_records (tr : list event) : list LogRecord := omap logged tr.

Definition actions (tr : list event) : list event := filter (λ ev, is_measure ev = false) tr.

(** What a task returns: its value, or that of its early return. *)
Definition outcome_of {R} (x : R + R) : R := match x with inl r | inr r => r end.

(** ** Lemmas *)

Lemma exec_bind {R A B} o hist (p : prog R A) (k : A → prog R B) :
  exec o hist (p ≫= k) =
    match exec o hist p with
    | (inl r, hist') => (inl r, hist')
    | (inr a, hist') => exec o hist' (k a)
    end.
Proof.
  revert hist. induction p as [a|r|X e k' IH]; intros hist; simpl; [done|done|]. apply IH.
Qed.

Lemma exec_trigger {R X} o hist (e : effect X) :
  exec (R := R) o hist (trigger e) = (inr (o X hist e), hist ++ [Event e (o X hist e)]).
Proof. done. Qed.

Lemma exec_invoke {R A} o hist (p : prog A A) :
  exec (R := R) o hist (invoke p) =
    (inr (outcome_of (exec o hist p).1), (exec o hist p).2).
Proof.
  revert hist. induction p as [a|r|X e k' IH]; intros hist; simpl; [done|done|]. apply IH.
Qed.

(** Events are only ever added. *)
Lemma exec_extends {R A} o hist (p : prog R A) :
  ∃ tr, (exec o hist p).2 = hist ++ tr.
Proof.
  revert hist. induction p as [a|r|X e k IH]; intros hist; simpl.
  - exists []. by rewrite app_nil_r.
  - exists []. by rewrite app_nil_r.
  - destruct (IH (o X hist e) (hist ++ [Event e (o X hist e)])) as [tr ->].
    rewrite <- app_assoc. eauto.
Qed.

(** Every answer came from the oracle. *)
Definition answered_by (o : oracle) (ev : event) : Prop :=
  match ev with Event e x => ∃ hist, x = o _ hist e end.

Lemma exec_answers {R A} o hist (p : prog R A) :
  Forall (answered_by o) hist → Forall (answered_by o) (exec o hist p).2.
Proof.
  revert hist. induction p as [a|r|X e k IH]; intros hist Hh; simpl; [done..|].
  apply IH, Forall_app. split; [done|]. repeat constructor. by exists hist.
Qed.

(** ** Reasoning about programs *)

(** The weakest precondition of a program after the events [hist]: every effect
    it triggers satisfies [I] at the moment it is triggered, an early return
    satisfies [Qr] and a result [Q], whatever the answers are. *)
Fixpoint wp {R A} (I : list event → ∀ X, effect X → Prop) (p : prog R A) (hist : list event)
    (Qr : R → list event → Prop) (Q : A → list event → Prop) : Prop :=
  match p with
  | Ret a => Q a hist
  | Return r => Qr r hist
  | Vis e k => I hist _ e ∧ ∀ x, wp I (k x) (hist ++ [Event e x]) Qr Q
  end.

Lemma wp_bind {R A B} I (p : prog R A) (k : A → prog R B) hist Qr Q :
  wp I p hist Qr (λ a hist', wp I (k a) hist' Qr Q) → wp I (p ≫= k) hist Qr Q.
Proof.
  revert hist. induction p as [a|r|X e k' IH]; intros hist; simpl; [done|done|].
  intros [HI Hk]. split; [done|]. intros x. by apply IH.
Qed.

Lemma wp_ret {R A} I (a : A) hist (Qr : R → list event → Prop) (Q : A → list event → Prop) :
  Q a hist → wp I (Ret a) hist Qr Q.
Proof. done. Qed.

Lemma wp_trigger {R X} I (e : effect X) hist (Qr : R → list event → Prop) Q :
  I hist X e → (∀ x, Q x (hist ++ [Event e x])) → wp I (trigger e) hist Qr Q.
Proof. by split. Qed.

Lemma wp_invoke {R A} I (p : prog A A) hist (Qr : R → list event → Prop) Q :
  wp I p hist Q Q → wp I (invoke p) hist Qr Q.
Proof.
  revert hist. induction p as [a|r|X e k' IH]; intros hist; simpl; [done|done|].
  intros [HI Hk]. split; [done|]. intros x. by apply IH.
Qed.

(** A program with no obligation on its effects. *)
Lemma wp_any {R A} (p : prog R A) hist (Qr : R → list event → Prop) (Q : A → list event → Prop) :
  (∀ r hist, Qr r hist) → (∀ a hist, Q a hist) → wp (λ _ _ _, True) p hist Qr Q.
Proof. intros ? ?. revert hist. induction p; simpl; auto. Qed.

(** Every effect a program may trigger satisfies [P]. *)
Fixpoint only {R A} (P : ∀ X, effect X → bool) (p : prog R A) : Prop :=
  match p with
  | Ret _ | Return _ => True
  | Vis e k => P _ e = true ∧ ∀ x, only P (k x)
  end.

Lemma only_bind {R A B} P (p : prog R A) (k : A → prog R B) :
  only P p → (∀ a, only P (k a)) → only P (p ≫= k).
Proof. intros Hp Hk. induction p as [a|r|X e k' IH]; simpl in *; naive_solver. Qed.

Lemma only_invoke {R A} P (p : prog A A) : only P p → only (R := R) P (invoke p).
Proof. intros Hp. induction p as [a|r|X e k' IH]; simpl in *; naive_solver. Qed.

Lemma only_mono {R A} (P P' : ∀ X, effect X → bool) (p : prog R A) :
  (∀ X e, P X e = true → P' X e = true) → only P p → only P' p.
Proof. intros Himp. induction p as [a|r|X e k' IH]; simpl; naive_solver. Qed.

Definition event_in (P : ∀ X, effect X → bool) (ev : event) : Prop :=
  match ev with Event e _ => P _ e = true end.

(** A program all of whose effects are harmless for [I], with what it adds to the
    history. *)
Lemma wp_only_events {R A} P I (p : prog R A) hist (Qr : R → list event → Prop) Q :
  only P p → (∀ hist X e, P X e = true → I hist X e) →
  (∀ r tr, Forall (event_in P) tr → Qr r (hist ++ tr)) →
  (∀ a tr, Forall (event_in P) tr → Q a (hist ++ tr)) → wp I p hist Qr Q.
Proof.
  intros Hp HI. revert hist. induction p as [a|r|X e k' IH]; intros hist HQr HQ; simpl in *.
  - specialize (HQ a []). rewrite app_nil_r in HQ. by apply HQ.
  - specialize (HQr r []). rewrite app_nil_r in HQr. by apply HQr.
  - destruct Hp as [He Hk]. split; [auto|]. intros x.
    apply IH; [done|intros; rewrite <- app_assoc; simpl; auto..].
Qed.

Lemma wp_only {R A} P I (p : prog R A) hist (Qr : R → list event → Prop) Q :
  only P p → (∀ hist X e, P X e = true → I hist X e) →
  (∀ r tr, Qr r (hist ++ tr)) → (∀ a tr, Q a (hist ++ tr)) → wp I p hist Qr Q.
Proof. intros. by eapply wp_only_events. Qed.

(** Every early return satisfies [Qr] and every result [Q], whatever happens. *)
Fixpoint ends {R A} (Qr : R → Prop) (Q : A → Prop) (p : prog R A) : Prop :=
  match p with
  | Ret a => Q a
  | Return r => Qr r
  | Vis e k => ∀ x, ends Qr Q (k x)
  end.

Lemma ends_bind {R A B} Qr (Q : B → Prop) (p : prog R A) (k : A → prog R B) :
  ends Qr (λ a, ends Qr Q (k a)) p → ends Qr Q (p ≫= k).
Proof.
  intros Hp. induction p as [a|r|X e k' IH]; simpl in *; [done..|]. intros x. by apply IH.
Qed.

Lemma ends_any {R A} (Qr : R → Prop) (p : prog R A) :
  ends Qr (λ _, True) p → ∀ Q : A → Prop, (∀ a, Q a) → ends Qr Q p.
Proof. intros Hp Q HQ. induction p as [a|r|X e k' IH]; simpl in *; auto. Qed.

Lemma ends_invoke {R A} (Qr : R → Prop) (Q : A → Prop) (p : prog A A) :
  (∀ a, Q a) → ends Qr Q (invoke p).
Proof. intros HQ. induction p as [a|r|X e k' IH]; simpl; auto. Qed.

(** What holds of a history and of all its extensions goes on to hold. *)
Lemma wp_keep {R A} (P : list event → Prop) Qr Q (p : prog R A) hist :
  (∀ h ev, P h → P (h ++ [ev])) → P hist → ends Qr Q p →
  wp (λ h _ _, P h) p hist (λ r h, Qr r ∧ P h) (λ a h, Q a ∧ P h).
Proof.
  intros HP. revert hist. induction p as [a|r|X e k IH]; intros hist Hh Hp; simpl in *; [done..|].
  split; [done|]. intros x. by apply IH; [apply HP|].
Qed.

Lemma wp_mono {R A} (I I' : list event → ∀ X, effect X → Prop) (p : prog R A) hist
    (Qr Qr' : R → list event → Prop) (Q Q' : A → list event → Prop) :
  wp I p hist Qr Q → (∀ h X e, I h X e → I' h X e) → (∀ r h, Qr r h → Qr' r h) →
  (∀ a h, Q a h → Q' a h) → wp I' p hist Qr' Q'.
Proof.
  intros Hp HI HQr HQ. revert hist Hp.
  induction p as [a|r|X e k IH]; intros hist; simpl; [auto..|].
  intros [? ?]. split; auto.
Qed.

(** A property proved with [wp] holds of every execution. *)
Lemma wp_exec {R A} I (p : prog R A) hist Qr Q o :
  wp I p hist Qr Q →
  match exec o hist p with
  | (inl r, hist') => Qr r hist'
  | (inr a, hist') => Q a hist'
  end.
Proof.
  revert hist. induction p as [a|r|X e k IH]; intros hist; simpl; [done|done|].
  intros [_ Hk]. by apply IH.
Qed.

(** Each event of an execution satisfied [I] when it happened. *)
Lemma wp_trace {R A} I (p : prog R A) hist Qr Q o pre X (e : effect X) x post :
  wp I p hist Qr Q → (exec o hist p).2 = hist ++ pre ++ Event e x :: post →
  I (hist ++ pre) X e.
Proof.
  revert hist pre. induction p as [a|r|Y e' k IH]; intros hist pre; simpl.
  - intros _ Heq. exfalso. rewrite <- (app_nil_r hist) in Heq at 1. apply app_inv_head in Heq.
    by destruct pre.
  - intros _ Heq. exfalso. rewrite <- (app_nil_r hist) in Heq at 1. apply app_inv_head in Heq.
    by destruct pre.
  - intros [HI Hk] Heq. specialize (Hk (o Y hist e')).
    destruct pre as [|ev pre].
    + destruct (exec_extends o (hist ++ [Event e' (o Y hist e')]) (k (o Y hist e'))) as [tr Htr].
      rewrite Htr, <- app_assoc in Heq. apply app_inv_head in Heq. simpl in Heq.
      apply (f_equal head) in Heq. simpl in Heq. rewrite app_nil_r.
      change (match Some (Event e x) with Some (Event e0 _) => I hist _ e0 | None => True end).
      by rewrite <- Heq.
    + assert (ev = Event e' (o Y hist e')) as ->.
      { destruct (exec_extends o (hist ++ [Event e' (o Y hist e')]) (k (o Y hist e'))) as [tr Htr].
        rewrite Htr, <- app_assoc in Heq. apply app_inv_head in Heq. simpl in Heq.
        apply (f_equal head) in Heq. simpl in Heq. congruence. }
      replace (hist ++ Event e' (o Y hist e') :: pre)
        with ((hist ++ [Event e' (o Y hist e')]) ++ pre) by (by rewrite <- app_assoc).
      apply (IH _ _ _ Hk). rewrite Heq, <- app_assoc. done.
Qed.

(** ** Executions in progress *)

(** [runs p tr p']: [p] triggers the events [tr], in order, and goes on as [p']. *)
Inductive runs {R A} : prog R A → list event → prog R A → Prop :=
| runs_here p : runs p [] p
| runs_vis {X} (e : effect X) k x tr p' : runs (k x) tr p' → runs (Vis e k) (Event e x :: tr) p'.

Lemma runs_snoc {R A} (p : prog R A) tr X (e : effect X) k x :
  runs p tr (Vis e k) → runs p (tr ++ [Event e x]) (k x).
Proof.
  intros Hr. remember (Vis e k) as q eqn:Hq. revert e k x Hq.
  induction Hr as [p|Y e' k' y tr p' _ IH]; intros e k x ->; simpl.
  - repeat constructor.
  - constructor. by apply IH.
Qed.

(** What a program promises holds in the middle of an execution too. *)
Lemma wp_runs {R A} I (p p' : prog R A) hist tr Qr Q :
  runs p tr p' → wp I p hist Qr Q →
  wp I p' (hist ++ tr) Qr Q ∧
  ∀ pre X (e : effect X) x post, tr = pre ++ Event e x :: post → I (hist ++ pre) X e.
Proof.
  intros Hr. revert hist. induction Hr as [p|Y e' k' y tr p' _ IH]; intros hist Hwp.
  - rewrite app_nil_r. split; [done|]. by intros [] ? ? ? ? ?.
  - destruct Hwp as [HI Hk]. destruct (IH _ (Hk y)) as [Hp Htr].
    rewrite <- app_assoc in Hp. split; [done|]. intros [|ev pre] X e x post Heq.
    + rewrite app_nil_r. apply (f_equal head) in Heq. simpl in Heq.
      change (match Some (Event e x) with Some (Event e0 _) => I hist _ e0 | None => True end).
      by rewrite <- Heq.
    + assert (ev = Event e' y) as -> by (by apply (f_equal head) in Heq; simpl in Heq; congruence).
      apply (f_equal tail) in Heq. simpl in Heq. specialize (Htr pre X e x post Heq).
      by rewrite <- app_assoc in Htr.
Qed.

Lemma only_runs {R A} P (p p' : prog R A) tr :
  runs p tr p' → only P p → only P p' ∧ Forall (event_in P) tr.
Proof.
  induction 1 as [p|Y e' k' y tr p' _ IH]; [done|]. intros [He Hk].
  destruct (IH (Hk y)) as [? ?]. split; [done|]. by constructor.
Qed.

(** Programs with their results renamed. *)
Fixpoint pmap {R A R' A'} (f : R → R') (g : A → A') (p : prog R A) : prog R' A' :=
  match p with
  | Ret a => Ret (g a)
  | Return r => Return (f r)
  | Vis e k => Vis e (λ x, pmap f g (k x))
  end.

Lemma wp_pmap {R A R' A'} I (f : R → R') (g : A → A') (p : prog R A) hist Qr Q :
  wp I p hist (λ r, Qr (f r)) (λ a, Q (g a)) → wp I (pmap f g p) hist Qr Q.
Proof.
  revert hist. induction p as [a|r|X e k IH]; intros hist; simpl; [done..|].
  intros [HI Hk]. split; [done|]. intros x. by apply IH.
Qed.

(** ** How long a program takes *)

(** An effect counts as one, and a spawned task as [c] more. *)
Definition weight (c : Z) {X} (e : effect X) : Z :=
  match e with SpawnE _ => 1 + c | _ => 1 end.

Definition cost (c : Z) (tr : list event) : Z :=
  foldr (λ '(Event e _) n, weight c e + n) 0 tr.

(** At most [r] up to an early return and at most [a] up to a result, whatever the
    answers are *)
Fixpoint takes {R A} (c r a : Z) (p : prog R A) : Prop :=
  match p with
  | Ret _ => 0 ≤ a
  | Return _ => 0 ≤ r
  | Vis e k => ∀ x, takes c (r - weight c e) (a - weight c e) (k x)
  end.

Lemma weight_pos c {X} (e : effect X) : 0 ≤ c → 1 ≤ weight c e.
Proof. destruct e; simpl; lia. Qed.

Lemma cost_length tr : cost 0 tr = Z.of_nat (length tr).
Proof. induction tr as [|[X e x] tr IH]; simpl; [done|]. rewrite IH. destruct e; simpl; lia. Qed.

Lemma cost_app c tr tr' : cost c (tr ++ tr') = cost c tr + cost c tr'.
Proof. induction tr as [|[X e x] tr IH]; simpl; [done|]. rewrite IH. lia. Qed.

Lemma takes_mono {R A} c r a r' a' (p : prog R A) :
  r ≤ r' → a ≤ a' → takes c r a p → takes c r' a' p.
Proof.
  revert r a r' a'. induction p as [y|y|X e k IH]; simpl; intros r a r' a' Hr Ha Hp; [lia|lia|].
  intros x. apply (IH x (r - weight c e) (a - weight c e)); [lia|lia|done].
Qed.

(** The bounds of a stage and of what comes after it *)
Lemma takes_bind {R A B} c r a r' a' (p : prog R A) (k : A → prog R B) :
  takes c r a p → r ≤ r' → (∀ x, takes c (r' - a) (a' - a) (k x)) → takes c r' a' (p ≫= k).
Proof.
  intros Hp Hr Hk. revert r a r' a' Hp Hr Hk.
  induction p as [y|y|X e k' IH]; simpl; intros r a r' a' Hp Hr Hk; [|lia|].
  - apply (takes_mono c (r' - a) (a' - a)); [lia|lia|done].
  - intros x. apply (IH x (r - weight c e) (a - weight c e)); [done|lia|].
    intros y. specialize (Hk y). eapply takes_mono; [..|done]; lia.
Qed.

Lemma takes_invoke {R A} c r a (p : prog A A) : takes c a a p → takes (R := R) c r a (invoke p).
Proof.
  revert r a. induction p as [y|y|X e k IH]; simpl; intros r a Hp; [done..|].
  intros x. by apply IH.
Qed.

Lemma takes_pmap {R A R' A'} c r a (f : R → R') (g : A → A') (p : prog R A) :
  takes c r a p → takes c r a (pmap f g p).
Proof. revert r a. induction p as [y|y|X e k IH]; simpl; auto. Qed.

Lemma takes_runs {R A} c r a (p p' : prog R A) tr :
  runs p tr p' → takes c r a p → takes c (r - cost c tr) (a - cost c tr) p'.
Proof.
  intros Hr. revert r a. induction Hr as [p|X e k x tr p' _ IH]; simpl; intros r a Hp.
  - by rewrite !Z.sub_0_r.
  - specialize (IH _ _ (Hp x)). eapply takes_mono; [..|done]; lia.
Qed.

(** Every effect has an answer, so a program that goes on has time left. *)
Definition some_answer {X} (e : effect X) : X :=
  match e in effect X return X with
  | IsBlacklistedE _ _ => None
  | CheckRequestE _ _ => None
  | RecordTlsFailureE _ _ => None
  | CacheGetE _ _ => None
  | CacheInsertE _ _ _ _ _ _ => MkInsertResult false 0 0 0 None
  | CurrentMemoryE _ => 0
  | EntryCountE _ => 0
  | MaxCapacityE _ => 0
  | MaxFileSizeE _ => 0
  | NowE => 0
  | AuthRequestE _ => Err []
  | UpstreamRequestE _ => Err []
  | SpawnE _ => tt
  | ClientUpgradeE => Err []
  | UpstreamUpgradeE => Err []
  | CopyBidirectionalE => Err []
  | TlsAcceptE _ => Err []
  | ServeE _ _ _ _ => Err []
  | LogE _ => tt
  | ElapsedE => []
  end.

Lemma takes_nonneg {R A} c n (p : prog R A) : 0 ≤ c → takes c n n p → 0 ≤ n.
Proof.
  intros Hc. revert n. induction p as [y|y|X e k IH]; simpl; intros n Hp; [done..|].
  specialize (IH _ _ (Hp (some_answer e))). pose proof (weight_pos c e Hc). lia.
Qed.

Lemma only_pmap {R A R' A'} P (f : R → R') (g : A → A') (p : prog R A) :
  only P p → only P (pmap f g p).
Proof. induction p as [a|r|X e k IH]; simpl; [done..|]. intros [? ?]. split; auto. Qed.
End effects.
Arguments Ret {_ R A} a.
Arguments Return {_ R A} r.
Arguments Vis {_ R A X} e k.
Arguments spawned : clear implicits.
Arguments spawned {_}.
Arguments effect {_} X.
Arguments prog {_} R A.

(** [only] for a concrete program: one case per branch. *)
Ltac solve_only :=
  repeat first
    [ progress simpl
    | match goal with
      | |- True => exact I
      | |- _ ∧ _ => split
      | |- ∀ _, _ => intro
      | |- only _ (mbind _ _) => apply only_bind
      | |- only _ (invoke _) => apply only_invoke
      | |- only _ (match ?x with _ => _ end) => destruct x
      | |- only _ (_ _ (match ?x with _ => _ end)) => destruct x
      end
    | reflexivity ].

(** [takes] for a concrete program with concrete bounds: one case per branch. *)
Ltac solve_takes :=
  repeat first
    [ progress simpl
    | match goal with
      | |- ∀ _, _ => intro
      | |- takes _ _ _ (match ?x with _ => _ end) => destruct x
      | |- takes _ _ _ (_ _ (match ?x with _ => _ end)) => destruct x
      end
    | lia ].
