(* ===== verification/ErrorPages.v ===== *)
(** * Error pages: [src/src/error_pages.rs]

    The HTML page and the JSON document the proxy answers errors with, and what
    they tell the client.  In the templates below a tilde stands for the quotation
    mark. *)

From S2P Require Import Prelude RustStr Http.

Definition dquote : ascii := chr 34.

(** A template of the source: tildes are quotation marks. *)
Definition html (s : string) : str :=
  (λ c, if Ascii.eqb c "~" then dquote else c) <$> lit s.
Arguments html : simpl never.

Definition page_head : str := html "<!DOCTYPE html>
<html lang=~en~>
<head>
  <meta charset=~UTF-8~>
  <meta name=~viewport~ content=~width=device-width, initial-scale=1.0~>
  <title>".

Definition page_style : str := html "</title>
  <style>
    * { box-sizing: border-box; margin: 0; padding: 0; }
    body {
      background-color: #f1f5f9;
      background-image: linear-gradient(rgba(15, 23, 42, 0.04) 50%, transparent 50%);
      background-size: 100% 4px;
      color: #0f172a;
      font-family: ~Courier New~, Courier, Monaco, ~Lucida Console~, monospace;
      display: flex;
      align-items: center;
      justify-content: center;
      min-height: 100vh;
      padding: 20px;
    }
    .card {
      background-color: #ffffff;
      border: 4px solid #0f172a;
      box-shadow: 8px 8px 0px #0f172a;
      padding: 36px 32px;
      max-width: 480px;
      width: 100%;
      text-align: center;
    }
    .banner {
      display: inline-block;
      background-color: #0f172a;
      color: #38bdf8;
      font-size: 11px;
      font-weight: 700;
      letter-spacing: 2px;
      padding: 4px 12px;
      margin-bottom: 20px;
      text-transform: uppercase;
      border: 2px solid #0f172a;
    }
    .status-code {
      font-size: 64px;
      font-weight: 900;
      line-height: 1;
      color: #dc2626;
      text-shadow: 3px 3px 0px #0f172a;
      margin-bottom: 12px;
      letter-spacing: 2px;
    }
    .status-title {
      font-size: 20px;
      font-weight: 700;
      color: #0f172a;
      text-transform: uppercase;
      letter-spacing: 1px;
      margin-bottom: 16px;
    }
    .description {
      font-size: 13px;
      color: #334155;
      line-height: 1.6;
      margin-bottom: 28px;
      font-weight: 600;
    }
    .pixel-divider {
      border-top: 4px dashed #0f172a;
      margin-bottom: 20px;
    }
    .meta {
      display: flex;
      justify-content: space-between;
      gap: 12px;
      font-size: 11px;
    }
    .meta-box {
      flex: 1;
      background-color: #f8fafc;
      border: 2px solid #0f172a;
      box-shadow: 3px 3px 0px #0f172a;
      padding: 8px 6px;
      word-break: break-all;
      text-align: left;
    }
    .meta-label {
      display: block;
      font-weight: 700;
      color: #64748b;
      font-size: 9px;
      text-transform: uppercase;
      letter-spacing: 1px;
      margin-bottom: 2px;
    }
    .meta-value {
      font-weight: 700;
      color: #0f172a;
    }
  </style>
</head>
<body>
  <div class=~card~>
    <div class=~banner~>[ PROXY EXCEPTION ]</div>
    <div class=~status-code~>".

Definition page_title : str := html "</div>
    <div class=~status-title~>".
Definition page_description : str := html "</div>
    <div class=~description~>".
Definition page_host : str := html "</div>
    <div class=~pixel-divider~></div>
    <div class=~meta~>
      <div class=~meta-box~><span class=~meta-label~>TARGET HOST</span><span class=~meta-value~>".
Definition page_ip : str := html "</span></div>
      <div class=~meta-box~><span class=~meta-label~>CLIENT IP</span><span class=~meta-value~>".
Definition page_end : str := html "</span></div>
    </div>
  </div>
</body>
</html>
".

Definition or_dash (s : str) : str := if nonempty s then s else lit "-".

Section error_pages.
Context `{Http}.

Definition reason_or_error (status : Z) : str := default (lit "Error") (canonical_reason status).

(** [render_html_error_page] *)
Definition render_html_error_page (status : Z) (message client_ip host : str) : str :=
  let code := fmt status in
  let reason := reason_or_error status in
  let display_host := or_dash host in
  let display_ip := or_dash client_ip in
  page_head ++ code ++ lit " " ++ reason ++ page_style ++ code ++ page_title ++ reason ++
  page_description ++ message ++ page_host ++ display_host ++ page_ip ++ display_ip ++ page_end.

Definition json_body (status : Z) (message host : str) : str :=
  html "{~status~:" ++ fmt status ++ html ",~error~:~" ++ reason_or_error status ++
  html "~,~message~:~" ++ message ++ html "~,~host~:~" ++ or_dash host ++ html "~}" ++ [newline].

(** [build_error_response] *)
Definition build_error_response (status : Z) (message client_ip host : str)
    (headers : option HeaderMap) : Response :=
  let wants_json :=
    default false ((λ ct, contains ct (lit "application/json")) <$>
                   (h ← headers; header_str (lit "accept") h)) in
  if wants_json then
    MkResponse status (hm_append (lit "content-type") (lit "application/json") hm_new)
      (body_full (json_body status message host))
  else
    MkResponse status (hm_append (lit "content-type") (lit "text/html; charset=utf-8") hm_new)
      (body_full (render_html_error_page status message client_ip host)).
End error_pages.

Section error_page_theorems.
Context `{HttpLaws}.
#[local] Set Default Proof Using "Type*".

(** The client asked for JSON. *)
Definition accepts_json (headers : option HeaderMap) : bool :=
  match headers ≫= header_str (lit "accept") with
  | Some ct => contains ct (lit "application/json")
  | None => false
  end.

Lemma contains_app_r s t u : contains t u = true → contains (s ++ t) u = true.
Proof. rewrite !contains_true. intros (a & b & ->). exists (s ++ a), b. by rewrite <- app_assoc. Qed.

Lemma contains_here s t : contains (s ++ t) s = true.
Proof. apply contains_true. by exists [], t. Qed.

(** An error response has the given status and one content type, the one the
    client accepts, and a complete body that shows the status, its reason, the
    message and the host. *)
Theorem error_response_describes (status : Z) (message client_ip host : str)
    (headers : option HeaderMap) :
  let r := build_error_response status message client_ip host headers in
  resp_status r = status ∧
  hm_values (lit "content-type") (resp_headers r) =
    [if accepts_json headers then lit "application/json" else lit "text/html; charset=utf-8"] ∧
  ∃ page, body_collect (resp_body r) = Some page ∧
    Forall (λ s, contains page s = true)
      [fmt status; reason_or_error status; message; or_dash host].
Proof.
  unfold build_error_response, accepts_json.
  change (h ← headers; header_str (lit "accept") h) with (headers ≫= header_str (lit "accept")).
  destruct (headers ≫= header_str (lit "accept")) as [ct|]; simpl; [case_if|]; simpl;
    rewrite hm_append_spec, hm_new_spec, bool_decide_eq_true_2, body_full_spec by done;
    (split_and!; [done|done|]); eexists; (split; [done|]);
    unfold json_body, render_html_error_page; repeat constructor;
    repeat (apply contains_here || apply contains_app_r).
Qed.
End error_page_theorems.

(** ** Examples *)

Lemma error_response_describes_witness :
  let r := @build_error_response SimpleHttp 429 (lit "slow down") (lit "1.2.3.4") (lit "a.b") None in
  resp_status r = 429 ∧
  hm_values (lit "content-type") (resp_headers r) = [lit "text/html; charset=utf-8"] ∧
  ∃ page, body_collect (resp_body r) = Some page ∧
    Forall (λ s, contains page s = true)
      [fmt 429; @reason_or_error SimpleHttp 429; lit "slow down"; or_dash (lit "a.b")].
Proof.
  exact (@error_response_describes SimpleHttp SimpleHttp_laws 429 (lit "slow down")
    (lit "1.2.3.4") (lit "a.b") None).
Defined.
