(* ===== verification/Auth.v ===== *)
(** * Forward authentication: [src/src/auth.rs]

    [ForwardAuthProvider::authenticate] as a program: it sends one sub-request to
    the provider and turns the answer into an [AuthResult].  The handler knows it
    through the trait [AuthProvider] only. *)

From S2P Require Import Prelude RustStr NetAddr Log Security Cache ProxyProtocol Http Effects.

Section auth.
Context `{Http}.

(** [enum AuthResult] *)
Inductive AuthResult : Type :=
| Success (headers : HeaderMap)
| Denied (response : Response).

(** [trait AuthProvider]: a provider is asked with the addresses of the peer and of
    the client, the method, the URI and the headers of a request *)
Class AuthProvider (P : Type) : Type := {
  provider_authenticate : P → str → str → str → Uri → HeaderMap →
    prog (result str AuthResult) (result str AuthResult) }.

(** [struct ForwardAuthProvider]; its client is the [AuthRequestE] effect *)
Record ForwardAuthProvider : Type := MkForwardAuthProvider { auth_url : str }.

(** [Builder::header] on a builder that may have failed before *)
Definition builder_header (name value : str) (b : result str HeaderMap) : result str HeaderMap :=
  h ← b; v ← hv_from_str value; Ok (hm_append name v h).

(** The headers forwarded to the provider *)
Definition forwarded_names : list str :=
  lit <$> ["cookie"; "authorization"; "x-api-key"; "accept"]%string.

Definition copy_header (headers : HeaderMap) (b : result str HeaderMap) (name : str) :
    result str HeaderMap :=
  match hm_get name headers with
  | Some val => h ← b; Ok (hm_append name val h)
  | None => b
  end.

(** The sub-request: [Request::builder() ... .body(..)] *)
Definition auth_request (auth_uri : Uri) (client_ip method : str) (uri : Uri)
    (headers : HeaderMap) : result str Request :=
  let host := authority_or_host uri headers in
  let path_and_query := path_and_query_or_root uri in
  let original_url := lit "https://" ++ host ++ path_and_query in
  m ← method_parse method;
  h ← foldl (copy_header headers)
        (builder_header (lit "x-original-url") original_url
        (builder_header (lit "x-forwarded-for") client_ip
        (builder_header (lit "x-forwarded-uri") path_and_query
        (builder_header (lit "x-forwarded-host") host
        (builder_header (lit "x-forwarded-proto") (lit "https")
        (builder_header (lit "x-forwarded-method") method (Ok hm_new)))))))
        forwarded_names;
  Ok (MkRequest m auth_uri HTTP_11 h (body_full [])).

(** The headers of the provider's answer that go on to the upstream *)
Definition is_auth_header (name : str) : bool :=
  starts_with name (lit "remote-") || starts_with name (lit "x-forwarded-user")
  || starts_with name (lit "x-auth-").

Definition success_headers (h : HeaderMap) : HeaderMap :=
  foldl (λ acc '(k, v), if is_auth_header k then hm_insert k v acc else acc) hm_new (hm_iter h).

(** The user named in the log *)
Definition auth_user (success_headers : HeaderMap) : str :=
  default (lit "unknown")
    (match hm_get (lit "remote-user") success_headers with
     | Some v => Some v
     | None => hm_get (lit "x-forwarded-user") success_headers
     end ≫= hv_to_str).

Definition is_redirect (status : Z) : bool := (status =? 302) || (status =? 303) || (status =? 307).

(** The record of a verdict: what is logged for the provider's answer *)
Definition log_verdict {R} (p : ForwardAuthProvider) (client_ip host : str)
    (answer : result str Response) : prog R unit :=
  match answer with
  | Ok resp =>
      let status := resp_status resp in
      if status_is_success status then
        log_info "auth_success"
          ["client_ip" ⇒ client_ip; "host" ⇒ host;
           "user" ⇒ auth_user (success_headers (resp_headers resp))]
      else if is_redirect status then
        log_info "auth_redirect"
          ["client_ip" ⇒ client_ip; "host" ⇒ host; "status" ⇒ fmt status;
           "location" ⇒ default (lit "unknown") (header_str (lit "location") (resp_headers resp))]
      else
        log_warn "auth_denied"
          ["client_ip" ⇒ client_ip; "host" ⇒ host; "status" ⇒ fmt status]
  | Err e =>
      log_error "auth_provider_network_error"
        ["client_ip" ⇒ client_ip; "host" ⇒ host; "auth_url" ⇒ auth_url p; "error" ⇒ e]
  end.

Definition classify (resp : Response) : AuthResult :=
  if status_is_success (resp_status resp) then Success (success_headers (resp_headers resp))
  else Denied resp.

(** [ForwardAuthProvider::authenticate] *)
Definition authenticate (p : ForwardAuthProvider) (client_ip method : str) (uri : Uri)
    (headers : HeaderMap) : prog (result str AuthResult) (result str AuthResult) :=
  match uri_parse (auth_url p) with
  | Err e => Return (Err e)
  | Ok auth_uri =>
      let host := authority_or_host uri headers in
      _ ← log_debug "auth_verifying"
            ["client_ip" ⇒ client_ip; "host" ⇒ host; "path" ⇒ path_and_query_or_root uri;
             "auth_url" ⇒ auth_url p];
      match auth_request auth_uri client_ip method uri headers with
      | Err e => Return (Err e)
      | Ok sub_req =>
          answer ← trigger (AuthRequestE sub_req);
          _ ← log_verdict p client_ip host answer;
          Ret (match answer with
               | Ok resp => Ok (classify resp)
               | Err e => Err e
               end)
      end
  end.

(** [impl AuthProvider for ForwardAuthProvider]: the peer's address is not used *)
#[export] Instance forward_auth_provider : AuthProvider ForwardAuthProvider := {
  provider_authenticate p _peer_addr client_ip method uri headers :=
    authenticate p client_ip method uri headers }.
End auth.

(** ** What the provider is asked, and what its answer means *)

Section auth_theorems.
Context `{HttpLaws}.
#[local] Set Default Proof Using "Type*".

(** The answer of an execution of [authenticate]. *)
Definition auth_answer (o : oracle) (hist : list event) (p : ForwardAuthProvider)
    (client_ip method : str) (uri : Uri) (headers : HeaderMap) : result str AuthResult :=
  outcome_of (exec o hist (authenticate p client_ip method uri headers)).1.

Lemma copy_header_err headers ns e : foldl (copy_header headers) (Err e) ns = Err e.
Proof.
  induction ns as [|n ns IH]; simpl; [done|]. unfold copy_header at 2.
  by destruct (hm_get n headers).
Qed.

Lemma copy_headers_values headers ns h h' k :
  foldl (copy_header headers) (Ok h) ns = Ok h' → NoDup ns →
  hm_values k h' = hm_values k h ++
    (if bool_decide (k ∈ ns) then option_list (hm_get k headers) else []).
Proof.
  revert h. induction ns as [|n ns IH]; intros h Hf Hnd; simpl in Hf.
  { inv_ok. by rewrite app_nil_r. }
  apply NoDup_cons in Hnd as [Hn Hnd]. unfold copy_header in Hf at 2.
  destruct (hm_get n headers) as [v|] eqn:Hv; apply IH in Hf as ->; try done.
  - rewrite hm_append_spec. destruct (decide (n = k)) as [->|Hne].
    + rewrite bool_decide_eq_true_2, (bool_decide_eq_false_2 (k ∈ ns)), app_nil_r by done.
      rewrite bool_decide_eq_true_2 by set_solver. by rewrite Hv.
    + rewrite (bool_decide_eq_false_2 (n = k)) by done. f_equal.
      by rewrite (bool_decide_ext (k ∈ n :: ns) (k ∈ ns)) by set_solver.
  - destruct (decide (n = k)) as [->|Hne].
    + rewrite (bool_decide_eq_false_2 (k ∈ ns)) by done. rewrite Hv. clear IH. by case_bool_decide.
    + by rewrite (bool_decide_ext (k ∈ n :: ns) (k ∈ ns)) by set_solver.
Qed.

(** What the proxy itself tells the provider about the request. *)
Definition told (client_ip method : str) (uri : Uri) (headers : HeaderMap) : list (str * str) :=
  let host := authority_or_host uri headers in
  let path_and_query := path_and_query_or_root uri in
  [(lit "x-forwarded-method", method); (lit "x-forwarded-proto", lit "https");
   (lit "x-forwarded-host", host); (lit "x-forwarded-uri", path_and_query);
   (lit "x-forwarded-for", client_ip);
   (lit "x-original-url", lit "https://" ++ host ++ path_and_query)].

Lemma append_values name k v h :
  hm_values name (hm_append k v h) =
    hm_values name h ++ (filter (λ x : str * str, x.1 = name) [(k, v)]).*2.
Proof.
  rewrite hm_append_spec, filter_cons. simpl. case_bool_decide; case_decide; try done.
  by rewrite app_nil_r.
Qed.

Lemma builder_header_Ok name value b h :
  builder_header name value b = Ok h → ∃ h', b = Ok h' ∧ h = hm_append name value h'.
Proof.
  unfold builder_header. intros Hb. inv_ok.
  match goal with E : hv_from_str _ = Ok _ |- _ => apply hv_from_str_spec in E as -> end. eauto.
Qed.

(** The sub-request sent to the auth provider tells it the method, scheme,
    host, path, original URL and client address of the request, carries the
    request's cookie, authorization, API key and accept headers, and no other
    header of the request. *)
Theorem auth_request_headers (auth_uri : Uri) (client_ip method : str) (uri : Uri)
    (headers : HeaderMap) (r : Request) :
  auth_request auth_uri client_ip method uri headers = Ok r →
  req_uri r = auth_uri ∧
  ∀ name, hm_values name (req_headers r) =
    (filter (λ x, x.1 = name) (told client_ip method uri headers)).*2 ++
    (if bool_decide (name ∈ forwarded_names) then option_list (hm_get name headers) else []).
Proof.
  unfold auth_request. intros Hr. apply bind_Ok in Hr as (m & _ & Hr).
  apply bind_Ok in Hr as (h & Hh & [= <-]). split; [done|]. intros name. simpl.
  destruct (builder_header (lit "x-original-url") _ _) as [h0|e] eqn:Hb;
    [|by rewrite copy_header_err in Hh].
  rewrite (copy_headers_values _ _ _ _ name Hh) by (eapply bool_decide_unpack; by vm_compute).
  f_equal. repeat match goal with
    | E : builder_header _ _ _ = Ok _ |- _ => apply builder_header_Ok in E as (? & E & ->)
    end. inv_ok.
  rewrite !append_values, hm_new_spec, app_nil_l, <- !fmap_app, <- !filter_app. done.
Qed.

Lemma success_headers_go k l acc :
  hm_values k (foldl (λ acc '(k, v), if is_auth_header k then hm_insert k v acc else acc) acc l) =
    if is_auth_header k then
      match last (filter (λ x, x.1 = k) l).*2 with
      | Some v => [v]
      | None => hm_values k acc
      end
    else hm_values k acc.
Proof.
  revert acc. induction l as [|[k' v] l IH]; intros acc; simpl; [by case_if|].
  rewrite IH, filter_cons. simpl. destruct (is_auth_header k') eqn:Hk'; cycle 1.
  { destruct (is_auth_header k) eqn:Hk; [|done]. case_decide; [congruence|done]. }
  rewrite hm_insert_spec. destruct (is_auth_header k) eqn:Hk.
  - case_decide; subst.
    + rewrite bool_decide_eq_true_2, fmap_cons by done.
      rewrite last_cons. by destruct (last _).
    + by rewrite bool_decide_eq_false_2.
  - rewrite bool_decide_eq_false_2; [done|]. congruence.
Qed.

(** The headers that a successful authentication adds: for each name of the
    three families, the last value of the provider's answer. *)
Lemma success_headers_values k h :
  hm_values k (success_headers h) =
    if is_auth_header k then option_list (last (hm_values k h)) else [].
Proof.
  unfold success_headers. rewrite success_headers_go, hm_iter_spec, hm_new_spec.
  by destruct (last (hm_values k h)).
Qed.

Lemma actions_app tr tr' : actions (tr ++ tr') = actions tr ++ actions tr'.
Proof. apply filter_app. Qed.

(** Every verdict is one line of the log. *)
Lemma log_verdict_line {R} p client_ip host answer :
  ∃ r, log_verdict (R := R) p client_ip host answer = trigger (LogE r).
Proof. destruct answer as [resp|e]; simpl; repeat case_if; by eexists. Qed.

(** C37: Authentication asks the provider exactly once, and succeeds exactly when
    the provider answers with a 2xx status; any other answer is passed on as the
    denial, and a failed exchange is an error. *)
Theorem authenticate_verdict (o : oracle) (hist : list event) (p : ForwardAuthProvider)
    (client_ip method : str) (uri auth_uri : Uri) (headers : HeaderMap) (r : Request) :
  uri_parse (auth_url p) = Ok auth_uri →
  auth_request auth_uri client_ip method uri headers = Ok r →
  ∃ answer,
  actions (exec o hist (authenticate p client_ip method uri headers)).2 =
    actions hist ++ [Event (AuthRequestE r) answer] ∧
  auth_answer o hist p client_ip method uri headers =
    match answer with
    | Ok resp => if bool_decide (200 ≤ resp_status resp < 300)
                 then Ok (Success (success_headers (resp_headers resp)))
                 else Ok (Denied resp)
    | Err e => Err e
    end.
Proof.
  intros Hu Hr. unfold auth_answer, authenticate. rewrite Hu. unfold log_debug.
  rewrite !exec_bind, exec_trigger, Hr, !exec_bind, exec_trigger.
  set (hist' := hist ++ _). set (answer := o _ hist' (AuthRequestE r)). exists answer.
  rewrite exec_bind.
  destruct (log_verdict_line (R := result str AuthResult) p client_ip (authority_or_host uri headers)
    answer) as [rec ->]. simpl. split.
  - unfold hist'. rewrite !actions_app. simpl. by rewrite !app_nil_r.
  - destruct answer as [resp|e]; simpl; [|done].
    unfold classify. rewrite status_is_success_spec. by case_bool_decide.
Qed.
End auth_theorems.

(** ** Examples *)

Section auth_witnesses.
#[local] Existing Instance SimpleHttp.

Definition sample_uri : Uri := MkUri (Some (lit "a.b")) (lit "/x") None (Some (lit "/x")).
Definition sample_headers : HeaderMap :=
  [(lit "host", lit "a.b"); (lit "cookie", lit "id=7"); (lit "accept", lit "text/html");
   (lit "x-secret", lit "1")].
Definition sample_provider : ForwardAuthProvider := MkForwardAuthProvider (lit "http://auth/").
Definition provider_uri : Uri := MkUri None (lit "http://auth/") None (Some (lit "http://auth/")).
Definition sample_sub_request : Request :=
  MkRequest (lit "GET") provider_uri (lit "HTTP/1.1")
    (told (lit "1.2.3.4") (lit "GET") sample_uri sample_headers ++
     [(lit "cookie", lit "id=7"); (lit "accept", lit "text/html")]) (Some []).

Lemma auth_request_headers_witness :
  req_uri sample_sub_request = provider_uri ∧
  ∀ name, hm_values name (req_headers sample_sub_request) =
    (filter (λ x, x.1 = name) (told (lit "1.2.3.4") (lit "GET") sample_uri sample_headers)).*2 ++
    (if bool_decide (name ∈ forwarded_names) then option_list (hm_get name sample_headers) else []).
Proof.
  apply (auth_request_headers provider_uri (lit "1.2.3.4") (lit "GET") sample_uri sample_headers).
  reflexivity.
Defined.

(** The answers of a peaceful world, but for the auth provider's. *)
Definition calm_oracle (auth upstream : result str Response) : oracle := λ X _ e,
  match e in effect X return X with
  | IsBlacklistedE _ _ | RecordTlsFailureE _ _ => Some false
  | CheckRequestE _ _ => Some (Ok 1)
  | CacheGetE _ _ => None
  | CacheInsertE _ _ _ _ _ _ => MkInsertResult true 0 0 0 None
  | CurrentMemoryE _ | EntryCountE _ | NowE => 0
  | MaxCapacityE _ | MaxFileSizeE _ => 100
  | AuthRequestE _ => auth
  | UpstreamRequestE _ => upstream
  | SpawnE _ | LogE _ => tt
  | ClientUpgradeE | UpstreamUpgradeE | TlsAcceptE _ | ServeE _ _ _ _ => Ok tt
  | CopyBidirectionalE => Ok (0, 0)
  | ElapsedE => lit "0.100"
  end.

Definition refusing_oracle : oracle :=
  calm_oracle (Ok (MkResponse 401 [] (Some []))) (Err []).

Lemma authenticate_verdict_witness :
  ∃ answer,
  actions (exec refusing_oracle [] (authenticate sample_provider (lit "1.2.3.4") (lit "GET")
     sample_uri sample_headers)).2 = actions [] ++ [Event (AuthRequestE sample_sub_request) answer] ∧
  auth_answer refusing_oracle [] sample_provider (lit "1.2.3.4") (lit "GET") sample_uri
    sample_headers =
    match answer with
    | Ok resp => if bool_decide (200 ≤ resp_status resp < 300)
                 then Ok (Success (success_headers (resp_headers resp)))
                 else Ok (Denied resp)
    | Err e => Err e
    end.
Proof.
  apply (authenticate_verdict refusing_oracle [] sample_provider (lit "1.2.3.4") (lit "GET")
    sample_uri provider_uri sample_headers sample_sub_request); reflexivity.
Defined.
End auth_witnesses.
