(* ===== verification/Runtime.v ===== *)
(** * Live configuration: [src/src/runtime_config.rs], [src/src/server.rs]

    The active configuration, its construction from a parsed one, the store the
    workers read and the reload thread that replaces it on SIGHUP.

    [SecurityManager] and [LruCacheEngine] are shared by reference ([Arc]): the
    active configuration holds their locations in a [Heap].  What the program asks
    of the system is a parameter of the environment [Env].  Errors are values with
    the data of the source's message, and [display_load_error] is that message.  An
    outer [None] is a panic. *)

From S2P Require Import Prelude RustStr NetAddr Log Config Comments Parser ParserSpec Router Security Cache Http Effects Auth Tls.

(** ** The environment *)

(** [available_parallelism], whether the native root certificates can be loaded,
    whether a log file can be opened for appending, whether a thread can be
    started, and the local time at each line that is logged *)
Record Env : Type := MkEnv {
  available_parallelism : option Z;
  native_roots : bool;
  can_append : str → bool;
  can_spawn : str → bool;
  local_time : nat → str }.

Section runtime.
Context {CertifiedKey : Type} `{KeyLoader CertifiedKey} {L : Type → Type} `{LruOps L} `{Http}.

#[local] Abbreviation engine := (LruCacheEngine L HeaderMap).

Record Heap : Type := MkHeap {
  managers : list SecurityManager;
  engines : list engine }.

(** A new location holds the given value. *)
Definition alloc_manager (m : SecurityManager) (h : Heap) : nat * Heap :=
  (length (managers h), MkHeap (managers h ++ [m]) (engines h)).

Definition alloc_engine (e : engine) (h : Heap) : nat * Heap :=
  (length (engines h), MkHeap (managers h) (engines h ++ [e])).

(** [struct ActiveConfig] *)
Record ActiveConfig : Type := MkActiveConfig {
  generation : Z;
  router : Router;
  tls_acceptor : option (TlsAcceptor CertifiedKey);
  active_logfile : option str;
  active_security : option SecurityConfig;
  security_manager : nat;
  auth_provider : option ForwardAuthProvider;
  cache_config : option CacheConfig;
  cache_engine : option nat;
  global_intercept_errors : bool }.

(** The texts of the errors below, with what they report *)
Inductive LoadError : Type :=
| ReadFailed (e : str)
| ParseFailed (e : ParseError)
| PortChanged (from to : Z)
| WorkersChanged (from to : Z)
| TlsFailed (e : ProxyError).

(** The [Err(String)] of the functions below *)
Definition display_load_error (path : str) (e : LoadError) : str :=
  match e with
  | ReadFailed e => lit "Failed to read proxy config '" ++ path ++ lit "': " ++ e
  | ParseFailed e =>
      lit "Failed to parse proxy config '" ++ path ++ lit "': " ++ debug_parse_error e
  | PortChanged from to =>
      lit "Reload rejected: listen port changed from " ++ fmt from ++ lit " to " ++ fmt to
  | WorkersChanged from to =>
      lit "Reload rejected: workers changed from " ++ fmt from ++ lit " to " ++ fmt to
  | TlsFailed e => lit "Failed to initialise TLS: " ++ display_proxy_error e
  end.

(** ** Building the active configuration *)

(** [config.security.and_then(|s| s.forward_auth).map(|auth_url| ..)]: building
    the client loads the root certificates, with an [expect] *)
Definition make_auth_provider (env : Env) (sec : option SecurityConfig) :
    option (option ForwardAuthProvider) :=
  match sec ≫= forward_auth with
  | Some url => if native_roots env then Some (Some (MkForwardAuthProvider url)) else None
  | None => Some None
  end.

Definition make_cache (c : option CacheConfig) (h : Heap) :
    option CacheConfig * option nat * Heap :=
  match c with
  | Some c =>
      if enabled c then
        let '(loc, h) := alloc_engine
          (cache_new (cfg_max_capacity_bytes c) (cfg_max_file_size_bytes c) (default_ttl_sec c)) h in
        (Some c, Some loc, h)
      else (Some c, None, h)
  | None => (None, None, h)
  end.

(** [build_active_config] *)
Definition build_active_config (env : Env) (config : Config) (gen : Z) (sm : option nat)
    (h : Heap) : option (result LoadError ActiveConfig * Heap) :=
  match build_tls_acceptor (routes config) with
  | Err e => Some (Err (TlsFailed e), h)
  | Ok acceptor =>
      let '(sm, h) :=
        match sm with
        | Some loc => (loc, h)
        | None => alloc_manager (from_security_config (security config)) h
        end in
      provider ← make_auth_provider env (security config);
      let '(cc, ce, h) := make_cache (config_cache config) h in
      Some (Ok (MkActiveConfig gen (router_new (routes config)) acceptor (logfile config)
                  (security config) sm provider cc ce
                  (default false (config_intercept_errors config))), h)
  end.

(** [load_config_from_path]; [contents] is what reading the file gives *)
Definition load_config_from_path (env : Env) (contents : result str str) :
    option (result LoadError Config) :=
  match contents with
  | Err e => Some (Err (ReadFailed e))
  | Ok contents => map_err ParseFailed <$> parse_proxy_config (available_parallelism env) contents
  end.

(** [load_active_config_from_path] *)
Definition load_active_config_from_path (env : Env) (contents : result str str)
    (expected_listen_port expected_workers gen : Z) (sm : option nat) (h : Heap) :
    option (result LoadError ActiveConfig * Heap) :=
  loaded ← load_config_from_path env contents;
  match loaded with
  | Err e => Some (Err e, h)
  | Ok config =>
      if negb (listen_port config =? expected_listen_port) then
        Some (Err (PortChanged expected_listen_port (listen_port config)), h)
      else if negb (workers config =? expected_workers) then
        Some (Err (WorkersChanged expected_workers (workers config)), h)
      else build_active_config env config gen sm h
  end.

(** ** The server *)

(** [struct Server] with the store both sides of it share, what is shared by
    reference, the log, and the state of the reload thread *)
Record Server : Type := MkServer {
  listen : SocketAddr;
  config_path : str;
  server_workers : Z;
  current : ActiveConfig;
  heap : Heap;
  log_state : LogState;
  reload_generation : Z;
  reload_alive : bool }.

(** [ConfigWriter::load], of the reload thread *)
Definition config_load (s : Server) : ActiveConfig := current s.

(** [ConfigReader::load], of the workers; both sides share one store *)
Definition reader_load (s : Server) : ActiveConfig := current s.

(** [ConfigWriter::store] *)
Definition config_store (c : ActiveConfig) (s : Server) : Server :=
  MkServer (listen s) (config_path s) (server_workers s) c (heap s) (log_state s) (reload_generation s)
    (reload_alive s).

Definition with_log (l : LogState) (s : Server) : Server :=
  MkServer (listen s) (config_path s) (server_workers s) (current s) (heap s) l
    (reload_generation s) (reload_alive s).

(** A log line of thread [thread], at the time of the environment's line [n] *)
Definition server_log (env : Env) (n : nat) (thread : str) (r : LogRecord) (s : Server) : Server :=
  with_log (log_event (local_time env n) (Some thread) r (log_state s)) s.

(** [create_config_store]: both sides of the new store hold [initial] *)
Definition create_config_store (initial : ActiveConfig) (addr : SocketAddr) (path : str) (n : Z)
    (h : Heap) (l : LogState) : Server :=
  MkServer addr path n initial h l 0 true.

(** [Server::new] *)
Definition server_new (env : Env) (config : Config) (path : str) (l : LogState) :
    option (result LoadError Server) :=
  let addr := MkSocketAddr (V4 0 0 0 0) (listen_port config) in
  '(active, h) ← build_active_config env config 0 None (MkHeap [] []);
  match active with
  | Err e => Some (Err e)
  | Ok active =>
      l ← update_log_file (can_append env) (active_logfile active) l;
      Some (Ok (create_config_store active addr path (workers config) h l))
  end.

Definition reload_thread_name : str := lit "config-reload-thread".

(** One SIGHUP: the body of the loop of [run_reload_thread].  A panic ends the
    thread; the workers go on with what was stored. *)
Definition reload (env : Env) (contents : result str str) (s : Server) : Server :=
  if negb (reload_alive s) then s
  else
    let path := config_path s in
    let say n level event kv := server_log env n reload_thread_name (MkLogRecord level (lit event) kv) in
    let s := say 0%nat INFO "config_reload_requested" ["path" ⇒ path] s in
    let dead h := MkServer (listen s) path (server_workers s) (current s) h (log_state s)
                    (reload_generation s) false in
    let current_sec_mgr := security_manager (config_load s) in
    match load_active_config_from_path env contents (port (listen s)) (server_workers s)
            (reload_generation s + 1) (Some current_sec_mgr) (heap s) with
    | None => dead (heap s)
    | Some (Ok active, h) =>
        match update_log_file (can_append env) (active_logfile active) (log_state s) with
        | None => dead h
        | Some l =>
            say 1%nat INFO "config_reloaded"
              ["path" ⇒ path; "generation" ⇒ fmt (generation active)]
              (config_store active
                 (MkServer (listen s) path (server_workers s) (current s) h l (generation active)
                    true))
        end
    | Some (Err error, h) =>
        say 1%nat ERROR "config_reload_failed"
          ["path" ⇒ path; "error" ⇒ display_load_error path error]
          (MkServer (listen s) path (server_workers s) (current s) h (log_state s)
             (reload_generation s) true)
    end.

(** A server after a sequence of SIGHUPs, each with the environment and the file
    it finds. *)
Definition reloads (signals : list (Env * result str str)) (s : Server) : Server :=
  foldl (λ s '(env, contents), reload env contents s) s signals.
End runtime.
Arguments Heap L {_}.
Arguments ActiveConfig : clear implicits.
Arguments Server CertifiedKey L {_}.
