(* ===== verification/RuntimeSpec.v ===== *)
(** * What reloading promises

    [server_ok] is the state every running server is in; each SIGHUP preserves it,
    keeps what the workers rely on, and installs an acceptable file at once. *)

From S2P Require Import Prelude RustStr NetAddr Log Config Comments Parser ParserSpec Router Security Cache Http Effects Auth Tls Runtime.

Section reload_theorems.
Context {CertifiedKey : Type} `{KeyLoader CertifiedKey} {L : Type → Type} `{LruOps L} `{Http}.
#[local] Set Default Proof Using "Type*".
Implicit Types (s : Server CertifiedKey L).

(** A configuration is active when it was built from an accepted file. *)
Definition built_from (cfg : Config) (a : ActiveConfig CertifiedKey) : Prop :=
  config_ok cfg ∧ router a = MkRouter (routes cfg) ∧
  build_tls_acceptor (routes cfg) = Ok (tls_acceptor a) ∧
  active_security a = security cfg ∧ cache_config a = config_cache cfg ∧
  auth_provider a = MkForwardAuthProvider <$> (security cfg ≫= forward_auth) ∧
  global_intercept_errors a = default false (config_intercept_errors cfg).

(** The state a running server is in. *)
Record server_ok (s : Server CertifiedKey L) : Prop := {
  server_config : ∃ cfg, built_from cfg (current s) ∧ listen_port cfg = port (listen s) ∧
                    workers cfg = server_workers s;
  server_manager : is_Some (managers (heap s) !! security_manager (current s));
  server_engine : ∀ loc, cache_engine (current s) = Some loc → is_Some (engines (heap s) !! loc);
  server_generation : generation (current s) = reload_generation s }.

(** What a heap keeps when it grows. *)
Definition heap_grows (h h' : Heap L) : Prop :=
  managers h `prefix_of` managers h' ∧ engines h `prefix_of` engines h'.

#[export] Instance heap_grows_preorder : PreOrder heap_grows.
Proof. split; [done|]. intros h1 h2 h3 [? ?] [? ?]. split; by etrans. Qed.

(** The engine a configuration asks for. *)
Definition new_engine (c : option CacheConfig) : option (LruCacheEngine L HeaderMap) :=
  x ← c;
  if enabled x then
    Some (cache_new (cfg_max_capacity_bytes x) (cfg_max_file_size_bytes x) (default_ttl_sec x))
  else None.

Lemma make_cache_spec c h :
  make_cache c h =
    (c, (λ _, length (engines h)) <$> new_engine c,
     MkHeap (managers h) (engines h ++ option_list (new_engine c))).
Proof.
  destruct c as [c|]; [unfold make_cache, new_engine; simpl; destruct (enabled c); simpl|];
    try done; simpl; rewrite app_nil_r; by destruct h.
Qed.

Lemma build_spec env cfg gen sm h (h0 := match sm with
    | Some _ => h
    | None => MkHeap (managers h ++ [from_security_config (security cfg)]) (engines h) end) a h' :
  config_ok cfg → build_active_config env cfg gen sm h = Some (Ok a, h') →
  built_from cfg a ∧ generation a = gen ∧
  security_manager a = default (length (managers h)) sm ∧
  active_logfile a = logfile cfg ∧
  cache_engine a = (λ _, length (engines h)) <$> new_engine (config_cache cfg) ∧
  h' = MkHeap (managers h0) (engines h ++ option_list (new_engine (config_cache cfg))).
Proof.
  intros Hok. unfold build_active_config.
  destruct (build_tls_acceptor (routes cfg)) as [acceptor|e] eqn:Htls; [|done].
  destruct (match sm with Some loc => (loc, h) | None => _ end) as [loc h1] eqn:Hsm.
  assert (loc = default (length (managers h)) sm ∧ h1 = h0) as [-> ->].
  { unfold h0. destruct sm; unfold alloc_manager in Hsm; by simplify_eq/=. }
  unfold make_auth_provider.
  destruct (security cfg ≫= forward_auth) as [url|] eqn:Hurl; [case_if; [|done]|];
    simpl; rewrite make_cache_spec; intros [= <- <-]; unfold built_from; simpl;
    rewrite ?Hurl; split_and!; try done; by destruct sm.
Qed.

Lemma build_err env cfg gen sm h e h' :
  build_active_config env cfg gen sm h = Some (Err e, h') → h' = h.
Proof.
  unfold build_active_config. destruct (build_tls_acceptor _); [|congruence].
  destruct (match sm with Some _ => _ | None => _ end) as [loc h1].
  destruct (make_auth_provider _ _); simpl; [|done]. by rewrite make_cache_spec.
Qed.

Lemma load_spec env contents port_ workers_ gen loc h r h' :
  available_ok (available_parallelism env) →
  load_active_config_from_path env contents port_ workers_ gen (Some loc) h = Some (r, h') →
  match r with
  | Ok a => ∃ cfg, built_from cfg a ∧ listen_port cfg = port_ ∧ workers cfg = workers_ ∧
      generation a = gen ∧ security_manager a = loc ∧
      cache_engine a = (λ _, length (engines h)) <$> new_engine (config_cache cfg) ∧
      h' = MkHeap (managers h) (engines h ++ option_list (new_engine (config_cache cfg)))
  | Err _ => h' = h
  end.
Proof.
  intros Hav. unfold load_active_config_from_path, load_config_from_path.
  destruct contents as [text|e]; simpl; [|intros [= <- <-]; done].
  destruct (parse_proxy_config _ text) as [[cfg|e]|] eqn:Hp; simpl; [| |done];
    [|intros [= <- <-]; done].
  apply config_accepted in Hp; [|done].
  destruct (Z.eqb_spec (listen_port cfg) port_) as [Hport|]; simpl; [|intros [= <- <-]; done].
  destruct (Z.eqb_spec (workers cfg) workers_) as [Hw|]; simpl; [|intros [= <- <-]; done].
  destruct r as [a|e]; [|apply build_err].
  intros Hb. apply build_spec in Hb as (? & ? & ? & ? & ? & ->); [|done].
  exists cfg. split_and!; auto.
Qed.

(** What one SIGHUP does: nothing the workers can see, or a new configuration
    that keeps the port, the workers and the security manager. *)
Lemma reload_cases env contents s :
  available_ok (available_parallelism env) → server_ok s →
  let s' := reload env contents s in
  server_ok s' ∧ listen s' = listen s ∧ server_workers s' = server_workers s ∧
  managers (heap s') = managers (heap s) ∧ heap_grows (heap s) (heap s') ∧
  security_manager (current s') = security_manager (current s) ∧
  (current s' = current s ∨ generation (current s') = generation (current s) + 1) ∧
  log_grows (log_state s) (log_state s').
Proof.
  intros Hav Hs. pose proof Hs as [Hcfg Hman Heng Hgen]. unfold reload, config_load, config_store.
  destruct (reload_alive s); simpl; [|split_and!; auto; done].
  set (l0 := log_event _ _ _ (log_state s)).
  assert (log_grows (log_state s) l0) as Hl0 by apply log_event_grows.
  destruct (load_active_config_from_path _ _ _ _ _ _ _) as [[r h']|] eqn:Hl; simpl; cycle 1.
  { split_and!; auto; [split; auto|done]. }
  apply load_spec in Hl; [|done]. destruct r as [a|e]; cycle 1.
  { subst h'. simpl. split_and!; auto; [split; auto|done|etrans; [done|apply log_event_grows]]. }
  destruct Hl as (cfg & Hb & Hport & Hw & Hg & Hsm & Hce & ->).
  assert (heap_grows (heap s) (MkHeap (managers (heap s))
    (engines (heap s) ++ option_list (new_engine (config_cache cfg))))) as Hgrow.
  { split; simpl; [done|]. by apply prefix_app_r. }
  destruct (update_log_file _ (active_logfile a) l0) as [lf|] eqn:Hlf; simpl.
  - apply update_log_file_grows in Hlf as [Hlf _].
    split_and!; auto; [|right; lia|by etrans; [|etrans; [|apply log_event_grows]]].
    split; simpl; eauto.
    + by rewrite Hsm.
    + intros loc. rewrite Hce. destruct (new_engine (config_cache cfg)); simpl; [|done].
      intros [= <-]. rewrite lookup_app_r, Nat.sub_diag by lia. eauto.
  - split_and!; auto. split; simpl; auto.
    intros loc Hloc. destruct (Heng loc Hloc) as [x Hx].
    rewrite (lookup_app_l_Some _ _ _ _ Hx). eauto.
Qed.

Lemma server_new_ok env cfg path l s :
  config_ok cfg → server_new env cfg path l = Some (Ok s) →
  server_ok s ∧ port (listen s) = listen_port cfg ∧ server_workers s = workers cfg ∧
  managers (heap s) = [from_security_config (security cfg)] ∧ security_manager (current s) = 0%nat.
Proof.
  intros Hok. unfold server_new.
  destruct (build_active_config _ _ _ _ _) as [[[a|e] h]|] eqn:Hb; simpl; [|done..].
  destruct (update_log_file _ _ _) as [lf|]; simpl; [|done]. intros [= <-].
  apply build_spec in Hb as (Hbf & Hg & Hsm & _ & Hce & ->); [|done]. simpl in *.
  split_and!; auto. split; simpl; eauto.
  - rewrite Hsm. eauto.
  - intros loc. rewrite Hce. destruct (new_engine (config_cache cfg)); simpl; [|done].
    intros [= <-]. eauto.
Qed.

Lemma reloads_ok signals s :
  server_ok s → Forall (λ x, available_ok (available_parallelism x.1)) signals →
  let s' := reloads signals s in
  server_ok s' ∧ listen s' = listen s ∧ server_workers s' = server_workers s ∧
  security_manager (current s') = security_manager (current s) ∧
  managers (heap s') = managers (heap s) ∧
  generation (current s) ≤ generation (current s') ≤
    generation (current s) + Z.of_nat (length signals) ∧
  log_grows (log_state s) (log_state s').
Proof.
  intros Hs Hav. revert s Hs.
  induction Hav as [|[env contents] signals Hx _ IH]; intros s Hs; simpl.
  { split_and!; auto; lia || done. }
  destruct (reload_cases env contents s Hx Hs) as (Hs' & Hl & Hw & Hm & _ & Hsm & Hg & Hlog).
  destruct (IH _ Hs') as (Hs2 & Hl2 & Hw2 & Hsm2 & Hm2 & Hg2 & Hlog2).
  fold (reloads signals (reload env contents s)).
  split_and!; try congruence; try (destruct Hg as [Hg|Hg]; rewrite Hg in Hg2; lia). by etrans.
Qed.

(** C14: Whatever files SIGHUPs find, a running server keeps its port, its number
    of workers and its security manager with everything it has recorded, its
    generation never goes back, no line already logged is lost, and the
    configuration the workers read is always one built from an accepted file with
    the port and workers of the start. *)
Theorem reloads_keep_serving env0 cfg0 path l0 (s0 : Server CertifiedKey L)
    (signals : list (Env * result str str)) :
  config_ok cfg0 → server_new env0 cfg0 path l0 = Some (Ok s0) →
  Forall (λ x, available_ok (available_parallelism x.1)) signals →
  let s := reloads signals s0 in
  server_ok s ∧ port (listen s) = listen_port cfg0 ∧ server_workers s = workers cfg0 ∧
  security_manager (current s) = security_manager (current s0) ∧
  managers (heap s) = [from_security_config (security cfg0)] ∧
  generation (current s0) ≤ generation (current s) ≤
    generation (current s0) + Z.of_nat (length signals) ∧
  log_grows (log_state s0) (log_state s).
Proof.
  intros Hcfg (Hs & Hp & Hw & Hm & Hsm)%server_new_ok Hav; [|done].
  destruct (reloads_ok signals s0 Hs Hav) as (? & Hl & ? & ? & ? & ? & ?).
  split_and!; try congruence; lia || done.
Qed.

(** An acceptable file: it parses, keeps the port and the number of workers, and its
    certificates, the root certificates and its log file can be used. *)
Record acceptable (env : Env) (s : Server CertifiedKey L) (contents : result str str)
    (cfg : Config) : Prop := {
  acceptable_text : ∃ text, contents = Ok text ∧
    parse_proxy_config (available_parallelism env) text = Some (Ok cfg);
  acceptable_port : listen_port cfg = port (listen s);
  acceptable_workers : workers cfg = server_workers s;
  acceptable_tls : is_ok (build_tls_acceptor (routes cfg)) = true;
  acceptable_roots : is_Some (security cfg ≫= forward_auth) → native_roots env = true;
  acceptable_log : ∀ p, logfile cfg = Some p → can_append env p = true }.

(** The engine of a new configuration is a new one, whatever the old one held. *)
Lemma reload_installed env contents cfg (s : Server CertifiedKey L)
    (s' := reload env contents s) :
  available_ok (available_parallelism env) → server_ok s → reload_alive s = true →
  acceptable env s contents cfg →
  built_from cfg (current s') ∧ generation (current s') = generation (current s) + 1 ∧
  LOG_FILE (log_state s') = logfile cfg ∧ reload_alive s' = true ∧
  (loc ← cache_engine (current s'); engines (heap s') !! loc) = new_engine (config_cache cfg) ∧
  (∀ loc, cache_engine (current s') = Some loc → (length (engines (heap s)) ≤ loc)%nat).
Proof.
  intros Hav [_ _ _ Hgen] Halive [(text & -> & Hparse) Hport Hw Htls Hroots Hlog].
  pose proof (config_accepted _ _ _ Hav Hparse) as Hok.
  unfold s', reload, load_active_config_from_path, load_config_from_path, config_load, config_store.
  rewrite Halive, Hparse. simpl. rewrite Hport, Hw, !Z.eqb_refl. simpl.
  destruct (build_active_config _ _ _ _ _) as [[[a|e] h]|] eqn:Hb; cycle 1.
  { unfold build_active_config in Hb. destruct (build_tls_acceptor _); [|done].
    destruct (make_auth_provider _ _); simpl in Hb; [|done]. by rewrite make_cache_spec in Hb. }
  { unfold build_active_config, make_auth_provider in Hb. destruct (build_tls_acceptor _); [|done].
    destruct (security cfg ≫= forward_auth); simpl in Hb; [rewrite Hroots in Hb by eauto|];
      by rewrite make_cache_spec in Hb. }
  apply build_spec in Hb as (Hbf & Hg & _ & Hlf & Hce & ->); [|done].
  destruct (update_log_file _ (active_logfile a) _) as [l|] eqn:Hu; cycle 1.
  { rewrite Hlf in Hu. unfold update_log_file in Hu. destruct (logfile cfg); [|done].
    by rewrite Hlog in Hu. }
  apply update_log_file_grows in Hu as [_ Hu]. rewrite Hlf in Hu.
  simpl. split_and!; auto; [lia|..]; rewrite Hce; destruct (new_engine (config_cache cfg)); simpl.
  - by rewrite lookup_app_r, Nat.sub_diag by lia.
  - done.
  - by intros loc [= <-].
  - done.
Qed.

(** A file is installed only if it is acceptable. *)
Lemma reload_accepted env contents (s : Server CertifiedKey L) :
  reload_alive s = true →
  current (reload env contents s) = current s ∨ ∃ cfg, acceptable env s contents cfg.
Proof.
  intros Halive. unfold reload, load_active_config_from_path, load_config_from_path, config_load,
    config_store. rewrite Halive. simpl. destruct contents as [text|e]; simpl; [|by left].
  destruct (parse_proxy_config _ text) as [[cfg|e]|] eqn:Hparse; simpl; [|by left..].
  destruct (Z.eqb_spec (listen_port cfg) (port (listen s))) as [Hport|]; simpl; [|by left].
  destruct (Z.eqb_spec (workers cfg) (server_workers s)) as [Hw|]; simpl; [|by left].
  unfold build_active_config, make_auth_provider.
  destruct (build_tls_acceptor (routes cfg)) as [acc|e] eqn:Htls; simpl; [|by left].
  destruct (security cfg ≫= forward_auth) as [url|] eqn:Hurl; [destruct (native_roots env) eqn:Hr|];
    simpl; [|by left|]; rewrite make_cache_spec; simpl; unfold update_log_file;
    (destruct (logfile cfg) as [p|] eqn:Hp; [destruct (can_append env p) eqn:Hcan|]; simpl;
      [|by left|]); right; exists cfg; (split; [by eexists|done|done|by rewrite Htls| |]); rewrite ?Hurl, ?Hp;
      naive_solver.
Qed.

(** C32: What a SIGHUP does to a server whose reload thread runs.  If the file is
    acceptable, the configuration built from it, its routes, certificates, limits and
    auth provider, is active at once with the next generation, lines go to its log file,
    and the security manager is still the same.  If it is not, the active configuration
    stays as it is, and so do the security managers. *)
Theorem reload_installs env contents (s : Server CertifiedKey L) (s' := reload env contents s) :
  available_ok (available_parallelism env) → server_ok s → reload_alive s = true →
  (∀ cfg, acceptable env s contents cfg →
     built_from cfg (current s') ∧ generation (current s') = generation (current s) + 1 ∧
     LOG_FILE (log_state s') = logfile cfg ∧ reload_alive s' = true) ∧
  ((∀ cfg, ¬ acceptable env s contents cfg) → current s' = current s) ∧
  security_manager (current s') = security_manager (current s) ∧
  managers (heap s') = managers (heap s).
Proof.
  intros Hav Hs Halive. unfold s'.
  destruct (reload_cases env contents s Hav Hs) as (_ & _ & _ & Hm & _ & Hsm & _).
  split_and!; try done.
  - intros cfg Hacc.
    destruct (reload_installed env contents cfg s Hav Hs Halive Hacc) as (? & ? & ? & ? & _).
    done.
  - intros Hno. destruct (reload_accepted env contents s Halive) as [?|[cfg Hacc]]; [done|].
    by destruct (Hno cfg).
Qed.
End reload_theorems.

(** ** Examples *)

Section runtime_witnesses.
#[local] Existing Instance SimpleHttp.

Definition trivial_loader : KeyLoader unit := {|
  File := unit; Cert := unit; PrivateKey := unit;
  file_open _ := Ok tt; pem_certs _ := Ok [tt]; pem_private_key _ := Ok (Some tt);
  from_der _ _ := Ok tt |}.
#[local] Existing Instance trivial_loader.

Definition sample_env : Env := MkEnv None true (λ _, true) (λ _, true) (λ _, lit "now").

Definition empty_log : LogState := MkLogState None [] ∅.

Definition plain_text : str :=
  lit "listen 80;" ++ [newline] ++ lit "workers 1;" ++ [newline] ++
  lit "route http://a/ {" ++ [newline] ++ lit "forward http://b/;" ++ [newline] ++ lit "}" ++
  [newline] ++ lit "cache {" ++ [newline] ++ lit "ttl 60;" ++ [newline] ++ lit "}".

Definition plain_config : Config :=
  match parse_proxy_config None plain_text with
  | Some (Ok cfg) => cfg
  | _ => MkConfig 0 [] 0 None None None None
  end.

Lemma plain_config_parsed : parse_proxy_config None plain_text = Some (Ok plain_config).
Proof. vm_compute. reflexivity. Qed.

Lemma plain_config_ok : config_ok plain_config.
Proof. eapply (config_accepted None); [by intros ?|apply plain_config_parsed]. Qed.

Definition plain_server : Server unit ListLru :=
  match server_new sample_env plain_config (lit "proxy.conf") empty_log with
  | Some (Ok s) => s
  | _ => MkServer (MkSocketAddr (V4 0 0 0 0) 0) [] 0
           (MkActiveConfig 0 (MkRouter []) None None None 0 None None None false)
           (MkHeap [] []) empty_log 0 false
  end.

Lemma plain_server_started :
  server_new sample_env plain_config (lit "proxy.conf") empty_log = Some (Ok plain_server).
Proof. reflexivity. Qed.

Definition two_signals : list (Env * result str str) :=
  [(sample_env, Ok plain_text); (sample_env, Err (lit "gone"))].

Lemma reloads_keep_serving_witness :
  let s := reloads two_signals plain_server in
  server_ok s ∧ port (listen s) = listen_port plain_config ∧
  server_workers s = workers plain_config ∧
  security_manager (current s) = security_manager (current plain_server) ∧
  managers (heap s) = [from_security_config (security plain_config)] ∧
  generation (current plain_server) ≤ generation (current s) ≤
    generation (current plain_server) + Z.of_nat (length two_signals) ∧
  log_grows (log_state plain_server) (log_state s).
Proof.
  apply (reloads_keep_serving sample_env plain_config (lit "proxy.conf") empty_log plain_server
    two_signals).
  - apply plain_config_ok.
  - apply plain_server_started.
  - by repeat constructor; intros ?.
Defined.

Lemma reload_installs_witness :
  generation (current (reload sample_env (Ok plain_text) plain_server)) =
    generation (current plain_server) + 1.
Proof.
  apply (reload_installs sample_env (Ok plain_text) plain_server) with (cfg := plain_config).
  - by intros ?.
  - by apply (server_new_ok sample_env plain_config (lit "proxy.conf") empty_log);
      [apply plain_config_ok|].
  - reflexivity.
  - split; try reflexivity.
    exists plain_text. split; [reflexivity|apply plain_config_parsed].
Defined.
End runtime_witnesses.
