(* ===== verification/UnitTests.v ===== *)
(** * The unit tests of the other modules

    The tests of [auth.rs], [cache.rs], [error_pages.rs], [proxy_protocol.rs],
    [runtime_config.rs] and [security.rs], each a boolean that is [true] when all its
    assertions hold, and the evaluation of each.  A temporary file of a test is the
    text it holds; calls between which a test does not sleep happen at one moment.
    The tests of [parser.rs] are in [ParserTests.v]. *)

From S2P Require Import Prelude RustStr NetAddr Log Config Comments Parser Router Security Cache ProxyProtocol Http Effects ErrorPages Auth Tls Runtime RuntimeSpec.

(** ** [security.rs] *)

Section security_tests.
#[local] Abbreviation manager := SecurityManager.

(** The result of a call and the manager after it; a panic fails the test *)
Definition after {A} (o : outcome A) (k : A → manager → bool) : bool :=
  match o with Done a m => k a m | Panicked _ => false end.

(** One round of the loop for each [i]: a failure, and still no ban *)
Fixpoint failures_counted (rounds : list Z) (ip : IpAddr) (m : manager) (k : manager → bool) : bool :=
  match rounds with
  | [] => k m
  | i :: rounds' =>
      after (record_tls_failure 0 ip m) (λ blacklisted m, negb blacklisted &&
      after (is_blacklisted 0 ip m) (λ b m, negb b &&
      after (get_tls_failure_count 0 ip m) (λ n m, (n =? i) && failures_counted rounds' ip m k)))
  end.

Definition test_tls_failure_tracking_and_blacklisting : bool :=
  let ip := V4 192 168 1 100 in
  after (is_blacklisted 0 ip default_manager) (λ b m, negb b &&
  after (get_tls_failure_count 0 ip m) (λ n m, (n =? 0) &&
  failures_counted [1; 2; 3; 4; 5] ip m (λ m,
  after (record_tls_failure 0 ip m) (λ blacklisted m, blacklisted &&
  after (is_blacklisted 0 ip m) (λ b m, b &&
  after (get_tls_failure_count 0 ip m) (λ n _, n =? 6)))))).

Definition test_manual_blacklisting : bool :=
  let ip := V4 10 0 0 5 in
  after (is_blacklisted 0 ip default_manager) (λ b m, negb b &&
  after (add_to_blacklist 0 ip m) (λ _ m,
  after (is_blacklisted 0 ip m) (λ b _, b))).

(** [Duration::from_millis] *)
Definition duration_from_millis (ms : Z) : Z := ms * 1000000.

Definition test_ban_expiration : bool :=
  let ip := V4 172 16 0 1 in
  after (add_to_blacklist 0 ip (new (duration_from_millis 50) 5 60)) (λ _ m,
  after (is_blacklisted 0 ip m) (λ b m, b &&
  after (is_blacklisted (duration_from_millis 60) ip m) (λ b _, negb b))).

Definition test_request_rate_limiting : bool :=
  let ip := V4 192 168 2 1 in
  let answers (expected : result Z Z) (k : manager → bool) (m : manager) :=
    after (check_and_record_request 0 ip m) (λ r m, bool_decide (r = expected) && k m) in
  answers (Ok 1) (answers (Ok 2) (answers (Ok 3) (answers (Err 4) (λ _, true))))
    (new (duration_from_secs 3600) 5 3).

Definition security_tests : list bool :=
  [test_tls_failure_tracking_and_blacklisting; test_manual_blacklisting; test_ban_expiration;
   test_request_rate_limiting].

Example security_tests_pass : Forall (λ passes, passes = true) security_tests.
Proof. repeat constructor; vm_compute; reflexivity. Qed.
End security_tests.

(** ** [proxy_protocol.rs] *)

Section proxy_protocol_tests.
Definition crlf : str := [carriage_return; newline].

Definition test_parse_proxy_protocol_v1_valid : bool :=
  let header := lit "PROXY TCP4 1.2.3.4 5.6.7.8 12345 80" ++ crlf in
  match parse_proxy_protocol_v1 header with
  | Some (Some parsed) =>
      bool_decide (Some parsed.1 = parse_ip (lit "1.2.3.4")) && (parsed.2 =? 12345)
  | _ => false
  end.

Definition test_parse_proxy_protocol_v1_invalid : bool :=
  let is_none header := bool_decide (parse_proxy_protocol_v1 header = Some None) in
  is_none (lit "PROXY TCP4 1.2.3.4" ++ crlf) &&
  is_none (lit "PROXY TCP4 1.2.3.4 5.6.7.8 12345" ++ crlf) &&
  is_none (lit "PROXY TCP6 1.2.3.4 5.6.7.8 12345 80" ++ crlf) &&
  is_none (lit "PROXY TCP4 1.2.3.4 5.6.7.8 12345 80").

Definition proxy_protocol_tests : list bool :=
  [test_parse_proxy_protocol_v1_valid; test_parse_proxy_protocol_v1_invalid].

Example proxy_protocol_tests_pass : Forall (λ passes, passes = true) proxy_protocol_tests.
Proof. repeat constructor; vm_compute; reflexivity. Qed.
End proxy_protocol_tests.

(** ** [cache.rs] *)

Section cache_tests.
#[local] Existing Instance SimpleHttp.
#[local] Abbreviation engine := (LruCacheEngine ListLru HeaderMap).

Definition test_is_static_asset_service_worker_exclusions : bool :=
  let static path := is_static_asset (lit path) None in
  static "/assets/app.css" && static "/assets/bundle-123.js" && static "/logo.png" &&
  negb (static "/sw.js") && negb (static "/registerSW.js") &&
  negb (static "/workbox-9c191d2f.js") && negb (static "/custom-service-worker.js") &&
  negb (static "/manifest.webmanifest") && negb (static "/index.html") && negb (static "/") &&
  negb (is_static_asset (lit "/page.html") (Some (lit "text/html"))).

(** [engine.insert(key, StatusCode::OK, HeaderMap::new(), body, None)] *)
Definition put_ok (key body : str) (e : engine) : InsertResult * engine :=
  cache_insert 0 key 200 hm_new body None e.

Definition test_lru_cache_hit_and_miss : bool :=
  let e : engine := cache_new (1024 * 1024) (100 * 1024) 300 in
  let key := lit "example.local:/style.css" in
  let body := lit "body { color: red; }" in
  let '(miss, e) := cache_get 0 key e in
  let '(res, e) := put_ok key body e in
  negb (bool_decide (is_Some miss)) && inserted res &&
  match (cache_get 0 key e).1 with
  | Some hit => (asset_status hit =? 200) && str_eqb (asset_body hit) body
  | None => false
  end.

Definition test_lru_cache_eviction : bool :=
  let e : engine := cache_new 50 100 300 in
  let body := lit "12345678901234567890" in
  let '(res1, e) := put_ok (lit "key1") body e in
  let '(res2, e) := put_ok (lit "key2") body e in
  let '(res3, e) := put_ok (lit "key3") body e in
  let '(got1, e) := cache_get 0 (lit "key1") e in
  let '(got2, e) := cache_get 0 (lit "key2") e in
  let '(got3, _) := cache_get 0 (lit "key3") e in
  inserted res1 && inserted res2 && inserted res3 && (items_evicted res3 =? 1) &&
  (bytes_evicted res3 =? 20) && negb (bool_decide (is_Some got1)) &&
  bool_decide (is_Some got2) && bool_decide (is_Some got3).

Definition cache_tests : list bool :=
  [test_is_static_asset_service_worker_exclusions; test_lru_cache_hit_and_miss;
   test_lru_cache_eviction].

Example cache_tests_pass : Forall (λ passes, passes = true) cache_tests.
Proof. repeat constructor; vm_compute; reflexivity. Qed.
End cache_tests.

(** ** [error_pages.rs] *)

Section error_page_tests.
#[local] Existing Instance SimpleHttp.

Definition test_render_html_error_page : bool :=
  let html := render_html_error_page 502 (lit "Upstream connection failed") (lit "127.0.0.1")
    (lit "example.local") in
  contains html (lit "502") && contains html (lit "Bad Gateway") &&
  contains html (lit "Upstream connection failed") && contains html (lit "example.local") &&
  contains html (lit "127.0.0.1").

Definition test_build_error_response_json : bool :=
  let headers := hm_insert (lit "accept") (lit "application/json") hm_new in
  let resp := build_error_response 429 (lit "Rate limit exceeded") (lit "1.2.3.4")
    (lit "example.local") (Some headers) in
  (resp_status resp =? 429) &&
  bool_decide (hm_get (lit "content-type") (resp_headers resp) = Some (lit "application/json")).

Definition error_page_tests : list bool :=
  [test_render_html_error_page; test_build_error_response_json].

Example error_page_tests_pass : Forall (λ passes, passes = true) error_page_tests.
Proof. repeat constructor; vm_compute; reflexivity. Qed.
End error_page_tests.

(** ** [auth.rs] *)

(** The provider of the tests *)
Record MockAuthProvider : Type := MkMockAuthProvider { allow : bool }.

Section auth_tests.
#[local] Existing Instance SimpleHttp.

(** [MockAuthProvider::authenticate] *)
Definition mock_authenticate (p : MockAuthProvider) (_peer_addr _client_ip _method : str)
    (_uri : Uri) (_headers : HeaderMap) : prog (result str AuthResult) (result str AuthResult) :=
  if allow p then
    Ret (Ok (Success (hm_insert (lit "remote-user") (lit "testuser") hm_new)))
  else
    Ret (Ok (Denied (MkResponse 302
      (hm_append (lit "location") (lit "https://auth.example.com/login") hm_new)
      (body_full [])))).

#[local] Instance mock_auth_provider : AuthProvider MockAuthProvider := {
  provider_authenticate := mock_authenticate }.

(** The call of both tests, and what is expected of its result *)
Definition mock_asked (o : oracle) (allow : bool) (expected : AuthResult → bool) : bool :=
  let uri := MkUri (Some (lit "example.local")) (lit "/dashboard") None (Some (lit "/dashboard")) in
  match outcome_of (exec o [] (provider_authenticate (MkMockAuthProvider allow)
          (lit "127.0.0.1:1234") (lit "127.0.0.1") (lit "GET") uri hm_new)).1 with
  | Ok result => expected result
  | Err _ => false
  end.

Definition test_mock_auth_provider_success (o : oracle) : bool :=
  mock_asked o true (λ result,
    match result with
    | Success headers => bool_decide (hm_get (lit "remote-user") headers = Some (lit "testuser"))
    | Denied _ => false
    end).

Definition test_mock_auth_provider_denied (o : oracle) : bool :=
  mock_asked o false (λ result,
    match result with
    | Denied response =>
        (resp_status response =? 302) &&
        bool_decide (hm_get (lit "location") (resp_headers response) =
                     Some (lit "https://auth.example.com/login"))
    | Success _ => false
    end).

Definition auth_tests (o : oracle) : list bool :=
  [test_mock_auth_provider_success o; test_mock_auth_provider_denied o].

Example auth_tests_pass o : Forall (λ passes, passes = true) (auth_tests o).
Proof. repeat constructor; vm_compute; reflexivity. Qed.
End auth_tests.

(** ** [runtime_config.rs] *)

Section runtime_tests.
#[local] Existing Instance SimpleHttp.
#[local] Existing Instance trivial_loader.
Context (env : Env).

#[local] Abbreviation active := (ActiveConfig unit).
#[local] Abbreviation heap := (Heap ListLru).

Definition no_objects : heap := MkHeap [] [].

Definition reload_accepts_route_changes_when_startup_shape_matches : bool :=
  let file := lit "
            listen 8080;
            workers 2;
            route http://example.com/new {
                upstream http://localhost:4000;
            }
            " in
  match load_active_config_from_path (CertifiedKey := unit) env (Ok file) 8080 2 1 None no_objects with
  | Some (Ok active, _) =>
      bool_decide (is_Some (match_route (router active) (lit "example.com") (lit "/new"))) &&
      (generation active =? 1)
  | _ => false
  end.

Definition reload_rejects_listen_port_changes (path : str) : bool :=
  let file := lit "
            listen 9090;
            workers 2;
            route http://example.com/api {
                upstream http://localhost:3000;
            }
            " in
  match load_active_config_from_path (CertifiedKey := unit) env (Ok file) 8080 2 1 None no_objects with
  | Some (Err error, _) => contains (display_load_error path error) (lit "listen port changed")
  | _ => false
  end.

(** [build_active_config(load_config_from_path(..).unwrap(), generation, None).unwrap()] *)
Definition built (file : str) (gen : Z) (h : heap) : option (active * heap) :=
  match load_config_from_path env (Ok file) with
  | Some (Ok config) =>
      match build_active_config env config gen None h with
      | Some (Ok active, h) => Some (active, h)
      | _ => None
      end
  | _ => None
  end.

(** The store is the server's; its address and path do not matter here *)
Definition config_store_updates_are_visible_to_readers (addr : SocketAddr) (path : str) : bool :=
  match
    '(initial, h) ← built (lit "
                listen 8080;
                workers 2;
                route http://example.com/api {
                    upstream http://localhost:3000;
                }
                ") 0 no_objects;
    let store := create_config_store initial addr path 2 h empty_log in
    '(updated, _) ← built (lit "
                listen 8080;
                workers 2;
                route http://example.com/admin {
                    upstream http://localhost:4000;
                }
                ") 1 h;
    Some (reader_load (config_store updated store))
  with
  | Some current =>
      bool_decide (is_Some (match_route (router current) (lit "example.com") (lit "/admin"))) &&
      (generation current =? 1)
  | None => false
  end.

Definition runtime_tests (addr : SocketAddr) (path : str) : list bool :=
  [reload_accepts_route_changes_when_startup_shape_matches;
   reload_rejects_listen_port_changes path;
   config_store_updates_are_visible_to_readers addr path].

Example runtime_tests_pass addr path : Forall (λ passes, passes = true) (runtime_tests addr path).
Proof. repeat constructor; vm_compute; reflexivity. Qed.
End runtime_tests.
