(* ===== verification/Startup.v ===== *)
(** * Starting the server: [src/src/main.rs], [Server::start] of [src/src/server.rs],
      and the beginning of [run_worker] of [src/src/worker.rs]

    What [main] does until every thread runs, and what each thread does before its
    loop.  A panic of the main thread ends the process: [None].  The calls to the
    operating system are answered by a parameter, for each thread. *)

From S2P Require Import Prelude RustStr NetAddr Log Config Comments Parser ParserSpec Router Security Cache CacheSpec Http Effects Auth Tls Runtime RuntimeSpec.

(** ** Sockets *)

Inductive Domain : Type := IPV4 | IPV6.

(** The calls [bind_reuseport] makes, and before it the runtime that each thread builds
    and the signal handler that the reload thread registers *)
Inductive syscall : Type :=
| BuildRuntime
| RegisterSighup
| SocketNew (d : Domain)
| SetReusePort (b : bool)
| SetReuseAddress (b : bool)
| SetNonblocking (b : bool)
| Bind (addr : SocketAddr)
| Listen (backlog : Z)
| FromStd.

Definition is_ipv6 (a : SocketAddr) : bool := match ip a with V6 _ => true | V4 _ _ _ _ => false end.

Definition bind_calls (addr : SocketAddr) : list syscall :=
  [SocketNew (if is_ipv6 addr then IPV6 else IPV4); SetReusePort true; SetReuseAddress true;
   SetNonblocking true; Bind addr; Listen 1024; FromStd].

(** Calls in order, each with [?] *)
Fixpoint call_all (sys : syscall → result str unit) (cs : list syscall) : result str unit :=
  match cs with
  | [] => Ok tt
  | c :: cs' => _ ← sys c; call_all sys cs'
  end.

Definition bind_reuseport (sys : syscall → result str unit) (addr : SocketAddr) : result str unit :=
  call_all sys (bind_calls addr).

Section startup.
Context {CertifiedKey : Type} `{KeyLoader CertifiedKey} {L : Type → Type} `{LruOps L} `{Http}.

#[local] Abbreviation server := (Server CertifiedKey L).

(** ** Threads *)

Inductive role : Type := ReloadThread | WorkerThread (id : Z).

Definition worker_thread_name (id : Z) : str := lit "worker-thread-" ++ fmt id.

(** [spawn_reload_thread]: the name and the work of the thread *)
Definition spawn_reload_thread : str * role := (reload_thread_name, ReloadThread).

(** The threads [Server::start] spawns, in order *)
Definition server_threads (s : server) : list (str * role) :=
  spawn_reload_thread ::
  ((λ id, (worker_thread_name (Z.of_nat id), WorkerThread (Z.of_nat id)))
     <$> seq 0 (Z.to_nat (server_workers s))).

(** [Server::start] up to the joins, at line [n] of the log; [None] when a thread
    cannot be spawned *)
Definition server_start (env : Env) (n : nat) (s : server) : option (server * list (str * role)) :=
  let s := server_log env n (lit "main")
    (MkLogRecord INFO (lit "starting_workers")
       ["count" ⇒ fmt (server_workers s); "addr" ⇒ addr_to_string (listen s)]) s in
  if forallb (λ x, can_spawn env x.1) (server_threads s) then Some (s, server_threads s) else None.

(** How a worker thread stands when it is joined, and what becomes of the thread
    that joins all of them *)
Inductive worker_end : Type := Running | Exited | WorkerPanicked.

Inductive joined : Type := Blocked | AllExited | JoinPanicked.

(** The last loop of [Server::start]: [join().expect(..)] in the order of the ids *)
Fixpoint join_workers (handles : list worker_end) : joined :=
  match handles with
  | [] => AllExited
  | Running :: _ => Blocked
  | Exited :: handles' => join_workers handles'
  | WorkerPanicked :: _ => JoinPanicked
  end.

(** The beginning of [run_reload_thread], before its loop; [None] when the thread
    panics *)
Definition reload_thread_start (env : Env) (n : nat) (sys : syscall → result str unit)
    (s : server) : option server :=
  match call_all sys [BuildRuntime; RegisterSighup] with
  | Err _ => None
  | Ok _ =>
      Some (server_log env n reload_thread_name
        (MkLogRecord INFO (lit "config_reload_ready")
           ["path" ⇒ config_path s; "signal" ⇒ lit "SIGHUP"]) s)
  end.

(** [ProxyState::new]: building the client loads the root certificates, with an
    [expect] *)
Definition proxy_state_new (env : Env) : option unit := if native_roots env then Some tt else None.

(** The beginning of [run_worker], before its loop: the runtime, the socket, the line in
    the log and the shared state; [None] when the thread panics *)
Definition worker_start (env : Env) (n : nat) (sys : syscall → result str unit) (id : Z)
    (s : server) : option server :=
  match _ ← sys BuildRuntime; bind_reuseport sys (listen s) with
  | Err _ => None
  | Ok _ =>
      let s := server_log env n (worker_thread_name id)
        (MkLogRecord INFO (lit "worker_listening")
           ["id" ⇒ fmt id; "addr" ⇒ addr_to_string (listen s)]) s in
      _ ← proxy_state_new env; Some s
  end.

(** The beginning of a thread, by its role *)
Definition thread_start (env : Env) (n : nat) (sys : syscall → result str unit) (r : role)
    (s : server) : option server :=
  match r with
  | ReloadThread => reload_thread_start env n sys s
  | WorkerThread id => worker_start env n sys id s
  end.

(** ** The entry point *)

Definition CONFIG_PATH : str := lit "proxy.conf".

(** [main], with what reading the file gives *)
Definition main (env : Env) (contents : result str str) (l : LogState) :
    option (server * list (str * role)) :=
  loaded ← load_config_from_path env contents;
  match loaded with
  | Err _ => None
  | Ok config =>
      let l := log_event (local_time env 0) (Some (lit "main"))
        (MkLogRecord INFO (lit "server_startup")
           ["listen_port" ⇒ fmt (listen_port config); "workers" ⇒ fmt (workers config)]) l in
      created ← server_new env config CONFIG_PATH l;
      match created with
      | Err _ => None
      | Ok s => server_start env 1 s
      end
  end.
End startup.

(** ** What starting promises *)

Section startup_theorems.
Context {CertifiedKey : Type} `{KeyLoader CertifiedKey} {L : Type → Type} `{LruOps L} `{Http}.
#[local] Set Default Proof Using "Type*".
Implicit Types (s : Server CertifiedKey L).

(** The socket is bound with the address reused, or nothing listens: the first
    failing call is the answer. *)
Lemma call_all_Ok sys cs : call_all sys cs = Ok tt ↔ Forall (λ c, sys c = Ok tt) cs.
Proof.
  induction cs as [|c cs IH]; simpl; [by split|]. rewrite Forall_cons, <- IH.
  destruct (sys c) as [[]|e]; simpl; naive_solver.
Qed.

(** The main thread, and with it the process, ends with a panic of a worker only if
    every worker before it has exited; as workers loop for ever, a panic of any
    worker but the first goes unnoticed while the first runs. *)
Lemma join_workers_panics handles :
  join_workers handles = JoinPanicked ↔
  ∃ k, handles !! k = Some WorkerPanicked ∧ ∀ j, (j < k)%nat → handles !! j = Some Exited.
Proof.
  induction handles as [|[] handles IH]; simpl.
  - split; [done|]. by intros (k & Hk & _).
  - split; [done|]. intros ([|k] & Hk & Hj); [done|]. by specialize (Hj 0%nat ltac:(lia)).
  - rewrite IH. split.
    + intros (k & Hk & Hj). exists (S k). split; [done|]. intros [|j] ?; [done|]. apply Hj. lia.
    + intros ([|k] & Hk & Hj); [done|]. exists k. split; [done|]. intros j ?. apply (Hj (S j)). lia.
  - split; [|done]. intros _. exists 0%nat. split; [done|]. lia.
Qed.

Lemma worker_thread_name_inj i j :
  0 ≤ i ≤ u64_max → 0 ≤ j ≤ u64_max → worker_thread_name i = worker_thread_name j → i = j.
Proof. intros ? ? Heq%app_inv_head. by apply fmt_inj. Qed.

Lemma server_threads_names s :
  0 ≤ server_workers s ≤ u64_max →
  NoDup (server_threads s).*1 ∧ length (server_threads s) = S (Z.to_nat (server_workers s)).
Proof.
  intros Hw. unfold server_threads. split; [|simpl; by rewrite length_fmap, length_seq].
  rewrite fmap_cons, <- list_fmap_compose. apply NoDup_cons. split.
  - intros (id & Heq & _)%list_elem_of_fmap. done.
  - apply NoDup_fmap_2_strong; [|apply NoDup_seq].
    intros i j Hi%elem_of_seq Hj%elem_of_seq Heq%worker_thread_name_inj; lia.
Qed.

Lemma server_threads_Forall (P : str * role → Prop) s :
  Forall P (server_threads s) ↔
  P (reload_thread_name, ReloadThread) ∧
  ∀ id, 0 ≤ id < server_workers s → P (worker_thread_name id, WorkerThread id).
Proof.
  unfold server_threads, spawn_reload_thread. rewrite Forall_cons, Forall_fmap, Forall_forall.
  f_equiv. split; intros Hall id Hid.
  - specialize (Hall (Z.to_nat id)). simpl in Hall. rewrite Z2Nat.id in Hall by lia.
    apply Hall, elem_of_seq. lia.
  - apply elem_of_seq in Hid. apply Hall. lia.
Qed.

(** What the environment must provide for a server with this configuration. *)
Definition provides (env : Env) (cfg : Config) : Prop :=
  is_ok (build_tls_acceptor (routes cfg)) = true ∧
  (is_Some (security cfg ≫= forward_auth) → native_roots env = true) ∧
  (∀ p, logfile cfg = Some p → can_append env p = true).

Lemma update_log_file_Some can path ls :
  is_Some (update_log_file can path ls) ↔ ∀ p, path = Some p → can p = true.
Proof.
  unfold update_log_file. destruct path as [p|]; [|by split].
  destruct (can p) eqn:Hp; split.
  - intros _ q Hq. by injection Hq as <-.
  - intros _. by eexists.
  - by intros [? ?].
  - intros Hc. specialize (Hc p eq_refl). congruence.
Qed.

Lemma server_new_provided env cfg path l :
  (∃ s, server_new env cfg path l = Some (Ok s)) ↔ provides env cfg.
Proof.
  unfold server_new, build_active_config, provides.
  destruct (build_tls_acceptor (routes cfg)) as [acc|e]; simpl; [|naive_solver].
  unfold make_auth_provider.
  destruct (security cfg ≫= forward_auth) as [url|]; [destruct (native_roots env)|]; simpl;
    rewrite ?make_cache_spec; simpl; rewrite <- (update_log_file_Some _ _ l).
  2: { split; [by intros [? ?]|]. intros (_ & Hr & _). by specialize (Hr ltac:(eauto)). }
  all: destruct (update_log_file _ _ l) as [l'|]; simpl; split;
    [by eauto|by eauto|by intros [? ?]|by intros (_ & _ & [? ?])].
Qed.

(** The listening address and the log file of a new server. *)
Lemma server_new_listen env cfg path l s :
  server_new env cfg path l = Some (Ok s) →
  listen s = MkSocketAddr (V4 0 0 0 0) (listen_port cfg) ∧ LOG_FILE (log_state s) = logfile cfg.
Proof.
  unfold server_new, build_active_config.
  destruct (build_tls_acceptor (routes cfg)) as [acc|e]; simpl; [|done].
  destruct (make_auth_provider _ _) as [p|]; simpl; [|done]. rewrite make_cache_spec. simpl.
  destruct (update_log_file _ _ l) as [l'|] eqn:Hu; simpl; [|done]. intros [= <-].
  by apply update_log_file_grows in Hu as [_ Hu].
Qed.

(** [main] gets as far as spawning its threads exactly when certificates, root
    certificates and log file can be used and the threads can be created. *)
Lemma main_spawns (env : Env) (text : str) (cfg : Config) (l : LogState) :
  available_ok (available_parallelism env) →
  parse_proxy_config (available_parallelism env) text = Some (Ok cfg) →
  ((∃ s threads, main (CertifiedKey := CertifiedKey) (L := L) env (Ok text) l = Some (s, threads)) ↔
     provides env cfg ∧ can_spawn env reload_thread_name = true ∧
     ∀ id, 0 ≤ id < workers cfg → can_spawn env (worker_thread_name id) = true) ∧
  ∀ s threads, main (CertifiedKey := CertifiedKey) (L := L) env (Ok text) l = Some (s, threads) →
    server_ok s ∧ listen s = MkSocketAddr (V4 0 0 0 0) (listen_port cfg) ∧
    LOG_FILE (log_state s) = logfile cfg ∧
    server_workers s = workers cfg ∧ threads = server_threads s ∧ NoDup threads.*1 ∧ length threads = S (Z.to_nat (workers cfg)).
Proof.
  intros Hav Hparse. pose proof (config_accepted _ _ _ Hav Hparse) as Hok.
  unfold main, load_config_from_path. rewrite Hparse. simpl.
  set (l1 := log_event _ _ _ l).
  rewrite <- (server_new_provided env cfg CONFIG_PATH l1).
  destruct (server_new env cfg CONFIG_PATH l1) as [[s0|e]|] eqn:Hnew; simpl; cycle 1.
  { split; [|done]. split; [by intros (? & ? & ?)|by intros [[? ?] _]]. }
  { split; [|done]. split; [by intros (? & ? & ?)|by intros [[? ?] _]]. }
  destruct (server_new_ok _ _ _ _ _ Hok Hnew) as (Hs0 & _ & Hw & _).
  destruct (server_new_listen _ _ _ _ _ Hnew) as [Hl Hlf].
  pose proof (config_ok_workers _ Hok) as Hwk.
  assert (server_threads (server_log env 1 (lit "main") (MkLogRecord INFO (lit "starting_workers")
    ["count" ⇒ fmt (server_workers s0); "addr" ⇒ addr_to_string (listen s0)]) s0) =
    server_threads s0) as Hth by done.
  assert (forallb (λ x, can_spawn env x.1) (server_threads s0) = true ↔
    can_spawn env reload_thread_name = true ∧
    ∀ id, 0 ≤ id < workers cfg → can_spawn env (worker_thread_name id) = true) as Hsp.
  { rewrite <- Hw, <- (server_threads_Forall (λ x, can_spawn env x.1 = true)).
    rewrite forallb_forall, Forall_forall. by setoid_rewrite list_elem_of_In. }
  unfold server_start. rewrite Hth, <- Hsp. split.
  - split; [intros (s & threads & Hm); case_if; [|done]; by eauto|]. intros (_ & ->). eauto.
  - intros s threads Hm. case_if; [|done]. injection Hm as <- <-.
    destruct (server_threads_names s0) as [Hnd Hlen]; [unfold usize_max in *; lia|].
    rewrite Hw in Hlen. split_and!; try done. destruct Hs0. by split.
Qed.

Lemma main_parses env contents l s threads :
  main (CertifiedKey := CertifiedKey) (L := L) env contents l = Some (s, threads) →
  ∃ text cfg, contents = Ok text ∧ parse_proxy_config (available_parallelism env) text = Some (Ok cfg).
Proof.
  unfold main, load_config_from_path. destruct contents as [text|e]; simpl; [|done].
  destruct (parse_proxy_config _ text) as [[cfg|e]|] eqn:Hp; simpl; [|done..]. eauto.
Qed.

(** The calls a thread makes, in order, for a server that listens on [addr] *)
Definition start_calls (addr : SocketAddr) (r : role) : list syscall :=
  match r with
  | ReloadThread => [BuildRuntime; RegisterSighup]
  | WorkerThread _ => BuildRuntime :: bind_calls addr
  end.

Lemma thread_start_Some env n sys r s :
  is_Some (thread_start env n sys r s) ↔
  Forall (λ c, sys c = Ok tt) (start_calls (listen s) r) ∧
  (r ≠ ReloadThread → native_roots env = true).
Proof.
  destruct r as [|id]; cbn [thread_start start_calls].
  - unfold reload_thread_start. rewrite <- call_all_Ok.
    destruct (call_all sys _) as [[]|e]; simpl; naive_solver.
  - unfold worker_start, bind_reuseport, proxy_state_new. rewrite <- call_all_Ok.
    change (call_all sys (BuildRuntime :: bind_calls (listen s))) with
      (_ ← sys BuildRuntime; call_all sys (bind_calls (listen s))).
    destruct (_ ← sys BuildRuntime; call_all sys (bind_calls (listen s))) as [[]|e]; cycle 1.
    { split; [by intros [? ?]|naive_solver]. }
    destruct (native_roots env); simpl; [by split; [split|eauto]|].
    split; [by intros [? ?]|]. intros [_ Hr]. by specialize (Hr ltac:(done)).
Qed.

(** C33: The process comes up, with every worker listening on the configured port of all
    interfaces and the reload thread waiting for SIGHUP, exactly when the file can be
    read and is accepted, its certificates load and its log file opens, the root
    certificates are found, the threads can be created, and every call to the operating
    system succeeds: the runtime of each thread, the signal handler, and for each worker
    the socket with its address bound and listening.  There are then one reload thread
    and one thread for each configured worker, all under different names. *)
Theorem main_serves (env : Env) (contents : result str str) (l : LogState) (n : role → nat)
    (sys : role → syscall → result str unit) :
  available_ok (available_parallelism env) →
  ((∃ s threads, main (CertifiedKey := CertifiedKey) (L := L) env contents l = Some (s, threads) ∧
      Forall (λ x, is_Some (thread_start env (n x.2) (sys x.2) x.2 s)) threads) ↔
   ∃ text cfg (addr := MkSocketAddr (V4 0 0 0 0) (listen_port cfg)),
     contents = Ok text ∧ parse_proxy_config (available_parallelism env) text = Some (Ok cfg) ∧
     provides env cfg ∧ native_roots env = true ∧
     can_spawn env reload_thread_name = true ∧
     Forall (λ c, sys ReloadThread c = Ok tt) [BuildRuntime; RegisterSighup] ∧
     ∀ id, 0 ≤ id < workers cfg → can_spawn env (worker_thread_name id) = true ∧
       Forall (λ c, sys (WorkerThread id) c = Ok tt)
         [BuildRuntime; SocketNew IPV4; SetReusePort true; SetReuseAddress true;
          SetNonblocking true; Bind addr; Listen 1024; FromStd]) ∧
  ∀ s threads, main (CertifiedKey := CertifiedKey) (L := L) env contents l = Some (s, threads) →
    ∃ text cfg, contents = Ok text ∧
      parse_proxy_config (available_parallelism env) text = Some (Ok cfg) ∧
      server_ok s ∧ listen s = MkSocketAddr (V4 0 0 0 0) (listen_port cfg) ∧
      LOG_FILE (log_state s) = logfile cfg ∧
      NoDup threads.*1 ∧ length threads = S (Z.to_nat (workers cfg)).
Proof.
  intros Hav. split; cycle 1.
  { intros s threads Hm. destruct (main_parses _ _ _ _ _ Hm) as (text & cfg & -> & Hp).
    exists text, cfg. destruct (main_spawns env text cfg l Hav Hp) as [_ Hafter].
    destruct (Hafter _ _ Hm) as (? & ? & ? & _ & _ & ? & ?). done. }
  split.
  - intros (s & threads & Hm & Hth). destruct (main_parses _ _ _ _ _ Hm) as (text & cfg & -> & Hp).
    destruct (main_spawns env text cfg l Hav Hp) as [[Hup _] Hafter].
    destruct (Hafter _ _ Hm) as (Hs & Hl & _ & Hw & -> & _).
    destruct Hup as (Hprov & Hrs & Hws); [by eauto|].
    apply server_threads_Forall in Hth as [[Hrel _]%thread_start_Some Hwk]. rewrite Hw in Hwk.
    setoid_rewrite thread_start_Some in Hwk. rewrite Hl in Hwk.
    exists text, cfg. split_and!; try done.
    + destruct (Hwk 0) as [_ Hroots]; [|by apply Hroots].
      pose proof (config_ok_workers _ (config_accepted _ _ _ Hav Hp)). lia.
    + intros id Hid. split; [by apply Hws|]. by apply Hwk.
  - intros (text & cfg & -> & Hp & Hprov & Hroots & Hrs & Hrel & Hwk).
    destruct (main_spawns env text cfg l Hav Hp) as [[_ Hup] Hafter].
    destruct Hup as (s & threads & Hm); [naive_solver|]. exists s, threads. split; [done|].
    destruct (Hafter _ _ Hm) as (Hs & Hl & _ & Hw & -> & _). apply server_threads_Forall.
    rewrite Hw. setoid_rewrite thread_start_Some. rewrite Hl. split; [done|].
    intros id Hid. split; [by apply Hwk|done].
Qed.
End startup_theorems.

(** ** Examples *)

Section startup_witnesses.
#[local] Existing Instance SimpleHttp.
#[local] Existing Instance trivial_loader.

Lemma main_serves_witness :
  ∃ s threads, main (CertifiedKey := unit) (L := ListLru) sample_env (Ok plain_text) empty_log =
    Some (s, threads) ∧
    Forall (λ x, is_Some (thread_start sample_env 2 (λ _, Ok tt) x.2 s)) threads.
Proof.
  apply (main_serves sample_env (Ok plain_text) empty_log (λ _, 2%nat) (λ _ _, Ok tt)).
  - by intros ?.
  - exists plain_text, plain_config. split_and!; try reflexivity.
    + split; [reflexivity|split; [intros _; reflexivity|intros p Hp; reflexivity]].
    + repeat constructor.
    + intros id Hid. split; [reflexivity|]. repeat constructor.
Defined.
End startup_witnesses.
