(* ===== verification/Proxy.v ===== *)
(** * The request handler: [src/src/proxy.rs]

    [handle_request] as a program with effects, one definition per stage of the
    source, composed in its order.  An early [return] of the source is [Return];
    the value returned is [None] when the task panics, and otherwise what hyper
    gets: a response, or an error that closes the connection.  The tasks the
    handler spawns are programs of their own. *)

From S2P Require Import Prelude RustStr NetAddr Log Config Comments Parser ParserSpec Router Security Cache ProxyProtocol Http Effects ErrorPages Auth Tls Runtime.

Section proxy.
Context `{Http} {CertifiedKey : Type}.

(** What a handler returns to hyper *)
Definition handler_reply : Type := option (result str Response).

#[local] Abbreviation handler := (prog handler_reply).

Definition respond {A} (r : Response) : handler A := Return (Some (Ok r)).

Definition panic {A} : handler A := Return None.

(** [match r { Ok(v) => v, Err(e) => return Err(e) }] *)
Definition try_ {A} (r : result str A) : handler A :=
  match r with Ok a => Ret a | Err e => Return (Some (Err e)) end.

(** ** Small functions *)

(** [is_upgrade_request] *)
Definition is_upgrade_request (headers : HeaderMap) : bool :=
  let has_upgrade_header := hm_contains_key (lit "upgrade") headers in
  let connection_wants_upgrade :=
    match header_str (lit "connection") headers with
    | Some v => existsb (λ token, eq_ignore_ascii_case (trim token) (lit "upgrade"))
                  (split_char v ","%char)
    | None => false
    end in
  has_upgrade_header && connection_wants_upgrade.

(** [inject_security_headers] *)
Definition security_headers : list (str * str) :=
  [(lit "strict-transport-security", lit "max-age=63072000; includeSubDomains; preload");
   (lit "x-content-type-options", lit "nosniff");
   (lit "x-frame-options", lit "DENY");
   (lit "x-xss-protection", lit "0")].

Definition insert_all (kvs : list (str * str)) (h : HeaderMap) : HeaderMap :=
  foldl (λ h '(k, v), hm_insert k v h) h kvs.

Definition inject_security_headers (h : HeaderMap) : HeaderMap := insert_all security_headers h.

Definition with_headers (r : Response) (h : HeaderMap) : Response :=
  MkResponse (resp_status r) h (resp_body r).

(** [no_response_444] *)
Definition no_response_444 : Response :=
  MkResponse (default 404 (status_from_u16 444))
    (hm_append (lit "connection") (lit "close") hm_new) (body_full []).

(** ** The client's address *)

Definition client_ip_headers : list str :=
  lit <$> ["cf-connecting-ip"; "true-client-ip"; "x-forwarded-for"]%string.

Definition ip_part (name value : str) : str :=
  if str_eqb name (lit "x-forwarded-for") then
    trim (default value (head (split_char value ","%char)))
  else trim value.

(** The loop over the headers: the first that holds an address *)
Fixpoint header_ip (names : list str) (headers : HeaderMap) : option str :=
  match names with
  | [] => None
  | name :: names' =>
      match header_str name headers with
      | Some value =>
          let part := ip_part name value in
          match parse_ip part with
          | Some _ => Some part
          | None => header_ip names' headers
          end
      | None => header_ip names' headers
      end
  end.

Definition resolve_client_ip (peer_addr : SocketAddr) (is_proxy_protocol : bool)
    (headers : HeaderMap) : str :=
  let client_ip := ip_to_string (ip peer_addr) in
  if is_proxy_protocol then default client_ip (header_ip client_ip_headers headers)
  else client_ip.

(** ** The variables of a request *)

(** The variables [handle_request] computes first and reads in its later stages *)
Record RequestVars : Type := MkRequestVars {
  v_peer_addr : SocketAddr;
  v_client_ip : str;
  v_host : str;
  v_req_headers : HeaderMap;
  v_path_and_query : str;
  v_path : str;
  v_user_agent : str;
  v_referer : str;
  v_http_version : str;
  v_method : str }.

(** A header for the log: [get(name).and_then(|v| v.to_str().ok()).unwrap_or("-")] *)
Definition header_or_dash (name : str) (h : HeaderMap) : str :=
  default (lit "-") (header_str name h).

Definition request_vars (peer_addr : SocketAddr) (is_proxy_protocol : bool) (req : Request) :
    RequestVars :=
  let headers := req_headers req in
  MkRequestVars peer_addr (resolve_client_ip peer_addr is_proxy_protocol headers)
    (authority_or_host (req_uri req) headers) headers (path_and_query_or_root (req_uri req))
    (uri_path (req_uri req)) (header_or_dash (lit "user-agent") headers)
    (header_or_dash (lit "referer") headers) (version_debug (req_version req)) (req_method req).

(** [error_response] with the variables of the request *)
Definition error_response (v : RequestVars) (status : Z) (message : str) : Response :=
  build_error_response status message (v_client_ip v) (v_host v) (Some (v_req_headers v)).

(** The line of the access log *)
Definition request_kv (v : RequestVars) (status : Z) (duration_ms upstream : str) :
    list (str * str) :=
  ["peer" ⇒ addr_to_string (v_peer_addr v); "client_ip" ⇒ v_client_ip v; "method" ⇒ v_method v;
   "host" ⇒ v_host v; "path" ⇒ v_path_and_query v; "version" ⇒ v_http_version v;
   "status" ⇒ fmt status; "duration_ms" ⇒ duration_ms; "upstream" ⇒ upstream;
   "user_agent" ⇒ v_user_agent v; "referer" ⇒ v_referer v].

Definition log_request (v : RequestVars) (status : Z) (duration_ms upstream : str) : handler unit :=
  log_info "request" (request_kv v status duration_ms upstream).

(** ** The security gate *)

Definition rate_limited (v : RequestVars) : Response :=
  let resp := error_response v 429
    (lit "Request rate limit exceeded. Please wait before retrying.") in
  with_headers resp (hm_insert (lit "retry-after") (lit "60") (resp_headers resp)).

Definition security_gate (active : ActiveConfig CertifiedKey) (v : RequestVars) : handler unit :=
  match parse_ip (v_client_ip v) with
  | None => Ret tt
  | Some ip_addr =>
      blacklisted ← trigger (IsBlacklistedE (security_manager active) ip_addr);
      match blacklisted with
      | None => panic
      | Some true =>
          _ ← log_info "connection_dropped_blacklisted"
                ["client_ip" ⇒ v_client_ip v; "host" ⇒ v_host v; "path" ⇒ v_path_and_query v];
          respond no_response_444
      | Some false =>
          counted ← trigger (CheckRequestE (security_manager active) ip_addr);
          match counted with
          | None => panic
          | Some (Err count) =>
              _ ← log_error "rate_limit_exceeded"
                    ["client_ip" ⇒ v_client_ip v; "path" ⇒ v_path v; "host" ⇒ v_host v;
                     "count" ⇒ fmt count;
                     "limit" ⇒ fmt (default 60 (sec_rate_limit_rpm <$> active_security active))];
              duration_ms ← trigger ElapsedE;
              _ ← log_request v 429 duration_ms (lit "-");
              respond (rate_limited v)
          | Some (Ok _) => Ret tt
          end
      end
  end.

(** ** The body limit *)

Definition max_body (active : ActiveConfig CertifiedKey) : Z :=
  default (10 * 1024 * 1024) (max_body_size <$> active_security active).

Definition content_length (h : HeaderMap) : option Z :=
  header_str (lit "content-length") h ≫= parse_uint usize_max.

Definition body_gate (max_body_size : Z) (v : RequestVars) : handler unit :=
  match content_length (v_req_headers v) with
  | Some cl_val =>
      if max_body_size <? cl_val then
        _ ← log_warn "payload_too_large"
              ["client_ip" ⇒ v_client_ip v; "host" ⇒ v_host v; "content_length" ⇒ fmt cl_val;
               "max_body_size" ⇒ fmt max_body_size];
        respond (error_response v 413
          (lit "The request payload body exceeds the maximum allowed size limit."))
      else Ret tt
  | None => Ret tt
  end.

(** ** The cache *)

(** The engine the request may use: its location *)
Definition request_engine (active : ActiveConfig CertifiedKey) (matched : option MatchedRoute)
    (method : str) : option nat :=
  let route_cache_enabled := default true (matched ≫= matched_cache) in
  let is_cacheable_method := str_eqb method (lit "GET") || str_eqb method (lit "HEAD") in
  if route_cache_enabled && is_cacheable_method then cache_engine active else None.

Definition cache_key (host path_and_query : str) : str := host ++ lit ":" ++ path_and_query.

Definition hit_response (cached : CachedAsset HeaderMap) : Response :=
  MkResponse (asset_status cached)
    (hm_insert (lit "x-proxy-cache") (lit "HIT") (asset_headers cached))
    (body_full (asset_body cached)).

(** The three statistics of an engine that go into the log *)
Definition cache_stats {R} (loc : nat) : prog R (list (str * str)) :=
  current_mem ← trigger (CurrentMemoryE loc);
  total_entries ← trigger (EntryCountE loc);
  max_cap ← trigger (MaxCapacityE loc);
  Ret ["total_cache_bytes" ⇒ fmt current_mem; "total_cache_entries" ⇒ fmt total_entries;
       "max_capacity_bytes" ⇒ fmt max_cap].

Definition upstream_or_dash (matched : option MatchedRoute) : str :=
  default (lit "-") (upstream_addr <$> matched).

Definition cache_lookup (engine : option nat) (matched : option MatchedRoute) (v : RequestVars) :
    handler unit :=
  match engine with
  | Some loc =>
      found ← trigger (CacheGetE loc (cache_key (v_host v) (v_path_and_query v)));
      match found with
      | Some cached =>
          duration ← trigger ElapsedE;
          stats ← cache_stats loc;
          _ ← log_info "cache_hit"
                (["client_ip" ⇒ v_client_ip v; "host" ⇒ v_host v; "path" ⇒ v_path_and_query v;
                  "size_bytes" ⇒ fmt (size_bytes cached)] ++ stats);
          _ ← log_request v (asset_status cached) duration (upstream_or_dash matched);
          respond (hit_response cached)
      | None => Ret tt
      end
  | None => Ret tt
  end.

(** ** Authentication *)

Definition auth_gate (active : ActiveConfig CertifiedKey) (m : MatchedRoute)
    (v : RequestVars) (req : Request) : handler HeaderMap :=
  if matched_auth_required m then
    match auth_provider active with
    | Some provider =>
        verdict ← invoke (provider_authenticate provider (addr_to_string (v_peer_addr v))
                            (v_client_ip v) (v_method v) (req_uri req) (req_headers req));
        match verdict with
        | Ok (Success headers) =>
            _ ← (if (hm_len headers =? 0)%nat then Ret tt
                 else log_debug "auth_headers_injected"
                        ["client_ip" ⇒ v_client_ip v; "host" ⇒ v_host v;
                         "count" ⇒ fmt (Z.of_nat (hm_len headers))]);
            Ret headers
        | Ok (Denied response) =>
            _ ← log_info "auth_denied"
                  ["client_ip" ⇒ v_client_ip v; "host" ⇒ v_host v; "path" ⇒ v_path_and_query v;
                   "status" ⇒ fmt (resp_status response)];
            respond response
        | Err e =>
            _ ← log_error "auth_error" ["client_ip" ⇒ v_client_ip v; "error" ⇒ e];
            respond (error_response v 500 (lit "An internal authentication error occurred."))
        end
    | None =>
        _ ← log_error "auth_misconfiguration"
              ["client_ip" ⇒ v_client_ip v; "host" ⇒ v_host v;
               "error" ⇒ lit "route requires authentication ('auth on;') but no 'forward_auth' URL is configured in security block"];
        respond (error_response v 500
          (lit "Route requires authentication ('auth on;') but no 'forward_auth' URL is configured in security block."))
    end
  else Ret hm_new.

(** ** The forwarded request *)

Definition rewritten_path_and_query (m : MatchedRoute) (uri : Uri) : str :=
  match uri_query uri with
  | Some query => rewritten_path m ++ lit "?" ++ query
  | None => rewritten_path m
  end.

Definition upstream_url (m : MatchedRoute) (uri : Uri) : str :=
  lit "http://" ++ upstream_addr m ++ rewritten_path_and_query m uri.

Definition original_host (req : Request) : result str (option str) :=
  match hm_get (lit "host") (req_headers req) with
  | Some host => Ok (Some host)
  | None =>
      match uri_authority (req_uri req) with
      | Some authority => v ← hv_from_str authority; Ok (Some v)
      | None => Ok None
      end
  end.

(** The loop that copies the headers of the request *)
Definition copied_headers (h : HeaderMap) : HeaderMap :=
  foldl (λ acc '(key, value),
      if negb (str_eqb key (lit "host")) && negb (starts_with key (lit ":"))
      then hm_append key value acc else acc)
    hm_new (hm_iter h).

Definition forwarded_for (client_ip : str) (h : HeaderMap) : result str str :=
  match hm_get (lit "x-forwarded-for") h with
  | Some existing =>
      existing_str ← ok_or (hv_to_str existing) (lit "failed to convert header to a str");
      hv_from_str (existing_str ++ lit ", " ++ client_ip)
  | None => hv_from_str client_ip
  end.

Definition forwarded_headers (client_ip : str) (auth_headers : HeaderMap)
    (original_host : option str) (h : HeaderMap) : result str HeaderMap :=
  let headers := insert_all (hm_iter auth_headers) (copied_headers h) in
  let headers :=
    match original_host with
    | Some host => hm_insert (lit "x-forwarded-host") host (hm_insert (lit "host") host headers)
    | None => headers
    end in
  let headers := hm_insert (lit "x-forwarded-proto") (lit "https") headers in
  xff ← forwarded_for client_ip h;
  let headers := hm_insert (lit "x-forwarded-for") xff headers in
  real_ip ← hv_from_str client_ip;
  Ok (hm_insert (lit "x-real-ip") real_ip headers).

Definition forwarded_request (m : MatchedRoute) (client_ip : str) (auth_headers : HeaderMap)
    (max_body_size : Z) (req : Request) : result str Request :=
  uri ← uri_parse (upstream_url m (req_uri req));
  host ← original_host req;
  headers ← forwarded_headers client_ip auth_headers host (req_headers req);
  Ok (MkRequest (req_method req) uri HTTP_11 headers (body_limited max_body_size (req_body req))).

(** ** The upstream's answer *)

Definition is_static_answer (path_and_query : str) (resp : Response) : bool :=
  is_static_asset path_and_query (header_str (lit "content-type") (resp_headers resp)).

Definition is_no_store (resp : Response) : bool :=
  let cache_control := default [] (header_str (lit "cache-control") (resp_headers resp)) in
  contains cache_control (lit "no-store") || contains cache_control (lit "private").

(** [exceeds_max_file_size], which asks the engine only for an announced length *)
Definition exceeds_max_file_size (engine : option nat) (resp : Response) : handler bool :=
  match content_length (resp_headers resp), engine with
  | Some cl, Some loc => max_file ← trigger (MaxFileSizeE loc); Ret (max_file <? cl)
  | _, _ => Ret false
  end.

(** Whether the answer may be stored, and otherwise why not *)
Definition is_storable (exceeds : bool) (path_and_query : str) (resp : Response) : bool :=
  is_static_answer path_and_query resp && negb (is_no_store resp) && negb exceeds
  && (resp_status resp =? 200).

Definition bypass_reason (exceeds : bool) (path_and_query : str) (resp : Response) : str :=
  if negb (is_static_answer path_and_query resp) then lit "non_static_asset"
  else if is_no_store resp then lit "cache_control_no_store"
  else if exceeds then lit "exceeds_max_file_size"
  else if negb (resp_status resp =? 200) then lit "non_200_status"
  else lit "cache_disabled".

Definition mark_cache (status : str) (r : Response) : Response :=
  with_headers r (hm_insert (lit "x-proxy-cache") status (resp_headers r)).

Definition store_response (loc : nat) (v : RequestVars) (resp : Response) : handler Response :=
  match body_collect (resp_body resp) with
  | Some body_bytes =>
      _ ← trigger (SpawnE (InsertTask loc (cache_key (v_host v) (v_path_and_query v))
                     (resp_status resp) (resp_headers resp) body_bytes
                     (v_client_ip v) (v_host v) (v_path_and_query v)));
      Ret (mark_cache (lit "MISS")
             (MkResponse (resp_status resp) (resp_headers resp) (body_full body_bytes)))
  | None => Ret (MkResponse (resp_status resp) (resp_headers resp) (body_full []))
  end.

(** The answer is passed on and not stored *)
Definition bypass_cache (engine : option nat) (exceeds : bool) (v : RequestVars)
    (resp : Response) : handler Response :=
  _ ← match engine with
      | Some loc =>
          stats ← cache_stats loc;
          log_info "cache_miss"
            (["client_ip" ⇒ v_client_ip v; "host" ⇒ v_host v; "path" ⇒ v_path_and_query v;
              "status" ⇒ fmt (resp_status resp); "cache_action" ⇒ lit "bypassed";
              "reason" ⇒ bypass_reason exceeds (v_path_and_query v) resp] ++ stats)
      | None => Ret tt
      end;
  Ret (mark_cache (lit "BYPASS") resp).

Definition intercepted (v : RequestVars) (status : Z) : Response :=
  let error_resp := error_response v status
    (lit "Upstream server returned error: " ++ reason_or_error status) in
  with_headers error_resp (inject_security_headers (resp_headers error_resp)).

Definition upstream_answer (active : ActiveConfig CertifiedKey) (engine : option nat)
    (m : MatchedRoute) (upgrade_requested : bool) (v : RequestVars) (resp : Response) :
    handler Response :=
  if (resp_status resp =? 101) && upgrade_requested then
    _ ← trigger (SpawnE (TunnelTask (v_peer_addr v) (upstream_addr m)));
    Ret resp
  else if should_intercept_errors m (global_intercept_errors active)
          && (status_is_client_error (resp_status resp) || status_is_server_error (resp_status resp))
  then
    _ ← log_info "upstream_error_intercepted"
          ["client_ip" ⇒ v_client_ip v; "host" ⇒ v_host v; "path" ⇒ v_path_and_query v;
           "status" ⇒ fmt (resp_status resp)];
    respond (intercepted v (resp_status resp))
  else
    exceeds ← exceeds_max_file_size engine resp;
    match engine with
    | Some loc =>
        if is_storable exceeds (v_path_and_query v) resp then store_response loc v resp
        else bypass_cache engine exceeds v resp
    | None => bypass_cache engine exceeds v resp
    end.

(** ** The handler *)

(** The upstream gave no answer *)
Definition upstream_unreachable (m : MatchedRoute) (v : RequestVars) (e : str) : handler Response :=
  _ ← log_error "upstream_connect_failed" ["upstream" ⇒ upstream_addr m; "error" ⇒ e];
  Ret (error_response v 502
         (lit "The proxy was unable to connect to the upstream backend server.")).

Definition forward (active : ActiveConfig CertifiedKey) (engine : option nat) (m : MatchedRoute)
    (v : RequestVars) (req : Request) : handler Response :=
  auth_headers ← auth_gate active m v req;
  let upgrade_requested := is_upgrade_request (req_headers req) in
  final_req ← try_ (forwarded_request m (v_client_ip v) auth_headers (max_body active) req);
  answer ← trigger (UpstreamRequestE final_req);
  match answer with
  | Ok resp => upstream_answer active engine m upgrade_requested v resp
  | Err e => upstream_unreachable m v e
  end.

Definition no_matching_route (active : ActiveConfig CertifiedKey) (v : RequestVars) :
    handler Response :=
  _ ← log_info "no_matching_route"
        ["config_generation" ⇒ fmt (generation active); "peer" ⇒ addr_to_string (v_peer_addr v);
         "host" ⇒ v_host v; "path" ⇒ v_path_and_query v];
  Ret no_response_444.

(** The end of the handler: the access log and the security headers *)
Definition finish_request (matched : option MatchedRoute) (v : RequestVars) (result : Response) :
    handler handler_reply :=
  duration_ms ← trigger ElapsedE;
  _ ← log_request v (resp_status result) duration_ms (upstream_or_dash matched);
  Ret (Some (Ok (with_headers result (inject_security_headers (resp_headers result))))).

(** [handle_request], with the configuration it loads *)
Definition handle_request (active : ActiveConfig CertifiedKey) (peer_addr : SocketAddr)
    (is_proxy_protocol : bool) (req : Request) : handler handler_reply :=
  let v := request_vars peer_addr is_proxy_protocol req in
  _ ← security_gate active v;
  _ ← body_gate (max_body active) v;
  let matched := match_route (router active) (v_host v) (v_path v) in
  let engine := request_engine active matched (req_method req) in
  _ ← cache_lookup engine matched v;
  result ← match matched with
           | Some m => forward active engine m v req
           | None => no_matching_route active v
           end;
  finish_request matched v result.

(** ** Spawned tasks *)

(** The insertion into the cache; [insert] reads the clock for the new entry before it
    takes its locks, so other tasks may come in between *)
Definition insert_task (loc : nat) (key : str) (status : Z) (headers : HeaderMap) (body : str)
    (client_ip host path : str) : prog unit unit :=
  created_at ← trigger NowE;
  res ← trigger (CacheInsertE loc created_at key status headers body);
  stats ← cache_stats loc;
  let request := ["client_ip" ⇒ client_ip; "host" ⇒ host; "path" ⇒ path; "status" ⇒ fmt status] in
  let evicted := ["bytes_evicted" ⇒ fmt (bytes_evicted res); "items_evicted" ⇒ fmt (items_evicted res)] in
  if inserted res then
    log_info "cache_miss"
      (request ++ ["cache_action" ⇒ lit "inserted"; "bytes_inserted" ⇒ fmt (bytes_inserted res)]
       ++ evicted ++ stats)
  else
    log_info "cache_miss"
      (request ++ ["cache_action" ⇒ lit "bypassed";
                   "reason" ⇒ default (lit "not_inserted") (reason res);
                   "bytes_inserted" ⇒ lit "0"] ++ evicted ++ stats).

(** The tunnel of an upgraded connection *)
Definition tunnel_task (peer_addr : SocketAddr) (upstream : str) : prog unit unit :=
  let who := ["peer" ⇒ addr_to_string peer_addr; "upstream" ⇒ upstream] in
  client ← trigger ClientUpgradeE;
  match client with
  | Ok _ =>
      upgraded ← trigger UpstreamUpgradeE;
      match upgraded with
      | Ok _ =>
          copied ← trigger CopyBidirectionalE;
          match copied with
          | Ok (to_upstream, to_client) =>
              log_info "upgrade_tunnel_closed"
                (who ++ ["bytes_to_upstream" ⇒ fmt to_upstream; "bytes_to_client" ⇒ fmt to_client])
          | Err e => log_error "upgrade_tunnel_error" (who ++ ["error" ⇒ e])
          end
      | Err e =>
          _ ← log_error "upstream_upgrade_failed" (who ++ ["error" ⇒ e]);
          Return tt
      end
  | Err e => log_error "upgrade_handshake_failed" (who ++ ["error" ⇒ e])
  end.

Definition spawned_task (t : spawned) : prog unit unit :=
  match t with
  | InsertTask loc key status headers body client_ip host path =>
      insert_task loc key status headers body client_ip host path
  | TunnelTask peer upstream => tunnel_task peer upstream
  end.
End proxy.
