(* ===== verification/ProxySpec.v ===== *)
(** * What the request handler promises

    Theorems on [Proxy.v], each for every oracle: for every interleaving with
    other requests and every behaviour of the upstream and of the auth provider.
    They cover the gates a request passes, who is asked before a request goes
    upstream, what is sent upstream, what is stored in the cache, and the security
    headers of the answers. *)

From S2P Require Import Prelude RustStr NetAddr NetAddrSpec Log Config Comments Parser ParserSpec Router Security Cache ProxyProtocol Http Effects ErrorPages Auth Tls Runtime Proxy.

(** ** Header maps *)

Section headers.
Context `{HttpLaws}.
#[local] Set Default Proof Using "Type*".

Lemma insert_all_values kvs h k :
  hm_values k (insert_all kvs h) =
    match last (filter (λ x, x.1 = k) kvs).*2 with
    | Some v => [v]
    | None => hm_values k h
    end.
Proof.
  revert h. induction kvs as [|[k' v] kvs IH]; intros h; [done|].
  change (insert_all ((k', v) :: kvs) h) with (insert_all kvs (hm_insert k' v h)).
  rewrite IH, hm_insert_spec, filter_cons. simpl. case_decide; subst.
  - rewrite bool_decide_eq_true_2, fmap_cons, last_cons by done. by destruct (last _).
  - by rewrite bool_decide_eq_false_2.
Qed.

(** The headers of a request that the proxy passes on as they are. *)
Definition is_copied (name : str) : bool :=
  negb (str_eqb name (lit "host")) && negb (starts_with name (lit ":")).

Lemma copied_headers_values h k :
  hm_values k (copied_headers h) = if is_copied k then hm_values k h else [].
Proof.
  unfold copied_headers. rewrite <- (hm_iter_spec k h).
  assert (∀ l acc, hm_values k (foldl (λ acc '(key, value),
      if negb (str_eqb key (lit "host")) && negb (starts_with key (lit ":"))
      then hm_append key value acc else acc) acc l) =
    hm_values k acc ++ if is_copied k then (filter (λ x, x.1 = k) l).*2 else []) as Hgo.
  { induction l as [|[k' v] l IH]; intros acc; simpl.
    { case_if; by rewrite app_nil_r. }
    rewrite IH, filter_cons. simpl. fold (is_copied k').
    destruct (decide (k' = k)) as [->|Hne].
    - destruct (is_copied k) eqn:Hk; [|done].
      rewrite hm_append_spec, bool_decide_eq_true_2 by done.
      by rewrite <- app_assoc.
    - destruct (is_copied k'); [|done].
      by rewrite hm_append_spec, bool_decide_eq_false_2. }
  by rewrite Hgo, hm_new_spec.
Qed.
End headers.

(** ** What is sent upstream *)

Section forwarding.
Context `{HttpLaws} {CertifiedKey : Type}.
#[local] Set Default Proof Using "Type*".

(** The headers the proxy sets itself. *)
Definition own_headers : list str :=
  lit <$> ["host"; "x-forwarded-host"; "x-forwarded-proto"; "x-forwarded-for"; "x-real-ip"]%string.

Definition forwarded_chain (client_ip : str) (h : HeaderMap) : str :=
  match hm_get (lit "x-forwarded-for") h with
  | Some existing => existing ++ lit ", " ++ client_ip
  | None => client_ip
  end.

Lemma forwarded_for_Ok client_ip h v :
  forwarded_for client_ip h = Ok v → v = forwarded_chain client_ip h.
Proof.
  unfold forwarded_for, forwarded_chain. destruct (hm_get _ h) as [x|]; intros Hf; inv_ok;
    repeat match goal with
    | E : hv_from_str _ = Ok _ |- _ => apply hv_from_str_spec in E
    | E : hv_to_str _ = Some _ |- _ => apply hv_to_str_spec in E as [E _]
    end; by subst.
Qed.

Lemma original_host_Ok req v :
  original_host req = Ok v →
  v = match hm_get (lit "host") (req_headers req) with
      | Some host => Some host
      | None => uri_authority (req_uri req)
      end.
Proof.
  unfold original_host. destruct (hm_get _ _); intros Ho; [by inv_ok|].
  destruct (uri_authority _); inv_ok; [|done].
  match goal with E : hv_from_str _ = Ok _ |- _ => apply hv_from_str_spec in E end. by subst.
Qed.

(** A name the proxy does not set: the provider's value if it gave one, else the
    client's values. *)
Definition passed_on (name : str) (auth_headers client_headers : HeaderMap) : list str :=
  match last (hm_values name auth_headers) with
  | Some v => [v]
  | None => if is_copied name then hm_values name client_headers else []
  end.

(** The headers of the request sent upstream. *)
Lemma forwarded_headers_Ok client_ip auth_headers host h h' :
  forwarded_headers client_ip auth_headers host h = Ok h' →
  (∀ v, host = Some v → hm_values (lit "host") h' = [v] ∧
                        hm_values (lit "x-forwarded-host") h' = [v]) ∧
  hm_values (lit "x-forwarded-proto") h' = [lit "https"] ∧
  hm_values (lit "x-forwarded-for") h' = [forwarded_chain client_ip h] ∧
  hm_values (lit "x-real-ip") h' = [client_ip] ∧
  ∀ name, name ∉ own_headers → hm_values name h' = passed_on name auth_headers h.
Proof.
  unfold forwarded_headers. intros Hf. inv_ok.
  match goal with E : forwarded_for _ _ = Ok _ |- _ => apply forwarded_for_Ok in E as -> end.
  match goal with E : hv_from_str _ = Ok _ |- _ => apply hv_from_str_spec in E as -> end.
  assert (∀ k v (h : HeaderMap), hm_values k (hm_insert k v h) = [v]) as Hsame
    by (intros; by rewrite hm_insert_spec, bool_decide_eq_true_2).
  assert (∀ k v k' (h : HeaderMap), k ≠ k' → hm_values k' (hm_insert k v h) = hm_values k' h)
    as Hother by (intros; by rewrite hm_insert_spec, bool_decide_eq_false_2).
  split_and!.
  - intros v ->. split; by rewrite !Hother, Hsame by done.
  - by rewrite !Hother, Hsame by done.
  - by rewrite !Hother, Hsame by done.
  - by rewrite Hsame.
  - intros name Hname. unfold own_headers in Hname. cbn [fmap list_fmap] in Hname.
    rewrite !not_elem_of_cons in Hname. destruct Hname as (?&?&?&?&?&_).
    rewrite !Hother by congruence.
    unfold passed_on. rewrite <- (hm_iter_spec name auth_headers), <- copied_headers_values.
    destruct host; rewrite ?Hother by congruence; apply insert_all_values.
Qed.

Lemma forwarded_request_Ok m client_ip auth_headers limit req r :
  forwarded_request m client_ip auth_headers limit req = Ok r →
  ∃ host, original_host req = Ok host ∧
    forwarded_headers client_ip auth_headers host (req_headers req) = Ok (req_headers r).
Proof. unfold forwarded_request. intros Hf. inv_ok. eauto. Qed.

(** C19: The request sent upstream goes to the upstream's address with the
    rewritten path and the original query; it names the original host, appends the
    client's address to the forwarding chain, carries the headers of the auth
    provider in place of any the client sent under these names, and otherwise the
    client's headers.  Its body is never longer than the configured limit. *)
Theorem forwarded_request_spec (m : MatchedRoute) (client_ip : str) (auth_headers : HeaderMap)
    (limit : Z) (req r : Request) :
  forwarded_request m client_ip auth_headers limit req = Ok r →
  let host := match hm_get (lit "host") (req_headers req) with
              | Some host => Some host
              | None => uri_authority (req_uri req)
              end in
  uri_parse (lit "http://" ++ upstream_addr m ++ rewritten_path m ++
             match uri_query (req_uri req) with Some q => lit "?" ++ q | None => [] end) =
    Ok (req_uri r) ∧
  req_method r = req_method req ∧ req_version r = HTTP_11 ∧
  (∀ v, host = Some v → hm_values (lit "host") (req_headers r) = [v] ∧
                        hm_values (lit "x-forwarded-host") (req_headers r) = [v]) ∧
  hm_values (lit "x-forwarded-proto") (req_headers r) = [lit "https"] ∧
  hm_values (lit "x-forwarded-for") (req_headers r) = [forwarded_chain client_ip (req_headers req)] ∧
  hm_values (lit "x-real-ip") (req_headers r) = [client_ip] ∧
  (∀ name, name ∉ own_headers →
     hm_values name (req_headers r) = passed_on name auth_headers (req_headers req)) ∧
  (∀ bs, body_collect (req_body r) = Some bs →
     body_collect (req_body req) = Some bs ∧ Z.of_nat (length bs) ≤ limit).
Proof.
  intros Hf. destruct (forwarded_request_Ok _ _ _ _ _ _ Hf) as (host & Hhost & Hh).
  apply original_host_Ok in Hhost as ->. apply forwarded_headers_Ok in Hh as (H1 & H2 & H3 & H4 & H5).
  unfold forwarded_request in Hf. inv_ok. simpl in *.
  split_and!; try done.
  - match goal with E : uri_parse _ = Ok _ |- _ => rewrite <- E end. f_equal.
    unfold upstream_url, rewritten_path_and_query. destruct (uri_query _); [done|].
    by rewrite app_nil_r.
  - intros bs. rewrite body_limited_spec. intros (bs' & Hb & Hl)%bind_Some.
    case_bool_decide; by simplify_eq.
Qed.

(** The identity headers of the client are not removed: when the provider does not
    name a user, or the route is not protected at all, the client's own Remote-User
    reaches the upstream. *)
Theorem forged_identity_passes m client_ip auth_headers limit req r :
  forwarded_request m client_ip auth_headers limit req = Ok r →
  hm_values (lit "remote-user") auth_headers = [] →
  hm_values (lit "remote-user") (req_headers r) = hm_values (lit "remote-user") (req_headers req).
Proof.
  intros (host & _ & Hh)%forwarded_request_Ok Hno.
  apply forwarded_headers_Ok in Hh as (_ & _ & _ & _ & Hpass).
  rewrite Hpass by (by eapply bool_decide_unpack; vm_compute).
  unfold passed_on. by rewrite Hno.
Qed.
End forwarding.

(** ** The gates *)

Section gates.
Context `{HttpLaws} {CertifiedKey : Type}.
#[local] Set Default Proof Using "Type*".
Implicit Types (active : ActiveConfig CertifiedKey) (o : oracle).

(** The run of a handler from an empty history. *)
Definition run_request (o : oracle) (active : ActiveConfig CertifiedKey) (peer : SocketAddr)
    (is_proxy_protocol : bool) (req : Request) : handler_reply * list event :=
  let '(r, tr) := exec o [] (handle_request active peer is_proxy_protocol req) in
  (outcome_of r, tr).

(** Every request passes the security gate under an address: the client's
    address always parses, since it is the peer's unless a header of a proxied
    connection holds another one that parses.  Without a proxied connection no
    header has any influence on it. *)
Theorem gate_always_applies (peer : SocketAddr) (is_proxy_protocol : bool)
    (headers : HeaderMap) :
  ip_wf (ip peer) →
  ∃ i, parse_ip (resolve_client_ip peer is_proxy_protocol headers) = Some i ∧
    (is_proxy_protocol = false → i = ip peer).
Proof.
  intros Hwf. unfold resolve_client_ip. destruct is_proxy_protocol; cycle 1.
  { exists (ip peer). split; [|done]. by apply parse_ip_fmt. }
  destruct (header_ip client_ip_headers headers) as [s|] eqn:Hs; simpl; cycle 1.
  { exists (ip peer). split; [|done]. by apply parse_ip_fmt. }
  assert (is_Some (parse_ip s)) as [i Hi]; [|by exists i].
  revert Hs. generalize client_ip_headers as names.
  induction names as [|n names IH]; simpl; [done|].
  destruct (header_str n headers); [|auto]. destruct (parse_ip (ip_part n l)) eqn:Hp; [|auto].
  intros [= <-]. eauto.
Qed.

(** C26: A blacklisted client is answered with status 444 and a client over its
    rate limit with status 429 and a Retry-After of 60 seconds; in both cases
    nothing else happens: no lookup in the cache, no authentication, no request
    to the upstream. *)
Theorem gate_blocks o active peer is_proxy_protocol req i
    (client_ip := resolve_client_ip peer is_proxy_protocol (req_headers req))
    (sm := security_manager active) :
  parse_ip client_ip = Some i →
  let '(r, tr) := run_request o active peer is_proxy_protocol req in
  let asked := Event (IsBlacklistedE sm i) (o _ [] (IsBlacklistedE sm i)) in
  let counted := Event (CheckRequestE sm i) (o _ [asked] (CheckRequestE sm i)) in
  (o _ [] (IsBlacklistedE sm i) = Some true →
     actions tr = [asked] ∧ r = Some (Ok no_response_444) ∧ resp_status no_response_444 = 444) ∧
  (o _ [] (IsBlacklistedE sm i) = Some false →
   ∀ n, o _ [asked] (CheckRequestE sm i) = Some (Err n) →
     actions tr = [asked; counted] ∧
     ∃ resp, r = Some (Ok resp) ∧ resp_status resp = 429 ∧
       hm_values (lit "retry-after") (resp_headers resp) = [lit "60"]).
Proof.
  intros Hip. unfold run_request, handle_request, security_gate. cbn [v_client_ip request_vars].
  fold client_ip. fold sm. rewrite Hip. simpl.
  set (bl := o _ [] (IsBlacklistedE sm i)). destruct bl as [[]|] eqn:Hbl; simpl.
  - split; [|done]. intros _. unfold no_response_444. simpl. by rewrite status_from_u16_spec.
  - set (cnt := o _ _ (CheckRequestE sm i)). destruct cnt as [[n|n]|] eqn:Hcnt; simpl.
    + destruct (exec _ _ _) as [r tr]. split; [done|]. done.
    + split; [done|]. intros _ n' [= <-]. split; [done|].
      eexists. split; [done|]. unfold rate_limited, with_headers. simpl.
      rewrite hm_insert_spec, bool_decide_eq_true_2 by done. split; [|done].
      unfold error_response, build_error_response. by case_if.
    + by split.
  - by split.
Qed.
End gates.

(** ** What happens before what *)

Section traces.
Context `{HttpLaws} {CertifiedKey : Type}.
#[local] Set Default Proof Using "Type*".
Implicit Types (active : ActiveConfig CertifiedKey) (o : oracle) (hist tr : list event).

(** The provider was asked about this request and answered with a 2xx status. *)
Definition authenticated (tr : list event) : Prop :=
  ∃ r resp, Event (AuthRequestE r) (Ok resp) ∈ tr ∧ 200 ≤ resp_status resp < 300.

(** The provider of the configuration was asked about this very request and
    answered with a 2xx status and the headers [hs]; nobody is asked about a route
    that is not protected. *)
Definition vouched active (v : RequestVars) (req : Request) (m : MatchedRoute) (hs : HeaderMap)
    (tr : list event) : Prop :=
  if matched_auth_required m then
    ∃ p auth_uri r resp, auth_provider active = Some p ∧ uri_parse (auth_url p) = Ok auth_uri ∧
      auth_request auth_uri (v_client_ip v) (v_method v) (req_uri req) (req_headers req) = Ok r ∧
      Event (AuthRequestE r) (Ok resp) ∈ tr ∧ 200 ≤ resp_status resp < 300 ∧
      hs = success_headers (resp_headers resp)
  else hs = hm_new.

(** The upstream gave this answer. *)
Definition answered (resp : Response) (tr : list event) : Prop :=
  ∃ r, Event (UpstreamRequestE r) (Ok resp) ∈ tr.

(** The two effects the theorems below are about: a request to an upstream, and an
    insertion into the cache. *)
Definition is_tame X (e : effect X) : bool :=
  match e with UpstreamRequestE _ | SpawnE (InsertTask _ _ _ _ _ _ _ _) => false | _ => true end.

Lemma security_gate_tame active v : only is_tame (security_gate active v).
Proof. unfold security_gate. solve_only. Qed.

Lemma body_gate_tame limit v : only is_tame (body_gate limit v).
Proof. unfold body_gate. solve_only. Qed.

Lemma cache_lookup_tame engine matched v : only is_tame (cache_lookup engine matched v).
Proof. unfold cache_lookup. solve_only. Qed.

Lemma bypass_cache_tame engine exceeds v resp :
  only is_tame (bypass_cache engine exceeds v resp).
Proof. unfold bypass_cache. solve_only. Qed.

Lemma vouched_app active v req m hs tr tr' :
  vouched active v req m hs tr → vouched active v req m hs (tr ++ tr').
Proof.
  unfold vouched. case_if; [|done]. intros (p & u & r & resp & ? & ? & ? & ? & ? & ?).
  exists p, u, r, resp. set_solver.
Qed.

Lemma vouched_authenticated active v req m hs tr :
  vouched active v req m hs tr → matched_auth_required m = true → authenticated tr.
Proof.
  unfold vouched. intros Hv Ha. rewrite Ha in Hv.
  destruct Hv as (p & u & r & resp & _ & _ & _ & ? & ? & _). by exists r, resp.
Qed.

Lemma answered_app resp tr tr' : answered resp tr → answered resp (tr ++ tr').
Proof. intros (r & Hin). exists r. set_solver. Qed.

Section tame.
Context (I : list event → ∀ X, effect X → Prop).
Context (HI : ∀ hist X (e : effect X), is_tame X e = true → I hist X e).

(** After the auth gate the provider has vouched for the request. *)
Lemma wp_auth_gate active m v req hist Qr Q :
  (∀ r hist, Qr r hist) →
  (∀ h hist', vouched active v req m h hist' → Q h hist') →
  wp I (auth_gate active m v req) hist Qr Q.
Proof.
  intros HQr HQ. unfold auth_gate, vouched in *. destruct (matched_auth_required m); simpl;
    [|by apply HQ].
  destruct (auth_provider active) as [p|]; [|simpl; split; [by apply HI|auto]].
  apply wp_bind, wp_invoke. unfold authenticate.
  destruct (uri_parse (auth_url p)) as [auth_uri|] eqn:Hu; simpl; [|split; [by apply HI|auto]].
  split; [by apply HI|]. intros ?.
  destruct (auth_request _ _ _ _ _) as [r|] eqn:Hr; simpl; [|split; [by apply HI|auto]].
  split; [by apply HI|]. intros answer.
  destruct (log_verdict_line (R := result str AuthResult) p (v_client_ip v)
    (authority_or_host (req_uri req) (req_headers req)) answer) as [rec ->]. simpl.
  split; [by apply HI|]. intros ?.
  destruct answer as [resp|e]; simpl; [|split; [by apply HI|auto]].
  unfold classify. rewrite status_is_success_spec. case_bool_decide as Hs; simpl; cycle 1.
  { split; [by apply HI|auto]. }
  case_match; simpl; [|split; [by apply HI|]; intros ?];
    apply HQ; exists p, auth_uri, r, resp; set_solver.
Qed.

(** What is done with the upstream's answer: only an insertion needs a reason. *)
Lemma wp_upstream_answer active engine m upgrade v resp hist (Qr : handler_reply → list event → Prop) Q :
  answered resp hist → (∀ r hist, Qr r hist) → (∀ r hist, Q r hist) →
  (∀ hist loc exceeds body, engine = Some loc → answered resp hist →
     body_collect (resp_body resp) = Some body →
     is_storable exceeds (v_path_and_query v) resp = true →
     I hist _ (SpawnE (InsertTask loc (cache_key (v_host v) (v_path_and_query v))
       (resp_status resp) (resp_headers resp) body (v_client_ip v) (v_host v)
       (v_path_and_query v)))) →
  wp I (upstream_answer active engine m upgrade v resp) hist Qr Q.
Proof.
  intros Hans HQr HQ HI7. unfold upstream_answer.
  case_if; [simpl; split; [by apply HI|auto]|]. case_if; [simpl; split; [by apply HI|auto]|].
  apply wp_bind, (wp_only is_tame); auto.
  { unfold exceeds_max_file_size. solve_only. }
  intros exceeds tr. assert (answered resp (hist ++ tr)) as Hans' by (by apply answered_app).
  destruct engine as [loc|];
    [case_if|]; [|apply (wp_only is_tame); auto using bypass_cache_tame..].
  unfold store_response.
  destruct (body_collect (resp_body resp)) as [body|] eqn:Hb; simpl; [|auto].
  split; [by eapply HI7|auto].
Qed.

(** The whole handler: the gates and the lookup are free of charge, what is left is
    the part after the auth gate. *)
Lemma wp_handle_request active peer pp req
    (v := request_vars peer pp req)
    (matched := match_route (router active) (v_host v) (v_path v))
    (engine := request_engine active matched (req_method req)) :
  (∀ m hs hist r, matched = Some m → vouched active v req m hs hist →
     forwarded_request m (v_client_ip v) hs (max_body active) req = Ok r →
     I hist _ (UpstreamRequestE r)) →
  (∀ m hist loc exceeds resp body, matched = Some m → engine = Some loc → answered resp hist →
     body_collect (resp_body resp) = Some body →
     is_storable exceeds (v_path_and_query v) resp = true →
     I hist _ (SpawnE (InsertTask loc (cache_key (v_host v) (v_path_and_query v))
       (resp_status resp) (resp_headers resp) body (v_client_ip v) (v_host v)
       (v_path_and_query v)))) →
  wp I (handle_request active peer pp req) [] (λ _ _, True) (λ _ _, True).
Proof.
  intros HI6 HI7. unfold handle_request. fold v.
  apply wp_bind, (wp_only is_tame); auto using security_gate_tame. intros ? hist1.
  apply wp_bind, (wp_only is_tame); auto using body_gate_tame. intros ? hist2.
  apply wp_bind, (wp_only is_tame); auto using cache_lookup_tame. intros ? hist3.
  fold matched. fold engine. generalize (((([] ++ hist1) ++ hist2) ++ hist3)) as hist. intros hist.
  apply wp_bind.
  assert (∀ r hist, wp I (finish_request matched v r) hist (λ _ _, True) (λ _ _, True)) as Hend.
  { intros r hist'. apply (wp_only is_tame); auto. unfold finish_request. solve_only. }
  destruct matched as [m|] eqn:Hm; cycle 1.
  { apply (wp_only is_tame); auto. unfold no_matching_route. solve_only. }
  unfold forward. apply wp_bind, wp_auth_gate; auto. intros h hist4 Hauth.
  apply wp_bind. destruct (forwarded_request _ _ _ _ _) as [r|e] eqn:Hr; simpl; [|done].
  split; [by eapply HI6|]. intros [resp|e]; cbn -[upstream_answer]; cycle 1.
  { split; [by apply HI|]. intros ?. apply Hend. }
  apply wp_upstream_answer; auto; [exists r; set_solver|]. intros. by eapply HI7.
Qed.
End tame.

(** No request is forwarded to the upstream of a protected route unless the
    auth provider was asked before and answered with a 2xx status. *)
Theorem auth_before_upstream o active peer pp req m pre r answer post :
  match_route (router active) (authority_or_host (req_uri req) (req_headers req))
    (uri_path (req_uri req)) = Some m →
  matched_auth_required m = true →
  (run_request o active peer pp req).2 = pre ++ Event (UpstreamRequestE r) answer :: post →
  authenticated pre.
Proof.
  intros Hm Hauth Htr.
  set (I := λ (hist : list event) X (e : effect X),
    match e with UpstreamRequestE _ => authenticated hist | _ => True end).
  assert (wp I (handle_request active peer pp req) [] (λ _ _, True) (λ _ _, True)) as Hwp.
  { apply wp_handle_request; [by intros ? ? []| |done]. intros m' hs hist r' Hm' Hv _. simpl in *.
    rewrite Hm in Hm'. simplify_eq. by eapply vouched_authenticated. }
  unfold run_request in Htr. destruct (exec o [] _) as [res tr] eqn:He. simpl in Htr.
  pose proof (wp_trace _ _ [] _ _ o pre _ (UpstreamRequestE r) answer post Hwp) as HI.
  rewrite He in HI. exact (HI Htr).
Qed.

(** What may be stored after the events [hist] of a handler. *)
Definition stored_by active (req : Request) hist (loc : nat) (key : str) (status : Z)
    (headers : HeaderMap) (body : str)
    (host := authority_or_host (req_uri req) (req_headers req))
    (pq := path_and_query_or_root (req_uri req)) : Prop :=
  key = host ++ lit ":" ++ pq ∧ status = 200 ∧
  (req_method req = lit "GET" ∨ req_method req = lit "HEAD") ∧
  (∃ m, match_route (router active) host (uri_path (req_uri req)) = Some m ∧
        matched_cache m ≠ Some false) ∧
  cache_engine active = Some loc ∧
  is_static_asset pq (header_str (lit "content-type") headers) = true ∧
  (∀ cc, header_str (lit "cache-control") headers = Some cc →
     contains cc (lit "no-store") = false ∧ contains cc (lit "private") = false) ∧
  ∃ resp, answered resp hist ∧ resp_status resp = status ∧ resp_headers resp = headers ∧
    body_collect (resp_body resp) = Some body.

Lemma is_storable_spec exceeds pq resp :
  is_storable exceeds pq resp = true →
  resp_status resp = 200 ∧
  is_static_asset pq (header_str (lit "content-type") (resp_headers resp)) = true ∧
  (∀ cc, header_str (lit "cache-control") (resp_headers resp) = Some cc →
     contains cc (lit "no-store") = false ∧ contains cc (lit "private") = false).
Proof.
  unfold is_storable, is_no_store, is_static_answer.
  rewrite !andb_true_iff, !negb_true_iff, orb_false_iff, Z.eqb_eq.
  intros [[[Hs [Hn1 Hn2]] _] H200]. split_and!; [done..|].
  intros cc Hcc. by rewrite Hcc in Hn1, Hn2.
Qed.

Lemma wp_stored active peer pp req :
  wp (λ hist X (e : effect X), match e with
      | SpawnE (InsertTask loc key status headers body _ _ _) =>
          stored_by active req hist loc key status headers body
      | _ => True
      end) (handle_request active peer pp req) [] (λ _ _, True) (λ _ _, True).
Proof.
  apply wp_handle_request; [|by intros|].
  - intros ? ? []; try done. by destruct t.
  - intros m hist loc exceeds resp body Hm Hen Hans Hb Hst.
    apply is_storable_spec in Hst as (H200 & Hs & Hcc). rewrite Hm in Hen.
    unfold request_engine in Hen. simpl in Hen. case_if; [|done].
    match goal with E : _ && _ = true |- _ => apply andb_true_iff in E as [Hc Hmeth] end. apply orb_true_iff in Hmeth.
    rewrite !str_eqb_true in Hmeth. split_and!; try done.
    + exists m. split; [done|]. intros Hf. by rewrite Hf in Hc.
    + exists resp. done.
Qed.

(** C20: What is stored in the cache is the complete body of a 200 answer of the
    upstream, not marked no-store or private, for a GET or HEAD request of a
    cacheable path, under the key of this request's host and path, while a cache
    is configured and not switched off for the route. *)
Theorem stored_responses o active peer pp req pre loc key status headers body ip host_ path_ x post
    (host := authority_or_host (req_uri req) (req_headers req))
    (pq := path_and_query_or_root (req_uri req)) :
  (run_request o active peer pp req).2 =
    pre ++ Event (SpawnE (InsertTask loc key status headers body ip host_ path_)) x :: post →
  key = host ++ lit ":" ++ pq ∧ status = 200 ∧
  (req_method req = lit "GET" ∨ req_method req = lit "HEAD") ∧
  (∃ m, match_route (router active) host (uri_path (req_uri req)) = Some m ∧
        matched_cache m ≠ Some false) ∧
  cache_engine active = Some loc ∧
  is_static_asset pq (header_str (lit "content-type") headers) = true ∧
  (∀ cc, header_str (lit "cache-control") headers = Some cc →
     contains cc (lit "no-store") = false ∧ contains cc (lit "private") = false) ∧
  ∃ resp, answered resp pre ∧ resp_status resp = status ∧ resp_headers resp = headers ∧
    body_collect (resp_body resp) = Some body.
Proof.
  intros Htr. unfold run_request in Htr.
  destruct (exec o [] _) as [res tr] eqn:He. simpl in Htr.
  pose proof (wp_trace _ _ [] _ _ o pre _
    (SpawnE (InsertTask loc key status headers body ip host_ path_)) x post
    (wp_stored active peer pp req)) as HI.
  rewrite He in HI. exact (HI Htr).
Qed.

(** *** Answers *)

(** A response that went through the end of the handler, forwarded from the
    upstream or made up because no route matched or the upstream was unreachable,
    has each of the four security headers, once and with the configured value. *)
Theorem forwarded_responses_hardened o active peer pp req r tr :
  exec o [] (handle_request active peer pp req) = (inr r, tr) →
  ∃ resp, r = Some (Ok resp) ∧
    Forall (λ '(k, v), hm_values k (resp_headers resp) = [v]) security_headers.
Proof.
  intros He.
  assert (wp (λ _ _ _, True) (handle_request active peer pp req) [] (λ _ _, True)
    (λ r _, ∃ resp, r = Some (Ok resp) ∧
       Forall (λ '(k, v), hm_values k (resp_headers resp) = [v]) security_headers)) as Hwp.
  { unfold handle_request. do 4 (apply wp_bind, wp_any; [done|]; intros).
    simpl. split; [done|]. intros d. split; [done|]. intros _. eexists. split; [done|]. simpl.
    unfold inject_security_headers, security_headers.
    repeat (apply Forall_cons; split; [by rewrite insert_all_values|]). constructor. }
  apply (wp_exec _ _ _ _ _ o) in Hwp. rewrite He in Hwp. done.
Qed.

(** A cached answer is served without authentication, whatever the route
    requires: once the gates are passed and the cache holds the key, the provider
    is not asked. *)
Theorem cached_answer_skips_auth o active peer pp req i n loc cached
    (host := authority_or_host (req_uri req) (req_headers req))
    (pq := path_and_query_or_root (req_uri req)) (sm := security_manager active)
    (asked := Event (IsBlacklistedE sm i) (Some false))
    (counted := Event (CheckRequestE sm i) (Some (Ok n)))
    (found := Event (CacheGetE loc (cache_key host pq)) (Some cached)) :
  parse_ip (resolve_client_ip peer pp (req_headers req)) = Some i →
  o _ [] (IsBlacklistedE sm i) = Some false → o _ [asked] (CheckRequestE sm i) = Some (Ok n) →
  content_length (req_headers req) = None →
  request_engine active (match_route (router active) host (uri_path (req_uri req)))
    (req_method req) = Some loc →
  o _ [asked; counted] (CacheGetE loc (cache_key host pq)) = Some cached →
  let '(r, tr) := run_request o active peer pp req in
  r = Some (Ok (hit_response cached)) ∧ actions tr = [asked; counted; found].
Proof.
  intros Hip Hb Hc Hcl Hen Hg. unfold run_request, handle_request, security_gate, body_gate.
  cbn [v_client_ip v_req_headers v_host v_path request_vars]. rewrite Hip, Hcl. fold sm. simpl.
  rewrite Hb. simpl. fold asked. rewrite Hc. simpl. fold counted. fold host pq.
  rewrite Hen. cbn -[cache_key]. fold host pq. rewrite Hg. done.
Qed.
End traces.

(** The usual shape of what a key is made of: a host without a slash, and a path that
    starts with one. *)
Definition plain_target (host pq : str) : Prop := (slash ∉ host) ∧ head pq = Some slash.

(** Between such, a key determines both. *)
Lemma cache_key_inj host pq host' pq' :
  plain_target host pq → plain_target host' pq' → cache_key host pq = cache_key host' pq' →
  host = host' ∧ pq = pq'.
Proof.
  intros [Hh Hp] [Hh' Hp'] Heq. destruct pq as [|c pq], pq' as [|c' pq']; simplify_eq/=.
  assert (∀ h, slash ∉ h → slash ∉ h ++ lit ":") as Hcolon.
  { intros h Hn [?|Hin]%elem_of_app; [done|]. by apply list_elem_of_singleton in Hin. }
  unfold cache_key in Heq. rewrite !(app_assoc _ (lit ":")) in Heq.
  pose proof (f_equal (find_char slash) Heq) as Hlen. rewrite !find_char_app in Hlen by auto.
  injection Hlen as Hlen. apply app_inj_1 in Heq as [Hkey Hrest]; [|done].
  apply app_inj_2 in Hkey as [-> _]; [|done]. done.
Qed.

(** Otherwise it does not: a host with a slash in it can take over a part of the path,
    and share its key with a request for another host. *)
Theorem cache_keys_collide (host dir pq : str) :
  cache_key host (lit "/" ++ dir ++ lit ":" ++ pq) = cache_key (host ++ lit ":/" ++ dir) pq.
Proof. unfold cache_key. by rewrite <- !app_assoc. Qed.

(** A dynamic page is taken for a static asset when its query ends in a static
    extension, whatever its content type. *)
Theorem query_decides_static (path content_type : str) :
  is_uncacheable_entrypoint (path ++ lit "?x=.css") = false →
  is_static_asset (path ++ lit "?x=.css") (Some content_type) = true.
Proof.
  intros Hun. unfold is_static_asset. rewrite Hun.
  assert (existsb (ends_with (to_lowercase (path ++ lit "?x=.css"))) static_extensions = true)
    as ->; [|done].
  apply existsb_exists. exists (lit ".css"). split; [by left|].
  unfold to_lowercase. rewrite fmap_app, ends_with_true.
  exists ((to_lower <$> path) ++ lit "?x="). by rewrite <- app_assoc.
Qed.

(** ** Examples *)

(** Both requests have the same route and the same key. *)
Example colliding_requests :
  let r := MkRouter [MkRoute (lit "http://a") (lit "http://c/") false None None None None] in
  is_Some (match_route r (lit "a") (lit "/x:/y.css")) ∧
  is_Some (match_route r (lit "a:/x") (lit "/y.css")) ∧
  cache_key (lit "a") (lit "/x:/y.css") = cache_key (lit "a:/x") (lit "/y.css").
Proof. vm_compute. eauto. Qed.

Section proxy_witnesses.
#[local] Existing Instance SimpleHttp.

Definition shop_route : Route :=
  MkRoute (lit "http://a.b/") (lit "http://c:1/") true None None None None.

Definition shop_config : ActiveConfig unit :=
  MkActiveConfig 0 (MkRouter [shop_route]) None None None 0
    (Some (MkForwardAuthProvider (lit "http://auth/"))) None (Some 0%nat) false.

Definition shop_request : Request :=
  MkRequest (lit "GET") (MkUri None (lit "/x.css") None (Some (lit "/x.css"))) (lit "HTTP/1.1")
    [(lit "host", lit "a.b"); (lit "x-forwarded-for", lit "9.9.9.9")] (Some []).

Definition shop_peer : SocketAddr := MkSocketAddr (V4 1 2 3 4) 5000.

(** Everybody answers as hoped for. *)
Definition kind_oracle : oracle :=
  calm_oracle (Ok (MkResponse 200 [(lit "remote-user", lit "kim")] (Some [])))
    (Ok (MkResponse 200 [] (Some (lit "body")))).

(** The client is over its limit. *)
Definition strict_oracle : oracle := λ X hist e,
  match e in effect X return X with
  | CheckRequestE _ _ => Some (Err 61)
  | e => kind_oracle _ hist e
  end.

Definition shop_match : MatchedRoute := route_result (lit "/x.css") shop_route.

Definition shop_forwarded : Request :=
  match forwarded_request shop_match (lit "1.2.3.4") [(lit "remote-user", lit "kim")] 10485760
          shop_request with
  | Ok r => r
  | Err _ => shop_request
  end.

Definition shop_trace : list event :=
  (run_request kind_oracle shop_config shop_peer false shop_request).2.

Lemma forwarded_request_spec_witness :
  hm_values (lit "x-forwarded-for") (req_headers shop_forwarded) = [lit "9.9.9.9, 1.2.3.4"].
Proof.
  refine (proj1 (proj2 (proj2 (proj2 (proj2 (proj2 (forwarded_request_spec shop_match
    (lit "1.2.3.4") [(lit "remote-user", lit "kim")] 10485760 shop_request shop_forwarded _))))))).
  reflexivity.
Defined.

Lemma gate_always_applies_witness :
  ∃ i, parse_ip (resolve_client_ip shop_peer false (req_headers shop_request)) = Some i ∧
    (false = false → i = ip shop_peer).
Proof.
  apply (gate_always_applies shop_peer false (req_headers shop_request)).
  repeat split; unfold u8_max; lia.
Defined.

Lemma gate_blocks_witness :
  ∃ resp, (run_request strict_oracle shop_config shop_peer false shop_request).1 =
    Some (Ok resp) ∧ resp_status resp = 429 ∧
    hm_values (lit "retry-after") (resp_headers resp) = [lit "60"].
Proof.
  pose proof (gate_blocks strict_oracle shop_config shop_peer false shop_request
    (V4 1 2 3 4) ltac:(reflexivity)) as Hgate.
  destruct (run_request strict_oracle shop_config shop_peer false shop_request) as [r tr].
  exact (proj2 (proj2 Hgate eq_refl 61 eq_refl)).
Defined.

Lemma auth_before_upstream_witness : authenticated (take 7 shop_trace).
Proof.
  apply (auth_before_upstream kind_oracle shop_config shop_peer false shop_request
    shop_match (take 7 shop_trace) shop_forwarded (Ok (MkResponse 200 hm_new (body_full (lit "body"))))
    (drop 8 shop_trace)); reflexivity.
Defined.

Lemma stored_responses_witness :
  lit "a.b:/x.css" = lit "a.b" ++ lit ":" ++ lit "/x.css" ∧ 200 = 200.
Proof.
  pose proof (stored_responses kind_oracle shop_config shop_peer false shop_request
    (take 8 shop_trace) 0%nat (lit "a.b:/x.css") 200 hm_new (lit "body") (lit "1.2.3.4") (lit "a.b")
    (lit "/x.css") tt (drop 9 shop_trace)) as Hstored.
  destruct Hstored as (Hkey & Hstatus & _); [reflexivity|]. exact (conj Hkey Hstatus).
Defined.

Lemma forwarded_responses_hardened_witness :
  ∃ resp, (run_request kind_oracle shop_config shop_peer false shop_request).1 =
      Some (Ok resp) ∧
    Forall (λ '(k, v), hm_values k (resp_headers resp) = [v]) security_headers.
Proof.
  apply (forwarded_responses_hardened kind_oracle shop_config shop_peer false
    shop_request _ shop_trace). reflexivity.
Defined.

End proxy_witnesses.
