(* ===== verification/AccessLog.v ===== *)
(** * What the access log promises

    The `request` lines of [handle_request]: how many there are, which status they
    report, and that no client can break out of its line. *)

From S2P Require Import Prelude RustStr NetAddr Log Config Comments Parser ParserSpec Router Security Cache ProxyProtocol Http Effects ErrorPages Auth Tls Runtime Proxy ProxySpec.

(** ** Reading records *)

(** The first value under a key *)
Fixpoint field (k : str) (kv : list (str * str)) : option str :=
  match kv with
  | [] => None
  | (k', v) :: kv' => if str_eqb k k' then Some v else field k kv'
  end.

Definition is_request (r : LogRecord) : bool := str_eqb (log_name r) (lit "request").

(** The lines of the access log among records. *)
Definition requests (rs : list LogRecord) : list LogRecord :=
  filter (λ r, is_request r = true) rs.

Lemma requests_app rs rs' : requests (rs ++ rs') = requests rs ++ requests rs'.
Proof. apply filter_app. Qed.

Section access_log.
Context `{HttpLaws} {CertifiedKey : Type}.
#[local] Set Default Proof Using "Type*".
Implicit Types (active : ActiveConfig CertifiedKey) (o : oracle) (hist tr : list event).

Definition access tr : list LogRecord := requests (log_records tr).

Lemma access_app tr tr' : access (tr ++ tr') = access tr ++ access tr'.
Proof. unfold access, log_records. by rewrite omap_app, requests_app. Qed.

(** ** Stages without a line in the access log *)

Definition is_silent X (e : effect X) : bool :=
  match e with LogE r => negb (is_request r) | _ => true end.

Lemma access_silent tr : Forall (event_in is_silent) tr → access tr = [].
Proof.
  induction 1 as [|[X e x] tr Hev _ IH]; [done|].
  change (Event e x :: tr) with ([Event e x] ++ tr). rewrite access_app, IH, app_nil_r.
  destruct e; try done.
  unfold access, requests, log_records. simpl in *. apply negb_true_iff in Hev.
  rewrite filter_cons, Hev. done.
Qed.

Lemma body_gate_silent limit v : only is_silent (body_gate limit v).
Proof. unfold body_gate. solve_only. Qed.

Lemma log_verdict_silent {R} p client_ip host answer :
  only is_silent (log_verdict (R := R) p client_ip host answer).
Proof. unfold log_verdict. solve_only. Qed.

Lemma auth_gate_silent active m v req : only is_silent (auth_gate active m v req).
Proof.
  unfold auth_gate. cbn [provider_authenticate forward_auth_provider]. unfold authenticate. solve_only; try apply log_verdict_silent; solve_only.
Qed.

Lemma forward_silent active engine m v req : only is_silent (forward active engine m v req).
Proof.
  unfold forward. apply only_bind; [apply auth_gate_silent|]. intros h.
  unfold try_, upstream_answer, exceeds_max_file_size, store_response, bypass_cache. solve_only.
Qed.

Lemma no_matching_route_silent active v : only is_silent (no_matching_route active v).
Proof. unfold no_matching_route. solve_only. Qed.

(** ** How many lines *)

(** The line of a request reports this status, for this client. *)
Definition reports (v : RequestVars) (status : Z) (r : LogRecord) : Prop :=
  field (lit "status") (log_kv r) = Some (fmt status) ∧
  field (lit "client_ip") (log_kv r) = Some (v_client_ip v) ∧
  field (lit "host") (log_kv r) = Some (v_host v) ∧
  field (lit "path") (log_kv r) = Some (v_path_and_query v).

(** An answer and the access log agree. *)
Definition accounted (v : RequestVars) (reply : handler_reply) (rs : list LogRecord) : Prop :=
  match reply with
  | Some (Ok resp) => ∃ r, rs = [r] ∧ reports v (resp_status resp) r
  | _ => rs = []
  end.

Lemma wp_log_request (I : list event → ∀ X, effect X → Prop) v status duration upstream hist
    (Qr : handler_reply → list event → Prop) Q :
  (∀ hist r, I hist _ (LogE r)) → access hist = [] →
  (∀ tr r, access tr = [r] → reports v status r → Q tt tr) →
  wp I (log_request v status duration upstream) hist Qr Q.
Proof.
  intros HI Hno HQ. simpl. split; [apply HI|]. intros []. eapply HQ.
  - by rewrite access_app, Hno.
  - split_and!; reflexivity.
Qed.

(** One effect that is not a line of the access log. *)
Lemma wp_silent_trigger {R X} (e : effect X) hist (Qr : R → list event → Prop) Q :
  is_silent X e = true → access hist = [] → (∀ x tr, access tr = [] → Q x tr) →
  wp (λ _ _ _, True) (trigger e) hist Qr Q.
Proof.
  intros He Hno HQ. apply wp_trigger; [done|]. intros x. apply HQ.
  rewrite access_app, Hno. apply access_silent. by repeat constructor.
Qed.

Lemma wp_security_gate_access active v hist Qr Q :
  access hist = [] →
  (∀ r tr, access tr = [] ∨ accounted v r (access tr) → Qr r tr) →
  (∀ tr, access tr = [] → Q tt tr) →
  wp (λ _ _ _, True) (security_gate active v) hist Qr Q.
Proof.
  intros Hno HQr HQ. unfold security_gate. destruct (parse_ip _) as [i|]; [|by apply HQ].
  apply wp_bind, wp_silent_trigger; [done..|]. intros bl h1 H1.
  destruct bl as [[]|]; apply wp_bind || (by apply HQr; left).
  { apply wp_silent_trigger; [done..|]. intros ? h2 H2. by apply HQr; left. }
  apply wp_silent_trigger; [done..|]. intros cnt h2 H2.
  destruct cnt as [[n|n]|]; [by apply HQ| |by apply HQr; left].
  apply wp_bind, wp_silent_trigger; [done..|]. intros ? h3 H3.
  apply wp_bind, wp_silent_trigger; [done..|]. intros d h4 H4.
  apply wp_bind, wp_log_request; [done..|].
  intros tr r Htr Hr. simpl. apply HQr. right. exists r. split; [done|].
  replace (resp_status (rate_limited v)) with 429; [done|].
  unfold rate_limited, error_response, build_error_response. by case_if.
Qed.

Lemma wp_cache_lookup_access engine matched v hist Qr Q :
  access hist = [] →
  (∀ r tr, accounted v r (access tr) → Qr r tr) → (∀ tr, access tr = [] → Q tt tr) →
  wp (λ _ _ _, True) (cache_lookup engine matched v) hist Qr Q.
Proof.
  intros Hno HQr HQ. unfold cache_lookup, cache_stats.
  destruct engine as [loc|]; [|by apply HQ].
  apply wp_bind, wp_silent_trigger; [done..|]. intros [cached|] h1 H1; [|by apply HQ].
  apply wp_bind, wp_silent_trigger; [done..|]. intros d h2 H2.
  apply wp_bind. do 3 (apply wp_bind, wp_silent_trigger; [done..|]; intros ? ? ?).
  apply wp_ret, wp_bind, wp_silent_trigger; [done..|]. intros ? ? ?.
  apply wp_bind, wp_log_request; [done..|].
  intros h r Hh Hr. simpl. apply HQr. by exists r.
Qed.

(** C21: The access log is complete and truthful: a request that reaches the end of
    the handler leaves exactly one line, with the status that is answered and the
    client, host and path the handler worked with.  An answer given earlier leaves
    such a line or none, and a request without an answer leaves none. *)
Theorem access_log_truthful o active peer pp req (v := request_vars peer pp req) :
  let '(result, tr) := exec o [] (handle_request active peer pp req) in
  match result with
  | inr reply => accounted v reply (access tr)
  | inl reply => access tr = [] ∨ accounted v reply (access tr)
  end.
Proof.
  assert (wp (λ _ _ _, True) (handle_request active peer pp req) []
    (λ r tr, access tr = [] ∨ accounted v r (access tr))
    (λ r tr, accounted v r (access tr))) as Hwp; cycle 1.
  { apply (wp_exec _ _ _ _ _ o) in Hwp. by destruct (exec _ _ _) as [[] tr]. }
  unfold handle_request. fold v.
  apply wp_bind, wp_security_gate_access; [done|done|]. intros h1 H1.
  apply wp_bind, (wp_only_events is_silent); [apply body_gate_silent|done|..].
  { intros r tr Htr. left. by rewrite access_app, H1, access_silent. }
  intros [] tr1 Htr1.
  apply wp_bind, wp_cache_lookup_access; [by rewrite access_app, H1, access_silent|by right|].
  intros h2 H2.
  apply wp_bind, (wp_only_events is_silent); [|done|..].
  { case_match; [apply forward_silent|apply no_matching_route_silent]. }
  { intros r tr Htr. left. by rewrite access_app, H2, access_silent. }
  intros resp tr2 Htr2. unfold finish_request.
  apply wp_bind, wp_silent_trigger; [done|by rewrite access_app, H2, access_silent|].
  intros d h3 H3. apply wp_bind, wp_log_request; [done..|].
  intros tr r Htr Hr. simpl. by exists r.
Qed.

(** ** No client breaks out of its line *)

Lemma visible_one_line s : forallb visible s = true → one_line s.
Proof.
  intros Hv Hin. rewrite forallb_forall in Hv. apply list_elem_of_In, Hv in Hin.
  by vm_compute in Hin.
Qed.

Lemma digits_one_line s : Forall (λ c, is_ascii_digit c = true) s → one_line s.
Proof. intros Hd Hin. rewrite Forall_forall in Hd. by apply Hd in Hin. Qed.

Lemma fmt_one_line n : one_line (fmt n).
Proof. apply digits_one_line, fmt_digits. Qed.

Lemma hex_char_not_newline d : 0 ≤ d < 16 → hex_char d ≠ newline.
Proof.
  intros Hd Heq%(f_equal code). revert Heq. unfold hex_char, newline.
  case_if; rewrite !code_chr; lia.
Qed.

Lemma fmt_hex_one_line n : one_line (fmt_hex n).
Proof.
  unfold fmt_hex.
  assert (∀ fuel n acc, one_line acc → one_line (fmt_hex_go fuel n acc)) as Hgo.
  { induction fuel as [|f IH]; intros n' acc Hacc; [done|]. cbn [fmt_hex_go].
    assert (one_line (hex_char (n' `mod` 16) :: acc)) as Hcons.
    { unfold one_line. rewrite not_elem_of_cons. split; [|done].
      apply not_eq_sym, hex_char_not_newline, Z.mod_pos_bound. lia. }
    case_if; auto. }
  apply Hgo. unfold one_line. set_solver.
Qed.

Lemma fmt_ipv4_one_line a b c d : one_line (fmt_ipv4 a b c d).
Proof.
  unfold fmt_ipv4.
  repeat (rewrite ?one_line_app; first [apply conj|apply fmt_one_line|
    unfold one_line at 1; rewrite not_elem_of_cons; split; [done|];
    match goal with |- newline ∉ ?s => change (one_line s) end]).
Qed.

Lemma fmt_subslice_one_line l : one_line (fmt_subslice l).
Proof.
  destruct l as [|x l]; [by unfold one_line; set_solver|]. simpl. apply one_line_app.
  split; [apply fmt_hex_one_line|]. induction l as [|y l IH]; [by unfold one_line; set_solver|].
  simpl. change (one_line ((colon :: fmt_hex y) ++ concat ((λ s, colon :: fmt_hex s) <$> l))).
  apply one_line_app. split; [|exact IH]. unfold one_line. rewrite not_elem_of_cons.
  split; [done|apply fmt_hex_one_line].
Qed.

Lemma ip_to_string_one_line i : one_line (ip_to_string i).
Proof.
  destruct i as [a b c d|l]; simpl; [apply fmt_ipv4_one_line|]. unfold fmt_ipv6.
  repeat case_match; rewrite ?one_line_app; split_and?;
    auto using fmt_subslice_one_line, fmt_ipv4_one_line; by eapply bool_decide_unpack; vm_compute.
Qed.

Lemma addr_to_string_one_line a : one_line (addr_to_string a).
Proof.
  unfold addr_to_string. case_match; rewrite !one_line_app;
    split_and!; auto using ip_to_string_one_line, fmt_one_line;
    by eapply bool_decide_unpack; vm_compute.
Qed.

Lemma header_str_one_line name h s : header_str name h = Some s → one_line s.
Proof.
  unfold header_str. intros (x & _ & [_ Hv]%hv_to_str_spec)%bind_Some.
  by apply visible_one_line.
Qed.

Lemma header_or_dash_one_line name h : one_line (header_or_dash name h).
Proof.
  unfold header_or_dash. destruct (header_str name h) as [s|] eqn:Hs; simpl.
  - by eapply header_str_one_line.
  - by eapply bool_decide_unpack; vm_compute.
Qed.

Lemma trim_one_line s : one_line s → one_line (trim s).
Proof.
  unfold one_line, trim. intros Hs Hin. apply Hs.
  destruct (drop_while_end_prefix is_whitespace (drop_while is_whitespace s)) as (t & Ht & _).
  destruct (drop_while_suffix is_whitespace s) as (u & Hu & _).
  rewrite Hu, elem_of_app. right. rewrite Ht, elem_of_app. by left.
Qed.

Lemma split_char_one_line s c x : one_line s → x ∈ split_char s c → one_line x.
Proof.
  unfold one_line. intros Hs Hx Hin. revert Hs x Hx Hin. unfold split_char.
  induction s as [|d s IH]; intros Hs x Hx Hin; simpl in Hx.
  { apply list_elem_of_singleton in Hx as ->. done. }
  apply not_elem_of_cons in Hs as [Hne Hs]. specialize (IH Hs). case_if.
  { apply elem_of_cons in Hx as [->|Hx]; [by apply elem_of_nil in Hin|by apply (IH x)]. }
  destruct (split_by (Ascii.eqb c) s) as [|w ws] eqn:E.
  { by apply split_by_nonnil in E. }
  apply elem_of_cons in Hx as [->|Hx]; [|apply (IH x); [by right|done]].
  apply elem_of_cons in Hin as [Hd|Hin]; [done|apply (IH w); [by left|done]].
Qed.

Lemma resolve_client_ip_one_line peer pp h : one_line (resolve_client_ip peer pp h).
Proof.
  unfold resolve_client_ip. destruct pp; [|apply ip_to_string_one_line].
  destruct (header_ip client_ip_headers h) as [s|] eqn:Hs; simpl; [|apply ip_to_string_one_line].
  revert Hs. generalize client_ip_headers. induction l as [|n ns IH]; simpl; [done|].
  destruct (header_str n h) as [x|] eqn:Hx; [|done]. destruct (parse_ip _); [|done].
  intros [= <-]. apply header_str_one_line in Hx. unfold ip_part.
  case_if; apply trim_one_line; [|done].
  destruct (split_char x ","%char) as [|w ws] eqn:E; simpl; [done|].
  eapply split_char_one_line; [done|]. rewrite E. by left.
Qed.

(** What hyper guarantees of a request it has parsed: no line break in its target,
    its method or its version. *)
Record request_clean (req : Request) : Prop := {
  clean_authority : ∀ a, uri_authority (req_uri req) = Some a → one_line a;
  clean_path : ∀ pq, uri_path_and_query (req_uri req) = Some pq → one_line pq;
  clean_method : one_line (req_method req);
  clean_version : one_line (version_debug (req_version req)) }.

Lemma request_kv_one_line peer pp req status d upstream :
  request_clean req → one_line d → one_line upstream →
  Forall (λ x, one_line x.1 ∧ one_line x.2)
    (request_kv (request_vars peer pp req) status d upstream).
Proof.
  intros [Ha Hp Hm Hv] Hd Hu.
  assert (one_line (authority_or_host (req_uri req) (req_headers req))) as Hh.
  { unfold authority_or_host. destruct (uri_authority _) as [a|]; [by apply Ha|].
    destruct (header_str _ _) eqn:Hs; simpl; [by eapply header_str_one_line|].
    unfold one_line; set_solver. }
  assert (one_line (path_and_query_or_root (req_uri req))) as Hq.
  { unfold path_and_query_or_root. destruct (uri_path_and_query _); simpl; [by apply Hp|].
    by eapply bool_decide_unpack; vm_compute. }
  unfold request_kv, request_vars.
  cbn [v_peer_addr v_client_ip v_host v_path_and_query v_http_version v_method v_user_agent v_referer].
  repeat (apply Forall_cons; split; [split; cbn [fst snd];
    [by eapply bool_decide_unpack; vm_compute|]|]); [..|constructor];
    auto using addr_to_string_one_line, resolve_client_ip_one_line, fmt_one_line,
      header_or_dash_one_line.
Qed.

(** Every line of the access log is made by [request_kv], from a duration that was
    measured. *)
Definition made_by_handler (v : RequestVars) (upstream : str) (hist : list event) X (e : effect X) :
    Prop :=
  match e with
  | LogE r =>
      is_request r = true → ∃ status d up, log_kv r = request_kv v status d up ∧
        Event ElapsedE d ∈ hist ∧ (up = lit "-" ∨ up = upstream)
  | _ => True
  end.

Lemma silent_made v upstream hist X (e : effect X) :
  is_silent X e = true → made_by_handler v upstream hist X e.
Proof. destruct e; try done. simpl. intros Hn%negb_true_iff Hr. congruence. Qed.

Lemma wp_made_by_handler active peer pp req (v := request_vars peer pp req)
    (up := upstream_or_dash (match_route (router active) (v_host v) (v_path v))) :
  wp (made_by_handler v up) (handle_request active peer pp req) [] (λ _ _, True) (λ _ _, True).
Proof.
  assert (∀ status d up' hist (Qr : handler_reply → list event → Prop) (Q : unit → list event → Prop),
    Event ElapsedE d ∈ hist → (up' = lit "-" ∨ up' = up) → (∀ tr, Q tt tr) →
    wp (made_by_handler v up) (log_request v status d up') hist Qr Q) as Hlog.
  { intros status d up' hist Qr Q Hd Hu HQ. apply wp_trigger; [|by intros []].
    intros _. exists status, d, up'. done. }
  assert (∀ {R X} (e : effect X) hist (Qr : R → list event → Prop) Q, is_silent X e = true →
    (∀ x, Q x (hist ++ [Event e x])) → wp (made_by_handler v up) (trigger e) hist Qr Q) as Htrig.
  { intros. apply wp_trigger; [by apply silent_made|done]. }
  unfold handle_request. fold v. fold up. apply wp_bind.
  assert (∀ hist Q, (∀ tr, Q tt tr) →
    wp (made_by_handler v up) (security_gate active v) hist (λ _ _, True) Q) as Hgate.
  { intros hist Q HQ. unfold security_gate. destruct (parse_ip _); [|by apply HQ].
    apply wp_bind, Htrig; [done|]. intros [[]|]; [apply wp_bind, Htrig; done|apply wp_bind|done].
    apply Htrig; [done|]. intros [[]|]; [by apply HQ| |done].
    do 2 (apply wp_bind, Htrig; [done|]; intros ?). apply wp_bind, Hlog; [set_solver|by left|done]. }
  apply Hgate. intros h1. apply wp_bind, (wp_only is_silent);
    [apply body_gate_silent|intros; by apply silent_made|done|]. intros ? h2.
  apply wp_bind.
  assert (∀ hist Q engine, (∀ tr, Q tt tr) → wp (made_by_handler v up)
    (cache_lookup engine (match_route (router active) (v_host v) (v_path v)) v) hist
    (λ _ _, True) Q) as Hlookup.
  { intros hist Q [loc|] HQ; [|by apply HQ]. unfold cache_lookup, cache_stats.
    apply wp_bind, Htrig; [done|]. intros [cached|]; [|by apply HQ].
    apply wp_bind, Htrig; [done|]. intros d. apply wp_bind.
    do 3 (apply wp_bind, Htrig; [done|]; intros ?). apply wp_ret, wp_bind, Htrig; [done|].
    intros ?. apply wp_bind, Hlog; [set_solver|by right|done]. }
  apply Hlookup. intros h3. apply wp_bind, (wp_only is_silent);
    [case_match; [apply forward_silent|apply no_matching_route_silent]
    |intros; by apply silent_made|done|].
  intros resp h4. unfold finish_request. apply wp_bind, Htrig; [done|]. intros d.
  apply wp_bind, Hlog; [set_solver|by right|done].
Qed.

(** C35: No client can forge a line of the access log: whatever its headers are, the
    line written for its request has no line break in it. *)
Theorem access_log_one_line o active peer pp req (v := request_vars peer pp req) r ts thread
    (tr := (run_request o active peer pp req).2) :
  request_clean req → one_line (upstream_or_dash (match_route (router active) (v_host v) (v_path v))) →
  (∀ hist, one_line (o _ hist ElapsedE)) → one_line ts → one_line thread →
  r ∈ access tr → one_line (log_line ts thread r).
Proof.
  intros Hreq Hup Hel Hts Hth Hr. unfold access, requests in Hr.
  apply list_elem_of_filter in Hr as [Hisr Hr]. apply list_elem_of_omap in Hr as (ev & Hev & Hlog).
  destruct ev as [X e x]. simpl in Hlog. destruct e; try done. injection Hlog as ->.
  apply list_elem_of_split in Hev as (pre & post & Htr).
  pose proof (wp_trace _ _ [] _ _ o pre _ (LogE r) x post (wp_made_by_handler active peer pp req))
    as Hmade.
  assert ((exec o [] (handle_request active peer pp req)).2 = tr) as He.
  { unfold tr, run_request. by destruct (exec _ _ _). }
  rewrite He in Hmade. specialize (Hmade Htr Hisr) as (status & d & up & Hkv & Hd & Hu).
  apply log_line_one_line. split_and!; [done|done| |].
  - apply str_eqb_true in Hisr. rewrite Hisr. by eapply bool_decide_unpack; vm_compute.
  - rewrite Hkv. apply request_kv_one_line; [done| |].
    + pose proof (exec_answers o [] (handle_request active peer pp req) ltac:(constructor)) as Hans.
      rewrite He, Htr, Forall_app, Forall_forall in Hans. destruct Hans as [Hans _].
      apply Hans in Hd as [hist ->]. apply Hel.
    + destruct Hu as [-> | ->]; [by eapply bool_decide_unpack; vm_compute|done].
Qed.
End access_log.

(** ** Examples *)

Section access_log_witnesses.
#[local] Existing Instance SimpleHttp.

Definition shop_vars : RequestVars := request_vars shop_peer false shop_request.

Definition shop_record : LogRecord :=
  MkLogRecord INFO (lit "request") (request_kv shop_vars 200 (lit "0.100") (lit "c:1")).

Lemma access_log_one_line_witness :
  one_line (log_line (lit "now") (lit "worker-thread-0") shop_record).
Proof.
  apply (access_log_one_line kind_oracle shop_config shop_peer false shop_request).
  - split; try (by eapply bool_decide_unpack; vm_compute); [done|].
    intros pq [= <-]. by eapply bool_decide_unpack; vm_compute.
  - by eapply bool_decide_unpack; vm_compute.
  - intros hist. by eapply bool_decide_unpack; vm_compute.
  - by eapply bool_decide_unpack; vm_compute.
  - by eapply bool_decide_unpack; vm_compute.
  - assert (access (run_request kind_oracle shop_config shop_peer false shop_request).2 =
      [shop_record]) as -> by reflexivity. by left.
Defined.
End access_log_witnesses.
