(* ===== verification/Worker.v ===== *)
(** * Connections: [src/src/worker.rs]

    What a worker does with an accepted connection, as a program: the blacklist,
    the PROXY protocol, the blacklist again under the resolved address, TLS, and
    the HTTP server.  The beginning of [run_worker] is in [Startup.v], its accept
    loop is a step of [System.v]. *)

From S2P Require Import Prelude RustStr NetAddr Log Config Comments Parser ParserSpec Router Security Cache ProxyProtocol ProxyProtocolSpec Http Effects Auth Tls Runtime Proxy ProxySpec.

Section worker.
Context `{Http} {CertifiedKey : Type}.

(** The task's end: [None] when it panics *)
#[local] Abbreviation task := (prog (option unit)).

Definition abandon {A} : task A := Return (Some tt).

(** [serve_connection]: the limits given to the HTTP/1 and HTTP/2 servers; the
    second is cast to [u32] *)
Definition max_header (active : ActiveConfig CertifiedKey) : Z :=
  default (64 * 1024) (max_header_size <$> active_security active).

Definition as_u32 (z : Z) : Z := z `mod` (u32_max + 1).

Definition serve_connection (active : ActiveConfig CertifiedKey) (peer_addr : SocketAddr)
    (is_proxy_protocol : bool) : task unit :=
  let size := max_header active in
  served ← trigger (ServeE peer_addr is_proxy_protocol size (as_u32 size));
  match served with
  | Ok _ => Ret tt
  | Err e => log_error "connection_error" ["peer" ⇒ addr_to_string peer_addr; "error" ⇒ e]
  end.

(** [is_blacklisted(..)] followed by the early return *)
Definition drop_blacklisted (active : ActiveConfig CertifiedKey) (peer : SocketAddr) : task unit :=
  blacklisted ← trigger (IsBlacklistedE (security_manager active) (ip peer));
  match blacklisted with
  | None => Return None
  | Some true =>
      _ ← log_info "connection_dropped_blacklisted" ["peer" ⇒ addr_to_string peer];
      abandon
  | Some false => Ret tt
  end.

Fixpoint log_all {R} (rs : list LogRecord) : prog R unit :=
  match rs with
  | [] => Ret tt
  | r :: rs' => _ ← trigger (LogE r); log_all rs'
  end.

(** The stream, the address and whether the connection counts as proxied *)
Definition resolve_peer (now : Z) (security_config : option SecurityConfig) (stream : TcpStream)
    (peer_addr : SocketAddr) : task (ProxyStream TcpStream * SocketAddr * bool) :=
  match security_config with
  | Some sec =>
      _ ← log_all (proxy_protocol_log now stream peer_addr sec);
      match handle_proxy_protocol now stream peer_addr sec with
      | None => Return None
      | Some (Err err) =>
          _ ← log_error "security_check_failed"
                ["peer" ⇒ addr_to_string peer_addr; "error" ⇒ err];
          abandon
      | Some (Ok (ps, addr)) =>
          Ret (ps, addr, bool_decide (ip peer_addr = trusted_upstream sec))
      end
  | None => Ret (proxy_stream_new stream None, peer_addr, false)
  end.

(** The task spawned for a connection; [serving] is the configuration that
    [serve_connection] loads, later than [active] *)
Definition handle_connection (now : Z) (active serving : ActiveConfig CertifiedKey)
    (stream : TcpStream) (peer_addr : SocketAddr) : task unit :=
  _ ← drop_blacklisted active peer_addr;
  '(stream, resolved_addr, is_proxy_protocol) ←
    resolve_peer now (active_security active) stream peer_addr;
  _ ← drop_blacklisted active resolved_addr;
  match tls_acceptor active with
  | Some _ =>
      accepted ← trigger (TlsAcceptE stream);
      match accepted with
      | Ok _ => serve_connection serving resolved_addr is_proxy_protocol
      | Err e =>
          _ ← log_error "tls_handshake_failed"
                ["peer" ⇒ addr_to_string resolved_addr; "error" ⇒ e];
          recorded ← trigger (RecordTlsFailureE (security_manager active) (ip resolved_addr));
          match recorded with None => Return None | Some _ => Ret tt end
      end
  | None => serve_connection serving resolved_addr is_proxy_protocol
  end.
End worker.

Section worker_theorems.
Context `{Http} {CertifiedKey : Type}.
Implicit Types (active serving : ActiveConfig CertifiedKey).

(** The address was found not to be blacklisted. *)
Definition cleared (sm : nat) (i : IpAddr) (tr : list event) : Prop :=
  Event (IsBlacklistedE sm i) (Some false) ∈ tr.

(** The address a connection is served under. *)
Definition resolves (now : Z) (sec : option SecurityConfig) (stream : TcpStream)
    (peer addr : SocketAddr) : Prop :=
  match sec with
  | Some sec => ∃ ps, handle_proxy_protocol now stream peer sec = Some (Ok (ps, addr))
  | None => addr = peer
  end.

(** The effects of a connection that [connection_checks] is about. *)
Definition is_plain X (e : effect X) : bool :=
  match e with ServeE _ _ _ _ | RecordTlsFailureE _ _ => false | _ => true end.

Lemma cleared_app sm i tr tr' : cleared sm i tr → cleared sm i (tr ++ tr').
Proof. unfold cleared. set_solver. Qed.

Lemma log_all_only {R} (P : ∀ X, effect X → bool) rs :
  (∀ r, P _ (LogE r) = true) → only (R := R) P (log_all rs).
Proof. intros HP. induction rs as [|r rs IH]; simpl; [done|]. by split. Qed.

Section plain.
Context (I : list event → ∀ X, effect X → Prop).
Context (HI : ∀ hist X (e : effect X), is_plain X e = true → I hist X e).

Lemma wp_drop_blacklisted active peer hist Q :
  Q tt (hist ++ [Event (IsBlacklistedE (security_manager active) (ip peer)) (Some false)]) →
  wp I (drop_blacklisted active peer) hist (λ _ _, True) Q.
Proof using HI.
  intros HQ. unfold drop_blacklisted. simpl. split; [by apply HI|].
  intros [[]|]; simpl; [split; [by apply HI|done]|exact HQ|done].
Qed.

Lemma wp_resolve_peer now sec stream peer hist Q :
  (∀ ps addr pp tr, resolves now sec stream peer addr →
     (pp = true → ∃ s, sec = Some s ∧ ip peer = trusted_upstream s) →
     Q (ps, addr, pp) (hist ++ tr)) →
  wp I (resolve_peer now sec stream peer) hist (λ _ _, True) Q.
Proof using HI.
  intros HQ. unfold resolve_peer. destruct sec as [s|]; cycle 1.
  { simpl. specialize (HQ (proxy_stream_new stream None) peer false [] eq_refl).
    rewrite app_nil_r in HQ. by apply HQ. }
  apply wp_bind, (wp_only is_plain); [by apply log_all_only|done|done|]. intros u tr.
  destruct (handle_proxy_protocol now stream peer s) as [[[ps addr]|e]|] eqn:Hh; simpl;
    [|split; [by apply HI|done]|done].
  apply HQ; [by exists ps|]. intros ?%bool_decide_eq_true_1. eauto.
Qed.
End plain.

(** What a connection may do after the events [pre]: be served, when it was cleared
    under both addresses and the handshake succeeded, and hold a failed handshake
    against the address it resolved to. *)
Definition connection_rule (now : Z) active serving (stream : TcpStream) (peer : SocketAddr)
    (sm := security_manager active) (pre : list event) X (e : effect X) : Prop :=
  match e with
  | ServeE addr pp h1 h2 =>
      cleared sm (ip peer) pre ∧ cleared sm (ip addr) pre ∧
      resolves now (active_security active) stream peer addr ∧
      (is_Some (tls_acceptor active) → ∃ s, Event (TlsAcceptE s) (Ok tt) ∈ pre) ∧
      (pp = true → ∃ sec, active_security active = Some sec ∧ ip peer = trusted_upstream sec) ∧
      h1 = max_header serving
  | RecordTlsFailureE sm' i =>
      sm' = sm ∧ ∃ addr s err, i = ip addr ∧
        resolves now (active_security active) stream peer addr ∧
        Event (TlsAcceptE s) (Err err) ∈ pre
  | _ => True
  end.

Lemma wp_handle_connection now active serving stream peer :
  wp (connection_rule now active serving stream peer)
    (handle_connection now active serving stream peer) [] (λ _ _, True) (λ _ _, True).
Proof.
  set (I := connection_rule now active serving stream peer). set (sm := security_manager active).
  assert (∀ hist X (e : effect X), is_plain X e = true → I hist X e) as HI by (by intros ? ? []).
  unfold handle_connection. apply wp_bind, wp_drop_blacklisted; [done|].
  set (hist := [] ++ _).
  assert (cleared sm (ip peer) hist) as Hc by (unfold cleared, hist; set_solver).
  apply wp_bind, wp_resolve_peer; [done|]. intros ps addr pp tr Haddr Hpp.
  apply (cleared_app _ _ _ tr) in Hc. set (hist1 := hist ++ tr) in *.
  apply wp_bind, wp_drop_blacklisted; [done|]. set (hist2 := hist1 ++ _).
  assert (cleared sm (ip peer) hist2 ∧ cleared sm (ip addr) hist2) as [Hc1 Hc2]
    by (unfold cleared, hist2 in *; set_solver).
  clearbody hist2. clear Hc hist1 tr hist.
  destruct (tls_acceptor active) as [acc|] eqn:Hacc; simpl; [split; [done|]|]; cycle 1.
  { split; [|intros [[]|err]; done]. split_and!; auto. rewrite Hacc. by intros [? ?]. }
  intros [[]|err]; simpl.
  - split; [|by intros [[]|err]]. split_and!; auto using cleared_app.
    intros _. exists ps. set_solver.
  - split; [done|]. intros []. split; [|by intros [b|]].
    split; [done|]. exists addr, ps, err. set_solver.
Qed.

(** A connection reaches the HTTP server only after the peer's address and
    the address it resolved to were both found not to be blacklisted, under the
    address the PROXY protocol gave, and, with TLS configured, after the
    handshake succeeded.  A failed handshake is held against the resolved address,
    and the connection counts as proxied only if its peer is the trusted
    upstream. *)
Theorem connection_checks o now active serving stream peer X (e : effect X) x pre post :
  (exec o [] (handle_connection now active serving stream peer)).2 = pre ++ Event e x :: post →
  connection_rule now active serving stream peer pre X e.
Proof.
  intros Htr. exact (wp_trace _ _ [] _ _ o pre _ e x post
    (wp_handle_connection now active serving stream peer) Htr).
Qed.
End worker_theorems.

(** ** Examples *)

Section worker_witnesses.
#[local] Existing Instance SimpleHttp.

Lemma connection_checks_witness :
  cleared 0 (ip shop_peer) (take 2
    (exec kind_oracle [] (handle_connection 0 shop_config shop_config [] shop_peer)).2).
Proof.
  exact (proj1 (connection_checks kind_oracle 0 shop_config shop_config [] shop_peer _
    (ServeE shop_peer false 65536 65536) (Ok tt)
    (take 2 (exec kind_oracle [] (handle_connection 0 shop_config shop_config [] shop_peer)).2) []
    ltac:(reflexivity))).
Defined.
End worker_witnesses.
