(* ===== verification/EndToEnd.v ===== *)
(** * The rate limit, end to end

    One run of the security manager and the request handlers put together; the whole
    server is in [System.v].  Many tasks handle requests at the same time; the mutex
    orders their calls to the manager into one sequence, which also holds the calls
    of other tasks.  Whatever that order is, and whatever else the tasks and the
    network do, the requests of one client that reach an upstream within sixty
    seconds are no more than the limit. *)

From S2P Require Import Prelude RustStr NetAddr Log Config Comments Parser ParserSpec Router Security SecuritySpec SecurityProps Cache ProxyProtocol Http Effects ErrorPages Auth Tls Runtime Proxy ProxySpec.

(** ** Counting by index *)

Definition holds_at {A} (P : A → bool) (l : list A) (i : nat) : bool :=
  match l !! i with Some x => P x | None => false end.

Lemma count_indices {A} (P : A → bool) (l : list A) :
  length (List.filter (holds_at P l) (seq 0 (length l))) = length (List.filter P l).
Proof.
  induction l as [|x l IH]; [done|]. simpl.
  change (holds_at P (x :: l) 0) with (P x).
  rewrite <- seq_shift.
  assert (length (List.filter (holds_at P (x :: l)) (S <$> seq 0 (length l))) =
          length (List.filter (holds_at P l) (seq 0 (length l)))) as Hs.
  { generalize (seq 0 (length l)) as ids. induction ids as [|i ids IHi]; [done|]. simpl.
    change (holds_at P (x :: l) (S i)) with (holds_at P l i).
    destruct (holds_at P l i); simpl; auto. }
  change (map S (seq 0 (length l))) with (S <$> seq 0 (length l)).
  destruct (P x); simpl; rewrite Hs; auto.
Qed.

(** Distinct indices at which [P] holds are no more than the elements with [P]. *)
Lemma indices_le {A} (P : A → bool) (l : list A) (ids : list nat) :
  NoDup ids → Forall (λ i, holds_at P l i = true) ids →
  (length ids ≤ length (List.filter P l))%nat.
Proof.
  intros Hnd Hall. rewrite <- count_indices. apply submseteq_length, NoDup_submseteq; [done|].
  intros i Hi. rewrite Forall_forall in Hall. specialize (Hall i Hi).
  apply list_elem_of_In, filter_In. split; [|done]. apply in_seq.
  unfold holds_at in Hall. destruct (l !! i) eqn:Hl; [|done].
  apply lookup_lt_Some in Hl. lia.
Qed.

(** ** Requests and the order of the manager's calls *)

Section end_to_end.
Context `{HttpLaws} {CertifiedKey : Type}.
#[local] Set Default Proof Using "Type*".

(** A handled request, with the position of its rate-limit check in the sequence
    of the manager's calls. *)
Record handled : Type := MkHandled {
  check_index : nat;
  answers : oracle;
  config_of : ActiveConfig CertifiedKey;
  peer_of : SocketAddr;
  proxied : bool;
  request_of : Request }.

Definition client_of (x : handled) : str :=
  resolve_client_ip (peer_of x) (proxied x) (req_headers (request_of x)).

Definition trace_of (x : handled) : list event :=
  (run_request (answers x) (config_of x) (peer_of x) (proxied x) (request_of x)).2.

Definition is_upstream (ev : event) : bool :=
  match ev with Event e _ => match e with UpstreamRequestE _ => true | _ => false end end.

(** The request went to an upstream. *)
Definition was_forwarded (x : handled) : bool := existsb is_upstream (trace_of x).

(** The request is one of client [i], checked in the window from [t0] on, and its
    check was answered as the manager's run says. *)
Definition checked_in (cs : list call) (rs : list reply) (i : IpAddr) (t0 : Z) (x : handled) : Prop :=
  parse_ip (client_of x) = Some i ∧
  (∃ t, cs !! check_index x = Some (MkCall t CheckAndRecordRequest i) ∧
        t0 ≤ t ≤ t0 + ROLLING_WINDOW) ∧
  ∀ hist, answers x _ hist (CheckRequestE (security_manager (config_of x)) i) =
    match rs !! check_index x with Some (RResult r) => Some r | _ => None end.

(** What is forwarded was let through by the manager. *)
Lemma forwarded_was_accepted x i :
  parse_ip (client_of x) = Some i → was_forwarded x = true →
  ∃ hist n, answers x _ hist (CheckRequestE (security_manager (config_of x)) i) = Some (Ok n).
Proof.
  intros Hip. unfold was_forwarded, trace_of, run_request, handle_request, security_gate.
  cbn [v_client_ip request_vars]. fold (client_of x). rewrite Hip. simpl.
  destruct (answers x _ [] (IsBlacklistedE _ i)) as [[]|] eqn:Hb; simpl; [done| |done].
  destruct (answers x _ _ (CheckRequestE _ i)) as [[n|n]|] eqn:Hc; simpl; [eauto|done|done].
Qed.

(** The rate limit holds end to end: of the requests of one client whose
    rate-limit checks fall into any window of sixty seconds, at most
    [rate_limit_rpm] are sent to an upstream, however the requests interleave with
    each other and with everything else the manager is asked. *)
Theorem rate_limit_end_to_end (ban max_failures rpm : Z) (i : IpAddr) (t0 : Z)
    (cs : list call) (rs : list reply) (xs : list handled) :
  0 < rpm → chronological 0 cs → no_overflow ban cs →
  run cs (new ban max_failures rpm) = Some rs →
  NoDup (check_index <$> xs) → Forall (checked_in cs rs i t0) xs →
  Z.of_nat (length (List.filter was_forwarded xs)) ≤ rpm.
Proof.
  intros Hrpm Hch Hno Hrun Hnd Hxs.
  etrans; [|by eapply (rate_limit_run ban max_failures rpm i t0 cs rs)]. unfold accepted_count.
  apply Nat2Z.inj_le. rewrite <- (length_fmap check_index). apply indices_le.
  - clear -Hnd. induction xs as [|x xs IH]; simpl in *; [constructor|].
    apply NoDup_cons in Hnd as [Hx Hnd]. destruct (was_forwarded x); [|auto].
    apply NoDup_cons. split; [|auto]. intros (y & Hy & Hin)%list_elem_of_fmap. apply Hx.
    apply list_elem_of_In, filter_In in Hin as [Hin _].
    apply list_elem_of_fmap. exists y. by rewrite list_elem_of_In.
  - apply Forall_fmap, Forall_forall. intros x Hin.
    apply list_elem_of_In, filter_In in Hin as [Hin Hf]. apply list_elem_of_In in Hin.
    rewrite Forall_forall in Hxs. destruct (Hxs x Hin) as (Hip & (t & Hc & Ht) & Ha).
    destruct (forwarded_was_accepted x i Hip Hf) as (hist & n & Hn).
    rewrite Ha in Hn. unfold holds_at. simpl.
    destruct (rs !! check_index x) as [[?|r|?|]|] eqn:Hr; try discriminate Hn. injection Hn as ->.
    assert (zip cs rs !! check_index x = Some (MkCall t CheckAndRecordRequest i, RResult (Ok n)))
      as ->; [by apply lookup_zip_Some|]. simpl.
    rewrite bool_decide_eq_true_2 by done. lia.
Qed.
End end_to_end.

(** ** Examples *)

Section end_to_end_witnesses.
#[local] Existing Instance SimpleHttp.

Definition one_check : list call := [MkCall 1 CheckAndRecordRequest (V4 1 2 3 4)].

Definition one_handled : handled (CertifiedKey := unit) :=
  MkHandled 0 kind_oracle shop_config shop_peer false shop_request.

Lemma rate_limit_end_to_end_witness :
  Z.of_nat (length (List.filter was_forwarded [one_handled])) ≤ 1.
Proof.
  apply (rate_limit_end_to_end 10 5 1 (V4 1 2 3 4) 0 one_check [RResult (Ok 1)] [one_handled]).
  - lia.
  - simpl. lia.
  - repeat constructor; simpl; unfold instant_max, nanos_per_sec; lia.
  - vm_compute. reflexivity.
  - apply NoDup_singleton.
  - constructor; [|constructor]. split; [reflexivity|]. split; [|reflexivity].
    exists 1. split; [reflexivity|]. unfold ROLLING_WINDOW, duration_from_secs, nanos_per_sec. lia.
Defined.
End end_to_end_witnesses.
