(* ===== verification/System.v ===== *)
(** * The running server

    The whole program as a state machine: the shared state of [Runtime.v], a clock,
    and the tasks in flight, each a program of [Proxy.v] or [Worker.v].  A step is a
    SIGHUP, a connection, a request on a connection that is being served, the
    passing of time, or one effect of one task, answered by the security manager,
    the cache engine or the log it is addressed to, or by the network, which may
    answer anything.  The tasks of all worker threads are one pool: a step of any of
    them may come next. *)

From S2P Require Import Prelude RustStr NetAddr Log Config Comments Parser ParserSpec Router Security Cache ProxyProtocol Http Effects ErrorPages Auth Tls Runtime Proxy Worker.

Section system.
Context {CertifiedKey : Type} `{KeyLoader CertifiedKey} {L : Type → Type} `{LruOps L} `{Http}.

#[local] Abbreviation server := (Server CertifiedKey L).
#[local] Abbreviation config := (ActiveConfig CertifiedKey).

(** ** Tasks *)

(** How a task ends: with a reply for hyper, or by itself, perhaps by a panic *)
Inductive task_end : Type :=
| Replied (r : handler_reply)
| Ended (panicked : bool).

(** What is spawned: a handler for a request, with the configuration it loaded; a
    connection; a task of the handler *)
Inductive task : Type :=
| RequestTask (active : config) (peer : SocketAddr) (is_proxy_protocol : bool) (req : Request)
| ConnectionTask (now : Z) (active serving : config) (stream : TcpStream) (peer : SocketAddr)
| SpawnedTask (t : spawned).

Definition task_prog (t : task) : prog task_end task_end :=
  match t with
  | RequestTask active peer pp req => pmap Replied Replied (handle_request active peer pp req)
  | ConnectionTask now active serving stream peer =>
      pmap (λ o, Ended (match o with None => true | Some _ => false end)) (λ _, Ended false)
        (handle_connection now active serving stream peer)
  | SpawnedTask t => pmap (λ _, Ended false) (λ _, Ended false) (spawned_task t)
  end.

(** A task in flight, with what is left of it *)
Record thread : Type := MkThread { th_task : task; th_prog : prog task_end task_end }.

Definition start (t : task) : thread := MkThread t (task_prog t).

(** ** State *)

(** An effect that happened: of which task, when, and with which answer *)
Record entry : Type := MkEntry { who : nat; when : Z; what : event }.

Record Sys : Type := MkSys {
  srv : server;
  clock : Z;
  threads : list thread;
  history : list entry }.

Definition set_manager (loc : nat) (m : SecurityManager) (s : server) : server :=
  MkServer (listen s) (config_path s) (server_workers s) (current s)
    (MkHeap (<[loc := m]> (managers (heap s))) (engines (heap s))) (log_state s)
    (reload_generation s) (reload_alive s).

Definition set_engine (loc : nat) (e : LruCacheEngine L HeaderMap) (s : server) : server :=
  MkServer (listen s) (config_path s) (server_workers s) (current s)
    (MkHeap (managers (heap s)) (<[loc := e]> (engines (heap s)))) (log_state s)
    (reload_generation s) (reload_alive s).

(** ** Answers *)

(** The value of a call on the manager, [None] for a panic, and the new state *)
Definition settle {A} (o : outcome A) : option A * SecurityManager :=
  match o with Done a m => (Some a, m) | Panicked m => (None, m) end.

Definition call_manager {A} (loc : nat) (f : SecurityManager → outcome A) (s : server)
    (x : option A) (s' : server) : Prop :=
  ∃ m, managers (heap s) !! loc = Some m ∧ x = (settle (f m)).1 ∧
    s' = set_manager loc (settle (f m)).2 s.

Definition read_engine {A} (loc : nat) (f : LruCacheEngine L HeaderMap → A) (s : server)
    (x : A) (s' : server) : Prop :=
  ∃ e, engines (heap s) !! loc = Some e ∧ x = f e ∧ s' = s.

Definition call_engine {A} (loc : nat)
    (f : LruCacheEngine L HeaderMap → A * LruCacheEngine L HeaderMap) (s : server)
    (x : A) (s' : server) : Prop :=
  ∃ e, engines (heap s) !! loc = Some e ∧ x = (f e).1 ∧ s' = set_engine loc (f e).2 s.

(** Lines written by some thread, at some times *)
Fixpoint logs (rs : list LogRecord) (l l' : LogState) : Prop :=
  match rs with
  | [] => l' = l
  | r :: rs' => ∃ ts thread, logs rs' (log_event ts thread r l) l'
  end.

(** [answer now e s x s']: at time [now] and in state [s], effect [e] may be
    answered with [x], leaving [s'] *)
Definition answer {X} (now : Z) (e : effect X) (s : server) : X → server → Prop :=
  match e in effect X return X → server → Prop with
  | IsBlacklistedE loc i => call_manager loc (is_blacklisted now i) s
  | CheckRequestE loc i => call_manager loc (check_and_record_request now i) s
  | RecordTlsFailureE loc i => λ x s', ∃ m l,
      managers (heap s) !! loc = Some m ∧ logs (record_tls_failure_log now i m) (log_state s) l ∧
      x = (settle (record_tls_failure now i m)).1 ∧
      s' = with_log l (set_manager loc (settle (record_tls_failure now i m)).2 s)
  | CacheGetE loc key => call_engine loc (cache_get now key) s
  | CacheInsertE loc created_at key status headers body => λ x s', ∃ e l,
      engines (heap s) !! loc = Some e ∧ logs (cache_insert_log body e) (log_state s) l ∧
      x = (cache_insert created_at key status headers body None e).1 ∧
      s' = with_log l (set_engine loc (cache_insert created_at key status headers body None e).2 s)
  | CurrentMemoryE loc => read_engine loc current_memory_bytes s
  | EntryCountE loc => read_engine loc entry_count s
  | MaxCapacityE loc => read_engine loc max_capacity_bytes s
  | MaxFileSizeE loc => read_engine loc max_file_size_bytes s
  | NowE => λ x s', x = now ∧ s' = s
  | LogE r => λ _ s', ∃ l, logs [r] (log_state s) l ∧ s' = with_log l s
  | AuthRequestE _ | UpstreamRequestE _ | SpawnE _ | ClientUpgradeE | UpstreamUpgradeE
  | CopyBidirectionalE | TlsAcceptE _ | ServeE _ _ _ _ | ElapsedE => λ _ s', s' = s
  end.

(** What an effect adds to the pool *)
Definition spawns {X} (e : effect X) : list thread :=
  match e with SpawnE t => [start (SpawnedTask t)] | _ => [] end.

(** ** Steps *)

Definition with_srv (s' : server) (s : Sys) : Sys := MkSys s' (clock s) (threads s) (history s).

Definition spawn (t : task) (s : Sys) : Sys :=
  MkSys (srv s) (clock s) (threads s ++ [start t]) (history s).

(** The task is waiting in [serve_connection_with_upgrades] *)
Definition serving (th : thread) (peer : SocketAddr) (is_proxy_protocol : bool) : Prop :=
  match th_prog th with
  | Vis e _ =>
      match e with ServeE p pp _ _ => p = peer ∧ pp = is_proxy_protocol | _ => False end
  | _ => False
  end.

(** One step, with the clock below [horizon]. *)
Inductive sys_step (horizon : Z) : Sys → Sys → Prop :=
| step_tick s t :
    clock s ≤ t ≤ horizon →
    sys_step horizon s (MkSys (srv s) t (threads s) (history s))
(** SIGHUP, with the environment and the file it finds *)
| step_reload s env contents :
    available_ok (available_parallelism env) →
    sys_step horizon s (with_srv (reload env contents (srv s)) s)
(** the accept loop of a worker: a connection, or an error, which is logged *)
| step_accept s served_with stream peer :
    sys_step horizon s
      (spawn (ConnectionTask (clock s) (reader_load (srv s)) served_with stream peer) s)
| step_accept_error s id e l :
    logs [MkLogRecord ERROR (lit "accept_error") ["id" ⇒ fmt id; "error" ⇒ e]]
      (log_state (srv s)) l →
    sys_step horizon s (with_srv (with_log l (srv s)) s)
(** a request on a connection that is being served *)
| step_request s i th peer pp req :
    threads s !! i = Some th → serving th peer pp →
    sys_step horizon s (spawn (RequestTask (reader_load (srv s)) peer pp req) s)
(** one effect of one task *)
| step_effect s i t X (e : effect X) k x s' :
    threads s !! i = Some (MkThread t (Vis e k)) → answer (clock s) e (srv s) x s' →
    sys_step horizon s
      (MkSys s' (clock s) (<[i := MkThread t (k x)]> (threads s) ++ spawns e)
         (history s ++ [MkEntry i (clock s) (Event e x)])).

(** The system when the server of configuration [cfg] has started. *)
Definition initial (env : Env) (cfg : Config) (path : str) (l : LogState) (s : Sys) : Prop :=
  config_ok cfg ∧ server_new env cfg path l = Some (Ok (srv s)) ∧ 0 ≤ clock s ∧
  threads s = [] ∧ history s = [].

Inductive sys_reachable (horizon : Z) (env : Env) (cfg : Config) (path : str) (l : LogState) :
    Sys → Prop :=
| reachable_initial s :
    initial env cfg path l s → clock s ≤ horizon → sys_reachable horizon env cfg path l s
| reachable_step s s' :
    sys_reachable horizon env cfg path l s → sys_step horizon s s' →
    sys_reachable horizon env cfg path l s'.
End system.
Arguments task CertifiedKey {_}.
Arguments thread CertifiedKey {_}.
Arguments Sys CertifiedKey L {_}.
