(* ===== verification/SystemRun.v ===== *)
(** * Running the system

    An executable scheduler for the state machine of [System.v]: a script says who
    moves next and what the network answers, and every step of a script is a step
    of the machine.  The states it reaches serve as examples. *)

From S2P Require Import Prelude RustStr NetAddr Log Config Comments Parser ParserSpec Router Security Cache ProxyProtocol Http Effects ErrorPages Auth Tls Runtime RuntimeSpec Proxy ProxySpec Worker System.

Section scheduler.
Context {CertifiedKey : Type} `{KeyLoader CertifiedKey} {L : Type → Type} `{LruOps L} `{Http}.
#[local] Set Default Proof Using "Type*".
#[local] Abbreviation server := (Server CertifiedKey L).

(** ** Answers *)

(** Lines of a thread without a name, at no particular time *)
Fixpoint log_each (rs : list LogRecord) (l : LogState) : LogState :=
  match rs with
  | [] => l
  | r :: rs' => log_each rs' (log_event [] None r l)
  end.

Definition run_manager {A} (loc : nat) (f : SecurityManager → outcome A)
    (log : SecurityManager → list LogRecord) (s : server) : option (option A * server) :=
  m ← managers (heap s) !! loc;
  Some ((settle (f m)).1,
        with_log (log_each (log m) (log_state s)) (set_manager loc (settle (f m)).2 s)).

Definition run_engine {A} (loc : nat)
    (f : LruCacheEngine L HeaderMap → A * LruCacheEngine L HeaderMap)
    (log : LruCacheEngine L HeaderMap → list LogRecord) (s : server) : option (A * server) :=
  e ← engines (heap s) !! loc;
  Some ((f e).1, with_log (log_each (log e) (log_state s)) (set_engine loc (f e).2 s)).

Definition peek_engine {A} (loc : nat) (f : LruCacheEngine L HeaderMap → A) (s : server) :
    option (A * server) :=
  e ← engines (heap s) !! loc; Some (f e, s).

(** The answer to an effect at time [now]; the network's answers are those of [net] *)
Definition run_effect {X} (net : oracle) (now : Z) (e : effect X) (s : server) :
    option (X * server) :=
  match e in effect X return option (X * server) with
  | IsBlacklistedE loc i => run_manager loc (is_blacklisted now i) (λ _, []) s
  | CheckRequestE loc i => run_manager loc (check_and_record_request now i) (λ _, []) s
  | RecordTlsFailureE loc i =>
      run_manager loc (record_tls_failure now i) (record_tls_failure_log now i) s
  | CacheGetE loc key => run_engine loc (cache_get now key) (λ _, []) s
  | CacheInsertE loc created_at key status headers body =>
      run_engine loc (cache_insert created_at key status headers body None) (cache_insert_log body) s
  | CurrentMemoryE loc => peek_engine loc current_memory_bytes s
  | EntryCountE loc => peek_engine loc entry_count s
  | MaxCapacityE loc => peek_engine loc max_capacity_bytes s
  | MaxFileSizeE loc => peek_engine loc max_file_size_bytes s
  | NowE => Some (now, s)
  | LogE r => Some (tt, with_log (log_each [r] (log_state s)) s)
  | e => Some (net _ [] e, s)
  end.

Lemma with_log_same (s : server) : with_log (log_state s) s = s.
Proof. by destruct s. Qed.

Lemma log_each_logs rs l : logs rs l (log_each rs l).
Proof. revert l. induction rs as [|r rs IH]; intros l; simpl; [done|]. exists [], None. apply IH. Qed.

Lemma run_effect_answer {X} net now (e : effect X) s x s' :
  run_effect net now e s = Some (x, s') → answer now e s x s'.
Proof.
  destruct e; cbn [run_effect answer]; unfold run_manager, run_engine, peek_engine,
    call_manager, call_engine, read_engine; intros Hr;
    try (apply bind_Some in Hr as (o & Ho & Hr)); injection Hr as <- <-;
    eauto 7 using log_each_logs; try (exists o; split_and!; [done..|]; apply with_log_same).
Qed.

(** ** Steps *)

(** What may happen next: time passes, a SIGHUP, a connection, a request on the
    connection of a task, an effect of a task *)
Inductive action : Type :=
| Wait (t : Z)
| Sighup (env : Env) (contents : result str str)
| Connect (stream : TcpStream) (peer : SocketAddr)
| Send (i : nat) (req : Request)
| Advance (i : nat) (net : oracle).

(** The connection a task serves *)
Definition served_peer (th : thread CertifiedKey) : option (SocketAddr * bool) :=
  match th_prog th with
  | Vis e _ => match e with ServeE peer pp _ _ => Some (peer, pp) | _ => None end
  | _ => None
  end.

Definition perform (horizon : Z) (a : action) (s : Sys CertifiedKey L) : option (Sys CertifiedKey L) :=
  match a with
  | Wait t =>
      if (clock s <=? t) && (t <=? horizon) then Some (MkSys (srv s) t (threads s) (history s))
      else None
  | Sighup env contents =>
      if bool_decide (available_parallelism env = None)
      then Some (with_srv (reload env contents (srv s)) s) else None
  | Connect stream peer =>
      Some (spawn (ConnectionTask (clock s) (reader_load (srv s)) (reader_load (srv s)) stream peer) s)
  | Send i req =>
      th ← threads s !! i; '(peer, pp) ← served_peer th;
      Some (spawn (RequestTask (reader_load (srv s)) peer pp req) s)
  | Advance i net =>
      th ← threads s !! i;
      match th_prog th with
      | Vis e k =>
          '(x, s') ← run_effect net (clock s) e (srv s);
          Some (MkSys s' (clock s) (<[i := MkThread (th_task th) (k x)]> (threads s) ++ spawns e)
                  (history s ++ [MkEntry i (clock s) (Event e x)]))
      | _ => None
      end
  end.

Lemma perform_step horizon a s s' : perform horizon a s = Some s' → sys_step horizon s s'.
Proof.
  destruct a as [t|env contents|stream peer|i req|i net]; simpl; intros Hp.
  - case_match; [|done]. injection Hp as <-. apply step_tick. lia.
  - case_bool_decide as Hav; [|done]. injection Hp as <-. apply step_reload. intros n. by rewrite Hav.
  - injection Hp as <-. apply step_accept.
  - apply bind_Some in Hp as (th & Hth & Hp). apply bind_Some in Hp as ([peer pp] & Hs & [= <-]).
    apply (step_request _ _ i th peer pp); [done|]. unfold served_peer in Hs. unfold serving.
    destruct (th_prog th) as [| |X e k]; try done. by destruct e; simplify_eq.
  - apply bind_Some in Hp as ([t p] & Hth & Hp). simpl in Hp.
    destruct p as [| |X e k]; try done. apply bind_Some in Hp as ([x s1] & Hr & [= <-]).
    apply step_effect; [done|]. by eapply run_effect_answer.
Qed.

(** A script, and that what it reaches is reachable *)
Fixpoint perform_all (horizon : Z) (script : list action) (s : Sys CertifiedKey L) :
    option (Sys CertifiedKey L) :=
  match script with
  | [] => Some s
  | a :: script' => s' ← perform horizon a s; perform_all horizon script' s'
  end.

Lemma perform_all_reachable horizon env cfg path l script s s' :
  sys_reachable horizon env cfg path l s → perform_all horizon script s = Some s' →
  sys_reachable horizon env cfg path l s'.
Proof.
  revert s. induction script as [|a script IH]; intros s Hs Hp; simpl in Hp; [by simplify_eq|].
  apply bind_Some in Hp as (s1 & Hs1 & Hp). eapply IH; [|done].
  eapply reachable_step; [done|]. by eapply perform_step.
Qed.
End scheduler.
Arguments action {_}.

(** ** A day of a server *)

Section system_samples.
#[local] Existing Instance SimpleHttp.
#[local] Existing Instance trivial_loader.

Definition text_of (ls : list string) : str := concat (map (λ l, lit l ++ [newline]) ls).

(** The configuration of a file, and the server it starts *)
Definition file_of (text : str) : Config :=
  match parse_proxy_config None text with Some (Ok cfg) => cfg | _ => plain_config end.

Definition server_of (text : str) : Server unit ListLru :=
  match server_new sample_env (file_of text) (lit "proxy.conf") empty_log with
  | Some (Ok s) => s
  | _ => plain_server
  end.

Definition start_of (text : str) : Sys unit ListLru := MkSys (server_of text) 0 [] [].

(** The server after the first [n] steps of a script *)
Definition day_of (horizon : Z) (text : str) (script : list action) (n : nat) : Sys unit ListLru :=
  default (start_of text) (perform_all horizon (take n script) (start_of text)).

(** The file is accepted and the server starts. *)
Definition comes_up (text : str) : bool :=
  match parse_proxy_config None text with Some (Ok _) => true | _ => false end &&
  match server_new (CertifiedKey := unit) (L := ListLru) sample_env (file_of text) (lit "proxy.conf")
          empty_log with
  | Some (Ok _) => true
  | _ => false
  end.

Lemma day_of_reachable horizon text script n :
  comes_up text = true → 0 ≤ horizon →
  sys_reachable horizon sample_env (file_of text) (lit "proxy.conf") empty_log
    (day_of horizon text script n).
Proof.
  intros [Hparse Hnew]%andb_true_iff Hh.
  assert (config_ok (file_of text)) as Hok.
  { unfold file_of. destruct (parse_proxy_config None text) as [[cfg|]|] eqn:Hp; try done.
    by apply (config_accepted None text); [intros ?|]. }
  assert (sys_reachable horizon sample_env (file_of text) (lit "proxy.conf") empty_log
    (start_of text)) as Hstart.
  { apply reachable_initial; [|done]. split_and!; try done. unfold start_of, server_of. simpl.
    destruct (server_new _ _ _ _) as [[s|]|]; done. }
  unfold day_of. destruct (perform_all _ _ _) as [s|] eqn:Hp; [|done].
  by eapply perform_all_reachable.
Qed.

(** One route over TLS, a cache, two requests a minute, and a ban of a minute for
    the first failed handshake *)
Definition shop_text : str := text_of
  ["listen 443;"; "workers 1;";
   "route https://a.b/ {"; "forward http://c:1/;"; "cert c.pem;"; "key k.pem;"; "}";
   "security {"; "max_tls_failures 0;"; "ban_duration 60;"; "rate_limit_rpm 2;"; "}";
   "cache {"; "ttl 60;"; "}"]%string.

(** The client hangs up in the middle of the TLS handshake *)
Definition rude_oracle : oracle := λ X hist e,
  match e in effect X return X with
  | TlsAcceptE _ => Err (lit "eof")
  | e => kind_oracle _ hist e
  end.

Definition shop_horizon : Z := 100.

(** A connection (task 0) and a request on it (1), whose answer is stored (2); the
    same request again (3), a hit; a second connection whose handshake fails (4);
    and a request on the first connection after the ban (5) *)
Definition shop_script : list action :=
  Connect [] shop_peer :: replicate 3 (Advance 0 kind_oracle) ++
  Send 0 shop_request :: replicate 7 (Advance 1 kind_oracle) ++ replicate 6 (Advance 2 kind_oracle) ++
  [Wait 10; Send 0 shop_request] ++ replicate 9 (Advance 3 kind_oracle) ++
  Connect [] shop_peer :: replicate 5 (Advance 4 rude_oracle) ++
  Send 0 shop_request :: replicate 2 (Advance 5 kind_oracle).

Definition shop_file : Config := file_of shop_text.

(** The server after the first [n] steps of the script *)
Definition shop_day : nat → Sys unit ListLru := day_of shop_horizon shop_text shop_script.

Lemma shop_day_reachable n :
  sys_reachable shop_horizon sample_env shop_file (lit "proxy.conf") empty_log (shop_day n).
Proof. by apply day_of_reachable; [vm_compute|]. Qed.

(** The script runs to its end: 32 effects of 6 tasks. *)
Example shop_day_ends :
  (length (history (shop_day 41)), length (threads (shop_day 41))) = (32, 6)%nat.
Proof. vm_compute. reflexivity. Qed.
End system_samples.
