(* ===== verification/SystemSpec.v ===== *)
(** * What the running server promises

    Invariants of every reachable state of [System.v], by induction on the steps:
    no task refers to an object that does not exist, each task has done what its
    program says, and every cache stays within its capacity.  From them: no task is
    ever stuck, and what a program promises, its task has kept. *)

From S2P Require Import Prelude RustStr NetAddr Log Config Comments Parser ParserSpec Router Security SecuritySpec SecurityProps Cache CacheSpec ProxyProtocol Http Effects ErrorPages Auth Tls Runtime RuntimeSpec Proxy ProxySpec Worker System SystemRun.

(** ** Locations *)

Section locations.
Context {CertifiedKey : Type} `{KeyLoader CertifiedKey} {L : Type → Type} `{LruOps L} `{Http}.
#[local] Set Default Proof Using "Type*".

(** The objects an effect refers to exist. *)
Definition in_heap (h : Heap L) X (e : effect X) : bool :=
  match e with
  | IsBlacklistedE loc _ | CheckRequestE loc _ | RecordTlsFailureE loc _ =>
      (loc <? length (managers h))%nat
  | CacheGetE loc _ | CacheInsertE loc _ _ _ _ _ | CurrentMemoryE loc | EntryCountE loc
  | MaxCapacityE loc | MaxFileSizeE loc | SpawnE (InsertTask loc _ _ _ _ _ _ _) =>
      (loc <? length (engines h))%nat
  | _ => true
  end.

Record config_in_heap (h : Heap L) (a : ActiveConfig CertifiedKey) : Prop := {
  manager_in_heap : (security_manager a < length (managers h))%nat;
  engine_in_heap : ∀ loc, cache_engine a = Some loc → (loc < length (engines h))%nat }.

(** The effects a handler may trigger: it asks the manager of its configuration about
    the client's address, the engine of its configuration, the auth provider and the
    upstream, and spawns tasks. *)
Definition request_effect (a : ActiveConfig CertifiedKey) (client_ip : str) X (e : effect X) :
    bool :=
  match e with
  | IsBlacklistedE loc i | CheckRequestE loc i =>
      bool_decide (security_manager a = loc ∧ parse_ip client_ip = Some i)
  | CacheGetE loc _ | CurrentMemoryE loc | EntryCountE loc
  | MaxCapacityE loc | MaxFileSizeE loc | SpawnE (InsertTask loc _ _ _ _ _ _ _) =>
      bool_decide (cache_engine a = Some loc)
  | SpawnE (TunnelTask _ _) | AuthRequestE _ | UpstreamRequestE _ | LogE _ | ElapsedE => true
  | _ => false
  end.

Lemma request_engine_effect (a : ActiveConfig CertifiedKey) matched method loc :
  request_engine a matched method = Some loc → bool_decide (cache_engine a = Some loc) = true.
Proof. unfold request_engine. case_if; [|done]. intros Hl. by apply bool_decide_eq_true_2. Qed.

Lemma auth_gate_effects (a : ActiveConfig CertifiedKey) client_ip m v req :
  only (request_effect a client_ip) (auth_gate a m v req).
Proof.
  unfold auth_gate. cbn [provider_authenticate forward_auth_provider]. unfold authenticate. solve_only. all: unfold log_verdict; solve_only.
Qed.

Lemma handle_request_effects (a : ActiveConfig CertifiedKey) peer pp req :
  only (request_effect a (resolve_client_ip peer pp (req_headers req)))
    (handle_request a peer pp req).
Proof.
  unfold handle_request. set (v := request_vars peer pp req).
  set (matched := match_route _ _ _). set (engine := request_engine a matched (req_method req)).
  assert (∀ loc, engine = Some loc → bool_decide (cache_engine a = Some loc) = true) as Hen
    by (intros; by eapply request_engine_effect).
  apply only_bind.
  { unfold security_gate. cbn [v_client_ip request_vars v].
    destruct (parse_ip _) as [i|] eqn:Hi; [|done].
    assert (bool_decide (security_manager a = security_manager a ∧
      parse_ip (resolve_client_ip peer pp (req_headers req)) = Some i) = true) as Hm
      by by apply bool_decide_eq_true_2.
    solve_only; done. }
  intros _.
  apply only_bind; [unfold body_gate; solve_only; done|]. intros _.
  apply only_bind; [|intros _; apply only_bind; [|intros resp; unfold finish_request; solve_only]].
  - unfold cache_lookup. destruct engine as [loc|]; [|done]. specialize (Hen loc eq_refl).
    solve_only; done.
  - destruct matched as [m|]; [|unfold no_matching_route; solve_only].
    unfold forward. apply only_bind; [apply auth_gate_effects|]. intros hs.
    unfold try_, upstream_answer, exceeds_max_file_size, store_response, bypass_cache.
    destruct engine as [loc|]; [specialize (Hen loc eq_refl)|]; solve_only; done.
Qed.

Lemma handle_request_in_heap h a peer pp req :
  config_in_heap h a → only (in_heap h) (handle_request a peer pp req).
Proof.
  intros [Hm Hen]. eapply only_mono; [|apply handle_request_effects]. intros X e.
  destruct e; try done; simpl; try (destruct t; [|done]); intros Heq%bool_decide_eq_true_1;
    apply Nat.ltb_lt; destruct_and?; subst; auto.
Qed.

Lemma handle_connection_in_heap h now a serving stream peer :
  config_in_heap h a → only (in_heap h) (handle_connection now a serving stream peer).
Proof.
  intros Ha. assert ((security_manager a <? length (managers h))%nat = true) as Hm
    by (by apply Nat.ltb_lt, Ha).
  unfold handle_connection, drop_blacklisted, resolve_peer, serve_connection.
  apply only_bind; [solve_only; done|]. intros _. apply only_bind.
  - destruct (active_security a); [|done]. apply only_bind; [by apply log_all_only|]. solve_only.
  - intros [[ps addr] b]. solve_only; done.
Qed.

Lemma spawned_in_heap h t : in_heap h _ (SpawnE t) = true → only (in_heap h) (spawned_task t).
Proof.
  destruct t; simpl; intros Hl; [unfold insert_task|unfold tunnel_task]; solve_only; done.
Qed.

Definition task_in_heap (h : Heap L) (t : task CertifiedKey) : Prop :=
  match t with
  | RequestTask a _ _ _ => config_in_heap h a
  | ConnectionTask _ a _ _ _ => config_in_heap h a
  | SpawnedTask t => in_heap h _ (SpawnE t) = true
  end.

Lemma task_prog_in_heap h t : task_in_heap h t → only (in_heap h) (task_prog t).
Proof.
  destruct t; intros Ht; unfold task_prog; apply only_pmap;
    auto using handle_request_in_heap, handle_connection_in_heap, spawned_in_heap.
Qed.
End locations.

(** ** The invariant of the pool *)

Section pool.
Context {CertifiedKey : Type} `{KeyLoader CertifiedKey} {L : Type → Type} `{LruLaws L} `{Http}.
#[local] Set Default Proof Using "Type*".

(** The effects of one task. *)
Definition own (i : nat) (h : list entry) : list event := what <$> filter (λ en, who en = i) h.

Record sys_ok (s : Sys CertifiedKey L) : Prop := {
  ok_server : server_ok (srv s);
  ok_locations : Forall (λ th, only (in_heap (heap (srv s))) (th_prog th)) (threads s);
  ok_runs : ∀ i th, threads s !! i = Some th →
    runs (task_prog (th_task th)) (own i (history s)) (th_prog th);
  ok_who : Forall (λ en, (who en < length (threads s))%nat) (history s) }.

Lemma own_app i h h' : own i (h ++ h') = own i h ++ own i h'.
Proof. unfold own. by rewrite filter_app, fmap_app. Qed.

Lemma own_fresh i h : Forall (λ en, (who en < i)%nat) h → own i h = [].
Proof.
  intros Hall. unfold own. induction Hall as [|en h Hen _ IH]; [done|].
  rewrite filter_cons. case_decide; [lia|done].
Qed.

(** What answering an effect leaves as it is. *)
Record same_shape (s s' : Server CertifiedKey L) : Prop := {
  shape_current : current s' = current s;
  shape_listen : listen s' = listen s;
  shape_workers : server_workers s' = server_workers s;
  shape_generation : reload_generation s' = reload_generation s;
  shape_managers : length (managers (heap s')) = length (managers (heap s));
  shape_engines : length (engines (heap s')) = length (engines (heap s)) }.

Lemma answer_shape {X} now (e : effect X) (s : Server CertifiedKey L) x s' :
  answer now e s x s' → same_shape s s'.
Proof.
  destruct e; simpl; unfold call_manager, call_engine, read_engine; intros Ha;
    repeat match goal with Hx : ∃ _, _ |- _ => destruct Hx | Hx : _ ∧ _ |- _ => destruct Hx end;
    subst; split; simpl; by rewrite ?length_insert.
Qed.

Lemma server_ok_shape (s s' : Server CertifiedKey L) : same_shape s s' → server_ok s → server_ok s'.
Proof.
  intros [Hc Hl Hw Hg Hm He] [Hcfg Hman Heng Hgen]. split; rewrite ?Hc, ?Hl, ?Hw, ?Hg; try done.
  - apply lookup_lt_is_Some. rewrite Hm. by apply lookup_lt_is_Some.
  - intros loc Hloc. apply lookup_lt_is_Some. rewrite He. by apply lookup_lt_is_Some, Heng.
Qed.

Lemma in_heap_mono (h h' : Heap L) X (e : effect X) :
  (length (managers h) ≤ length (managers h'))%nat →
  (length (engines h) ≤ length (engines h'))%nat →
  in_heap h X e = true → in_heap h' X e = true.
Proof.
  intros Hm He. destruct e; try done; simpl; try (destruct t; [|done]);
    rewrite !Nat.ltb_lt; lia.
Qed.

Lemma server_config_in_heap (s : Server CertifiedKey L) : server_ok s → config_in_heap (heap s) (current s).
Proof.
  intros [_ Hman Heng _]. split; [by apply lookup_lt_is_Some|].
  intros loc Hloc. by apply lookup_lt_is_Some, Heng.
Qed.

Lemma sys_ok_spawn (s : Sys CertifiedKey L) t :
  task_in_heap (heap (srv s)) t → sys_ok s → sys_ok (spawn t s).
Proof.
  intros Ht [Hs Hl Hr Hw]. split; simpl; [done|..].
  - apply Forall_app. split; [done|]. constructor; [by apply task_prog_in_heap|constructor].
  - intros i th [Hi|[Hi Hth]]%lookup_app_Some; [by apply Hr|].
    apply list_lookup_singleton_Some in Hth as [Hi0 <-]. simpl.
    rewrite own_fresh; [constructor|]. eapply Forall_impl; [done|]. simpl. lia.
  - rewrite length_app. eapply Forall_impl; [done|]. simpl. lia.
Qed.

Lemma sys_ok_server (s : Sys CertifiedKey L) (s' : Server CertifiedKey L) :
  server_ok s' → (length (managers (heap (srv s))) ≤ length (managers (heap s')))%nat →
  (length (engines (heap (srv s))) ≤ length (engines (heap s')))%nat →
  sys_ok s → sys_ok (with_srv s' s).
Proof.
  intros Hs' Hm He [Hs Hl Hr Hw]. split; simpl; try done.
  eapply Forall_impl; [done|]. intros th. apply only_mono. intros X e. by apply in_heap_mono.
Qed.

Lemma sys_ok_effect (s : Sys CertifiedKey L) i t X (e : effect X) k x s' :
  threads s !! i = Some (MkThread t (Vis e k)) → answer (clock s) e (srv s) x s' → sys_ok s →
  sys_ok (MkSys s' (clock s) (<[i := MkThread t (k x)]> (threads s) ++ spawns e)
            (history s ++ [MkEntry i (clock s) (Event e x)])).
Proof.
  intros Hi Ha [Hs Hl Hr Hw]. apply answer_shape in Ha as Hsh.
  pose proof (lookup_lt_Some _ _ _ Hi) as Hlt.
  destruct (Forall_lookup_1 _ _ _ _ Hl Hi) as [He Hk]. simpl in He, Hk.
  assert (∀ X (e : effect X), in_heap (heap (srv s)) X e = true → in_heap (heap s') X e = true)
    as Hmono.
  { intros Y e'. destruct Hsh as [_ _ _ _ Hm He']. apply in_heap_mono; lia. }
  split; simpl.
  - by eapply server_ok_shape.
  - apply Forall_app. split; [apply Forall_insert|].
    + eapply Forall_impl; [done|]. intros th. by apply only_mono.
    + simpl. eapply only_mono; [|by apply Hk]. done.
    + destruct e; simpl; try constructor; [|constructor].
      apply task_prog_in_heap. simpl. by apply (Hmono _ (SpawnE t0)).
  - intros j th. rewrite own_app. intros [Hj|[Hj Hth]]%lookup_app_Some.
    + apply list_lookup_insert_Some in Hj as [(-> & <- & _)|[Hne Hj]].
      * unfold own at 2. rewrite filter_cons_True by done. simpl.
        apply (runs_snoc _ _ X e k x). by apply (Hr j (MkThread t (Vis e k))).
      * unfold own at 2. rewrite filter_cons_False by (simpl; done). simpl. rewrite app_nil_r.
        by apply Hr.
    + rewrite length_insert in Hj, Hth.
      rewrite own_fresh by (eapply Forall_impl; [done|]; simpl; lia).
      rewrite own_fresh by (constructor; [simpl; lia|constructor]).
      destruct e; simpl in Hth; try done.
      apply list_lookup_singleton_Some in Hth as [_ <-]. constructor.
  - rewrite length_app, length_insert. apply Forall_app. split.
    + eapply Forall_impl; [done|]. simpl. lia.
    + constructor; [simpl; lia|constructor].
Qed.

Lemma sys_ok_step horizon (s s' : Sys CertifiedKey L) : sys_step horizon s s' → sys_ok s → sys_ok s'.
Proof.
  intros Hstep Hok. pose proof (ok_server _ Hok) as Hs. destruct Hstep.
  - by destruct Hok.
  - destruct (reload_cases env contents (srv s) ltac:(done) Hs)
      as (Hs' & _ & _ & Hm & [_ Hg] & _).
    apply sys_ok_server; [done|by rewrite Hm|by apply prefix_length|done].
  - apply sys_ok_spawn; [|done]. by apply server_config_in_heap.
  - apply sys_ok_server; [|done|done|done].
    eapply server_ok_shape; [|done]. by split.
  - apply sys_ok_spawn; [|done]. by apply server_config_in_heap.
  - by eapply sys_ok_effect.
Qed.

Lemma sys_ok_reachable horizon env cfg path l (s : Sys CertifiedKey L) :
  sys_reachable horizon env cfg path l s → sys_ok s.
Proof.
  induction 1 as [s (Hcfg & Hnew & _ & Hth & Hh) _|s s' _ IH Hstep].
  - apply server_new_ok in Hnew as [Hs _]; [|done].
    split; rewrite ?Hth, ?Hh; try done; constructor.
  - by eapply sys_ok_step.
Qed.

Lemma own_elem j h ev : ev ∈ own j h ↔ ∃ t, MkEntry j t ev ∈ h.
Proof.
  unfold own. rewrite list_elem_of_fmap. setoid_rewrite list_elem_of_filter. split.
  - intros ([w t e] & -> & <- & Hin). by exists t.
  - intros [t Hin]. by eexists (MkEntry j t ev).
Qed.

Lemma own_intro j t ev h : MkEntry j t ev ∈ h → ev ∈ own j h.
Proof. intros Hin. apply own_elem. eauto. Qed.

(** What the program of a task promises, its task has kept so far. *)
Lemma task_wp (s : Sys CertifiedKey L) j t p I Qr Q :
  sys_ok s → threads s !! j = Some (MkThread t p) → wp I (task_prog t) [] Qr Q →
  (∀ X (e : effect X) x, Event e x ∈ own j (history s) →
     ∃ pre post, own j (history s) = pre ++ Event e x :: post ∧ I pre X e) ∧
  wp I p (own j (history s)) Qr Q.
Proof.
  intros Hok Hj Hwp. pose proof (ok_runs _ Hok j _ Hj) as Hr.
  destruct (wp_runs _ _ _ [] _ _ _ Hr Hwp) as [Hp Hev]. split; [|done].
  intros X e x (pre & post & Heq)%list_elem_of_split. exists pre, post. split; [done|].
  by eapply Hev.
Qed.

(** The same for a request, with what it replies. *)
Lemma request_wp (s : Sys CertifiedKey L) j active peer pp req p I (Q : handler_reply → list event → Prop) :
  sys_ok s → threads s !! j = Some (MkThread (RequestTask active peer pp req) p) →
  wp I (handle_request active peer pp req) [] Q Q →
  (∀ X (e : effect X) x, Event e x ∈ own j (history s) →
     ∃ pre post, own j (history s) = pre ++ Event e x :: post ∧ I pre X e) ∧
  ∀ r, p = Return (Replied r) ∨ p = Ret (Replied r) → Q r (own j (history s)).
Proof.
  intros Hok Hj Hwp.
  set (Q' := λ e h, match e with Replied r => Q r h | Ended _ => True end).
  destruct (task_wp s j (RequestTask active peer pp req) p I Q' Q' Hok Hj) as [Hev Hp].
  { by apply wp_pmap. }
  split; [done|]. by intros r [-> | ->].
Qed.
End pool.

(** ** No task is stuck *)

Section progress.
Context {CertifiedKey : Type} `{KeyLoader CertifiedKey} {L : Type → Type} `{LruLaws L} `{Http}.
#[local] Set Default Proof Using "Type*".

Lemma logs_exist rs l : ∃ l', logs rs l l'.
Proof.
  revert l. induction rs as [|r rs IH]; intros l; simpl; [eauto|].
  destruct (IH (log_event [] None r l)) as [l' ?]. by exists l', [], None.
Qed.

Lemma answer_exists {X} now (e : effect X) (s : Server CertifiedKey L) :
  in_heap (heap s) X e = true → ∃ x s', answer now e s x s'.
Proof.
  intros He. destruct e; simpl in He; unfold answer, call_manager, call_engine, read_engine;
    try (apply Nat.ltb_lt, lookup_lt_is_Some in He as [o Ho]; rewrite Ho).
  3: { destruct (logs_exist (record_tls_failure_log now ip o) (log_state s)) as [l ?].
       by eexists _, _, o, l. }
  4: { destruct (logs_exist (cache_insert_log body o) (log_state s)) as [l ?].
       by eexists _, _, o, l. }
  17: { destruct (logs_exist [r] (log_state s)) as [l ?]. by eexists tt, _, l. }
  all: first [by eexists _, _, o | by exists (Err []); eauto | by exists tt; eauto
             | by exists (Ok tt); eauto | by exists now; eauto | by exists []; eauto].
Qed.

(** The next effect of a task can be done, by a step that is nothing else. *)
Lemma effect_possible horizon (s : Sys CertifiedKey L) i t X (e : effect X) k :
  sys_ok s → threads s !! i = Some (MkThread t (Vis e k)) →
  ∃ x s', sys_step horizon s s' ∧ threads s' !! i = Some (MkThread t (k x)) ∧
    clock s' = clock s ∧ history s' = history s ++ [MkEntry i (clock s) (Event e x)].
Proof.
  intros Hs Hi. destruct (Forall_lookup_1 _ _ _ _ (ok_locations _ Hs) Hi) as [He _].
  destruct (answer_exists (clock s) e (srv s) He) as (x & s' & Ha).
  eexists x, _. split; [by eapply step_effect|]. split; [|done]. simpl.
  rewrite lookup_app_l by (rewrite length_insert; by eapply lookup_lt_Some).
  apply list_lookup_insert_eq. by eapply lookup_lt_Some.
Qed.

(** No task ever gets stuck: in every reachable state of the server, across
    any reloads, a task that has not ended can do its next effect, since every
    manager and every cache engine it refers to still exists. *)
Theorem no_task_stuck horizon env cfg path l (s : Sys CertifiedKey L) i t X (e : effect X) k :
  sys_reachable horizon env cfg path l s →
  threads s !! i = Some (MkThread t (Vis e k)) →
  ∃ x s', sys_step horizon s s' ∧ threads s' !! i = Some (MkThread t (k x)).
Proof.
  intros Hs%sys_ok_reachable Hi.
  destruct (effect_possible horizon s i t X e k Hs Hi) as (x & s' & ? & ? & _). eauto.
Qed.
End progress.

(** ** The caches of a running server *)

Section caches.
Context {CertifiedKey : Type} `{KeyLoader CertifiedKey} {L : Type → Type} `{LruLaws L} `{Http}.
#[local] Set Default Proof Using "Type*".

(** Every engine whose capacity does not wrap is in order. *)
Definition engines_ok (s : Server CertifiedKey L) : Prop :=
  Forall (λ e, capacity_ok (max_capacity_bytes e) → engine_ok e) (engines (heap s)).

Lemma new_engine_ok c (e : LruCacheEngine L HeaderMap) :
  new_engine c = Some e → capacity_ok (max_capacity_bytes e) → engine_ok e.
Proof.
  unfold new_engine. destruct c as [c|]; simpl; [|done]. case_if; [|done]. intros [= <-] Hc.
  by eapply reachable_ok; [|apply reach_new].
Qed.

Lemma engines_ok_step (e : LruCacheEngine L HeaderMap) o :
  (capacity_ok (max_capacity_bytes e) → engine_ok e) →
  capacity_ok (max_capacity_bytes (cache_step e o)) → engine_ok (cache_step e o).
Proof. intros He. destruct (cache_step_config e o) as [-> _]. auto using cache_step_ok. Qed.

Lemma answer_engines_ok {X} now (e : effect X) (s : Server CertifiedKey L) x s' :
  answer now e s x s' → engines_ok s → engines_ok s'.
Proof.
  unfold engines_ok. intros Ha Hs.
  destruct e; simpl in Ha; unfold call_manager, call_engine, read_engine in Ha;
    repeat match goal with Hx : ∃ _, _ |- _ => destruct Hx | Hx : _ ∧ _ |- _ => destruct Hx end;
    subst; simpl; try done; apply Forall_insert; try done;
    match goal with Hl : engines _ !! _ = Some ?en |- _ =>
      pose proof (Forall_lookup_1 _ _ _ _ Hs Hl) as Hen end.
  - by apply (engines_ok_step _ (CacheGet now key)).
  - by apply (engines_ok_step _ (CacheInsert created_at key status headers body None)).
Qed.

Lemma reload_engines env contents (s : Server CertifiedKey L) :
  ∃ es, engines (heap (reload env contents s)) = engines (heap s) ++ es ∧
    Forall (λ e, ∃ c, new_engine c = Some e) es.
Proof.
  unfold reload. destruct (reload_alive s); simpl; [|by exists []; rewrite app_nil_r].
  unfold load_active_config_from_path.
  destruct (load_config_from_path env contents) as [[cfg|e]|]; simpl;
    try (by exists []; rewrite app_nil_r).
  repeat (case_if; [by exists []; rewrite app_nil_r|]).
  unfold build_active_config. destruct (build_tls_acceptor _); simpl;
    [|by exists []; rewrite app_nil_r].
  destruct (make_auth_provider _ _); simpl; [|by exists []; rewrite app_nil_r].
  rewrite make_cache_spec. simpl. exists (option_list (new_engine (config_cache cfg))).
  split; [by destruct (update_log_file _ _ _)|].
  destruct (new_engine (config_cache cfg)) eqn:Hn; [|by constructor].
  apply Forall_singleton. by eexists.
Qed.

Lemma server_new_engines env cfg path l (s : Server CertifiedKey L) :
  config_ok cfg → server_new env cfg path l = Some (Ok s) →
  ∃ es, engines (heap s) = es ∧ Forall (λ e, ∃ c, new_engine c = Some e) es.
Proof.
  intros Hcfg Hnew. unfold server_new in Hnew.
  destruct (build_active_config _ _ _ _ _) as [[[a|e] h]|] eqn:Hb; simpl in Hnew; try done.
  destruct (update_log_file _ _ _); simpl in Hnew; [|done].
  apply build_spec in Hb as (_ & _ & _ & _ & _ & ->); [|done].
  injection Hnew as <-. eexists. split; [done|]. cbn [heap engines app].
  destruct (new_engine (config_cache cfg)) eqn:Hn; [|by constructor].
  apply Forall_singleton. by eexists.
Qed.

Lemma engines_ok_reachable horizon env cfg path l (s : Sys CertifiedKey L) :
  sys_reachable horizon env cfg path l s → engines_ok (srv s).
Proof.
  induction 1 as [s (Hcfg & Hnew & _) _|s s' Hr IH Hstep].
  - destruct (server_new_engines _ _ _ _ _ Hcfg Hnew) as (es & Hes & Hall).
    unfold engines_ok. rewrite Hes. eapply Forall_impl; [done|].
    intros e [c Hc]. by eapply new_engine_ok.
  - destruct Hstep; try done; simpl.
    + destruct (reload_engines env0 contents (srv s)) as (es & Hes & Hnew).
      unfold engines_ok. rewrite Hes. apply Forall_app. split; [done|].
      eapply Forall_impl; [done|]. intros e [c Hc]. by eapply new_engine_ok.
    + by eapply answer_engines_ok.
Qed.

(** C13: The caches of a running server never outgrow their capacity: whatever the
    tasks and reloads do, in every engine the bytes stored are within the counter,
    the counter within the configured capacity, and the entries at most 10,000. *)
Theorem server_caches_bounded horizon env cfg path l (s : Sys CertifiedKey L) loc e :
  sys_reachable horizon env cfg path l s → engines (heap (srv s)) !! loc = Some e →
  capacity_ok (max_capacity_bytes e) →
  0 ≤ total (entries e) ≤ current_memory_bytes e ∧ current_memory_bytes e ≤ max_capacity_bytes e ∧
  NoDup (entries e).*1 ∧ entry_count e ≤ 10000.
Proof.
  intros Hr Hl Hc. pose proof (engines_ok_reachable _ _ _ _ _ _ Hr) as Hall.
  destruct (Forall_lookup_1 _ _ _ _ Hall Hl Hc) as [[Hl1 Hl2] Hcap He _ Hb].
  pose proof (entries_ok_nonneg _ _ _ _ He). destruct He as [Hnd Hsz Hlen Hcov].
  unfold current_memory_bytes, entry_count. rewrite Hl1, Hl2, lru_len_spec.
  split_and!; try done. change (lru_entries (cache_inner e)) with (entries e).
  unfold lru_capacity in Hlen. lia.
Qed.
End caches.

(** ** Examples *)

Section system_witnesses.
#[local] Existing Instance SimpleHttp.
#[local] Existing Instance trivial_loader.

(** The first request of the day, at its first effect *)
Lemma no_task_stuck_witness :
  match threads (shop_day 5) !! 1%nat with
  | Some (MkThread t (Vis e k)) =>
      ∃ x s', sys_step shop_horizon (shop_day 5) s' ∧ threads s' !! 1%nat = Some (MkThread t (k x))
  | _ => False
  end.
Proof.
  assert (match threads (shop_day 5) !! 1%nat with
          | Some (MkThread _ (Vis _ _)) => true | _ => false end = true) as Hvis
    by (vm_compute; reflexivity).
  destruct (threads (shop_day 5) !! 1%nat) as [[t p]|] eqn:Hi; [|discriminate Hvis].
  destruct p as [r|r|X e k]; [discriminate Hvis|discriminate Hvis|].
  exact (no_task_stuck shop_horizon sample_env shop_file (lit "proxy.conf") empty_log (shop_day 5)
    1 t X e k (shop_day_reachable 5) Hi).
Defined.

Lemma server_caches_bounded_witness :
  match engines (heap (srv (shop_day 16))) !! 0%nat with
  | Some e => entry_count e = 1 ∧ current_memory_bytes e ≤ max_capacity_bytes e
  | None => False
  end.
Proof.
  assert (match engines (heap (srv (shop_day 16))) !! 0%nat with
          | Some e => (entry_count e =? 1) && (max_capacity_bytes e =? 67108864)
          | None => false end = true) as Hfig by (vm_compute; reflexivity).
  destruct (engines (heap (srv (shop_day 16))) !! 0%nat) as [e|] eqn:He; [|discriminate Hfig].
  apply andb_true_iff in Hfig as [Hn%Z.eqb_eq Hc%Z.eqb_eq]. split; [exact Hn|].
  apply (server_caches_bounded shop_horizon sample_env shop_file (lit "proxy.conf") empty_log
    (shop_day 16) 0 e (shop_day_reachable 16) He).
  rewrite Hc. split; [discriminate|reflexivity].
Defined.
End system_witnesses.
