(* ===== verification/SystemSecurity.v ===== *)
(** * The security of the running server

    All tasks of a server, across reloads, talk to one security manager.  Its
    state and its replies are those of the history specification applied to the
    sequence of its calls in the history of the system, so it never panics; the
    rate limit and the bans hold for the server as a whole. *)

From S2P Require Import Prelude RustStr NetAddr Log Config Comments Parser ParserSpec Router Security SecuritySpec SecurityProps Cache CacheSpec ProxyProtocol Http Effects ErrorPages Auth Tls Runtime RuntimeSpec Proxy ProxySpec Worker EndToEnd System SystemRun SystemSpec.

Section manager.
Context {CertifiedKey : Type} `{KeyLoader CertifiedKey} {L : Type → Type} `{LruLaws L} `{Http}.
#[local] Set Default Proof Using "Type*".

(** ** The calls of the manager *)

(** The call on the manager that an event is, with its reply; [None] for a panic *)
Definition event_call (t : Z) (ev : event) : option (call * option reply) :=
  match ev with
  | Event e x =>
      match e in effect X return X → option (call * option reply) with
      | IsBlacklistedE _ i => λ x, Some (MkCall t IsBlacklisted i, RBool <$> x)
      | CheckRequestE _ i => λ x, Some (MkCall t CheckAndRecordRequest i, RResult <$> x)
      | RecordTlsFailureE _ i => λ x, Some (MkCall t RecordTlsFailure i, RBool <$> x)
      | _ => λ _, None
      end x
  end.

Definition entry_call (en : entry) : option (call * option reply) :=
  event_call (when en) (what en).

Definition manager_calls (h : list entry) : list call := (omap entry_call h).*1.

Definition manager_replies (h : list entry) : list (option reply) := (omap entry_call h).*2.

Lemma manager_calls_snoc h en :
  manager_calls (h ++ [en]) = manager_calls h ++ option_list (fst <$> entry_call en).
Proof. unfold manager_calls. rewrite omap_app, fmap_app. simpl. by destruct (entry_call en). Qed.

Lemma manager_replies_snoc h en :
  manager_replies (h ++ [en]) = manager_replies h ++ option_list (snd <$> entry_call en).
Proof. unfold manager_replies. rewrite omap_app, fmap_app. simpl. by destruct (entry_call en). Qed.

Lemma settle_map {A B} (f : A → B) (o : outcome A) :
  settle (map_outcome f o) = (f <$> (settle o).1, (settle o).2).
Proof. by destruct o. Qed.

(** An effect is answered by the manager's step, or does not concern it. *)
Lemma answer_manager {X} now (e : effect X) (s : Server CertifiedKey L) x s' m :
  answer now e s x s' → managers (heap s) = [m] →
  match event_call now (Event e x) with
  | Some (c, r) => at_time c = now ∧ r = (settle (step c m)).1 ∧
      managers (heap s') = [(settle (step c m)).2]
  | None => managers (heap s') = [m]
  end.
Proof.
  intros Ha Hm. destruct e; simpl in Ha; unfold call_manager, call_engine, read_engine in Ha;
    repeat match goal with Hx : ∃ _, _ |- _ => destruct Hx | Hx : _ ∧ _ |- _ => destruct Hx end;
    subst; simpl; try done; rewrite settle_map; rewrite Hm in *;
    match goal with Hl : [m] !! _ = Some _ |- _ =>
      apply list_lookup_singleton_Some in Hl as [-> <-] end; done.
Qed.

(** ** The invariant *)

Section invariant.
Context (ban max_failures rpm : Z).

Definition history_of (h : list entry) : History :=
  spec_state ban max_failures rpm (manager_calls h) empty_history.

Definition replies_of (h : list entry) : list reply :=
  spec_run ban max_failures rpm (manager_calls h) empty_history.

(** The only manager is in step with the history, and has replied as it says. *)
Record manager_ok (s : Sys CertifiedKey L) : Prop := {
  ok_clock : 0 ≤ clock s;
  ok_manager : ∃ m, managers (heap (srv s)) = [m] ∧
    sim ban max_failures rpm (clock s) m (history_of (history s));
  ok_replies : manager_replies (history s) = Some <$> replies_of (history s) }.

Lemma spec_state_snoc cs c h :
  spec_state ban max_failures rpm (cs ++ [c]) h =
    (spec_step ban max_failures rpm c (spec_state ban max_failures rpm cs h)).2.
Proof. revert h. induction cs as [|c' cs IH]; intros h; [done|]. apply IH. Qed.

Lemma spec_run_snoc cs c h :
  spec_run ban max_failures rpm (cs ++ [c]) h =
    spec_run ban max_failures rpm cs h ++
      [(spec_step ban max_failures rpm c (spec_state ban max_failures rpm cs h)).1].
Proof. rewrite spec_run_app. simpl. by destruct (spec_step _ _ _ c _). Qed.

Lemma manager_ok_effect (s : Sys CertifiedKey L) i X (e : effect X) x s' ths :
  clock s + ban ≤ instant_max → answer (clock s) e (srv s) x s' → manager_ok s →
  manager_ok (MkSys s' (clock s) ths (history s ++ [MkEntry i (clock s) (Event e x)])).
Proof.
  intros Hno Ha [Hc (m & Hm & Hsim) Hr].
  pose proof (answer_manager _ _ _ _ _ _ Ha Hm) as Hans.
  assert (entry_call (MkEntry i (clock s) (Event e x)) = event_call (clock s) (Event e x)) as He
    by done.
  destruct (event_call (clock s) (Event e x)) as [[c r]|].
  - destruct Hans as (Ht & -> & Hm').
    destruct (step_sim ban max_failures rpm (clock s) m _ c Hsim) as (m' & Hstep & Hsim'); [lia..|].
    rewrite Hstep in He, Hm'. rewrite Ht in Hsim'. simpl in He, Hm'.
    split; simpl; [done|exists m'; split; [done|]|]; unfold history_of, replies_of in *;
      rewrite ?manager_replies_snoc, manager_calls_snoc, He; simpl.
    + by rewrite spec_state_snoc.
    + by rewrite spec_run_snoc, fmap_app, Hr.
  - split; simpl; [done|exists m; split; [done|]|]; unfold history_of, replies_of in *;
      rewrite ?manager_replies_snoc, manager_calls_snoc, He, ?app_nil_r; done.
Qed.

Lemma manager_ok_step horizon (s s' : Sys CertifiedKey L) :
  horizon + ban ≤ instant_max → clock s ≤ horizon → sys_step horizon s s' → sys_ok s →
  manager_ok s → manager_ok s' ∧ clock s' ≤ horizon.
Proof.
  intros Hno Hc Hstep Hsys Hok.
  destruct Hstep as [s t Ht|s env contents Hav| | | |s i t X e k x s' _ Ha].
  - destruct Hok as [? (m & ? & ?) ?].
    split; [|simpl; lia]. split; simpl; [lia|exists m; split; [done|]|done].
    by eapply sim_mono; [|done]; lia.
  - destruct (reload_cases env contents (srv s) Hav (ok_server _ Hsys)) as (_ & _ & _ & Hm & _).
    destruct Hok as [? (m & ? & ?) ?]. split; [|done].
    split; simpl; [done|exists m; split; [congruence|done]|done].
  - split; [by destruct Hok|done].
  - split; [by destruct Hok|done].
  - split; [by destruct Hok|done].
  - split; [|done]. apply manager_ok_effect; [lia|done|done].
Qed.
End invariant.

(** The reply to a call is that of the history before it. *)
Lemma reply_at ban max_failures rpm h en h' c r :
  manager_replies (h ++ en :: h') = Some <$> replies_of ban max_failures rpm (h ++ en :: h') →
  entry_call en = Some (c, r) →
  r = Some (spec_step ban max_failures rpm c (history_of ban max_failures rpm h)).1.
Proof.
  unfold replies_of, history_of, manager_replies, manager_calls. intros Heq Hen.
  rewrite omap_app, !fmap_app, spec_run_app, fmap_app in Heq.
  apply app_inj_1 in Heq as [_ Heq]; [|by rewrite !length_fmap, length_spec_run, length_fmap].
  simpl in Heq. rewrite Hen in Heq. simpl in Heq.
  destruct (spec_step ban max_failures rpm c _). by injection Heq as ->.
Qed.

Lemma history_of_app ban max_failures rpm h h' :
  history_of ban max_failures rpm (h ++ h') =
    spec_state ban max_failures rpm (manager_calls h') (history_of ban max_failures rpm h).
Proof.
  unfold history_of, manager_calls. rewrite omap_app, fmap_app. generalize (omap entry_call h).*1.
  intros cs. generalize empty_history. induction cs as [|c cs IH]; intros k; [done|]. apply IH.
Qed.

(** The limits the server was started with *)
Definition ban_of (cfg : Config) : Z := ban_duration (inner (from_security_config (security cfg))).
Definition failures_of (cfg : Config) : Z :=
  max_tls_failures (inner (from_security_config (security cfg))).
Definition rpm_of (cfg : Config) : Z := rate_limit_rpm (inner (from_security_config (security cfg))).

Lemma from_security_config_new cfg :
  from_security_config (security cfg) = new (ban_of cfg) (failures_of cfg) (rpm_of cfg).
Proof. unfold ban_of, failures_of, rpm_of. by destruct (security cfg). Qed.

Lemma manager_ok_reachable horizon env cfg path l (s : Sys CertifiedKey L) :
  horizon + ban_of cfg ≤ instant_max → sys_reachable horizon env cfg path l s →
  manager_ok (ban_of cfg) (failures_of cfg) (rpm_of cfg) s ∧ clock s ≤ horizon.
Proof.
  intros Hno. induction 1 as [s (Hcfg & Hnew & Hc & Hth & Hh) Hhor|s s' Hr [IH Hc] Hstep].
  - apply server_new_ok in Hnew as (_ & _ & _ & Hm & _); [|done]. split; [|done].
    rewrite from_security_config_new in Hm. split; [done| |by rewrite Hh].
    eexists. split; [done|]. rewrite Hh. eapply sim_mono; [done|]. apply new_sim.
  - eapply manager_ok_step; try done. by eapply sys_ok_reachable.
Qed.
End manager.

(** ** What a handler asks the manager *)

Section handler.
Context {CertifiedKey : Type} `{Http}.
#[local] Set Default Proof Using "Type*".
Implicit Types (active : ActiveConfig CertifiedKey) (h : list event).

(** The manager was asked, and knew of no ban. *)
Definition not_banned (sm : nat) (i : IpAddr) h : Prop :=
  Event (IsBlacklistedE sm i) (Some false) ∈ h.

(** The manager let the client through. *)
Definition passed (sm : nat) (i : IpAddr) h : Prop :=
  not_banned sm i h ∧
  ∃ n, Event (CheckRequestE sm i) (Some (Ok n)) ∈ h.

(** A call on the manager panicked. *)
Definition manager_panicked h : Prop := ∃ ev c, ev ∈ h ∧ event_call 0 ev = Some (c, None).

Lemma passed_snoc sm i h ev : passed sm i h → passed sm i (h ++ [ev]).
Proof. intros [? [n ?]]. unfold not_banned in *. split; [unfold not_banned|exists n]; set_solver. Qed.

(** A reply for hyper, and not a panic *)
Definition replies {A} (r : option A) : Prop := is_Some r.

Lemma auth_gate_replies active m v req :
  ends replies (λ _, True) (auth_gate active m v req).
Proof.
  unfold auth_gate. destruct (matched_auth_required m); [|done].
  destruct (auth_provider active) as [p|]; [|simpl; unfold replies; eauto].
  apply ends_bind, ends_invoke. intros [[hs|resp]|e]; simpl; unfold replies; eauto.
  by destruct (hm_len hs =? 0)%nat.
Qed.

Lemma forward_replies active engine m v req :
  ends replies (λ _, True) (forward active engine m v req).
Proof.
  unfold forward. apply ends_bind. eapply ends_any; [apply auth_gate_replies|]. intros hs.
  apply ends_bind. unfold try_. destruct (forwarded_request _ _ _ _ _); simpl; [|unfold replies; eauto].
  intros [resp|e]; simpl; [|done]. unfold upstream_answer.
  repeat (case_if; [simpl; unfold replies; eauto|]).
  apply ends_bind. unfold exceeds_max_file_size.
  destruct (content_length _), engine; simpl; intros; repeat case_match; try done;
    unfold store_response; by destruct (body_collect _).
Qed.

(** The part of the handler after the security gate *)
Lemma handler_replies active v req :
  ends replies replies
    (_ ← body_gate (max_body active) v;
     let matched := match_route (router active) (v_host v) (v_path v) in
     let engine := request_engine active matched (req_method req) in
     _ ← cache_lookup engine matched v;
     result ← match matched with
              | Some m => forward active engine m v req
              | None => no_matching_route active v
              end;
     finish_request matched v result).
Proof.
  apply ends_bind. unfold body_gate.
  eapply ends_any; [destruct (content_length _); [case_if|]; simpl; unfold replies; eauto|].
  intros _. cbv zeta. set (matched := match_route _ _ _).
  set (engine := request_engine _ _ _). apply ends_bind. unfold cache_lookup.
  eapply ends_any; [destruct engine; [|done]; simpl; intros [cached|]; simpl; unfold replies; eauto|].
  intros _. apply ends_bind. eapply ends_any.
  - destruct matched; [apply forward_replies|done].
  - intros resp. simpl. unfold replies. eauto.
Qed.

(** What a handler may do when: with the manager's reply about bans missing, only
    ask for it and write to the log; before the rate limit is checked, only check. *)
Definition gated (sm : nat) (i : IpAddr) h X (e : effect X) : Prop :=
  match e with
  | IsBlacklistedE _ _ | LogE _ | ElapsedE => True
  | CheckRequestE _ _ => not_banned sm i h
  | _ => passed sm i h
  end.

(** How a handler may end: shut out, or with a reply, or by a panic of the manager. *)
Definition gated_end (sm : nat) (i : IpAddr) (r : handler_reply) h : Prop :=
  (replies r ∨ manager_panicked h) ∧
  (r = Some (Ok no_response_444) ∨ not_banned sm i h ∨ manager_panicked h).

Lemma wp_security_gate active v i (Q : unit → list event → Prop) (sm := security_manager active) :
  parse_ip (v_client_ip v) = Some i → (∀ h, passed sm i h → Q tt h) →
  wp (gated sm i) (security_gate active v) [] (gated_end sm i) Q.
Proof.
  intros Hip HQ. unfold security_gate. rewrite Hip. simpl. fold sm.
  assert (∀ h ev c, event_call 0 ev = Some (c, None) → gated_end sm i None (h ++ [ev])) as Hpanic.
  { intros h ev c Hev. assert (manager_panicked (h ++ [ev])); [|split; auto].
    exists ev, c. split; [set_solver|done]. }
  split; [done|]. intros [[]|]; simpl; [|split|by eapply (Hpanic [])].
  - split; [done|]. intros ?. split; left; [by eexists|done].
  - unfold not_banned. set_solver.
  - intros [[n|n]|]; simpl; [| |by eapply (Hpanic [_])].
    + apply HQ. split; [|exists n]; unfold not_banned; set_solver.
    + do 3 (split; [done|]; intros ?). split; [left; by eexists|right; left].
      unfold not_banned. set_solver.
Qed.

(** A request with a client's address passes the manager before anything else. *)
Lemma wp_handle_request_gated active peer pp req i (sm := security_manager active) :
  parse_ip (resolve_client_ip peer pp (req_headers req)) = Some i →
  wp (gated sm i) (handle_request active peer pp req) [] (gated_end sm i) (gated_end sm i).
Proof.
  intros Hip. unfold handle_request. set (v := request_vars peer pp req).
  apply wp_bind, (wp_security_gate active v i); [done|]. intros h Hh.
  assert (∀ r h, replies r ∧ passed sm i h → gated_end sm i r h) as Hend.
  { intros r h' [Hr [Hp _]]. split; auto. }
  eapply wp_mono; [|..|apply Hend|apply Hend].
  { apply (wp_keep (passed sm i)); [apply passed_snoc|done|apply handler_replies]. }
  intros h' X [] Hp; first [done|exact (proj1 Hp)].
Qed.
(** Every handler ends with a reply, or by a panic of the manager. *)
Lemma wp_handle_request_replies active peer pp req :
  wp (λ _ _ _, True) (handle_request active peer pp req) []
    (λ r h, replies r ∨ manager_panicked h) (λ r h, replies r ∨ manager_panicked h).
Proof.
  destruct (parse_ip (resolve_client_ip peer pp (req_headers req))) as [i|] eqn:Hip.
  - eapply wp_mono; [by apply wp_handle_request_gated|done|..]; by intros r h [? _].
  - unfold handle_request, security_gate. cbn [v_client_ip request_vars]. rewrite Hip.
    eapply wp_mono; [apply (wp_keep (λ _, True)); [done..|apply handler_replies]|done|..];
      intros r h [? _]; auto.
Qed.

(** The effects of a handler that is shut out *)
Definition is_shut_out X (e : effect X) : bool :=
  match e with IsBlacklistedE _ _ | LogE _ | ElapsedE => true | _ => false end.
End handler.

(** ** The server as a whole *)

Section server.
Context {CertifiedKey : Type} `{KeyLoader CertifiedKey} {L : Type → Type} `{LruLaws L} `{Http}.
#[local] Set Default Proof Using "Type*".
Implicit Types (s : Sys CertifiedKey L).

(** Task [j] handles a request of client [i] that went upstream, after checks of
    the rate limit in the window that starts at [t0]. *)
Definition forwarded_in s (i : IpAddr) (t0 : Z) (j : nat) : Prop :=
  ∃ active peer pp req p,
    threads s !! j = Some (MkThread (RequestTask active peer pp req) p) ∧
    parse_ip (resolve_client_ip peer pp (req_headers req)) = Some i ∧
    (∃ r x, Event (UpstreamRequestE r) x ∈ own j (history s)) ∧
    ∀ t sm x, MkEntry j t (Event (CheckRequestE sm i) x) ∈ history s →
      t0 ≤ t ≤ t0 + ROLLING_WINDOW.

Section limits.
Context {horizon : Z} {env : Env} {cfg : Config} {path : str} {l : LogState} {s : Sys CertifiedKey L}.
Context (Hclock : horizon + ban_of cfg ≤ instant_max).
Context (Hreach : sys_reachable horizon env cfg path l s).

Lemma manager_never_panics h j : h ⊆ own j (history s) → ¬ manager_panicked h.
Proof using Type* Hclock Hreach.
  intros Hsub (ev & c & Hin & Hc). apply Hsub, own_elem in Hin as [t Hin].
  destruct (manager_ok_reachable _ _ _ _ _ _ Hclock Hreach) as [[_ _ Hr] _].
  assert (None ∈ manager_replies (history s)) as Hno.
  { apply list_elem_of_fmap. exists (MkCall t (method c) (client c), None). split; [done|].
    apply list_elem_of_omap. eexists. split; [done|]. unfold entry_call. simpl.
    destruct ev as [X e x], e; simpl in *; try done; by destruct x; simplify_eq. }
  rewrite Hr in Hno. by apply list_elem_of_fmap in Hno as (? & ? & _).
Qed.

(** The accepted requests of a client among the entries *)
Definition entry_accepted (i : IpAddr) (t0 : Z) (en : entry) : bool :=
  match entry_call en with
  | Some (c, Some r) => accepted i t0 (c, r)
  | _ => false
  end.

Lemma entries_accepted i t0 (h : list entry) rs :
  manager_replies h = Some <$> rs →
  Z.of_nat (length (List.filter (entry_accepted i t0) h)) =
  accepted_count i t0 (manager_calls h) rs.
Proof.
  revert rs. induction h as [|en h IH]; intros rs Hrs; [done|].
  unfold manager_replies, manager_calls in *. simpl in Hrs. cbn [List.filter omap list_omap].
  unfold entry_accepted at 1. destruct (entry_call en) as [[c r]|]; [|by apply IH].
  destruct rs as [|r' rs]; [done|]. injection Hrs as -> Hrs. specialize (IH rs Hrs).
  change (((c, Some r') :: _).*1) with (c :: (omap entry_call h).*1).
  rewrite accepted_count_cons. destruct (accepted i t0 (c, r')); simpl length; lia.
Qed.

Lemma forwarded_accepted i t0 j :
  forwarded_in s i t0 j → ∃ en, en ∈ history s ∧ who en = j ∧ entry_accepted i t0 en = true.
Proof using Type* Hreach.
  intros (active & peer & pp & req & p & Hj & Hip & (r & x & Hup) & Ht).
  apply sys_ok_reachable in Hreach as Hok.
  destruct (request_wp s j _ _ _ _ p _ _ Hok Hj (wp_handle_request_gated active peer pp req i Hip))
    as [Hev _].
  destruct (Hev _ _ _ Hup) as (pre & post & Hpre & [_ [n Hn]]).
  assert (Event (CheckRequestE (security_manager active) i) (Some (Ok n)) ∈ own j (history s))
    as [t Hen]%own_elem by (rewrite Hpre; set_solver).
  eexists. split; [done|]. split; [done|]. unfold entry_accepted. simpl.
  apply Ht in Hen. rewrite bool_decide_eq_true_2 by done. lia.
Qed.

Lemma forwarded_bounded i t0 (ids : list nat) :
  0 < rpm_of cfg → NoDup ids → Forall (forwarded_in s i t0) ids →
  Z.of_nat (length ids) ≤ rpm_of cfg.
Proof using Type* Hclock Hreach.
  intros Hrpm Hnd Hall.
  destruct (manager_ok_reachable _ _ _ _ _ _ Hclock Hreach) as [[_ _ Hr] _].
  apply (entries_accepted i t0) in Hr as Hacc.
  assert (Z.of_nat (length (List.filter (entry_accepted i t0) (history s))) ≤ rpm_of cfg) as Hle.
  { rewrite Hacc. unfold replies_of.
    destruct (spec_rate_limit (ban_of cfg) (failures_of cfg) (rpm_of cfg) i t0
      (manager_calls (history s)) empty_history Hrpm) as [Ha|Ha]; [lia|].
    change (since i t0 (h_requests empty_history)) with 0 in Ha. lia. }
  etrans; [|done]. apply Nat2Z.inj_le. rewrite <- (length_fmap who (List.filter _ _)).
  apply submseteq_length, NoDup_submseteq; [done|]. intros j Hj.
  rewrite Forall_forall in Hall. destruct (forwarded_accepted i t0 j (Hall j Hj))
    as (en & Hen & <- & Hok).
  apply list_elem_of_fmap. exists en. split; [done|].
  apply list_elem_of_In, filter_In. by rewrite <- list_elem_of_In.
Qed.

(** A ban is remembered: every later question in time is answered with it. *)
Lemma ban_remembered h1 h2 j0 t sm0 sm i j t' x :
  history s = h1 ++ MkEntry j0 t (Event (RecordTlsFailureE sm0 i) (Some true)) :: h2 →
  MkEntry j t' (Event (IsBlacklistedE sm i) x) ∈ h2 → t' < t + ban_of cfg → x = Some true.
Proof using Type* Hclock Hreach.
  intros Hh (h2a & h2b & ->)%list_elem_of_split Ht.
  destruct (manager_ok_reachable _ _ _ _ _ _ Hclock Hreach) as [[_ _ Hr] _]. rewrite Hh in Hr.
  pose proof (reply_at _ _ _ _ _ _ (MkCall t RecordTlsFailure i) _ Hr eq_refl) as [= Hban].
  set (en := MkEntry j0 t _) in *. set (en2 := MkEntry j t' _) in *.
  replace (h1 ++ en :: h2a ++ en2 :: h2b) with ((h1 ++ [en] ++ h2a) ++ en2 :: h2b) in Hr
    by (by rewrite <- !app_assoc).
  pose proof (reply_at _ _ _ _ _ _ (MkCall t' IsBlacklisted i) _ Hr eq_refl) as Hx.
  assert (bannedb (ban_of cfg) t' i
    (history_of (ban_of cfg) (failures_of cfg) (rpm_of cfg) (h1 ++ [en] ++ h2a)) = true) as Hb.
  { apply bannedb_spec. exists t. split; [|done].
    rewrite app_assoc, history_of_app, history_of_app. apply spec_state_bans. left.
    change (manager_calls [en]) with [MkCall t RecordTlsFailure i].
    cbn [spec_state].
    apply spec_step_bans. right. split; [|done]. split; [done|]. right. split; [done|].
    cbn [spec_step]. by rewrite <- Hban. }
  cbn [spec_step fst] in Hx. rewrite Hb in Hx. destruct x as [b|]; [|done]. simpl in Hx. congruence.
Qed.
End limits.

(** C2: The rate limit holds for the whole server, whatever its tasks do, in
    whatever order, and across any reloads: of the requests of one client whose
    checks fall into any window of sixty seconds, at most the [rate_limit_rpm] the
    server was started with are sent to an upstream. *)
Theorem server_rate_limit horizon env cfg path l s (i : IpAddr) (t0 : Z) (ids : list nat) :
  horizon + ban_of cfg ≤ instant_max → sys_reachable horizon env cfg path l s →
  0 < rpm_of cfg → NoDup ids → Forall (forwarded_in s i t0) ids →
  Z.of_nat (length ids) ≤ rpm_of cfg.
Proof. intros. by eapply forwarded_bounded. Qed.

(** C5: A client that was banned for failed TLS handshakes is shut out of the whole
    server: a request of that address that is handled after the ban and before it
    runs out does nothing but ask for the ban and write to the log, and is answered
    with status 444 if it is answered at all. *)
Theorem banned_client_shut_out horizon env cfg path l s h1 j0 t sm i h2 j active peer pp req p :
  horizon + ban_of cfg ≤ instant_max → sys_reachable horizon env cfg path l s →
  history s = h1 ++ MkEntry j0 t (Event (RecordTlsFailureE sm i) (Some true)) :: h2 →
  threads s !! j = Some (MkThread (RequestTask active peer pp req) p) →
  parse_ip (resolve_client_ip peer pp (req_headers req)) = Some i →
  own j h1 = [] → Forall (λ en, who en = j → when en < t + ban_of cfg) h2 →
  Forall (event_in is_shut_out) (own j (history s)) ∧
  ∀ r, p = Return (Replied r) ∨ p = Ret (Replied r) → r = Some (Ok no_response_444).
Proof.
  intros Hclock Hreach Hh Hj Hip Hbefore Hafter.
  assert (¬ not_banned (security_manager active) i (own j (history s))) as Hnb.
  { intros [t' Hin]%own_elem. rewrite Hh in Hin.
    apply elem_of_app in Hin as [Hin|[Hin|Hin]%elem_of_cons]; [|done|].
    - assert (own j h1 ≠ []); [|done]. intros Hnil.
      assert (Event (IsBlacklistedE (security_manager active) i) (Some false) ∈ own j h1)
        as Hin' by (apply own_elem; eauto). rewrite Hnil in Hin'. by apply elem_of_nil in Hin'.
    - rewrite Forall_forall in Hafter.
      pose proof (ban_remembered Hclock Hreach _ _ _ _ _ _ _ _ _ _ Hh Hin
        (Hafter _ Hin eq_refl)). done. }
  apply sys_ok_reachable in Hreach as Hok.
  destruct (request_wp s j _ _ _ _ p _ _ Hok Hj (wp_handle_request_gated active peer pp req i Hip))
    as [Hev Hend]. split.
  - apply Forall_forall. intros [X e x] Hin.
    destruct (Hev X e x Hin) as (pre & post & Hpre & Hg).
    assert (¬ not_banned (security_manager active) i pre) as Hnp.
    { unfold not_banned in *. rewrite Hpre in Hnb. set_solver. }
    destruct e; try done; exfalso; apply Hnp; apply Hg.
  - intros r Hr. destruct (Hend r Hr) as [_ [?|[?|Hpan]]]; [done|done|].
    exfalso. by eapply (manager_never_panics Hclock Hreach).
Qed.

(** C22: No request is ever left without a reply by a panic: as long as the clock
    stays a ban's length below its end, every handler that has ended gave hyper a
    response or an error. *)
Theorem handlers_never_panic horizon env cfg path l s j active peer pp req p r :
  horizon + ban_of cfg ≤ instant_max → sys_reachable horizon env cfg path l s →
  threads s !! j = Some (MkThread (RequestTask active peer pp req) p) →
  p = Return (Replied r) ∨ p = Ret (Replied r) → r ≠ None.
Proof.
  intros Hclock Hreach Hj Hp ->. apply sys_ok_reachable in Hreach as Hok.
  destruct (request_wp s j _ _ _ _ p _ _ Hok Hj (wp_handle_request_replies active peer pp req))
    as [_ Hend].
  destruct (Hend None Hp) as [[? ?]|Hpan]; [done|].
  by eapply (manager_never_panics Hclock Hreach).
Qed.
End server.

(** ** Examples *)

Section security_witnesses.
#[local] Existing Instance SimpleHttp.
#[local] Existing Instance trivial_loader.

Definition shop_client : IpAddr := V4 1 2 3 4.

Lemma shop_clock : shop_horizon + ban_of shop_file ≤ instant_max.
Proof.
  assert (ban_of shop_file = 60000000000) as -> by (vm_compute; reflexivity).
  unfold shop_horizon, instant_max, nanos_per_sec. lia.
Qed.

(** A request of the client, in flight or done *)
Definition is_request_of (i : IpAddr) (th : thread unit) : bool :=
  match th_task th with
  | RequestTask _ peer pp req =>
      bool_decide (parse_ip (resolve_client_ip peer pp (req_headers req)) = Some i)
  | _ => false
  end.

Lemma is_request_of_spec i th :
  is_request_of i th = true → ∃ active peer pp req p,
    th = MkThread (RequestTask active peer pp req) p ∧
    parse_ip (resolve_client_ip peer pp (req_headers req)) = Some i.
Proof.
  destruct th as [[active peer pp req| |] p]; [|done..].
  intros Hip%bool_decide_eq_true_1. by eexists _, _, _, _, _.
Qed.

(** [forwarded_in], for a window in which everything happened *)
Definition forwarded_check (s : Sys unit ListLru) (i : IpAddr) (t0 : Z) (j : nat) : bool :=
  default false (is_request_of i <$> threads s !! j) &&
  existsb is_upstream (own j (history s)) &&
  forallb (λ en, (t0 <=? when en) && (when en <=? t0 + ROLLING_WINDOW)) (history s).

Lemma forwarded_check_spec s i t0 j : forwarded_check s i t0 j = true → forwarded_in s i t0 j.
Proof.
  unfold forwarded_check. rewrite !andb_true_iff, existsb_exists, forallb_forall.
  intros [[Hth ([X e x] & Hin & Hup)] Hall].
  destruct (threads s !! j) as [th|] eqn:Hj; [|done].
  destruct (is_request_of_spec i th Hth) as (active & peer & pp & req & p & -> & Hip).
  exists active, peer, pp, req, p. split_and!; [done|done|..].
  - destruct e; try done. eexists _, _. by apply list_elem_of_In.
  - intros t sm y Hen%list_elem_of_In%Hall. simpl in Hen. lia.
Qed.

Lemma server_rate_limit_witness :
  Z.of_nat (length [1%nat]) ≤ rpm_of shop_file.
Proof.
  apply (server_rate_limit shop_horizon sample_env shop_file (lit "proxy.conf") empty_log
    (shop_day 12) shop_client 0 [1%nat]).
  - exact shop_clock.
  - exact (shop_day_reachable 12).
  - vm_compute. reflexivity.
  - apply NoDup_singleton.
  - constructor; [|constructor]. apply forwarded_check_spec. vm_compute. reflexivity.
Defined.

Definition shop_ban : entry :=
  MkEntry 4 10 (Event (RecordTlsFailureE 0 shop_client) (Some true)).

Definition is_shop_ban (en : entry) : bool :=
  (who en =? 4)%nat && (when en =? 10) &&
  match what en with
  | Event e x =>
      match e in effect X return X → bool with
      | RecordTlsFailureE loc i => λ x,
          (loc =? 0)%nat && bool_decide (i = shop_client) && default false x
      | _ => λ _, false
      end x
  end.

Lemma is_shop_ban_spec en : is_shop_ban en = true → en = shop_ban.
Proof.
  unfold is_shop_ban. destruct en as [w t [X e x]]. simpl.
  rewrite !andb_true_iff, Nat.eqb_eq, Z.eqb_eq. intros [[-> ->] He].
  destruct e; try done. rewrite !andb_true_iff, Nat.eqb_eq in He.
  destruct He as [[-> ->%bool_decide_eq_true_1] Hx]. by destruct x as [[]|].
Qed.

Lemma shop_history :
  history (shop_day 41) = take 29 (history (shop_day 41)) ++ shop_ban :: drop 30 (history (shop_day 41)).
Proof.
  assert (default false (is_shop_ban <$> history (shop_day 41) !! 29%nat) = true) as Hban
    by (vm_compute; reflexivity).
  destruct (history (shop_day 41) !! 29%nat) as [en|] eqn:Hen; [|discriminate Hban].
  apply is_shop_ban_spec in Hban as ->. symmetry. by apply take_drop_middle.
Qed.

Lemma banned_client_shut_out_witness :
  Forall (event_in is_shut_out) (own 5 (history (shop_day 41))).
Proof.
  assert (default false (is_request_of shop_client <$> threads (shop_day 41) !! 5%nat) = true)
    as Hth by (vm_compute; reflexivity).
  destruct (threads (shop_day 41) !! 5%nat) as [th|] eqn:Hj; [|discriminate Hth].
  destruct (is_request_of_spec shop_client th Hth) as (active & peer & pp & req & p & -> & Hip).
  apply (banned_client_shut_out shop_horizon sample_env shop_file (lit "proxy.conf") empty_log
    (shop_day 41) (take 29 (history (shop_day 41))) 4 10 0 shop_client
    (drop 30 (history (shop_day 41))) 5 active peer pp req p).
  - exact shop_clock.
  - exact (shop_day_reachable 41).
  - exact shop_history.
  - exact Hj.
  - exact Hip.
  - vm_compute. reflexivity.
  - apply Forall_forall. intros en Hen _.
    assert (forallb (λ en, when en <? 10 + ban_of shop_file) (drop 30 (history (shop_day 41))) = true)
      as Hall by (vm_compute; reflexivity).
    rewrite forallb_forall in Hall.
    exact (proj1 (Z.ltb_lt _ _) (Hall en (proj1 (list_elem_of_In _ _) Hen))).
Defined.

Lemma handlers_never_panic_witness :
  match threads (shop_day 41) !! 5%nat with
  | Some (MkThread (RequestTask _ _ _ _) (Return (Replied r))) => r ≠ None
  | _ => False
  end.
Proof.
  assert (match threads (shop_day 41) !! 5%nat with
          | Some (MkThread (RequestTask _ _ _ _) (Return (Replied _))) => true
          | _ => false end = true) as Hth by (vm_compute; reflexivity).
  destruct (threads (shop_day 41) !! 5%nat) as [[[active peer pp req| |] [?|[r|]|]]|] eqn:Hj;
    try discriminate Hth.
  eapply (handlers_never_panic shop_horizon sample_env shop_file (lit "proxy.conf") empty_log
    (shop_day 41) 5 active peer pp req).
  - exact shop_clock.
  - exact (shop_day_reachable 41).
  - exact Hj.
  - left. reflexivity.
Defined.
End security_witnesses.
