(* ===== verification/SystemCache.v ===== *)
(** * Where cached answers come from

    Whatever a cache of the running server would serve was stored by a task that a
    request handler spawned, and is the answer an upstream gave to that handler. *)

From S2P Require Import Prelude RustStr NetAddr Log Config Comments Parser ParserSpec Router Security Cache CacheSpec ProxyProtocol Http Effects ErrorPages Auth Tls Runtime RuntimeSpec Proxy ProxySpec Worker System SystemRun SystemSpec.

(** ** Who may spawn and who may insert *)

Section roles.
Context {CertifiedKey : Type} `{KeyLoader CertifiedKey} {L : Type → Type} `{LruOps L} `{Http}.
#[local] Set Default Proof Using "Type*".

(** Only a handler spawns, and only the task it spawned for it inserts. *)
Definition in_role (t : task CertifiedKey) X (e : effect X) : Prop :=
  match e with
  | CacheInsertE loc _ key status headers body =>
      ∃ client_ip host path,
        t = SpawnedTask (InsertTask loc key status headers body client_ip host path)
  | SpawnE _ => ∃ active peer pp req, t = RequestTask active peer pp req
  | _ => True
  end.

Definition is_no_insert X (e : effect X) : bool :=
  match e with CacheInsertE _ _ _ _ _ _ => false | _ => true end.

Definition is_no_task X (e : effect X) : bool :=
  match e with CacheInsertE _ _ _ _ _ _ | SpawnE _ => false | _ => true end.

Lemma handle_request_no_insert active peer pp req :
  only is_no_insert (handle_request (CertifiedKey := CertifiedKey) active peer pp req).
Proof. eapply only_mono; [|apply handle_request_effects]. by intros X []. Qed.

Lemma handle_connection_no_task now active serving stream peer :
  only is_no_task (handle_connection (CertifiedKey := CertifiedKey) now active serving stream peer).
Proof.
  unfold handle_connection, drop_blacklisted, resolve_peer, serve_connection.
  apply only_bind; [solve_only|]. intros _. apply only_bind.
  - destruct (active_security active); [|done]. apply only_bind; [by apply log_all_only|]. solve_only.
  - intros [[ps addr] b]. solve_only.
Qed.

Lemma wp_in_role t :
  wp (λ _, in_role t) (task_prog t) [] (λ _ _, True) (λ _ _, True).
Proof.
  destruct t as [active peer pp req|now active serving stream peer|[]]; apply wp_pmap.
  - apply (wp_only is_no_insert); [apply handle_request_no_insert| |done|done].
    intros hist X [] He; simpl in *; try done. eauto 6.
  - apply (wp_only is_no_task); [apply handle_connection_no_task| |done|done].
    by intros hist X [].
  - simpl. split; [done|]. intros created. split; [eauto|]. intros res.
    do 3 (split; [done|]; intros ?). by destruct (inserted res).
  - apply (wp_only is_no_task); [unfold spawned_task, tunnel_task; solve_only| |done|done].
    by intros hist X [].
Qed.
End roles.

(** ** The invariant *)

Section provenance.
Context {CertifiedKey : Type} `{KeyLoader CertifiedKey} {L : Type → Type} `{LruLaws L} `{Http}.
#[local] Set Default Proof Using "Type*".
Implicit Types (s : Sys CertifiedKey L).

(** An insertion of the entry is part of the history. *)
Definition was_inserted (h : list entry) (loc : nat) (x : str * CachedAsset HeaderMap) : Prop :=
  ∃ j t res, MkEntry j t (Event (CacheInsertE loc (created_at x.2) x.1 (asset_status x.2)
    (asset_headers x.2) (asset_body x.2)) res) ∈ h.

Record cache_history_ok (s : Sys CertifiedKey L) : Prop := {
  ok_inserted : ∀ loc e x, engines (heap (srv s)) !! loc = Some e → x ∈ entries e →
    was_inserted (history s) loc x;
  ok_spawned : ∀ j t p, threads s !! j = Some (MkThread (SpawnedTask t) p) →
    ∃ j' t' x, MkEntry j' t' (Event (SpawnE t) x) ∈ history s }.

Lemma was_inserted_app h h' loc x : was_inserted h loc x → was_inserted (h ++ h') loc x.
Proof. intros (j & t & res & Hin). exists j, t, res. set_solver. Qed.

(** What an effect adds to an engine is the entry it inserts. *)
Lemma answer_entries {X} i now (e : effect X) (s s' : Server CertifiedKey L) x loc en' a :
  answer now e s x s' → engines (heap s') !! loc = Some en' → a ∈ entries en' →
  (∃ en, engines (heap s) !! loc = Some en ∧ a ∈ entries en) ∨
  was_inserted [MkEntry i now (Event e x)] loc a.
Proof.
  intros Ha Hl Hin.
  assert (engines (heap s') = engines (heap s) → ∃ en, engines (heap s) !! loc = Some en ∧ a ∈ entries en)
    as Hsame by (intros Heq; rewrite Heq in Hl; eauto).
  destruct e; simpl in Ha; unfold call_manager, call_engine, read_engine in Ha;
    repeat match goal with Hx : ∃ _, _ |- _ => destruct Hx | Hx : _ ∧ _ |- _ => destruct Hx end;
    subst; try (by left; apply Hsame); simpl in Hl;
    apply list_lookup_insert_Some in Hl as [(-> & <- & _)|[_ ?]]; eauto; [left|].
  - eexists. split; [done|]. by eapply cache_get_entries.
  - apply cache_insert_entries in Hin as [?| ->]; [left; eauto|right].
    eexists i, now, _. simpl. by left.
Qed.

Lemma new_engine_entries c (e : LruCacheEngine L HeaderMap) : new_engine c = Some e → entries e = [].
Proof.
  unfold new_engine. destruct c as [c|]; simpl; [|done]. case_if; [|done]. intros [= <-].
  unfold entries. simpl. by destruct (lru_new_spec (V := CachedAsset HeaderMap) lru_capacity).
Qed.

Lemma cache_history_ok_spawn t s :
  (∀ t', t ≠ SpawnedTask t') → cache_history_ok s → cache_history_ok (spawn t s).
Proof.
  intros Ht [Hins Hsp]. split; [done|]. simpl.
  intros j t' p [Hj|[_ Hj]]%lookup_app_Some; [by eapply Hsp|].
  apply list_lookup_singleton_Some in Hj as [_ Hj]. by injection Hj as ? _; destruct (Ht t').
Qed.

Lemma cache_history_ok_effect s i t X (e : effect X) k x (s' : Server CertifiedKey L) :
  threads s !! i = Some (MkThread t (Vis e k)) → answer (clock s) e (srv s) x s' →
  cache_history_ok s →
  cache_history_ok (MkSys s' (clock s) (<[i := MkThread t (k x)]> (threads s) ++ spawns e)
            (history s ++ [MkEntry i (clock s) (Event e x)])).
Proof.
  intros Hi Ha [Hins Hsp]. split; simpl.
  - intros loc en a Hl Hin. destruct (answer_entries i _ _ _ _ _ _ _ _ Ha Hl Hin) as [(en0 & ? & ?)|Hnew].
    + by eapply was_inserted_app, Hins.
    + destruct Hnew as (j & t0 & res & Hin'). exists j, t0, res. apply elem_of_app. by right.
  - assert (∀ t', t = SpawnedTask t' →
      ∃ j t0 x, MkEntry j t0 (Event (SpawnE t') x) ∈ history s) as Hold.
    { intros t' ->. by eapply Hsp. }
    intros j t' p [Hj|[_ Hj]]%lookup_app_Some.
    + assert (∃ j t0 x, MkEntry j t0 (Event (SpawnE t') x) ∈ history s) as (j' & t0 & y & Hin).
      { apply list_lookup_insert_Some in Hj as [(_ & [= -> _] & _)|[_ Hj]]; eauto. }
      exists j', t0, y. apply elem_of_app. by left.
    + destruct e; try done. apply list_lookup_singleton_Some in Hj as [_ Hj].
      injection Hj as -> _. eexists i, _, x. apply elem_of_app. right. by left.
Qed.

Lemma cache_history_ok_reachable horizon env cfg path l s :
  sys_reachable horizon env cfg path l s → cache_history_ok s.
Proof.
  induction 1 as [s (Hcfg & Hnew & _ & Hth & _) _|s s' Hr IH Hstep].
  - split; [|by rewrite Hth]. intros loc e x Hl Hin.
    destruct (server_new_engines _ _ _ _ _ Hcfg Hnew) as (es & Hes & Hall). rewrite Hes in Hl.
    destruct (Forall_lookup_1 _ _ _ _ Hall Hl) as [c Hc%new_engine_entries].
    rewrite Hc in Hin. by apply elem_of_nil in Hin.
  - destruct Hstep as [s t|s env' contents| | | |].
    + by destruct IH.
    + destruct IH as [Hins Hsp]. split; [|done]. intros loc e x Hl Hin. simpl in *.
      destruct (reload_engines env' contents (srv s)) as (es & Hes & Hall). rewrite Hes in Hl.
      apply lookup_app_Some in Hl as [Hl|[_ Hl]]; [by eapply Hins|].
      destruct (Forall_lookup_1 _ _ _ _ Hall Hl) as [c Hc%new_engine_entries].
      rewrite Hc in Hin. by apply elem_of_nil in Hin.
    + by apply cache_history_ok_spawn.
    + by destruct IH.
    + by apply cache_history_ok_spawn.
    + by apply cache_history_ok_effect.
Qed.
End provenance.

(** ** Authenticity *)

Section authenticity.
Context {CertifiedKey : Type} `{KeyLoader CertifiedKey} {L : Type → Type} `{LruLaws L} `{HttpLaws}.
#[local] Set Default Proof Using "Type*".
Implicit Types (s : Sys CertifiedKey L).

Lemma stored_by_app (active : ActiveConfig CertifiedKey) req h h' loc key status headers body :
  stored_by active req h loc key status headers body →
  stored_by active req (h ++ h') loc key status headers body.
Proof.
  intros (? & ? & ? & ? & ? & ? & ? & resp & ? & ?). split_and!; try done.
  exists resp. split; [by apply answered_app|done].
Qed.

(** A task that was spawned to insert: its handler had a reason to. *)
Lemma insert_spawned s j loc key status headers body client_ip host path x :
  sys_ok s →
  Event (SpawnE (InsertTask loc key status headers body client_ip host path)) x ∈ own j (history s) →
  (∃ th, threads s !! j = Some th) →
  ∃ active peer pp req p, threads s !! j = Some (MkThread (RequestTask active peer pp req) p) ∧
    stored_by active req (own j (history s)) loc key status headers body.
Proof.
  intros Hok Hin [[t p] Hj]. destruct (task_wp s j t p _ _ _ Hok Hj (wp_in_role t)) as [Hrole _].
  destruct (Hrole _ _ _ Hin) as (_ & _ & _ & active & peer & pp & req & ->).
  exists active, peer, pp, req, p. split; [done|].
  pose proof (wp_stored active peer pp req) as Hwp.
  destruct (request_wp s j _ _ _ _ p _ _ Hok Hj Hwp) as [Hev _].
  destruct (Hev _ _ _ Hin) as (pre & post & -> & Hst). by apply stored_by_app.
Qed.

Lemma who_thread s j t ev : sys_ok s → MkEntry j t ev ∈ history s → ∃ th, threads s !! j = Some th.
Proof.
  intros Hok Hin. pose proof (ok_who _ Hok) as Hw. rewrite Forall_forall in Hw.
  apply Hw in Hin. by apply lookup_lt_is_Some.
Qed.

(** The entry of an insertion has the time its task read from the clock before. *)
Definition insert_time (h : list event) X (e : effect X) : Prop :=
  match e with CacheInsertE _ created _ _ _ _ => Event NowE created ∈ h | _ => True end.

Lemma wp_insert_time (t : task CertifiedKey) :
  wp insert_time (task_prog t) [] (λ _ _, True) (λ _ _, True).
Proof.
  destruct t as [active peer pp req|now active serving stream peer|[]]; apply wp_pmap.
  - apply (wp_only is_no_insert); [apply handle_request_no_insert|by intros hist X []|done|done].
  - apply (wp_only is_no_task); [apply handle_connection_no_task|by intros hist X []|done|done].
  - simpl. split; [done|]. intros created. split; [by left|]. intros res.
    do 3 (split; [done|]; intros ?). by destruct (inserted res).
  - apply (wp_only is_no_task); [unfold spawned_task, tunnel_task; solve_only| |done|done].
    by intros hist X [].
Qed.

(** What a task has read from the clock is not in the future. *)
Definition clock_read (now : Z) (en : entry) : Prop :=
  match what en with
  | Event e x => match e in effect X return X → Prop with NowE => λ x, x ≤ now | _ => λ _, True end x
  end.

Lemma clock_reads horizon env cfg path l s :
  sys_reachable horizon env cfg path l s → Forall (clock_read (clock s)) (history s).
Proof.
  induction 1 as [s (_ & _ & _ & _ & ->) _|s s' _ IH Hstep]; [constructor|].
  destruct Hstep as [s t Ht| | | | |s i t X e k x s' _ Ha]; try done; simpl.
  - eapply Forall_impl; [done|]. intros [w tm [X e x]]. unfold clock_read. destruct e; simpl; lia.
  - apply Forall_app. split; [done|]. apply Forall_singleton. unfold clock_read. simpl.
    destruct e; try done. destruct Ha as [-> _]. done.
Qed.

Lemma insertion_not_ahead horizon env cfg path l s j t loc created key status headers body res :
  sys_reachable horizon env cfg path l s →
  MkEntry j t (Event (CacheInsertE loc created key status headers body) res) ∈ history s →
  created ≤ clock s.
Proof.
  intros Hr Hen. apply sys_ok_reachable in Hr as Hok.
  destruct (who_thread _ _ _ _ Hok Hen) as [[tk p] Hj].
  destruct (task_wp s j tk p _ _ _ Hok Hj (wp_insert_time tk)) as [Htime _].
  destruct (Htime _ _ _ (own_intro _ _ _ _ Hen)) as (pre & post & Hown & Hnow).
  assert (Event NowE created ∈ own j (history s)) as [t0 Hin]%own_elem
    by (rewrite Hown; apply elem_of_app; by left).
  pose proof (clock_reads _ _ _ _ _ _ Hr) as Hall. rewrite Forall_forall in Hall. by apply Hall in Hin.
Qed.

(** C4: Whatever a cache of the running server would serve, at any moment and
    across reloads, is authentic: it has not run out, counted from a moment that is
    not in the future, and it is the complete 200 answer that an upstream gave to an
    earlier GET or HEAD request with the same cache key, the text [host:path], handled
    under a configuration with this very cache, and not marked no-store or private.
    When neither host has a slash in it and both paths start with one, the earlier
    request was for the same host and path. *)
Theorem cached_answers_authentic horizon env cfg path l s loc e now key a :
  sys_reachable horizon env cfg path l s →
  engines (heap (srv s)) !! loc = Some e → (cache_get now key e).1 = Some a →
  is_expired now a = false ∧ created_at a ≤ clock s ∧
  ∃ j active peer pp req p,
    threads s !! j = Some (MkThread (RequestTask active peer pp req) p) ∧
    stored_by active req (own j (history s)) loc key (asset_status a) (asset_headers a)
      (asset_body a) ∧
    ∀ host pq,
      let host' := authority_or_host (req_uri req) (req_headers req) in
      let pq' := path_and_query_or_root (req_uri req) in
      key = cache_key host pq → plain_target host pq → plain_target host' pq' →
      host' = host ∧ pq' = pq.
Proof.
  intros Hr Hl [Hin Hexp]%cache_get_found. split; [done|].
  apply sys_ok_reachable in Hr as Hok. apply cache_history_ok_reachable in Hr as Hhist.
  destruct Hhist as [Hins Hsp]. destruct (Hins _ _ _ Hl Hin) as (j & t & res & Hen). simpl in Hen.
  split; [by eapply insertion_not_ahead|].
  destruct (who_thread _ _ _ _ Hok Hen) as [[tk p] Hj].
  destruct (task_wp s j tk p _ _ _ Hok Hj (wp_in_role tk)) as [Hrole _].
  destruct (Hrole _ _ _ (own_intro _ _ _ _ Hen))
    as (_ & _ & _ & client_ip & host & path' & ->).
  destruct (Hsp _ _ _ Hj) as (j' & t' & x & Hen').
  destruct (insert_spawned s j' _ _ _ _ _ _ _ _ _ Hok (own_intro _ _ _ _ Hen')
    (who_thread _ _ _ _ Hok Hen')) as (active & peer & pp & req & p' & Hj' & Hst).
  exists j', active, peer, pp, req, p'. split_and!; [done..|].
  intros hst pq host' pq' Hkey Hplain Hplain'. destruct Hst as [Hkey' _].
  apply cache_key_inj; [done..|]. rewrite <- Hkey. symmetry. exact Hkey'.
Qed.
End authenticity.

(** ** Examples *)

Section cache_witnesses.
#[local] Existing Instance SimpleHttp.
#[local] Existing Instance trivial_loader.

(** The second request of the day finds the answer to the first. *)
Lemma cached_answers_authentic_witness :
  match engines (heap (srv (shop_day 25))) !! 0%nat with
  | Some e =>
      match (cache_get 10 (lit "a.b:/x.css") e).1 with
      | Some a => is_expired 10 a = false ∧ created_at a ≤ clock (shop_day 25)
      | None => False
      end
  | None => False
  end.
Proof.
  assert (match engines (heap (srv (shop_day 25))) !! 0%nat with
          | Some e => bool_decide (is_Some (cache_get 10 (lit "a.b:/x.css") e).1)
          | None => false end = true) as Hfound by (vm_compute; reflexivity).
  destruct (engines (heap (srv (shop_day 25))) !! 0%nat) as [e|] eqn:He; [|discriminate Hfound].
  destruct (cache_get 10 (lit "a.b:/x.css") e).1 as [a|] eqn:Ha; [|discriminate Hfound].
  destruct (cached_answers_authentic shop_horizon sample_env shop_file (lit "proxy.conf")
    empty_log (shop_day 25) 0 e 10 (lit "a.b:/x.css") a (shop_day_reachable 25) He Ha)
    as (Hexp & Hpast & _).
  exact (conj Hexp Hpast).
Defined.
End cache_witnesses.
