(* ===== verification/SystemConnections.v ===== *)
(** * Where requests come from

    Every request the running server handles arrived on a connection that a worker
    accepted: its peer and the address it resolved to were cleared by the security
    manager, and the TLS handshake succeeded.  From this, what a client can and
    cannot make the server believe: the address of a peer that is not the trusted
    upstream is the one the manager judges and the one the upstream is told, and
    nobody reaches a protected upstream unless the auth provider vouched for the
    very request. *)

From S2P Require Import Prelude RustStr NetAddr NetAddrSpec Log Config Comments Parser ParserSpec Router Security SecuritySpec SecurityProps Cache CacheSpec ProxyProtocol ProxyProtocolSpec Http Effects ErrorPages Auth Tls Runtime RuntimeSpec Proxy ProxySpec Worker EndToEnd System SystemRun SystemSpec SystemSecurity.

(** ** The system only grows *)

Section growth.
Context {CertifiedKey : Type} `{KeyLoader CertifiedKey} {L : Type → Type} `{LruOps L} `{Http}.
#[local] Set Default Proof Using "Type*".
Implicit Types (s : Sys CertifiedKey L).

(** The tasks of [s] are tasks of [s'], and its history is the beginning of that of [s']. *)
Record grows s s' : Prop := {
  grows_threads : ∀ i t p, threads s !! i = Some (MkThread t p) →
    ∃ p', threads s' !! i = Some (MkThread t p');
  grows_history : history s `prefix_of` history s' }.

#[export] Instance grows_preorder : PreOrder grows.
Proof.
  split.
  - intros s. split; [eauto|done].
  - intros s1 s2 s3 [Ht Hh] [Ht' Hh']. split; [|by etrans].
    intros i t p (p' & Hp')%Ht. by eapply Ht'.
Qed.

Lemma step_grows horizon s s' : sys_step horizon s s' → grows s s'.
Proof.
  intros Hstep. destruct Hstep; split; simpl; try done; eauto using prefix_app_r.
  - intros j t p Hj. exists p. by apply lookup_app_l_Some.
  - intros j t p Hj. exists p. by apply lookup_app_l_Some.
  - intros j t' p Hj. assert (j < length (threads s))%nat as Hlt by by eapply lookup_lt_Some.
    rewrite lookup_app_l by (by rewrite length_insert). destruct (decide (i = j)) as [->|Hne].
    + rewrite list_lookup_insert_eq by done. simplify_eq. eauto.
    + rewrite list_lookup_insert_ne by done. eauto.
Qed.

Lemma own_grows s s' i ev : grows s s' → ev ∈ own i (history s) → ev ∈ own i (history s').
Proof.
  intros [_ [h ->]] [t Hin]%own_elem. apply own_elem. exists t. apply elem_of_app. by left.
Qed.
End growth.

(** ** Connections *)

Section admission.
Context {CertifiedKey : Type} `{KeyLoader CertifiedKey} {L : Type → Type} `{LruLaws L} `{Http}.
#[local] Set Default Proof Using "Type*".
Implicit Types (s : Sys CertifiedKey L).

(** Task [i] is a connection of [peer], accepted with the configuration [active]
    and admitted to the HTTP server as a connection of [addr]. *)
Record admitted s (i : nat) (now : Z) (active : ActiveConfig CertifiedKey) (stream : TcpStream)
    (peer addr : SocketAddr) (is_proxy_protocol : bool) : Prop := {
  admitted_task : ∃ serving p,
    threads s !! i = Some (MkThread (ConnectionTask now active serving stream peer) p);
  admitted_peer : cleared (security_manager active) (ip peer) (own i (history s));
  admitted_addr : cleared (security_manager active) (ip addr) (own i (history s));
  admitted_resolves : resolves now (active_security active) stream peer addr;
  admitted_tls : is_Some (tls_acceptor active) →
    ∃ st, Event (TlsAcceptE st) (Ok tt) ∈ own i (history s);
  admitted_proxied : is_proxy_protocol = true →
    ∃ sec, active_security active = Some sec ∧ ip peer = trusted_upstream sec }.

Lemma admitted_grows s s' i now active stream peer addr pp :
  grows s s' → admitted s i now active stream peer addr pp →
  admitted s' i now active stream peer addr pp.
Proof.
  intros Hg [(srv & p & Ht) Hp Ha Hr Htls Hpp]. split; try done.
  - apply (grows_threads _ _ Hg) in Ht as [p' ?]. by exists srv, p'.
  - by eapply own_grows.
  - by eapply own_grows.
  - intros [st ?]%Htls. exists st. by eapply own_grows.
Qed.

(** Only a connection is served. *)
Definition is_no_serve X (e : effect X) : bool :=
  match e with ServeE _ _ _ _ => false | _ => true end.

Lemma request_no_serve active peer pp req :
  only is_no_serve (task_prog (RequestTask (CertifiedKey := CertifiedKey) active peer pp req)).
Proof.
  apply only_pmap. eapply only_mono; [|apply handle_request_effects]. by intros X [].
Qed.

Lemma spawned_no_serve t :
  only is_no_serve (task_prog (SpawnedTask (CertifiedKey := CertifiedKey) t)).
Proof.
  apply only_pmap. destruct t; simpl; [unfold insert_task|unfold tunnel_task]; solve_only.
Qed.

Lemma serving_connection s i th addr pp :
  sys_ok s → threads s !! i = Some th → serving th addr pp →
  ∃ now active stream peer, admitted s i now active stream peer addr pp.
Proof.
  intros Hok Hi Hs. destruct th as [t p]. unfold serving in Hs. simpl in Hs.
  destruct p as [| |X e k]; try done. destruct e; try done. destruct Hs as [-> ->].
  pose proof (ok_runs _ Hok i _ Hi) as Hruns. simpl th_task in Hruns. simpl th_prog in Hruns.
  destruct t as [a peer' b req|now a srv stream peer'|sp].
  - apply (only_runs is_no_serve) in Hruns as [[? _] _]; [done|]. apply request_no_serve.
  - destruct (task_wp s i _ _ (connection_rule now a srv stream peer') (λ _ _, True) (λ _ _, True)
      Hok Hi) as [_ [(Hc1 & Hc2 & Hr & Htls & Hpp & _) _]]; [by apply wp_pmap, wp_handle_connection|].
    exists now, a, stream, peer'. split; eauto.
  - apply (only_runs is_no_serve) in Hruns as [[? _] _]; [done|]. apply spawned_no_serve.
Qed.

(** Every request has its connection. *)
Definition requests_admitted s : Prop :=
  ∀ j active addr pp req p, threads s !! j = Some (MkThread (RequestTask active addr pp req) p) →
  ∃ i now act stream peer, (i < j)%nat ∧ admitted s i now act stream peer addr pp.

Lemma requests_admitted_grows s s' j :
  grows s s' → requests_admitted s → (∃ t p, threads s !! j = Some (MkThread t p)) →
  ∀ active addr pp req p, threads s' !! j = Some (MkThread (RequestTask active addr pp req) p) →
  ∃ i now act stream peer, (i < j)%nat ∧ admitted s' i now act stream peer addr pp.
Proof.
  intros Hg Hok (t & p & Hj) active addr pp req p' Hj'.
  destruct (grows_threads _ _ Hg _ _ _ Hj) as [p'' Hj'']. simplify_eq.
  apply Hok in Hj as (i & now & act & stream & peer & Hlt & Ha).
  exists i, now, act, stream, peer. split; [done|]. by eapply admitted_grows.
Qed.

Lemma requests_admitted_step horizon s s' :
  sys_ok s → sys_step horizon s s' → requests_admitted s → requests_admitted s'.
Proof.
  intros Hsys Hstep Hok j active addr pp req p Hj. pose proof (step_grows _ _ _ Hstep) as Hg.
  destruct (threads s !! j) as [[t q]|] eqn:Hold.
  { by eapply requests_admitted_grows; eauto. }
  apply lookup_ge_None in Hold.
  destruct Hstep as [| | | |s i th addr' pp' req' Hi Hserve|s i t X e k x s' Hi Ha]; simpl in Hj.
  - apply lookup_lt_Some in Hj. lia.
  - apply lookup_lt_Some in Hj. lia.
  - rewrite lookup_app_r in Hj by done. by apply list_lookup_singleton_Some in Hj as [_ ?].
  - apply lookup_lt_Some in Hj. lia.
  - rewrite lookup_app_r in Hj by done. apply list_lookup_singleton_Some in Hj as [_ Hj].
    injection Hj as <- -> -> -> _.
    destruct (serving_connection s i th _ _ Hsys Hi Hserve) as (now & act & stream & peer & Ha).
    exists i, now, act, stream, peer. split; [|by apply (admitted_grows s)].
    apply lookup_lt_Some in Hi. lia.
  - rewrite lookup_app_r in Hj by (by rewrite length_insert).
    destruct e; try done. by apply list_lookup_singleton_Some in Hj as [_ ?].
Qed.

Lemma requests_admitted_reachable horizon env cfg path l s :
  sys_reachable horizon env cfg path l s → requests_admitted s.
Proof.
  induction 1 as [s (_ & _ & _ & Hth & _) _|s s' Hr IH Hstep].
  - intros j ? ? ? ? ?. by rewrite Hth.
  - eapply requests_admitted_step; [by eapply sys_ok_reachable|done..].
Qed.
End admission.

(** ** What the server believes about its clients *)

Section claims.
Context {CertifiedKey : Type} `{KeyLoader CertifiedKey} {L : Type → Type} `{LruLaws L}
  `{HttpLaws}.
#[local] Set Default Proof Using "Type*".
Implicit Types (s : Sys CertifiedKey L).

(** A peer that is not the trusted upstream is served under its own address. *)
Lemma untrusted_resolves now sec stream peer addr :
  (∀ c, sec = Some c → ip peer ≠ trusted_upstream c) →
  resolves now sec stream peer addr → addr = peer.
Proof.
  intros Hne. destruct sec as [c|]; [|done]. intros [ps Hh]. specialize (Hne c eq_refl).
  unfold handle_proxy_protocol, check_future in Hh. destruct (proxy_protocol c); simpl in Hh;
    [|by simplify_eq].
  rewrite bool_decide_eq_false_2 in Hh by done.
  destruct (read_prefix _ _ _) as [[h s']|e]; [|by destruct e]. simpl in Hh.
  destruct (starts_with h proxy_prefix); by simplify_eq/=.
Qed.

(** What a request may be sent upstream as: the route it matched, the provider's
    word for it on a protected route, and the forwarded form of the request. *)
Definition sent_upstream (active : ActiveConfig CertifiedKey) (peer : SocketAddr) (pp : bool)
    (req : Request) (v := request_vars peer pp req) (pre : list event) X (e : effect X) : Prop :=
  match e with
  | UpstreamRequestE r => ∃ m hs,
      match_route (router active) (v_host v) (v_path v) = Some m ∧
      vouched active v req m hs pre ∧
      forwarded_request m (v_client_ip v) hs (max_body active) req = Ok r
  | _ => True
  end.

Lemma wp_sent_upstream active peer pp req :
  wp (sent_upstream active peer pp req) (handle_request active peer pp req) []
    (λ _ _, True) (λ _ _, True).
Proof.
  apply wp_handle_request; [by intros ? ? []|intros m hs hist r Hm Hv Hr; by exists m, hs|done].
Qed.

Lemma request_sent_upstream s j active peer pp req p r x :
  sys_ok s → threads s !! j = Some (MkThread (RequestTask active peer pp req) p) →
  Event (UpstreamRequestE r) x ∈ own j (history s) →
  ∃ pre post, own j (history s) = pre ++ Event (UpstreamRequestE r) x :: post ∧
    sent_upstream active peer pp req pre _ (UpstreamRequestE r).
Proof.
  intros Hok Hj Hin. destruct (request_wp s j active peer pp req p _ (λ _ _, True) Hok Hj
    (wp_sent_upstream active peer pp req)) as [Hev _]. by apply Hev.
Qed.

(** C18: Every request the running server handles came in on a connection that was
    accepted before: the peer's address and the address it resolved to by the PROXY
    protocol were both found not to be blacklisted, the TLS handshake succeeded if
    the configuration has certificates, and the connection counts as proxied only
    when its peer is the trusted upstream. *)
Theorem requests_come_admitted horizon env cfg path l s j active addr pp req p :
  sys_reachable horizon env cfg path l s →
  threads s !! j = Some (MkThread (RequestTask active addr pp req) p) →
  ∃ i now act stream peer, (i < j)%nat ∧ admitted s i now act stream peer addr pp.
Proof. intros Hr Hj. by eapply requests_admitted_reachable. Qed.

(** C6: The address of a client is out of its reach: whatever a peer that is not the
    trusted upstream sends, in the PROXY protocol or in headers, its requests are
    handled under the address of its connection.  This is the only address the
    security manager is asked about, and the one the upstream is told in
    X-Real-IP and at the end of X-Forwarded-For. *)
Theorem client_address_unforgeable horizon env cfg path l s j active addr pp req p :
  sys_reachable horizon env cfg path l s →
  threads s !! j = Some (MkThread (RequestTask active addr pp req) p) →
  ∃ i now act stream peer, (i < j)%nat ∧ admitted s i now act stream peer addr pp ∧
  ((∀ c, active_security act = Some c → ip peer ≠ trusted_upstream c) → ip_wf (ip peer) →
   addr = peer ∧ pp = false ∧
   (∀ sm i x, Event (IsBlacklistedE sm i) x ∈ own j (history s) → i = ip peer) ∧
   (∀ sm i x, Event (CheckRequestE sm i) x ∈ own j (history s) → i = ip peer) ∧
   ∀ r x, Event (UpstreamRequestE r) x ∈ own j (history s) →
     hm_values (lit "x-real-ip") (req_headers r) = [ip_to_string (ip peer)] ∧
     hm_values (lit "x-forwarded-for") (req_headers r) =
       [forwarded_chain (ip_to_string (ip peer)) (req_headers req)]).
Proof.
  intros Hr Hj. apply sys_ok_reachable in Hr as Hok.
  destruct (requests_admitted_reachable _ _ _ _ _ _ Hr _ _ _ _ _ _ Hj)
    as (i & now & act & stream & peer & Hlt & Ha).
  exists i, now, act, stream, peer. do 2 (split; [done|]). intros Hne Hwf.
  assert (addr = peer) as -> by (eapply untrusted_resolves; [done|by eapply admitted_resolves]).
  assert (pp = false) as ->.
  { destruct pp; [|done]. destruct (admitted_proxied _ _ _ _ _ _ _ _ Ha eq_refl) as (c & Hc & ?).
    by destruct (Hne c). }
  assert (Hask : Forall (event_in (request_effect active (ip_to_string (ip peer))))
    (own j (history s))).
  { change (ip_to_string (ip peer)) with (resolve_client_ip peer false (req_headers req)).
    eapply only_runs; [by apply (ok_runs _ Hok j _ Hj)|].
    apply only_pmap, handle_request_effects. }
  rewrite Forall_forall in Hask. split_and!; try done.
  - intros sm k x [_ Hk]%Hask%bool_decide_eq_true_1. rewrite parse_ip_fmt in Hk by done. by simplify_eq.
  - intros sm k x [_ Hk]%Hask%bool_decide_eq_true_1. rewrite parse_ip_fmt in Hk by done. by simplify_eq.
  - intros r x Hin.
    destruct (request_sent_upstream _ _ _ _ _ _ _ _ _ Hok Hj Hin) as (_ & _ & _ & m & hs & _ & _ & Hf).
    apply forwarded_request_Ok in Hf as (host & _ & Hh).
    by apply forwarded_headers_Ok in Hh as (_ & _ & Hxff & Hreal & _).
Qed.

(** C3: The running server sends nothing to the upstream of a protected route unless
    the auth provider of its configuration was asked about this very request
    before and answered with a 2xx status; and of the identity headers, those the
    provider's answer names reach the upstream with the provider's value only,
    whatever the client sent under the same names. *)
Theorem protected_upstream_vouched horizon env cfg path l s j active peer pp req p m r x
    (v := request_vars peer pp req) :
  sys_reachable horizon env cfg path l s →
  threads s !! j = Some (MkThread (RequestTask active peer pp req) p) →
  match_route (router active) (v_host v) (v_path v) = Some m → matched_auth_required m = true →
  Event (UpstreamRequestE r) x ∈ own j (history s) →
  ∃ pre post provider auth_uri ask resp,
    own j (history s) = pre ++ Event (UpstreamRequestE r) x :: post ∧
    auth_provider active = Some provider ∧ uri_parse (auth_url provider) = Ok auth_uri ∧
    auth_request auth_uri (v_client_ip v) (v_method v) (req_uri req) (req_headers req) = Ok ask ∧
    Event (AuthRequestE ask) (Ok resp) ∈ pre ∧ 200 ≤ resp_status resp < 300 ∧
    ∀ name value, name ∉ own_headers → is_auth_header name = true →
      last (hm_values name (resp_headers resp)) = Some value →
      hm_values name (req_headers r) = [value].
Proof.
  intros Hr Hj Hm Hauth Hin. apply sys_ok_reachable in Hr as Hok.
  destruct (request_sent_upstream _ _ _ _ _ _ _ _ _ Hok Hj Hin)
    as (pre & post & Hown & m' & hs & Hm' & Hv & Hf).
  fold v in Hm', Hv, Hf. rewrite Hm in Hm'. injection Hm' as <-.
  unfold vouched in Hv. rewrite Hauth in Hv.
  destruct Hv as (provider & auth_uri & ask & resp & ? & ? & ? & ? & ? & ->).
  exists pre, post, provider, auth_uri, ask, resp. split_and!; try done; try lia.
  intros name value Hname Hid Hval. apply forwarded_request_Ok in Hf as (host & _ & Hh).
  apply forwarded_headers_Ok in Hh as (_ & _ & _ & _ & Hpass).
  rewrite Hpass by done. unfold passed_on. by rewrite success_headers_values, Hid, Hval.
Qed.
End claims.

(** ** Examples *)

Section connection_witnesses.
#[local] Existing Instance SimpleHttp.
#[local] Existing Instance trivial_loader.

(** A request, in flight or done, that passes a test *)
Definition request_test (test : ActiveConfig unit → SocketAddr → bool → Request → bool)
    (th : option (thread unit)) : bool :=
  match th with
  | Some (MkThread (RequestTask active peer pp req) _) => test active peer pp req
  | _ => false
  end.

Lemma request_test_spec test (th : option (thread unit)) :
  request_test test th = true → ∃ active peer pp req p,
    th = Some (MkThread (RequestTask active peer pp req) p) ∧ test active peer pp req = true.
Proof. destruct th as [[[] p]|]; try done. simpl. intros ?. by eexists _, _, _, _, p. Qed.

Lemma requests_come_admitted_witness :
  ∃ i now act stream peer addr pp, (i < 1)%nat ∧
    admitted (shop_day 5) i now act stream peer addr pp.
Proof.
  assert (request_test (λ _ _ _ _, true) (threads (shop_day 5) !! 1%nat) = true) as Ht
    by (vm_compute; reflexivity).
  apply request_test_spec in Ht as (active & addr & pp & req & p & Hj & _).
  destruct (requests_come_admitted shop_horizon sample_env shop_file (lit "proxy.conf") empty_log
    (shop_day 5) 1 active addr pp req p (shop_day_reachable 5) Hj)
    as (i & now & act & stream & peer & Hlt & Ha).
  exists i, now, act, stream, peer, addr, pp. exact (conj Hlt Ha).
Defined.

Definition is_rate_check (ev : event) : bool :=
  match ev with Event e _ => match e with CheckRequestE _ _ => true | _ => false end end.

Lemma is_rate_check_spec (h : list event) :
  existsb is_rate_check h = true → ∃ sm i x, Event (CheckRequestE sm i) x ∈ h.
Proof.
  intros ([X e x] & Hin%list_elem_of_In & He)%existsb_exists. destruct e; try done. eauto.
Qed.

(** A connection of the client that its configuration does not trust *)
Definition direct_connection (th : option (thread unit)) : bool :=
  match th with
  | Some (MkThread (ConnectionTask _ act _ _ peer) _) =>
      bool_decide (ip peer = shop_client) &&
      forallb (λ c, negb (bool_decide (shop_client = trusted_upstream c)))
        (option_list (active_security act))
  | _ => false
  end.

(** The first request of the day: its forged X-Forwarded-For does not help *)
Lemma client_address_unforgeable_witness :
  ∃ sm x, Event (CheckRequestE sm shop_client) x ∈ own 1 (history (shop_day 12)).
Proof.
  assert (request_test (λ _ _ _ _, true) (threads (shop_day 12) !! 1%nat) = true) as Ht
    by (vm_compute; reflexivity).
  apply request_test_spec in Ht as (active & addr & pp & req & p & Hj & _).
  destruct (client_address_unforgeable shop_horizon sample_env shop_file (lit "proxy.conf") empty_log
    (shop_day 12) 1 active addr pp req p (shop_day_reachable 12) Hj)
    as (i & now & act & stream & peer & Hlt & [(srv & q & Hi) _ _ _ _ _] & Hclaim).
  assert (i = 0%nat) as -> by lia.
  assert (direct_connection (threads (shop_day 12) !! 0%nat) = true) as Hd
    by (vm_compute; reflexivity).
  rewrite Hi in Hd. apply andb_true_iff in Hd as [Hpeer%bool_decide_eq_true_1 Hdirect].
  rewrite Hpeer in Hclaim. destruct Hclaim as (_ & _ & _ & Hcheck & _).
  - intros c Hc. rewrite Hc in Hdirect. simpl in Hdirect.
    rewrite andb_true_r in Hdirect. by apply negb_true_iff, bool_decide_eq_false_1 in Hdirect.
  - repeat split; unfold u8_max; lia.
  - assert (existsb is_rate_check (own 1 (history (shop_day 12))) = true) as Hex
      by (vm_compute; reflexivity).
    apply is_rate_check_spec in Hex as (sm & i & x & Hin). exists sm, x.
    rewrite (Hcheck _ _ _ Hin) in Hin. exact Hin.
Defined.

(** A protected route *)
Definition vault_text : str := text_of
  ["listen 443;"; "workers 1;";
   "route https://a.b/ {"; "forward http://c:1/;"; "auth on;"; "cert c.pem;"; "key k.pem;"; "}";
   "security {"; "forward_auth http://auth/;"; "}"]%string.

(** A connection and a request on it, which is authenticated and forwarded *)
Definition vault_script : list action :=
  Connect [] shop_peer :: replicate 3 (Advance 0 kind_oracle) ++
  Send 0 shop_request :: replicate 9 (Advance 1 kind_oracle).

Definition vault_day : nat → Sys unit ListLru := day_of shop_horizon vault_text vault_script.

Lemma vault_day_reachable n :
  sys_reachable shop_horizon sample_env (file_of vault_text) (lit "proxy.conf") empty_log (vault_day n).
Proof. by apply day_of_reachable; [vm_compute|]. Qed.

(** The request matches a route that is protected *)
Definition is_protected (active : ActiveConfig unit) (peer : SocketAddr) (pp : bool)
    (req : Request) (v := request_vars peer pp req) : bool :=
  default false (matched_auth_required <$> match_route (router active) (v_host v) (v_path v)).

Lemma is_upstream_spec (h : list event) :
  existsb is_upstream h = true → ∃ r x, Event (UpstreamRequestE r) x ∈ h.
Proof.
  intros ([X e x] & Hin%list_elem_of_In & He)%existsb_exists. destruct e; try done. eauto.
Qed.

Lemma protected_upstream_vouched_witness :
  ∃ ask resp, Event (AuthRequestE ask) (Ok resp) ∈ own 1 (history (vault_day 12)) ∧
    200 ≤ resp_status resp < 300.
Proof.
  assert (request_test is_protected (threads (vault_day 12) !! 1%nat) = true) as Ht
    by (vm_compute; reflexivity).
  apply request_test_spec in Ht as (active & peer & pp & req & p & Hj & Hprot).
  assert (existsb is_upstream (own 1 (history (vault_day 12))) = true) as Hup
    by (vm_compute; reflexivity).
  apply is_upstream_spec in Hup as (r & x & Hin). unfold is_protected in Hprot.
  destruct (match_route _ _ _) as [m|] eqn:Hm; [|discriminate Hprot].
  destruct (protected_upstream_vouched shop_horizon sample_env (file_of vault_text)
    (lit "proxy.conf") empty_log (vault_day 12) 1 active peer pp req p m r x
    (vault_day_reachable 12) Hj Hm Hprot Hin)
    as (pre & post & _ & _ & ask & resp & Hown & _ & _ & _ & Hask & Hst & _).
  exists ask, resp. rewrite Hown. split; [apply elem_of_app; left; exact Hask|exact Hst].
Defined.
End connection_witnesses.
