(* ===== verification/SystemProgress.v ===== *)
(** * How long a task takes

    Every task of the running server ends after a bounded number of its own effects:
    a handler does at most fifteen, a connection, an insertion into the cache and a
    tunnel six, whatever the other tasks, the reloads and the network do in
    between.  And it can always go on to its end alone, without another task's help. *)

From S2P Require Import Prelude RustStr NetAddr Log Config Comments Parser ParserSpec Router Security Cache CacheSpec ProxyProtocol Http Effects ErrorPages Auth Tls Runtime RuntimeSpec Proxy ProxySpec Worker System SystemRun SystemSpec.

(** ** The stages of a handler *)

(** [c] is what a task that is spawned counts. *)
Section stages.
Context `{Http} {CertifiedKey : Type} (c : Z).
Implicit Types (active : ActiveConfig CertifiedKey).

Lemma security_gate_takes active v : takes c 5 2 (security_gate active v).
Proof. unfold security_gate. solve_takes. Qed.

Lemma body_gate_takes limit v : takes c 1 0 (body_gate limit v).
Proof. unfold body_gate. solve_takes. Qed.

Lemma cache_lookup_takes engine matched v : takes c 7 1 (cache_lookup engine matched v).
Proof. unfold cache_lookup. solve_takes. Qed.

Lemma authenticate_takes p client_ip method uri headers :
  takes c 3 3 (authenticate p client_ip method uri headers).
Proof. unfold authenticate, log_verdict. solve_takes. Qed.

Lemma auth_gate_takes active m v req : takes c 4 4 (auth_gate active m v req).
Proof.
  unfold auth_gate. destruct (matched_auth_required m); [|done].
  destruct (auth_provider active) as [p|]; [|solve_takes].
  apply (takes_bind c 4 3); [|lia|solve_takes].
  cbn [provider_authenticate forward_auth_provider]. apply takes_invoke, authenticate_takes.
Qed.

Lemma upstream_answer_takes active engine m upgrade v resp b :
  5 ≤ b → 2 + c ≤ b → takes c 1 b (upstream_answer active engine m upgrade v resp).
Proof.
  intros H5 Hc. unfold upstream_answer, exceeds_max_file_size, store_response, bypass_cache.
  solve_takes.
Qed.

Lemma forward_takes active engine m v req b :
  10 ≤ b → 7 + c ≤ b → takes c 6 b (forward active engine m v req).
Proof.
  intros H10 Hc. unfold forward.
  apply (takes_bind c 4 4); [apply auth_gate_takes|lia|]. intros hs.
  apply (takes_bind c 0 0); [by destruct (forwarded_request _ _ _ _ _)|lia|]. intros final_req.
  simpl. intros [resp|e]; [|unfold upstream_unreachable; solve_takes].
  eapply takes_mono; [| |apply (upstream_answer_takes _ _ _ _ _ _ (b - 5)); lia]; lia.
Qed.

Lemma handle_request_takes active peer pp req b :
  15 ≤ b → 12 + c ≤ b → takes c b b (handle_request active peer pp req).
Proof.
  intros H15 Hc. unfold handle_request. set (v := request_vars peer pp req).
  apply (takes_bind c 5 2); [apply security_gate_takes|lia|]. intros _.
  apply (takes_bind c 1 0); [apply body_gate_takes|lia|]. intros _.
  apply (takes_bind c 7 1); [apply cache_lookup_takes|lia|]. intros _.
  apply (takes_bind c 6 (b - 5)); [|lia|intros resp; unfold finish_request; solve_takes].
  destruct (match_route _ _ _) as [m|]; [apply forward_takes; lia|].
  unfold no_matching_route. solve_takes.
Qed.

Lemma log_all_takes {R} r rs : takes (R := R) c r (Z.of_nat (length rs)) (log_all rs).
Proof.
  revert r. induction rs as [|rec rs IH]; intros r; simpl; [lia|]. intros _.
  eapply takes_mono; [| |apply (IH (r - 1))]; lia.
Qed.

Lemma proxy_protocol_log_short now stream peer sec :
  (length (proxy_protocol_log now stream peer sec) ≤ 1)%nat.
Proof. unfold proxy_protocol_log. repeat case_match; simpl; lia. Qed.

Lemma drop_blacklisted_takes active peer : takes c 2 1 (drop_blacklisted active peer).
Proof. unfold drop_blacklisted. solve_takes. Qed.

Lemma handle_connection_takes now active serving stream peer :
  takes c 6 6 (handle_connection now active serving stream peer).
Proof.
  unfold handle_connection.
  apply (takes_bind c 2 1); [apply drop_blacklisted_takes|lia|]. intros _.
  apply (takes_bind c 2 1); [|lia|].
  - unfold resolve_peer. destruct (active_security active) as [sec|]; [|simpl; lia].
    apply (takes_bind c 0 1); [|lia|solve_takes].
    eapply takes_mono; [| |apply (log_all_takes 0)]; [lia|].
    pose proof (proxy_protocol_log_short now stream peer sec). lia.
  - intros [[ps addr] b].
    apply (takes_bind c 2 1); [apply drop_blacklisted_takes|lia|]. intros _.
    unfold serve_connection. solve_takes.
Qed.

Lemma spawned_takes t : takes c 6 6 (spawned_task t).
Proof. destruct t; unfold spawned_task, insert_task, tunnel_task; solve_takes. Qed.

(** The number of effects a task may do *)
Definition task_budget (t : task CertifiedKey) : Z :=
  match t with
  | RequestTask _ _ _ _ => 15
  | ConnectionTask _ _ _ _ _ | SpawnedTask _ => 6
  end.

Lemma task_takes t b :
  task_budget t ≤ b → 12 + c ≤ b → takes c b b (task_prog t).
Proof.
  intros Hb Hc. destruct t; simpl in Hb; apply takes_pmap.
  - by apply handle_request_takes.
  - eapply takes_mono; [..|apply handle_connection_takes]; lia.
  - eapply takes_mono; [..|apply spawned_takes]; lia.
Qed.

Lemma spawned_task_takes t : takes c 6 6 (task_prog (CertifiedKey := CertifiedKey) (SpawnedTask t)).
Proof. apply takes_pmap, spawned_takes. Qed.
End stages.

(** ** Every task ends *)

Section progress.
Context {CertifiedKey : Type} `{KeyLoader CertifiedKey} {L : Type → Type} `{LruLaws L} `{Http}.
#[local] Set Default Proof Using "Type*".
Implicit Types (s : Sys CertifiedKey L).

(** What a task that has nothing left to do ended with *)
Definition ended (p : prog task_end task_end) : option task_end :=
  match p with
  | Ret e | Return e => Some e
  | Vis _ _ => None
  end.

(** What the task has done and what it may still do are within its budget. *)
Lemma budget_left s j t p :
  sys_ok s → threads s !! j = Some (MkThread t p) →
  let left := task_budget t - Z.of_nat (length (own j (history s))) in takes 0 left left p.
Proof.
  intros Hok Hj. pose proof (ok_runs _ Hok j _ Hj) as Hr. simpl in Hr.
  rewrite <- cost_length. eapply takes_runs; [done|].
  destruct t; [apply task_takes; simpl; lia|..]; apply takes_pmap;
    [apply handle_connection_takes|apply spawned_takes].
Qed.

(** A task that moves alone, with no time passing, comes to its end. *)
Lemma runs_to_end horizon s j t p :
  sys_ok s → threads s !! j = Some (MkThread t p) →
  ∃ s' tr q e, rtc (sys_step horizon) s s' ∧
    history s' = history s ++ (MkEntry j (clock s) <$> tr) ∧
    threads s' !! j = Some (MkThread t q) ∧ ended q = Some e.
Proof.
  revert s. induction p as [e|e|X e k IH]; intros s Hok Hj.
  - exists s, [], (Ret e), e. by rewrite app_nil_r.
  - exists s, [], (Return e), e. by rewrite app_nil_r.
  - destruct (effect_possible horizon s j t X e k Hok Hj) as (x & s1 & Hstep & Hj1 & Hc & Hh).
    destruct (IH x s1 (sys_ok_step _ _ _ Hstep Hok) Hj1) as (s' & tr & q & e' & Hrtc & Hh' & ? & ?).
    exists s', (Event e x :: tr), q, e'. split_and!; [by eapply rtc_l| |done..].
    by rewrite Hh', Hh, Hc, <- app_assoc.
Qed.

Lemma sys_ok_rtc horizon s s' : rtc (sys_step horizon) s s' → sys_ok s → sys_ok s'.
Proof. induction 1; eauto using sys_ok_step. Qed.

(** Every task of the running server ends.  In every reachable state, whatever the
    other tasks, the reloads and the network did so far, a task has done at most its
    number of effects (15 for a request, 6 for a connection, an insertion into a cache
    or a tunnel), and fewer when it has not ended yet.  And it can go on to
    its end within that number by itself: no other task has to move and no time has to
    pass, once the servers and clients it waits for answer. *)
Theorem every_task_ends horizon env cfg path l s j t p :
  sys_reachable horizon env cfg path l s → threads s !! j = Some (MkThread t p) →
  Z.of_nat (length (own j (history s))) ≤ task_budget t ∧
  (ended p = None → Z.of_nat (length (own j (history s))) < task_budget t) ∧
  ∃ s' tr q e, rtc (sys_step horizon) s s' ∧
    history s' = history s ++ (MkEntry j (clock s) <$> tr) ∧
    threads s' !! j = Some (MkThread t q) ∧ ended q = Some e ∧
    Z.of_nat (length (own j (history s'))) ≤ task_budget t.
Proof.
  intros Hok%sys_ok_reachable Hj. pose proof (budget_left s j t p Hok Hj) as Hleft.
  cbv zeta in Hleft. split_and!.
  - apply takes_nonneg in Hleft; [|done]. lia.
  - destruct p as [?|?|X e k]; try done. intros _.
    pose proof (takes_nonneg 0 _ _ (Z.le_refl 0) (Hleft (some_answer e))).
    pose proof (weight_pos 0 e ltac:(done)). lia.
  - destruct (runs_to_end horizon s j t p Hok Hj) as (s' & tr & q & e & Hrtc & Hh & Hj' & He).
    exists s', tr, q, e. split_and!; try done.
    pose proof (takes_nonneg 0 _ _ (Z.le_refl 0) (budget_left s' j t q (sys_ok_rtc _ _ _ Hrtc Hok) Hj')). lia.
Qed.
End progress.

(** ** The server comes to rest *)

Section draining.
Context {CertifiedKey : Type} `{KeyLoader CertifiedKey} {L : Type → Type} `{LruLaws L} `{Http}.
#[local] Set Default Proof Using "Type*".
Implicit Types (s : Sys CertifiedKey L).

(** A step that is not the arrival of a connection or of a request: time, a reload,
    a failed accept, or an effect of a task, which may be to spawn another *)
Definition quiet_step (horizon : Z) s s' : Prop :=
  sys_step horizon s s' ∧ ∀ t, s' ≠ spawn t s.

Definition at_rest s : Prop := Forall (λ th, is_Some (ended (th_prog th))) (threads s).

Fixpoint zsum (ns : list Z) : Z :=
  match ns with [] => 0 | n :: ns' => n + zsum ns' end.

Lemma zsum_app ns ns' : zsum (ns ++ ns') = zsum ns + zsum ns'.
Proof. induction ns as [|n ns IH]; simpl; [done|]. lia. Qed.

Lemma zsum_insert ns i n m : ns !! i = Some n → zsum (<[i := m]> ns) = zsum ns - n + m.
Proof.
  revert i. induction ns as [|n' ns IH]; intros [|i] Hi; simplify_eq/=; [lia|].
  specialize (IH i Hi). lia.
Qed.

Lemma zsum_replicate k n : zsum (replicate k n) = Z.of_nat k * n.
Proof. induction k as [|k IH]; [done|]. simpl. lia. Qed.

(** Bounds on what each task may still cost, counting six for a task it spawns *)
Definition budgets (ns : list Z) s : Prop :=
  Forall2 (λ n th, takes 6 n n (th_prog th)) ns (threads s).

Lemma budgets_nonneg ns s : budgets ns s → 0 ≤ zsum ns.
Proof.
  unfold budgets. induction 1 as [|n th ns ths Hn _ IH]; [done|].
  apply takes_nonneg in Hn; [|done]. simpl. lia.
Qed.

Lemma budgets_effect ns s i t X (e : effect X) k x (s' : Server CertifiedKey L) :
  threads s !! i = Some (MkThread t (Vis e k)) → budgets ns s →
  ∃ ns', budgets ns' (MkSys s' (clock s) (<[i := MkThread t (k x)]> (threads s) ++ spawns e)
                        (history s ++ [MkEntry i (clock s) (Event e x)])) ∧
    zsum ns' + 1 ≤ zsum ns.
Proof.
  intros Hi Hns. destruct (Forall2_lookup_r _ _ _ _ _ Hns Hi) as (n & Hn & Hp).
  exists (<[i := n - weight 6 e]> ns ++ match e with SpawnE _ => [6] | _ => [] end). split.
  - apply Forall2_app; [apply Forall2_insert; [done|apply Hp]|].
    destruct e; repeat constructor. apply spawned_task_takes.
  - rewrite zsum_app, (zsum_insert _ _ n) by done. destruct e; simpl; lia.
Qed.

(** A quiet step uses up at least what it adds to the history. *)
Lemma budgets_step horizon ns s s' :
  quiet_step horizon s s' → budgets ns s →
  ∃ ns', budgets ns' s' ∧
    zsum ns' + Z.of_nat (length (history s')) ≤ zsum ns + Z.of_nat (length (history s)).
Proof.
  intros [Hstep Hq] Hns. destruct Hstep; try (by exists ns); try by destruct (Hq _ eq_refl).
  destruct (budgets_effect ns s i t X e k x s' ltac:(done) Hns) as (ns' & Hns' & Hsum).
  exists ns'. split; [done|]. simpl. rewrite length_app. simpl. lia.
Qed.

Lemma budgets_rtc horizon ns s s' :
  rtc (quiet_step horizon) s s' → budgets ns s →
  ∃ ns', budgets ns' s' ∧
    zsum ns' + Z.of_nat (length (history s')) ≤ zsum ns + Z.of_nat (length (history s)).
Proof.
  intros Hrtc. revert ns. induction Hrtc as [s|s1 s2 s3 Hstep _ IH]; intros ns Hns; [by exists ns|].
  destruct (budgets_step _ _ _ _ Hstep Hns) as (ns2 & Hns2 & ?).
  destruct (IH ns2 Hns2) as (ns3 & ? & ?). exists ns3. split; [done|lia].
Qed.

Lemma cost_nonneg tr : 0 ≤ cost 6 tr.
Proof.
  induction tr as [|[X e x] tr IH]; simpl; [done|]. pose proof (weight_pos 6 e). lia.
Qed.

Lemma budgets_reachable s : sys_ok s → budgets (replicate (length (threads s)) 18) s.
Proof.
  intros Hok. apply Forall2_same_length_lookup. rewrite length_replicate. split; [done|].
  intros j n [t p] [-> _]%lookup_replicate Hj. simpl.
  pose proof (takes_runs 6 18 18 _ _ _ (ok_runs _ Hok j _ Hj)) as Hp. simpl in Hp.
  pose proof (cost_nonneg (own j (history s))).
  eapply takes_mono; [..|apply Hp, task_takes]; [lia..| |lia]. destruct t; simpl; lia.
Qed.

(** As long as a task has not ended, a quiet step can be taken. *)
Lemma rest_or_step horizon s : sys_ok s →
  at_rest s ∨ ∃ s', quiet_step horizon s s' ∧ length (history s') = S (length (history s)).
Proof.
  intros Hok. unfold at_rest. destruct (decide (Forall (λ th, is_Some (ended (th_prog th))) (threads s)))
    as [Hall|Hex]; [by left|right].
  apply not_Forall_Exists, Exists_exists in Hex as ([t p] & Hin & Hp); [|apply _].
  apply list_elem_of_lookup in Hin as [j Hj]. simpl in Hp.
  destruct p as [e|e|X e k]; [by destruct Hp; eexists..|].
  destruct (effect_possible horizon s j t X e k Hok Hj) as (x & s' & Hstep & _ & _ & Hh).
  exists s'. assert (length (history s') = S (length (history s))) as Hlen
    by (rewrite Hh, length_app; simpl; lia).
  split; [split; [done|]|done]. intros t' ->. simpl in Hlen. lia.
Qed.

Lemma comes_to_rest horizon n ns s :
  sys_ok s → budgets ns s → zsum ns ≤ Z.of_nat n →
  ∃ s', rtc (quiet_step horizon) s s' ∧ at_rest s'.
Proof.
  revert ns s. induction n as [|n IH]; intros ns s Hok Hns Hn;
    (destruct (rest_or_step horizon s Hok) as [?|(s1 & Hq & Hlen)]; [by exists s|]);
    destruct (budgets_step _ _ _ _ Hq Hns) as (ns1 & Hns1 & Hsum);
    pose proof (budgets_nonneg _ _ Hns1); [lia|].
  destruct (IH ns1 s1) as (s' & ? & ?); [by eapply sys_ok_step; [apply Hq|]|done|lia|].
  exists s'. split; [by eapply rtc_l|done].
Qed.

(** C17: The server drains.  From any reachable state, once no connection and no request
    comes in any more, at most eighteen effects happen for each task in flight,
    whatever the order in which the tasks take turns, the answers of the network and
    the reloads in between, and counting the tasks that these spawn.  And from wherever
    such a run has come to, the server can come to rest, with every task ended. *)
Theorem server_drains horizon env cfg path l s s' :
  sys_reachable horizon env cfg path l s → rtc (quiet_step horizon) s s' →
  Z.of_nat (length (history s')) ≤
    Z.of_nat (length (history s)) + 18 * Z.of_nat (length (threads s)) ∧
  ∃ s'', rtc (quiet_step horizon) s' s'' ∧ at_rest s''.
Proof.
  intros Hok%sys_ok_reachable Hrtc.
  destruct (budgets_rtc _ _ _ _ Hrtc (budgets_reachable s Hok)) as (ns & Hns & Hsum).
  pose proof (budgets_nonneg _ _ Hns). rewrite zsum_replicate in Hsum. split; [lia|].
  apply (comes_to_rest horizon (Z.to_nat (zsum ns)) ns); [|done|lia].
  apply (sys_ok_rtc horizon s); [|done]. eapply rtc_subrel; [|done]. by intros ? ? [].
Qed.
End draining.

(** ** Examples *)

Section progress_witnesses.
#[local] Existing Instance SimpleHttp.
#[local] Existing Instance trivial_loader.

(** The first request of the day, before its first effect: it can be answered. *)
Lemma every_task_ends_witness :
  match threads (shop_day 5) !! 1%nat with
  | Some (MkThread t p) =>
      ended p = None ∧ task_budget t = 15 ∧
      ∃ s' tr q e, rtc (sys_step shop_horizon) (shop_day 5) s' ∧
        history s' = history (shop_day 5) ++ (MkEntry 1 (clock (shop_day 5)) <$> tr) ∧
        threads s' !! 1%nat = Some (MkThread t q) ∧ ended q = Some e ∧
        Z.of_nat (length (own 1 (history s'))) ≤ task_budget t
  | None => False
  end.
Proof.
  assert (match threads (shop_day 5) !! 1%nat with
          | Some (MkThread t (Vis _ _)) => task_budget t =? 15
          | _ => false end = true) as Hvis by (vm_compute; reflexivity).
  destruct (threads (shop_day 5) !! 1%nat) as [[t p]|] eqn:Hi; [|discriminate Hvis].
  destruct p as [r|r|X e k]; [discriminate Hvis|discriminate Hvis|].
  split; [reflexivity|]. split; [exact (proj1 (Z.eqb_eq _ _) Hvis)|].
  exact (proj2 (proj2 (every_task_ends shop_horizon sample_env shop_file (lit "proxy.conf")
    empty_log (shop_day 5) 1 t (Vis e k) (shop_day_reachable 5) Hi))).
Defined.

Lemma advances_quiet {CertifiedKey} `{KeyLoader CertifiedKey} {L : Type → Type} `{LruOps L}
    horizon n i net (s s' : Sys CertifiedKey L) :
  perform_all horizon (replicate n (Advance i net)) s = Some s' → rtc (quiet_step horizon) s s'.
Proof.
  revert s. induction n as [|n IH]; intros s Hp; [by simplify_eq/=|].
  cbn [replicate perform_all] in Hp. apply bind_Some in Hp as (s1 & Hs1 & Hp).
  eapply rtc_l; [|by apply IH]. split; [by eapply perform_step|]. intros t ->. simpl in Hs1.
  apply bind_Some in Hs1 as (th & _ & Hs1). destruct (th_prog th) as [| |X e k]; try done.
  apply bind_Some in Hs1 as ([x s2] & _ & Hs1). apply (inj Some), (f_equal history) in Hs1.
  apply (f_equal length) in Hs1. simpl in Hs1. rewrite length_app in Hs1. simpl in Hs1. lia.
Qed.

(** The first request is answered while nothing else comes in; what it has spawned
    will end as well. *)
Lemma server_drains_witness :
  match perform_all shop_horizon (replicate 7 (Advance 1 kind_oracle)) (shop_day 5) with
  | Some s' =>
      length (threads s') = 3%nat ∧ ∃ s'', rtc (quiet_step shop_horizon) s' s'' ∧ at_rest s''
  | None => False
  end.
Proof.
  assert (match perform_all shop_horizon (replicate 7 (Advance 1 kind_oracle)) (shop_day 5) with
          | Some s' => (length (threads s') =? 3)%nat
          | None => false end = true) as Hrun by (vm_compute; reflexivity).
  destruct (perform_all shop_horizon (replicate 7 (Advance 1 kind_oracle)) (shop_day 5)) as [s'|]
    eqn:Hp; [|discriminate Hrun].
  split; [exact (proj1 (Nat.eqb_eq _ _) Hrun)|].
  exact (proj2 (server_drains shop_horizon sample_env shop_file (lit "proxy.conf") empty_log
    (shop_day 5) s' (shop_day_reachable 5) (advances_quiet _ _ _ _ _ _ Hp))).
Defined.

(** The bound on a handler is met: a protected route, a cache, and an answer of
    announced length that is not stored. *)
Definition long_oracle : oracle :=
  calm_oracle (Ok (MkResponse 200 [(lit "remote-user", lit "ada")] (Some [])))
    (Ok (MkResponse 200 [(lit "content-length", lit "5")] (Some (lit "hello")))).

Definition long_text : str := text_of
  ["listen 80;"; "workers 1;"; "route http://a.b/ {"; "forward http://c:1/;"; "auth on;"; "}";
   "security {"; "forward_auth http://auth/;"; "}"; "cache {"; "ttl 60;"; "}"]%string.

Example handler_budget_met :
  length (exec long_oracle []
    (handle_request (current (server_of long_text)) shop_peer false
       (MkRequest (lit "GET") sample_uri (lit "HTTP/1.1") [(lit "host", lit "a.b")] (Some [])))).2
  = 15%nat.
Proof. vm_compute. reflexivity. Qed.
End progress_witnesses.
